(* ===== verification/_CoqProject ===== *)
-Q . S2P
Prelude.v
MachineInt.v
Text.v
Event.v
Header.v
Context.v
Wire.v
Hash.v
Cancel.v
Stream.v
Subject.v
Subscribe.v
Filtering.v
Transforming.v
Combining.v
Conditional.v
ErrorHandling.v
Utility.v
Delay.v
Guard.v
Operators.v
Bridge.v
Publish.v
Notify.v
Client.v
Dropping.v
Server.v
Registry.v
System.v
Locator.v
Pump.v
Open.v
Process.v
Correlate.v
Metrics.v
Collector.v
Parse.v
Json.v
Http.v
Config.v
Health.v
Observer.v
Traces.v
Gateway.v
Macro.v
Generated.v
JsonView.v
Main.v
Render.v
Console.v
Spans.v
Runtime.v
Presence.v
Channel.v
Nodes.v
MonitorMain.v
