(* ===== verification/Prelude.v ===== *)
(** * Verification of ice-rpc

    ice-rpc is a remote procedure call stack over the shared-memory
    publish/subscribe bus iceoryx2.  A consumer publishes a request sample on
    the request channel of a service and receives the answers, a stream of
    events, on the response channel; a provider routes each request to the
    dispatcher of its service, polls the task of the handler and publishes what
    its stream produces.  Both ends see a call as an [Observable], the stream
    type of the crate ice-rpc-rx, whose operators are composed on either side.

    ** Parts of the program and files of the development

    - [Prelude] (this file): results, polls, loops, automation.
      [MachineInt]: integers of a fixed width and byte strings.
      [Text]: the text functions the sources use.
    - [Event]: ice-rpc-rx/src/error.rs and event.rs, with the channel crate as
      the interface [AsyncChannel].
    - [Header]: ice-rpc/src/types/header.rs and node.rs.  [Context]:
      types/context.rs, and [Spans]: the spans of the calls and the scopes that
      enter them.  [Wire]: types/wire.rs.  [Hash]: src/hash.rs.
    - [Cancel]: ice-rpc-rx/src/rt/cancel.rs, as whole operations and as the
      atomic steps threads interleave.  [Runtime]: rt/mod.rs, the modes, the
      spawner and its poll in place, the blocking threads, the timeout, over the
      executors and the futures as the interfaces [TaskPool] and [Futures].
    - [Stream]: ice-rpc-rx/src/stream.rs.  A stream is a state with a
      [poll_next]; [yields s l] says that polling [s] to its end, through any
      pauses, hands out [l].
    - [Subject]: ice-rpc-rx/src/subject.rs, the subscribers' channels in a store.
      [Subscribe]: subscribe.rs and transform/terminals.rs, the push task, the
      draw of its races and those who await it.
    - [Filtering], [Transforming], [Combining], [Conditional],
      [ErrorHandling], [Utility]: the files of the same names under
      ice-rpc-rx/src/transform/, each operator a record over the state of its
      source, its [poll_next] written as in the source.  [Delay]: the delay operator
      of utility.rs, over a clock.  [Guard]: the grammar
      they keep together.  [Operators]: creation.rs and the composition of
      operators.
    - [Bridge]: ice-rpc/src/transport/bridge.rs, from an observable to the
      samples of a call, with the archiver (rkyv) as the interface [Codec].
    - [Publish]: transport/publish.rs over the interface [Bus] (iceoryx2, the
      clock, the signal flag).  [Notify]: transport/notify.rs.
    - [Client]: transport/client.rs, a consumed channel shared by callers, the
      response thread and consumers.
    - [Server]: transport/server.rs, a provided channel: hub, table of the calls
      in flight, cancellable tasks, routing, and the spawner of
      ice-rpc-rx/src/rt/mod.rs.  [Registry]: the registration and the start of
      the channels.
    - [System]: the two sides joined.
    - [Pump]: transport/pump.rs and waitset.rs, the loop of the dispatch
      threads.  [Open]: transport/open.rs, what a failure to open means and the
      bounded retry.  [Presence]: the services and ports the participants of a
      channel open (open.rs, server.rs, client.rs, monitor.rs) and the probe of a
      provider, over the interface [IoxBus].  [Channel]: the life of the thread of
      a provided channel (server.rs, spawn_native_service), which joins
      [Presence], [Pump] and [Server].  [Process]: the life of a process (lib.rs, shutdown.rs,
      transport/mod.rs, the port cache of client.rs).  [Locator]:
      ice-rpc/src/locator.rs, the providers of a process and the order they
      start in.
    - The monitor: [Correlate] (ice-rpc-monitor/src/correlate.rs and loss.rs),
      [Metrics] (metrics.rs and metrics/render.rs), [Collector] (the treatment
      of samples of collector.rs, with the decoders of
      ice-rpc/src/monitor/decode.rs), [Config] (config.rs), [Health] (health.rs
      and the inventory of metrics.rs), [Observer] (the acquisition loop of
      collector.rs, over the interface [ObserverBus]), [Traces] (traces.rs),
      [Nodes] (liveness.rs, cleanup.rs, the listings of
      ice-rpc/src/monitor/inventory.rs and the reaping of transport/mod.rs),
      [MonitorMain] (main.rs and shutdown.rs), [Render] (metrics/prometheus.rs and prometheus.rs, the exposition with a
      reader of its format), [Console] (metrics/console.rs and console.rs, the
      summary and the live view).
    - The JSON side: [Json] (ice-rpc/src/json.rs and transport/json_host.rs),
      [Http] (http_gateway.rs), over the text functions of [Parse], and [Gateway]
      (ice-rpc-nodejs/src/, the bridge to a JavaScript dispatcher).
    - The macros: [Macro] (ice-rpc-macros/src/model.rs, codegen/helpers.rs and
      lib.rs: the attributes, the model a trait is read into and its refusals,
      the payload attribute), [Generated] (codegen/client.rs, server.rs, proxy.rs
      and lifecycle.rs: what the generated methods, dispatchers and proxies do,
      as functions of the model, over the client and the server above),
      [JsonView] (codegen/json.rs and decoder.rs: the JSON conventions of a
      service and the decoder of the monitor), [Main] (entry.rs, features.rs and
      the entry points of ice-rpc/src/lib.rs: the generated main, [run_provider!]).

    ** Conventions

    Shared objects (tokens, channels of a call) live in a store and are named by
    an index, so that two holders see the same object.  A function that reads
    the clock, the process counters or the bus threads that state explicitly.
    Logging is dropped.  A class without laws lists the operations the source
    uses of code outside the repository; the class of the same name with
    [Laws] states what is relied on, and an instance ([VecChannel],
    [ByteCodec], [SimBus]) shows that the laws can hold and runs the examples.

    A [loop] is [rust_loop body m out]: its fuel is the measure [m] of the start
    state plus one, and each use proves that [m] decreases on every round, so
    the fuel is always enough and the value [out] is never returned.  For a
    stream operator the measure is the size of the source ([Sized]: what it can
    hand out without pausing); for the retrying write it is the yields left
    plus the sleeps left before the deadline; for the delay operator the
    reads left, plus the end of its source, the head that is due and a timer
    that rang early; for the topological order the
services that remain; for the opening the retries left; for the sleep and the
    live loop of the monitor the time left.  The receive loop
    runs as long as its environment lets it: it is modelled over the list of
    what the environment answered.

    ** What the theorems show

    - End to end: the events of a call are those of the provider's stream,
      whatever else the channel carries; a request that cannot be served is
      answered with an error the caller reads ([Client], [System]).
    - Consumer: calls do not mix under any interleaving, the table of handlers
      is exact, an abandoned call is cancelled and an answered one is not.
    - Provider: the table of the calls in flight is exact, a Cancel stops its
      call silently and wakes it, responses are numbered without gaps but for
      losses, registered services are served.
    - Publication: a write ends, delivers once or not at all, and respects its
      deadline; a wake-up is skipped only behind a recent one.
    - Process: services start after those they depend on, whatever order the
      registry lists them in; the receive loop handles what it receives; opening
      is retried a bounded number of times and only when a retry can help; a
      channel is opened once per process, and the clean shutdown leaves nothing
      on the bus but what a call stream still holds; a failed node is kept.  The
      probe of a channel tells exactly whether a provider is on the bus and
      changes nothing; a provided channel holds its ports while it serves, those
      of its hub while a call is left, and nothing afterwards.
    - Cancellation token: no wake-up is lost.  Runtime: no task is lost by the
      poll in place.  Spans: what a thread records is the lexical attribution.
    - Streams: each operator delivers the list its specification reads, keeps
      values before one terminal, and a pull consumer reports what it was given.
    - Subjects and subscriptions: every subscriber sees the replay and then each
      event once, in any interleaving; a subscription makes the callbacks of its
      stream and wakes those who await it.
    - Monitor: the gauge of the calls in flight is the table of pending calls,
      responses that overtake their request are accounted as if they had not,
      losses are the missing numbers, a quantile is the bound it promises.  The
      acquisition loop refines the monitor: every sample taken from a port is
      told once; the attachments it exports are its views; a trace is written,
      waiting or counted as dropped; a command line is read back.  The
      exposition is read back as the registry, and a drawn frame fits the
      terminal with its last messages.  The crashes counted are the emitters that
      fell; the live view stops within a step of the termination flag.
    - JSON and HTTP: a call served through a JSON host publishes what a native
      one does; the cache of the gateway cannot be seen, whatever the
      interleaving of its handlers; query strings are read back; an origin is
      accepted exactly when its host belongs to the domain.  A call served by
      JavaScript delivers the answers that were accepted, and unanswered calls
      exhaust the table of the gateway.
    - Macros: an accepted service is well formed; a generated client and a
      generated dispatcher are transparent, a caller cannot tell a local service
      from a remote one; what a process may initialize twice; a colliding method
      is lost; JSON arguments are read back and the observer renders what the
      calls carry; the generated main always shuts down behind its body, and a
      provider that waits serves what it was given.
    - Identifiers: uniqueness of correlation ids, strict parsing, the limits of
      the uniqueness of span ids.

    ** Not modelled

    The parsing of Rust (syn) and the tokens the macros write (quote): a trait
    comes parsed, and generated code is its meaning.  The conversions of napi,
    the re-exports, the lock wrappers and the examples are glue around libraries;
    the alignment of a payload, which decides between a decoding in place and a
    copy, has no counterpart here.  iceoryx2, the executors, the signals, the
    shared-memory listings and the system library are interfaces or arguments.
    The HTTP server, the JSON library, base64 and the text of a float are
    parameters.  A task is assumed to reach the hub through the emitter of its
    own request only; the process and its clock are constant during one step. *)

From stdpp Require Export base tactics option list numbers gmap strings.
From Stdlib Require Export ZArith Lia.

Declare Scope icerpc_scope.
Delimit Scope icerpc_scope with rpc.

(** ** Proof automation *)

Create HintDb icerpc.
Create Rewrite HintDb icerpc.

(** Case analysis on the scrutinee of the first [match] of the goal. *)
Ltac case_goal :=
  match goal with
  | |- context [match ?x with _ => _ end] => destruct x eqn:?
  end.

(** Solve a goal by evaluation after clearing trivial case splits. *)
Ltac crush := repeat (simplify_eq/=; try case_goal); try done; try lia.

(** ** Unbounded loops

    A Rust [loop { .. }] whose body either goes round again with a new state or
    returns.  [rust_loop body m out s] runs it with a fuel of [S (m s)];
    [rust_loop_unfold] shows that the fuel never runs out when [m] decreases
    on every round trip, so that the value [out] is never observed. *)

Fixpoint loop_fuel {St R} (body : St → St + R) (out : St → R) (fuel : nat) (s : St) : R :=
  match fuel with
  | O => out s
  | S n => match body s with
          | inl s' => loop_fuel body out n s'
          | inr r => r
          end
  end.

Definition rust_loop {St R} (body : St → St + R) (m : St → nat) (out : St → R) (s : St) : R :=
  loop_fuel body out (S (m s)) s.

Section loops.
Context {St R : Type} (body : St → St + R) (m : St → nat) (out : St → R).
Hypothesis decreases : ∀ s s', body s = inl s' → m s' < m s.

Lemma loop_fuel_enough n1 n2 s :
  m s < n1 → m s < n2 → loop_fuel body out n1 s = loop_fuel body out n2 s.
Proof.
  revert n2 s; induction n1 as [|n1 IH]; intros [|n2] s H1 H2; try lia; simpl.
  destruct (body s) as [s'|r] eqn:E; [|done].
  apply decreases in E. apply IH; lia.
Qed.

Lemma rust_loop_unfold s :
  rust_loop body m out s =
  match body s with
  | inl s' => rust_loop body m out s'
  | inr r => r
  end.
Proof.
  unfold rust_loop at 1; simpl.
  destruct (body s) as [s'|r] eqn:E; [|done].
  apply decreases in E. apply loop_fuel_enough; lia.
Qed.

(** Induction over the rounds of a loop. *)
Lemma rust_loop_ind (P : St → R → Prop) :
  (∀ s r, body s = inr r → P s r) →
  (∀ s s' r, body s = inl s' → P s' r → P s r) →
  ∀ s, P s (rust_loop body m out s).
Proof.
  intros Hret Hstep.
  assert (Hall : ∀ k s, m s < k → P s (rust_loop body m out s)).
  { intros k; induction k as [|k IH]; intros s Hs; [lia|].
    rewrite rust_loop_unfold. destruct (body s) as [s'|r] eqn:E; [|by apply Hret].
    apply (Hstep s s'); [done|]. apply IH. apply decreases in E. lia. }
  intros s. apply (Hall (S (m s))). lia.
Qed.

(** The rounds a run takes: [n] times round, and then the answer of the body. *)
Inductive loop_rounds : St → nat → R → Prop :=
| rounds_last s r : body s = inr r → loop_rounds s 0 r
| rounds_more s s' n r : body s = inl s' → loop_rounds s' n r → loop_rounds s (S n) r.

(** A loop ends, with an answer its body gave, after as many rounds as its measure
    at most: the fuel does not show. *)
Lemma rust_loop_rounds s : ∃ n, n ≤ m s ∧ loop_rounds s n (rust_loop body m out s).
Proof.
  apply (rust_loop_ind (λ s r, ∃ n, n ≤ m s ∧ loop_rounds s n r)).
  - intros s1 r Hb. exists 0. split; [lia|]. by apply rounds_last.
  - intros s1 s' r Hb (n & Hn & Hr). exists (S n). apply decreases in Hb as Hlt. split; [lia|]. by eapply rounds_more.
Qed.
End loops.

(** ** Results, panics and polls *)

(** Rust's [Result]. *)
Inductive result (A B : Type) : Type :=
| Ok (a : A)
| Err (b : B).
Arguments Ok {A B} a.
Arguments Err {A B} b.

#[export] Instance result_eq_dec {A B} `{EqDecision A, EqDecision B} : EqDecision (result A B).
Proof. solve_decision. Defined.

Definition is_ok {A B} (r : result A B) : bool := match r with Ok _ => true | Err _ => false end.
Definition is_err {A B} (r : result A B) : bool := negb (is_ok r).

(** The outcome of a computation that may panic (an out-of-range index, a
    failed [expect]). *)
Inductive outcome (A : Type) : Type :=
| Ret (a : A)
| Panic.
Arguments Ret {A} a.
Arguments Panic {A}.

#[export] Instance outcome_eq_dec {A} `{EqDecision A} : EqDecision (outcome A).
Proof. solve_decision. Defined.

(** [std::task::Poll]. *)
Inductive poll (A : Type) : Type :=
| Pending
| Ready (a : A).
Arguments Pending {A}.
Arguments Ready {A} a.

#[export] Instance poll_eq_dec {A} `{EqDecision A} : EqDecision (poll A).
Proof. solve_decision. Defined.

(** ** Lists *)

Lemma list_alter_insert {A} (f : A → A) (l : list A) (i : nat) (x : A) :
  l !! i = Some x → alter f i l = <[i := f x]> l.
Proof.
  revert i; induction l as [|y l IH]; intros [|i] Hx; simplify_eq/=; [done|].
  f_equal. by apply IH.
Qed.
