(* ===== verification/MachineInt.v ===== *)
(** * Machine integers

    The unsigned integers of the Rust sources ([u8], [u16], [u32], [u64]) are
    kept as [Z] with their wrap-around written out ([wrap w]); bit operations
    are [Z]'s.  The lemmas are what the identifiers, hashes and sequence
    numbers of the program rely on: multiplication by an odd constant, xor and
    right xor-shifts are injective on a machine word, and the big-endian byte
    form of a word determines it. *)

From S2P Require Import Prelude.

Local Open Scope Z_scope.

(** [z] reduced to [w] bits: what a [wrapping_*] operation or an [as] cast
    leaves in a [w]-bit unsigned integer. *)
Definition wrap (w z : Z) : Z := z mod 2 ^ w.

(** [z] fits in [w] bits. *)
Definition fits (w z : Z) : Prop := 0 ≤ z < 2 ^ w.

Abbreviation u8 := (fits 8).
Abbreviation u16 := (fits 16).
Abbreviation u32 := (fits 32).
Abbreviation u64 := (fits 64).

#[export] Instance fits_dec w z : Decision (fits w z).
Proof. unfold fits. apply _. Defined.

(** [saturating_sub] and [saturating_add] on a [w]-bit unsigned integer. *)
Definition sat_sub (a b : Z) : Z := Z.max 0 (a - b).
Definition sat_add (w a b : Z) : Z := Z.min (2 ^ w - 1) (a + b).

(** [rotate_left] on a [w]-bit unsigned integer. *)
Definition rotl (w k z : Z) : Z := Z.lor (wrap w (Z.shiftl z k)) (Z.shiftr z (w - k)).

(** [z ^ (z >> k)], the step of the bit mixers. *)
Definition xorshr (k z : Z) : Z := Z.lxor z (Z.shiftr z k).

Lemma pow2_pos w : 0 ≤ w → 0 < 2 ^ w.
Proof. intros; by apply Z.pow_pos_nonneg. Qed.

Lemma fits_wrap w z : 0 ≤ w → fits w (wrap w z).
Proof. intros; apply Z.mod_pos_bound, pow2_pos; lia. Qed.

Lemma wrap_small w z : fits w z → wrap w z = z.
Proof. apply Z.mod_small. Qed.

Lemma wrap_wrap w z : wrap w (wrap w z) = wrap w z.
Proof. apply Zmod_mod. Qed.

Lemma fits_nonneg w z : fits w z → 0 ≤ z.
Proof. by intros []. Qed.

Lemma fits_mono w1 w2 z : w1 ≤ w2 → fits w1 z → fits w2 z.
Proof.
  intros ? [? ?]. split; [done|].
  eapply Z.lt_le_trans; [done|]. apply Z.pow_le_mono_r; lia.
Qed.

#[export] Hint Resolve fits_wrap fits_nonneg : icerpc.

Lemma u8_u32 z : u8 z → u32 z.
Proof. by apply fits_mono. Qed.
Lemma u8_u64 z : u8 z → u64 z.
Proof. by apply fits_mono. Qed.
Lemma u32_u64 z : u32 z → u64 z.
Proof. by apply fits_mono. Qed.

#[export] Hint Extern 2 (_ <= _)%Z => lia : icerpc.
#[export] Hint Resolve u8_u32 u8_u64 u32_u64 : icerpc.

(** Bits above the width of a word are zero, and a nonnegative number whose
    high bits are zero fits. *)
Lemma fits_testbit w z i : 0 ≤ w → fits w z → w ≤ i → Z.testbit z i = false.
Proof.
  intros Hw [H0 H1] Hi. rewrite <- (Z.mod_small z (2 ^ w)) by done.
  apply Z.mod_pow2_bits_high; lia.
Qed.

Lemma testbit_fits w z :
  0 ≤ w → 0 ≤ z → (∀ i, w ≤ i → Z.testbit z i = false) → fits w z.
Proof.
  intros Hw H0 H. split; [done|].
  destruct (Z.eq_dec z 0) as [->|Hz]; [by apply pow2_pos|].
  apply Z.log2_lt_pow2; [lia|]. destruct (Z.lt_ge_cases (Z.log2 z) w) as [|Hge]; [done|].
  specialize (H _ Hge). rewrite Z.bit_log2 in H by lia. done.
Qed.

Lemma fits_lxor w a b : 0 ≤ w → fits w a → fits w b → fits w (Z.lxor a b).
Proof.
  intros Hw Ha Hb. apply testbit_fits; [done| |].
  - apply Z.lxor_nonneg. split; eauto with icerpc.
  - intros i Hi. rewrite Z.lxor_spec, (fits_testbit w a), (fits_testbit w b) by done. done.
Qed.

Lemma fits_lor w a b : 0 ≤ w → fits w a → fits w b → fits w (Z.lor a b).
Proof.
  intros Hw Ha Hb. apply testbit_fits; [done| |].
  - apply Z.lor_nonneg. split; eauto with icerpc.
  - intros i Hi. rewrite Z.lor_spec, (fits_testbit w a), (fits_testbit w b) by done. done.
Qed.

Lemma fits_shiftr w k z : 0 ≤ k → fits w z → fits w (Z.shiftr z k).
Proof.
  intros Hk [H0 H1]. rewrite Z.shiftr_div_pow2 by done.
  assert (0 < 2 ^ k) by (by apply pow2_pos).
  split; [by apply Z.div_pos|].
  apply Z.le_lt_trans with z; [|done]. apply Z.div_le_upper_bound; nia.
Qed.

Lemma fits_xorshr w k z : 0 ≤ w → 0 ≤ k → fits w z → fits w (xorshr k z).
Proof. intros. apply fits_lxor; [done..|]. by apply fits_shiftr. Qed.

#[export] Hint Resolve fits_lxor fits_lor fits_shiftr fits_xorshr : icerpc.

(** ** Injectivity of the mixing steps *)

Lemma lxor_inj_r a b c : Z.lxor a b = Z.lxor a c → b = c.
Proof.
  intros H. apply (f_equal (Z.lxor a)) in H.
  by rewrite <- !Z.lxor_assoc, !Z.lxor_nilpotent, !Z.lxor_0_l in H.
Qed.

Lemma lxor_inj_l a b c : Z.lxor b a = Z.lxor c a → b = c.
Proof. rewrite !(Z.lxor_comm _ a). apply lxor_inj_r. Qed.

(** Multiplication by an invertible constant is injective modulo [2^w]. *)
Lemma wrap_mul_inj w c ci a b :
  wrap w (c * ci) = 1 →
  fits w a → fits w b → wrap w (a * c) = wrap w (b * c) → a = b.
Proof.
  unfold wrap. intros Hc Ha Hb H.
  assert (Hrec : ∀ z, fits w z → (((z * c) mod 2 ^ w) * ci) mod 2 ^ w = z).
  { intros z Hz. rewrite Zmult_mod_idemp_l.
    replace (z * c * ci) with (z * (c * ci)) by ring.
    rewrite <- Zmult_mod_idemp_r, Hc, Z.mul_1_r. by apply Z.mod_small. }
  rewrite <- (Hrec a), <- (Hrec b) by done. by rewrite H.
Qed.

(** A nonnegative number equal to its own proper right shift is zero. *)
Lemma shiftr_fixed k d : 0 < k → 0 ≤ d → Z.shiftr d k = d → d = 0.
Proof.
  intros Hk Hd H. rewrite Z.shiftr_div_pow2 in H by lia.
  assert (2 ≤ 2 ^ k) by (change 2 with (2 ^ 1) at 1; apply Z.pow_le_mono_r; lia).
  destruct (Z.eq_dec d 0); [done|].
  assert (d / 2 ^ k < d) by (apply Z.div_lt; lia). lia.
Qed.

Lemma xorshr_inj k a b : 0 < k → 0 ≤ a → 0 ≤ b → xorshr k a = xorshr k b → a = b.
Proof.
  unfold xorshr. intros Hk Ha Hb H.
  assert (Hd : Z.lxor a b = 0).
  { apply (shiftr_fixed k); [done|by apply Z.lxor_nonneg|].
    rewrite Z.shiftr_lxor. apply Z.bits_inj; intros i.
    apply (f_equal (λ z, Z.testbit z i)) in H. rewrite !Z.lxor_spec in H |- *.
    by destruct (Z.testbit a i), (Z.testbit b i), (Z.testbit (Z.shiftr a k) i),
      (Z.testbit (Z.shiftr b k) i). }
  by apply Z.lxor_eq in Hd.
Qed.

(** [z | 1] is never zero. *)
Lemma lor_1_pos z : 0 ≤ z → 0 < Z.lor z 1.
Proof.
  intros Hz. assert (0 ≤ Z.lor z 1) by (apply Z.lor_nonneg; lia).
  destruct (Z.eq_dec (Z.lor z 1) 0) as [H0|]; [|lia].
  apply Z.lor_eq_0_iff in H0 as [_ ?]; done.
Qed.

(** [z | 1] forgets the low bit of [z] and nothing else. *)
Lemma lor_1_low_bit a b : 0 ≤ a → 0 ≤ b → Z.lor a 1 = Z.lor b 1 → Z.shiftr a 1 = Z.shiftr b 1.
Proof.
  intros Ha Hb H. apply (f_equal (λ z, Z.shiftr z 1)) in H.
  rewrite !Z.shiftr_lor in H. change (Z.shiftr 1 1) with 0 in H.
  by rewrite !Z.lor_0_r in H.
Qed.

(** ** Bytes *)

(** A byte string whose elements are [u8]s. *)
Abbreviation bytes := (list Z).
Definition is_bytes (bs : bytes) : Prop := Forall u8 bs.

#[export] Instance is_bytes_dec bs : Decision (is_bytes bs).
Proof. unfold is_bytes. apply _. Defined.

(** [to_be_bytes] of an [8 * n]-bit integer, and the integer a big-endian byte
    string denotes. *)
Fixpoint to_be_bytes (n : nat) (z : Z) : bytes :=
  match n with
  | O => []
  | S n' => wrap 8 (Z.shiftr z (8 * Z.of_nat n')) :: to_be_bytes n' z
  end.

Fixpoint of_be_bytes_acc (acc : Z) (bs : bytes) : Z :=
  match bs with
  | [] => acc
  | b :: bs' => of_be_bytes_acc (acc * 256 + b) bs'
  end.
Definition of_be_bytes : bytes → Z := of_be_bytes_acc 0.

(** [u64::from_le_bytes]. *)
Fixpoint of_le_bytes (bs : bytes) : Z :=
  match bs with
  | [] => 0
  | b :: bs' => b + 256 * of_le_bytes bs'
  end.

Lemma length_to_be_bytes n z : length (to_be_bytes n z) = n.
Proof. by induction n; simpl; f_equal. Qed.

Lemma is_bytes_to_be_bytes n z : is_bytes (to_be_bytes n z).
Proof. induction n; constructor; [by apply fits_wrap|done]. Qed.

Lemma of_be_bytes_acc_to_be_bytes n acc z :
  of_be_bytes_acc acc (to_be_bytes n z) =
  acc * 2 ^ (8 * Z.of_nat n) + z mod 2 ^ (8 * Z.of_nat n).
Proof.
  revert acc; induction n as [|n IH]; intros acc.
  { simpl. rewrite Z.mod_1_r. lia. }
  cbn [to_be_bytes of_be_bytes_acc]. rewrite IH. unfold wrap.
  rewrite Z.shiftr_div_pow2 by lia.
  replace (8 * Z.of_nat (S n)) with (8 + 8 * Z.of_nat n) by lia.
  rewrite Z.pow_add_r by lia. change (2 ^ 8) with 256.
  assert (0 < 2 ^ (8 * Z.of_nat n)) by (apply pow2_pos; lia).
  rewrite (Z.mul_comm 256), Z.rem_mul_r by lia. ring.
Qed.

Lemma of_to_be_bytes n z :
  fits (8 * Z.of_nat n) z → of_be_bytes (to_be_bytes n z) = z.
Proof.
  intros [? ?]. unfold of_be_bytes.
  by rewrite of_be_bytes_acc_to_be_bytes, Z.mul_0_l, Z.mod_small.
Qed.

Lemma to_be_bytes_inj n a b :
  fits (8 * Z.of_nat n) a → fits (8 * Z.of_nat n) b →
  to_be_bytes n a = to_be_bytes n b → a = b.
Proof. intros Ha Hb H. by rewrite <- (of_to_be_bytes n a), H, of_to_be_bytes. Qed.

Lemma fits_of_le_bytes bs : is_bytes bs → fits (8 * Z.of_nat (length bs)) (of_le_bytes bs).
Proof.
  induction 1 as [|b bs Hb _ IH]; [done|].
  cbn [of_le_bytes length]. replace (8 * Z.of_nat (S (length bs))) with (8 + 8 * Z.of_nat (length bs)) by lia.
  destruct Hb, IH. unfold fits. rewrite Z.pow_add_r by lia. change (2 ^ 8) with 256 in *. lia.
Qed.

Lemma of_le_bytes_inj bs1 bs2 :
  length bs1 = length bs2 → is_bytes bs1 → is_bytes bs2 →
  of_le_bytes bs1 = of_le_bytes bs2 → bs1 = bs2.
Proof.
  intros Hl H1; revert bs2 Hl; induction H1 as [|b bs1 [] _ IH]; intros [|b2 bs2] Hl H2 He;
    inversion H2 as [|? ? []]; simplify_eq/=; [done|].
  change (2 ^ 8) with 256 in *.
  assert (b = b2) by lia; subst. f_equal. apply IH; [done..|lia].
Qed.
