(* ===== verification/Text.v ===== *)
(** * Text: the bytes of a string, hexadecimal rendering and reading

    Rust's [&str] is modelled by [string]; [as_bytes] is its UTF-8 view.  The
    hexadecimal formats the sources use ([{:02x}], [{:016x}], [{:#010x}]) are
    built from one byte-wise renderer, and [hex_value] is the digit table of
    the reader in [types/header.rs]. *)

From stdpp Require Export pretty.
From S2P Require Import Prelude MachineInt.

Local Open Scope Z_scope.

Definition as_bytes (s : string) : bytes :=
  map (λ a, Z.of_N (Ascii.N_of_ascii a)) (String.list_ascii_of_string s).

Definition of_bytes (bs : bytes) : string :=
  String.string_of_list_ascii (map (λ b, Ascii.ascii_of_N (Z.to_N b)) bs).

Lemma as_of_bytes bs : is_bytes bs → as_bytes (of_bytes bs) = bs.
Proof.
  intros H. unfold as_bytes, of_bytes. rewrite String.list_ascii_of_string_of_list_ascii.
  induction H as [|b bs [? ?] _ IH]; [done|]. simpl. rewrite IH. f_equal.
  rewrite Ascii.N_ascii_embedding; [lia|]. change (2 ^ 8) with 256 in *. lia.
Qed.

Lemma of_as_bytes s : of_bytes (as_bytes s) = s.
Proof.
  unfold as_bytes, of_bytes. rewrite map_map. erewrite map_ext.
  - rewrite map_id. apply String.string_of_list_ascii_of_string.
  - intros a. simpl. rewrite N2Z.id. apply Ascii.ascii_N_embedding.
Qed.

Lemma as_bytes_app s t : as_bytes (s +:+ t) = as_bytes s ++ as_bytes t.
Proof. induction s as [|c s IH]; [done|]. unfold as_bytes in *. simpl. by f_equal. Qed.

Lemma is_bytes_as_bytes s : is_bytes (as_bytes s).
Proof.
  unfold as_bytes, is_bytes. apply Forall_forall. intros b Hb.
  apply list_elem_of_In, in_map_iff in Hb as (a & <- & _).
  pose proof (Ascii.N_ascii_bounded a). unfold fits. change (2 ^ 8) with 256. lia.
Qed.

(** A decidable property of bytes, or of nibbles, is checked on all the values. *)
Lemma u8_cases (P : Z → Prop) `{∀ b, Decision (P b)} b :
  forallb (λ b, bool_decide (P b)) (seqZ 0 256) = true → u8 b → P b.
Proof.
  intros Hall [? ?]. change (2 ^ 8) with 256 in *. rewrite forallb_forall in Hall.
  apply (bool_decide_unpack _), Is_true_true, Hall, list_elem_of_In, elem_of_seqZ. lia.
Qed.

Lemma nibble_cases (P : Z → Prop) `{∀ b, Decision (P b)} n :
  forallb (λ n, bool_decide (P n)) (seqZ 0 16) = true → 0 ≤ n < 16 → P n.
Proof.
  intros Hall ?. rewrite forallb_forall in Hall.
  apply (bool_decide_unpack _), Is_true_true, Hall, list_elem_of_In, elem_of_seqZ. lia.
Qed.

(** Lowercase hexadecimal digit of a nibble, as an ASCII byte. *)
Definition hex_digit (n : Z) : Z := if n <? 10 then 48 + n else 87 + n.

(** [{:02x}] of one byte. *)
Definition hex_byte (b : Z) : bytes := [hex_digit (Z.shiftr b 4); hex_digit (Z.land b 15)].

Definition hex_bytes (bs : bytes) : bytes := mjoin (map hex_byte bs).

(** Value of an ASCII hexadecimal digit, both cases accepted. *)
Definition hex_value (c : Z) : option Z :=
  if (48 <=? c) && (c <=? 57) then Some (c - 48)
  else if (97 <=? c) && (c <=? 102) then Some (c - 97 + 10)
  else if (65 <=? c) && (c <=? 70) then Some (c - 65 + 10)
  else None.

(** ASCII lowercase of the hexadecimal letters. *)
Definition hex_lower (c : Z) : Z := if (65 <=? c) && (c <=? 70) then c + 32 else c.

(** [{:016x}] of a [u64] and [{:#010x}] of a [u32]. *)
Definition hex_u64 (z : Z) : string := of_bytes (hex_bytes (to_be_bytes 8 z)).
Definition hex_u32_prefixed (z : Z) : string :=
  ("0x" +:+ of_bytes (hex_bytes (to_be_bytes 4 z)))%string.

Lemma hex_value_digit n : 0 ≤ n < 16 → hex_value (hex_digit n) = Some n.
Proof.
  apply (nibble_cases (λ n, hex_value (hex_digit n) = Some n)). by vm_compute.
Qed.

Lemma hex_value_range c d : hex_value c = Some d → 0 ≤ d < 16.
Proof.
  unfold hex_value. repeat case_match; intros; simplify_eq;
    repeat match goal with H : _ && _ = true |- _ => apply andb_prop in H as [? ?] end; lia.
Qed.

(** Reading a digit and rendering it back is the lowercase of the digit. *)
Lemma hex_digit_value c d : hex_value c = Some d → hex_digit d = hex_lower c.
Proof.
  unfold hex_value, hex_digit, hex_lower. repeat case_match; intros; simplify_eq;
    repeat match goal with
    | H : _ && _ = true |- _ => apply andb_prop in H as [? ?]
    | H : _ && _ = false |- _ => apply andb_false_iff in H as [?|?]
    end; lia.
Qed.

Lemma nibbles_range b : u8 b → 0 ≤ Z.shiftr b 4 < 16 ∧ 0 ≤ Z.land b 15 < 16.
Proof.
  apply (u8_cases (λ b, 0 ≤ Z.shiftr b 4 < 16 ∧ 0 ≤ Z.land b 15 < 16)). by vm_compute.
Qed.

Lemma nibbles_join b : u8 b → Z.lor (wrap 8 (Z.shiftl (Z.shiftr b 4) 4)) (Z.land b 15) = b.
Proof.
  apply (u8_cases (λ b, Z.lor (wrap 8 (Z.shiftl (Z.shiftr b 4) 4)) (Z.land b 15) = b)). by vm_compute.
Qed.

Lemma nibbles_split h l : 0 ≤ h < 16 → 0 ≤ l < 16 →
  let b := Z.lor (wrap 8 (Z.shiftl h 4)) l in
  u8 b ∧ Z.shiftr b 4 = h ∧ Z.land b 15 = l.
Proof.
  intros Hh Hl b.
  set (chk h l := let b := Z.lor (wrap 8 (Z.shiftl h 4)) l in
    (0 <=? b) && (b <? 256) && (Z.shiftr b 4 =? h) && (Z.land b 15 =? l)).
  assert (H : forallb (λ h, forallb (chk h) (seqZ 0 16)) (seqZ 0 16) = true) by by vm_compute.
  rewrite forallb_forall in H. specialize (H h).
  rewrite <- list_elem_of_In, elem_of_seqZ in H. specialize (H ltac:(lia)).
  rewrite forallb_forall in H. specialize (H l).
  rewrite <- list_elem_of_In, elem_of_seqZ in H. specialize (H ltac:(lia)).
  unfold chk in H. fold b in H. rewrite !andb_true_iff in H.
  destruct H as [[[? ?] ?] ?]. unfold fits. change (2 ^ 8) with 256. lia.
Qed.

Lemma u8_hex_digit n : 0 ≤ n < 16 → u8 (hex_digit n).
Proof.
  apply (nibble_cases (λ n, u8 (hex_digit n))). by vm_compute.
Qed.

Lemma is_bytes_hex_bytes bs : is_bytes bs → is_bytes (hex_bytes bs).
Proof.
  induction 1 as [|b bs Hb _ IH]; [constructor|].
  apply nibbles_range in Hb as [? ?].
  repeat constructor; try (by apply u8_hex_digit); [..|exact IH];
    destruct (u8_hex_digit (Z.shiftr b 4)), (u8_hex_digit (Z.land b 15)); done.
Qed.

(** Hexadecimal rendering determines the bytes. *)
Lemma hex_bytes_inj bs1 bs2 :
  is_bytes bs1 → is_bytes bs2 → hex_bytes bs1 = hex_bytes bs2 → bs1 = bs2.
Proof.
  intros H1; revert bs2; induction H1 as [|b1 bs1 Hb1 _ IH]; intros [|b2 bs2] H2 He;
    try done. apply Forall_cons in H2 as [Hb2 H2].
  pose proof (nibbles_range _ Hb1) as [Hh1 Hl1]. pose proof (nibbles_range _ Hb2) as [Hh2 Hl2].
  change (hex_byte b1 ++ hex_bytes bs1 = hex_byte b2 ++ hex_bytes bs2) in He.
  injection He as Hh Hl Ht.
  apply (f_equal hex_value) in Hh, Hl. rewrite !hex_value_digit in Hh, Hl by done.
  injection Hh as Hh. injection Hl as Hl.
  f_equal; [|by apply IH].
  rewrite <- (nibbles_join b1), <- (nibbles_join b2) by done. by rewrite Hh, Hl.
Qed.
