(* ===== verification/Event.v ===== *)
(** * Events and errors of a stream ([ice-rpc-rx/src/error.rs], [event.rs])

    The technical error of the stack, the single error type of the streaming
    API, the event vocabulary and the producer side of a channel.

    The channel itself is the crate [async_channel], whose code is not part of
    the repository: it is the interface [AsyncChannel], whose laws are its
    documented behaviour (a FIFO queue with an optional capacity; a closed
    channel refuses a send and still hands out what it holds).  [VecChannel] is
    an implementation of the interface, used by the examples. *)

From S2P Require Import Prelude Text.

(** ** [error.rs] *)

Inductive RpcError : Type :=
| SerializationError
| TransportError (message : string)
| RpcTimeout
| Cancelled
| Internal (message : string)
| ProtocolMismatch (message : string)
| UnknownMethod (method : string)
| UnknownService (id : string)
| IncompatibleVersion (expected actual : Z).

#[export] Instance RpcError_eq_dec : EqDecision RpcError.
Proof. solve_decision. Defined.

Definition is_retryable (e : RpcError) : bool :=
  match e with
  | TransportError _ | RpcTimeout => true
  | _ => false
  end.

Definition RpcError_display (e : RpcError) : string :=
  match e with
  | SerializationError => "RPC error: serialization failure"
  | TransportError message => "RPC transport error: " +:+ message
  | RpcTimeout => "RPC error: timeout exceeded"
  | Cancelled => "RPC error: call cancelled"
  | Internal message => "RPC internal error: " +:+ message
  | ProtocolMismatch message =>
      "RPC error: incompatible service on the bus: " +:+ message
  | UnknownMethod method => "RPC error: unknown method '" +:+ method +:+ "'"
  | UnknownService id => "RPC error: unknown service id " +:+ id
  | IncompatibleVersion expected actual =>
      "RPC error: incompatible service version: provider is v" +:+ pretty expected
      +:+ ", requested v" +:+ pretty actual
  end.

(** ** [event.rs] *)

Inductive ObservableError (E : Type) : Type :=
| Business (e : E)
| Technical (e : RpcError)
| Empty.
Arguments Business {E} e.
Arguments Technical {E} e.
Arguments Empty {E}.

#[export] Instance ObservableError_eq_dec {E} `{EqDecision E} : EqDecision (ObservableError E).
Proof. solve_decision. Defined.

Definition is_technical {E} (e : ObservableError E) : bool :=
  match e with Technical _ => true | _ => false end.

Definition is_business {E} (e : ObservableError E) : bool :=
  match e with Business _ => true | _ => false end.

Definition as_business {E} (e : ObservableError E) : option E :=
  match e with
  | Business e => Some e
  | Technical _ | Empty => None
  end.

Definition as_technical {E} (e : ObservableError E) : option RpcError :=
  match e with
  | Technical e => Some e
  | Business _ | Empty => None
  end.

Inductive Event (T E : Type) : Type :=
| Next (v : T)
| Complete
| Error (e : ObservableError E).
Arguments Next {T E} v.
Arguments Complete {T E}.
Arguments Error {T E} e.

#[export] Instance Event_eq_dec {T E} `{EqDecision T, EqDecision E} : EqDecision (Event T E).
Proof. solve_decision. Defined.

Definition is_terminal {T E} (ev : Event T E) : bool :=
  match ev with
  | Next _ => false
  | Complete | Error _ => true
  end.

(** The values of a sequence of events, and the grammar every stream promises
    its consumer: values, then at most one terminal, then nothing. *)
Definition values {T E} (l : list (Event T E)) : list T :=
  omap (λ ev, match ev with Next v => Some v | _ => None end) l.

Fixpoint rx_grammar {T E} (l : list (Event T E)) : bool :=
  match l with
  | [] => true
  | ev :: l' => if is_terminal ev then bool_decide (l' = []) else rx_grammar l'
  end.

(** ** The channel interface *)

(** Why a non-blocking send was refused; the message comes back. *)
Inductive TrySendError (A : Type) : Type :=
| Full (a : A)
| Closed (a : A).
Arguments Full {A} a.
Arguments Closed {A} a.

(** What a channel holds, oldest message first. *)
Record chan_view (A : Type) : Type := ChanView {
  cv_queue : list A;
  cv_closed : bool;
  cv_capacity : option nat
}.
Arguments ChanView {A} _ _ _.
Arguments cv_queue {A} _.
Arguments cv_closed {A} _.
Arguments cv_capacity {A} _.

Definition cv_full {A} (v : chan_view A) : bool :=
  match cv_capacity v with
  | Some n => bool_decide (n ≤ length (cv_queue v))
  | None => false
  end.

Definition cv_push {A} (v : chan_view A) (a : A) : chan_view A :=
  ChanView (cv_queue v ++ [a]) (cv_closed v) (cv_capacity v).

(** What [async_channel] promises: [try_send], [poll_next] of the receiving
    end, and the closing of the channel (its last sender or its receiver is
    gone). *)
Class AsyncChannel (C : Type → Type) : Type := {
  ch_view {A} : C A → chan_view A;
  ch_bounded {A} : nat → C A;
  ch_unbounded {A} : C A;
  ch_try_send {A} : C A → A → result () (TrySendError A) * C A;
  ch_poll_recv {A} : C A → poll (option A) * C A;
  ch_close {A} : C A → C A
}.

Class AsyncChannelLaws (C : Type → Type) `{AsyncChannel C} : Prop := {
  ch_bounded_view {A} n : ch_view (ch_bounded (A:=A) n) = ChanView [] false (Some n);
  ch_unbounded_view {A} : ch_view (ch_unbounded (A:=A)) = ChanView [] false None;
  ch_send_closed {A} (c : C A) a :
    cv_closed (ch_view c) = true → ch_try_send c a = (Err (Closed a), c);
  ch_send_full {A} (c : C A) a :
    cv_closed (ch_view c) = false → cv_full (ch_view c) = true →
    ch_try_send c a = (Err (Full a), c);
  ch_send_room {A} (c : C A) a :
    cv_closed (ch_view c) = false → cv_full (ch_view c) = false →
    ∃ c', ch_try_send c a = (Ok (), c') ∧ ch_view c' = cv_push (ch_view c) a;
  ch_recv_some {A} (c : C A) a q :
    cv_queue (ch_view c) = a :: q →
    ∃ c', ch_poll_recv c = (Ready (Some a), c') ∧
      ch_view c' = ChanView q (cv_closed (ch_view c)) (cv_capacity (ch_view c));
  ch_recv_end {A} (c : C A) :
    cv_queue (ch_view c) = [] → cv_closed (ch_view c) = true →
    ch_poll_recv c = (Ready None, c);
  ch_recv_wait {A} (c : C A) :
    cv_queue (ch_view c) = [] → cv_closed (ch_view c) = false →
    ch_poll_recv c = (Pending, c);
  ch_close_view {A} (c : C A) :
    ch_view (ch_close c) =
    ChanView (cv_queue (ch_view c)) true (cv_capacity (ch_view c))
}.

(** A channel kept as its view: the implementation the examples run. *)
Definition VecChannel : Type → Type := chan_view.

#[export] Instance VecChannel_ops : AsyncChannel VecChannel := {|
  ch_view A c := c;
  ch_bounded A n := ChanView [] false (Some n);
  ch_unbounded A := ChanView [] false None;
  ch_try_send A c a :=
    if cv_closed c then (Err (Closed a), c)
    else if cv_full c then (Err (Full a), c)
    else (Ok (), cv_push c a);
  ch_poll_recv A c :=
    match cv_queue c with
    | a :: q => (Ready (Some a), ChanView q (cv_closed c) (cv_capacity c))
    | [] => if cv_closed c then (Ready None, c) else (Pending, c)
    end;
  ch_close A c := ChanView (cv_queue c) true (cv_capacity c)
|}.

#[export] Instance VecChannel_laws : AsyncChannelLaws VecChannel.
Proof.
  split; intros; simpl in *; try done.
  - by rewrite H.
  - by rewrite H, H0.
  - rewrite H, H0; eauto.
  - rewrite H; eauto.
  - by rewrite H, H0.
  - by rewrite H, H0.
Qed.

(** ** [Sender] *)

Section sender.
Context {C : Type → Type} `{AsyncChannelLaws C} {T E : Type}.

Abbreviation sent := (result () (TrySendError (Event T E)) * C (Event T E))%type.

Definition try_send_event (tx : C (Event T E)) (ev : Event T E) : sent := ch_try_send tx ev.

Definition try_send_next (tx : C (Event T E)) (v : T) : sent := ch_try_send tx (Next v).

Definition try_send_complete (tx : C (Event T E)) : sent := ch_try_send tx Complete.

Definition try_send_error (tx : C (Event T E)) (e : E) : sent :=
  ch_try_send tx (Error (Business e)).

Definition try_send_complete_with (tx : C (Event T E)) (v : T) : sent :=
  match ch_try_send tx (Next v) with
  | (Ok _, tx') => ch_try_send tx' Complete
  | (Err e, tx') => (Err e, tx')
  end.

Definition sender_is_closed (tx : C (Event T E)) : bool := cv_closed (ch_view tx).

Lemma try_send_room_view tx ev :
  cv_closed (ch_view tx) = false → cv_full (ch_view tx) = false →
  fst (try_send_event tx ev) = Ok () ∧
  ch_view (snd (try_send_event tx ev)) = cv_push (ch_view tx) ev.
Proof.
  intros Hc Hf. unfold try_send_event.
  destruct (ch_send_room tx ev Hc Hf) as (c' & -> & ?). done.
Qed.

(** On an open channel the pair [Next v], [Complete] is queued in that order
    when two slots are free; with a single free slot the [Next] is queued and
    the [Complete] is handed back, so the consumer holds an unterminated
    stream; with no slot nothing is queued. *)
Lemma try_send_complete_with_spec tx v :
  cv_closed (ch_view tx) = false →
  let q := cv_queue (ch_view tx) in
  let free := match cv_capacity (ch_view tx) with Some n => n - length q | None => 2 end in
  let '(r, tx') := try_send_complete_with tx v in
  (r = match free with
       | 0 => Err (Full (Next v))
       | 1 => Err (Full Complete)
       | _ => Ok ()
       end) ∧
  cv_queue (ch_view tx') =
    q ++ match free with 0 => [] | 1 => [Next v] | _ => [Next v; Complete] end.
Proof.
  intros Hc q free. unfold try_send_complete_with.
  destruct (cv_full (ch_view tx)) eqn:Hf.
  - rewrite (ch_send_full tx _ Hc Hf). unfold cv_full in Hf.
    destruct (cv_capacity (ch_view tx)) as [n|] eqn:Hn; [|done].
    apply bool_decide_eq_true in Hf.
    assert (free = 0) as -> by (subst free q; lia). by rewrite app_nil_r.
  - destruct (ch_send_room tx (Next v) Hc Hf) as (c' & -> & Hv).
    destruct (cv_full (ch_view c')) eqn:Hf'.
    + rewrite (ch_send_full c' Complete); [|by rewrite Hv|done].
      unfold cv_full in Hf, Hf'. rewrite Hv in Hf'; simpl in Hf'.
      destruct (cv_capacity (ch_view tx)) as [n|] eqn:Hn; [|done].
      apply bool_decide_eq_true in Hf'. apply bool_decide_eq_false in Hf.
      rewrite length_app in Hf'; simpl in Hf'.
      assert (free = 1) as -> by (subst free q; lia). by rewrite Hv.
    + destruct (ch_send_room c' Complete) as (c'' & -> & Hv'); [by rewrite Hv|done|].
      rewrite Hv', Hv; simpl. rewrite <- app_assoc.
      unfold cv_full in Hf'. rewrite Hv in Hf'; simpl in Hf'.
      destruct (cv_capacity (ch_view tx)) as [n|] eqn:Hn; [|done].
      apply bool_decide_eq_false in Hf'. rewrite length_app in Hf'; simpl in Hf'.
      assert (2 ≤ free) by (subst free q; lia). by destruct free as [|[|]]; try lia.
Qed.
End sender.
