(* ===== verification/Header.v ===== *)
(** * The zero-copy header ([ice-rpc/src/types/header.rs], [node.rs], [consts.rs])

    Event kinds and their wire values, the request, response and Cancel
    headers, the FNV-1a identifiers of services and methods, and the
    correlation ids: their allocation, their rendering and their reading.
    [TraceContext] is the data type of [types/context.rs] the header carries.

    What a process reads from its environment while it builds a header is the
    record [Proc]: its pid, the two process-wide counters and the wall clock. *)

From S2P Require Import Prelude MachineInt Text.

Local Open Scope Z_scope.

(** ** Constants *)

Definition CORRELATION_ID_LEN : nat := 16.
Definition PROTOCOL_VERSION : Z := 2.
Definition SERVICE_NAME_LEN : nat := 64.

(** ** Process environment *)

Record Proc : Type := MkProc {
  proc_pid : Z;
  cid_counter : Z;
  span_counter : Z;
  (** Time since the Unix epoch in nanoseconds; [None] before the epoch. *)
  proc_clock : option Z
}.

(** The counters start at 1. *)
Definition proc_start (pid : Z) (clock : option Z) : Proc := MkProc pid 1 1 clock.

Definition proc_wf (p : Proc) : Prop :=
  u32 (proc_pid p) ∧ u64 (cid_counter p) ∧ u64 (span_counter p).

Definition now_ns (p : Proc) : Z :=
  match proc_clock p with
  | Some d => wrap 64 d
  | None => 0
  end.

(** [raw_pid_to_u32]: a value that is not a [u32] reads as 0. *)
Definition raw_pid_to_u32 (pid : Z) : Z := if decide (u32 pid) then pid else 0.

(** [node_pid_to_u32]: a missing pid reads as 0 too. *)
Definition node_pid_to_u32 {X} (pid : result Z X) : Z :=
  match pid with
  | Ok p => raw_pid_to_u32 p
  | Err _ => 0
  end.

(** ** Event kinds *)

Inductive EventKind : Type :=
| KRequest
| KNext
| KComplete
| KError
| KRpcError
| KCancel.

#[export] Instance EventKind_eq_dec : EqDecision EventKind.
Proof. solve_decision. Defined.

Definition kind_is_terminal (k : EventKind) : bool :=
  match k with
  | KComplete | KError | KRpcError => true
  | _ => false
  end.

Definition as_u8 (k : EventKind) : Z :=
  match k with
  | KRequest => 0
  | KNext => 1
  | KComplete => 2
  | KError => 3
  | KRpcError => 4
  | KCancel => 5
  end.

Definition from_u8 (value : Z) : EventKind :=
  match value with
  | 0 => KRequest
  | 1 => KNext
  | 2 => KComplete
  | 3 => KError
  | 4 => KRpcError
  | 5 => KCancel
  | _ => KError
  end.

Definition kind_label (k : EventKind) : string :=
  match k with
  | KRequest => "request"
  | KNext => "next"
  | KComplete => "complete"
  | KError => "error"
  | KRpcError => "rpc-error"
  | KCancel => "cancel"
  end.

(** ** Identifiers *)

Definition FNV_OFFSET_BASIS : Z := 0x811c9dc5.
Definition FNV_PRIME : Z := 0x01000193.

(** One round of the [while] loop of [fnv1a_u32]. *)
Definition fnv_step (hash b : Z) : Z := wrap 32 (Z.lxor hash b * FNV_PRIME).

Definition fnv1a_u32 (bs : bytes) : Z := fold_left fnv_step bs FNV_OFFSET_BASIS.

Definition service_id_of (name : string) : Z := fnv1a_u32 (as_bytes name).
Definition method_id_of (name : string) : Z := fnv1a_u32 (as_bytes name).

(** [trait MethodId]: an id, or a name that is hashed. *)
Class MethodId (A : Type) : Type := method_id : A → Z.
#[export] Instance MethodId_u32 : MethodId Z := λ id, id.
#[export] Instance MethodId_str : MethodId string := method_id_of.

Record ServiceRef : Type := MkServiceRef { sr_id : Z; sr_version : Z }.

#[export] Instance ServiceRef_eq_dec : EqDecision ServiceRef.
Proof. solve_decision. Defined.

(** [pid ++ counter], both as big-endian [u64]s. *)
Definition correlation_id_of (pid counter : Z) : bytes :=
  to_be_bytes 8 pid ++ to_be_bytes 8 counter.

Definition next_correlation_id (p : Proc) : bytes * Proc :=
  (correlation_id_of (proc_pid p) (cid_counter p),
   MkProc (proc_pid p) (wrap 64 (cid_counter p + 1)) (span_counter p) (proc_clock p)).

Definition is_correlation_id (cid : bytes) : Prop :=
  length cid = CORRELATION_ID_LEN ∧ is_bytes cid.

(** ** The header *)

Record TraceContext : Type := MkTrace {
  tc_trace_id : bytes;
  tc_parent_span_id : Z;
  tc_flags : Z
}.

#[export] Instance TraceContext_eq_dec : EqDecision TraceContext.
Proof. solve_decision. Defined.

Record RpcHeader : Type := MkHeader {
  h_correlation_id : bytes;
  h_timestamp_ns : Z;
  h_seq : Z;
  h_trace_id : bytes;
  h_parent_span_id : Z;
  h_span_id : Z;
  h_service_id : Z;
  h_method_id : Z;
  h_traceparent_version : Z;
  h_event_kind : Z;
  h_protocol_version : Z;
  h_service_version : Z;
  h_flags : Z
}.

#[export] Instance RpcHeader_eq_dec : EqDecision RpcHeader.
Proof. solve_decision. Defined.

Definition zero_trace_id : bytes := replicate 16 0.

Definition RpcHeader_default : RpcHeader :=
  MkHeader (replicate CORRELATION_ID_LEN 0) 0 0 zero_trace_id 0 0 0 0 0 0 0 0 0.

Definition header_request {M} `{MethodId M} (m : M) (service_id service_version : Z) (p : Proc)
    : RpcHeader * Proc :=
  let (cid, p') := next_correlation_id p in
  (MkHeader cid (now_ns p') 0 zero_trace_id 0 0 service_id (method_id m) 0
     (as_u8 KRequest) PROTOCOL_VERSION service_version 0, p').

Definition with_trace (h : RpcHeader) (t : TraceContext) : RpcHeader :=
  MkHeader (h_correlation_id h) (h_timestamp_ns h) (h_seq h) (tc_trace_id t)
    (tc_parent_span_id t) (h_span_id h) (h_service_id h) (h_method_id h)
    (h_traceparent_version h) (h_event_kind h) (h_protocol_version h)
    (h_service_version h) (tc_flags t).

Definition with_span_id (h : RpcHeader) (span_id : Z) : RpcHeader :=
  MkHeader (h_correlation_id h) (h_timestamp_ns h) (h_seq h) (h_trace_id h)
    (h_parent_span_id h) span_id (h_service_id h) (h_method_id h)
    (h_traceparent_version h) (h_event_kind h) (h_protocol_version h)
    (h_service_version h) (h_flags h).

Definition header_trace (h : RpcHeader) : TraceContext :=
  MkTrace (h_trace_id h) (h_parent_span_id h) (h_flags h).

Definition with_seq (h : RpcHeader) (seq : Z) : RpcHeader :=
  MkHeader (h_correlation_id h) (h_timestamp_ns h) seq (h_trace_id h)
    (h_parent_span_id h) (h_span_id h) (h_service_id h) (h_method_id h)
    (h_traceparent_version h) (h_event_kind h) (h_protocol_version h)
    (h_service_version h) (h_flags h).

Definition response_from (request : RpcHeader) (kind : EventKind) (service_version : Z) (p : Proc)
    : RpcHeader :=
  MkHeader (h_correlation_id request) (now_ns p) 0 (h_trace_id request)
    (h_parent_span_id request) 0 (h_service_id request) 0
    (h_traceparent_version request) (as_u8 kind) PROTOCOL_VERSION
    service_version (h_flags request).

Definition cancel_from (request : RpcHeader) (p : Proc) : RpcHeader :=
  MkHeader (h_correlation_id request) (now_ns p) 0 (h_trace_id request)
    (h_parent_span_id request) 0 (h_service_id request) 0
    (h_traceparent_version request) (as_u8 KCancel) PROTOCOL_VERSION
    (h_service_version request) (h_flags request).

Definition event_kind (h : RpcHeader) : EventKind := from_u8 (h_event_kind h).

(** ** Rendering and reading a correlation id *)

Definition DASH : Z := 45.

Definition fmt_correlation_id (cid : bytes) : string :=
  of_bytes (hex_bytes (take 4 cid) ++ [DASH] ++ hex_bytes (take 2 (drop 4 cid)) ++ [DASH]
            ++ hex_bytes (take 2 (drop 6 cid)) ++ [DASH] ++ hex_bytes (take 2 (drop 8 cid))
            ++ [DASH] ++ hex_bytes (drop 10 cid)).

(** [matches!(index, 8 | 13 | 18 | 23)]. *)
Definition is_dash_index (i : nat) : bool :=
  match i with
  | 8%nat | 13%nat | 18%nat | 23%nat => true
  | _ => false
  end.

(** The [for] loop of [parse_correlation_id]: [None] is the early [return None],
    [Panic] an index out of range in [out]. *)
Fixpoint parse_loop (dashed : bool) (index : nat) (bs : bytes) (nibbles : nat) (out : bytes)
    : outcome (option (nat * bytes)) :=
  match bs with
  | [] => Ret (Some (nibbles, out))
  | byte :: bs' =>
      if dashed && is_dash_index index then
        if byte =? DASH then parse_loop dashed (S index) bs' nibbles out else Ret None
      else
        match hex_value byte with
        | None => Ret None
        | Some digit =>
            let slot := (nibbles / 2)%nat in
            match out !! slot with
            | None => Panic
            | Some old =>
                let new := if Nat.even nibbles then wrap 8 (Z.shiftl digit 4)
                           else Z.lor old digit in
                parse_loop dashed (S index) bs' (S nibbles) (<[slot := new]> out)
            end
        end
  end.

Definition parse_correlation_id (text : string) : outcome (option bytes) :=
  let bs := as_bytes text in
  let undashed_len := (CORRELATION_ID_LEN * 2)%nat in
  let run dashed :=
    match parse_loop dashed 0 bs 0 (replicate CORRELATION_ID_LEN 0) with
    | Panic => Panic
    | Ret None => Ret None
    | Ret (Some (nibbles, out)) =>
        Ret (if (nibbles =? undashed_len)%nat then Some out else None)
    end in
  if (length bs =? undashed_len)%nat then run false
  else if (length bs =? undashed_len + 4)%nat then run true
  else Ret None.

(** ** Event kinds: the wire value determines the kind, and an unknown value
    never reads as a completion *)

Lemma from_as_u8 k : from_u8 (as_u8 k) = k.
Proof. by destruct k. Qed.

Lemma from_u8_known v : from_u8 v ≠ KError → as_u8 (from_u8 v) = v.
Proof. unfold from_u8. repeat case_match; done. Qed.

(** A kind survives its wire encoding, and decoding is fail-closed: a byte
    that is not the wire value of a declared kind decodes to [Error], so in
    particular only the byte 2 reads as a successful completion. *)
Theorem event_kind_wire_fail_closed :
  (∀ k, from_u8 (as_u8 k) = k) ∧
  (∀ v, from_u8 v = KError ∨ as_u8 (from_u8 v) = v) ∧
  (∀ v, from_u8 v = KComplete ↔ v = 2).
Proof.
  split; [exact from_as_u8|]. split; intros v.
  - destruct (decide (from_u8 v = KError)); [by left|right; by apply from_u8_known].
  - split; [|by intros ->]. intros H.
    rewrite <- (from_u8_known v) by (by rewrite H). by rewrite H.
Qed.

(** ** FNV-1a *)

Lemma fnv_prime_inverse : wrap 32 (FNV_PRIME * 0x359c449b) = 1.
Proof. by vm_compute. Qed.

Lemma fits_fnv_step h b : fits 32 (fnv_step h b).
Proof. by apply fits_wrap. Qed.

Lemma fits_fnv_fold bs h : u32 h → u32 (fold_left fnv_step bs h).
Proof. revert h; induction bs; intros h Hh; simpl; [done|]. apply IHbs, fits_fnv_step. Qed.

Lemma fits_service_id name : u32 (service_id_of name).
Proof. by apply fits_fnv_fold. Qed.

(** For a fixed byte the round is injective in the hash, and for a fixed hash in
    the byte. *)
Lemma fnv_step_inj_hash h1 h2 b : u32 h1 → u32 h2 → u8 b →
  fnv_step h1 b = fnv_step h2 b → h1 = h2.
Proof.
  intros H1 H2 Hb He. apply (wrap_mul_inj 32 FNV_PRIME _ _ _ fnv_prime_inverse) in He.
  - by apply lxor_inj_l in He.
  - apply fits_lxor; eauto with icerpc lia.
  - apply fits_lxor; eauto with icerpc lia.
Qed.

Lemma fnv_step_inj_byte h b1 b2 : u32 h → u8 b1 → u8 b2 →
  fnv_step h b1 = fnv_step h b2 → b1 = b2.
Proof.
  intros Hh H1 H2 He. apply (wrap_mul_inj 32 FNV_PRIME _ _ _ fnv_prime_inverse) in He.
  - by apply lxor_inj_r in He.
  - apply fits_lxor; eauto with icerpc lia.
  - apply fits_lxor; eauto with icerpc lia.
Qed.

Lemma fnv_fold_inj bs h1 h2 : is_bytes bs → u32 h1 → u32 h2 →
  fold_left fnv_step bs h1 = fold_left fnv_step bs h2 → h1 = h2.
Proof.
  intros Hbs; revert h1 h2; induction Hbs as [|b bs Hb _ IH]; intros h1 h2 H1 H2 He; [done|].
  simpl in He. apply IH in He; [|by apply fits_fnv_step..].
  by apply fnv_step_inj_hash in He.
Qed.

(** Two names of the same length that differ in exactly one byte never get
    the same identifier: the FNV-1a round is invertible, so a one-byte typo in a
    service or method name is never silently routed to the other name. *)
Theorem fnv1a_single_byte_collision_free prefix suffix b1 b2 :
  is_bytes prefix → is_bytes suffix → u8 b1 → u8 b2 → b1 ≠ b2 →
  fnv1a_u32 (prefix ++ b1 :: suffix) ≠ fnv1a_u32 (prefix ++ b2 :: suffix).
Proof.
  intros Hp Hs H1 H2 Hne He. unfold fnv1a_u32 in He. rewrite !fold_left_app in He. simpl in He.
  apply fnv_fold_inj in He; [|done|by apply fits_fnv_step..].
  apply fnv_step_inj_byte in He; [done| |done|done]. by apply fits_fnv_fold.
Qed.

Lemma fnv1a_single_byte_collision_free_witness :
  fnv1a_u32 (as_bytes "get_user_age") ≠ fnv1a_u32 (as_bytes "get_user_agf").
Proof.
  apply (fnv1a_single_byte_collision_free (as_bytes "get_user_ag") [] 101 102);
    [by apply is_bytes_as_bytes|constructor|done..].
Defined.

(** ** Correlation ids *)

Lemma is_correlation_id_of pid counter : is_correlation_id (correlation_id_of pid counter).
Proof.
  split; [done|]. apply Forall_app; split; apply is_bytes_to_be_bytes.
Qed.

Lemma correlation_id_of_inj p1 c1 p2 c2 :
  u64 p1 → u64 c1 → u64 p2 → u64 c2 →
  correlation_id_of p1 c1 = correlation_id_of p2 c2 → p1 = p2 ∧ c1 = c2.
Proof.
  intros ? ? ? ? H. apply app_inj_1 in H as [Hp Hc]; [|by rewrite !length_to_be_bytes].
  by apply to_be_bytes_inj in Hp, Hc.
Qed.

(** The ids a process allocates in [n] successive calls. *)
Fixpoint allocate_ids (n : nat) (p : Proc) : list bytes :=
  match n with
  | O => []
  | S n' => let (cid, p') := next_correlation_id p in cid :: allocate_ids n' p'
  end.

Lemma allocate_ids_elem n p cid : u64 (cid_counter p) →
  cid ∈ allocate_ids n p →
  ∃ i, 0 ≤ i < Z.of_nat n ∧
    cid = correlation_id_of (proc_pid p) (wrap 64 (cid_counter p + i)).
Proof.
  revert p; induction n as [|n IH]; intros p Hc; simpl; [by inversion 1|].
  intros [->|H]%elem_of_cons.
  - exists 0. rewrite Z.add_0_r, wrap_small by done. split; [lia|done].
  - apply IH in H as (i & Hi & ->); [|by apply fits_wrap].
    exists (i + 1). split; [lia|]. simpl. f_equal. unfold wrap.
    rewrite Zplus_mod_idemp_l. f_equal. lia.
Qed.

(** C32. A correlation id names one call: the ids a process allocates in fewer
    than 2^64 calls are pairwise distinct, and two processes with different
    pids never allocate the same id, whatever their counters. *)
Theorem correlation_ids_unique (n m : nat) (p q : Proc) :
  proc_wf p → proc_wf q → Z.of_nat n ≤ 2 ^ 64 →
  NoDup (allocate_ids n p) ∧
  (proc_pid p ≠ proc_pid q →
   ∀ cid, cid ∈ allocate_ids n p → cid ∉ allocate_ids m q).
Proof.
  intros (Hp & Hc & Hs) (Hp' & Hc' & Hs') Hn. split.
  - clear q Hp' Hc' Hs'. revert p Hp Hc Hs Hn. induction n as [|n IH]; intros p Hp Hc Hs Hn; [constructor|].
    simpl. constructor; [|apply IH; simpl; eauto with icerpc].
    intros H. apply allocate_ids_elem in H as (i & Hi & He); [|by apply fits_wrap].
    simpl in He. apply correlation_id_of_inj in He as [_ He];
      [|eauto with icerpc..].
    unfold wrap in He. rewrite Zplus_mod_idemp_l in He. destruct Hc as [? ?].
    assert (Hz : (i + 1) mod 2 ^ 64 = 0).
      { rewrite <- (Z.mod_small (cid_counter p) (2 ^ 64)) in He at 1 by lia.
        apply (f_equal (λ z, (z - cid_counter p) mod 2 ^ 64)) in He.
        rewrite !Zminus_mod_idemp_l in He. rewrite Z.sub_diag in He.
        replace (cid_counter p + 1 + i - cid_counter p) with (i + 1) in He by lia. done. }
      rewrite Z.mod_small in Hz by lia. lia.
  - intros Hpid cid H1 H2.
    apply allocate_ids_elem in H1 as (i & _ & ->); [|done].
    apply allocate_ids_elem in H2 as (j & _ & He); [|done].
    apply correlation_id_of_inj in He as [? _]; [done|..];
      eauto with icerpc.
Qed.

Lemma correlation_ids_unique_witness :
  NoDup (allocate_ids 2 (proc_start 7 None)) ∧
  correlation_id_of 7 1 ∉ allocate_ids 3 (proc_start 8 None).
Proof.
  destruct (correlation_ids_unique 2 3 (proc_start 7 None) (proc_start 8 None)) as [H1 H2];
    [by repeat split|by repeat split|done|].
  split; [exact H1|]. apply H2; [done|]. by left.
Defined.

(** *** Reading *)

(** The nibbles a text denotes: [None] as soon as a byte is refused. *)
Fixpoint digits (dashed : bool) (index : nat) (bs : bytes) : option (list Z) :=
  match bs with
  | [] => Some []
  | b :: bs' =>
      if dashed && is_dash_index index then
        if b =? DASH then digits dashed (S index) bs' else None
      else
        match hex_value b, digits dashed (S index) bs' with
        | Some d, Some ds => Some (d :: ds)
        | _, _ => None
        end
  end.

(** The array after the nibbles [ds] were written from position [n] on. *)
Fixpoint write_nibbles (n : nat) (ds : list Z) (out : bytes) : bytes :=
  match ds with
  | [] => out
  | d :: ds' =>
      let slot := (n / 2)%nat in
      let new := if Nat.even n then wrap 8 (Z.shiftl d 4)
                 else Z.lor (default 0 (out !! slot)) d in
      write_nibbles (S n) ds' (<[slot := new]> out)
  end.

Lemma digits_length dashed index bs ds :
  digits dashed index bs = Some ds → (length ds ≤ length bs)%nat.
Proof.
  revert index ds; induction bs as [|b bs IH]; intros index ds; simpl; [by intros [= <-]|].
  repeat case_match; intros; simplify_eq/=; try lia.
  - apply IH in H1. lia.
  - apply IH in H1. lia.
Qed.

Lemma digits_range dashed index bs ds :
  digits dashed index bs = Some ds → Forall (λ d, 0 ≤ d < 16) ds.
Proof.
  revert index ds; induction bs as [|b bs IH]; intros index ds; simpl; [by intros [= <-]|].
  repeat case_match; intros; simplify_eq/=; eauto.
  constructor; [by eapply hex_value_range|eauto].
Qed.

(** How many of the [len] positions from [index] on hold a digit. *)
Definition digit_slots (dashed : bool) (index len : nat) : nat :=
  length (List.filter (λ i, negb (dashed && is_dash_index i)) (seq index len)).

(** The loop reads exactly [digits], and stays within its array as long as no
    more digits can arrive than the array can hold. *)
Lemma parse_loop_spec dashed index bs n out :
  (n + digit_slots dashed index (length bs) ≤ 2 * length out)%nat →
  parse_loop dashed index bs n out =
  Ret match digits dashed index bs with
      | Some ds => Some ((n + length ds)%nat, write_nibbles n ds out)
      | None => None
      end.
Proof.
  unfold digit_slots.
  revert index n out; induction bs as [|b bs IH]; intros index n out Hlen.
  { simpl. by rewrite Nat.add_0_r. }
  cbn [parse_loop digits length seq List.filter] in *.
  destruct (dashed && is_dash_index index); cbn [negb length] in Hlen.
  { destruct (b =? DASH); [|done]. by apply IH. }
  destruct (hex_value b) as [d|]; [|done].
  destruct (out !! (n / 2)%nat) as [old|] eqn:Hold.
  2: { apply lookup_ge_None in Hold.
       assert (n / 2 < length out)%nat by (apply Nat.Div0.div_lt_upper_bound; lia). lia. }
  rewrite IH by (rewrite length_insert; lia).
  destruct (digits dashed (S index) bs) as [ds|]; [|done]. cbn [write_nibbles length].
  rewrite Hold. cbn [default from_option]. do 2 f_equal. f_equal. lia.
Qed.

(** The bytes [ds] denotes, two nibbles each. *)
Fixpoint pack (ds : list Z) : bytes :=
  match ds with
  | h :: l :: ds' => Z.lor (wrap 8 (Z.shiftl h 4)) l :: pack ds'
  | _ => []
  end.

Lemma write_nibbles_pack ds : length ds = 32%nat →
  write_nibbles 0 ds (replicate CORRELATION_ID_LEN 0) = pack ds.
Proof.
  intros H. do 32 (destruct ds as [|? ds]; [done|]). destruct ds; [|done]. reflexivity.
Qed.

Lemma pack_wf ds : length ds = 32%nat → Forall (λ d, 0 ≤ d < 16) ds → is_correlation_id (pack ds).
Proof.
  intros H HF. do 32 (destruct ds as [|? ds]; [done|]). destruct ds; [|done].
  split; [done|]. repeat (apply Forall_cons in HF as [? HF]).
  repeat (apply Forall_cons; split; [by apply nibbles_split|]). constructor.
Qed.

(** A text that is accepted holds a digit at every digit position. *)
Lemma digits_count dashed index bs ds :
  digits dashed index bs = Some ds → length ds = digit_slots dashed index (length bs).
Proof.
  unfold digit_slots. revert index ds; induction bs as [|b bs IH]; intros index ds; simpl;
    [by intros [= <-]|].
  destruct (dashed && is_dash_index index); simpl.
  - destruct (b =? DASH); [|done]. apply IH.
  - destruct (hex_value b); [|done].
    destruct (digits dashed (S index) bs) eqn:E; [|done].
    intros [= <-]. apply IH in E. simpl. by f_equal.
Qed.

(** The text whose digits are [cs], with a dash at the dash positions. *)
Fixpoint render (dashed : bool) (index : nat) (len : nat) (cs : bytes) : bytes :=
  match len with
  | O => []
  | S len' =>
      if dashed && is_dash_index index then DASH :: render dashed (S index) len' cs
      else match cs with
           | c :: cs' => c :: render dashed (S index) len' cs'
           | [] => []
           end
  end.

Lemma digits_render dashed index bs ds :
  digits dashed index bs = Some ds →
  map hex_lower bs = render dashed index (length bs) (map hex_digit ds).
Proof.
  revert index ds; induction bs as [|b bs IH]; intros index ds; simpl; [by intros [= <-]|].
  destruct (dashed && is_dash_index index).
  - destruct (Z.eqb_spec b DASH) as [->|]; [|done]. intros H. simpl. f_equal. by apply IH.
  - destruct (hex_value b) as [d|] eqn:Hd; [|done].
    destruct (digits dashed (S index) bs) as [ds'|] eqn:Hds; [|done]. intros [= <-]. simpl.
    f_equal; [by rewrite (hex_digit_value b)|by apply IH].
Qed.

(** The reader as a whole, on the two accepted lengths. *)
Lemma parse_spec text :
  parse_correlation_id text =
  Ret (let bs := as_bytes text in
       if (length bs =? 32)%nat then pack <$> digits false 0 bs
       else if (length bs =? 36)%nat then pack <$> digits true 0 bs
       else None).
Proof.
  unfold parse_correlation_id. set (bs := as_bytes text).
  change (CORRELATION_ID_LEN * 2)%nat with 32%nat. change (32 + 4)%nat with 36%nat.
  assert (Hrun : ∀ dashed, digit_slots dashed 0 (length bs) = 32%nat →
    parse_loop dashed 0 bs 0 (replicate CORRELATION_ID_LEN 0) =
    Ret ((λ ds, (32%nat, pack ds)) <$> digits dashed 0 bs)).
  { intros dashed Hs. rewrite parse_loop_spec by (rewrite Hs; done).
    destruct (digits dashed 0 bs) as [ds|] eqn:E; [|done].
    apply digits_count in E. rewrite Hs in E. simpl.
    by rewrite E, write_nibbles_pack. }
  destruct (Nat.eqb_spec (length bs) 32) as [H|H].
  { rewrite Hrun by (by rewrite H). by destruct (digits false 0 bs). }
  destruct (Nat.eqb_spec (length bs) 36) as [H'|H']; [|done].
  rewrite Hrun by (by rewrite H'). by destruct (digits true 0 bs).
Qed.

(** *** Round trip *)

Lemma length_hex_bytes bs : length (hex_bytes bs) = (2 * length bs)%nat.
Proof. induction bs as [|b bs IH]; [done|]. unfold hex_bytes in *. simpl. rewrite IH. lia. Qed.

(** The nibbles of a byte string. *)
Definition nibbles (bs : bytes) : list Z := mjoin (map (λ b, [Z.shiftr b 4; Z.land b 15]) bs).

Lemma pack_nibbles bs : is_bytes bs → pack (nibbles bs) = bs.
Proof.
  induction 1 as [|b bs Hb _ IH]; [done|]. unfold nibbles in *. simpl.
  by rewrite nibbles_join, IH.
Qed.

Lemma digits_hex_bytes bs index rest : is_bytes bs →
  digits false index (hex_bytes bs ++ rest) =
  (λ ds, nibbles bs ++ ds) <$> digits false (index + 2 * length bs) rest.
Proof.
  intros H; revert index; induction H as [|b bs Hb _ IH]; intros index.
  { simpl. rewrite Nat.add_0_r. by destruct (digits false index rest). }
  apply nibbles_range in Hb as [Hh Hl].
  change (hex_bytes (b :: bs) ++ rest) with
    (hex_digit (Z.shiftr b 4) :: hex_digit (Z.land b 15) :: hex_bytes bs ++ rest).
  cbn [digits andb]. rewrite !hex_value_digit by done. rewrite IH.
  replace (S (S index) + 2 * length bs)%nat with (index + 2 * length (b :: bs))%nat by (simpl; lia).
  by destruct (digits false (index + 2 * length (b :: bs)) rest).
Qed.

Lemma is_bytes_fmt cid : is_bytes cid →
  as_bytes (fmt_correlation_id cid) =
  hex_bytes (take 4 cid) ++ [DASH] ++ hex_bytes (take 2 (drop 4 cid)) ++ [DASH]
    ++ hex_bytes (take 2 (drop 6 cid)) ++ [DASH] ++ hex_bytes (take 2 (drop 8 cid))
    ++ [DASH] ++ hex_bytes (drop 10 cid).
Proof.
  intros H. unfold fmt_correlation_id. apply as_of_bytes.
  assert (is_bytes [DASH]) by (by repeat constructor).
  repeat (apply Forall_app; split); try done;
    apply is_bytes_hex_bytes; unfold is_bytes; eauto using Forall_take, Forall_drop.
Qed.

(** The dashed rendering read as a sequence of digits. *)
Lemma digits_fmt cid : is_correlation_id cid →
  digits true 0 (as_bytes (fmt_correlation_id cid)) = Some (nibbles cid).
Proof.
  intros [Hl H]. rewrite (is_bytes_fmt _ H).
  unfold CORRELATION_ID_LEN in Hl. do 16 (destruct cid as [|? cid]; [done|]). destruct cid; [|done].
  repeat (apply Forall_cons in H as [?%nibbles_range H]; destruct_and!).
  cbn -[hex_value hex_digit]. rewrite !hex_value_digit by done. reflexivity.
Qed.

Lemma fmt_render cid : is_correlation_id cid →
  as_bytes (fmt_correlation_id cid) = render true 0 36 (hex_bytes cid).
Proof.
  intros [Hl H]. rewrite (is_bytes_fmt _ H).
  unfold CORRELATION_ID_LEN in Hl. do 16 (destruct cid as [|? cid]; [done|]). by destruct cid.
Qed.

Lemma render_plain cid : length cid = CORRELATION_ID_LEN →
  render false 0 32 (hex_bytes cid) = hex_bytes cid.
Proof.
  unfold CORRELATION_ID_LEN. intros Hl. do 16 (destruct cid as [|? cid]; [done|]). by destruct cid.
Qed.

Lemma length_fmt cid : is_correlation_id cid → length (as_bytes (fmt_correlation_id cid)) = 36%nat.
Proof.
  intros [Hl Hb]. rewrite (is_bytes_fmt _ Hb).
  by rewrite !length_app, !length_hex_bytes, !length_take, !length_drop, Hl.
Qed.

Lemma hex_bytes_pack ds : length ds = 32%nat → Forall (λ d, 0 ≤ d < 16) ds →
  map hex_digit ds = hex_bytes (pack ds).
Proof.
  intros H HF. do 32 (destruct ds as [|? ds]; [done|]). destruct ds; [|done].
  repeat (apply Forall_cons in HF as [? HF]).
  cbn [map pack]. unfold hex_bytes, hex_byte. cbn [map mjoin].
  repeat match goal with
  | Hh : 0 ≤ ?h < 16, Hl : 0 ≤ ?l < 16
    |- context [Z.land (Z.lor (wrap 8 (Z.shiftl ?h 4)) ?l) 15] =>
      destruct (nibbles_split h l Hh Hl) as (_ & -> & ->)
  end. done.
Qed.

(** The Node.js side can hold a correlation id as text without losing it:
    reading back the dashed rendering of a 16-byte id, or its plain 32-digit
    form, returns that id. *)
Theorem parse_fmt_correlation_id cid :
  is_correlation_id cid →
  parse_correlation_id (fmt_correlation_id cid) = Ret (Some cid) ∧
  parse_correlation_id (of_bytes (hex_bytes cid)) = Ret (Some cid).
Proof.
  intros Hcid. pose proof Hcid as [Hl Hb]. unfold CORRELATION_ID_LEN in Hl. rewrite !parse_spec.
  split; cbn zeta.
  - rewrite (digits_fmt _ Hcid). rewrite (is_bytes_fmt _ Hb).
    rewrite !length_app, !length_hex_bytes, !length_take, !length_drop, Hl. simpl.
    by rewrite pack_nibbles.
  - rewrite as_of_bytes by (by apply is_bytes_hex_bytes). rewrite length_hex_bytes, Hl. simpl.
    rewrite <- (app_nil_r (hex_bytes cid)), digits_hex_bytes by done. simpl.
    by rewrite app_nil_r, pack_nibbles.
Qed.

Lemma parse_fmt_correlation_id_witness :
  parse_correlation_id (fmt_correlation_id (correlation_id_of 4242 7)) =
  Ret (Some (correlation_id_of 4242 7)).
Proof. apply parse_fmt_correlation_id. apply is_correlation_id_of. Defined.

(** The case of the letters is irrelevant to the reader. *)
Lemma hex_value_lower c : hex_value (hex_lower c) = hex_value c.
Proof.
  unfold hex_value, hex_lower.
  repeat case_match; repeat match goal with
    | H : _ && _ = true |- _ => apply andb_prop in H as [? ?]
    | H : _ && _ = false |- _ => apply andb_false_iff in H as [?|?]
    end; f_equal; lia.
Qed.

Lemma dash_lower c : (hex_lower c =? DASH) = (c =? DASH).
Proof. unfold hex_lower, DASH. case_match; lia. Qed.

Lemma digits_lower dashed index bs :
  digits dashed index (map hex_lower bs) = digits dashed index bs.
Proof.
  revert index; induction bs as [|b bs IH]; intros index; [done|]. cbn [map digits].
  by rewrite hex_value_lower, dash_lower, !IH.
Qed.

(** Reading a correlation id never indexes out of range, and never returns
    a partially parsed id: an accepted text is, up to the case of its letters,
    the dashed or the plain rendering of the 16-byte id that is returned, and
    every other text is refused. *)
Theorem parse_correlation_id_sound text :
  ∃ r, parse_correlation_id text = Ret r ∧
  match r with
  | Some cid =>
      is_correlation_id cid ∧
      (map hex_lower (as_bytes text) = as_bytes (fmt_correlation_id cid) ∨
       map hex_lower (as_bytes text) = hex_bytes cid)
  | None =>
      ∀ cid, is_correlation_id cid →
      map hex_lower (as_bytes text) ≠ as_bytes (fmt_correlation_id cid) ∧
      map hex_lower (as_bytes text) ≠ hex_bytes cid
  end.
Proof.
  rewrite parse_spec. eexists; split; [done|]. cbn zeta. set (bs := as_bytes text).
  assert (Hsome : ∀ dashed len ds, length bs = len → digit_slots dashed 0 len = 32%nat →
    digits dashed 0 bs = Some ds → is_correlation_id (pack ds) ∧
    map hex_lower bs = render dashed 0 len (hex_bytes (pack ds))).
  { intros dashed len ds Hlen Hslots Hds.
    pose proof (digits_range _ _ _ _ Hds). pose proof (digits_count _ _ _ _ Hds) as Hc.
    rewrite Hlen, Hslots in Hc. split; [by apply pack_wf|].
    rewrite (digits_render _ _ _ _ Hds), Hlen. by rewrite hex_bytes_pack. }
  assert (Hnone : ∀ dashed cid, is_correlation_id cid → digits dashed 0 bs = None →
    map hex_lower bs = render dashed 0 (if dashed then 36 else 32) (hex_bytes cid) → False).
  { intros dashed cid Hcid Hd Heq. rewrite <- digits_lower, Heq in Hd. destruct dashed.
    - by rewrite <- (fmt_render _ Hcid), digits_fmt in Hd.
    - destruct Hcid as [Hl Hb]. rewrite (render_plain _ Hl) in Hd.
      rewrite <- (app_nil_r (hex_bytes cid)), digits_hex_bytes in Hd by done. done. }
  assert (Hlen : ∀ cid, is_correlation_id cid →
    (map hex_lower bs = as_bytes (fmt_correlation_id cid) → length bs = 36%nat) ∧
    (map hex_lower bs = hex_bytes cid → length bs = 32%nat)).
  { intros cid Hcid. pose proof (length_fmt _ Hcid) as Hf. destruct Hcid as [Hl Hb].
    split; intros Heq; apply (f_equal length) in Heq; rewrite length_map in Heq;
      rewrite Heq; [done|]. by rewrite length_hex_bytes, Hl. }
  destruct (Nat.eqb_spec (length bs) 32) as [H32|H32].
  { destruct (digits false 0 bs) as [ds|] eqn:E; simpl.
    - destruct (Hsome false 32%nat ds H32) as [Hcid Hr]; [done..|]. split; [done|]. right.
      rewrite Hr. apply render_plain, Hcid.
    - intros cid Hcid. split; intros Heq; [apply Hlen in Heq; [lia|done]|].
      apply (Hnone false cid Hcid E). by rewrite render_plain by apply Hcid. }
  destruct (Nat.eqb_spec (length bs) 36) as [H36|H36].
  { destruct (digits true 0 bs) as [ds|] eqn:E; simpl.
    - destruct (Hsome true 36%nat ds H36) as [Hcid Hr]; [done..|]. split; [done|]. left.
      by rewrite fmt_render.
    - intros cid Hcid. split; intros Heq; [|apply Hlen in Heq; [lia|done]].
      apply (Hnone true cid Hcid E). by rewrite <- fmt_render. }
  intros cid Hcid. split; intros Heq; apply Hlen in Heq; done.
Qed.
