(* ===== verification/Context.v ===== *)
(** * The call being served ([ice-rpc/src/types/context.rs])

    Trace contexts and span ids, the [CallContext] of a request, and the two
    thread-local slots a handler task reads: they are installed around every
    poll of the task and restored on the way out. *)

From S2P Require Import Prelude MachineInt Text Header.

Local Open Scope Z_scope.

(** ** [TraceContext] *)

Definition trace_is_present (t : TraceContext) : bool :=
  bool_decide (tc_trace_id t ≠ zero_trace_id).

Definition trace_is_sampled (t : TraceContext) : bool := Z.land (tc_flags t) 1 =? 1.

Definition hex_trace_id (id : bytes) : string := of_bytes (hex_bytes id).

Definition trace_id_hex (t : TraceContext) : string := hex_trace_id (tc_trace_id t).

Definition new_root (p : Proc) : TraceContext * Proc :=
  let (id, p') := next_correlation_id p in (MkTrace id 0 0, p').

Definition child_of (t : TraceContext) (span_id : Z) : TraceContext :=
  MkTrace (tc_trace_id t) span_id (tc_flags t).

Definition continued_or_root (t : TraceContext) (span_id : Z) (p : Proc) : TraceContext * Proc :=
  if trace_is_present t then (child_of t span_id, p)
  else let (id, p') := next_correlation_id p in (MkTrace id span_id (tc_flags t), p').

Definition traceparent (t : TraceContext) (span_id : Z) : string :=
  ("00-" +:+ trace_id_hex t +:+ "-" +:+ hex_u64 span_id +:+ "-"
   +:+ of_bytes (hex_byte (tc_flags t)))%string.

(** ** Span ids *)

Definition MIX_A : Z := 0xbf58476d1ce4e5b9.
Definition MIX_B : Z := 0x94d049bb133111eb.

(** The SplitMix64 finalizer applied to [z], before the last [| 1]. *)
Definition span_mix (z : Z) : Z :=
  let z := wrap 64 (xorshr 30 z * MIX_A) in
  let z := wrap 64 (xorshr 27 z * MIX_B) in
  xorshr 31 z.

Definition span_id_of (pid counter : Z) : Z :=
  Z.lor (span_mix (Z.lxor (wrap 64 (Z.shiftl pid 32)) counter)) 1.

Definition next_span_id (p : Proc) : Z * Proc :=
  (span_id_of (proc_pid p) (span_counter p),
   MkProc (proc_pid p) (cid_counter p) (wrap 64 (span_counter p + 1)) (proc_clock p)).

(** ** [CallContext] *)

Record CallContext : Type := MkCallContext {
  cc_correlation_id : bytes;
  cc_service_name : string;
  cc_service_id : Z;
  cc_service_version : Z;
  cc_method : string;
  cc_received_at_ns : Z;
  cc_trace : TraceContext;
  cc_span_id : Z
}.

#[export] Instance CallContext_eq_dec : EqDecision CallContext.
Proof. solve_decision. Defined.

Definition call_context_new (h : RpcHeader) (service_name method : string) (p : Proc)
    : CallContext * Proc :=
  let (span, p') := next_span_id p in
  (MkCallContext (h_correlation_id h) service_name (h_service_id h) (h_service_version h)
     method (h_timestamp_ns h) (header_trace h) span, p').

Definition correlation (c : CallContext) : string := fmt_correlation_id (cc_correlation_id c).

Definition child_trace (c : CallContext) (p : Proc) : TraceContext * Proc :=
  continued_or_root (cc_trace c) (cc_span_id c) p.

(** ** The thread-local slots *)

(** [CURRENT] and [CURRENT_CANCEL] of one thread; a token is named by its
    address. *)
Record Thread : Type := MkThread {
  t_current : option CallContext;
  t_cancel : option nat
}.

Definition empty_thread : Thread := MkThread None None.

Definition current (th : Thread) : option CallContext := t_current th.
Definition cancellation (th : Thread) : option nat := t_cancel th.

(** [enter_ambient]: the previous value is kept by the scope that is returned. *)
Definition enter_ambient (ctx : CallContext) (th : Thread) : option CallContext * Thread :=
  (t_current th, MkThread (Some ctx) (t_cancel th)).

Definition drop_ambient (previous : option CallContext) (th : Thread) : Thread :=
  MkThread previous (t_cancel th).

Definition install_call_cancellation (token : nat) (th : Thread) : option nat * Thread :=
  (t_cancel th, MkThread (t_current th) (Some token)).

Definition drop_ambient_cancel (previous : option nat) (th : Thread) : Thread :=
  MkThread (t_current th) previous.

Definition call_context_local (service : ServiceRef) (service_name method : string)
    (th : Thread) (p : Proc) : CallContext * Proc :=
  let (cid, p1) := next_correlation_id p in
  let (trace, p2) := match current th with
                     | Some parent => child_trace parent p1
                     | None => new_root p1
                     end in
  let (span, p3) := next_span_id p2 in
  (MkCallContext cid service_name (sr_id service) (sr_version service) method 0 trace span, p3).

(** The trace a client attaches to a request ([native_call], [send_one_way]). *)
Definition outgoing_trace (th : Thread) (p : Proc) : TraceContext * Proc :=
  match current th with
  | Some ctx => child_trace ctx p
  | None =>
      let (root, p1) := new_root p in
      let (span, p2) := next_span_id p1 in
      continued_or_root root span p2
  end.

(** ** Polling a task in its scope *)

Section scope.
(** A future: one poll consumes it, runs on a thread and hands both back. *)
Context {F : Type} (inner : F → Thread → poll () * F * Thread).

(** [CallScope::poll]. *)
Definition call_scope_poll (ctx : CallContext) (f : F) (th : Thread) : poll () * F * Thread :=
  let (previous, th1) := enter_ambient ctx th in
  let '(r, f', th2) := inner f th1 in
  (r, f', drop_ambient previous th2).

(** Polls of the tasks [tasks] of one thread, in the order an executor picks
    them; the log records what the inner future saw in the two slots. *)
Fixpoint run_polls (schedule : list nat) (tasks : list (CallContext * F)) (th : Thread)
    : list (nat * option CallContext) * list (CallContext * F) * Thread :=
  match schedule with
  | [] => ([], tasks, th)
  | i :: rest =>
      match tasks !! i with
      | None => run_polls rest tasks th
      | Some (ctx, f) =>
          let seen := current (snd (enter_ambient ctx th)) in
          let '(_, f', th') := call_scope_poll ctx f th in
          let '(log, tasks', th'') := run_polls rest (<[i := (ctx, f')]> tasks) th' in
          ((i, seen) :: log, tasks', th'')
      end
  end.
End scope.

(** ** Properties of span ids *)

Definition MIX_A_INV : Z := 0x96de1b173f119089.
Definition MIX_B_INV : Z := 0x319642b2d24d8ec3.

Lemma mix_round_fits k c z : 0 ≤ k → u64 z → u64 (wrap 64 (xorshr k z * c)).
Proof. intros. by apply fits_wrap. Qed.

Lemma span_mix_fits z : u64 z → u64 (span_mix z).
Proof. intros H. unfold span_mix. apply fits_xorshr; [done..|]. by apply fits_wrap. Qed.

(** Both multipliers are odd, so each round of the finalizer is a bijection of
    the 64-bit words. *)
Lemma span_mix_inj a b : u64 a → u64 b → span_mix a = span_mix b → a = b.
Proof.
  intros Ha Hb H. unfold span_mix in H.
  apply xorshr_inj in H; [|done|by apply fits_wrap..].
  apply (wrap_mul_inj 64 MIX_B MIX_B_INV) in H;
    [|done|apply fits_xorshr; [done..|by apply fits_wrap]..].
  apply xorshr_inj in H; [|done|by apply fits_wrap..].
  apply (wrap_mul_inj 64 MIX_A MIX_A_INV) in H; [|done|by apply fits_xorshr..].
  by apply xorshr_inj in H; [|done|eauto with icerpc..].
Qed.

(** What is mixed: the pid above a 32-bit counter. *)
Definition span_seed (pid counter : Z) : Z := Z.lxor (wrap 64 (Z.shiftl pid 32)) counter.

Lemma span_seed_fits pid counter : u64 counter → u64 (span_seed pid counter).
Proof. intros. apply fits_lxor; [done| |done]. by apply fits_wrap. Qed.

Lemma span_seed_high pid counter : u32 pid → u32 counter →
  Z.shiftr (span_seed pid counter) 32 = pid ∧ wrap 32 (span_seed pid counter) = counter.
Proof.
  intros Hp Hc. unfold span_seed.
  assert (Hs : wrap 64 (Z.shiftl pid 32) = pid * 2 ^ 32).
  { rewrite Z.shiftl_mul_pow2 by lia. apply wrap_small. destruct Hp. split; [lia|].
    change (2 ^ 64) with (2 ^ 32 * 2 ^ 32). nia. }
  rewrite Hs. split.
  - rewrite Z.shiftr_lxor, <- Z.shiftl_mul_pow2, Z.shiftr_shiftl_l by lia.
    replace (32 - 32) with 0 by lia. rewrite Z.shiftl_0_r.
    rewrite (Z.shiftr_div_pow2 counter), Z.div_small by done. apply Z.lxor_0_r.
  - unfold wrap. rewrite <- Z.shiftl_mul_pow2 by lia. apply Z.bits_inj'; intros i Hi.
    destruct (Z.lt_ge_cases i 32) as [Hlt|Hge].
    + rewrite Z.mod_pow2_bits_low, Z.lxor_spec, Z.shiftl_spec_low by done. by rewrite xorb_false_l.
    + rewrite Z.mod_pow2_bits_high by lia. symmetry. by apply (fits_testbit 32).
Qed.

Lemma span_seed_inj p1 c1 p2 c2 : u32 p1 → u32 c1 → u32 p2 → u32 c2 →
  span_seed p1 c1 = span_seed p2 c2 → p1 = p2 ∧ c1 = c2.
Proof.
  intros ???? H. destruct (span_seed_high p1 c1) as [Hp Hc]; [done..|].
  destruct (span_seed_high p2 c2) as [Hp' Hc']; [done..|]. rewrite H in Hp, Hc. by subst.
Qed.

(** Words that agree above their low bit are at most two. *)
Lemma low_bit_two a b c : 0 ≤ a → 0 ≤ b → 0 ≤ c →
  Z.shiftr a 1 = Z.shiftr b 1 → Z.shiftr b 1 = Z.shiftr c 1 → a = b ∨ b = c ∨ a = c.
Proof.
  rewrite !Z.shiftr_div_pow2 by lia. change (2 ^ 1) with 2. intros.
  pose proof (Z.div_mod a 2). pose proof (Z.div_mod b 2). pose proof (Z.div_mod c 2).
  pose proof (Z.mod_pos_bound a 2). pose proof (Z.mod_pos_bound b 2).
  pose proof (Z.mod_pos_bound c 2). lia.
Qed.

(** A span id is a nonzero 64-bit word, and no three spans of any
    processes (up to 2^32 spans each) share one: the SplitMix64 finalizer is a
    bijection and the final [| 1] merges exactly two of its values. *)
Theorem span_ids_nearly_unique p1 c1 p2 c2 p3 c3 :
  u32 p1 → u32 c1 → u32 p2 → u32 c2 → u32 p3 → u32 c3 →
  (p1, c1) ≠ (p2, c2) → (p2, c2) ≠ (p3, c3) → (p1, c1) ≠ (p3, c3) →
  u64 (span_id_of p1 c1) ∧ 0 < span_id_of p1 c1 ∧
  ¬ (span_id_of p1 c1 = span_id_of p2 c2 ∧ span_id_of p2 c2 = span_id_of p3 c3).
Proof.
  intros Hp1 Hc1 Hp2 Hc2 Hp3 Hc3 H12 H23 H13.
  assert (Hf : ∀ p c, u32 c → u64 (span_mix (span_seed p c))).
  { intros. apply span_mix_fits, span_seed_fits. by apply u32_u64. }
  assert (Hinj : ∀ p c p' c', u32 p → u32 c → u32 p' → u32 c' → (p, c) ≠ (p', c') →
    span_mix (span_seed p c) ≠ span_mix (span_seed p' c')).
  { intros p c p' c' ???? Hne Heq. apply span_mix_inj in Heq;
      [|by apply span_seed_fits, u32_u64..].
    apply span_seed_inj in Heq as [-> ->]; done. }
  change (span_id_of p1 c1) with (Z.lor (span_mix (span_seed p1 c1)) 1).
  change (span_id_of p2 c2) with (Z.lor (span_mix (span_seed p2 c2)) 1).
  change (span_id_of p3 c3) with (Z.lor (span_mix (span_seed p3 c3)) 1).
  assert (H1 := Hf p1 c1 Hc1). assert (H2 := Hf p2 c2 Hc2). assert (H3 := Hf p3 c3 Hc3).
  split; [by apply fits_lor|]. split; [by apply lor_1_pos, (fits_nonneg 64)|].
  intros [Ha Hb]. apply lor_1_low_bit in Ha; [|by apply (fits_nonneg 64)..].
  apply lor_1_low_bit in Hb; [|by apply (fits_nonneg 64)..].
  destruct (low_bit_two _ _ _ (fits_nonneg 64 _ H1) (fits_nonneg 64 _ H2)
    (fits_nonneg 64 _ H3) Ha Hb) as [He|[He|He]]; by eapply Hinj in He.
Qed.

Lemma span_ids_nearly_unique_witness : 0 < span_id_of 7 1.
Proof. by apply (span_ids_nearly_unique 7 1 7 2 8 1). Defined.

(** Span ids of one process are not unique: process 1006 draws the same
    span id for its spans 1443559509 and 1902620319. *)
Theorem span_ids_can_collide :
  let p1 := MkProc 1006 1 1443559509 None in
  let p2 := MkProc 1006 1 1902620319 None in
  proc_wf p1 ∧ proc_wf p2 ∧ fst (next_span_id p1) = fst (next_span_id p2).
Proof. vm_compute. repeat split; congruence. Qed.

(** ** Properties of traces *)

Lemma to_be_bytes_zero_inv n z : fits (8 * Z.of_nat n) z → z ≠ 0 → to_be_bytes n z ≠ replicate n 0.
Proof.
  intros Hf Hz H. apply Hz. apply (to_be_bytes_inj n); [done| |].
  - split; [done|]. apply pow2_pos. lia.
  - rewrite H. clear. induction n as [|n IH]; [done|]. simpl. f_equal; [|done].
    by rewrite Z.shiftr_0_l.
Qed.

(** The trace id drawn by a process that has a pid is never the absent one. *)
Lemma correlation_id_of_present pid counter : u32 pid → pid ≠ 0 →
  correlation_id_of pid counter ≠ zero_trace_id.
Proof.
  intros Hf Hz H. unfold correlation_id_of, zero_trace_id in H.
  change (replicate 16 0) with (replicate 8 0 ++ replicate 8 0) in H.
  apply app_inj_1 in H as [H _]; [|by rewrite length_to_be_bytes].
  revert H. apply to_be_bytes_zero_inv; [|done]. by apply u32_u64.
Qed.

Lemma continued_or_root_spec t span p :
  let '(t', _) := continued_or_root t span p in
  tc_parent_span_id t' = span ∧ tc_flags t' = tc_flags t ∧
  (tc_trace_id t ≠ zero_trace_id → tc_trace_id t' = tc_trace_id t) ∧
  (u32 (proc_pid p) → proc_pid p ≠ 0 → tc_trace_id t' ≠ zero_trace_id).
Proof.
  unfold continued_or_root, trace_is_present. case_bool_decide as H; [done|].
  unfold next_correlation_id; simpl. repeat split; [done|].
  intros. by apply correlation_id_of_present.
Qed.

(** The trace of an outgoing call: nested in a handler it keeps the trace
    id and the flags of the call being served and names that call's span as
    the parent; outside any handler, or when the caller sent no trace, it is a
    new trace, never the absent one, with a nonzero parent span. *)
Theorem outgoing_trace_spec th p :
  proc_wf p → proc_pid p ≠ 0 →
  let '(t, _) := outgoing_trace th p in
  trace_is_present t = true ∧
  match current th with
  | Some ctx =>
      tc_parent_span_id t = cc_span_id ctx ∧ tc_flags t = tc_flags (cc_trace ctx) ∧
      (trace_is_present (cc_trace ctx) = true → tc_trace_id t = tc_trace_id (cc_trace ctx))
  | None => 0 < tc_parent_span_id t ∧ tc_flags t = 0
  end.
Proof.
  intros (Hpid & Hcid & Hspan) Hz. unfold outgoing_trace, trace_is_present.
  destruct (current th) as [ctx|].
  - pose proof (continued_or_root_spec (cc_trace ctx) (cc_span_id ctx) p) as H.
    unfold child_trace. destruct (continued_or_root _ _ _) as [t p'].
    destruct H as (H1 & H2 & H3 & H4). rewrite !bool_decide_eq_true. auto.
  - unfold new_root, next_correlation_id, next_span_id. cbn [proc_pid span_counter cid_counter].
    pose proof (continued_or_root_spec
      (MkTrace (correlation_id_of (proc_pid p) (cid_counter p)) 0 0)
      (span_id_of (proc_pid p) (span_counter p))
      (MkProc (proc_pid p) (wrap 64 (cid_counter p + 1)) (wrap 64 (span_counter p + 1))
         (proc_clock p))) as H.
    destruct (continued_or_root _ _ _) as [t p'].
    destruct H as (H1 & H2 & H3 & H4). simpl in *. rewrite bool_decide_eq_true.
    split; [by apply H4|]. rewrite H1. split; [|done].
    apply lor_1_pos, (fits_nonneg 64), span_mix_fits. by apply span_seed_fits.
Qed.

Lemma outgoing_trace_spec_witness :
  trace_is_present (fst (outgoing_trace empty_thread (proc_start 7 None))) = true.
Proof. by apply (outgoing_trace_spec empty_thread (proc_start 7 None)). Defined.

(** An executor thread that interleaves the polls of many calls never
    shows one call's context to another: whatever the schedule and whatever
    the calls do to the slot while they run, every poll starts with its own
    call's context installed, the slot of the thread is restored after the
    last poll, and the tasks keep their contexts. *)
Theorem run_polls_isolated {F} (inner : F → Thread → poll () * F * Thread) schedule tasks th :
  let '(log, tasks', th') := run_polls inner schedule tasks th in
  t_current th' = t_current th ∧
  map fst tasks' = map fst tasks ∧
  Forall (λ '(i, seen), is_Some seen ∧ map fst tasks !! i = seen) log.
Proof.
  revert tasks th; induction schedule as [|i rest IH]; intros tasks th; [done|].
  cbn [run_polls]. destruct (tasks !! i) as [[ctx f]|] eqn:Hi; [|apply IH].
  unfold call_scope_poll. cbn [enter_ambient].
  destruct (inner f (MkThread (Some ctx) (t_cancel th))) as [[r f'] th2].
  specialize (IH (<[i := (ctx, f')]> tasks) (drop_ambient (t_current th) th2)).
  destruct (run_polls _ _ _ _) as [[log tasks'] th'].
  assert (Hmap : map fst (<[i := (ctx, f')]> tasks) = map fst tasks).
  { rewrite list_fmap_insert. apply list_insert_id. by rewrite list_lookup_fmap, Hi. }
  rewrite Hmap in IH. destruct IH as (IH1 & IH2 & IH3). split; [done|]. split; [done|].
  constructor; [|done]. split; [done|]. by rewrite list_lookup_fmap, Hi.
Qed.
