(* ===== verification/Wire.v ===== *)
(** * The wire form of an event ([ice-rpc/src/types/wire.rs])

    [WireEvent] adds to [Event] the one-sample [CompleteWith]; the consumer
    expands it back with [normalize_wire_event]. *)

From S2P Require Import Prelude MachineInt Text Event Header.

Inductive WireEvent (T E : Type) : Type :=
| WNext (v : T)
| WComplete
| WCompleteWith (v : T)
| WError (e : E)
| WRpcError (e : RpcError).
Arguments WNext {T E} v.
Arguments WComplete {T E}.
Arguments WCompleteWith {T E} v.
Arguments WError {T E} e.
Arguments WRpcError {T E} e.

#[export] Instance WireEvent_eq_dec {T E} `{EqDecision T, EqDecision E} :
  EqDecision (WireEvent T E).
Proof. solve_decision. Defined.

Definition wire_is_terminal {T E} (w : WireEvent T E) : bool :=
  match w with
  | WComplete | WCompleteWith _ | WError _ | WRpcError _ => true
  | WNext _ => false
  end.

Definition wire_kind {T E} (w : WireEvent T E) : EventKind :=
  match w with
  | WNext _ => KNext
  | WComplete | WCompleteWith _ => KComplete
  | WError _ => KError
  | WRpcError _ => KRpcError
  end.

(** [impl From<Event> for WireEvent]. *)
Definition wire_from {T E} (ev : Event T E) : WireEvent T E :=
  match ev with
  | Next v => WNext v
  | Complete => WComplete
  | Error (Business e) => WError e
  | Error (Technical e) => WRpcError e
  | Error Empty => WComplete
  end.

Definition normalize_wire_event {T E} (w : WireEvent T E) : Event T E * option (Event T E) :=
  match w with
  | WNext v => (Next v, None)
  | WComplete => (Complete, None)
  | WCompleteWith v => (Next v, Some Complete)
  | WError e => (Error (Business e), None)
  | WRpcError e => (Error (Technical e), None)
  end.

(** What the consumer relays for one wire event. *)
Definition expand_wire {T E} (w : WireEvent T E) : list (Event T E) :=
  match normalize_wire_event w with
  | (ev, Some follow) => [ev; follow]
  | (ev, None) => [ev]
  end.

(** An event as the other side of the wire reports it: [Empty] reads as the
    end of the stream. *)
Definition wire_view {T E} (ev : Event T E) : Event T E :=
  match ev with
  | Error Empty => Complete
  | _ => ev
  end.

Lemma expand_wire_from {T E} (ev : Event T E) : expand_wire (wire_from ev) = [wire_view ev].
Proof. by destruct ev as [| |[]]. Qed.

Lemma expand_wire_terminal {T E} (w : WireEvent T E) :
  Exists (λ ev, is_terminal ev = true) (expand_wire w) ↔ wire_is_terminal w = true.
Proof.
  destruct w; cbn; rewrite ?Exists_cons, ?Exists_nil; cbn; naive_solver.
Qed.

(** The kind stamped in the header tells the observer that the sample ends the
    call exactly when the wire event does. *)
Lemma wire_kind_terminal {T E} (w : WireEvent T E) :
  kind_is_terminal (wire_kind w) = wire_is_terminal w.
Proof. by destruct w. Qed.

Lemma wire_from_terminal {T E} (ev : Event T E) : wire_is_terminal (wire_from ev) = is_terminal ev.
Proof. by destruct ev as [| |[]]. Qed.

#[export] Hint Rewrite @expand_wire_from @wire_kind_terminal @wire_from_terminal : icerpc.
