(* ===== verification/Hash.v ===== *)
(** * The hashers of the hot-path maps ([ice-rpc/src/hash.rs])

    [FxHasher] feeds 64-bit words to a rotate/xor/multiply round and ends with
    an avalanche; [IdentityHasher] returns the last [u32] written.  The keys of
    the [FastMap]s are correlation ids: the standard library hashes a
    [[u8; 16]] as its length followed by its bytes. *)

From S2P Require Import Prelude MachineInt Text Header.

Local Open Scope Z_scope.

(** ** [FxHasher] *)

Definition FX_SEED : Z := 0x517cc1b727220a95.
Definition FX_AVALANCHE : Z := 0xd6e8feb86659fd93.

Definition fx_default : Z := 0.

Definition fx_add (hash word : Z) : Z := wrap 64 (Z.lxor (rotl 64 5 hash) word * FX_SEED).

(** [slice::as_chunks::<8>]: the whole 8-byte chunks, and the tail. *)
Fixpoint as_chunks (n : nat) (bs : bytes) : list bytes * bytes :=
  match n with
  | O => ([], bs)
  | S n' => let (chunks, tail) := as_chunks n' (drop 8 bs) in (take 8 bs :: chunks, tail)
  end.

Definition fx_write (hash : Z) (bs : bytes) : Z :=
  let (chunks, tail) := as_chunks (length bs / 8)%nat bs in
  let hash := fold_left (λ h chunk, fx_add h (of_le_bytes chunk)) chunks hash in
  match tail with
  | [] => hash
  | _ => fx_add hash (of_le_bytes (tail ++ replicate (8 - length tail) 0))
  end.

Definition fx_write_u8 (hash value : Z) : Z := fx_add hash value.
Definition fx_write_u32 (hash value : Z) : Z := fx_add hash value.
Definition fx_write_u64 (hash value : Z) : Z := fx_add hash value.
Definition fx_write_usize (hash value : Z) : Z := fx_add hash (wrap 64 value).

Definition fx_finish (hash : Z) : Z :=
  let hash := xorshr 32 hash in
  let hash := wrap 64 (hash * FX_AVALANCHE) in
  xorshr 32 hash.

(** The hash of a [FastMap] key. *)
Definition hash_correlation_id (cid : bytes) : Z :=
  fx_finish (fx_write (fx_write_usize fx_default (Z.of_nat (length cid))) cid).

(** ** [IdentityHasher] *)

Definition id_write (hash : Z) (bs : bytes) : Z := hash.
Definition id_write_u32 (hash value : Z) : Z := value.
Definition id_finish (hash : Z) : Z := hash.

(** ** Properties *)

Definition FX_SEED_INV : Z := Eval vm_compute in
  let inv := fix inv (n : nat) (x : Z) : Z :=
    match n with O => x | S n' => inv n' (wrap 64 (x * (2 - FX_SEED * x))) end in inv 6%nat 1.
Definition FX_AVALANCHE_INV : Z := Eval vm_compute in
  let inv := fix inv (n : nat) (x : Z) : Z :=
    match n with O => x | S n' => inv n' (wrap 64 (x * (2 - FX_AVALANCHE * x))) end in inv 6%nat 1.

Lemma rotl_fits k z : 0 ≤ k ≤ 64 → u64 z → u64 (rotl 64 k z).
Proof. intros. apply fits_lor; [done|by apply fits_wrap|]. apply fits_shiftr; [lia|done]. Qed.

(** A rotation moves bit [i] to [i + k] modulo 64. *)
Lemma rotl_testbit k z i : 0 < k < 64 → u64 z → 0 ≤ i < 64 →
  Z.testbit (rotl 64 k z) i = Z.testbit z (if decide (i < k) then i + 64 - k else i - k).
Proof.
  intros Hk Hz Hi. unfold rotl, wrap. rewrite Z.lor_spec, Z.shiftr_spec by lia.
  rewrite Z.mod_pow2_bits_low by lia. case_decide.
  - rewrite Z.shiftl_spec_low by lia. rewrite orb_false_l. f_equal. lia.
  - rewrite Z.shiftl_spec by lia.
    rewrite (fits_testbit 64 z (i + (64 - k))) by (done || lia). by rewrite orb_false_r.
Qed.

Lemma rotl_inj k a b : 0 < k < 64 → u64 a → u64 b → rotl 64 k a = rotl 64 k b → a = b.
Proof.
  intros Hk Ha Hb H. apply Z.bits_inj'; intros j Hj.
  destruct (Z.lt_ge_cases j 64) as [Hlt|Hge].
  2: { by rewrite !(fits_testbit 64) by done. }
  set (i := if decide (j + k < 64) then j + k else j + k - 64).
  assert (Hi : 0 ≤ i < 64) by (subst i; case_decide; lia).
  apply (f_equal (λ z, Z.testbit z i)) in H. rewrite !rotl_testbit in H by done.
  replace (if decide (i < k) then i + 64 - k else i - k) with j in H; [done|].
  subst i. repeat case_decide; lia.
Qed.

Lemma fx_add_fits h w : u64 (fx_add h w).
Proof. by apply fits_wrap. Qed.

(** A round loses neither the state nor the word. *)
Lemma fx_add_inj_word h w1 w2 : u64 h → u64 w1 → u64 w2 → fx_add h w1 = fx_add h w2 → w1 = w2.
Proof.
  intros Hh H1 H2 H. apply (wrap_mul_inj 64 FX_SEED FX_SEED_INV) in H;
    [by apply lxor_inj_r in H|done|apply fits_lxor; [done|by apply rotl_fits|done]..].
Qed.

Lemma fx_add_inj_state w h1 h2 : u64 w → u64 h1 → u64 h2 → fx_add h1 w = fx_add h2 w → h1 = h2.
Proof.
  intros Hw H1 H2 H. apply (wrap_mul_inj 64 FX_SEED FX_SEED_INV) in H;
    [|done|apply fits_lxor; [done|by apply rotl_fits|done]..].
  apply lxor_inj_l in H. by apply rotl_inj in H.
Qed.

Lemma fx_finish_inj a b : u64 a → u64 b → fx_finish a = fx_finish b → a = b.
Proof.
  intros Ha Hb H. unfold fx_finish in H.
  apply xorshr_inj in H; [|done|by apply fits_wrap..].
  apply (wrap_mul_inj 64 FX_AVALANCHE FX_AVALANCHE_INV) in H; [|done|by apply fits_xorshr..].
  by apply xorshr_inj in H; [|done|eauto with icerpc..].
Qed.

(** A correlation id is hashed as three words: its length, its pid half and
    its counter half. *)
Lemma hash_correlation_id_words cid : length cid = CORRELATION_ID_LEN →
  hash_correlation_id cid =
  fx_finish (fx_add (fx_add (fx_add 0 16) (of_le_bytes (take 8 cid))) (of_le_bytes (drop 8 cid))).
Proof.
  intros Hl. unfold hash_correlation_id, fx_write. rewrite Hl.
  change (CORRELATION_ID_LEN / 8)%nat with 2%nat. cbn [as_chunks fold_left].
  unfold CORRELATION_ID_LEN in Hl. do 16 (destruct cid as [|? cid]; [done|]). by destruct cid.
Qed.

Lemma of_le_to_be_bytes_inj n a b :
  fits (8 * Z.of_nat n) a → fits (8 * Z.of_nat n) b →
  of_le_bytes (to_be_bytes n a) = of_le_bytes (to_be_bytes n b) → a = b.
Proof.
  intros Ha Hb H. apply of_le_bytes_inj in H;
    [|by rewrite !length_to_be_bytes|by apply is_bytes_to_be_bytes..].
  by apply to_be_bytes_inj in H.
Qed.

Lemma halves pid counter :
  take 8 (correlation_id_of pid counter) = to_be_bytes 8 pid ∧
  drop 8 (correlation_id_of pid counter) = to_be_bytes 8 counter.
Proof. done. Qed.

Lemma of_le_to_be_fits z : u64 (of_le_bytes (to_be_bytes 8 z)).
Proof.
  pose proof (fits_of_le_bytes _ (is_bytes_to_be_bytes 8 z)) as H.
  by rewrite length_to_be_bytes in H.
Qed.

(** The in-flight and response-handler maps never see a full 64-bit
    collision between two live calls of one client process: the ids of one pid
    with different counters, and the ids that share a counter under different
    pids, have different hashes. *)
Theorem correlation_hash_collision_free pid1 counter1 pid2 counter2 :
  u64 pid1 → u64 counter1 → u64 pid2 → u64 counter2 →
  (pid1 = pid2 ∧ counter1 ≠ counter2) ∨ (pid1 ≠ pid2 ∧ counter1 = counter2) →
  hash_correlation_id (correlation_id_of pid1 counter1) ≠
  hash_correlation_id (correlation_id_of pid2 counter2).
Proof.
  intros Hp1 Hc1 Hp2 Hc2 Hdiff H.
  rewrite !hash_correlation_id_words in H by done.
  apply fx_finish_inj in H; [|by apply fx_add_fits..].
  rewrite !(proj1 (halves _ _)), !(proj2 (halves _ _)) in H.
  destruct Hdiff as [[-> Hc]|[Hp ->]].
  - apply fx_add_inj_word in H; [|apply fx_add_fits|apply of_le_to_be_fits..].
    by apply of_le_to_be_bytes_inj in H.
  - apply fx_add_inj_state in H; [|apply of_le_to_be_fits|apply fx_add_fits..].
    apply fx_add_inj_word in H; [|apply fx_add_fits|apply of_le_to_be_fits..].
    by apply of_le_to_be_bytes_inj in H.
Qed.

Lemma correlation_hash_collision_free_witness :
  hash_correlation_id (correlation_id_of 4242 1) ≠ hash_correlation_id (correlation_id_of 4242 2).
Proof. apply correlation_hash_collision_free; try done. by left. Defined.
