(* ===== verification/Cancel.v ===== *)
(** * The cancellation token ([ice-rpc-rx/src/rt/cancel.rs])

    A token is a flag and a list of wakers behind a mutex.  The operations are
    given twice: as whole functions, for their callers, and as the atomic steps
    threads really interleave (a load or a swap of the flag, a critical section
    of the mutex), for the absence of lost wake-ups. *)

From S2P Require Import Prelude.

(** A waker is named by the task it wakes: [will_wake] is equality. *)
Abbreviation Waker := nat.

Record CancellationToken : Type := MkToken {
  tok_cancelled : bool;
  tok_wakers : list Waker
}.

(** ** The operations *)

Definition token_new : CancellationToken := MkToken false [].

Definition is_cancelled (t : CancellationToken) : bool := tok_cancelled t.

(** [cancel]: the wakers that are woken, in order. *)
Definition cancel (t : CancellationToken) : list Waker * CancellationToken :=
  if tok_cancelled t then ([], t)
  else (tok_wakers t, MkToken true []).

(** The critical section of [poll_cancelled]. *)
Definition register (t : CancellationToken) (w : Waker) : CancellationToken :=
  if bool_decide (w ∈ tok_wakers t) then t
  else MkToken (tok_cancelled t) (tok_wakers t ++ [w]).

Definition poll_cancelled (t : CancellationToken) (w : Waker) : poll () * CancellationToken :=
  if is_cancelled t then (Ready (), t)
  else
    let t' := register t w in
    if is_cancelled t' then (Ready (), t') else (Pending, t').

Definition poll_cancelled_cached (t : CancellationToken) (w : Waker) (registered : option Waker)
    : poll () * CancellationToken * option Waker :=
  if is_cancelled t then (Ready (), t, registered)
  else
    match registered with
    | Some cached =>
        if bool_decide (cached = w) then (Pending, t, registered)
        else match poll_cancelled t w with
             | (Ready _, t') => (Ready (), t', registered)
             | (Pending, t') => (Pending, t', Some w)
             end
    | None =>
        match poll_cancelled t w with
        | (Ready _, t') => (Ready (), t', registered)
        | (Pending, t') => (Pending, t', Some w)
        end
    end.

(** ** Threads *)

(** Where a task is in [poll_cancelled_cached]: between polls, about to take
    the lock, or registered and about to read the flag again. *)
Inductive PollPc : Type :=
| PIdle (last : option (poll ()))
| PRegister
| PReread.

Record Poller : Type := MkPoller {
  p_waker : Waker;
  p_cache : option Waker;
  p_pc : PollPc
}.

(** Where a thread is in [cancel]: before the swap, before the critical
    section, waking what it took, or done. *)
Inductive CancelPc : Type :=
| CStart
| CTake
| CWake (rest : list Waker)
| CDone.

#[export] Instance CancelPc_eq_dec : EqDecision CancelPc.
Proof. solve_decision. Defined.

Record World : Type := MkWorld {
  w_token : CancellationToken;
  w_woken : list Waker;
  w_pollers : list Poller;
  w_cancellers : list CancelPc
}.

(** The first read of a poll with the waker [w]. *)
Definition poll_begin (t : CancellationToken) (p : Poller) (w : Waker) : Poller :=
  if is_cancelled t then MkPoller w (p_cache p) (PIdle (Some (Ready ())))
  else if bool_decide (p_cache p = Some w) then MkPoller w (p_cache p) (PIdle (Some Pending))
  else MkPoller w (p_cache p) PRegister.

(** The second read. *)
Definition poll_reread (t : CancellationToken) (p : Poller) : Poller :=
  if is_cancelled t then MkPoller (p_waker p) (p_cache p) (PIdle (Some (Ready ())))
  else MkPoller (p_waker p) (Some (p_waker p)) (PIdle (Some Pending)).

Inductive step : World → World → Prop :=
| step_begin t k ps cs i p last w :
    ps !! i = Some p → p_pc p = PIdle last →
    step (MkWorld t k ps cs) (MkWorld t k (<[i := poll_begin t p w]> ps) cs)
| step_register t k ps cs i p :
    ps !! i = Some p → p_pc p = PRegister →
    step (MkWorld t k ps cs)
      (MkWorld (register t (p_waker p)) k
         (<[i := MkPoller (p_waker p) (p_cache p) PReread]> ps) cs)
| step_reread t k ps cs i p :
    ps !! i = Some p → p_pc p = PReread →
    step (MkWorld t k ps cs) (MkWorld t k (<[i := poll_reread t p]> ps) cs)
| step_swap t k ps cs i :
    cs !! i = Some CStart →
    step (MkWorld t k ps cs)
      (MkWorld (MkToken true (tok_wakers t)) k ps
         (<[i := if is_cancelled t then CDone else CTake]> cs))
| step_take t k ps cs i :
    cs !! i = Some CTake →
    step (MkWorld t k ps cs)
      (MkWorld (MkToken (tok_cancelled t) []) k ps (<[i := CWake (tok_wakers t)]> cs))
| step_wake t k ps cs i w rest :
    cs !! i = Some (CWake (w :: rest)) →
    step (MkWorld t k ps cs) (MkWorld t (w :: k) ps (<[i := CWake rest]> cs))
| step_finish t k ps cs i :
    cs !! i = Some (CWake []) →
    step (MkWorld t k ps cs) (MkWorld t k ps (<[i := CDone]> cs)).

(** Tasks that have not polled yet and threads that have not cancelled yet. *)
Definition world_start (pollers cancellers : nat) : World :=
  MkWorld token_new [] (replicate pollers (MkPoller 0 None (PIdle None)))
    (replicate cancellers CStart).

Inductive reachable (n m : nat) : World → Prop :=
| reach_start : reachable n m (world_start n m)
| reach_step w w' : reachable n m w → step w w' → reachable n m w'.

(** ** The invariant *)

(** A waker that a cancellation has woken, is about to wake, or will find. *)
Definition tracked (wd : World) (w : Waker) : Prop :=
  w ∈ tok_wakers (w_token wd) ∨ w ∈ w_woken wd ∨
  ∃ i rest, w_cancellers wd !! i = Some (CWake rest) ∧ w ∈ rest.

Definition woken_or_waking (wd : World) (w : Waker) : Prop :=
  w ∈ w_woken wd ∨ ∃ i rest, w_cancellers wd !! i = Some (CWake rest) ∧ w ∈ rest.

(** The waker a poller relies on: registered and not yet told. *)
Definition waiting (p : Poller) : Prop := p_pc p = PIdle (Some Pending).

Definition cancel_inv (wd : World) : Prop :=
  (* before the flag is set no thread is past its swap *)
  (tok_cancelled (w_token wd) = false → Forall (λ c, c = CStart) (w_cancellers wd) ∧ w_woken wd = []) ∧
  (* a registered or cached waker is never lost *)
  (∀ i p, w_pollers wd !! i = Some p →
     (waiting p ∨ p_pc p = PReread → tracked wd (p_waker p)) ∧
     (∀ w, p_cache p = Some w → tracked wd w)) ∧
  (* once the list has been taken, a waiting task is on its way to be woken *)
  (tok_cancelled (w_token wd) = true → (∀ i, w_cancellers wd !! i ≠ Some CTake) →
   ∀ i p, w_pollers wd !! i = Some p → waiting p → woken_or_waking wd (p_waker p)).

Lemma elem_register t w v : v ∈ tok_wakers (register t w) ↔ v = w ∨ v ∈ tok_wakers t.
Proof.
  unfold register. case_bool_decide; simpl; [|rewrite elem_of_app, list_elem_of_singleton; tauto].
  split; [tauto|by intros [->|]].
Qed.

Lemma register_flag t w : tok_cancelled (register t w) = tok_cancelled t.
Proof. unfold register. by case_bool_decide. Qed.

(** A thread that is waking keeps doing so while another one moves. *)
Lemma waking_other (cs : list CancelPc) (i : nat) c c' (j : nat) rest (w : Waker) :
  cs !! i = Some c → (∀ r, c ≠ CWake r) → cs !! j = Some (CWake rest) → w ∈ rest →
  ∃ k rest', <[i := c']> cs !! k = Some (CWake rest') ∧ w ∈ rest'.
Proof.
  intros Hi Hc Hj Hw. exists j, rest. split; [|done].
  rewrite list_lookup_insert_ne; [done|]. intros ->. simplify_eq. by eapply Hc.
Qed.

Lemma step_woken_or_waking wd wd' w : step wd wd' → woken_or_waking wd w → woken_or_waking wd' w.
Proof.
  unfold woken_or_waking. intros Hs [Hw|(j & rest & Hj & Hw)].
  { left. destruct Hs; simpl in *; try done. by apply list_elem_of_further. }
  destruct Hs; simpl in *; try (right; by eauto).
  - right. by eapply (waking_other cs i CStart).
  - right. by eapply (waking_other cs i CTake).
  - destruct (decide (i = j)) as [->|Hne].
    + simplify_eq. apply elem_of_cons in Hw as [->|Hw]; [left; by left|].
      right. exists j, rest0. split; [|done]. apply list_lookup_insert_eq. by eapply lookup_lt_Some.
    + right. exists j, rest. by rewrite list_lookup_insert_ne.
  - destruct (decide (i = j)) as [->|Hne]; [simplify_eq; by apply elem_of_nil in Hw|].
    right. exists j, rest. by rewrite list_lookup_insert_ne.
Qed.

Lemma tracked_split wd w : tracked wd w ↔ w ∈ tok_wakers (w_token wd) ∨ woken_or_waking wd w.
Proof. unfold tracked, woken_or_waking. naive_solver. Qed.

Lemma step_tracked wd wd' w : step wd wd' → tracked wd w → tracked wd' w.
Proof.
  rewrite !tracked_split. intros Hs [Hw|Hw]; [|right; by eapply step_woken_or_waking].
  destruct Hs; simpl in *; auto.
  - left. apply elem_register. auto.
  - right. right. exists i, (tok_wakers t). split; [|done].
    apply list_lookup_insert_eq. by eapply lookup_lt_Some.
Qed.

(** What a step does to a task: nothing, or one of the three poll steps. *)
Lemma step_poller wd wd' i p' : step wd wd' → w_pollers wd' !! i = Some p' →
  w_pollers wd !! i = Some p' ∨
  ∃ p, w_pollers wd !! i = Some p ∧
    ((∃ last w, p_pc p = PIdle last ∧ p' = poll_begin (w_token wd) p w) ∨
     (p_pc p = PRegister ∧ p' = MkPoller (p_waker p) (p_cache p) PReread ∧
      p_waker p ∈ tok_wakers (w_token wd')) ∨
     (p_pc p = PReread ∧ p' = poll_reread (w_token wd) p)).
Proof.
  intros Hs Hi. destruct Hs as [t k ps cs j p last w Hj Hpc|t k ps cs j p Hj Hpc|t k ps cs j p Hj Hpc| | | |];
    simpl in *; auto; apply list_lookup_insert_Some in Hi as [(<- & <- & _)|[_ ?]]; auto; right; exists p.
  - split; [done|]. left; eauto.
  - split; [done|]. right; left. split; [done|]. split; [done|]. apply elem_register; auto.
  - split; [done|]. auto.
Qed.

Lemma cancel_inv_tracked wd wd' : step wd wd' → cancel_inv wd →
  ∀ i p, w_pollers wd' !! i = Some p →
    (waiting p ∨ p_pc p = PReread → tracked wd' (p_waker p)) ∧
    (∀ w, p_cache p = Some w → tracked wd' w).
Proof.
  intros Hs (_ & Htr & _) i p' Hi.
  destruct (step_poller _ _ _ _ Hs Hi) as [Hold|(p & Hp & Hcases)].
  { destruct (Htr i p' Hold) as [Hw Hc]. split; eauto using step_tracked. }
  destruct (Htr i p Hp) as [Hw Hc].
  destruct Hcases as [(last & w & Hpc & ->)|[(Hpc & -> & Hin)|(Hpc & ->)]].
  - unfold poll_begin, waiting. destruct (is_cancelled _); [|case_bool_decide]; simpl.
    + split; [by intros [|]|eauto using step_tracked].
    + split; eauto using step_tracked.
    + split; [by intros [|]|eauto using step_tracked].
  - simpl. split; [intros _; by left|eauto using step_tracked].
  - unfold poll_reread, waiting. case_match; simpl.
    + split; [by intros [|]|eauto using step_tracked].
    + split; [|intros w [= <-]]; eauto using step_tracked.
Qed.

(** While a thread is about to take the list, only that very step leaves no
    such thread behind, and it puts the whole list on its way. *)
Lemma step_last_take wd wd' j w : step wd wd' →
  w_cancellers wd !! j = Some CTake → (∀ i, w_cancellers wd' !! i ≠ Some CTake) →
  w ∈ tok_wakers (w_token wd) → woken_or_waking wd' w.
Proof.
  intros Hs Hj Hno Hw.
  assert (Hother : ∀ cs i c c', cs = w_cancellers wd → cs !! i = Some c → c ≠ CTake →
    <[i := c']> cs !! j = Some CTake).
  { intros cs i c c' -> Hi Hc. rewrite list_lookup_insert_ne; [done|]. intros ->. simplify_eq. }
  destruct Hs as [| | |t k ps cs i Hi|t k ps cs i Hi|t k ps cs i ? ? Hi|t k ps cs i Hi];
    simpl in *; try (by destruct (Hno j)); try (by destruct (Hno j); eapply Hother).
  right. exists i, (tok_wakers t). split; [|done]. apply list_lookup_insert_eq. by eapply lookup_lt_Some.
Qed.

(** A task that is waiting after a step was waiting before, or the flag was
    still clear. *)
Lemma step_waiting wd wd' i p : step wd wd' → w_pollers wd' !! i = Some p → waiting p →
  w_pollers wd !! i = Some p ∨ tok_cancelled (w_token wd) = false.
Proof.
  intros Hs Hi Hwait.
  destruct (step_poller _ _ _ _ Hs Hi) as [?|(p0 & Hp & [(l & w & _ & ->)|[(_ & -> & _)|(_ & ->)]])];
    [by left|..]; right; unfold waiting, poll_begin, poll_reread, is_cancelled in Hwait;
    by destruct (tok_cancelled (w_token wd)).
Qed.

Lemma cancel_inv_step wd wd' : step wd wd' → cancel_inv wd → cancel_inv wd'.
Proof.
  intros Hs Hinv. split; [|split; [by eapply cancel_inv_tracked|]].
  - destruct Hinv as (H1 & _ & _). revert H1.
    destruct Hs; simpl; rewrite ?register_flag; try done; intros H1 Hf;
      destruct (H1 Hf) as [Hall _]; eapply Forall_lookup_1 in Hall; try done; done.
  - intros Hf Hno i p Hi Hwait. pose proof (step_waiting _ _ _ _ Hs Hi Hwait) as Hcases.
    destruct Hinv as (H1 & H2 & H3).
    destruct (tok_cancelled (w_token wd)) eqn:Hold.
    + destruct Hcases as [Hp|]; [|done].
      destruct (decide (CTake ∈ w_cancellers wd)) as [Hex|Hex].
      * apply list_elem_of_lookup in Hex as [j Hj].
        destruct (proj1 (tracked_split _ _) (proj1 (H2 i p Hp) (or_introl Hwait)));
          [by eapply step_last_take|by eapply step_woken_or_waking].
      * eapply step_woken_or_waking; [done|]. apply (H3 eq_refl) with (i := i); [|done|done].
        intros j Hj. by apply Hex, list_elem_of_lookup; exists j.
    + destruct Hs as [| | |t k ps cs j Hj| | |]; simpl in *; rewrite ?register_flag in Hf; try congruence.
      unfold is_cancelled in Hno. rewrite Hold in Hno. destruct (Hno j).
      apply list_lookup_insert_eq. by eapply lookup_lt_Some.
Qed.

Lemma cancel_inv_start n m : cancel_inv (world_start n m).
Proof.
  split; [|split].
  - intros _. split; [|done]. apply Forall_replicate. done.
  - intros i p Hi. simpl in Hi. apply lookup_replicate in Hi as [-> _]. unfold waiting; simpl.
    split; [by intros [?|?]|done].
  - done.
Qed.

Lemma reachable_inv n m wd : reachable n m wd → cancel_inv wd.
Proof. induction 1; eauto using cancel_inv_start, cancel_inv_step. Qed.

(** C4. No lost wake-up.  Any number of tasks poll the token, each with the
    waker of its current executor poll and its cache of the waker it
    registered, while any number of threads cancel it, every atomic step
    interleaved in any order: once the cancelling threads have finished (at
    least one of them ran), every task whose last poll answered [Pending] has
    had that poll's waker woken. *)
Theorem no_lost_wakeup n m wd i p :
  reachable n m wd →
  w_cancellers wd ≠ [] → Forall (λ c, c = CDone) (w_cancellers wd) →
  w_pollers wd !! i = Some p → waiting p →
  p_waker p ∈ w_woken wd.
Proof.
  intros Hr Hne Hdone Hi Hw. apply reachable_inv in Hr as (H1 & _ & H3).
  assert (Hflag : tok_cancelled (w_token wd) = true).
  { destruct (tok_cancelled (w_token wd)); [done|]. destruct (H1 eq_refl) as [Hall _].
    destruct (w_cancellers wd) as [|c cs]; [done|].
    apply Forall_cons in Hall as [-> _]. apply Forall_cons in Hdone as [? _]. discriminate. }
  assert (Hno : ∀ j c, w_cancellers wd !! j = Some c → c = CDone)
    by (intros j c Hj; exact (Forall_lookup_1 _ _ _ _ Hdone Hj)).
  destruct (H3 Hflag) with (i := i) (p := p) as [?|(j & rest & Hj & _)]; try done.
  - intros j Hj. by apply Hno in Hj.
  - by apply Hno in Hj.
Qed.

(** One task and one canceller, the cancellation after the task's poll. *)
Lemma no_lost_wakeup_witness :
  p_waker (MkPoller 5 (Some 5) (PIdle (Some Pending))) ∈
  w_woken (MkWorld (MkToken true []) [5] [MkPoller 5 (Some 5) (PIdle (Some Pending))] [CDone]).
Proof.
  apply (no_lost_wakeup 1 1 (MkWorld (MkToken true []) [5]
    [MkPoller 5 (Some 5) (PIdle (Some Pending))] [CDone]) 0); [|done|by constructor|done|done].
  eapply reach_step; [|by apply (step_finish _ _ _ [CWake []] 0)].
  eapply reach_step; [|by apply (step_wake _ _ _ [CWake [5]] 0)].
  eapply reach_step; [|by apply (step_take (MkToken true [5]) _ _ [CTake] 0)].
  eapply reach_step; [|by apply (step_swap (MkToken false [5]) _ _ [CStart] 0)].
  eapply reach_step; [|by apply (step_reread (MkToken false [5]) _ [MkPoller 5 None PReread] _ 0
    (MkPoller 5 None PReread))].
  eapply reach_step; [|by apply (step_register (MkToken false []) _ [MkPoller 5 None PRegister] _ 0
    (MkPoller 5 None PRegister))].
  eapply reach_step; [|by apply (step_begin token_new _ [MkPoller 0 None (PIdle None)] _ 0
    (MkPoller 0 None (PIdle None)) None 5)].
  apply reach_start.
Defined.

(** The whole functions agree with the steps: a poll that answers [Pending]
    leaves its waker registered, or found it in the cache. *)
Lemma poll_cancelled_cached_steps t w cache p :
  p_cache p = cache →
  poll_cancelled_cached t w cache =
  let p1 := poll_begin t p w in
  match p_pc p1 with
  | PRegister =>
      let t' := register t w in
      let p2 := poll_reread t' (MkPoller w cache PReread) in
      (match p_pc p2 with PIdle (Some r) => r | _ => Pending end, t', p_cache p2)
  | PIdle (Some r) => (r, t, cache)
  | _ => (Pending, t, cache)
  end.
Proof.
  intros Hc. unfold poll_cancelled_cached, poll_begin, poll_reread, poll_cancelled, is_cancelled.
  rewrite register_flag. destruct (tok_cancelled t) eqn:Hf; [done|].
  rewrite Hc. destruct cache as [v|]; repeat case_bool_decide; simplify_eq/=; rewrite ?Hf; done.
Qed.
