(* ===== verification/Stream.v ===== *)
(** * Poll-based streams and [Observable] ([ice-rpc-rx/src/stream.rs], [creation.rs])

    A stream is a state with a [poll_next]; what an operator pipeline does is
    stated on the sequence of events its source delivers, however many
    [Pending] polls separate them ([yields]).  A closure of the source is a
    function that threads its captured state. *)

From S2P Require Import Prelude Text Event.

(** ** The stream interface *)

(** [futures_lite::Stream]. *)
Class Stream (S A : Type) : Type := poll_next : S → poll (option A) * S.
#[export] Hint Mode Stream ! - : typeclass_instances.

(** A stream whose remaining items are counted: what bounds the loops of the
    operators that skip items. *)
Class Sized (S A : Type) `{Stream S A} : Type := {
  stream_size : S → nat;
  poll_size_le s : stream_size (poll_next s).2 ≤ stream_size s;
  poll_size_lt s a s' : poll_next s = (Ready (Some a), s') → stream_size s' < stream_size s
}.
#[export] Hint Mode Sized ! - - : typeclass_instances.

(** [emits s l s']: polling [s] hands out the items [l], between any number of
    [Pending] polls, and leaves [s']. *)
Inductive emits {S A} `{Stream S A} : S → list A → S → Prop :=
| emits_refl s : emits s [] s
| emits_pending s s1 l s' : poll_next s = (Pending, s1) → emits s1 l s' → emits s l s'
| emits_item s s1 a l s' : poll_next s = (Ready (Some a), s1) → emits s1 l s' → emits s (a :: l) s'.

(** [yields s l]: polling [s] hands out exactly the items [l] and then the end
    of the stream, after finitely many polls. *)
Inductive yields {S A} `{Stream S A} : S → list A → Prop :=
| yields_end s s1 : poll_next s = (Ready None, s1) → yields s []
| yields_pending s s1 l : poll_next s = (Pending, s1) → yields s1 l → yields s l
| yields_item s s1 a l : poll_next s = (Ready (Some a), s1) → yields s1 l → yields s (a :: l).

(** [prompt s l]: like [yields], with no [Pending] poll at all. *)
Inductive prompt {S A} `{Stream S A} : S → list A → Prop :=
| prompt_end s s1 : poll_next s = (Ready None, s1) → prompt s []
| prompt_item s s1 a l : poll_next s = (Ready (Some a), s1) → prompt s1 l → prompt s (a :: l).

#[export] Hint Constructors emits yields prompt : icerpc.

Section stream_facts.
Context {S A : Type} `{Stream S A}.

Lemma yields_fun (s : S) l1 l2 : yields s l1 → yields s l2 → l1 = l2.
Proof.
  intros H1; revert l2; induction H1; intros l2 H2; destruct H2;
    match goal with H1 : poll_next ?s = _, H2 : poll_next ?s = _ |- _ =>
      rewrite H1 in H2; simplify_eq end; f_equal; auto.
Qed.

Lemma prompt_yields (s : S) l : prompt s l → yields s l.
Proof. induction 1; eauto with icerpc. Qed.

Lemma emits_trans (s1 s2 s3 : S) l1 l2 : emits s1 l1 s2 → emits s2 l2 s3 → emits s1 (l1 ++ l2) s3.
Proof. induction 1; simpl; eauto with icerpc. Qed.

Lemma emits_yields (s s' : S) l l' : emits s l s' → yields s' l' → yields s (l ++ l').
Proof. induction 1; simpl; eauto with icerpc. Qed.

Lemma yields_split (s : S) l1 l2 : yields s (l1 ++ l2) → ∃ s', emits s l1 s' ∧ yields s' l2.
Proof.
  intros Hy. remember (l1 ++ l2) as l eqn:E. revert l1 E.
  induction Hy as [s s1 Hp|s s1 l Hp Hy IH|s s1 a l Hp Hy IH]; intros l1 E.
  - destruct l1; simplify_eq/=. eauto with icerpc.
  - destruct (IH l1 E) as (s' & ? & ?). eauto with icerpc.
  - destruct l1 as [|b l1']; simpl in E.
    { subst l2. eexists; split; [constructor|]. by eapply yields_item. }
    injection E as -> E. destruct (IH l1' E) as (s' & ? & ?). eauto with icerpc.
Qed.

(** Streams that answer their next poll alike deliver the same items. *)
Lemma yields_same_poll (s t : S) l : poll_next s = poll_next t → yields t l → yields s l.
Proof. intros E Hy; inversion Hy; subst; rewrite <- E in *; eauto with icerpc. Qed.
End stream_facts.

(** The items of a stream with at most [n] polls, for evaluation. *)
Fixpoint drain {S A} `{Stream S A} (n : nat) (s : S) : list A :=
  match n with
  | O => []
  | Datatypes.S n' => match poll_next s with
           | (Ready (Some a), s') => a :: drain n' s'
           | (Pending, s') => drain n' s'
           | (Ready None, _) => []
           end
  end.

(** ** A scripted source

    The answers a source gives to its successive polls, written out: any
    finite run of any source is one.  It ends when its script does. *)

Record Script (A : Type) : Type := MkScript { script : list (poll A) }.
Arguments MkScript {A} _.
Arguments script {A} _.

#[export] Instance Script_stream {A} : Stream (Script A) A := λ s,
  match script s with
  | [] => (Ready None, s)
  | Pending :: l => (Pending, MkScript l)
  | Ready a :: l => (Ready (Some a), MkScript l)
  end.

#[export] Program Instance Script_sized {A} : Sized (Script A) A := {
  stream_size s := length (script s)
}.
Next Obligation. intros A [l]. destruct l as [|[|x] l]; simpl; lia. Qed.
Next Obligation. intros A [l] a s' H. unfold poll_next, Script_stream in H; simpl in H.
  destruct l as [|[|x] l]; simplify_eq/=; lia. Qed.

Definition script_items {A} (l : list (poll A)) : list A :=
  omap (λ p, match p with Ready a => Some a | Pending => None end) l.

Lemma script_yields {A} (l : list (poll A)) : yields (MkScript l) (script_items l).
Proof.
  induction l as [|[|a] l IH]; simpl; [by eapply yields_end| |].
  - by eapply yields_pending.
  - by eapply yields_item.
Qed.

(** ** Futures *)

(** [completes fp f r f']: polling the future [f] to its end gives [r]. *)
Inductive completes {F R} (fp : F → poll R * F) : F → R → F → Prop :=
| completes_ready f r f' : fp f = (Ready r, f') → completes fp f r f'
| completes_pending f f1 r f' : fp f = (Pending, f1) → completes fp f1 r f' → completes fp f r f'.
#[export] Hint Constructors completes : icerpc.

(** ** [Observable] *)

(** [async_channel::RecvError]. *)
Inductive RecvError : Type := MkRecvError.

(** [StreamInner]: [P] is the boxed pipeline, [K] the cleanup closure. *)
Inductive StreamInner (C : Type → Type) (P K T E : Type) : Type :=
| SChannel (rx : C (Event T E)) (cleanup : option K)
| SInline (queue : list (Event T E))
| SPipeline (stream : P).
Arguments SChannel {C P K T E} rx cleanup.
Arguments SInline {C P K T E} queue.
Arguments SPipeline {C P K T E} stream.

Record Observable (C : Type → Type) (P K T E : Type) : Type := MkObservable {
  inner : StreamInner C P K T E;
  terminated : bool
}.
Arguments MkObservable {C P K T E} _ _.
Arguments inner {C P K T E} _.
Arguments terminated {C P K T E} _.

Section observable.
Context {C : Type → Type} `{AsyncChannelLaws C} {P K T E : Type} `{Stream P (Event T E)}.
Implicit Type o : Observable C P K T E.

Definition from_events (events : list (Event T E)) : Observable C P K T E :=
  MkObservable (SInline events) false.

Definition from_technical_error (err : RpcError) : Observable C P K T E :=
  from_events [Error (Technical err)].

Definition from_stream (stream : P) : Observable C P K T E :=
  MkObservable (SPipeline stream) false.

Definition with_cleanup o (cleanup : K) : Observable C P K T E :=
  match inner o with
  | SChannel rx _ => MkObservable (SChannel rx (Some cleanup)) (terminated o)
  | _ => o
  end.

(** [PinnedDrop]: the cleanup that runs, and the flag it is given. *)
Definition drop_observable o : option (K * bool) :=
  match inner o with
  | SChannel _ (Some action) => Some (action, terminated o)
  | _ => None
  end.

(** One poll of the source of an observable. *)
Definition poll_inner (i : StreamInner C P K T E)
    : poll (option (Event T E)) * StreamInner C P K T E :=
  match i with
  | SChannel rx cleanup => let (r, rx') := ch_poll_recv rx in (r, SChannel rx' cleanup)
  | SInline [] => (Ready None, SInline [])
  | SInline (event :: queue) => (Ready (Some event), SInline queue)
  | SPipeline stream => let (r, stream') := poll_next stream in (r, SPipeline stream')
  end.

#[export] Instance Observable_poll_next : Stream (Observable C P K T E) (Event T E) := λ o,
  let (polled, i) := poll_inner (inner o) in
  let t := match polled with
           | Ready (Some event) => if is_terminal event then true else terminated o
           | _ => terminated o
           end in
  (polled, MkObservable i t).

(** One poll of the future [recv]. *)
Definition recv o : poll (result (Event T E) RecvError) * Observable C P K T E :=
  match poll_inner (inner o) with
  | (Pending, i) => (Pending, MkObservable i (terminated o))
  | (Ready (Some event), i) =>
      (Ready (Ok event),
       MkObservable i (if is_terminal event then true else terminated o))
  | (Ready None, i) => (Ready (Err MkRecvError), MkObservable i (terminated o))
  end.

Definition closed_early : ObservableError E :=
  Technical (TransportError "stream closed before completion").

(** One poll of the future [next]. *)
Definition next o : poll (option (result T (ObservableError E))) * Observable C P K T E :=
  match recv o with
  | (Pending, o') => (Pending, o')
  | (Ready (Ok (Next v)), o') => (Ready (Some (Ok v)), o')
  | (Ready (Ok (Error e)), o') => (Ready (Some (Err e)), o')
  | (Ready (Ok Complete), o') => (Ready None, o')
  | (Ready (Err _), o') =>
      if terminated o' then (Ready None, o')
      else (Ready (Some (Err closed_early)), MkObservable (inner o') true)
  end.

(** ** Creation *)

Definition from (values : list T) : Observable C P K T E :=
  from_events (map Next values ++ [Complete]).

Definition of_value (value : T) : Observable C P K T E := from_events [Next value; Complete].

Definition throw_error (error : E) : Observable C P K T E :=
  from_events [Error (Business error)].

(** The consumer's end of [channel] and [unbounded_channel]. *)
Definition channel (capacity : nat) : Observable C P K T E :=
  MkObservable (SChannel (ch_bounded capacity) None) false.

Definition unbounded_channel : Observable C P K T E :=
  MkObservable (SChannel ch_unbounded None) false.

(** ** Facts *)

(** An inline observable hands out its queue. *)
Lemma inline_yields queue t : yields (MkObservable (SInline (P:=P) (C:=C) (K:=K) queue) t) queue.
Proof.
  revert t; induction queue as [|ev queue IH]; intros t.
  - by eapply yields_end.
  - eapply yields_item; [reflexivity|]. apply IH.
Qed.

Lemma inline_prompt queue t : prompt (MkObservable (SInline (P:=P) (C:=C) (K:=K) queue) t) queue.
Proof.
  revert t; induction queue as [|ev queue IH]; intros t.
  - by eapply prompt_end.
  - eapply prompt_item; [reflexivity|]. apply IH.
Qed.

(** A closed channel hands out what it holds. *)
Lemma channel_yields rx cleanup t : cv_closed (ch_view rx) = true →
  yields (MkObservable (SChannel (P:=P) (K:=K) rx cleanup) t) (cv_queue (ch_view rx)).
Proof.
  remember (cv_queue (ch_view rx)) as q eqn:Hq. symmetry in Hq.
  revert rx t Hq; induction q as [|ev q IH]; intros rx t Hq Hc.
  - eapply yields_end. unfold poll_next, Observable_poll_next. simpl.
    by rewrite (ch_recv_end rx).
  - destruct (ch_recv_some rx ev q Hq) as (c' & Hr & Hv).
    eapply yields_item; [unfold poll_next, Observable_poll_next; simpl; by rewrite Hr|].
    apply IH; by rewrite Hv.
Qed.

(** A pipeline delivers what its stream does. *)
Lemma pipeline_yields (p : P) t l :
  yields p l → yields (MkObservable (SPipeline (C:=C) (K:=K) p) t) l.
Proof.
  intros Hy; revert t; induction Hy as [p p1 Hp|p p1 l Hp Hy IH|p p1 a l Hp Hy IH]; intros t.
  - eapply yields_end. unfold poll_next, Observable_poll_next; simpl. by rewrite Hp.
  - eapply yields_pending; [unfold poll_next, Observable_poll_next; simpl; by rewrite Hp|].
    apply IH.
  - eapply yields_item; [unfold poll_next, Observable_poll_next; simpl; by rewrite Hp|].
    apply IH.
Qed.

(** [recv] and [poll_next] see the same events. *)
Lemma recv_poll_next o :
  recv o = match poll_next o with
           | (Pending, o') => (Pending, o')
           | (Ready (Some ev), o') => (Ready (Ok ev), o')
           | (Ready None, o') => (Ready (Err MkRecvError), o')
           end.
Proof.
  unfold recv, poll_next, Observable_poll_next.
  destruct (poll_inner (inner o)) as [[|[ev|]] i]; done.
Qed.

Lemma poll_terminated o ev o' :
  poll_next o = (Ready (Some ev), o') → terminated o' = is_terminal ev || terminated o.
Proof.
  unfold poll_next, Observable_poll_next.
  destruct (poll_inner (inner o)) as [[|[ev'|]] i]; intros; simplify_eq/=.
  by destruct (is_terminal ev).
Qed.

Lemma poll_terminated_other r o o' :
  poll_next o = (r, o') → (∀ ev, r ≠ Ready (Some ev)) → terminated o' = terminated o.
Proof.
  unfold poll_next, Observable_poll_next.
  destruct (poll_inner (inner o)) as [[|[ev'|]] i]; intros He Hr; simplify_eq/=; try done.
  by destruct (Hr ev').
Qed.
End observable.

(** ** Consuming a stream *)

Section consuming.
Context {S T E : Type} `{Sized S (Event T E)}.

(** One poll of [first_event]. *)
Definition first_event (s : S) : poll (result T (ObservableError E)) * S :=
  match poll_next s with
  | (Pending, s') => (Pending, s')
  | (Ready (Some (Next v)), s') => (Ready (Ok v), s')
  | (Ready (Some (Error e)), s') => (Ready (Err e), s')
  | (Ready (Some Complete), s') | (Ready None, s') => (Ready (Err Empty), s')
  end.

(** [last_event]: the state of the future is the stream and the slot [last]. *)
Definition last_event_body (st : S * option T)
    : (S * option T) + (poll (result T (ObservableError E)) * (S * option T)) :=
  let (s, last) := st in
  match poll_next s with
  | (Pending, s') => inr (Pending, (s', last))
  | (Ready (Some (Next v)), s') => inl (s', Some v)
  | (Ready (Some (Error e)), s') => inr (Ready (Err e), (s', last))
  | (Ready (Some Complete), s') | (Ready None, s') =>
      inr (Ready (match last with Some v => Ok v | None => Err Empty end), (s', last))
  end.

Definition last_event : S * option T → poll (result T (ObservableError E)) * (S * option T) :=
  rust_loop last_event_body (λ st, stream_size st.1) (λ st, (Pending, st)).

(** [collect_values], with the vector gathered so far. *)
Definition collect_values_body (st : S * list T)
    : (S * list T) + (poll (result (list T) (ObservableError E)) * (S * list T)) :=
  let (s, values) := st in
  match poll_next s with
  | (Pending, s') => inr (Pending, (s', values))
  | (Ready (Some (Next v)), s') => inl (s', values ++ [v])
  | (Ready (Some Complete), s') => inr (Ready (Ok values), (s', values))
  | (Ready (Some (Error e)), s') => inr (Ready (Err e), (s', values))
  | (Ready None, s') => inr (Ready (Ok values), (s', values))
  end.

Definition collect_values
    : S * list T → poll (result (list T) (ObservableError E)) * (S * list T) :=
  rust_loop collect_values_body (λ st, stream_size st.1) (λ st, (Pending, st)).

(** What the three consumers answer for a sequence of events. *)
Definition first_answer (l : list (Event T E)) : result T (ObservableError E) :=
  match l with
  | Next v :: _ => Ok v
  | Error e :: _ => Err e
  | Complete :: _ | [] => Err Empty
  end.

(** The values before the first terminal, and the error that ended them. *)
Fixpoint before_terminal (l : list (Event T E)) : list T * option (ObservableError E) :=
  match l with
  | Next v :: l' => let (vs, e) := before_terminal l' in (v :: vs, e)
  | Error e :: _ => ([], Some e)
  | Complete :: _ | [] => ([], None)
  end.

Definition collect_answer (l : list (Event T E)) : result (list T) (ObservableError E) :=
  match before_terminal l with
  | (vs, None) => Ok vs
  | (_, Some e) => Err e
  end.

Definition last_answer (l : list (Event T E)) : result T (ObservableError E) :=
  match before_terminal l with
  | (vs, None) => match list.last vs with Some v => Ok v | None => Err Empty end
  | (_, Some e) => Err e
  end.

Lemma first_event_completes (s : S) l :
  yields s l → ∃ s', completes first_event s (first_answer l) s'.
Proof.
  induction 1 as [s s1 Hp|s s1 l Hp Hy [s' IH]|s s1 a l Hp Hy _].
  - eexists; apply completes_ready. unfold first_event. by rewrite Hp.
  - eexists; eapply completes_pending; [|done]. unfold first_event. by rewrite Hp.
  - exists s1; apply completes_ready. unfold first_event. rewrite Hp. by destruct a.
Qed.

Lemma collect_decreases st st' :
  collect_values_body st = inl st' → stream_size st'.1 < stream_size st.1.
Proof.
  destruct st as [s vs]. simpl. destruct (poll_next s) as [[|[[]|]] s'] eqn:E'; intros; simplify_eq/=.
  by eapply poll_size_lt.
Qed.

Lemma last_decreases st st' :
  last_event_body st = inl st' → stream_size st'.1 < stream_size st.1.
Proof.
  destruct st as [s vs]. simpl. destruct (poll_next s) as [[|[[]|]] s'] eqn:E'; intros; simplify_eq/=.
  by eapply poll_size_lt.
Qed.

(** A loop that goes round completes as its next round does. *)
Lemma completes_loop {St R} (body : St → St + (poll R * St)) m st st' r st'' :
  (∀ s s', body s = inl s' → m s' < m s) → body st = inl st' →
  completes (rust_loop body m (λ st, (Pending, st))) st' r st'' →
  completes (rust_loop body m (λ st, (Pending, st))) st r st''.
Proof.
  intros Hd Hb Hc.
  assert (Heq : rust_loop body m (λ st, (Pending, st)) st = rust_loop body m (λ st, (Pending, st)) st')
    by (by rewrite rust_loop_unfold, Hb).
  inversion Hc; subst; [apply completes_ready|eapply completes_pending; [|done]]; by rewrite Heq.
Qed.

Lemma collect_values_completes (s : S) l acc :
  yields s l → ∃ st', completes collect_values (s, acc)
    (match before_terminal l with (vs, None) => Ok (acc ++ vs) | (_, Some e) => Err e end) st'.
Proof.
  intros Hy; revert acc; induction Hy as [s s1 Hp|s s1 l Hp Hy IH|s s1 a l Hp Hy IH]; intros acc.
  - eexists; apply completes_ready. unfold collect_values.
    rewrite rust_loop_unfold by apply collect_decreases. simpl. rewrite Hp. by rewrite app_nil_r.
  - destruct (IH acc) as [st' Hc]. exists st'. eapply completes_pending; [|done].
    unfold collect_values. rewrite rust_loop_unfold by apply collect_decreases. simpl. by rewrite Hp.
  - destruct a as [v| |e].
    + destruct (IH (acc ++ [v])) as [st' Hc]. exists st'.
      eapply completes_loop; [apply collect_decreases|simpl; by rewrite Hp|].
      simpl. destruct (before_terminal l) as [vs []]; [done|]. by rewrite <- app_assoc in Hc.
    + eexists; apply completes_ready. unfold collect_values.
      rewrite rust_loop_unfold by apply collect_decreases. simpl. rewrite Hp. by rewrite app_nil_r.
    + eexists; apply completes_ready. unfold collect_values.
      rewrite rust_loop_unfold by apply collect_decreases. simpl. by rewrite Hp.
Qed.

Lemma last_event_completes (s : S) l slot :
  yields s l → ∃ st', completes last_event (s, slot)
    (match before_terminal l with
     | (vs, None) => match list.last vs with
                     | Some v => Ok v
                     | None => match slot with Some v => Ok v | None => Err Empty end
                     end
     | (_, Some e) => Err e
     end) st'.
Proof.
  intros Hy; revert slot; induction Hy as [s s1 Hp|s s1 l Hp Hy IH|s s1 a l Hp Hy IH]; intros slot.
  - eexists; apply completes_ready. unfold last_event.
    rewrite rust_loop_unfold by apply last_decreases. simpl. by rewrite Hp.
  - destruct (IH slot) as [st' Hc]. exists st'. eapply completes_pending; [|done].
    unfold last_event. rewrite rust_loop_unfold by apply last_decreases. simpl. by rewrite Hp.
  - destruct a as [v| |e].
    + destruct (IH (Some v)) as [st' Hc]. exists st'.
      eapply completes_loop; [apply last_decreases|simpl; by rewrite Hp|].
      cbn [before_terminal]. destruct (before_terminal l) as [vs []]; [done|].
      rewrite last_cons. by destruct (list.last vs).
    + eexists; apply completes_ready. unfold last_event.
      rewrite rust_loop_unfold by apply last_decreases. simpl. by rewrite Hp.
    + eexists; apply completes_ready. unfold last_event.
      rewrite rust_loop_unfold by apply last_decreases. simpl. by rewrite Hp.
Qed.

(** The three consumers answer for any source that ends, whatever the
    polling: [first_value] is the first value or its error, [last_value] the
    last one, [collect] all of them; a terminal error wins over the values
    read before it, and a stream that closes without a terminal keeps its
    values ([Empty] when it has none). *)
Theorem consumers_complete (s : S) l :
  yields s l →
  (∃ s', completes first_event s (first_answer l) s') ∧
  (∃ st, completes last_event (s, None) (last_answer l) st) ∧
  (∃ st, completes collect_values (s, []) (collect_answer l) st).
Proof.
  intros Hy. split; [by apply first_event_completes|]. split.
  - destruct (last_event_completes s l None Hy) as [st' Hc]. exists st'.
    unfold last_answer. by destruct (before_terminal l) as [vs []].
  - by destruct (collect_values_completes s l [] Hy) as [st' Hc]; exists st'.
Qed.
End consuming.

Lemma consumers_complete_witness :
  ∃ st, completes collect_values
    (MkScript [Ready (Next 1); Pending; Ready (Next 2); Ready (Complete (T:=nat) (E:=nat))], [])
    (Ok [1; 2]) st.
Proof. refine (proj2 (proj2 (consumers_complete _ _ (script_yields _)))). Defined.

(** ** The pull API *)

(** A stream that keeps answering the end once it has ended. *)
Class Fused (S A : Type) `{Stream S A} : Prop :=
  fused (s s' : S) : poll_next s = (Ready None, s') → poll_next s' = (Ready None, s').

#[export] Instance Script_fused {A} : Fused (Script A) A.
Proof.
  intros [[|[|a] l]] s'; unfold poll_next, Script_stream; simpl; intros Hp; by simplify_eq/=.
Qed.

Section pulling.
Context {C : Type → Type} `{AsyncChannelLaws C} {P K T E : Type} `{Stream P (Event T E)}.
Context `{!Fused P (Event T E)}.
Implicit Type o : Observable C P K T E.

Lemma channel_end (c c' : C (Event T E)) :
  ch_poll_recv c = (Ready None, c') → ch_poll_recv c' = (Ready None, c').
Proof.
  intros Hr. destruct (cv_queue (ch_view c)) as [|a q] eqn:Hq.
  - destruct (cv_closed (ch_view c)) eqn:Hc.
    + pose proof (ch_recv_end c Hq Hc) as Hr'. rewrite Hr in Hr'. by simplify_eq.
    + by rewrite (ch_recv_wait c Hq Hc) in Hr.
  - destruct (ch_recv_some c a q Hq) as (c1 & Hr' & _). rewrite Hr in Hr'. by simplify_eq.
Qed.

#[export] Instance Observable_fused : Fused (Observable C P K T E) (Event T E).
Proof.
  intros [[rx cl|[|ev q]|p] t] o'; unfold poll_next, Observable_poll_next; simpl; intros Hp.
  - destruct (ch_poll_recv rx) as [r rx'] eqn:Hr. simplify_eq/=. by rewrite (channel_end _ _ Hr).
  - by simplify_eq/=.
  - by simplify_eq/=.
  - destruct (poll_next p) as [r p'] eqn:Hr. simplify_eq/=. by rewrite (fused _ _ Hr).
Qed.

(** Calling [next] until it answers [None]. *)
Inductive pulls : Observable C P K T E → list (result T (ObservableError E)) → Prop :=
| pulls_end o o' : completes next o None o' → pulls o []
| pulls_item o r o1 l : completes next o (Some r) o1 → pulls o1 l → pulls o (r :: l).

(** What the caller reads: the values, then the error or the clean end; a
    close with no terminal is reported as a transport error, once. *)
Fixpoint next_answers (l : list (Event T E)) : list (result T (ObservableError E)) :=
  match l with
  | Next v :: l' => Ok v :: next_answers l'
  | Error e :: _ => [Err e]
  | Complete :: _ => []
  | [] => [Err closed_early]
  end.

Lemma next_poll_next o :
  next o = match poll_next o with
           | (Pending, o') => (Pending, o')
           | (Ready (Some (Next v)), o') => (Ready (Some (Ok v)), o')
           | (Ready (Some (Error e)), o') => (Ready (Some (Err e)), o')
           | (Ready (Some Complete), o') => (Ready None, o')
           | (Ready None, o') =>
               if terminated o' then (Ready None, o')
               else (Ready (Some (Err closed_early)), MkObservable (inner o') true)
           end.
Proof. unfold next. rewrite recv_poll_next. by destruct (poll_next o) as [[|[[]|]] o']. Qed.

(** Once the terminal was seen, the end of the source reads as [None]. *)
Lemma next_after_terminal o :
  yields o [] → terminated o = true → ∃ o', completes next o None o'.
Proof.
  intros Hy. remember [] as l eqn:Hl. induction Hy as [o o1 Hp|o o1 l Hp Hy IH|]; intros Ht; [| |done].
  - exists o1. apply completes_ready. rewrite next_poll_next, Hp.
    by rewrite (poll_terminated_other _ _ _ Hp), Ht.
  - destruct IH as [o' IH]; [done|by rewrite (poll_terminated_other _ _ _ Hp)|].
    exists o'. eapply completes_pending; [|done]. by rewrite next_poll_next, Hp.
Qed.

(** [poll_next] reads the flag of the observable only to write it back. *)
Lemma poll_next_flag i t t' :
  (poll_next (MkObservable (P:=P) (K:=K) i t)).1 = (poll_next (MkObservable i t')).1 ∧
  inner (poll_next (MkObservable (P:=P) (K:=K) i t)).2 = inner (poll_next (MkObservable i t')).2.
Proof. unfold poll_next, Observable_poll_next; simpl. by destruct (poll_inner i) as [[|[]] ?]. Qed.

Lemma pulls_pending o o1 l : poll_next o = (Pending, o1) → pulls o1 l → pulls o l.
Proof.
  intros Hp Hl.
  assert (Hn : next o = (Pending, o1)) by (by rewrite next_poll_next, Hp).
  destruct Hl as [o1 o' Hc|o1 r o2 l Hc Hl].
  - by eapply pulls_end, completes_pending.
  - by eapply pulls_item; [eapply completes_pending|].
Qed.

(** The concise pull API neither loses nor invents anything: calling
    [next] on a fresh observable whose source delivers a well-formed sequence
    gives its values in order, then its error, then [None]; a source that
    closes without a terminal is reported as exactly one transport error, so
    that [None] always means a clean completion. *)
Theorem next_reports_stream o l :
  yields o l → terminated o = false → rx_grammar l = true → pulls o (next_answers l).
Proof.
  induction 1 as [o o1 Hp|o o1 l Hp Hy IH|o o1 ev l Hp Hy IH]; intros Ht Hg.
  - pose proof (poll_terminated_other _ _ _ Hp ltac:(done)) as Ht1. rewrite Ht in Ht1.
    pose proof (fused _ _ Hp) as Hf. eapply pulls_item.
    { apply completes_ready. by rewrite next_poll_next, Hp, Ht1. }
    destruct (poll_next_flag (inner o1) (terminated o1) true) as [Ha Hb].
    replace (MkObservable (inner o1) (terminated o1)) with o1 in Ha by (by destruct o1).
    rewrite Hf in Ha. simpl in Ha.
    destruct (poll_next (MkObservable (inner o1) true)) as [r o2] eqn:Hp2. simpl in Ha. subst r.
    eapply pulls_end, completes_ready. rewrite next_poll_next, Hp2.
    by rewrite (poll_terminated_other _ _ _ Hp2).
  - eapply pulls_pending; [done|]. apply IH; [|done].
    by rewrite (poll_terminated_other _ _ _ Hp).
  - pose proof (poll_terminated _ _ _ Hp) as Ht1. rewrite Ht, orb_false_r in Ht1.
    destruct ev as [v| |e]; simpl in Hg.
    + eapply pulls_item; [apply completes_ready; by rewrite next_poll_next, Hp|]. by apply IH.
    + eapply pulls_end, completes_ready. by rewrite next_poll_next, Hp.
    + case_bool_decide; [|done]. subst l. simpl in Ht1.
      destruct (next_after_terminal o1 Hy Ht1) as [o' Hc].
      eapply pulls_item; [apply completes_ready; by rewrite next_poll_next, Hp|].
      by eapply pulls_end.
Qed.

Lemma emits_cleanup_kept o l o' :
  emits o l o' → ∀ rx k, inner o = SChannel rx (Some k) →
  drop_observable o' = Some (k, existsb is_terminal l || terminated o).
Proof.
  induction 1 as [o|o o1 l o' Hp _ IH|o o1 a l o' Hp _ IH]; intros rx k Hi.
  - unfold drop_observable. by rewrite Hi.
  - pose proof (poll_terminated_other _ _ _ Hp ltac:(done)) as Ht. rewrite <- Ht.
    unfold poll_next, Observable_poll_next in Hp. rewrite Hi in Hp. simpl in Hp.
    destruct (ch_poll_recv rx) as [r rx'] eqn:Hr. simplify_eq/=. by eapply IH.
  - pose proof (poll_terminated _ _ _ Hp) as Ht.
    unfold poll_next, Observable_poll_next in Hp. rewrite Hi in Hp. simpl in Hp.
    destruct (ch_poll_recv rx) as [r rx'] eqn:Hr. simplify_eq/=.
    erewrite IH by done. simpl. rewrite Ht. f_equal. f_equal.
    by destruct (is_terminal a), (existsb is_terminal l).
Qed.

(** The release of a call tells an answered call from an abandoned one:
    whenever the consumer drops the stream of a call, after any polling, the
    registered cleanup runs, and it is told [true] exactly when a terminal
    event had been handed out. *)
Theorem cleanup_knows_answered rx k l o' :
  emits (with_cleanup (MkObservable (P:=P) (K:=K) (T:=T) (E:=E) (SChannel rx None) false) k) l o' →
  drop_observable o' = Some (k, existsb is_terminal l).
Proof.
  intros He. rewrite (emits_cleanup_kept _ _ _ He rx k) by done. simpl. by rewrite orb_false_r.
Qed.
End pulling.

Lemma next_reports_stream_witness :
  pulls (from_stream (C:=VecChannel) (K:=unit) (MkScript [Ready (Next 1); Pending; Ready (Next 2)]))
    [Ok 1; Ok 2; Err (closed_early (E:=nat))].
Proof.
  apply (next_reports_stream _ [Next 1; Next 2]); [|done|done].
  apply pipeline_yields, (script_yields [Ready (Next 1); Pending; Ready (Next 2)]).
Defined.

Lemma cleanup_knows_answered_witness :
  drop_observable
    (MkObservable (C:=VecChannel) (P:=Script (Event nat nat)) (T:=nat) (E:=nat)
       (SChannel (ChanView [Complete] true None) (Some 7)) false)
  = Some (7, false).
Proof.
  apply (cleanup_knows_answered (C:=VecChannel) (T:=nat) (E:=nat)
           (ChanView [Next 3; Complete] true None) 7 [Next 3]).
  eapply emits_item; [reflexivity|]. apply emits_refl.
Defined.

(** ** Operators written as a loop

    An operator whose [poll_next] is a [loop]: its body returns an answer or
    goes round.  A round that returns is a poll of the operator; a round that
    does not is invisible from outside. *)

Section loop_operator.
Context {O B : Type} (body : O → O + (poll (option B) * O)) (m : O → nat).
Hypothesis decreases : ∀ o o', body o = inl o' → m o' < m o.

Definition loop_poll : Stream O B := rust_loop body m (λ o, (Pending, o)).
#[local] Existing Instance loop_poll.

Lemma loop_poll_answer o r : body o = inr r → poll_next o = r.
Proof. intros Hb. unfold poll_next, loop_poll. by rewrite rust_loop_unfold, Hb. Qed.

Lemma loop_poll_round o o' : body o = inl o' → poll_next o = poll_next o'.
Proof. intros Hb. unfold poll_next, loop_poll. by rewrite rust_loop_unfold, Hb. Qed.

Lemma loop_end o o' : body o = inr (Ready None, o') → yields o [].
Proof. intros Hb. eapply yields_end. by apply loop_poll_answer. Qed.

Lemma loop_pending o o' l : body o = inr (Pending, o') → yields o' l → yields o l.
Proof. intros Hb. apply yields_pending. by apply loop_poll_answer. Qed.

Lemma loop_item o b o' l : body o = inr (Ready (Some b), o') → yields o' l → yields o (b :: l).
Proof. intros Hb. apply yields_item. by apply loop_poll_answer. Qed.

Lemma loop_skip o o' l : body o = inl o' → yields o' l → yields o l.
Proof. intros Hb. apply yields_same_poll. by apply loop_poll_round. Qed.

(** A loop whose rounds never grow [z], and shrink it when they answer an
    item, has [z] for its size. *)
Lemma loop_sized (z : O → nat) :
  (∀ o o', body o = inl o' → z o' ≤ z o) →
  (∀ o r o', body o = inr (r, o') → z o' ≤ z o) →
  (∀ o a o', body o = inr (Ready (Some a), o') → z o' < z o) →
  ∀ o, z (poll_next o).2 ≤ z o ∧ (∀ a o', poll_next o = (Ready (Some a), o') → z o' < z o).
Proof.
  intros Hround Hle Hlt.
  apply (rust_loop_ind body m (λ o, (Pending, o)) decreases
    (λ o r, z r.2 ≤ z o ∧ ∀ a o', r = (Ready (Some a), o') → z o' < z o)).
  - intros o [r o'] Hb. split; [by eapply Hle|]. intros; simplify_eq. by eapply Hlt.
  - intros o o' r Hb [Hr1 Hr2]. apply Hround in Hb. split; [lia|].
    intros a o'' ->. specialize (Hr2 a o'' eq_refl). lia.
Qed.
End loop_operator.

(** Sizes of the source seen through a poll that is known. *)
Lemma poll_size_le' {S A} `{Sized S A} (s : S) r s' :
  poll_next s = (r, s') → stream_size s' ≤ stream_size s.
Proof. intros Hp. pose proof (poll_size_le s) as Hle. by rewrite Hp in Hle. Qed.

(** Case analysis on the answer of a source to its poll. *)
Ltac case_poll s :=
  let ev := fresh "ev" in let s' := fresh "s'" in let Hp := fresh "Hp" in
  destruct (poll_next s) as [[|[ev|]] s'] eqn:Hp.

(** Close a goal on the size of a polled source. *)
Ltac solve_size :=
  repeat match goal with
  | H : poll_next ?s = (Ready (Some ?a), ?s') |- _ =>
      lazymatch goal with
      | _ : stream_size s' < stream_size s |- _ => fail
      | _ => pose proof (poll_size_lt _ _ _ H)
      end
  | H : poll_next ?s = (?r, ?s') |- _ =>
      lazymatch goal with
      | _ : stream_size s' ≤ stream_size s |- _ => fail
      | _ => pose proof (poll_size_le' _ _ _ H)
      end
  end; simpl in *; lia.

(** Compute an operator's answer from the known answers of what it polls. *)
Ltac scrut :=
  repeat (simpl; match goal with
    | H : ?t = _ |- context [match ?t with _ => _ end] => rewrite H
    | H : ?t = _ |- context [let (_, _) := ?t in _] => rewrite H
    end); simpl.

(** One poll of an operator written as a loop with body [body]. *)
Ltac loop_step body dec :=
  first
    [ eapply (loop_end _ _ dec); unfold body; scrut; reflexivity
    | eapply (loop_pending _ _ dec); [unfold body; scrut; reflexivity|]
    | eapply (loop_item _ _ dec); [unfold body; scrut; reflexivity|]
    | eapply (loop_skip _ _ dec); [unfold body; scrut; reflexivity|] ].

(** One poll of an operator whose instance is [inst]. *)
Ltac op_step inst :=
  first
    [ eapply yields_end; unfold poll_next at 1, inst; scrut; reflexivity
    | eapply yields_pending; [unfold poll_next at 1, inst; scrut; reflexivity|]
    | eapply yields_item; [unfold poll_next at 1, inst; scrut; reflexivity|] ].

(** The two obligations of [Sized] for a loop whose measure is its size. *)
Ltac loop_size body measure dec :=
  intros; eapply (loop_sized body measure dec measure); try eassumption;
  intros [] *; unfold body, measure; simpl;
  repeat match goal with |- context [poll_next ?s] => case_poll s end;
  intros; repeat case_match; simplify_eq/=; solve_size.

(** ** Well-formed sequences *)

(** What follows the values of a well-formed sequence: one terminal, or
    nothing when the source closed abruptly. *)
Inductive ending {T E} : list (Event T E) → Prop :=
| ending_closed : ending []
| ending_terminal ev : is_terminal ev = true → ending [ev].

Lemma rx_grammar_split {T E} (l : list (Event T E)) :
  rx_grammar l = true ↔ ∃ vs fin, l = map Next vs ++ fin ∧ ending fin.
Proof.
  split.
  - induction l as [|ev l IH]; simpl; [exists [], []; split; [done|constructor]|].
    destruct (is_terminal ev) eqn:Ht.
    + case_bool_decide; [|done]. subst. exists [], [ev]. split; [done|by constructor].
    + destruct ev as [v| |]; [|done..]. intros Hg. destruct (IH Hg) as (vs & fin & -> & ?).
      by exists (v :: vs), fin.
  - intros (vs & fin & -> & Hf). induction vs as [|v vs IH]; [|done].
    destruct Hf as [|ev Hev]; simpl; [done|]. by rewrite Hev.
Qed.
