(* ===== verification/Subject.v ===== *)
(** * Subjects ([ice-rpc-rx/src/subject.rs])

    The multicast source.  The lock [emit] is held over every subscription and
    every broadcast, so these are atomic; a queue is unbounded, so a send never
    waits.  The channels of the subscribers are a store shared with them. *)

From S2P Require Import Prelude Event.

Section subject.
Context {C : Type → Type} `{AsyncChannel C} {T E : Type}.

Record Subject : Type := MkSubject {
  sb_replay : list T;
  sb_capacity : nat;
  sb_completed : bool;
  sb_error : option (ObservableError E);
  (** The senders, by the index of their channel in the store. *)
  sb_subscribers : list nat;
  sb_channels : list (C (Event T E))
}.

Definition with_replay (capacity : nat) : Subject := MkSubject [] capacity false None [] [].

Definition is_terminated (s : Subject) : bool :=
  sb_completed s || match sb_error s with Some _ => true | None => false end.

Definition terminal_event (s : Subject) : option (Event T E) :=
  match sb_error s with
  | Some error => Some (Error error)
  | None => if sb_completed s then Some Complete else None
  end.

Definition channel_closed (s : Subject) (i : nat) : bool :=
  match sb_channels s !! i with Some c => sender_is_closed c | None => true end.

Definition retain_live (s : Subject) : list nat :=
  filter (λ i, channel_closed s i = false) (sb_subscribers s).

(** Sending, and awaiting each send in turn; a closed channel is skipped over. *)
Definition send_all (c : C (Event T E)) (evs : list (Event T E)) : C (Event T E) :=
  fold_left (λ c ev, (try_send_event c ev).2) evs c.

Definition broadcast (ev : Event T E) (subscribers : list nat) (channels : list (C (Event T E)))
    : list (C (Event T E)) :=
  fold_left (λ cs i, alter (λ c, (try_send_event c ev).2) i cs) subscribers channels.

(** [subscribe]: the channel of the new subscriber. *)
Definition subscribe (s : Subject) : nat * Subject :=
  let tx := length (sb_channels s) in
  let c := send_all ch_unbounded
             (map Next (sb_replay s) ++ match terminal_event s with Some ev => [ev] | None => [] end) in
  if is_terminated s then
    (** The sender is dropped with the call. *)
    (tx, MkSubject (sb_replay s) (sb_capacity s) (sb_completed s) (sb_error s)
           (sb_subscribers s) (sb_channels s ++ [ch_close c]))
  else
    (tx, MkSubject (sb_replay s) (sb_capacity s) (sb_completed s) (sb_error s)
           (sb_subscribers s ++ [tx]) (sb_channels s ++ [c])).

Definition subject_next (value : T) (s : Subject) : Subject :=
  if is_terminated s then s
  else
    let replay :=
      if (0 <? sb_capacity s) then
        (if (length (sb_replay s) =? sb_capacity s) then tail (sb_replay s) else sb_replay s) ++ [value]
      else sb_replay s in
    let live := retain_live s in
    MkSubject replay (sb_capacity s) (sb_completed s) (sb_error s) live
      (broadcast (Next value) live (sb_channels s)).

Definition subject_complete (s : Subject) : Subject :=
  if is_terminated s then s
  else
    let live := retain_live s in
    MkSubject (sb_replay s) (sb_capacity s) true (sb_error s) live
      (broadcast Complete live (sb_channels s)).

Definition subject_error (err : E) (s : Subject) : Subject :=
  if is_terminated s then s
  else
    let error := Business err in
    let live := retain_live s in
    MkSubject (sb_replay s) (sb_capacity s) (sb_completed s) (Some error) live
      (broadcast (Error error) live (sb_channels s)).

(** A subscriber polls its channel, or drops it. *)
Definition poll_subscriber (i : nat) (s : Subject) : poll (option (Event T E)) * Subject :=
  match sb_channels s !! i with
  | Some c =>
      let (r, c') := ch_poll_recv c in
      (r, MkSubject (sb_replay s) (sb_capacity s) (sb_completed s) (sb_error s) (sb_subscribers s)
            (<[i := c']> (sb_channels s)))
  | None => (Pending, s)
  end.

Definition drop_subscriber (i : nat) (s : Subject) : Subject :=
  MkSubject (sb_replay s) (sb_capacity s) (sb_completed s) (sb_error s) (sb_subscribers s)
    (alter ch_close i (sb_channels s)).

(** ** The events of a subject *)

(** What is emitted, one event for each call that is not ignored. *)
Definition emitted (ev : Event T E) (h : list (Event T E)) : list (Event T E) :=
  if existsb is_terminal h then h else h ++ [ev].

(** The last [n] elements. *)
Definition last_n {A} (n : nat) (l : list A) : list A := drop (length l - n) l.

(** What a subject that replays [n] values hands to a subscriber that arrives
    after [h]. *)
Definition replayed (n : nat) (h : list (Event T E)) : list (Event T E) :=
  map Next (last_n n (values h)) ++ List.filter is_terminal h.

(** A subscription: what had been emitted before it, what its consumer has been
    handed, whether it was dropped. *)
Record Subscriber : Type := MkSubscriber {
  su_before : nat;
  su_handed : list (Event T E);
  su_dropped : bool
}.

Record World : Type := MkSubjectWorld {
  sw_subject : Subject;
  sw_emitted : list (Event T E);
  sw_subscribers : list Subscriber
}.

Inductive subject_step : World → World → Prop :=
| sub_subscribe s h l :
    subject_step (MkSubjectWorld s h l)
      (MkSubjectWorld (subscribe s).2 h (l ++ [MkSubscriber (length h) [] false]))
| sub_next s h l v :
    subject_step (MkSubjectWorld s h l) (MkSubjectWorld (subject_next v s) (emitted (Next v) h) l)
| sub_complete s h l :
    subject_step (MkSubjectWorld s h l) (MkSubjectWorld (subject_complete s) (emitted Complete h) l)
| sub_error s h l e :
    subject_step (MkSubjectWorld s h l)
      (MkSubjectWorld (subject_error e s) (emitted (Error (Business e)) h) l)
| sub_poll s h l i u r s' :
    l !! i = Some u → su_dropped u = false → poll_subscriber i s = (r, s') →
    subject_step (MkSubjectWorld s h l)
      (MkSubjectWorld s' h
         (<[i := MkSubscriber (su_before u)
                   (su_handed u ++ match r with Ready (Some ev) => [ev] | _ => [] end) false]> l))
| sub_drop s h l i u :
    l !! i = Some u →
    subject_step (MkSubjectWorld s h l)
      (MkSubjectWorld (drop_subscriber i s) h
         (<[i := MkSubscriber (su_before u) (su_handed u) true]> l)).

Inductive subject_reachable (n : nat) : World → Prop :=
| subject_start : subject_reachable n (MkSubjectWorld (with_replay n) [] [])
| subject_more w w' : subject_reachable n w → subject_step w w' → subject_reachable n w'.

(** ** Properties *)

Context `{!AsyncChannelLaws C}.

Lemma last_n_length {A} n (l : list A) : length (last_n n l) = Nat.min n (length l).
Proof. unfold last_n. rewrite length_drop. lia. Qed.

(** The ring buffer of [next]. *)
Lemma last_n_snoc {A} n (l : list A) x :
  last_n n (l ++ [x]) =
  if (0 <? n) then (if (length (last_n n l) =? n) then tail (last_n n l) else last_n n l) ++ [x]
  else last_n n l.
Proof.
  rewrite last_n_length. destruct (Nat.ltb_spec 0 n) as [Hn|Hn].
  - unfold last_n. rewrite length_app. simpl. destruct (Nat.eqb_spec (Nat.min n (length l)) n) as [He|He].
    + replace (tail (drop (length l - n) l)) with (drop 1 (drop (length l - n) l))
        by (by destruct (drop (length l - n) l)).
      rewrite drop_drop, drop_app_le by lia. f_equal. f_equal. lia.
    + rewrite drop_app_le by lia. f_equal. f_equal. lia.
  - assert (n = 0) as -> by lia. unfold last_n. rewrite !Nat.sub_0_r, !drop_all. done.
Qed.

Lemma send_all_view (c : C (Event T E)) q evs :
  ch_view c = ChanView q false None → ch_view (send_all c evs) = ChanView (q ++ evs) false None.
Proof.
  revert c q. induction evs as [|ev evs IH]; intros c q Hv; simpl; [by rewrite app_nil_r|].
  destruct (ch_send_room c ev) as (c' & Hc & Hv'); [by rewrite Hv..|].
  unfold try_send_event. rewrite Hc. simpl. rewrite (IH c' (q ++ [ev])); [by rewrite <- app_assoc|].
  by rewrite Hv', Hv.
Qed.

Lemma broadcast_length ev subs (cs : list (C (Event T E))) : length (broadcast ev subs cs) = length cs.
Proof.
  revert cs. induction subs as [|i subs IH]; intros cs; [done|]. simpl.
  unfold broadcast in *. simpl. rewrite IH. apply length_alter.
Qed.

Lemma broadcast_lookup ev subs (cs : list (C (Event T E))) i :
  NoDup subs →
  broadcast ev subs cs !! i =
  if decide (i ∈ subs) then (λ c, (try_send_event c ev).2) <$> cs !! i else cs !! i.
Proof.
  unfold broadcast. intros Hnd. revert cs. induction Hnd as [|j subs Hj Hnd IH]; intros cs; [done|].
  simpl. rewrite IH. destruct (decide (i = j)) as [->|Hne].
  - rewrite decide_False by done. rewrite decide_True by set_solver. by rewrite list_lookup_alter_eq.
  - rewrite list_lookup_alter_ne by done. by repeat case_decide; try set_solver.
Qed.

(** What one subscription has seen. *)
Definition sub_ok (n : nat) (h : list (Event T E)) (senders : list nat) (i : nat) (u : Subscriber)
    (c : C (Event T E)) : Prop :=
  su_before u ≤ length h ∧
  if su_dropped u then cv_closed (ch_view c) = true
  else ∃ q, ch_view c = ChanView q (existsb is_terminal (take (su_before u) h)) None ∧
    su_handed u ++ q = replayed n (take (su_before u) h) ++ drop (su_before u) h ∧
    (existsb is_terminal (take (su_before u) h) = false → i ∈ senders).

(** What the subject remembers of what it emitted. *)
Definition remembers (n : nat) (h : list (Event T E)) (s : Subject) : Prop :=
  sb_capacity s = n ∧ sb_replay s = last_n n (values h) ∧
  match terminal_event s with Some ev => [ev] | None => [] end = List.filter is_terminal h ∧
  is_terminated s = existsb is_terminal h.

Definition subject_inv (n : nat) (w : World) : Prop :=
  let s := sw_subject w in
  remembers n (sw_emitted w) s ∧
  length (sb_channels s) = length (sw_subscribers w) ∧
  NoDup (sb_subscribers s) ∧
  (∀ i, i ∈ sb_subscribers s → i < length (sb_channels s)) ∧
  (∀ i u c, sw_subscribers w !! i = Some u → sb_channels s !! i = Some c →
     sub_ok n (sw_emitted w) (sb_subscribers s) i u c).

Lemma existsb_false_filter (h : list (Event T E)) :
  existsb is_terminal h = false → List.filter is_terminal h = [].
Proof.
  induction h as [|ev h IH]; simpl; [done|]. intros [-> Hh]%orb_false_iff. by apply IH.
Qed.

Lemma values_snoc (h : list (Event T E)) ev :
  values (h ++ [ev]) = values h ++ match ev with Next v => [v] | _ => [] end.
Proof. unfold values. rewrite omap_app. by destruct ev. Qed.

(** The broadcast of [ev] by a subject that is not terminated. *)
Lemma inv_emit_subject n s h l ev s' :
  subject_inv n (MkSubjectWorld s h l) → existsb is_terminal h = false →
  sb_subscribers s' = retain_live s →
  sb_channels s' = broadcast ev (retain_live s) (sb_channels s) →
  remembers n (h ++ [ev]) s' →
  subject_inv n (MkSubjectWorld s' (h ++ [ev]) l).
Proof.
  intros (Hrem & Hlen & Hnd & Hin & Hsub) Hh Hsubs Hch Hrem'. simpl in *.
  assert (Hnd' : NoDup (retain_live s)) by (by apply NoDup_filter).
  split_and!; simpl; [done|by rewrite Hch, broadcast_length|by rewrite Hsubs|..].
  - intros i Hi. rewrite Hsubs in Hi. apply list_elem_of_filter in Hi as [_ Hi].
    rewrite Hch, broadcast_length. by apply Hin.
  - intros i u c' Hu Hc'. rewrite Hch, broadcast_lookup in Hc' by done.
    destruct (sb_channels s !! i) as [c|] eqn:Hc; [|by case_decide].
    destruct (Hsub i u c Hu Hc) as [Hle Hok]. split; [rewrite length_app; simpl; lia|].
    destruct (su_dropped u) eqn:Hdrop.
    + assert (c' = c) as ->; [|done]. case_decide as Hi; [|by simplify_eq].
      apply list_elem_of_filter in Hi as [Hcl _]. unfold channel_closed, sender_is_closed in Hcl.
      rewrite Hc in Hcl. congruence.
    + destruct Hok as (q & Hv & Hq & Hmem).
      assert (Hopen : existsb is_terminal (take (su_before u) h) = false).
      { rewrite <- (take_drop (su_before u) h), existsb_app in Hh. by apply orb_false_iff in Hh as []. }
      rewrite Hopen in Hv. specialize (Hmem Hopen).
      assert (Hlive : i ∈ retain_live s).
      { apply list_elem_of_filter. split; [|done]. unfold channel_closed, sender_is_closed. by rewrite Hc, Hv. }
      rewrite decide_True in Hc' by done. simpl in Hc'. simplify_eq.
      destruct (ch_send_room c ev) as (c1 & Hs & Hv1); [by rewrite Hv..|].
      unfold try_send_event. rewrite Hs. simpl. exists (q ++ [ev]).
      rewrite take_app_le, drop_app_le by done. rewrite Hopen, Hv1, Hv.
      split; [done|]. split; [|by rewrite Hsubs]. by rewrite !app_assoc, Hq.
Qed.

Lemma remembers_next n h s v :
  remembers n h s → existsb is_terminal h = false → remembers n (h ++ [Next v]) (subject_next v s).
Proof.
  intros (Hcap & Hrep & Hterm & Hdone) Hh. unfold subject_next. rewrite Hdone, Hh.
  unfold remembers. simpl. rewrite values_snoc, List.filter_app, existsb_app. simpl. rewrite app_nil_r, orb_false_r.
  split; [done|]. split; [|done]. rewrite last_n_snoc, Hcap, Hrep. done.
Qed.

Lemma remembers_complete n h s :
  remembers n h s → existsb is_terminal h = false → remembers n (h ++ [Complete]) (subject_complete s).
Proof.
  intros (Hcap & Hrep & Hterm & Hdone) Hh. unfold subject_complete. rewrite Hdone, Hh.
  unfold remembers. simpl. rewrite values_snoc, List.filter_app, existsb_app, app_nil_r. simpl.
  rewrite (existsb_false_filter h) in * by done. unfold terminal_event, is_terminated in *. simpl.
  destruct (sb_error s); [done|]. by rewrite orb_true_r.
Qed.

Lemma remembers_error n h s e :
  remembers n h s → existsb is_terminal h = false →
  remembers n (h ++ [Error (Business e)]) (subject_error e s).
Proof.
  intros (Hcap & Hrep & Hterm & Hdone) Hh. unfold subject_error. rewrite Hdone, Hh.
  unfold remembers. simpl. rewrite values_snoc, List.filter_app, existsb_app, app_nil_r. simpl.
  rewrite (existsb_false_filter h) by done. unfold terminal_event, is_terminated. simpl.
  by rewrite !orb_true_r.
Qed.

Lemma inv_subscribe n s h l :
  subject_inv n (MkSubjectWorld s h l) →
  subject_inv n (MkSubjectWorld (subscribe s).2 h (l ++ [MkSubscriber (length h) [] false])).
Proof.
  intros (Hrem & Hlen & Hnd & Hin & Hsub). simpl in *.
  pose proof Hrem as (Hcap & Hrep & Hterm & Hdone).
  set (c := send_all ch_unbounded (map Next (sb_replay s) ++
      match terminal_event s with Some ev => [ev] | None => [] end)).
  assert (Hv : ch_view c = ChanView (replayed n h) false None).
  { unfold c. rewrite (send_all_view _ []) by apply ch_unbounded_view. simpl. by rewrite Hrep, Hterm. }
  assert (Hold : ∀ senders i u d, (∀ j, j ∈ sb_subscribers s → j ∈ senders) → l !! i = Some u →
    sb_channels s !! i = Some d → sub_ok n h senders i u d).
  { intros senders i u d Hs Hu Hd. destruct (Hsub i u d Hu Hd) as [Hle Hok]. split; [done|].
    destruct (su_dropped u); [done|]. destruct Hok as (q & Hvd & Hq & Hm). eauto 10. }
  assert (Hnew : ∀ senders d, ch_view d = ChanView (replayed n h) (existsb is_terminal h) None →
    (existsb is_terminal h = false → length l ∈ senders) →
    sub_ok n h senders (length l) (MkSubscriber (length h) [] false) d).
  { intros senders d Hd Hs. split; [done|]. simpl. rewrite take_ge, drop_ge by done.
    exists (replayed n h). by rewrite app_nil_r. }
  unfold subscribe. fold c. rewrite Hdone. destruct (existsb is_terminal h) eqn:Hh; simpl.
  - split_and!; simpl; [done|by rewrite !length_app, Hlen|done|..].
    + intros i Hi. rewrite length_app. specialize (Hin i Hi). lia.
    + intros i u d [Hu|[Hge Hu]]%lookup_app_Some Hd.
      * rewrite lookup_app_l in Hd by (apply lookup_lt_Some in Hu; lia). by apply Hold.
      * apply list_lookup_singleton_Some in Hu as [Hi <-]. assert (i = length l) as -> by lia.
        rewrite <- Hlen, list_lookup_middle in Hd by done. simplify_eq.
        apply Hnew; [|done]. by rewrite ch_close_view, Hv.
  - split_and!; simpl; [done|by rewrite !length_app, Hlen|..].
    + apply NoDup_app. split_and!; [done| |apply NoDup_singleton].
      intros i Hi ->%list_elem_of_singleton. specialize (Hin _ Hi). lia.
    + intros i [Hi|Hi]%elem_of_app; rewrite length_app; simpl; [specialize (Hin i Hi); lia|].
      apply list_elem_of_singleton in Hi. lia.
    + intros i u d [Hu|[Hge Hu]]%lookup_app_Some Hd.
      * rewrite lookup_app_l in Hd by (apply lookup_lt_Some in Hu; lia).
        apply Hold; [|done|done]. intros j Hj. apply elem_of_app. by left.
      * apply list_lookup_singleton_Some in Hu as [Hi <-]. assert (i = length l) as -> by lia.
        rewrite <- Hlen, list_lookup_middle in Hd by done. simplify_eq.
        apply Hnew; [done|]. intros _. apply elem_of_app. right. rewrite Hlen. by apply list_elem_of_singleton.
Qed.

Lemma inv_poll_subscriber n s h l i u r s' :
  subject_inv n (MkSubjectWorld s h l) → l !! i = Some u → su_dropped u = false →
  poll_subscriber i s = (r, s') →
  subject_inv n (MkSubjectWorld s' h
    (<[i := MkSubscriber (su_before u)
              (su_handed u ++ match r with Ready (Some ev) => [ev] | _ => [] end) false]> l)).
Proof.
  intros (Hrem & Hlen & Hnd & Hin & Hsub) Hu Hdrop Hpoll. simpl in *.
  assert (is_Some (sb_channels s !! i)) as [c Hc]
    by (apply lookup_lt_is_Some; rewrite Hlen; by apply lookup_lt_Some in Hu).
  unfold poll_subscriber in Hpoll. rewrite Hc in Hpoll.
  destruct (ch_poll_recv c) as [r0 c0] eqn:Hr. simplify_eq.
  split_and!; simpl; [done|by rewrite !length_insert|done|..].
  { intros j Hj. rewrite length_insert. by apply Hin. }
  intros j v d Hv Hd. destruct (decide (i = j)) as [<-|Hne].
  - rewrite list_lookup_insert_eq in Hv by (by apply lookup_lt_Some in Hu).
    rewrite list_lookup_insert_eq in Hd by (by apply lookup_lt_Some in Hc). simplify_eq.
    destruct (Hsub i u c Hu Hc) as [Hle Hok]. rewrite Hdrop in Hok.
    destruct Hok as (q & Hview & Hq & Hm). split; [done|]. simpl.
    destruct q as [|ev q].
    + assert (d = c ∧ match r with Ready (Some ev) => [ev] | _ => @nil (Event T E) end = []) as [-> ->].
      { destruct (cv_closed (ch_view c)) eqn:Hcl.
        - rewrite ch_recv_end in Hr by (first [done|by rewrite Hview]). by simplify_eq.
        - rewrite ch_recv_wait in Hr by (first [done|by rewrite Hview]). by simplify_eq. }
      exists []. split_and!; [done|by rewrite app_nil_r|done].
    + destruct (ch_recv_some c ev q) as (c1 & Hs & Hv1); [by rewrite Hview|].
      rewrite Hs in Hr. simplify_eq. exists q. rewrite Hv1, Hview, <- app_assoc. done.
  - rewrite list_lookup_insert_ne in Hv by done. simpl in Hd. rewrite list_lookup_insert_ne in Hd by done. by apply Hsub.
Qed.

Lemma inv_drop_subscriber n s h l i u :
  subject_inv n (MkSubjectWorld s h l) → l !! i = Some u →
  subject_inv n (MkSubjectWorld (drop_subscriber i s) h
    (<[i := MkSubscriber (su_before u) (su_handed u) true]> l)).
Proof.
  intros (Hrem & Hlen & Hnd & Hin & Hsub) Hu. simpl in *.
  split_and!; simpl; [done|by rewrite length_alter, length_insert|done|..].
  { intros j Hj. rewrite length_alter. by apply Hin. }
  intros j v d Hv Hd. destruct (decide (i = j)) as [<-|Hne].
  - rewrite list_lookup_insert_eq in Hv by (by apply lookup_lt_Some in Hu).
    rewrite list_lookup_alter_eq in Hd. apply fmap_Some in Hd as (c & Hc & ->). simplify_eq.
    destruct (Hsub i u c Hu Hc) as [Hle _]. split; [done|]. simpl. by rewrite ch_close_view.
  - rewrite list_lookup_insert_ne in Hv by done. rewrite list_lookup_alter_ne in Hd by done.
    by apply Hsub.
Qed.

(** A terminated subject ignores what it is asked to emit. *)
Lemma terminated_ignores n s h l ev s' :
  subject_inv n (MkSubjectWorld s h l) → (is_terminated s = true → s' = s) →
  (existsb is_terminal h = false → subject_inv n (MkSubjectWorld s' (h ++ [ev]) l)) →
  subject_inv n (MkSubjectWorld s' (emitted ev h) l).
Proof.
  intros Hi Hs Hemit. unfold emitted. destruct (existsb is_terminal h) eqn:Hh; [|by apply Hemit].
  pose proof Hi as ((_ & _ & _ & Hd) & _). simpl in Hd. by rewrite Hs by congruence.
Qed.

Lemma inv_initial n : subject_inv n (MkSubjectWorld (with_replay n) [] []).
Proof.
  split_and!; simpl; [|done|constructor|by intros i []%elem_of_nil|done].
  unfold remembers. split_and!; [done|done|done|done].
Qed.

Lemma subject_inv_step n w w' : subject_inv n w → subject_step w w' → subject_inv n w'.
Proof.
  intros Hi Hstep. destruct Hstep as [s h l|s h l v|s h l|s h l e|s h l i u r s'|s h l i u].
  - by apply inv_subscribe.
  - pose proof Hi as (Hrem & _). eapply terminated_ignores; [done|unfold subject_next; by intros ->|].
    intros Hh. apply (inv_emit_subject n s); [done..| | |by apply remembers_next];
      destruct Hrem as (_ & _ & _ & Hd); simpl in Hd; unfold subject_next; by rewrite Hd, Hh.
  - pose proof Hi as (Hrem & _). eapply terminated_ignores; [done|unfold subject_complete; by intros ->|].
    intros Hh. apply (inv_emit_subject n s); [done..| | |by apply remembers_complete];
      destruct Hrem as (_ & _ & _ & Hd); simpl in Hd; unfold subject_complete; by rewrite Hd, Hh.
  - pose proof Hi as (Hrem & _). eapply terminated_ignores; [done|unfold subject_error; by intros ->|].
    intros Hh. apply (inv_emit_subject n s); [done..| | |by apply remembers_error];
      destruct Hrem as (_ & _ & _ & Hd); simpl in Hd; unfold subject_error; by rewrite Hd, Hh.
  - by eapply inv_poll_subscriber.
  - by apply inv_drop_subscriber.
Qed.

Lemma subject_inv_reachable n w : subject_reachable n w → subject_inv n w.
Proof. induction 1; [apply inv_initial|by eapply subject_inv_step]. Qed.

(** ** The grammar of what is seen *)

Lemma emitted_grammar ev h : rx_grammar h = true → rx_grammar (emitted ev h) = true.
Proof.
  unfold emitted. destruct (existsb is_terminal h) eqn:Hh; [done|]. intros _. revert Hh.
  induction h as [|a h IH]; simpl; [by destruct (is_terminal ev)|].
  intros [-> Hh]%orb_false_iff. by apply IH.
Qed.

Lemma reachable_grammar n w : subject_reachable n w → rx_grammar (sw_emitted w) = true.
Proof.
  induction 1 as [|w w' _ IH Hstep]; [done|].
  destruct Hstep; simpl in *; try done; by apply emitted_grammar.
Qed.

Lemma grammar_map_next (vs : list T) (l : list (Event T E)) :
  rx_grammar (map Next vs ++ l) = rx_grammar l.
Proof. by induction vs. Qed.

Lemma replayed_grammar n k (h : list (Event T E)) :
  rx_grammar h = true → rx_grammar (replayed n (take k h) ++ drop k h) = true.
Proof.
  unfold replayed. rewrite <- app_assoc, grammar_map_next. revert k.
  induction h as [|a h IH]; intros k Hh; [by destruct k|]. destruct k as [|k]; [done|]. simpl in *.
  destruct (is_terminal a) eqn:Ha; [|by apply IH].
  apply bool_decide_eq_true in Hh as ->. rewrite take_nil, drop_nil. simpl. by rewrite Ha.
Qed.

(** C17. Whatever the order in which a subject is subscribed to, told to emit,
    polled by its subscribers and abandoned by them, each subscription that was
    not dropped has been handed, or has in its queue, first the last [n] values
    emitted before it and the terminal event if there was one, then every event
    emitted since, each once and in order; what it sees follows the grammar of
    the streams; and its channel is already ended if the subject was terminated
    before it, open otherwise. *)
Theorem subject_multicasts n w i u c :
  subject_reachable n w → sw_subscribers w !! i = Some u → sb_channels (sw_subject w) !! i = Some c →
  su_dropped u = false →
  let before := take (su_before u) (sw_emitted w) in
  let seen := su_handed u ++ cv_queue (ch_view c) in
  seen = replayed n before ++ drop (su_before u) (sw_emitted w) ∧
  rx_grammar seen = true ∧
  cv_closed (ch_view c) = existsb is_terminal before.
Proof.
  intros Hr Hu Hc Hd. pose proof (reachable_grammar _ _ Hr) as Hg.
  destruct (subject_inv_reachable _ _ Hr) as (_ & _ & _ & _ & Hsub).
  destruct (Hsub i u c Hu Hc) as [_ Hok]. rewrite Hd in Hok. destruct Hok as (q & Hv & Hq & _).
  rewrite Hv. simpl. rewrite Hq. split_and!; [done| |done]. by apply replayed_grammar.
Qed.
End subject.

(** A subscriber that arrives after three values were emitted by a subject that
    replays two of them, reads one, and sees the completion. *)
Definition example_world : World (C:=VecChannel) (T:=nat) (E:=nat) :=
  let s := subject_next 3 (subject_next 2 (subject_next 1 (with_replay 2))) in
  let s1 := subject_complete (subscribe s).2 in
  MkSubjectWorld (poll_subscriber 0 s1).2 [Next 1; Next 2; Next 3; Complete]
    [MkSubscriber 3 [Next 2] false].

Lemma example_world_reachable : subject_reachable 2 example_world.
Proof.
  eapply subject_more; [eapply subject_more; [eapply subject_more; [eapply subject_more;
    [eapply subject_more; [eapply subject_more; [apply subject_start|]|]|]|]|]|].
  - apply (sub_next _ _ _ 1).
  - apply (sub_next _ _ _ 2).
  - apply (sub_next _ _ _ 3).
  - apply sub_subscribe.
  - apply sub_complete.
  - exact (sub_poll
      (subject_complete (subscribe (subject_next 3 (subject_next 2 (subject_next 1 (with_replay 2))))).2)
      [Next 1; Next 2; Next 3; Complete] [MkSubscriber 3 [] false] 0 (MkSubscriber 3 [] false)
      (Ready (Some (Next 2))) _ eq_refl eq_refl eq_refl).
Qed.

Lemma subject_multicasts_witness :
  su_handed (MkSubscriber 3 [Next (E:=nat) 2] false) ++ [Next 3; Complete] =
  replayed 2 [Next 1; Next 2; Next 3] ++ [Complete].
Proof.
  exact (proj1 (subject_multicasts 2 example_world 0 (MkSubscriber 3 [Next 2] false)
    (ChanView [Next 3; Complete] false None) example_world_reachable eq_refl eq_refl eq_refl)).
Defined.
