(* ===== verification/Subscribe.v ===== *)
(** * Subscriptions ([ice-rpc-rx/src/subscribe.rs], [transform/terminals.rs])

    [for_each] drives a stream in its caller; [subscribe] spawns one task that
    drives it and calls the observer.  The task races the stream against the
    cancellation token of the subscription, in an order drawn at random on each
    poll: the draw is an argument of the round, and the token is shared between
    the task, the holders of the subscription and whoever awaits it. *)

From S2P Require Import Prelude Text Event Cancel Stream.

(** ** An async loop *)

(** [loop_ends body st r st']: polled as often as it takes, the loop returns. *)
Inductive loop_ends {St R} (body : St → St + (poll R * St)) : St → R → St → Prop :=
| ends_ready st r st' : body st = inr (Ready r, st') → loop_ends body st r st'
| ends_pending st st1 r st' :
    body st = inr (Pending, st1) → loop_ends body st1 r st' → loop_ends body st r st'
| ends_again st st1 r st' : body st = inl st1 → loop_ends body st1 r st' → loop_ends body st r st'.

Section for_each.
Context {C : Type → Type} {P K T E A : Type} `{AsyncChannel C} `{Stream P (Event T E)}.
(** The callback, over what it captured. *)
Context (f : T → A → A).

Definition for_each_round (st : Observable C P K T E * A)
    : (Observable C P K T E * A) + (poll (result () (ObservableError E)) * (Observable C P K T E * A)) :=
  let (self, captured) := st in
  match next self with
  | (Pending, self') => inr (Pending, (self', captured))
  | (Ready (Some (Ok value)), self') => inl (self', f value captured)
  | (Ready (Some (Err error)), self') => inr (Ready (Err error), (self', captured))
  | (Ready None, self') => inr (Ready (Ok ()), (self', captured))
  end.
End for_each.

(** ** The push task *)

Section push.
Context {S T E O : Type} `{Stream S (Event T E)}.
(** The three callbacks, over what they captured. *)
Context (on_next : T → O → O) (on_error : ObservableError E → O → O) (on_complete : O → O).

Inductive Push : Type :=
| PushEvent (ev : option (Event T E))
| PushCancelled.

(** One poll of [race]: [stream_first] is the order drawn. *)
Definition race (stream_first : bool) (w : Waker) (stream : S) (cancel : CancellationToken)
    : poll Push * S * CancellationToken :=
  if stream_first then
    match poll_next stream with
    | (Ready ev, stream') => (Ready (PushEvent ev), stream', cancel)
    | (Pending, stream') =>
        match poll_cancelled cancel w with
        | (Ready _, cancel') => (Ready PushCancelled, stream', cancel')
        | (Pending, cancel') => (Pending, stream', cancel')
        end
    end
  else
    match poll_cancelled cancel w with
    | (Ready _, cancel') => (Ready PushCancelled, stream, cancel')
    | (Pending, cancel') =>
        match poll_next stream with
        | (Ready ev, stream') => (Ready (PushEvent ev), stream', cancel')
        | (Pending, stream') => (Pending, stream', cancel')
        end
    end.

(** A round of the loop: [inl] goes round again, [inr] leaves the poll. *)
Definition run_push_round (stream_first : bool) (w : Waker) (st : S * O) (cancel : CancellationToken)
    : (S * O + poll () * (S * O)) * CancellationToken :=
  let (stream, observer) := st in
  match race stream_first w stream cancel with
  | (Pending, stream', cancel') => (inr (Pending, (stream', observer)), cancel')
  | (Ready PushCancelled, stream', cancel') => (inr (Ready (), (stream', observer)), cancel')
  | (Ready (PushEvent (Some (Next v))), stream', cancel') => (inl (stream', on_next v observer), cancel')
  | (Ready (PushEvent (Some Complete)), stream', cancel')
  | (Ready (PushEvent None), stream', cancel') =>
      (inr (Ready (), (stream', on_complete observer)), cancel')
  | (Ready (PushEvent (Some (Error e))), stream', cancel') =>
      (inr (Ready (), (stream', on_error e observer)), cancel')
  end.

(** A subscription: the task, the token it shares with the handle, and the
    wakers the cancellation of the token has woken. *)
Record Subscription : Type := MkSubscription {
  sn_task : S * O;
  sn_finished : bool;
  sn_cancel : CancellationToken;
  sn_woken : list Waker
}.

(** [subscribe_all]. *)
Definition subscribe_all (stream : S) (observer : O) : Subscription :=
  MkSubscription (stream, observer) false token_new [].

Definition unsubscribe (s : Subscription) : Subscription :=
  let (woken, cancel') := cancel (sn_cancel s) in
  MkSubscription (sn_task s) (sn_finished s) cancel' (sn_woken s ++ woken).

(** The spawned task runs a round of [run_push]; when that returns it cancels
    the token. *)
Definition push_task (stream_first : bool) (w : Waker) (s : Subscription) : Subscription :=
  if sn_finished s then s
  else
    match run_push_round stream_first w (sn_task s) (sn_cancel s) with
    | (inl st, cancel') | (inr (Pending, st), cancel') =>
        MkSubscription st false cancel' (sn_woken s)
    | (inr (Ready _, st), cancel') => unsubscribe (MkSubscription st true cancel' (sn_woken s))
    end.

(** Awaiting the subscription. *)
Definition poll_subscription (w : Waker) (s : Subscription) : poll () * Subscription :=
  let (r, cancel') := poll_cancelled (sn_cancel s) w in
  (r, MkSubscription (sn_task s) (sn_finished s) cancel' (sn_woken s)).

(** ** Who does what, in any order *)

Inductive SubAction : Type :=
| DoTask (stream_first : bool) (w : Waker)
| DoUnsubscribe
| DoAwait (w : Waker).

Definition sub_act (a : SubAction) (s : Subscription) : Subscription :=
  match a with
  | DoTask b w => push_task b w s
  | DoUnsubscribe => unsubscribe s
  | DoAwait w => (poll_subscription w s).2
  end.

Definition sub_acts (actions : list SubAction) (s : Subscription) : Subscription :=
  fold_left (λ s a, sub_act a s) actions s.

(** The callbacks a sequence of events stands for, made on an observer. *)
Definition notify (ev : Event T E) (o : O) : O :=
  match ev with
  | Next v => on_next v o
  | Error e => on_error e o
  | Complete => on_complete o
  end.

Definition notify_all (evs : list (Event T E)) (o : O) : O := fold_left (λ o ev, notify ev o) evs o.

(** What a subscriber is told of a stream: its values and its first terminal,
    the end of the stream being a completion. *)
Fixpoint told (l : list (Event T E)) : list (Event T E) :=
  match l with
  | [] => [Complete]
  | Next v :: l' => Next v :: told l'
  | ev :: _ => [ev]
  end.

Definition is_unsubscribe (a : SubAction) : bool :=
  match a with DoUnsubscribe => true | _ => false end.

Definition is_task (a : SubAction) : bool := match a with DoTask _ _ => true | _ => false end.

(** How far the task is: what has been told, and what the stream still holds.
    [quiet] when nobody has unsubscribed. *)
Definition push_inv (l : list (Event T E)) (o : O) (quiet : bool) (s : Subscription) : Prop :=
  ∃ before after, told l = before ++ after ∧ (sn_task s).2 = notify_all before o ∧
    if sn_finished s then is_cancelled (sn_cancel s) = true ∧ (quiet = true → after = [])
    else (quiet = true → is_cancelled (sn_cancel s) = false) ∧
         ∃ l', after = told l' ∧ yields (sn_task s).1 l'.

Lemma poll_cancelled_spec t w r t' :
  poll_cancelled t w = (r, t') →
  is_cancelled t' = is_cancelled t ∧ (r = Ready () ↔ is_cancelled t = true).
Proof.
  unfold poll_cancelled, is_cancelled. destruct (tok_cancelled t) eqn:Ht.
  - intros. simplify_eq. by rewrite Ht.
  - rewrite register_flag, Ht. intros. simplify_eq. by rewrite register_flag, Ht.
Qed.

Lemma cancel_cancelled t : is_cancelled (cancel t).2 = true.
Proof. unfold cancel, is_cancelled. by destruct (tok_cancelled t) eqn:Ht. Qed.

Lemma notify_all_snoc evs ev o : notify_all (evs ++ [ev]) o = notify ev (notify_all evs o).
Proof. unfold notify_all. by rewrite fold_left_app. Qed.

(** What a poll leaves of a stream that ends. *)
Lemma yields_poll (s s' : S) (l : list (Event T E)) r :
  yields s l → poll_next s = (r, s') →
  match r with
  | Pending => yields s' l
  | Ready (Some ev) => ∃ l', l = ev :: l' ∧ yields s' l'
  | Ready None => l = []
  end.
Proof. intros Hy Hp. destruct Hy as [s s1 Hq|s s1 l Hq|s s1 a l Hq]; rewrite Hq in Hp; simplify_eq; eauto. Qed.

(** A round of the race. *)
Lemma race_spec b w (stream stream' : S) t t' r :
  race b w stream t = (r, stream', t') →
  is_cancelled t' = is_cancelled t ∧
  match r with
  | Ready PushCancelled => is_cancelled t = true
  | Ready (PushEvent ev) => poll_next stream = (Ready ev, stream')
  | Pending => is_cancelled t = false ∧ poll_next stream = (Pending, stream')
  end.
Proof.
  unfold race. destruct (poll_cancelled t w) as [rc tc] eqn:Hc.
  apply poll_cancelled_spec in Hc as [Hsame Hready].
  assert (Hwait : rc = Pending → is_cancelled t = false).
  { intros ->. destruct (is_cancelled t); [|done]. discriminate (proj2 Hready eq_refl). }
  destruct b, (poll_next stream) as [[|ev] s1] eqn:Hp, rc as [|[]]; intros; simplify_eq; auto;
    split; try done; by apply Hready.
Qed.

Lemma told_grammar (l : list (Event T E)) : rx_grammar (told l) = true.
Proof. induction l as [|[] l IH]; simpl; done. Qed.

Lemma push_inv_task l o quiet b w s : push_inv l o quiet s → push_inv l o quiet (push_task b w s).
Proof.
  intros (before & after & Htold & Hobs & Hrun). unfold push_task.
  destruct (sn_finished s) eqn:Hfin; [exists before, after; by rewrite Hfin|].
  destruct Hrun as (Hquiet & l' & -> & Hy). destruct (sn_task s) as [stream obs]. simpl in *. subst obs.
  destruct (race b w stream (sn_cancel s)) as [[r stream'] t'] eqn:Hrace.
  apply race_spec in Hrace as [Hsame Hr].
  assert (Hend : ∀ ev, told l' = [ev] → push_inv l o quiet
    (unsubscribe (MkSubscription (stream', notify ev (notify_all before o)) true t' (sn_woken s)))).
  { intros ev Hev. exists (before ++ [ev]), []. unfold unsubscribe. simpl.
    pose proof (cancel_cancelled t') as Hct. destruct (cancel t') as [woken t1]. simpl in *.
    by rewrite notify_all_snoc, app_nil_r, Htold, Hev. }
  destruct r as [|[ev|]].
  - destruct Hr as [Hno Hp]. exists before, (told l'). simpl. rewrite Hsame. split_and!; [done..|].
    exists l'. split; [done|]. apply (yields_poll _ _ _ _ Hy Hp).
  - apply (yields_poll _ _ _ _ Hy) in Hr. destruct ev as [[v| |e]|]; [destruct Hr as (l0 & -> & Hy')..|subst l'].
    + exists (before ++ [Next v]), (told l0). simpl. rewrite Hsame, <- app_assoc, notify_all_snoc.
      split_and!; [done..|]. eauto.
    + by apply (Hend Complete).
    + by apply (Hend (Error e)).
    + by apply (Hend Complete).
  - exists before, (told l'). unfold unsubscribe. simpl. pose proof (cancel_cancelled t') as Hct.
    destruct (cancel t') as [woken t1]. simpl in *. split_and!; [done..|]. intros Hq.
    rewrite (Hquiet Hq) in Hr. done.
Qed.

Lemma push_inv_act l o quiet a s :
  push_inv l o quiet s → push_inv l o (quiet && negb (is_unsubscribe a)) (sub_act a s).
Proof.
  destruct a as [b w| |w]; simpl; rewrite ?andb_true_r, ?andb_false_r.
  - apply push_inv_task.
  - intros (before & after & Htold & Hobs & Hrun). exists before, after. unfold unsubscribe.
    pose proof (cancel_cancelled (sn_cancel s)) as Hct. destruct (cancel (sn_cancel s)). simpl in *.
    destruct (sn_finished s); [by split|]. destruct Hrun as [_ Hrun]. by split.
  - intros (before & after & Htold & Hobs & Hrun). exists before, after. unfold poll_subscription.
    destruct (poll_cancelled (sn_cancel s) w) eqn:Hp. apply poll_cancelled_spec in Hp as [Hs _]. simpl.
    by rewrite Hs.
Qed.

Lemma push_inv_acts l o actions quiet s :
  push_inv l o quiet s →
  push_inv l o (quiet && forallb (λ a, negb (is_unsubscribe a)) actions) (sub_acts actions s).
Proof.
  revert quiet s. induction actions as [|a actions IH]; intros quiet s Hi; simpl.
  - by rewrite andb_true_r.
  - rewrite andb_assoc. by apply IH, push_inv_act.
Qed.

(** ** Progress *)

Lemma unsubscribe_keeps s :
  sn_finished (unsubscribe s) = sn_finished s ∧ sn_task (unsubscribe s) = sn_task s.
Proof. unfold unsubscribe. by destruct (cancel (sn_cancel s)). Qed.

Lemma finished_stays actions s : sn_finished s = true → sn_finished (sub_acts actions s) = true.
Proof.
  revert s. induction actions as [|[b w| |w] actions IH]; intros s Hs; simpl; [done|..]; apply IH.
  - unfold push_task. by rewrite Hs.
  - by rewrite (proj1 (unsubscribe_keeps s)).
  - unfold poll_subscription. by destruct (poll_cancelled (sn_cancel s) w).
Qed.

(** A round that nobody has cancelled polls the stream. *)
Lemma task_polls b w s :
  sn_finished s = false → is_cancelled (sn_cancel s) = false →
  let s' := push_task b w s in
  sn_finished s' = true ∨
  (is_cancelled (sn_cancel s') = false ∧ sn_finished s' = false ∧
   ((sn_task s').1 = (poll_next (sn_task s).1).2) ∧
   ((poll_next (sn_task s).1).1 = Pending ∨ ∃ v, (poll_next (sn_task s).1).1 = Ready (Some (Next v)))).
Proof.
  intros Hf Hc s'. subst s'. unfold push_task. rewrite Hf. destruct (sn_task s) as [stream obs]. simpl.
  destruct (race b w stream (sn_cancel s)) as [[r stream'] t'] eqn:Hrace.
  apply race_spec in Hrace as [Hsame Hr]. rewrite Hc in *.
  destruct r as [|[[[v| |e]|]|]]; try done.
  - destruct Hr as [_ Hp]. right. rewrite Hp. simpl. eauto 10.
  - right. rewrite Hr. simpl. eauto 10.
  - left. by rewrite (proj1 (unsubscribe_keeps _)).
  - left. by rewrite (proj1 (unsubscribe_keeps _)).
  - left. by rewrite (proj1 (unsubscribe_keeps _)).
Qed.

Definition task_rounds (actions : list SubAction) : nat := length (List.filter is_task actions).

(** A round brings the task to its end, or the stream one poll further. *)
Lemma rounds_step (s0 s1 : S) r n :
  poll_next s0 = (r, s1) →
  (r = Pending ∨ (∃ v, r = Ready (Some (Next v))) → ∀ actions s,
     (sn_task s).1 = s1 → sn_finished s = false → is_cancelled (sn_cancel s) = false →
     forallb (λ a, negb (is_unsubscribe a)) actions = true → n ≤ task_rounds actions →
     sn_finished (sub_acts actions s) = true) →
  ∀ actions s, (sn_task s).1 = s0 → sn_finished s = false → is_cancelled (sn_cancel s) = false →
    forallb (λ a, negb (is_unsubscribe a)) actions = true → n < task_rounds actions →
    sn_finished (sub_acts actions s) = true.
Proof.
  intros Hp Hnext. induction actions as [|a actions IH]; intros s Hs Hf Hc Hq Hn; [unfold task_rounds in Hn; simpl in Hn; lia|].
  simpl in Hq. apply andb_true_iff in Hq as [Ha Hq]. destruct a as [b w| |w]; [|done|].
  - unfold task_rounds in Hn. simpl in *. pose proof (task_polls b w s Hf Hc) as Hround. rewrite Hs, Hp in Hround.
    simpl in Hround. destruct Hround as [Hdone|(Hc' & Hf' & Ht & Hr)]; [by apply finished_stays|].
    apply (Hnext Hr); try done. unfold task_rounds. lia.
  - simpl. unfold poll_subscription. destruct (poll_cancelled (sn_cancel s) w) as [r' t'] eqn:Hpc.
    apply poll_cancelled_spec in Hpc as [Hsame _]. apply IH; simpl; [done|done|congruence|done|done].
Qed.

Lemma push_ends (stream : S) l :
  yields stream l → ∃ n, ∀ actions s,
    (sn_task s).1 = stream → sn_finished s = false → is_cancelled (sn_cancel s) = false →
    forallb (λ a, negb (is_unsubscribe a)) actions = true → n ≤ task_rounds actions →
    sn_finished (sub_acts actions s) = true.
Proof.
  induction 1 as [s s1 Hp|s s1 l Hp Hy [n IH]|s s1 a l Hp Hy [n IH]].
  - exists 1. eapply (rounds_step _ _ _ 0 Hp). by intros [|[]].
  - exists (Datatypes.S n). eapply (rounds_step _ _ _ n Hp). intros _. exact IH.
  - exists (Datatypes.S n). eapply (rounds_step _ _ _ n Hp). intros _. exact IH.
Qed.

(** ** Wake-ups *)

(** A waker the token still holds, or has woken; a cancelled token holds none. *)
Definition wakes (w : Waker) (s : Subscription) : Prop :=
  w ∈ tok_wakers (sn_cancel s) ∨ w ∈ sn_woken s.

Definition token_ok (t : CancellationToken) : Prop := is_cancelled t = true → tok_wakers t = [].

Lemma poll_cancelled_wakers t w r t' :
  poll_cancelled t w = (r, t') →
  (token_ok t → token_ok t') ∧ (∀ v, v ∈ tok_wakers t → v ∈ tok_wakers t') ∧
  (r = Pending → w ∈ tok_wakers t').
Proof.
  unfold poll_cancelled, is_cancelled. destruct (tok_cancelled t) eqn:Ht; [intros; by simplify_eq|].
  rewrite register_flag, Ht. intros. simplify_eq. split_and!.
  - intros _. unfold token_ok, is_cancelled. by rewrite register_flag, Ht.
  - intros v Hv. apply elem_register. by right.
  - intros _. apply elem_register. by left.
Qed.

Lemma race_wakers b w (stream stream' : S) t t' r :
  race b w stream t = (r, stream', t') →
  (token_ok t → token_ok t') ∧ (∀ v, v ∈ tok_wakers t → v ∈ tok_wakers t').
Proof.
  unfold race. destruct (poll_cancelled t w) as [rc tc] eqn:Hc.
  apply poll_cancelled_wakers in Hc as (Hok & Hkeep & _).
  destruct b, (poll_next stream) as [[|ev] s1], rc as [|[]]; intros; by simplify_eq.
Qed.

Lemma unsubscribe_wakes w s :
  (token_ok (sn_cancel s) → token_ok (sn_cancel (unsubscribe s))) ∧
  (wakes w s → wakes w (unsubscribe s)).
Proof.
  unfold unsubscribe, cancel, wakes, token_ok, is_cancelled.
  destruct (tok_cancelled (sn_cancel s)) eqn:Ht; simpl.
  - split; [intros Hok _; by apply Hok|by rewrite app_nil_r].
  - split; [done|]. intros Hw. right. apply elem_of_app. tauto.
Qed.

Lemma act_wakes a w s :
  (token_ok (sn_cancel s) → token_ok (sn_cancel (sub_act a s))) ∧ (wakes w s → wakes w (sub_act a s)).
Proof.
  destruct a as [b v| |v]; simpl; [|apply unsubscribe_wakes|].
  - unfold push_task. destruct (sn_finished s); [done|]. destruct (sn_task s) as [stream obs]. simpl.
    destruct (race b v stream (sn_cancel s)) as [[r stream'] t'] eqn:Hr.
    apply race_wakers in Hr as [Hok Hkeep].
    assert (Hw : ∀ st (f : bool), wakes w s → wakes w (MkSubscription st f t' (sn_woken s)))
      by (intros st f [Hw|Hw]; [left; by apply Hkeep|by right]).
    assert (Hend : ∀ st, let s' := unsubscribe (MkSubscription st true t' (sn_woken s)) in
      (token_ok (sn_cancel s) → token_ok (sn_cancel s')) ∧ (wakes w s → wakes w s')).
    { intros st. destruct (unsubscribe_wakes w (MkSubscription st true t' (sn_woken s))) as [H1 H2].
      split; [|intros Hs; by apply H2, Hw]. intros Hs. by apply H1, Hok. }
    destruct r as [|[[[x| |e]|]|]]; simpl; try apply Hend; (split; [exact Hok|apply Hw]).
  - unfold poll_subscription. destruct (poll_cancelled (sn_cancel s) v) as [r t'] eqn:Hp.
    apply poll_cancelled_wakers in Hp as (Hok & Hkeep & _). simpl.
    split; [done|]. intros [Hw|Hw]; [left; by apply Hkeep|by right].
Qed.

Lemma acts_wakes actions w s :
  (token_ok (sn_cancel s) → token_ok (sn_cancel (sub_acts actions s))) ∧
  (wakes w s → wakes w (sub_acts actions s)).
Proof.
  revert s. induction actions as [|a actions IH]; intros s; simpl; [done|].
  destruct (IH (sub_act a s)), (act_wakes a w s). split; auto.
Qed.

(** Whoever was left waiting for the end of a subscription has been woken by
    the cancellation of its token. *)
Lemma awaiting_woken s a1 w a2 :
  token_ok (sn_cancel s) →
  (poll_subscription w (sub_acts a1 s)).1 = Pending →
  is_cancelled (sn_cancel (sub_acts (a1 ++ DoAwait w :: a2) s)) = true →
  w ∈ sn_woken (sub_acts (a1 ++ DoAwait w :: a2) s).
Proof.
  intros Hok Hp Hc. pose proof (proj1 (acts_wakes (a1 ++ DoAwait w :: a2) w s) Hok Hc) as Hnil.
  unfold sub_acts in *. rewrite fold_left_app in *. simpl in *.
  set (s1 := fold_left _ a1 s) in *.
  assert (Hw : wakes w (poll_subscription w s1).2).
  { left. unfold poll_subscription in *. destruct (poll_cancelled (sn_cancel s1) w) as [r t'] eqn:Hr.
    apply poll_cancelled_wakers in Hr as (_ & _ & Hin). simpl in *. by apply Hin. }
  destruct (proj2 (acts_wakes a2 w _) Hw) as [Hw'|Hw']; [|done].
  unfold sub_acts in Hw'. rewrite Hnil in Hw'. by apply elem_of_nil in Hw'.
Qed.

(** ** Contract *)

(** C18. A subscription to a stream that ends, whatever the order drawn in the
    races and however the rounds of the task, the polls of those who await the
    subscription and the unsubscriptions interleave: the callbacks made so far
    are the first ones of what the stream says (its values, then one terminal),
    each once; if nobody unsubscribed, a finished task has made them all, and it
    finishes after a bounded number of rounds; a finished task has cancelled the
    token, which wakes everyone left waiting. *)
Theorem subscription_tells (stream : S) l (o : O) :
  yields stream l →
  (∀ actions, let s := sub_acts actions (subscribe_all stream o) in
     (∃ before after, told l = before ++ after ∧ (sn_task s).2 = notify_all before o ∧
        (sn_finished s = true → forallb (λ a, negb (is_unsubscribe a)) actions = true → after = [])) ∧
     (sn_finished s = true → is_cancelled (sn_cancel s) = true ∧
        ∀ a1 w a2, actions = a1 ++ DoAwait w :: a2 →
          (poll_subscription w (sub_acts a1 (subscribe_all stream o))).1 = Pending → w ∈ sn_woken s)) ∧
  (∃ n, ∀ actions, forallb (λ a, negb (is_unsubscribe a)) actions = true → n ≤ task_rounds actions →
     sn_finished (sub_acts actions (subscribe_all stream o)) = true).
Proof.
  intros Hy. split; [|destruct (push_ends stream l Hy) as [n Hn]; exists n; intros; by apply Hn].
  intros actions s.
  assert (push_inv l o true (subscribe_all stream o)) as Hi by (exists [], (told l); simpl; eauto 10).
  apply (push_inv_acts _ _ actions) in Hi as (before & after & Htold & Hobs & Hrun). fold s in Hobs, Hrun.
  simpl in Hrun. split.
  - exists before, after. split_and!; [done..|]. intros Hf. rewrite Hf in Hrun. apply Hrun.
  - intros Hf. rewrite Hf in Hrun. split; [apply Hrun|]. intros a1 w a2 -> Hp.
    apply awaiting_woken; [by intros [=]|done|apply Hrun].
Qed.

(** A cancelled subscription is silent from the first round that draws its
    token first or finds nothing to read: the task ends there without a
    callback. *)
Lemma cancelled_stops b w s :
  sn_finished s = false → is_cancelled (sn_cancel s) = true →
  b = false ∨ (poll_next (sn_task s).1).1 = Pending →
  sn_finished (push_task b w s) = true ∧ (sn_task (push_task b w s)).2 = (sn_task s).2.
Proof.
  intros Hf Hc Hb. unfold push_task. rewrite Hf. destruct (sn_task s) as [stream obs]. simpl in *.
  unfold race, poll_cancelled. rewrite Hc.
  destruct b; [destruct Hb as [|Hb]; [done|]; destruct (poll_next stream) as [r s1]; simpl in Hb; subst r|];
    simpl; by rewrite !(proj1 (unsubscribe_keeps _)), !(proj2 (unsubscribe_keeps _)).
Qed.

(** The cancellation does not silence what the stream has ready: while the
    races draw the stream first, every value and the terminal are still told. *)
Lemma cancelled_may_tell w (stream : S) l (o : O) t woken :
  prompt stream l →
  (sn_task (sub_acts (replicate (length (told l)) (DoTask true w))
     (MkSubscription (stream, o) false t woken))).2 = notify_all (told l) o.
Proof.
  intros Hp. revert o. induction Hp as [s s1 Hp|s s1 [v| |e] l Hp Hl IH]; intros o; simpl.
  - unfold push_task. simpl. rewrite Hp. simpl. by rewrite (proj2 (unsubscribe_keeps _)).
  - unfold push_task. simpl. rewrite Hp. simpl. apply IH.
  - unfold push_task. simpl. rewrite Hp. simpl. by rewrite (proj2 (unsubscribe_keeps _)).
  - unfold push_task. simpl. rewrite Hp. simpl. by rewrite (proj2 (unsubscribe_keeps _)).
Qed.
End push.

Section for_each_facts.
Context {C : Type → Type} {P K T E A : Type} `{AsyncChannel C} `{Stream P (Event T E)}.
Context (f : T → A → A).

Definition for_each_answer (l : list (Event T E)) : result () (ObservableError E) :=
  match before_terminal l with
  | (_, Some e) => Err e
  | (_, None) => if existsb is_terminal l then Ok () else Err closed_early
  end.

(** [for_each] ends on any stream that ends: the callback has run on every
    value up to the terminal, in order; the answer is the error of the stream,
    or a transport error when it closed without a terminal. *)
Theorem for_each_runs (o : Observable C P K T E) l a :
  yields o l → terminated o = false →
  ∃ o', loop_ends (for_each_round f) (o, a) (for_each_answer l)
          (o', fold_left (λ a v, f v a) (before_terminal l).1 a).
Proof.
  intros Hy. revert a. induction Hy as [o o1 Hp|o o1 l Hp Hy IH|o o1 ev l Hp Hy IH]; intros a Ht.
  - exists (MkObservable (inner o1) true). apply ends_ready. simpl.
    by rewrite next_poll_next, Hp, (poll_terminated_other _ _ _ Hp), Ht.
  - destruct (IH a) as [o' Ho]; [by rewrite (poll_terminated_other _ _ _ Hp)|].
    exists o'. eapply ends_pending; [simpl; by rewrite next_poll_next, Hp|done].
  - destruct ev as [v| |e].
    + destruct (IH (f v a)) as [o' Ho]; [by rewrite (poll_terminated _ _ _ Hp)|].
      exists o'. eapply ends_again; [simpl; by rewrite next_poll_next, Hp|].
      unfold for_each_answer in *. simpl. by destruct (before_terminal l).
    + exists o1. apply ends_ready. simpl. by rewrite next_poll_next, Hp.
    + exists o1. apply ends_ready. simpl. by rewrite next_poll_next, Hp.
Qed.
End for_each_facts.

(** ** Examples *)

Definition log (v : nat) (o : list (Event nat nat)) : list (Event nat nat) := o ++ [Next v].
Definition log_error (e : ObservableError nat) (o : list (Event nat nat)) : list (Event nat nat) := o ++ [Error e].
Definition log_complete (o : list (Event nat nat)) : list (Event nat nat) := o ++ [Complete].

Definition example_source : Script (Event nat nat) :=
  MkScript [Pending; Ready (Next 1); Ready (Next 2); Ready Complete].

(** Four rounds finish the task, and the one who awaits it is woken. *)
Lemma subscription_tells_witness :
  let actions := [DoAwait 7; DoTask true 1; DoTask false 1; DoTask true 1; DoTask false 1] in
  let s := sub_acts log log_error log_complete actions (subscribe_all example_source []) in
  (sn_task s).2 = [Next 1; Next 2; Complete] ∧ 7 ∈ sn_woken s.
Proof.
  split; [reflexivity|].
  pose proof (proj1 (subscription_tells log log_error log_complete example_source _ [] (script_yields _)))
    as Hall.
  destruct (Hall [DoAwait 7; DoTask true 1; DoTask false 1; DoTask true 1; DoTask false 1]) as [_ Hend].
  by apply (proj2 (Hend eq_refl) [] 7 [DoTask true 1; DoTask false 1; DoTask true 1; DoTask false 1]).
Defined.

Lemma for_each_runs_witness :
  ∃ o', loop_ends (for_each_round (λ v n, v + n))
    (MkObservable (C:=VecChannel) (P:=Script (Event nat nat)) (K:=nat) (SPipeline example_source) false, 0)
    (Ok ()) (o', 3).
Proof.
  exact (for_each_runs (λ v n, v + n) _ [Next 1; Next 2; Complete] 0
    (pipeline_yields _ _ _ (script_yields (script example_source))) eq_refl).
Defined.
