(* ===== verification/Filtering.v ===== *)
(** * Filtering operators ([ice-rpc-rx/src/transform/filtering.rs])

    [filter], [take], [distinct_until_changed], [skip], [first] and
    [first_with]: the combinators, and what each delivers for the sequence its
    source delivers. *)

From S2P Require Import Prelude Text Event Stream.

Section filtering.
Context {S T E : Type} `{Sized S (Event T E)}.

Abbreviation answer O := (O + (poll (option (Event T E)) * O))%type.

(** ** [filter] *)

Section filter.
(** The predicate, a closure over [X]. *)
Context {X : Type} (f : X → T → bool * X).

Record Filter : Type := MkFilter { filter_source : S; filter_f : X }.

Definition Filter_body (this : Filter) : answer Filter :=
  match poll_next (filter_source this) with
  | (Ready (Some (Next v)), s) =>
      let (keep, x) := f (filter_f this) v in
      if keep then inr (Ready (Some (Next v)), MkFilter s x) else inl (MkFilter s x)
  | (Ready (Some other), s) => inr (Ready (Some other), MkFilter s (filter_f this))
  | (Ready None, s) => inr (Ready None, MkFilter s (filter_f this))
  | (Pending, s) => inr (Pending, MkFilter s (filter_f this))
  end.

Definition Filter_measure (this : Filter) : nat := stream_size (filter_source this).

#[export] Instance Filter_poll_next : Stream Filter (Event T E) :=
  rust_loop Filter_body Filter_measure (λ this, (Pending, this)).

Fixpoint filter_events (x : X) (l : list (Event T E)) : list (Event T E) :=
  match l with
  | Next v :: l' =>
      let (keep, x') := f x v in
      if keep then Next v :: filter_events x' l' else filter_events x' l'
  | ev :: l' => ev :: filter_events x l'
  | [] => []
  end.

Lemma Filter_decreases o o' : Filter_body o = inl o' → Filter_measure o' < Filter_measure o.
Proof.
  destruct o as [s x]; unfold Filter_body, Filter_measure; simpl.
  case_poll s; intros; simplify_eq/=; repeat case_match; simplify_eq/=; solve_size.
Qed.

Lemma filter_yields s x l : yields s l → yields (MkFilter s x) (filter_events x l).
Proof.
  intros Hy; revert x; induction Hy as [s s1 Hp|s s1 l Hp Hy IH|s s1 ev l Hp Hy IH]; intros x.
  - loop_step Filter_body Filter_decreases.
  - loop_step Filter_body Filter_decreases. apply IH.
  - destruct ev as [v| |e]; simpl; try (loop_step Filter_body Filter_decreases; apply IH).
    destruct (f x v) as [keep x'] eqn:Hf.
    destruct keep; loop_step Filter_body Filter_decreases; apply IH.
Qed.

#[export] Program Instance Filter_sized : Sized Filter (Event T E) := {
  stream_size := Filter_measure
}.
Next Obligation. loop_size Filter_body Filter_measure Filter_decreases. Qed.
Next Obligation. loop_size Filter_body Filter_measure Filter_decreases. Qed.
End filter.

(** ** [take] *)

Record Take : Type := MkTake { take_source : S; take_remaining : nat; take_done : bool }.

#[export] Instance Take_poll_next : Stream Take (Event T E) := λ this,
  if take_done this then (Ready None, this)
  else if take_remaining this =? 0 then
    (Ready (Some Complete), MkTake (take_source this) (take_remaining this) true)
  else
    match poll_next (take_source this) with
    | (Ready (Some (Next v)), s) => (Ready (Some (Next v)), MkTake s (take_remaining this - 1) false)
    | (Ready (Some other), s) => (Ready (Some other), MkTake s (take_remaining this) true)
    | (Ready None, s) => (Ready None, MkTake s (take_remaining this) true)
    | (Pending, s) => (Pending, MkTake s (take_remaining this) false)
    end.

Fixpoint take_events (n : nat) (l : list (Event T E)) : list (Event T E) :=
  match n, l with
  | O, _ => [Complete]
  | Datatypes.S n', Next v :: l' => Next v :: take_events n' l'
  | _, ev :: _ => [ev]
  | _, [] => []
  end.

Lemma take_over s n : yields (MkTake s n true) [].
Proof. by eapply yields_end. Qed.

Lemma take_full s : yields (MkTake s 0 false) [Complete].
Proof. eapply yields_item; [reflexivity|]. apply take_over. Qed.

Lemma take_yields s n l : yields s l → yields (MkTake s n false) (take_events n l).
Proof.
  intros Hy; revert n; induction Hy as [s s1 Hp|s s1 l Hp Hy IH|s s1 ev l Hp Hy IH];
    intros [|n]; try (apply take_full).
  - op_step Take_poll_next.
  - op_step Take_poll_next. apply IH.
  - destruct ev as [v| |e]; simpl; op_step Take_poll_next; try apply take_over.
    replace (n - 0) with n by lia. apply IH.
Qed.

(** The n-th value is followed by [Complete] with no further poll of the
    source, which may be silent for ever. *)
Lemma take_emits s vs s' : emits s (map Next vs) s' →
  yields (MkTake s (length vs) false) (map Next vs ++ [Complete]).
Proof.
  intros He. remember (map Next vs) as l eqn:Hl. revert vs Hl.
  induction He as [s|s s1 l s' Hp He IH|s s1 ev l s' Hp He IH]; intros vs Hl.
  - destruct vs; [|done]. apply take_full.
  - destruct vs as [|v vs]; [subst l; apply take_full|].
    op_step Take_poll_next. specialize (IH (v :: vs) Hl). exact IH.
  - destruct vs as [|v vs]; simplify_eq/=. op_step Take_poll_next.
    replace (length vs - 0) with (length vs) by lia. by apply IH.
Qed.

Definition take_size (this : Take) : nat :=
  if take_done this then 0 else Datatypes.S (stream_size (take_source this)).

#[export] Program Instance Take_sized : Sized Take (Event T E) := { stream_size := take_size }.
Next Obligation.
  intros [s n d]; unfold poll_next, Take_poll_next, take_size; simpl.
  destruct d; [done|]. destruct (n =? 0); [simpl; lia|].
  case_poll s; repeat case_match; simplify_eq/=; solve_size.
Qed.
Next Obligation.
  intros [s n d] a o'; unfold poll_next, Take_poll_next, take_size; simpl.
  destruct d; [done|]. destruct (n =? 0); [intros; simplify_eq/=; lia|].
  case_poll s; repeat case_match; intros; simplify_eq/=; solve_size.
Qed.

(** ** [distinct_until_changed] *)

Section distinct.
(** [T]'s [PartialEq]. *)
Context (eqb : T → T → bool).

Record DistinctUntilChanged : Type := MkDistinct { distinct_source : S; distinct_last : option T }.

(** [this.last.as_ref() != Some(&v)]. *)
Definition differs (last : option T) (v : T) : bool :=
  match last with
  | Some w => negb (eqb w v)
  | None => true
  end.

Definition Distinct_body (this : DistinctUntilChanged) : answer DistinctUntilChanged :=
  match poll_next (distinct_source this) with
  | (Ready (Some (Next v)), s) =>
      if differs (distinct_last this) v then inr (Ready (Some (Next v)), MkDistinct s (Some v))
      else inl (MkDistinct s (distinct_last this))
  | (Ready (Some other), s) => inr (Ready (Some other), MkDistinct s (distinct_last this))
  | (Ready None, s) => inr (Ready None, MkDistinct s (distinct_last this))
  | (Pending, s) => inr (Pending, MkDistinct s (distinct_last this))
  end.

Definition Distinct_measure (this : DistinctUntilChanged) : nat :=
  stream_size (distinct_source this).

#[export] Instance Distinct_poll_next : Stream DistinctUntilChanged (Event T E) :=
  rust_loop Distinct_body Distinct_measure (λ this, (Pending, this)).

(** The values that differ from the one emitted before them. *)
Fixpoint dedup (last : option T) (vs : list T) : list T :=
  match vs with
  | [] => []
  | v :: vs' => if differs last v then v :: dedup (Some v) vs' else dedup last vs'
  end.

Lemma Distinct_decreases o o' :
  Distinct_body o = inl o' → Distinct_measure o' < Distinct_measure o.
Proof.
  destruct o as [s x]; unfold Distinct_body, Distinct_measure; simpl.
  case_poll s; intros; simplify_eq/=; repeat case_match; simplify_eq/=; solve_size.
Qed.

Lemma distinct_yields s last vs fin : ending fin →
  yields s (map Next vs ++ fin) → yields (MkDistinct s last) (map Next (dedup last vs) ++ fin).
Proof.
  intros Hf Hy. remember (map Next vs ++ fin) as l eqn:Hl. revert last vs fin Hf Hl.
  induction Hy as [s s1 Hp|s s1 l Hp Hy IH|s s1 ev l Hp Hy IH]; intros last vs fin Hf Hl.
  - destruct vs; [|done]. simpl in Hl. subst fin. loop_step Distinct_body Distinct_decreases.
  - loop_step Distinct_body Distinct_decreases. by apply IH.
  - destruct vs as [|v vs]; simplify_eq/=.
    + inversion Hf; simplify_eq. destruct ev; [done|..];
        (loop_step Distinct_body Distinct_decreases; apply (IH last [] [] ending_closed eq_refl)).
    + destruct (differs last v) eqn:Hd; loop_step Distinct_body Distinct_decreases; by apply IH.
Qed.

#[export] Program Instance Distinct_sized : Sized DistinctUntilChanged (Event T E) := {
  stream_size := Distinct_measure
}.
Next Obligation. loop_size Distinct_body Distinct_measure Distinct_decreases. Qed.
Next Obligation. loop_size Distinct_body Distinct_measure Distinct_decreases. Qed.
End distinct.

(** ** [skip] *)

Record Skip : Type := MkSkip { skip_source : S; skip_remaining : nat }.

Definition Skip_body (this : Skip) : answer Skip :=
  match poll_next (skip_source this) with
  | (Ready (Some (Next v)), s) =>
      if 0 <? skip_remaining this then inl (MkSkip s (skip_remaining this - 1))
      else inr (Ready (Some (Next v)), MkSkip s (skip_remaining this))
  | (Ready (Some other), s) => inr (Ready (Some other), MkSkip s (skip_remaining this))
  | (Ready None, s) => inr (Ready None, MkSkip s (skip_remaining this))
  | (Pending, s) => inr (Pending, MkSkip s (skip_remaining this))
  end.

Definition Skip_measure (this : Skip) : nat := stream_size (skip_source this).

#[export] Instance Skip_poll_next : Stream Skip (Event T E) :=
  rust_loop Skip_body Skip_measure (λ this, (Pending, this)).

Lemma Skip_decreases o o' : Skip_body o = inl o' → Skip_measure o' < Skip_measure o.
Proof.
  destruct o as [s x]; unfold Skip_body, Skip_measure; simpl.
  case_poll s; intros; simplify_eq/=; repeat case_match; simplify_eq/=; solve_size.
Qed.

Lemma skip_yields s n vs fin : ending fin →
  yields s (map Next vs ++ fin) → yields (MkSkip s n) (map Next (drop n vs) ++ fin).
Proof.
  intros Hf Hy. remember (map Next vs ++ fin) as l eqn:Hl. revert n vs fin Hf Hl.
  induction Hy as [s s1 Hp|s s1 l Hp Hy IH|s s1 ev l Hp Hy IH]; intros n vs fin Hf Hl.
  - destruct vs; [|done]. simpl in Hl. subst fin. rewrite drop_nil.
    loop_step Skip_body Skip_decreases.
  - loop_step Skip_body Skip_decreases. by apply IH.
  - destruct vs as [|v vs]; simplify_eq/=.
    + rewrite drop_nil. inversion Hf; simplify_eq. destruct ev; [done|..];
        (loop_step Skip_body Skip_decreases;
         specialize (IH n [] [] ending_closed eq_refl); by rewrite drop_nil in IH).
    + destruct n as [|n]; simpl; loop_step Skip_body Skip_decreases.
      * by apply (IH 0).
      * rewrite Nat.sub_0_r. by apply IH.
Qed.

#[export] Program Instance Skip_sized : Sized Skip (Event T E) := { stream_size := Skip_measure }.
Next Obligation. loop_size Skip_body Skip_measure Skip_decreases. Qed.
Next Obligation. loop_size Skip_body Skip_measure Skip_decreases. Qed.

(** ** [first_with], [first] *)

Section first.
Context {X : Type} (f : X → T → bool * X).

Record First : Type := MkFirst {
  first_source : S; first_f : X; first_completed : bool; first_done : bool
}.

Definition First_body (this : First) : answer First :=
  match poll_next (first_source this) with
  | (Ready (Some (Next v)), s) =>
      let (found, x) := f (first_f this) v in
      if found then inr (Ready (Some (Next v)), MkFirst s x true (first_done this))
      else inl (MkFirst s x (first_completed this) (first_done this))
  | (Ready (Some other), s) =>
      inr (Ready (Some other), MkFirst s (first_f this) (first_completed this) true)
  | (Ready None, s) =>
      inr (Ready None, MkFirst s (first_f this) (first_completed this) (first_done this))
  | (Pending, s) =>
      inr (Pending, MkFirst s (first_f this) (first_completed this) (first_done this))
  end.

Definition First_measure (this : First) : nat := stream_size (first_source this).

#[export] Instance First_poll_next : Stream First (Event T E) := λ this,
  if first_done this then (Ready None, this)
  else if first_completed this then
    (Ready (Some Complete), MkFirst (first_source this) (first_f this) (first_completed this) true)
  else rust_loop First_body First_measure (λ this, (Pending, this)) this.

Lemma First_decreases o o' : First_body o = inl o' → First_measure o' < First_measure o.
Proof.
  destruct o as [s x]; unfold First_body, First_measure; simpl.
  case_poll s; intros; simplify_eq/=; repeat case_match; simplify_eq/=; solve_size.
Qed.

(** A round that rejects a value polls again. *)
Lemma first_poll_round s x : poll_next (MkFirst s x false false) =
  match First_body (MkFirst s x false false) with inl o => poll_next o | inr r => r end.
Proof.
  unfold poll_next at 1, First_poll_next at 1; simpl.
  rewrite rust_loop_unfold by apply First_decreases.
  destruct (First_body _) as [o|r] eqn:Hb; [|done]. revert Hb. unfold First_body; simpl.
  case_poll s; intros; repeat case_match; simplify_eq/=. done.
Qed.

(** The first value found, then [Complete]; the source's own end before. *)
Fixpoint first_events (x : X) (l : list (Event T E)) : list (Event T E) :=
  match l with
  | Next v :: l' =>
      let (found, x') := f x v in if found then [Next v; Complete] else first_events x' l'
  | ev :: _ => [ev]
  | [] => []
  end.

Lemma first_found s x c : yields (MkFirst s x true false) [Complete] ∧
  yields (MkFirst s x c true) [].
Proof.
  split; [eapply yields_item; [reflexivity|]; by eapply yields_end|by eapply yields_end].
Qed.

Lemma first_emits s x l s' : emits s l s' →
  Exists (λ ev, is_terminal ev = true) (first_events x l) →
  yields (MkFirst s x false false) (first_events x l).
Proof.
  intros He; revert x.
  induction He as [s|s s1 l s' Hp He IH|s s1 ev l s' Hp He IH]; intros x Hx.
  - by inversion Hx.
  - eapply yields_pending; [|by apply IH]. rewrite first_poll_round. unfold First_body; by scrut.
  - destruct ev as [v| |e]; simpl in *.
    + destruct (f x v) as [found x'] eqn:Hf. destruct found.
      * eapply yields_item; [|apply first_found]; [|exact false].
        rewrite first_poll_round. unfold First_body; by scrut.
      * eapply yields_same_poll; [|by apply IH].
        rewrite first_poll_round. unfold First_body; by scrut.
    + eapply yields_item; [|apply first_found].
      rewrite first_poll_round. unfold First_body; by scrut.
    + eapply yields_item; [|apply first_found].
      rewrite first_poll_round. unfold First_body; by scrut.
Qed.
End first.

(** ** What the filtering operators deliver *)

Lemma filter_events_pure (p : T → bool) vs fin : ending fin →
  filter_events (λ x v, (p v, x)) tt (map Next vs ++ fin) = map Next (List.filter p vs) ++ fin.
Proof.
  intros Hf. induction vs as [|v vs IH]; simpl.
  - destruct Hf as [|[] Hev]; done.
  - destruct (p v); simpl; by f_equal.
Qed.

(** [filter], [skip] and [distinct_until_changed] act on the values only,
    for every source and every polling: the values that pass the predicate,
    all but the first [n], those that differ from the value emitted before,
    in order, and the source's own terminal untouched after them. *)
Theorem sieves_keep_the_terminal (p : T → bool) (eqb : T → T → bool) s n vs fin :
  ending fin → yields s (map Next vs ++ fin) →
  yields (H:=Filter_poll_next (λ x v, (p v, x))) (MkFilter s tt)
    (map Next (List.filter p vs) ++ fin) ∧
  yields (MkSkip s n) (map Next (drop n vs) ++ fin) ∧
  yields (H:=Distinct_poll_next eqb) (MkDistinct s None) (map Next (dedup eqb None vs) ++ fin).
Proof.
  intros Hf Hy. split; [|split; [by apply skip_yields|by apply distinct_yields]].
  rewrite <- filter_events_pure by done. by apply filter_yields.
Qed.

(** [take n] and [first_with] end a live source: as soon as the source
    has handed out [n] values (a value the predicate accepts), the operator
    completes by itself, however silent the source is from then on; an end of
    the source before that passes through unchanged. *)
Theorem take_and_first_end_live_sources {X} (f : X → T → bool * X) s s' x n :
  (∀ vs, emits s (map Next vs) s' → length vs = n →
    yields (MkTake s n false) (map Next vs ++ [Complete])) ∧
  (∀ vs v, emits s (map Next (vs ++ [v])) s' →
    first_events f x (map Next (vs ++ [v])) = [Next v; Complete] →
    yields (H:=First_poll_next f) (MkFirst s x false false) [Next v; Complete]) ∧
  (∀ vs t, emits s (map Next vs ++ [t]) s' → is_terminal t = true → length vs < n →
    yields (MkTake s n false) (map Next vs ++ [t])).
Proof.
  split; [|split].
  - intros vs He <-. by eapply take_emits.
  - intros vs v He Hx. rewrite <- Hx. eapply first_emits; [done|].
    rewrite Hx. apply Exists_cons_tl. by apply Exists_cons_hd.
  - intros vs t He Ht. revert n. remember (map Next vs ++ [t]) as l eqn:Hl. revert vs Hl.
    induction He as [s|s s1 l s' Hp He IH|s s1 ev l s' Hp He IH]; intros vs Hl n Hn.
    + by destruct vs.
    + destruct n as [|n]; [lia|]. op_step Take_poll_next. by apply (IH vs).
    + destruct n as [|n]; [lia|]. destruct vs as [|v vs]; simplify_eq/=.
      * destruct t; [done|..]; op_step Take_poll_next; apply take_over.
      * op_step Take_poll_next. rewrite Nat.sub_0_r. apply (IH vs); [done|lia].
Qed.
End filtering.

Lemma sieves_keep_the_terminal_witness :
  yields (MkSkip (MkScript [Ready (Next 1); Pending; Ready (Next 2); Ready (Complete (E:=nat))]) 1)
    [Next 2; Complete].
Proof.
  apply (sieves_keep_the_terminal Nat.even Nat.eqb
    (MkScript [Ready (Next 1); Pending; Ready (Next 2); Ready Complete]) 1 [1; 2] [Complete]).
  - by constructor.
  - apply (script_yields [Ready (Next 1); Pending; Ready (Next 2); Ready Complete]).
Defined.

Lemma take_and_first_end_live_sources_witness :
  yields (MkTake (MkScript [Ready (Next 1); Pending; Ready (Next (E:=nat) 2)]) 1 false)
    [Next 1; Complete].
Proof.
  apply (proj1 (take_and_first_end_live_sources (λ x v, (Nat.even v, x))
    (MkScript [Ready (Next 1); Pending; Ready (Next 2)]) (MkScript [Pending; Ready (Next 2)]) tt 1)
    [1]); [|done].
  eapply emits_item; [reflexivity|]. apply emits_refl.
Defined.
