(* ===== verification/Transforming.v ===== *)
(** * Transforming operators ([ice-rpc-rx/src/transform/transforming.rs])

    [map], [map_err], [scan] and [switch_map].  A failed [expect] is a poll
    that never answers, so a theorem that an operator delivers something also
    shows that it does not panic on the way. *)

From S2P Require Import Prelude Text Event Stream.

(** ** [map] *)

Section map.
Context {S T U E X : Type} `{Stream S (Event T E)} (f : X → T → U * X).

Record Map : Type := MkMap { map_source : S; map_f : X }.

#[export] Instance Map_poll_next : Stream Map (Event U E) := λ this,
  match poll_next (map_source this) with
  | (Ready (Some (Next v)), s) =>
      let (u, x) := f (map_f this) v in (Ready (Some (Next u)), MkMap s x)
  | (Ready (Some Complete), s) => (Ready (Some Complete), MkMap s (map_f this))
  | (Ready (Some (Error e)), s) => (Ready (Some (Error e)), MkMap s (map_f this))
  | (Ready None, s) => (Ready None, MkMap s (map_f this))
  | (Pending, s) => (Pending, MkMap s (map_f this))
  end.

#[export] Program Instance Map_sized `{!Sized S (Event T E)} : Sized Map (Event U E) := {
  stream_size this := stream_size (map_source this)
}.
Next Obligation.
  intros ? [s x]; unfold poll_next, Map_poll_next; simpl.
  case_poll s; repeat case_match; simplify_eq/=; solve_size.
Qed.
Next Obligation.
  intros ? [s x] a o'; unfold poll_next, Map_poll_next; simpl.
  case_poll s; repeat case_match; intros; simplify_eq/=; solve_size.
Qed.

(** The closure applied along a list, its state threaded. *)
Fixpoint map_state (x : X) (vs : list T) : list U :=
  match vs with
  | [] => []
  | v :: vs' => let (u, x') := f x v in u :: map_state x' vs'
  end.
End map.

(** ** [map_err] *)

Section map_err.
Context {S T E E2 X : Type} `{Stream S (Event T E)} (f : X → E → E2 * X).

Record MapErr : Type := MkMapErr { map_err_source : S; map_err_f : X }.

#[export] Instance MapErr_poll_next : Stream MapErr (Event T E2) := λ this,
  match poll_next (map_err_source this) with
  | (Ready (Some (Next v)), s) => (Ready (Some (Next v)), MkMapErr s (map_err_f this))
  | (Ready (Some (Error (Business e))), s) =>
      let (e2, x) := f (map_err_f this) e in (Ready (Some (Error (Business e2))), MkMapErr s x)
  | (Ready (Some (Error (Technical e))), s) =>
      (Ready (Some (Error (Technical e))), MkMapErr s (map_err_f this))
  | (Ready (Some (Error Empty)), s) => (Ready (Some (Error Empty)), MkMapErr s (map_err_f this))
  | (Ready (Some Complete), s) => (Ready (Some Complete), MkMapErr s (map_err_f this))
  | (Ready None, s) => (Ready None, MkMapErr s (map_err_f this))
  | (Pending, s) => (Pending, MkMapErr s (map_err_f this))
  end.
End map_err.

(** ** [scan] *)

Section scan.
Context {S T U E X : Type} `{Stream S (Event T E)} (f : X → U → T → U * X).

Record Scan : Type := MkScan { scan_source : S; scan_f : X; scan_acc : option U }.

#[export] Instance Scan_poll_next : Stream Scan (Event U E) := λ this,
  match poll_next (scan_source this) with
  | (Ready (Some (Next v)), s) =>
      match scan_acc this with
      | Some acc =>
          let (next, x) := f (scan_f this) acc v in
          (Ready (Some (Next next)), MkScan s x (Some next))
      | None => (Pending, this)
      end
  | (Ready (Some Complete), s) => (Ready (Some Complete), MkScan s (scan_f this) (scan_acc this))
  | (Ready (Some (Error e)), s) => (Ready (Some (Error e)), MkScan s (scan_f this) (scan_acc this))
  | (Ready None, s) => (Ready None, MkScan s (scan_f this) (scan_acc this))
  | (Pending, s) => (Pending, MkScan s (scan_f this) (scan_acc this))
  end.

(** The running accumulator: a fold that keeps its intermediate results. *)
Fixpoint scan_state (x : X) (acc : U) (vs : list T) : list U :=
  match vs with
  | [] => []
  | v :: vs' => let (next, x') := f x acc v in next :: scan_state x' next vs'
  end.
End scan.

(** An ending with its error channel rewritten. *)
Definition lift_end {T U E E2} (g : ObservableError E → ObservableError E2) (ev : Event T E)
    : option (Event U E2) :=
  match ev with
  | Next _ => None
  | Complete => Some Complete
  | Error e => Some (Error (g e))
  end.

Section transforming_facts.
Context {S T E : Type} `{Stream S (Event T E)}.
Implicit Types (s : S) (vs : list T) (fin : list (Event T E)).

Lemma map_yields {U X} (f : X → T → U * X) s x vs fin : ending fin →
  yields s (map Next vs ++ fin) →
  yields (H:=Map_poll_next f) (MkMap s x)
    (map Next (map_state f x vs) ++ omap (lift_end id) fin).
Proof.
  intros Hf Hy. remember (map Next vs ++ fin) as l eqn:Hl. revert x vs fin Hf Hl.
  induction Hy as [s s1 Hp|s s1 l Hp Hy IH|s s1 ev l Hp Hy IH]; intros x vs fin Hf Hl.
  - destruct vs; [|done]. simpl in Hl. subst fin. op_step @Map_poll_next.
  - op_step @Map_poll_next. by apply IH.
  - destruct vs as [|v vs]; simplify_eq/=.
    + inversion Hf; simplify_eq. destruct ev; [done|..];
        (op_step @Map_poll_next; apply (IH x [] [] ending_closed eq_refl)).
    + destruct (f x v) as [u x'] eqn:Hfv. op_step @Map_poll_next. by apply IH.
Qed.

Lemma scan_yields {U X} (f : X → U → T → U * X) s x acc vs fin : ending fin →
  yields s (map Next vs ++ fin) →
  yields (H:=Scan_poll_next f) (MkScan s x (Some acc))
    (map Next (scan_state f x acc vs) ++ omap (lift_end id) fin).
Proof.
  intros Hf Hy. remember (map Next vs ++ fin) as l eqn:Hl. revert x acc vs fin Hf Hl.
  induction Hy as [s s1 Hp|s s1 l Hp Hy IH|s s1 ev l Hp Hy IH]; intros x acc vs fin Hf Hl.
  - destruct vs; [|done]. simpl in Hl. subst fin. op_step @Scan_poll_next.
  - op_step @Scan_poll_next. by apply IH.
  - destruct vs as [|v vs]; simplify_eq/=.
    + inversion Hf; simplify_eq. destruct ev; [done|..];
        (op_step @Scan_poll_next; apply (IH x acc [] [] ending_closed eq_refl)).
    + destruct (f x acc v) as [u x'] eqn:Hfv. op_step @Scan_poll_next. by apply IH.
Qed.

(** The business error rewritten, the others as they are. *)
Definition remap {E2} (f : E → E2) (e : ObservableError E) : ObservableError E2 :=
  match e with
  | Business e => Business (f e)
  | Technical e => Technical e
  | Empty => Empty
  end.

Lemma map_err_yields {E2} (f : E → E2) s vs fin : ending fin →
  yields s (map Next vs ++ fin) →
  yields (H:=MapErr_poll_next (λ x e, (f e, x))) (MkMapErr s tt)
    (map Next vs ++ omap (lift_end (remap f)) fin).
Proof.
  intros Hf Hy. remember (map Next vs ++ fin) as l eqn:Hl. revert vs fin Hf Hl.
  induction Hy as [s s1 Hp|s s1 l Hp Hy IH|s s1 ev l Hp Hy IH]; intros vs fin Hf Hl.
  - destruct vs; [|done]. simpl in Hl. subst fin. op_step @MapErr_poll_next.
  - op_step @MapErr_poll_next. by apply IH.
  - destruct vs as [|v vs]; simplify_eq/=.
    + inversion Hf; simplify_eq. destruct ev as [| |[]]; [done|..];
        (op_step @MapErr_poll_next; apply (IH [] [] ending_closed eq_refl)).
    + op_step @MapErr_poll_next. by apply IH.
Qed.

(** [map], [scan] and [map_err] transform what they say and nothing
    else: every value once and in order through the closure (whose captured
    state is threaded), the accumulator never missing, the terminal kept;
    [map_err] rewrites a business error only, never a technical one. *)
Theorem transformers_transform {U X E2} (f : X → T → U * X) (g : X → U → T → U * X) (h : E → E2)
    s x acc vs fin :
  ending fin → yields s (map Next vs ++ fin) →
  yields (H:=Map_poll_next f) (MkMap s x)
    (map Next (map_state f x vs) ++ omap (lift_end id) fin) ∧
  yields (H:=Scan_poll_next g) (MkScan s x (Some acc))
    (map Next (scan_state g x acc vs) ++ omap (lift_end id) fin) ∧
  yields (H:=MapErr_poll_next (λ x e, (h e, x))) (MkMapErr s tt)
    (map Next vs ++ omap (lift_end (remap h)) fin).
Proof.
  intros Hf Hy. split; [by apply map_yields|]. split; [by apply scan_yields|by apply map_err_yields].
Qed.
End transforming_facts.

Lemma transformers_transform_witness :
  yields (H:=Scan_poll_next (λ x acc v, (acc + v, x)))
    (MkScan (MkScript [Ready (Next 1); Ready (Next 2); Pending; Ready (Error (E:=nat) Empty)]) tt (Some 0))
    [Next 1; Next 3; Error Empty].
Proof.
  refine (proj1 (proj2 (transformers_transform (λ x v, (v, x)) (λ x acc v, (acc + v, x))
    (λ e : nat, e) (MkScript [Ready (Next 1); Ready (Next 2); Pending; Ready (Error Empty)])
    tt 0 [1; 2] [Error Empty] _ (script_yields _)))).
  by constructor.
Defined.

(** ** [switch_map] *)

Inductive SourceEnd : Type := SourceCompleted | SourceClosed.

Section switch_map.
(** [O] is the projected stream. *)
Context {S O T U E X : Type} `{Sized S (Event T E)} `{Stream O (Event U E)}.
Context (f : X → T → O * X).

Record SwitchMap : Type := MkSwitchMap {
  sm_source : S;
  sm_f : X;
  sm_projected : option O;
  sm_source_end : option SourceEnd;
  sm_finished : bool
}.

Definition switch_map_new (s : S) (x : X) : SwitchMap := MkSwitchMap s x None None false.

Abbreviation sm_answer := (SwitchMap + (poll (option (Event U E)) * SwitchMap))%type.

(** The active projected stream is polled first. *)
Definition sm_poll_projected (this : SwitchMap) : sm_answer :=
  match sm_projected this with
  | Some p =>
      match poll_next p with
      | (Ready (Some (Next u)), p') =>
          inr (Ready (Some (Next u)),
               MkSwitchMap (sm_source this) (sm_f this) (Some p') (sm_source_end this) (sm_finished this))
      | (Ready (Some (Error e)), p') =>
          inr (Ready (Some (Error e)),
               MkSwitchMap (sm_source this) (sm_f this) (Some p') (sm_source_end this) true)
      | (Ready (Some Complete), _) | (Ready None, _) =>
          inl (MkSwitchMap (sm_source this) (sm_f this) None (sm_source_end this) (sm_finished this))
      | (Pending, p') =>
          inl (MkSwitchMap (sm_source this) (sm_f this) (Some p') (sm_source_end this) (sm_finished this))
      end
  | None => inl this
  end.

(** Then the source, or the end it left behind. *)
Definition sm_poll_source (this : SwitchMap) : sm_answer :=
  match sm_source_end this with
  | Some e =>
      match sm_projected this with
      | None =>
          inr (match e with SourceCompleted => Ready (Some Complete) | SourceClosed => Ready None end,
               MkSwitchMap (sm_source this) (sm_f this) None (Some e) true)
      | Some _ => inr (Pending, this)
      end
  | None =>
      match poll_next (sm_source this) with
      | (Ready (Some (Next v)), s) =>
          let (p, x) := f (sm_f this) v in
          inl (MkSwitchMap s x (Some p) None (sm_finished this))
      | (Ready (Some Complete), s) =>
          inl (MkSwitchMap s (sm_f this) (sm_projected this) (Some SourceCompleted) (sm_finished this))
      | (Ready (Some (Error e)), s) =>
          inr (Ready (Some (Error e)), MkSwitchMap s (sm_f this) (sm_projected this) None true)
      | (Ready None, s) =>
          inl (MkSwitchMap s (sm_f this) (sm_projected this) (Some SourceClosed) (sm_finished this))
      | (Pending, s) =>
          inr (Pending, MkSwitchMap s (sm_f this) (sm_projected this) None (sm_finished this))
      end
  end.

Definition SwitchMap_body (this : SwitchMap) : sm_answer :=
  if sm_finished this then inr (Ready None, this)
  else match sm_poll_projected this with
       | inr r => inr r
       | inl this' => sm_poll_source this'
       end.

Definition SwitchMap_measure (this : SwitchMap) : nat :=
  stream_size (sm_source this) + match sm_source_end this with None => 1 | Some _ => 0 end.

#[export] Instance SwitchMap_poll_next : Stream SwitchMap (Event U E) :=
  rust_loop SwitchMap_body SwitchMap_measure (λ this, (Pending, this)).

Lemma SwitchMap_decreases o o' :
  SwitchMap_body o = inl o' → SwitchMap_measure o' < SwitchMap_measure o.
Proof.
  destruct o as [s x p e fin]. unfold SwitchMap_body, SwitchMap_measure, sm_poll_projected; simpl.
  destruct fin; [done|].
  assert (Hsrc : ∀ p', sm_poll_source (MkSwitchMap s x p' e false) = inl o' →
    stream_size (sm_source o') + match sm_source_end o' with None => 1 | Some _ => 0 end <
    stream_size s + match e with None => 1 | Some _ => 0 end).
  { intros p'. unfold sm_poll_source; simpl. destruct e; [by destruct p'|].
    case_poll s; intros; repeat case_match; simplify_eq/=; solve_size. }
  destruct p as [p|]; [|apply Hsrc]. case_poll p; [apply Hsrc| |apply Hsrc].
  destruct ev; [done|apply Hsrc|done].
Qed.

(** *** Draining the projected stream *)

(** What the pipeline forwards of a projected stream: its values up to its
    terminal; [true] when an error ended the pipeline. *)
Fixpoint projected_part (l : list (Event U E)) : list (Event U E) * bool :=
  match l with
  | Next u :: l' => let (out, stop) := projected_part l' in (Next u :: out, stop)
  | Error e :: _ => ([Error e], true)
  | Complete :: _ | [] => ([], false)
  end.

Lemma sm_over s x p e : yields (MkSwitchMap s x p e true) [].
Proof. eapply (loop_end _ _ SwitchMap_decreases). reflexivity. Qed.

(** A projected stream that never waits is drained before the source is read
    again, whether the source has ended or not. *)
Lemma sm_prompt s x p e l rest : prompt p l →
  (∀ x', x' = x → yields (MkSwitchMap s x' None e false) rest) →
  yields (MkSwitchMap s x (Some p) e false)
    (let (out, stop) := projected_part l in if stop then out else out ++ rest).
Proof.
  intros Hp Hrest. specialize (Hrest x eq_refl).
  assert (Hdrop : ∀ p0 r p1, poll_next p0 = (r, p1) → r = Ready None ∨ r = Ready (Some Complete) →
    yields (MkSwitchMap s x (Some p0) e false) rest).
  { intros p0 r p1 Hq Hr. eapply yields_same_poll; [|exact Hrest].
    unfold poll_next, SwitchMap_poll_next. rewrite !rust_loop_unfold by apply SwitchMap_decreases.
    unfold SwitchMap_body, sm_poll_projected; simpl. rewrite Hq. by destruct Hr; subst r. }
  induction Hp as [p p1 Hq|p p1 ev l Hq Hp IH]; simpl; [eapply Hdrop; eauto|].
  destruct ev as [u| |err].
  - destruct (projected_part l) as [out stop] eqn:Hl.
    assert (Hbody : SwitchMap_body (MkSwitchMap s x (Some p) e false) =
      inr (Ready (Some (Next u)), MkSwitchMap s x (Some p1) e false)).
    { unfold SwitchMap_body, sm_poll_projected; simpl. by rewrite Hq. }
    destruct stop; eapply (loop_item _ _ SwitchMap_decreases); eauto.
  - eapply Hdrop; eauto.
  - eapply (loop_item _ _ SwitchMap_decreases); [|apply sm_over].
    unfold SwitchMap_body, sm_poll_projected; simpl. by rewrite Hq.
Qed.

(** Once the source has ended, the last projected stream is awaited. *)
Lemma sm_drain s x p e l : yields p l →
  yields (MkSwitchMap s x (Some p) (Some e) false)
    (let (out, stop) := projected_part l in
     if stop then out
     else out ++ match e with SourceCompleted => [Complete] | SourceClosed => [] end).
Proof.
  assert (Hend : ∀ p0 r p1, poll_next p0 = (r, p1) → r = Ready None ∨ r = Ready (Some Complete) →
    yields (MkSwitchMap s x (Some p0) (Some e) false)
      match e with SourceCompleted => [Complete] | SourceClosed => [] end).
  { intros p0 r p1 Hq Hr.
    assert (Hbody : SwitchMap_body (MkSwitchMap s x (Some p0) (Some e) false) =
      inr (match e with SourceCompleted => Ready (Some Complete) | SourceClosed => Ready None end,
           MkSwitchMap s x None (Some e) true)).
    { unfold SwitchMap_body, sm_poll_projected, sm_poll_source; simpl. rewrite Hq.
      by destruct Hr; subst r. }
    destruct e.
    - eapply (loop_item _ _ SwitchMap_decreases); [done|apply sm_over].
    - by eapply (loop_end _ _ SwitchMap_decreases). }
  induction 1 as [p p1 Hq|p p1 l Hq Hp IH|p p1 ev l Hq Hp IH]; simpl; [eapply Hend; eauto| |].
  - eapply (loop_pending _ _ SwitchMap_decreases); [|done].
    unfold SwitchMap_body, sm_poll_projected, sm_poll_source; simpl. by rewrite Hq.
  - destruct ev as [u| |err]; [|eapply Hend; eauto|].
    + destruct (projected_part l) as [out stop] eqn:Hl.
      assert (Hbody : SwitchMap_body (MkSwitchMap s x (Some p) (Some e) false) =
        inr (Ready (Some (Next u)), MkSwitchMap s x (Some p1) (Some e) false)).
      { unfold SwitchMap_body, sm_poll_projected; simpl. by rewrite Hq. }
      destruct stop; eapply (loop_item _ _ SwitchMap_decreases); eauto.
    + eapply (loop_item _ _ SwitchMap_decreases); [|apply sm_over].
      unfold SwitchMap_body, sm_poll_projected; simpl. by rewrite Hq.
Qed.

(** The source's own end, once no projected stream is left. *)
Definition end_events (e : SourceEnd) : list (Event U E) :=
  match e with SourceCompleted => [Complete] | SourceClosed => [] end.

Lemma sm_end s x e : yields (MkSwitchMap s x None (Some e) false) (end_events e).
Proof.
  destruct e.
  - eapply (loop_item _ _ SwitchMap_decreases); [reflexivity|apply sm_over].
  - by eapply (loop_end _ _ SwitchMap_decreases).
Qed.

(** The answer of a source that is over. *)
Definition end_answer (e : SourceEnd) : option (Event T E) :=
  match e with SourceCompleted => Some Complete | SourceClosed => None end.

Lemma sm_read_end s s1 x p e : poll_next s = (Ready (end_answer e), s1) →
  sm_poll_source (MkSwitchMap s x p None false) = inl (MkSwitchMap s1 x p (Some e) false).
Proof. intros Hs. unfold sm_poll_source; simpl. rewrite Hs. by destruct e. Qed.

(** The source is at its end while the last projected stream runs. *)
Lemma sm_last s s1 x p e l : poll_next s = (Ready (end_answer e), s1) → yields p l →
  yields (MkSwitchMap s x (Some p) None false)
    (let (out, stop) := projected_part l in if stop then out else out ++ end_events e).
Proof.
  intros Hs.
  assert (Hend : ∀ p0 r p1, poll_next p0 = (r, p1) → r = Ready None ∨ r = Ready (Some Complete) →
    yields (MkSwitchMap s x (Some p0) None false) (end_events e)).
  { intros p0 r p1 Hq Hr. eapply (loop_skip _ _ SwitchMap_decreases); [|apply sm_end].
    unfold SwitchMap_body, sm_poll_projected; simpl. rewrite Hq.
    destruct Hr; subst r; by apply sm_read_end. }
  induction 1 as [p p1 Hq|p p1 l Hq Hp IH|p p1 ev l Hq Hp IH]; simpl; [eapply Hend; eauto| |].
  - eapply (loop_skip _ _ SwitchMap_decreases); [|by apply sm_drain].
    unfold SwitchMap_body, sm_poll_projected; simpl. rewrite Hq. by apply sm_read_end.
  - destruct ev as [u| |err]; [|eapply Hend; eauto|].
    + destruct (projected_part l) as [out stop] eqn:Hl.
      assert (Hbody : SwitchMap_body (MkSwitchMap s x (Some p) None false) =
        inr (Ready (Some (Next u)), MkSwitchMap s x (Some p1) None false)).
      { unfold SwitchMap_body, sm_poll_projected; simpl. by rewrite Hq. }
      destruct stop; eapply (loop_item _ _ SwitchMap_decreases); eauto.
    + eapply (loop_item _ _ SwitchMap_decreases); [|apply sm_over].
      unfold SwitchMap_body, sm_poll_projected; simpl. by rewrite Hq.
Qed.
End switch_map.

Section switch_map_facts.
Context {S O T U E : Type} `{Sized S (Event T E)} `{Stream O (Event U E)}.
Context (proj : T → O).
Let f : unit → T → O * unit := λ x v, (proj v, x).
#[local] Existing Instance SwitchMap_poll_next.

Abbreviation switched s := (switch_map_new (O:=O) s tt).
Abbreviation yields_switched := (yields (H:=SwitchMap_poll_next (T:=T) (E:=E) f)).

(** A source value replaces the stream in flight, or starts the first. *)
Lemma sm_switch (s s1 : S) v p l :
  poll_next s = (Ready (Some (Next v)), s1) →
  match p with Some q => ∃ q', poll_next q = (Pending, q') | None => True end →
  yields_switched (MkSwitchMap s1 tt (Some (proj v)) None false) l →
  yields_switched (MkSwitchMap s tt p None false) l.
Proof.
  intros Hs Hq. apply (loop_skip _ _ (SwitchMap_decreases f)).
  unfold SwitchMap_body, sm_poll_projected, sm_poll_source; simpl.
  destruct p as [q|]; [destruct Hq as [q' ->]|]; simpl; by rewrite Hs.
Qed.

Lemma sm_waiting_chain (s : S) vs v e l p :
  prompt s (map Next vs ++ Next v :: match end_answer e with Some ev => [ev] | None => [] end) →
  match p with Some q => ∃ q', poll_next q = (Pending, q') | None => True end →
  (∀ w, w ∈ vs → ∃ q', poll_next (proj w) = (Pending, q')) →
  yields (proj v) l →
  yields_switched (MkSwitchMap s tt p None false)
    (let (out, stop) := projected_part l in if stop then out else out ++ end_events e).
Proof.
  intros Hpr Hp Hw Hl. revert s p Hpr Hp.
  induction vs as [|w vs IH]; intros s p Hpr Hp; inversion Hpr as [|? s' ? ? Hs Hpr']; subst.
  - eapply sm_switch; [done..|].
    assert (∃ s'', poll_next s' = (Ready (end_answer (T:=T) (E:=E) e), s'')) as [s'' Hend].
    { destruct e; inversion Hpr'; subst; eauto. }
    by eapply sm_last.
  - eapply sm_switch; [done..|]. eapply IH; [|done|]; [intros; apply Hw; set_solver|].
    apply Hw. set_solver.
Qed.

(** What [switch_map] emits when every projected stream is ready at once. *)
Fixpoint switch_out (inner : T → list (Event U E)) (vs : list T) (fin : list (Event U E))
    : list (Event U E) :=
  match vs with
  | [] => fin
  | v :: vs' =>
      let (out, stop) := projected_part (inner v) in
      if stop then out else out ++ switch_out inner vs' fin
  end.

Lemma switch_map_concat (s : S) inner vs fin : ending fin →
  (∀ v, v ∈ vs → prompt (proj v) (inner v)) →
  yields s (map Next vs ++ fin) →
  yields_switched (switched s) (switch_out inner vs (omap (lift_end id) fin)).
Proof.
  intros Hf Hin Hy. remember (map Next vs ++ fin) as l eqn:Hl. revert vs fin Hf Hin Hl.
  assert (Hdec := SwitchMap_decreases f (S:=S) (E:=E)).
  induction Hy as [s s1 Hp|s s1 l Hp Hy IH|s s1 ev l Hp Hy IH]; intros vs fin Hf Hin Hl.
  - destruct vs; [|done]. simpl in Hl. subst fin.
    eapply (loop_skip _ _ Hdec); [|apply (sm_end f s1 tt SourceClosed)].
    by apply (sm_read_end f s s1 tt None SourceClosed).
  - eapply (loop_pending _ _ Hdec); [|by apply (IH vs fin)].
    unfold SwitchMap_body, sm_poll_projected, sm_poll_source; simpl. by rewrite Hp.
  - destruct vs as [|v vs]; simplify_eq/=.
    + inversion Hf; simplify_eq. destruct ev as [| |err]; [done|..]; simpl.
      * eapply (loop_skip _ _ Hdec); [|apply (sm_end f s1 tt SourceCompleted)].
        by apply (sm_read_end f s s1 tt None SourceCompleted).
      * eapply (loop_item _ _ Hdec); [|apply sm_over].
        unfold SwitchMap_body, sm_poll_projected, sm_poll_source; simpl. by rewrite Hp.
    + eapply sm_switch; [done|done|]. apply sm_prompt; [apply Hin; set_solver|].
      intros ? ->. apply IH; [done| |done]. intros; apply Hin; set_solver.
Qed.

(** [switch_map] emits from the latest projection.  When the source runs
    ahead of projected streams that are still waiting, only the last one is
    heard, to its very end: the source's completion waits for it, and an
    error of it ends the pipeline.  When every projected stream is ready at
    once, none of its values is lost: they come out one projection after the
    other, and then the source's own end. *)
Theorem switch_map_follows_latest (s : S) vs v e l inner fin :
  (prompt s (map Next vs ++ Next v :: match end_answer e with Some ev => [ev] | None => [] end) →
   (∀ w, w ∈ vs → ∃ q', poll_next (proj w) = (Pending, q')) →
   yields (proj v) l →
   yields_switched (switched s)
     (let (out, stop) := projected_part l in if stop then out else out ++ end_events e)) ∧
  (ending fin → (∀ v, v ∈ vs → prompt (proj v) (inner v)) →
   yields s (map Next vs ++ fin) →
   yields_switched (switched s) (switch_out inner vs (omap (lift_end id) fin))).
Proof. split; [by intros; eapply sm_waiting_chain|by intros; apply switch_map_concat]. Qed.
End switch_map_facts.

Lemma switch_map_follows_latest_witness :
  let proj (v : nat) := MkScript [Pending; Ready (Next (v * 10)); Pending; Ready (Next (E:=nat) v)] in
  yields (H:=SwitchMap_poll_next (T:=nat) (E:=nat) (λ x v, (proj v, x)))
    (switch_map_new (MkScript [Ready (Next 1); Ready (Next 2); Ready Complete]) tt)
    [Next 20; Next 2; Complete].
Proof.
  intros proj.
  refine (proj1 (switch_map_follows_latest proj
    (MkScript [Ready (Next 1); Ready (Next 2); Ready Complete]) [1] 2 SourceCompleted
    [Next 20; Next 2] (λ _, []) []) _ _ _).
  - repeat (eapply prompt_item; [reflexivity|]). by eapply prompt_end.
  - intros w Hw. eexists. reflexivity.
  - apply (script_yields [Pending; Ready (Next 20); Pending; Ready (Next 2)]).
Defined.
