(* ===== verification/Combining.v ===== *)
(** * Combining operators ([ice-rpc-rx/src/transform/combining.rs])

    [start_with] and [merge]. *)

From S2P Require Import Prelude Text Event Stream.

(** ** [start_with] *)

Section start_with.
Context {S T E : Type} `{Stream S (Event T E)}.

Record StartWith : Type := MkStartWith { start_source : S; start_first : option T }.

#[export] Instance StartWith_poll_next : Stream StartWith (Event T E) := λ this,
  match start_first this with
  | Some value => (Ready (Some (Next value)), MkStartWith (start_source this) None)
  | None => let (r, s) := poll_next (start_source this) in (r, MkStartWith s None)
  end.

Lemma start_with_yields s v l : yields s l → yields (MkStartWith s (Some v)) (Next v :: l).
Proof.
  intros Hy. eapply yields_item; [reflexivity|].
  induction Hy; op_step @StartWith_poll_next; done.
Qed.
End start_with.

(** ** [merge] *)

Section merge.
Context {A B T E : Type} `{Stream A (Event T E)} `{Stream B (Event T E)}.

Record Merge : Type := MkMerge {
  m_left : A;
  m_right : B;
  m_left_done : bool;
  m_right_done : bool;
  m_completed : bool;
  m_left_first : bool
}.

Definition merge_new (left : A) (right : B) : Merge := MkMerge left right false false false true.

Abbreviation m_answer := (Merge + (poll (option (Event T E)) * Merge))%type.

(** One pass of the [for left in ..] loop: [inl] goes on to the next side. *)
Definition merge_side (left : bool) (this : Merge) : m_answer :=
  let '(MkMerge a b ld rd c lf) := this in
  if left then
    if ld then inl this
    else match poll_next a with
         | (Ready (Some (Next v)), a') => inr (Ready (Some (Next v)), MkMerge a' b ld rd c lf)
         | (Ready (Some (Error e)), a') => inr (Ready (Some (Error e)), MkMerge a' b ld rd true lf)
         | (Ready (Some Complete), a') | (Ready None, a') => inl (MkMerge a' b true rd c lf)
         | (Pending, a') => inl (MkMerge a' b ld rd c lf)
         end
  else
    if rd then inl this
    else match poll_next b with
         | (Ready (Some (Next v)), b') => inr (Ready (Some (Next v)), MkMerge a b' ld rd c lf)
         | (Ready (Some (Error e)), b') => inr (Ready (Some (Error e)), MkMerge a b' ld rd true lf)
         | (Ready (Some Complete), b') | (Ready None, b') => inl (MkMerge a b' ld true c lf)
         | (Pending, b') => inl (MkMerge a b' ld rd c lf)
         end.

Definition both_done (this : Merge) : bool := m_left_done this && m_right_done this.

Definition set_left_first (this : Merge) (lf : bool) : Merge :=
  MkMerge (m_left this) (m_right this) (m_left_done this) (m_right_done this) (m_completed this) lf.

Definition Merge_body (this : Merge) : m_answer :=
  if m_completed this then inr (Ready None, this)
  else if both_done this then
    inr (Ready (Some Complete),
         MkMerge (m_left this) (m_right this) (m_left_done this) (m_right_done this) true
           (m_left_first this))
  else
    let left_first := m_left_first this in
    match merge_side left_first (set_left_first this (negb left_first)) with
    | inr r => inr r
    | inl this =>
        match merge_side (negb left_first) this with
        | inr r => inr r
        | inl this => if both_done this then inl this else inr (Pending, this)
        end
    end.

Definition Merge_measure (this : Merge) : nat := if both_done this then 0 else 1.

#[export] Instance Merge_poll_next : Stream Merge (Event T E) :=
  rust_loop Merge_body Merge_measure (λ this, (Pending, this)).

Lemma Merge_decreases o o' : Merge_body o = inl o' → Merge_measure o' < Merge_measure o.
Proof.
  unfold Merge_body, Merge_measure. destruct (m_completed o); [done|].
  destruct (both_done o); [done|].
  destruct (merge_side _ (set_left_first _ _)) as [o1|]; [|done].
  destruct (merge_side _ o1) as [o2|]; [|done].
  destruct (both_done o2) eqn:Hb; [|done]. intros; simplify_eq. rewrite Hb. lia.
Qed.

(** *** What a merge may deliver *)

(** [merged l r out]: [out] interleaves the values of [l] and [r], each in
    its own order, and ends with one [Complete] once both are over, or with
    the first error of either. *)
Inductive merged : list (Event T E) → list (Event T E) → list (Event T E) → Prop :=
| merged_over : merged [] [] [Complete]
| merged_left v l r out : merged l r out → merged (Next v :: l) r (Next v :: out)
| merged_right v l r out : merged l r out → merged l (Next v :: r) (Next v :: out)
| merged_left_end l r out : merged [] r out → merged (Complete :: l) r out
| merged_right_end l r out : merged l [] out → merged l (Complete :: r) out
| merged_left_error e l r : merged (Error e :: l) r [Error e]
| merged_right_error e l r : merged l (Error e :: r) [Error e].

(** [yields], with the number of polls. *)
Inductive yields_in {Src V} `{Stream Src V} : nat → Src → list V → Prop :=
| yields_in_end s s1 : poll_next s = (Ready None, s1) → yields_in 1 s []
| yields_in_pending n s s1 l :
    poll_next s = (Pending, s1) → yields_in n s1 l → yields_in (S n) s l
| yields_in_item n s s1 a l :
    poll_next s = (Ready (Some a), s1) → yields_in n s1 l → yields_in (S n) s (a :: l).

Lemma yields_count {Src V} `{Stream Src V} (s : Src) l : yields s l → ∃ n, yields_in n s l.
Proof.
  induction 1 as [|? ? ? ? ? [n IH]|? ? ? ? ? ? [n IH]]; eexists;
    [by eapply yields_in_end|by eapply yields_in_pending|by eapply yields_in_item].
Qed.

(** One side of the merge: over, or [n] polls away from its end. *)
Definition side {Src} `{Stream Src (Event T E)} (n : nat) (done : bool) (s : Src) (l : list (Event T E))
    : Prop :=
  if done then l = [] else yields_in n s l.

Definition merge_inv (n : nat) (this : Merge) (l r : list (Event T E)) : Prop :=
  m_completed this = false ∧
  ∃ n1 n2, n1 + n2 ≤ n ∧ side n1 (m_left_done this) (m_left this) l ∧
    side n2 (m_right_done this) (m_right this) r.

Definition side_done (left : bool) (this : Merge) : bool :=
  if left then m_left_done this else m_right_done this.

(** What one pass over a side answers: a value of that side, with less left
    to poll, or its error, which ends the merge. *)
Definition answer_spec (n : nat) (l r : list (Event T E))
    (res : poll (option (Event T E)) * Merge) : Prop :=
  match res with
  | (Ready (Some (Next v)), this') => ∃ l' r' n', merge_inv n' this' l' r' ∧ n' < n ∧
      (∀ out, merged l' r' out → merged l r (Next v :: out))
  | (Ready (Some ev), this') => m_completed this' = true ∧ merged l r [ev]
  | _ => False
  end.

(** A pass over one side: it answers, or it moves that side on. *)
Lemma merge_side_spec left this n l r :
  merge_inv n this l r →
  match merge_side left this with
  | inl this' => ∃ l' r' n', merge_inv n' this' l' r' ∧ n' ≤ n ∧
      (side_done left this = false → n' < n) ∧
      side_done (negb left) this' = side_done (negb left) this ∧
      (∀ out, merged l' r' out → merged l r out)
  | inr res => answer_spec n l r res
  end.
Proof.
  destruct this as [a b ld rd c lf]. intros (Hc & n1 & n2 & Hn & Hl & Hr). simpl in *. subst c.
  destruct left; simpl.
  - destruct ld; simpl in *.
    { exists l, r, n. split; [split; [done|by exists n1, n2]|]. done. }
    destruct Hl as [a a1 Hp|k a a1 l Hp Hk|k a a1 ev l Hp Hk]; rewrite Hp.
    + exists [], r, n2. split; [split; [done|by exists 0, n2]|]. split; [lia|]. split; [lia|]. done.
    + exists l, r, (k + n2). split; [split; [done|by exists k, n2]|]. split; [lia|]. split; [lia|]. done.
    + destruct ev as [v| |e].
      * exists l, r, (k + n2). split; [split; [done|by exists k, n2]|]. split; [lia|]. by constructor.
      * exists [], r, n2. split; [split; [done|by exists 0, n2]|]. split; [lia|]. split; [lia|].
        split; [done|]. by constructor.
      * split; [done|]. constructor.
  - destruct rd; simpl in *.
    { exists l, r, n. split; [split; [done|by exists n1, n2]|]. done. }
    destruct Hr as [b b1 Hp|k b b1 r Hp Hk|k b b1 ev r Hp Hk]; rewrite Hp.
    + exists l, [], n1. split; [split; [done|exists n1, 0; split; [lia|done]]|].
      split; [lia|]. split; [lia|]. done.
    + exists l, r, (n1 + k). split; [split; [done|by exists n1, k]|]. split; [lia|]. split; [lia|]. done.
    + destruct ev as [v| |e].
      * exists l, r, (n1 + k). split; [split; [done|by exists n1, k]|]. split; [lia|]. by constructor.
      * exists l, [], n1. split; [split; [done|exists n1, 0; split; [lia|done]]|].
        split; [lia|]. split; [lia|]. split; [done|]. by constructor.
      * split; [done|]. constructor.
Qed.

Lemma merge_over this : m_completed this = true → yields this [].
Proof. intros Hc. eapply (loop_end _ _ Merge_decreases). unfold Merge_body. by rewrite Hc. Qed.

Lemma merge_last this : m_completed this = false → both_done this = true → yields this [Complete].
Proof.
  intros Hc Hb. eapply (loop_item _ _ Merge_decreases); [unfold Merge_body; by rewrite Hc, Hb|].
  by apply merge_over.
Qed.

(** A poll that answers, given what the rest of the run delivers. *)
Lemma merge_answer n this l r res :
  (∀ m this l r, m < n → merge_inv m this l r → ∃ out, merged l r out ∧ yields this out) →
  Merge_body this = inr res → answer_spec n l r res → ∃ out, merged l r out ∧ yields this out.
Proof.
  intros IH Hb Hs. destruct res as [[|[ev|]] o]; [done| |done].
  assert (Hend : is_terminal ev = true → m_completed o = true ∧ merged l r [ev] →
    ∃ out, merged l r out ∧ yields this out).
  { intros Ht [Hc Hm]. exists [ev]. split; [done|].
    eapply (loop_item _ _ Merge_decreases); [done|by apply merge_over]. }
  destruct ev as [v| |e]; [|by apply Hend..].
  destruct Hs as (l' & r' & n' & Hinv & Hn & Hm).
  destruct (IH n' _ _ _ Hn Hinv) as (out & Hout & Hy).
  exists (Next v :: out). split; [by apply Hm|]. by eapply (loop_item _ _ Merge_decreases).
Qed.

Lemma answer_spec_mono n m l r l' r' res : m ≤ n → (∀ out, merged l' r' out → merged l r out) →
  answer_spec m l' r' res → answer_spec n l r res.
Proof.
  intros Hn Hm. destruct res as [[|[[v| |e]|]] o]; simpl; try done.
  2,3: by intros [? ?]; eauto.
  intros (l1 & r1 & n1 & Hinv & Hlt & H1). exists l1, r1, n1. split; [done|]. split; [lia|]. eauto.
Qed.

Lemma merge_yields n this l r :
  merge_inv n this l r → ∃ out, merged l r out ∧ yields this out.
Proof.
  revert this l r; induction (lt_wf n) as [n _ IH]; intros this l r Hinv.
  pose proof Hinv as (Hc & n1 & n2 & Hn & Hl & Hr).
  destruct (both_done this) eqn:Hb.
  { apply andb_prop in Hb as Hb'. destruct Hb' as [Hld Hrd]. rewrite Hld in Hl. rewrite Hrd in Hr.
    simpl in *. subst. exists [Complete]. split; [constructor|by apply merge_last]. }
  set (this1 := set_left_first this (negb (m_left_first this))).
  assert (Hbody : Merge_body this =
    match merge_side (m_left_first this) this1 with
    | inr r => inr r
    | inl o1 => match merge_side (negb (m_left_first this)) o1 with
                | inr r => inr r
                | inl o2 => if both_done o2 then inl o2 else inr (Pending, o2)
                end
    end) by (unfold Merge_body; by rewrite Hc, Hb).
  assert (IH' : ∀ m this l r, m < n → merge_inv m this l r → ∃ out, merged l r out ∧ yields this out)
    by eauto.
  pose proof (merge_side_spec (m_left_first this) this1 n l r Hinv) as H1.
  destruct (merge_side (m_left_first this) this1) as [o1|res]; [|by eapply merge_answer].
  destruct H1 as (l1 & r1 & m1 & Hinv2 & Hm1 & Hlt1 & Hsd & Hmer1).
  pose proof (merge_side_spec (negb (m_left_first this)) o1 m1 l1 r1 Hinv2) as H2.
  destruct (merge_side (negb (m_left_first this)) o1) as [o2|res].
  2: { eapply merge_answer; [done..|]. by eapply answer_spec_mono. }
  destruct H2 as (l2 & r2 & m2 & Hinv3 & Hm2 & Hlt2 & Hsd2 & Hmer2).
  assert (m2 < n).
  { apply andb_false_iff in Hb.
    assert (side_done (m_left_first this) this1 = false ∨
            side_done (negb (m_left_first this)) o1 = false) as [Hs|Hs].
    { rewrite Hsd. unfold side_done, this1. destruct (m_left_first this); simpl; tauto. }
    - specialize (Hlt1 Hs). lia.
    - specialize (Hlt2 Hs). lia. }
  destruct (IH' m2 _ _ _ ltac:(done) Hinv3) as (out & Hout & Hy).
  exists out. split; [by apply Hmer1, Hmer2|].
  destruct (both_done o2).
  - by eapply (loop_skip _ _ Merge_decreases).
  - by eapply (loop_pending _ _ Merge_decreases).
Qed.

(** The two orders in which a poll may hear the sides when both have a value. *)
Lemma merge_both_ready a b va a' vb b' lf :
  poll_next a = (Ready (Some (Next va)), a') → poll_next b = (Ready (Some (Next vb)), b') →
  poll_next (MkMerge a b false false false lf) =
  (Ready (Some (Next (if lf then va else vb))),
   if lf then MkMerge a' b false false false false else MkMerge a b' false false false true).
Proof.
  intros Ha Hb. apply (loop_poll_answer _ _ Merge_decreases).
  unfold Merge_body; simpl. destruct lf; simpl; by rewrite ?Ha, ?Hb.
Qed.

(** [merge] loses nothing and ends once: for any two sources that end,
    whatever their pauses, it delivers an interleaving of their values that
    keeps each source's order, then exactly one [Complete] after the last of
    them is over, or the first error of either; and of two sources that both
    have a value, the one that was not served by a poll is served by the
    next. *)
Theorem merge_interleaves a b l r :
  yields a l → yields b r →
  (∃ out, merged l r out ∧ yields (merge_new a b) out) ∧
  ∀ va a' vb b' lf o,
    poll_next a = (Ready (Some (Next va)), a') → poll_next b = (Ready (Some (Next vb)), b') →
    poll_next (MkMerge a b false false false lf) = (Ready (Some (Next (if lf then va else vb))), o) →
    (∀ wa a'', poll_next (m_left o) = (Ready (Some (Next wa)), a'') →
     ∀ wb b'', poll_next (m_right o) = (Ready (Some (Next wb)), b'') →
     ∃ o', poll_next o = (Ready (Some (Next (if lf then vb else va))), o')).
Proof.
  intros Ha Hb. split.
  - destruct (yields_count _ _ Ha) as [n1 H1]. destruct (yields_count _ _ Hb) as [n2 H2].
    apply (merge_yields (n1 + n2)). split; [done|]. by exists n1, n2.
  - intros va a' vb b' lf o Hpa Hpb Ho wa a'' Hwa wb b'' Hwb.
    rewrite (merge_both_ready _ _ _ _ _ _ _ Hpa Hpb) in Ho. injection Ho as <-.
    destruct lf; simpl in Hwa, Hwb; [rewrite Hpb in Hwb|rewrite Hpa in Hwa];
      simplify_eq; by erewrite merge_both_ready by done; eexists.
Qed.
End merge.

Lemma merge_interleaves_witness :
  ∃ out, merged [Next 1; Complete] [Next 10; Next (E:=nat) 20] out ∧
    yields (merge_new (MkScript [Ready (Next 1); Pending; Ready Complete])
                      (MkScript [Pending; Ready (Next 10); Ready (Next 20)])) out.
Proof.
  refine (proj1 (merge_interleaves (MkScript [Ready (Next 1); Pending; Ready Complete])
    (MkScript [Pending; Ready (Next 10); Ready (Next 20)]) [Next 1; Complete] [Next 10; Next 20] _ _)).
  - apply (script_yields [Ready (Next 1); Pending; Ready Complete]).
  - apply (script_yields [Pending; Ready (Next 10); Ready (Next 20)]).
Defined.
