(* ===== verification/Conditional.v ===== *)
(** * Conditional operators ([ice-rpc-rx/src/transform/conditional.rs])

    [take_until] and [take_until_token].  The token is another thread's to
    cancel: what its successive reads answer is a function of a state [K] the
    operator threads. *)

From S2P Require Import Prelude Text Event Stream.

(** ** [take_until] *)

Section take_until.
(** [N] is the notifier's stream. *)
Context {S N T U E : Type} `{Stream S (Event T E)} `{Stream N (Event U E)}.

Record TakeUntil : Type := MkTakeUntil {
  tu_source : S;
  tu_notifier : option N;
  tu_stopped : bool;
  tu_done : bool
}.

Definition take_until_new (s : S) (n : N) : TakeUntil := MkTakeUntil s (Some n) false false.

(** The notifier is polled first: [inl] goes on with the source. *)
Definition tu_poll_notifier (this : TakeUntil)
    : TakeUntil + (poll (option (Event T E)) * TakeUntil) :=
  match tu_notifier this with
  | Some n =>
      match poll_next n with
      | (Ready (Some (Next _)), _) => inl (MkTakeUntil (tu_source this) None true (tu_done this))
      | (Ready (Some Complete), _) | (Ready None, _) =>
          inl (MkTakeUntil (tu_source this) None (tu_stopped this) (tu_done this))
      | (Ready (Some (Error e)), _) =>
          inr (Ready (Some (Error e)), MkTakeUntil (tu_source this) None (tu_stopped this) true)
      | (Pending, n') =>
          inl (MkTakeUntil (tu_source this) (Some n') (tu_stopped this) (tu_done this))
      end
  | None => inl this
  end.

#[export] Instance TakeUntil_poll_next : Stream TakeUntil (Event T E) := λ this,
  if tu_done this then (Ready None, this)
  else match tu_poll_notifier this with
       | inr r => r
       | inl this =>
           if tu_stopped this then
             (Ready (Some Complete), MkTakeUntil (tu_source this) (tu_notifier this) true true)
           else
             let (r, s) := poll_next (tu_source this) in
             (r, MkTakeUntil s (tu_notifier this) (tu_stopped this) (tu_done this))
       end.

Lemma tu_over s n st : yields (MkTakeUntil s n st true) [].
Proof. by eapply yields_end. Qed.

(** Without a notifier left, the source runs to its own end. *)
Lemma tu_free s l : yields s l → yields (MkTakeUntil s None false false) l.
Proof. induction 1; op_step @TakeUntil_poll_next; done. Qed.

Ltac tu_step :=
  first [ eapply yields_end; unfold poll_next at 1, TakeUntil_poll_next, tu_poll_notifier; scrut; reflexivity
        | eapply yields_pending;
            [unfold poll_next at 1, TakeUntil_poll_next, tu_poll_notifier; scrut; reflexivity|]
        | eapply yields_item;
            [unfold poll_next at 1, TakeUntil_poll_next, tu_poll_notifier; scrut; reflexivity|] ].

(** A notifier that ends without a value changes nothing. *)
Lemma tu_mute s l n ln : yields s l → yields n ln → ln = [] ∨ ln = [Complete] →
  yields (MkTakeUntil s (Some n) false false) l.
Proof.
  intros Hs; revert n ln; induction Hs as [s s1 Hp|s s1 l Hp Hs IH|s s1 ev l Hp Hs IH];
    intros n ln Hn Hln; destruct Hn as [n n1 Hq|n n1 ln Hq Hn|n n1 evn ln Hq Hn];
    try (destruct Hln; simplify_eq); tu_step; eauto using tu_free.
Qed.

Lemma tu_fires s n u n' : poll_next n = (Ready (Some (Next u)), n') →
  yields (MkTakeUntil s (Some n) false false) [Complete].
Proof.
  intros Hn. eapply yields_item; [|apply tu_over].
  unfold poll_next at 1, TakeUntil_poll_next, tu_poll_notifier. by scrut.
Qed.

(** [take_until] stops on the notifier's first value and only then: a
    notifier that has a value ends the stream with [Complete] before the
    source is read, whatever the source would have answered, after any
    prefix; a notifier that ends without a value leaves the source's whole
    sequence untouched; a failing notifier ends the stream with its error. *)
Theorem take_until_contract s n l :
  (∀ u n', poll_next n = (Ready (Some (Next u)), n') →
     yields (take_until_new s n) [Complete]) ∧
  (∀ e n', poll_next n = (Ready (Some (Error e)), n') →
     yields (take_until_new s n) [Error e]) ∧
  (yields s l → yields n [] ∨ yields n [Complete] → yields (take_until_new s n) l).
Proof.
  split; [|split].
  - intros u n' Hn. by eapply tu_fires.
  - intros e n' Hn. eapply yields_item; [|apply tu_over].
    unfold poll_next at 1, TakeUntil_poll_next, take_until_new, tu_poll_notifier. by scrut.
  - intros Hs [Hn|Hn]; eapply tu_mute; eauto.
Qed.
End take_until.

Lemma take_until_contract_witness :
  yields (take_until_new (MkScript [Ready (Next 1); Pending; Ready (Complete (E:=nat))])
           (MkScript [Pending; Ready (Complete (T:=nat) (E:=nat))])) [Next 1; Complete].
Proof.
  apply (take_until_contract (MkScript [Ready (Next 1); Pending; Ready Complete])
    (MkScript [Pending; Ready Complete])).
  - apply (script_yields [Ready (Next 1); Pending; Ready Complete]).
  - right. apply (script_yields [Pending; Ready Complete]).
Defined.

(** ** [take_until_token] *)

Section take_until_token.
Context {S T E K : Type} `{Stream S (Event T E)} (is_cancelled : K → bool * K).

Record TakeUntilToken : Type := MkTakeUntilToken {
  tt_source : S;
  tt_token : K;
  tt_done : bool
}.

Definition take_until_token_new (s : S) (k : K) : TakeUntilToken := MkTakeUntilToken s k false.

#[export] Instance TakeUntilToken_poll_next : Stream TakeUntilToken (Event T E) := λ this,
  if tt_done this then (Ready None, this)
  else
    let (c, k) := is_cancelled (tt_token this) in
    if c then (Ready (Some (Error (Technical Cancelled))), MkTakeUntilToken (tt_source this) k true)
    else let (r, s) := poll_next (tt_source this) in (r, MkTakeUntilToken s k (tt_done this)).

Lemma token_now s k k' : is_cancelled k = (true, k') →
  yields (MkTakeUntilToken s k false) [Error (Technical Cancelled)].
Proof.
  intros Hk. eapply yields_item; [unfold poll_next at 1, TakeUntilToken_poll_next; scrut; reflexivity|].
  by eapply yields_end.
Qed.

(** The prefix of a run that was delivered before the token was seen
    cancelled, followed by the error. *)
Lemma token_run s l k : yields s l →
  ∃ out, yields (MkTakeUntilToken s k false) out ∧
    (out = l ∨ ∃ l1 l2, l = l1 ++ l2 ∧ out = l1 ++ [Error (Technical Cancelled)]).
Proof.
  intros Hy; revert k; induction Hy as [s s1 Hp|s s1 l Hp Hy IH|s s1 ev l Hp Hy IH]; intros k;
    destruct (is_cancelled k) as [c k'] eqn:Hk; destruct c;
    try (eexists; split; [by eapply (token_now _ k k')|right; by eexists [], _]).
  - exists []. split; [|by left]. eapply yields_end.
    unfold poll_next at 1, TakeUntilToken_poll_next. by scrut.
  - destruct (IH k') as (out & Hout & Hspec). exists out. split; [|done].
    eapply yields_pending; [|done]. unfold poll_next at 1, TakeUntilToken_poll_next. by scrut.
  - destruct (IH k') as (out & Hout & Hspec). exists (ev :: out). split.
    + eapply yields_item; [|done]. unfold poll_next at 1, TakeUntilToken_poll_next. by scrut.
    + destruct Hspec as [->|(l1 & l2 & -> & ->)]; [by left|]. right. by exists (ev :: l1), l2.
Qed.

(** [take_until_token] abandons a call at once: a token already
    cancelled ends the stream with [Cancelled] before a single value is read;
    a cancellation at any later moment cuts the source's sequence at a prefix
    followed by that one error, and without one the sequence is untouched. *)
Theorem take_until_token_cuts s l k :
  yields s l →
  (fst (is_cancelled k) = true →
     yields (take_until_token_new s k) [Error (Technical Cancelled)]) ∧
  ∃ out, yields (take_until_token_new s k) out ∧
    (out = l ∨ ∃ l1 l2, l = l1 ++ l2 ∧ out = l1 ++ [Error (Technical Cancelled)]).
Proof.
  intros Hy. split; [|by apply token_run].
  intros Hc. destruct (is_cancelled k) as [c k'] eqn:Hk. simpl in Hc. subst c. by eapply token_now.
Qed.
End take_until_token.

Lemma take_until_token_cuts_witness :
  yields (H:=TakeUntilToken_poll_next (λ k : unit, (true, k)))
    (take_until_token_new (MkScript [Ready (Next (E:=nat) 1)]) tt) [Error (Technical Cancelled)].
Proof.
  refine (proj1 (take_until_token_cuts (λ k, (true, k)) (MkScript [Ready (Next 1)]) [Next 1] tt _) _);
    [|done]. apply (script_yields [Ready (Next 1)]).
Defined.

(** ** Polling past the end

    Neither operator remembers that its source has ended, so a consumer that
    keeps polling after the terminal can be handed a second one. *)

(** A source that completes well, a notifier that fires (a token that is
    cancelled) just after: polled past its terminal, the operator delivers a
    second terminal, and the sequence breaks the stream grammar. *)
Theorem take_until_second_terminal :
  let source := MkScript [Ready (Next 1); Ready (Complete (E:=nat))] in
  let notifier := MkScript [Pending; Pending; Ready (Next (E:=nat) 0)] in
  yields source [Next 1; Complete] ∧
  yields (take_until_new source notifier) [Next 1; Complete; Complete] ∧
  yields (H:=TakeUntilToken_poll_next (λ k, (2 <=? k, Datatypes.S k)))
    (take_until_token_new source 0) [Next 1; Complete; Error (Technical Cancelled)] ∧
  rx_grammar [Next 1; Complete; Complete (E:=nat)] = false ∧
  rx_grammar [Next 1; Complete; Error (E:=nat) (Technical Cancelled)] = false.
Proof.
  intros source notifier. split; [|split; [|split]].
  - repeat (eapply yields_item; [reflexivity|]). by eapply yields_end.
  - repeat (eapply yields_item; [reflexivity|]). by eapply yields_end.
  - repeat (eapply yields_item; [reflexivity|]). by eapply yields_end.
  - done.
Qed.
