(* ===== verification/ErrorHandling.v ===== *)
(** * Error handling operators ([ice-rpc-rx/src/transform/error_handling.rs])

    [catch_error] and [retry_with].  A failed [expect] is a poll that never
    answers.  Timers belong to the runtime: what [rt::sleep] returns and how it
    answers its polls are parameters. *)

From S2P Require Import Prelude Text Event Stream.

(** A sequence up to and including its first terminal. *)
Fixpoint until_terminal {T E} (l : list (Event T E)) : list (Event T E) :=
  match l with
  | [] => []
  | ev :: l' => if is_terminal ev then [ev] else ev :: until_terminal l'
  end.

(** ** [catch_error] *)

Section catch_error.
(** [R] is the recovery stream; the selector is consumed by its call. *)
Context {S R T E : Type} `{Stream S (Event T E)} `{Stream R (Event T E)}.

Record CatchError : Type := MkCatchError {
  ce_source : S;
  ce_f : option (E → R);
  ce_recovery : option R;
  ce_finished : bool
}.

Definition catch_error_new (s : S) (f : E → R) : CatchError := MkCatchError s (Some f) None false.

Abbreviation ce_answer := (CatchError + (poll (option (Event T E)) * CatchError))%type.

Definition CatchError_body (this : CatchError) : ce_answer :=
  if ce_finished this then inr (Ready None, this)
  else
    match ce_recovery this with
    | Some r =>
        match poll_next r with
        | (Ready (Some event), r') =>
            inr (Ready (Some event),
                 MkCatchError (ce_source this) (ce_f this) (Some r')
                   (if is_terminal event then true else ce_finished this))
        | (Ready None, r') =>
            inr (Ready None, MkCatchError (ce_source this) (ce_f this) (Some r') true)
        | (Pending, r') =>
            inr (Pending, MkCatchError (ce_source this) (ce_f this) (Some r') (ce_finished this))
        end
    | None =>
        match poll_next (ce_source this) with
        | (Ready (Some (Next v)), s) =>
            inr (Ready (Some (Next v)), MkCatchError s (ce_f this) None (ce_finished this))
        | (Ready (Some (Error (Business e))), s) =>
            match ce_f this with
            | Some f => inl (MkCatchError s None (Some (f e)) (ce_finished this))
            | None => inr (Pending, this)
            end
        | (Ready (Some (Error other)), s) =>
            inr (Ready (Some (Error other)), MkCatchError s (ce_f this) None true)
        | (Ready (Some Complete), s) =>
            inr (Ready (Some Complete), MkCatchError s (ce_f this) None true)
        | (Ready None, s) => inr (Ready None, MkCatchError s (ce_f this) None true)
        | (Pending, s) => inr (Pending, MkCatchError s (ce_f this) None (ce_finished this))
        end
    end.

(** A round trip happens once, when the recovery is installed. *)
Definition CatchError_measure (this : CatchError) : nat :=
  match ce_recovery this with Some _ => 0 | None => 1 end.

#[export] Instance CatchError_poll_next : Stream CatchError (Event T E) :=
  rust_loop CatchError_body CatchError_measure (λ this, (Pending, this)).

Lemma CatchError_decreases o o' :
  CatchError_body o = inl o' → CatchError_measure o' < CatchError_measure o.
Proof.
  unfold CatchError_body, CatchError_measure. intros Hb.
  repeat case_match; simplify_eq/=. lia.
Qed.

Ltac ce_step := loop_step @CatchError_body CatchError_decreases.

Lemma ce_over s f r : yields (MkCatchError s f r true) [].
Proof. ce_step. Qed.

Lemma ce_recovering s f r l : yields r l →
  yields (MkCatchError s f (Some r) false) (until_terminal l).
Proof.
  induction 1 as [r r1 Hp|r r1 l Hp Hy IH|r r1 ev l Hp Hy IH]; simpl.
  - ce_step.
  - ce_step. done.
  - destruct (is_terminal ev) eqn:Ht; ce_step; [apply ce_over|done].
Qed.

(** [catch_error] replaces a business failure and nothing else: the
    values before it stay emitted, the recovery stream's events follow up to
    its own terminal, whatever its pauses; a technical error, a completion
    and an abrupt close pass through without the selector being called. *)
Theorem catch_error_recovers s f vs fin l :
  ending fin → yields s (map Next vs ++ fin) →
  (∀ e, fin = [Error (Business e)] → yields (f e) l) →
  yields (catch_error_new s f)
    (map Next vs ++ match fin with [Error (Business _)] => until_terminal l | _ => fin end).
Proof.
  intros Hf Hy. remember (map Next vs ++ fin) as ls eqn:Hl. unfold catch_error_new. revert vs Hl.
  induction Hy as [s s1 Hp|s s1 ls Hp Hy IH|s s1 ev ls Hp Hy IH]; intros vs Hl Hrec.
  - destruct vs; [|done]. simpl in Hl. subst fin. ce_step.
  - ce_step. by apply IH.
  - destruct vs as [|v vs]; simplify_eq/=; [|ce_step; by apply IH].
    inversion Hf; simplify_eq. destruct ev as [| |[e|e|]]; [done|..].
    + ce_step. apply ce_over.
    + ce_step. by apply ce_recovering, (Hrec e).
    + ce_step. apply ce_over.
    + ce_step. apply ce_over.
Qed.
End catch_error.

Lemma catch_error_recovers_witness :
  yields (catch_error_new (MkScript [Ready (Next 1); Ready (Error (Business 4))])
           (λ e, MkScript [Pending; Ready (Next e); Ready Complete])) [Next 1; Next 4; Complete].
Proof.
  apply (catch_error_recovers (MkScript [Ready (Next 1); Ready (Error (Business 4))])
    (λ e, MkScript [Pending; Ready (Next e); Ready Complete]) [1] [Error (Business 4)]
    [Next 4; Complete]).
  - by constructor.
  - apply (script_yields [Ready (Next 1); Ready (Error (Business 4))]).
  - intros e [= <-]. apply (script_yields [Pending; Ready (Next 4); Ready Complete]).
Defined.

(** ** [retry_with] *)

Record RetryPolicy : Type := MkRetryPolicy {
  attempts : nat;
  delay : Z;
  only_retryable : bool
}.

Definition RetryPolicy_default : RetryPolicy := MkRetryPolicy 1 0 false.

Definition should_retry {E} (started : nat) (policy : RetryPolicy) (error : ObservableError E) : bool :=
  if Nat.max (attempts policy) 1 <=? started then false
  else if negb (only_retryable policy) then true
  else match error with
       | Technical transport => is_retryable transport
       | _ => false
       end.

Section retry.
(** The factory over its state [X], its future [Fut], the stream [R] of an
    attempt; timers [Sl] drawn from the runtime [W]. *)
Context {X Fut R W Sl T E : Type} `{Stream R (Event T E)}.
Context (factory : X → Fut * X) (fut_poll : Fut → poll R * Fut).
Context (rt_sleep : W → Z → Sl * W) (sleep_poll : Sl → poll () * Sl).

Record Retrying : Type := MkRetrying {
  rt_factory : X;
  rt_world : W;
  rt_policy : RetryPolicy;
  rt_attempts : nat;
  rt_pending : option Fut;
  rt_stream : option R;
  rt_sleeping : option Sl;
  rt_finished : bool
}.

Definition retrying_new (x : X) (w : W) (policy : RetryPolicy) : Retrying :=
  MkRetrying x w policy 0 None None None false.

Abbreviation rt_answer := (Retrying + (poll (option (Event T E)) * Retrying))%type.

(** The pause before an attempt. *)
Definition retry_pause (this : Retrying) : rt_answer :=
  let '(MkRetrying x w pol n p s sl fin) := this in
  match sl with
  | Some sleep =>
      match sleep_poll sleep with
      | (Ready _, _) => inl (MkRetrying x w pol n p s None fin)
      | (Pending, sleep') => inr (Pending, MkRetrying x w pol n p s (Some sleep') fin)
      end
  | None => inl this
  end.

(** Start an attempt when none is under way, and await its future. *)
Definition retry_start (this : Retrying) : rt_answer :=
  let '(MkRetrying x w pol n p s sl fin) :=
    match rt_pending this, rt_stream this with
    | None, None =>
        let (future, x') := factory (rt_factory this) in
        MkRetrying x' (rt_world this) (rt_policy this) (S (rt_attempts this)) (Some future) None
          (rt_sleeping this) (rt_finished this)
    | _, _ => this
    end in
  match p with
  | Some future =>
      match fut_poll future with
      | (Ready observable, _) => inl (MkRetrying x w pol n None (Some observable) sl fin)
      | (Pending, future') => inr (Pending, MkRetrying x w pol n (Some future') s sl fin)
      end
  | None => inl (MkRetrying x w pol n p s sl fin)
  end.

(** Forward the attempt's events; [inl] goes round for another attempt. *)
Definition retry_forward (this : Retrying) : rt_answer :=
  let '(MkRetrying x w pol n p s sl fin) := this in
  match s with
  | Some stream =>
      match poll_next stream with
      | (Ready (Some (Next value)), stream') =>
          inr (Ready (Some (Next value)), MkRetrying x w pol n p (Some stream') sl fin)
      | (Ready (Some (Error error)), _) =>
          if should_retry n pol error then
            if (0 <? delay pol)%Z then
              let (sleep, w') := rt_sleep w (delay pol) in
              inl (MkRetrying x w' pol n p None (Some sleep) fin)
            else inl (MkRetrying x w pol n p None sl fin)
          else inr (Ready (Some (Error error)), MkRetrying x w pol n p None sl true)
      | (Ready (Some Complete), _) =>
          inr (Ready (Some Complete), MkRetrying x w pol n p None sl true)
      | (Ready None, _) => inr (Ready None, MkRetrying x w pol n p None sl true)
      | (Pending, stream') => inr (Pending, MkRetrying x w pol n p (Some stream') sl fin)
      end
  | None => inl this
  end.

Definition Retrying_body (this : Retrying) : rt_answer :=
  if rt_finished this then inr (Ready None, this)
  else match retry_pause this with
       | inr r => inr r
       | inl this =>
           match retry_start this with
           | inr r => inr r
           | inl this => retry_forward this
           end
       end.

(** Attempts left, doubled, and one for an attempt under way. *)
Definition Retrying_measure (this : Retrying) : nat :=
  2 * (Nat.max (attempts (rt_policy this)) 1 - rt_attempts this) +
  match rt_pending this, rt_stream this with None, None => 0 | _, _ => 1 end.

#[export] Instance Retrying_poll_next : Stream Retrying (Event T E) :=
  rust_loop Retrying_body Retrying_measure (λ this, (Pending, this)).

Lemma retry_forward_inl o o' : retry_forward o = inl o' → is_Some (rt_stream o) →
  rt_pending o = None →
  rt_attempts o' = rt_attempts o ∧ rt_policy o' = rt_policy o ∧ rt_pending o' = None ∧
  rt_stream o' = None ∧ rt_attempts o < Nat.max (attempts (rt_policy o)) 1.
Proof.
  destruct o as [x w pol n p s sl fin]. unfold retry_forward, should_retry; simpl.
  intros Hb [stream ->] ->. repeat case_match; simplify_eq/=;
    repeat match goal with Hx : (_ <=? _) = false |- _ => apply Nat.leb_gt in Hx end; done.
Qed.

Lemma Retrying_decreases o o' :
  Retrying_body o = inl o' → Retrying_measure o' < Retrying_measure o.
Proof.
  destruct o as [x w pol n p s sl fin]. unfold Retrying_body; simpl.
  destruct fin; [done|].
  assert (Hstart : ∀ sl, match retry_start (MkRetrying x w pol n p s sl false) with
    | inr r => inr r | inl this => retry_forward this end = inl o' →
    Retrying_measure o' < Retrying_measure (MkRetrying x w pol n p s sl false)).
  { intros sl'. unfold retry_start; simpl.
    assert (Hfw : ∀ x' n' s' sl'',
      retry_forward (MkRetrying x' w pol n' None (Some s') sl'' false) = inl o' →
      Retrying_measure o' = 2 * (Nat.max (attempts pol) 1 - n') ∧ n' < Nat.max (attempts pol) 1).
    { intros x' n' s' sl'' Hb. apply retry_forward_inl in Hb as (H1 & H2 & H3 & H4 & H5); [|done..].
      unfold Retrying_measure. rewrite H1, H2, H3, H4. simpl in *. split; [lia|done]. }
    unfold Retrying_measure at 2; simpl.
    destruct p as [fut|], s as [stream|]; [..|destruct (factory x) as [fut x']]; simpl;
      try (destruct (fut_poll fut) as [[|r] fut'']; [done|]);
      intros Hb; apply Hfw in Hb as [-> ?]; lia. }
  destruct sl as [sleep|]; [|apply Hstart].
  destruct (sleep_poll sleep) as [[|u] sleep']; [done|]. intros Hb. by apply Hstart in Hb.
Qed.

(** *** What a retry delivers *)

(** The successive attempts of a factory: the future of each resolves, and
    its stream delivers the given sequence. *)
Inductive factory_runs : X → list (list (Event T E)) → Prop :=
| runs_nil x : factory_runs x []
| runs_cons x fut x' r fut' l ls :
    factory x = (fut, x') → completes fut_poll fut r fut' → yields r l →
    factory_runs x' ls → factory_runs x (l :: ls).

(** Whether the sequence of an attempt earns another one. *)
Definition retries (pol : RetryPolicy) (n : nat) (l : list (Event T E)) : bool :=
  match (before_terminal l).2 with Some e => should_retry n pol e | None => false end.

(** The values of every attempt that earned another one, then the last
    attempt to its end; [None] when more attempts are needed. *)
Fixpoint retry_out (policy : RetryPolicy) (started : nat) (ls : list (list (Event T E)))
    : option (list (Event T E)) :=
  match ls with
  | [] => None
  | l :: ls' =>
      if retries policy (S started) l
      then (λ rest, map Next (before_terminal l).1 ++ rest) <$> retry_out policy (S started) ls'
      else Some (until_terminal l)
  end.

Lemma same_body_yields o o' out :
  Retrying_body o = Retrying_body o' → yields o' out → yields o out.
Proof.
  intros Hb. apply yields_same_poll. unfold poll_next, Retrying_poll_next.
  rewrite !(rust_loop_unfold _ _ _ Retrying_decreases). by rewrite Hb.
Qed.

Ltac rt_step := loop_step @Retrying_body Retrying_decreases.

Lemma rt_over x w pol n p s sl : yields (MkRetrying x w pol n p s sl true) [].
Proof. rt_step. Qed.

(** An attempt under way: what it delivers, and what follows. *)
Lemma rt_attempt x w pol n r l rest : yields r l →
  (retries pol n l = true →
   ∀ w' sl, (sl = None ∨ ∃ d w0, sl = Some (fst (rt_sleep w0 d))) →
     yields (MkRetrying x w' pol n None None sl false) rest) →
  yields (MkRetrying x w pol n None (Some r) None false)
    (if retries pol n l then map Next (before_terminal l).1 ++ rest else until_terminal l).
Proof.
  intros Hy Hrest.
  induction Hy as [r r1 Hp|r r1 l Hp Hy IH|r r1 ev l Hp Hy IH].
  - eapply (loop_end _ _ Retrying_decreases). unfold Retrying_body; simpl. by rewrite Hp.
  - eapply (loop_pending _ _ Retrying_decreases); [unfold Retrying_body; simpl; by rewrite Hp|].
    by apply IH.
  - destruct ev as [v| |e].
    + assert (Hl : retries pol n (Next v :: l) = retries pol n l ∧
        (before_terminal (Next v :: l)).1 = v :: (before_terminal l).1)
        by (unfold retries; simpl; by destruct (before_terminal l)).
      destruct Hl as [Hl1 Hl2]. rewrite Hl1, Hl2 in *.
      assert (Hn : Retrying_body (MkRetrying x w pol n None (Some r) None false) =
        inr (Ready (Some (Next v)), MkRetrying x w pol n None (Some r1) None false))
        by (unfold Retrying_body; simpl; by rewrite Hp).
      specialize (IH Hrest).
      by destruct (retries pol n l); eapply (loop_item _ _ Retrying_decreases).
    + eapply (loop_item _ _ Retrying_decreases); [unfold Retrying_body; simpl; by rewrite Hp|].
      apply rt_over.
    + unfold retries in *; simpl in *. destruct (should_retry n pol e) eqn:Hr.
      * destruct (0 <? delay pol)%Z eqn:Hd.
        -- destruct (rt_sleep w (delay pol)) as [sleep w'] eqn:Hs.
           eapply (loop_skip _ _ Retrying_decreases);
             [unfold Retrying_body; simpl; by rewrite Hp, Hr, Hd, Hs|].
           apply Hrest; [done|]. right. exists (delay pol), w. by rewrite Hs.
        -- eapply (loop_skip _ _ Retrying_decreases);
             [unfold Retrying_body; simpl; by rewrite Hp, Hr, Hd|]. apply Hrest; [done|]. by left.
      * eapply (loop_item _ _ Retrying_decreases); [unfold Retrying_body; simpl; by rewrite Hp, Hr|].
        apply rt_over.
Qed.

(** The future of an attempt resolves before its stream is read. *)
Lemma rt_await x w pol n fut r fut' out : completes fut_poll fut r fut' →
  yields (MkRetrying x w pol n None (Some r) None false) out →
  yields (MkRetrying x w pol n (Some fut) None None false) out.
Proof.
  intros Hc Hout. induction Hc as [fut r fut' Hp|fut fut1 r fut' Hp Hc IH].
  - eapply same_body_yields; [|done]. unfold Retrying_body, retry_start; simpl. by rewrite Hp.
  - eapply (loop_pending _ _ Retrying_decreases);
      [unfold Retrying_body, retry_start; simpl; by rewrite Hp|]. by apply IH.
Qed.

Lemma rt_start x w pol n fut x' out : factory x = (fut, x') →
  yields (MkRetrying x' w pol (S n) (Some fut) None None false) out →
  yields (MkRetrying x w pol n None None None false) out.
Proof.
  intros Hf. apply same_body_yields. unfold Retrying_body, retry_start; simpl. by rewrite Hf.
Qed.

(** The pause ends before the next attempt starts. *)
Lemma rt_wake x w pol n sleep sleep' u out : completes sleep_poll sleep u sleep' →
  yields (MkRetrying x w pol n None None None false) out →
  yields (MkRetrying x w pol n None None (Some sleep) false) out.
Proof.
  intros Hc Hout. induction Hc as [sleep u sleep' Hp|sleep sleep1 u sleep' Hp Hc IH].
  - eapply same_body_yields; [|done]. unfold Retrying_body; simpl. by rewrite Hp.
  - eapply (loop_pending _ _ Retrying_decreases); [unfold Retrying_body; simpl; by rewrite Hp|].
    by apply IH.
Qed.

Hypothesis timers_fire : ∀ w d, ∃ sl, completes sleep_poll (fst (rt_sleep w d)) () sl.

Lemma retry_yields x w pol n ls out :
  factory_runs x ls → retry_out pol n ls = Some out →
  yields (MkRetrying x w pol n None None None false) out.
Proof.
  intros Hr; revert w n out.
  induction Hr as [x|x fut x' r fut' l ls Hf Hc Hy Hr IH]; intros w n out Hout; [done|].
  eapply rt_start, rt_await; [done..|]. simpl in Hout.
  assert (Hrest : ∀ rest, retry_out pol (S n) ls = Some rest → ∀ w' sl,
    (sl = None ∨ ∃ d w0, sl = Some (fst (rt_sleep w0 d))) →
    yields (MkRetrying x' w' pol (S n) None None sl false) rest).
  { intros rest Hrest w' sl [->|(d & w0 & ->)]; [by apply IH|].
    destruct (timers_fire w0 d) as [sl' Hsl]. eapply rt_wake; [done|by apply IH]. }
  destruct (retries pol (S n) l) eqn:Hs.
  - destruct (retry_out pol (S n) ls) as [rest|] eqn:Ho; [|done]. injection Hout as <-.
    pose proof (rt_attempt x' w pol (S n) r l rest Hy (λ _, Hrest rest eq_refl)) as Ha.
    by rewrite Hs in Ha.
  - injection Hout as <-. pose proof (rt_attempt x' w pol (S n) r l [] Hy) as Ha.
    rewrite Hs in Ha. by apply Ha.
Qed.

(** The policy is exhausted after [max attempts 1] attempts. *)
Lemma retry_out_total pol n ls : Nat.max (attempts pol) 1 - n ≤ length ls → ls ≠ [] →
  is_Some (retry_out pol n ls).
Proof.
  revert n; induction ls as [|l ls IH]; intros n Hlen Hne; [done|]. simpl in *.
  destruct (retries pol (S n) l) eqn:Hs; [|by eexists].
  unfold retries in Hs. destruct (before_terminal l).2 as [e|]; [|done].
  unfold should_retry in Hs. destruct (Nat.leb_spec (Nat.max (attempts pol) 1) (S n)); [done|].
  destruct (IH (S n)) as [rest ->]; [lia| |by eexists].
  intros ->. simpl in Hlen. lia.
Qed.

(** C30. [retry_with] runs the factory again on an eligible failure and at
    most [max attempts 1] times: given that many attempts, whatever their
    pauses, it ends, having delivered the values of every failed attempt that
    earned another one, in order, and then the last attempt to its end (its
    error unchanged when the policy gives up). *)
Theorem retry_with_bounded x w pol ls :
  factory_runs x ls → length ls = Nat.max (attempts pol) 1 →
  ∃ out, retry_out pol 0 ls = Some out ∧ yields (retrying_new x w pol) out.
Proof.
  intros Hr Hlen. destruct (retry_out_total pol 0 ls) as [out Ho]; [lia|by intros ->; simpl in *; lia|].
  exists out. split; [done|]. by eapply retry_yields.
Qed.
End retry.

(** Two attempts: a transport failure after a value, then a success. *)
Lemma retry_with_bounded_witness :
  let attempt (n : nat) := MkScript (if n =? 0
    then [Ready (Next 1); Ready (Error (E:=nat) (Technical RpcTimeout))]
    else [Ready (Next 2); Ready Complete]) in
  let fut_poll (fut : Script (Event nat nat)) := (Ready fut, fut) in
  ∃ out, retry_out (MkRetryPolicy 2 5 true) 0
    [[Next 1; Error (Technical RpcTimeout)]; [Next 2; Complete]] = Some out ∧
    yields (H:=Retrying_poll_next (λ n, (attempt n, S n)) fut_poll (λ w _, (tt, w)) (λ sl, (Ready (), sl)))
      (retrying_new 0 tt (MkRetryPolicy 2 5 true)) out.
Proof.
  intros attempt fut_poll.
  apply (retry_with_bounded (λ n, (attempt n, S n)) fut_poll (λ w _, (tt, w)) (λ sl, (Ready (), sl)));
    [|econstructor; [reflexivity|by apply completes_ready|apply (script_yields (script (attempt 0)))|]|done].
  - intros w d. exists tt. by apply completes_ready.
  - econstructor; [reflexivity|by apply completes_ready|apply (script_yields (script (attempt 1)))|].
    constructor.
Defined.
