(* ===== verification/Utility.v ===== *)
(** * Utility operators ([ice-rpc-rx/src/transform/utility.rs])

    [tap], [finalize] and [timeout].  A side effect is a function of the world
    [W] it changes; timers are the runtime's, as in [ErrorHandling].  [delay],
    which reads the clock several times per poll, is not modelled. *)

From S2P Require Import Prelude Text Event Stream ErrorHandling.

(** ** [tap] *)

Section tap.
Context {S T E W : Type} `{Stream S (Event T E)} (f : W → T → W).

Record Tap : Type := MkTap { tap_source : S; tap_world : W }.

#[export] Instance Tap_poll_next : Stream Tap (Event T E) := λ this,
  match poll_next (tap_source this) with
  | (Ready (Some (Next v)), s) => (Ready (Some (Next v)), MkTap s (f (tap_world this) v))
  | (Ready (Some other), s) => (Ready (Some other), MkTap s (tap_world this))
  | (Ready None, s) => (Ready None, MkTap s (tap_world this))
  | (Pending, s) => (Pending, MkTap s (tap_world this))
  end.

Lemma tap_emits s l s' w : emits s l s' →
  emits (MkTap s w) l (MkTap s' (fold_left f (values l) w)).
Proof.
  intros He; revert w; induction He as [s|s s1 l s' Hp He IH|s s1 ev l s' Hp He IH]; intros w.
  - constructor.
  - eapply emits_pending; [|apply IH]. unfold poll_next at 1, Tap_poll_next; by scrut.
  - destruct ev as [v| |e]; (eapply emits_item; [|apply IH]);
      unfold poll_next at 1, Tap_poll_next; by scrut.
Qed.

Lemma tap_yields s l w : yields s l → yields (MkTap s w) l.
Proof.
  intros Hy; revert w; induction Hy as [s s1 Hp|s s1 l Hp Hy IH|s s1 ev l Hp Hy IH]; intros w.
  - op_step @Tap_poll_next.
  - op_step @Tap_poll_next. apply IH.
  - destruct ev; op_step @Tap_poll_next; apply IH.
Qed.
End tap.

(** ** [finalize] *)

Section finalize.
Context {S T E W : Type} `{Stream S (Event T E)}.

Record Finalize : Type := MkFinalize {
  fz_source : S;
  fz_f : option (W → W);
  fz_world : W
}.

Definition finalize_new (s : S) (f : W → W) (w : W) : Finalize := MkFinalize s (Some f) w.

(** Run the hook if it has not run yet. *)
Definition run_hook (this : Finalize) (s : S) : Finalize :=
  match fz_f this with
  | Some f => MkFinalize s None (f (fz_world this))
  | None => MkFinalize s None (fz_world this)
  end.

#[export] Instance Finalize_poll_next : Stream Finalize (Event T E) := λ this,
  match poll_next (fz_source this) with
  | (Ready (Some event), s) =>
      (Ready (Some event),
       if is_terminal event then run_hook this s else MkFinalize s (fz_f this) (fz_world this))
  | (Ready None, s) => (Ready None, run_hook this s)
  | (Pending, s) => (Pending, MkFinalize s (fz_f this) (fz_world this))
  end.

(** The hook has run exactly when a terminal has been delivered. *)
Lemma finalize_emits o l o' f w : emits o l o' →
  (fz_f o = Some f ∧ fz_world o = w) ∨ (fz_f o = None ∧ fz_world o = f w) →
  if existsb is_terminal l then fz_f o' = None ∧ fz_world o' = f w
  else fz_f o' = fz_f o ∧ fz_world o' = fz_world o.
Proof.
  induction 1 as [o|o o1 l o' Hp He IH|o o1 ev l o' Hp He IH]; intros Ho; [done|..].
  - unfold poll_next, Finalize_poll_next in Hp. destruct o as [s f0 w0]; simpl in *.
    destruct (poll_next s) as [[|[ev'|]] s'] eqn:Hs; simplify_eq/=. by apply IH.
  - unfold poll_next, Finalize_poll_next in Hp. destruct o as [s f0 w0]; simpl in *.
    destruct (poll_next s) as [[|[ev'|]] s'] eqn:Hs; simplify_eq/=.
    destruct (is_terminal ev); simpl in *; [|by apply IH].
    assert (Hrun : fz_f (run_hook (MkFinalize s f0 w0) s') = None ∧
      fz_world (run_hook (MkFinalize s f0 w0) s') = f w).
    { unfold run_hook; simpl. destruct Ho as [[-> ->]|[-> ->]]; done. }
    specialize (IH (or_intror Hrun)). destruct (existsb is_terminal l); [done|].
    by destruct IH as [-> ->].
Qed.

(** [finalize] runs its hook exactly once: after any polling, the hook
    has run once when a terminal has been handed out, however many more
    polls follow it, and not at all before; a source that just closes runs it
    on the poll that says so. *)
Theorem finalize_runs_once s f w l o' :
  emits (finalize_new s f w) l o' →
  fz_world o' = (if existsb is_terminal l then f w else w) ∧
  ∀ o'', poll_next o' = (Ready None, o'') → fz_world o'' = f w ∧ fz_f o'' = None.
Proof.
  intros He. pose proof (finalize_emits _ _ _ f w He (or_introl (conj eq_refl eq_refl))) as Hs.
  split; [by destruct (existsb is_terminal l), Hs|].
  intros o''. unfold poll_next, Finalize_poll_next. destruct (poll_next (fz_source o')) as [r s'].
  intros ?. destruct r as [|[ev|]]; simplify_eq/=. unfold run_hook.
  by destruct (existsb is_terminal l), Hs as [-> ->].
Qed.
End finalize.

Lemma finalize_runs_once_witness :
  fz_world (MkFinalize (MkScript (A:=Event nat nat) []) None 1) = 1.
Proof.
  refine (proj1 (finalize_runs_once (MkScript [Ready (Next 1); Ready (Complete (E:=nat))]) S 0
    [Next 1; Complete] (MkFinalize (MkScript []) None 1) _)).
  do 2 (eapply emits_item; [reflexivity|]). apply emits_refl.
Defined.

(** ** [timeout] *)

Section timeout.
Context {S T E W Sl : Type} `{Stream S (Event T E)}.
Context (rt_sleep : W → Z → Sl * W) (sleep_poll : Sl → poll () * Sl).

Record Timeout : Type := MkTimeout {
  to_source : S;
  to_duration : Z;
  to_sleep : option Sl;
  to_done : bool;
  to_world : W
}.

Definition timeout_new (s : S) (duration : Z) (w : W) : Timeout := MkTimeout s duration None false w.

#[export] Instance Timeout_poll_next : Stream Timeout (Event T E) := λ this,
  if to_done this then (Ready None, this)
  else
    let (sleep, w) := match to_sleep this with
                      | Some sleep => (sleep, to_world this)
                      | None => rt_sleep (to_world this) (to_duration this)
                      end in
    match poll_next (to_source this) with
    | (Ready (Some event), s) =>
        let (sleep', w') := rt_sleep w (to_duration this) in
        (Ready (Some event), MkTimeout s (to_duration this) (Some sleep') (is_terminal event) w')
    | (Ready None, s) => (Ready None, MkTimeout s (to_duration this) (Some sleep) false w)
    | (Pending, s) =>
        match sleep_poll sleep with
        | (Ready _, sleep') =>
            (Ready (Some (Error (Technical RpcTimeout))),
             MkTimeout s (to_duration this) (Some sleep') true w)
        | (Pending, sleep') => (Pending, MkTimeout s (to_duration this) (Some sleep') false w)
        end
    end.

Definition timed_out : Event T E := Error (Technical RpcTimeout).

Lemma to_over s d sl w : yields (MkTimeout s d sl true w) [].
Proof. by eapply yields_end. Qed.

(** The timer in force at a poll. *)
Definition armed (this : Timeout) : Sl * W :=
  match to_sleep this with
  | Some sleep => (sleep, to_world this)
  | None => rt_sleep (to_world this) (to_duration this)
  end.

Lemma timeout_poll s d sl w :
  poll_next (MkTimeout s d sl false w) =
  let (sleep, w) := armed (MkTimeout s d sl false w) in
  match poll_next s with
  | (Ready (Some event), s) =>
      let (sleep', w') := rt_sleep w d in
      (Ready (Some event), MkTimeout s d (Some sleep') (is_terminal event) w')
  | (Ready None, s) => (Ready None, MkTimeout s d (Some sleep) false w)
  | (Pending, s) =>
      match sleep_poll sleep with
      | (Ready _, sleep') => (Ready (Some timed_out), MkTimeout s d (Some sleep') true w)
      | (Pending, sleep') => (Pending, MkTimeout s d (Some sleep') false w)
      end
  end.
Proof. done. Qed.

Lemma timeout_run s l d sl w : yields s l →
  ∃ out, yields (MkTimeout s d sl false w) out ∧
    (out = until_terminal l ∨
     ∃ l1 l2, l = l1 ++ l2 ∧ existsb is_terminal l1 = false ∧ out = l1 ++ [timed_out]).
Proof.
  intros Hy; revert sl w; induction Hy as [s s1 Hp|s s1 l Hp Hy IH|s s1 ev l Hp Hy IH]; intros sl w;
    pose proof (timeout_poll s d sl w) as Hpoll; rewrite Hp in Hpoll;
    destruct (armed (MkTimeout s d sl false w)) as [sleep w1].
  - exists []. split; [by eapply yields_end|by left].
  - destruct (sleep_poll sleep) as [[|u] sleep'].
    + destruct (IH (Some sleep') w1) as (out & Hout & Hspec). exists out.
      split; [by eapply yields_pending|done].
    + exists [timed_out]. split; [eapply yields_item; [done|apply to_over]|]. right. by exists [], l.
  - destruct (rt_sleep w1 d) as [sleep' w2]. simpl. destruct (is_terminal ev) eqn:Ht.
    + exists [ev]. split; [eapply yields_item; [done|apply to_over]|by left].
    + destruct (IH (Some sleep') w2) as (out & Hout & Hspec). exists (ev :: out).
      split; [by eapply yields_item|].
      destruct Hspec as [->|(l1 & l2 & -> & Hl1 & ->)]; [by left|].
      right. exists (ev :: l1), l2. simpl. by rewrite Ht.
Qed.

(** A source that never answers again is cut when the timer fires. *)
Lemma timeout_silence s d sleep u sleep' w :
  poll_next s = (Pending, s) → completes sleep_poll sleep u sleep' →
  yields (MkTimeout s d (Some sleep) false w) [timed_out].
Proof.
  intros Hs Hc. induction Hc as [sleep u sleep' Hp|sleep sleep1 u sleep' Hp Hc IH];
    pose proof (timeout_poll s d (Some sleep) w) as Hpoll; simpl in Hpoll; rewrite Hs, Hp in Hpoll.
  - eapply yields_item; [done|apply to_over].
  - by eapply yields_pending.
Qed.

(** [timeout] is a silence watchdog that always ends: over any source
    that ends, with any timers, it delivers the source's sequence up to its
    terminal, or a prefix of its values followed by exactly one technical
    [Timeout]; over a source that falls silent for ever, the error comes as
    soon as the timer armed for that silence fires. *)
Theorem timeout_watches_silence s l d w :
  (yields s l → ∃ out, yields (timeout_new s d w) out ∧
    (out = until_terminal l ∨
     ∃ l1 l2, l = l1 ++ l2 ∧ existsb is_terminal l1 = false ∧ out = l1 ++ [timed_out])) ∧
  (poll_next s = (Pending, s) →
   (∃ sl', completes sleep_poll (fst (rt_sleep w d)) () sl') →
   yields (timeout_new s d w) [timed_out]).
Proof.
  split; [apply timeout_run|]. intros Hs [sl' Hc].
  eapply yields_same_poll; [|by eapply (timeout_silence s d (fst (rt_sleep w d)) () sl' (snd (rt_sleep w d)))].
  unfold timeout_new. rewrite !timeout_poll. unfold armed; simpl. by destruct (rt_sleep w d).
Qed.
End timeout.

Lemma timeout_watches_silence_witness :
  ∃ out, yields (H:=Timeout_poll_next (T:=nat) (E:=nat) (λ w (_ : Z), (2, w))
      (λ n, match n with 0 => (Ready (), 0) | S n' => (Pending, n') end))
    (timeout_new (MkScript [Ready (Next 1); Pending; Ready Complete]) 100 tt) out ∧
    (out = [Next 1; Complete] ∨
     ∃ l1 l2, [Next 1; Complete] = l1 ++ l2 ∧ existsb is_terminal l1 = false ∧
       out = l1 ++ [timed_out (T:=nat) (E:=nat)]).
Proof.
  refine (proj1 (timeout_watches_silence (λ w (_ : Z), (2, w))
      (λ n, match n with 0 => (Ready (), 0) | S n' => (Pending, n') end)
    (MkScript [Ready (Next 1); Pending; Ready Complete]) [Next 1; Complete] 100 tt) _).
  apply (script_yields [Ready (Next 1); Pending; Ready Complete]).
Defined.
