(* ===== verification/Delay.v ===== *)
(** * The delay operator ([ice-rpc-rx/src/transform/utility.rs])

    [Delay] reads its source ahead, stamps each event with the instant it may
    leave, and sleeps for the head of its queue.  The clock and the timers of
    the runtime are the interface [Clock]: a clock that may advance at every
    reading, and timers that fire at or after their due time. *)

From S2P Require Import Prelude Event Stream.

Local Open Scope Z_scope.

(** ** The clock and the timers *)

Class Clock (W Sl : Type) : Type := {
  (** The instant a world is at, the due time of a timer, and how often it can
      still be polled in vain: what the laws speak about. *)
  instant : W → Z;
  timer_due : Sl → Z;
  timer_patience : Sl → nat;
  clock_now : W → Z * W;
  timer_new : W → Z → Sl * W;
  timer_poll : Sl → W → poll () * (Sl * W)
}.

Class ClockLaws (W Sl : Type) `{Clock W Sl} : Prop := {
  clock_now_law (w : W) : (clock_now w).1 = instant (clock_now w).2 ∧ instant w ≤ instant (clock_now w).2;
  timer_new_law (w : W) (d : Z) :
    instant w ≤ instant (timer_new w d).2 ∧ instant w + d ≤ timer_due (timer_new w d).1;
  timer_poll_law (sl : Sl) (w : W) :
    instant w ≤ instant (timer_poll sl w).2.2 ∧
    match (timer_poll sl w).1 with
    | Ready _ => timer_due sl ≤ instant (timer_poll sl w).2.2
    | Pending => timer_due (timer_poll sl w).2.1 = timer_due sl ∧
                 (timer_patience (timer_poll sl w).2.1 < timer_patience sl)%nat
    end
}.

(** ** The operator *)

Definition DELAY_READ_AHEAD : nat := 64.

Section delay.
Context {S T E W Sl : Type} `{Stream S (Event T E), Clock W Sl}.

Record Delay : Type := MkDelay {
  dl_source : S;
  dl_duration : Z;
  dl_queue : list (Z * Event T E);
  dl_sleep : option Sl;
  dl_finished : bool;
  dl_world : W
}.

Definition delay_new (source : S) (duration : Z) (w : W) : Delay :=
  MkDelay source duration [] None false w.

(** The end of a round: the timer, when one is armed. *)
Definition delay_wait (this : Delay) (read : nat) : (Delay * nat) + (poll (option (Event T E)) * Delay) :=
  let 'MkDelay s d q sleep fin w := this in
  match sleep with
  | Some sl =>
      match timer_poll sl w with
      | (Ready _, (_, w')) => inl (MkDelay s d q None fin w', read)
      | (Pending, (sl', w')) => inr (Pending, MkDelay s d q (Some sl') fin w')
      end
  | None => inr (Pending, this)
  end.

(** The middle of a round: reading the source ahead. *)
Definition delay_read (this : Delay) (read : nat) : (Delay * nat) + (poll (option (Event T E)) * Delay) :=
  let 'MkDelay s d q sleep fin w := this in
  if negb fin && (read <? DELAY_READ_AHEAD)%nat then
    match poll_next s with
    | (Ready (Some event), s') =>
        let (now, w') := clock_now w in
        inl (MkDelay s' d (q ++ [(now + d, event)]) sleep fin w', Datatypes.S read)
    | (Ready None, s') => inl (MkDelay s' d q sleep true w, read)
    | (Pending, s') => delay_wait (MkDelay s' d q sleep fin w) read
    end
  else delay_wait this read.

Definition delay_body (st : Delay * nat) : (Delay * nat) + (poll (option (Event T E)) * Delay) :=
  let (this, read) := st in
  let 'MkDelay s d q sleep fin w := this in
  match q with
  | (deadline, event) :: q' =>
      let (now, w1) := clock_now w in
      if deadline <=? now then inr (Ready (Some event), MkDelay s d q' None fin w1)
      else
        let (sl, w2) := match sleep with
                        | Some sl => (sl, w1)
                        | None => timer_new w1 (deadline - now)
                        end in
        delay_read (MkDelay s d q (Some sl) fin w2) read
  | [] =>
      if fin then inr (Ready None, MkDelay s d q None fin w)
      else delay_read (MkDelay s d q None fin w) read
  end.

(** Rounds left: the reads, the end of the source, the head falling due, and a
    timer armed too early for the head. *)
Definition head_waits (this : Delay) : nat :=
  match dl_queue this with
  | (deadline, _) :: _ => if deadline <=? instant (dl_world this) then 0 else 1
  | [] => 0
  end.

Definition timer_early (this : Delay) : nat :=
  match dl_queue this, dl_sleep this with
  | (deadline, _) :: _, Some sl => if deadline <=? timer_due sl then 0 else 1
  | _, _ => 0
  end.

Definition delay_rounds (st : Delay * nat) : nat :=
  2 * (DELAY_READ_AHEAD - st.2) + (if dl_finished st.1 then 0 else 2) +
  head_waits st.1 + timer_early st.1.

#[export] Instance Delay_poll_next : Stream Delay (Event T E) := λ this,
  rust_loop delay_body delay_rounds (λ st, (Pending, st.1)) (this, O).

(** ** Facts *)

Context `{!ClockLaws W Sl}.

(** What a round does. *)
Definition round_spec (this : Delay) (read : nat) (r : (Delay * nat) + (poll (option (Event T E)) * Delay)) : Prop :=
  let 'MkDelay s d q sleep fin w := this in
  match r with
  | inl (MkDelay s' d' q' sleep' fin' w', read') =>
      d' = d ∧ instant w ≤ instant w' ∧
      ((fin = false ∧ fin' = false ∧ read' = Datatypes.S read ∧ (read < DELAY_READ_AHEAD)%nat ∧
        ∃ ev t, poll_next s = (Ready (Some ev), s') ∧ q' = q ++ [(t + d, ev)] ∧
                instant w ≤ t ≤ instant w' ∧
                (timer_early (MkDelay s' d' q' sleep' fin' w') ≤ timer_early this)%nat ∧
                (head_waits (MkDelay s' d' q' sleep' fin' w') ≤ head_waits this + 1)%nat) ∨
       (fin = false ∧ fin' = true ∧ read' = read ∧ q' = q ∧ poll_next s = (Ready None, s') ∧
        (timer_early (MkDelay s' d' q' sleep' fin' w') ≤ timer_early this)%nat ∧
        (head_waits (MkDelay s' d' q' sleep' fin' w') ≤ head_waits this)%nat) ∨
       (fin' = fin ∧ read' = read ∧ q' = q ∧ sleep' = None ∧
        (s' = s ∨ fin = false ∧ poll_next s = (Pending, s')) ∧
        (head_waits (MkDelay s' d' q' sleep' fin' w') + timer_early (MkDelay s' d' q' sleep' fin' w')
           < head_waits this + timer_early this)%nat))
  | inr (Ready (Some ev), MkDelay s' d' q' sleep' fin' w') =>
      s' = s ∧ d' = d ∧ fin' = fin ∧ sleep' = None ∧ instant w ≤ instant w' ∧
      ∃ deadline, q = (deadline, ev) :: q' ∧ deadline ≤ instant w'
  | inr (Ready None, MkDelay s' d' q' sleep' fin' w') =>
      s' = s ∧ d' = d ∧ fin' = fin ∧ fin = true ∧ instant w ≤ instant w' ∧ q = [] ∧ q' = []
  | inr (Pending, MkDelay s' d' q' sleep' fin' w') =>
      q' = q ∧ d' = d ∧ fin' = fin ∧ instant w ≤ instant w' ∧
      (fin = false ∧ poll_next s = (Pending, s') ∨ s' = s ∧ (fin = true ∨ (DELAY_READ_AHEAD ≤ read)%nat)) ∧
      (timer_early (MkDelay s' d' q' sleep' fin' w') ≤ timer_early this)%nat ∧
      (fin = true → head_waits this = 1%nat ∧
        ∃ sl', sleep' = Some sl' ∧ ∀ sl, sleep = Some sl → (timer_patience sl' < timer_patience sl)%nat)
  end.

(** The reading part of a round, once a good timer is armed for the head. *)
Lemma delay_wait_spec s d q sl fin w read deadline ev :
  head q = Some (deadline, ev) →
  match delay_wait (MkDelay s d q (Some sl) fin w) read with
  | inl (this', read') =>
      ∃ w', this' = MkDelay s d q None fin w' ∧ read' = read ∧ instant w ≤ instant w' ∧ timer_due sl ≤ instant w'
  | inr (r, this') =>
      r = Pending ∧ ∃ sl' w', this' = MkDelay s d q (Some sl') fin w' ∧ instant w ≤ instant w' ∧
        timer_due sl' = timer_due sl ∧ (timer_patience sl' < timer_patience sl)%nat
  end.
Proof.
  intros _. simpl. pose proof (timer_poll_law sl w) as [Hw Ht].
  destruct (timer_poll sl w) as [[|u] [sl' w']]; simpl in *; [|by eauto 6].
  destruct Ht as [Ht1 Ht2]. eauto 10.
Qed.

(** What reading does to the terms of the measure. *)
Lemma head_waits_mono s s' d q ev sleep sleep' fin fin' w w' : instant w ≤ instant w' →
  (head_waits (MkDelay s' d (q ++ ev) sleep' fin' w') ≤ head_waits (MkDelay s d q sleep fin w) + length ev)%nat.
Proof.
  unfold head_waits; simpl. intros Hw. destruct q as [|[dl e] q]; simpl.
  - destruct ev as [|[dl e] ev]; simpl; [lia|]. case_match; lia.
  - destruct (Z.leb_spec dl (instant w')), (Z.leb_spec dl (instant w)); lia.
Qed.

#[local] Ltac close := split_and!; first [done | lia | eauto].

Lemma delay_round_empty s d sleep fin w read : round_spec (MkDelay s d [] sleep fin w) read (delay_body (MkDelay s d [] sleep fin w, read)).
Proof.
  unfold delay_body. destruct fin; [simpl; close|]. unfold delay_read. simpl negb. simpl andb.
  destruct (read <? DELAY_READ_AHEAD)%nat eqn:Hrd; [apply Nat.ltb_lt in Hrd|apply Nat.ltb_ge in Hrd]; [|simpl; close].
  destruct (poll_next s) as [[|[ev|]] s'] eqn:Hs; simpl.
  - close.
  - pose proof (clock_now_law w) as [Hn Hw]. destruct (clock_now w) as [now w']. simpl in Hn, Hw. subst now.
    split_and!; [done..|]. left. split_and!; [done..|]. exists ev, (instant w').
    unfold timer_early, head_waits; simpl. split_and!; try done; try lia. case_match; lia.
  - split_and!; [done|lia|]. right; left. close.
Qed.

Lemma delay_round_held s d deadline event q sl sleep fin w w2 read :
  instant w ≤ instant w2 → instant w < deadline →
  sleep = Some sl ∨ sleep = None ∧ deadline ≤ timer_due sl →
  round_spec (MkDelay s d ((deadline, event) :: q) sleep fin w) read
    (delay_read (MkDelay s d ((deadline, event) :: q) (Some sl) fin w2) read).
Proof.
  intros Hw Hd Hsl. set (q0 := (deadline, event) :: q).
  assert (Hearly : ∀ s' fin' w', (timer_early (MkDelay s' d q0 (Some sl) fin' w') ≤ timer_early (MkDelay s d q0 sleep fin w))%nat).
  { intros. unfold timer_early; simpl. destruct Hsl as [->|[-> Hdue]]; simpl; [lia|]. apply Z.leb_le in Hdue. by rewrite Hdue. }
  assert (Hwait : ∀ s', s' = s ∧ (fin = true ∨ (DELAY_READ_AHEAD ≤ read)%nat) ∨ fin = false ∧ poll_next s = (Pending, s') →
    round_spec (MkDelay s d q0 sleep fin w) read (delay_wait (MkDelay s' d q0 (Some sl) fin w2) read)).
  { intros s' Hs'. pose proof (delay_wait_spec s' d q0 sl fin w2 read deadline event eq_refl) as Hws.
    destruct (delay_wait _ _) as [[this' read']|[r this']].
    - destruct Hws as (w' & -> & -> & Hw' & Hdue). split_and!; [done|lia|]. right; right.
      split_and!; try done; [naive_solver|]. unfold head_waits, timer_early; simpl.
      destruct (Z.leb_spec deadline (instant w)); [lia|].
      destruct Hsl as [->|[-> Hsl]]; destruct (Z.leb_spec deadline (instant w')); try lia.
      destruct (Z.leb_spec deadline (timer_due sl)); lia.
    - destruct Hws as (-> & sl' & w' & -> & Hw' & Hdue & Hpat). split_and!; try done; [lia|naive_solver|..].
      { specialize (Hearly s' fin w'). unfold timer_early in *; simpl in *. by rewrite Hdue. }
      intros _. split; [by unfold head_waits; simpl; destruct (Z.leb_spec deadline (instant w)); [lia|]|]. exists sl'. split; [done|]. intros sl0 ->. destruct Hsl as [[= ->]|[? _]]; done. }
  unfold delay_read. destruct (negb fin && (read <? DELAY_READ_AHEAD)%nat) eqn:Hcond.
  - apply andb_true_iff in Hcond as [->%negb_true_iff Hrd%Nat.ltb_lt].
    destruct (poll_next s) as [[|[ev|]] s'] eqn:Hs; [by apply Hwait; right| |].
    + pose proof (clock_now_law w2) as [Hn Hw2]. destruct (clock_now w2) as [now w']. simpl in Hn, Hw2. subst now.
      split_and!; [done|lia|]. left. split_and!; [done..|]. exists ev, (instant w'). split_and!; try done; try lia.
      * specialize (Hearly s' false w'). by unfold timer_early in *.
      * pose proof (head_waits_mono s s' d q0 [(instant w' + d, ev)] sleep (Some sl) false false w w'). simpl length in *. lia.
    + split_and!; [done|lia|]. right; left. split_and!; try done.
      pose proof (head_waits_mono s s' d q0 [] sleep (Some sl) false true w w2). rewrite app_nil_r in *. simpl length in *. lia.
  - apply Hwait. left. split; [done|]. apply andb_false_iff in Hcond as [Hc|Hc%Nat.ltb_ge]; [left; by destruct fin|by right].
Qed.

Lemma delay_round this read : round_spec this read (delay_body (this, read)).
Proof.
  destruct this as [s d [|[deadline event] q] sleep fin w]; [apply delay_round_empty|]. unfold delay_body.
  pose proof (clock_now_law w) as [Hn Hw]. destruct (clock_now w) as [now w1]. simpl in Hn, Hw. subst now.
  destruct (Z.leb_spec deadline (instant w1)) as [Hd|Hd]; [simpl; by eauto 10|].
  destruct sleep as [sl|]; [apply delay_round_held; [lia..|by left]|].
  pose proof (timer_new_law w1 (deadline - instant w1)) as [H1 H2].
  destruct (timer_new w1 (deadline - instant w1)) as [sl w2]. simpl in *.
  apply (delay_round_held _ _ _ _ _ _ None); [lia..|]. right. split; [done|lia].
Qed.

Lemma delay_decreases st st' : delay_body st = inl st' → (delay_rounds st' < delay_rounds st)%nat.
Proof.
  destruct st as [[s d q sleep fin w] read], st' as [[s' d' q' sleep' fin' w'] read']. intros Hb.
  pose proof (delay_round (MkDelay s d q sleep fin w) read) as Hr. rewrite Hb in Hr.
  unfold delay_rounds. simpl fst. simpl snd. simpl dl_finished.
  destruct Hr as (-> & Hw & [(-> & -> & -> & Hrd & ev & t & _ & _ & _ & He & Hh)|
    [(-> & -> & -> & _ & _ & He & Hh)|(-> & -> & _ & _ & _ & Hlt)]]); lia.
Qed.

(** [reads k s l s' e]: [k] polls of [s] hand out [l] and leave [s'], the last
    one telling the end when [e] is set. *)
Inductive reads : nat → S → list (Event T E) → S → bool → Prop :=
| reads_none s : reads 0 s [] s false
| reads_over s s' : poll_next s = (Ready None, s') → reads 1 s [] s' true
| reads_pending k s s1 l s' e : poll_next s = (Pending, s1) → reads k s1 l s' e → reads (Datatypes.S k) s l s' e
| reads_event k s s1 ev l s' e :
    poll_next s = (Ready (Some ev), s1) → reads k s1 l s' e → reads (Datatypes.S k) s (ev :: l) s' e.
#[local] Hint Constructors reads : icerpc.

Lemma yields_reads s l : yields s l → ∃ k s', reads k s l s' true.
Proof.
  induction 1 as [s s1 Hp|s s1 l Hp _ (k & s' & IH)|s s1 a l Hp _ (k & s' & IH)]; eauto with icerpc.
Qed.

Lemma reads_prefix k s l s' e n l0 s0 :
  reads k s l s' e → reads n s l0 s0 true →
  if e then l0 = l else ∃ m l2, n = (k + m)%nat ∧ l0 = l ++ l2 ∧ reads m s' l2 s0 true.
Proof.
  intros Hr. revert n l0.
  induction Hr as [s|s s1 Hp|k s s1 l s' e Hp Hr IH|k s s1 ev l s' e Hp Hr IH]; intros n l0 Hend;
    [by eauto 10|by inversion Hend; simplify_eq; congruence|..];
    inversion Hend as [|s2 s3 Hp2|n2 s2 s3 l2 s4 e2 Hp2 Hr2|n2 s2 s3 ev2 l2 s4 e2 Hp2 Hr2]; subst;
    rewrite Hp in Hp2; simplify_eq; specialize (IH _ _ Hr2); destruct e; subst; try done.
  - destruct IH as (m & l3 & -> & -> & Hm). by exists m, l3.
  - destruct IH as (m & l3 & -> & -> & Hm). by exists m, l3.
Qed.

(** What a poll does, from any round of its loop. *)
Definition poll_spec (this : Delay) (read : nat) (r : poll (option (Event T E))) (this' : Delay) : Prop :=
  ∃ k new,
  dl_duration this' = dl_duration this ∧ instant (dl_world this) ≤ instant (dl_world this') ∧
  (if dl_finished this then new = [] ∧ dl_finished this' = true ∧ dl_source this' = dl_source this
   else reads k (dl_source this) (map snd new) (dl_source this') (dl_finished this')) ∧
  Forall (λ e, instant (dl_world this) + dl_duration this ≤ e.1) new ∧
  (timer_early this' ≤ timer_early this)%nat ∧
  match r with
  | Ready (Some ev) => ∃ deadline, dl_queue this ++ new = (deadline, ev) :: dl_queue this' ∧
                                   deadline ≤ instant (dl_world this')
  | Ready None => dl_queue this ++ new = [] ∧ dl_queue this' = [] ∧ dl_finished this' = true
  | Pending =>
      dl_queue this' = dl_queue this ++ new ∧
      (dl_finished this = false → (read < DELAY_READ_AHEAD)%nat → (0 < k)%nat) ∧
      (dl_finished this = true → timer_early this = 0%nat →
        head_waits this = 1%nat ∧
        ∃ sl', dl_sleep this' = Some sl' ∧
               ∀ sl, dl_sleep this = Some sl → (timer_patience sl' < timer_patience sl)%nat)
  end.

Lemma poll_return this read r this' : round_spec this read (inr (r, this')) → poll_spec this read r this'.
Proof.
  destruct this as [s d q sleep fin w], this' as [s' d' q' sleep' fin' w'], r as [|[ev|]]; unfold round_spec; intros Hr.
  - destruct Hr as (-> & -> & -> & Hw & Hs & He & Hfin).
    assert (Hk : ∃ k, (if fin then fin = true ∧ s' = s else reads k s [] s' fin) ∧
      (fin = false → (read < DELAY_READ_AHEAD)%nat → (0 < k)%nat)).
    { destruct Hs as [[-> Hs]|[-> Hs]]; [exists 1%nat; split; [eauto with icerpc|lia]|]. exists 0%nat.
      split; [destruct fin; by constructor|]. intros ->. destruct Hs; [done|lia]. }
    destruct Hk as (k & Hreads & Hk). exists k, []. simpl. rewrite app_nil_r.
    split_and!; try done; [by destruct fin|]. intros Hf _. by apply Hfin.
  - destruct Hr as (-> & -> & -> & -> & Hw & deadline & -> & Hd). exists 0%nat, []. simpl. rewrite app_nil_r.
    split_and!; try done; [destruct fin; by constructor| |by eauto].
    assert (Hz : timer_early (MkDelay s d q' None fin w') = 0%nat) by (unfold timer_early; simpl; by destruct q' as [|[]]). lia.
  - destruct Hr as (-> & -> & -> & -> & Hw & -> & ->). exists 0%nat, []. simpl.
    split_and!; try done; unfold timer_early; simpl; lia.
Qed.

Lemma poll_round this read this1 read1 r this' :
  round_spec this read (inl (this1, read1)) → poll_spec this1 read1 r this' → poll_spec this read r this'.
Proof.
  destruct this as [s d q sleep fin w], this1 as [s1 d1 q1 sleep1 fin1 w1].
  intros (-> & Hw & Hr) (k & new & Hd & Hw1 & Hs & Hnew & He & Hres). unfold poll_spec; simpl in *.
  assert (Hnew' : Forall (λ e, instant w + d ≤ e.1) new)
    by (eapply Forall_impl; [exact Hnew|]; simpl; intros; lia).
  destruct Hr as [(-> & -> & -> & Hrd & ev & t & Hp & -> & Ht & Hearly & _)|
    [(-> & -> & -> & -> & Hp & Hearly & _)|(-> & -> & -> & -> & Hsrc & Hlt)]].
  - exists (Datatypes.S k), ((t + d, ev) :: new). rewrite <- app_assoc in Hres. simpl in *.
    split_and!; try done; try lia; [eauto with icerpc|constructor; simpl; [lia|done]|].
    destruct r as [|[ev'|]]; try done. destruct Hres as (Hq & _ & _). split_and!; try done. lia.
  - destruct Hs as (-> & Hf & Hsrc). exists 1%nat, []. rewrite app_nil_r in *. simpl. rewrite Hf, Hsrc in *.
    split_and!; try done; try lia; [by constructor|].
    destruct r as [|[ev'|]]; try done. destruct Hres as (Hq & _ & _). by split_and!; [|lia|].
  - assert (Hk : ∃ k', (if fin then new = [] ∧ dl_finished this' = true ∧ dl_source this' = s
                        else reads k' s (map snd new) (dl_source this') (dl_finished this')) ∧
      (fin = false → (read < DELAY_READ_AHEAD)%nat → (k = 0 → 0 < k')%nat → (0 < k')%nat) ∧ (k ≤ k')%nat).
    { destruct Hsrc as [->|[-> Hp]]; [exists k|exists (Datatypes.S k)]; split_and!; try done; try lia; eauto with icerpc. }
    destruct Hk as (k' & Hreads & Hk' & Hle). exists k', new. split_and!; try done; try lia.
    { assert (Hz : timer_early (MkDelay s1 d q None fin w1) = 0%nat) by (unfold timer_early; simpl; by destruct q as [|[]]). lia. }
    destruct r as [|[ev'|]]; try done. destruct Hres as (Hq & Hpos & Hfin). split_and!; [done| |].
    + intros Hf Hrd. specialize (Hpos Hf Hrd). lia.
    + intros Hf Hz. exfalso.
      assert (Hz1 : timer_early (MkDelay s1 d q None fin w1) = 0%nat) by (unfold timer_early; simpl; by destruct q as [|[]]).
      destruct (Hfin Hf Hz1) as [Hone _]. unfold head_waits in Hlt, Hone; simpl in Hlt, Hone.
      destruct q as [|[dl e] q]; [done|]. repeat case_match; simplify_eq; lia.
Qed.

Lemma delay_poll (this : Delay) : poll_spec this 0 (poll_next this).1 (poll_next this).2.
Proof.
  unfold poll_next, Delay_poll_next.
  apply (rust_loop_ind delay_body delay_rounds _ delay_decreases
    (λ st r, poll_spec st.1 st.2 r.1 r.2)).
  - intros [this0 read] [r this'] Hb. pose proof (delay_round this0 read) as Hr. rewrite Hb in Hr. by apply poll_return.
  - intros [this0 read] [this1 read1] [r this'] Hb IH. pose proof (delay_round this0 read) as Hr. rewrite Hb in Hr.
    by eapply poll_round.
Qed.

(** ** Nothing is lost *)

Lemma delay_drains n : ∀ this : Delay, length (dl_queue this) = n →
  dl_finished this = true → timer_early this = 0%nat → yields this (map snd (dl_queue this)).
Proof.
  induction n as [n IHn] using lt_wf_ind.
  assert (Hsome : ∀ p (this : Delay) sl, timer_patience sl = p → dl_sleep this = Some sl →
    length (dl_queue this) = n → dl_finished this = true → timer_early this = 0%nat →
    yields this (map snd (dl_queue this))).
  { intros p. induction p as [p IHp] using lt_wf_ind. intros this sl Hp Hsl Hn Hf He.
    pose proof (delay_poll this) as (k & new & _ & _ & Hs & _ & Hearly & Hr). rewrite Hf in Hs.
    destruct Hs as (-> & Hf' & _). rewrite app_nil_r in Hr.
    destruct (poll_next this) as [[|[ev|]] this'] eqn:Hpoll; simpl in *.
    - destruct Hr as (Hq & _ & Hfin). destruct (Hfin Hf He) as (_ & sl' & Hsl' & Hlt).
      eapply yields_pending; [done|]. rewrite <- Hq. specialize (Hlt _ Hsl).
      eapply (IHp (timer_patience sl')); [lia|done|done|congruence|done|lia].
    - destruct Hr as (deadline & Hq & _). eapply yields_item in Hpoll; [rewrite Hq; exact Hpoll|].
      eapply (IHn (length (dl_queue this'))); [rewrite <- Hn, Hq; simpl; lia|done|done|lia].
    - destruct Hr as (Hq & _ & _). rewrite Hq. by eapply yields_end. }
  intros this Hn Hf He. destruct (dl_sleep this) as [sl|] eqn:Hsl; [by eapply Hsome|].
  pose proof (delay_poll this) as (k & new & _ & _ & Hs & _ & Hearly & Hr). rewrite Hf in Hs.
  destruct Hs as (-> & Hf' & _). rewrite app_nil_r in Hr.
  destruct (poll_next this) as [[|[ev|]] this'] eqn:Hpoll; simpl in *.
  - destruct Hr as (Hq & _ & Hfin). destruct (Hfin Hf He) as (_ & sl' & Hsl' & _).
    eapply yields_pending; [done|]. rewrite <- Hq. eapply Hsome; [done|done|congruence|done|lia].
  - destruct Hr as (deadline & Hq & _). eapply yields_item in Hpoll; [rewrite Hq; exact Hpoll|].
    eapply (IHn (length (dl_queue this'))); [rewrite <- Hn, Hq; simpl; lia|done|done|lia].
  - destruct Hr as (Hq & _ & _). rewrite Hq. by eapply yields_end.
Qed.

(** The state a poll leaves owes its consumer what was owed and not given. *)
Lemma delay_follows n m : ∀ (this : Delay) l s0,
  reads n (dl_source this) l s0 true → length (dl_queue this) = m →
  dl_finished this = false → timer_early this = 0%nat → yields this (map snd (dl_queue this) ++ l).
Proof.
  revert m. induction n as [n IHn] using lt_wf_ind. intros m. induction m as [m IHm] using lt_wf_ind.
  intros this l s0 Hl Hm Hf He.
  pose proof (delay_poll this) as (k & new & _ & _ & Hs & _ & Hearly & Hr). rewrite Hf in Hs.
  assert (Hnext : ∀ this' : Delay, reads k (dl_source this) (map snd new) (dl_source this') (dl_finished this') →
    timer_early this' = 0%nat → (0 < k ∨ length (dl_queue this') < m)%nat →
    ∃ l2, l = map snd new ++ l2 ∧ yields this' (map snd (dl_queue this') ++ l2)).
  { intros this' Hs' He' Hless. pose proof (reads_prefix _ _ _ _ _ _ _ _ Hs' Hl) as Hpre.
    destruct (dl_finished this') eqn:Hf'.
    - subst l. exists []. rewrite !app_nil_r. split; [done|]. by eapply delay_drains.
    - destruct Hpre as (n2 & l2 & -> & -> & Hl2). exists l2. split; [done|].
      destruct k as [|k]; [|by eapply IHn; [|exact Hl2|..]; [lia|..]].
      eapply IHm; [|exact Hl2|done..]. destruct Hless as [?|Hless]; [lia|exact Hless]. }
  destruct (poll_next this) as [[|[ev|]] this'] eqn:Hpoll; simpl in *.
  - destruct Hr as (Hq & Hk & _). destruct (Hnext this') as (l2 & -> & Hy); [done|lia|left; apply Hk; [done|unfold DELAY_READ_AHEAD; lia]|].
    eapply yields_pending; [done|]. by rewrite Hq, map_app, <- app_assoc in Hy.
  - destruct Hr as (deadline & Hq & _). destruct (Hnext this') as (l2 & -> & Hy); [done|lia| |].
    { destruct k as [|k]; [right|left; lia]. inversion Hs; subst. destruct new; [|done].
      rewrite app_nil_r in Hq. rewrite Hq. simpl; lia. }
    rewrite app_assoc, <- map_app, Hq. simpl. by eapply yields_item.
  - destruct Hr as (Hq & Hq' & Hf'). apply app_nil in Hq as [-> ->]. rewrite Hf' in Hs.
    pose proof (reads_prefix _ _ _ _ _ _ _ _ Hs Hl) as ->. by eapply yields_end.
Qed.

(** [delay] hands out the events of its source, all of them and in order, and
    then its end: nothing waits for ever in its queue, however the clock runs. *)
Theorem delay_lossless s l d w : yields s l → yields (delay_new s d w) l.
Proof.
  intros Hy. destruct (yields_reads s l Hy) as (k & s' & Hr).
  by apply (delay_follows k 0 (delay_new s d w) l s').
Qed.

(** ** Nothing leaves early *)

(** What is seen of one poll: the instants around it, the events the source
    gave during it, the event handed out. *)
Record DelayPoll : Type := MkDelayPoll {
  dp_before : Z;
  dp_read : list (Event T E);
  dp_delivered : option (Event T E);
  dp_after : Z
}.

(** The log of successive polls. *)
Inductive delay_log : Delay → list DelayPoll → Delay → Prop :=
| log_nil this : delay_log this [] this
| log_poll this r this' read k log this'' :
    poll_next this = (r, this') →
    (if dl_finished this then read = [] else reads k (dl_source this) read (dl_source this') (dl_finished this')) →
    delay_log this' log this'' →
    delay_log this
      (MkDelayPoll (instant (dl_world this)) read (match r with Ready o => o | Pending => None end)
         (instant (dl_world this')) :: log) this''.

(** The events read, each with the instant its poll began at; the events handed
    out, each with the instant its poll ended at. *)
Definition arrivals (log : list DelayPoll) : list (Z * Event T E) :=
  concat (map (λ p, map (λ ev, (dp_before p, ev)) (dp_read p)) log).

Definition departures (log : list DelayPoll) : list (Z * Event T E) :=
  omap (λ p, (λ ev, (dp_after p, ev)) <$> dp_delivered p) log.

(** [b] leaves at least [d] after [a] came. *)
Definition shifted (d : Z) (a b : Z * Event T E) : Prop := a.2 = b.2 ∧ a.1 + d ≤ b.1.

Lemma delay_polls n : ∀ (this : Delay) pre,
  Forall2 (shifted (dl_duration this)) pre (dl_queue this) →
  ∃ log this', delay_log this log this' ∧ length log = n ∧
    ∃ first held, pre ++ arrivals log = first ++ held ∧
      Forall2 (shifted (dl_duration this)) first (departures log) ∧
      Forall2 (shifted (dl_duration this)) held (dl_queue this').
Proof.
  induction n as [|n IH]; intros this pre Hpre.
  { exists [], this. split_and!; [constructor|done|]. exists [], pre. split_and!; [by rewrite app_nil_r|constructor|done]. }
  pose proof (delay_poll this) as (k & new & Hd & _ & Hs & Hnew & _ & Hr).
  destruct (poll_next this) as [r this1] eqn:Hpoll; simpl fst in *; simpl snd in *.
  set (came := map (λ ev, (instant (dl_world this), ev)) (map snd new) : list (Z * Event T E)).
  assert (Hcame : Forall2 (shifted (dl_duration this)) (pre ++ came) (dl_queue this ++ new)).
  { apply Forall2_app; [done|]. clear -Hnew. subst came. induction Hnew as [|e l He _ IHl]; constructor; [by split|done]. }
  assert (Hlog : ∀ log this', delay_log this1 log this' →
    delay_log this (MkDelayPoll (instant (dl_world this)) (map snd new)
      (match r with Ready o => o | Pending => None end) (instant (dl_world this1)) :: log) this').
  { intros log this' Hlog. eapply (log_poll _ _ this1 _ k); [done| |done].
    destruct (dl_finished this); [by destruct Hs as [-> _]|done]. }
  rewrite <- Hd in *. destruct r as [|[ev|]].
  - destruct Hr as (Hq & _). rewrite <- Hq in Hcame.
    destruct (IH this1 _ Hcame) as (log & this' & Hl & Hn & first & held & Hsplit & Hf & Hh).
    eexists _, this'. split_and!; [by apply Hlog|simpl; lia|]. exists first, held. by rewrite <- app_assoc in Hsplit.
  - destruct Hr as (deadline & Hq & Hdl). rewrite Hq in Hcame.
    apply Forall2_cons_inv_r in Hcame as (a & pre' & [Ha1 Ha2] & Hpre' & Heq).
    destruct (IH this1 _ Hpre') as (log & this' & Hl & Hn & first & held & Hsplit & Hf & Hh).
    eexists _, this'. split_and!; [by apply Hlog|simpl; lia|]. exists (a :: first), held. split_and!; [|constructor|done].
    + change (arrivals (_ :: log)) with (came ++ arrivals log). rewrite app_assoc, Heq. simpl. by rewrite Hsplit.
    + split; simpl in *; [done|lia].
    + done.
  - destruct Hr as (Hq & Hq' & _). rewrite Hq in Hcame. rewrite <- Hq' in Hcame.
    destruct (IH this1 _ Hcame) as (log & this' & Hl & Hn & first & held & Hsplit & Hf & Hh).
    eexists _, this'. split_and!; [by apply Hlog|simpl; lia|]. exists first, held. by rewrite <- app_assoc in Hsplit.
Qed.

(** [delay] shifts its source: in any number of polls, the events handed out are
    the first of those read, in the same order, and each leaves at least the
    delay after the beginning of the poll that read it. *)
Theorem delay_shifts s d w n :
  ∃ log this', delay_log (delay_new s d w) log this' ∧ length log = n ∧
    ∃ first held, arrivals log = first ++ held ∧ Forall2 (shifted d) first (departures log) ∧
      map snd held = map snd (dl_queue this').
Proof.
  destruct (delay_polls n (delay_new s d w) []) as (log & this' & Hlog & Hn & first & held & Hsplit & Hf & Hh); [constructor|].
  exists log, this'. split_and!; [done..|]. exists first, held. split_and!; [done..|]. clear -Hh.
  induction Hh as [|a b l1 l2 [Hab _] _ IHl]; simpl; [done|]. by rewrite Hab, IHl.
Qed.
End delay.

(** ** A clock for the examples

    The world is the instants still to be read; a timer can be polled in vain
    twice, and the clock jumps to its due time when it fires. *)

#[export] Instance SimClock : Clock Z (Z * nat) := {
  instant w := w;
  timer_due := fst;
  timer_patience := snd;
  clock_now w := (w + 1, w + 1);
  timer_new w d := ((w + d, 2%nat), w);
  timer_poll sl w :=
    match sl.2 with
    | O => (Ready (), (sl, Z.max w sl.1))
    | Datatypes.S n => (Pending, ((sl.1, n), w + 1))
    end
}.

#[export] Instance SimClock_laws : ClockLaws Z (Z * nat).
Proof.
  split.
  - intros w. simpl. lia.
  - intros w d. simpl. lia.
  - intros [due n] w. destruct n; simpl; lia.
Qed.

Lemma delay_lossless_witness :
  yields (delay_new (MkScript [Ready (Next 1%nat); Pending; Ready (Next 2%nat); Ready (Complete (E:=nat))]) 10 0)
    [Next 1%nat; Next 2%nat; Complete].
Proof.
  apply delay_lossless. apply (script_yields [Ready (Next 1%nat); Pending; Ready (Next 2%nat); Ready Complete]).
Defined.

Lemma delay_shifts_witness :
  ∃ log this', delay_log (delay_new (W:=Z) (MkScript [Ready (Next 1%nat); Ready (Complete (E:=nat))]) 10 0) log this' ∧
    length log = 6%nat ∧
    ∃ first held, arrivals log = first ++ held ∧ Forall2 (shifted 10) first (departures log) ∧
      map snd held = map snd (dl_queue this').
Proof. apply delay_shifts. Defined.
