(* ===== verification/Guard.v ===== *)
(** * The stream grammar behind the operators

    What a consumer is promised is a sequence of values, at most one terminal,
    and nothing after it.  An operator that keeps a flag for it upholds the
    promise over any source, well-formed or not: [TerminalGuard] states what
    such a flag does, and the operators that have one are its instances. *)

From S2P Require Import Prelude Text Event Stream Filtering Transforming Combining ErrorHandling Utility.

(** What any number of polls of a stream delivers, whether it ends or not, and the
    stream after them. *)
Fixpoint delivered {O T E} `{Stream O (Event T E)} (n : nat) (o : O) : list (Event T E) * O :=
  match n with
  | 0 => ([], o)
  | S n =>
      let (polled, o1) := poll_next o in
      let (l, o') := delivered n o1 in
      (match polled with Ready (Some ev) => ev :: l | _ => l end, o')
  end.

(** Values, at most one terminal and nothing after it, at every moment of the life of the
    stream, which is over once it has delivered its terminal. *)
Definition keeps_grammar {O T E} `{Stream O (Event T E)} (o : O) : Prop :=
  ∀ n, let (l, o') := delivered n o in
    rx_grammar l = true ∧ (existsb is_terminal l = true → (poll_next o').1 = Ready None).

(** The flag: set with the terminal, and the end of the stream from then on. *)
Class TerminalGuard (O T E : Type) `{Stream O (Event T E)} : Type := {
  guard : O → bool;
  guard_over o : guard o = true → poll_next o = (Ready None, o);
  guard_sets o ev o' :
    poll_next o = (Ready (Some ev), o') → is_terminal ev = true → guard o' = true
}.

Lemma guard_delivered {O T E} `{TerminalGuard O T E} n (o : O) : guard o = true → delivered n o = ([], o).
Proof. intros Hg. induction n as [|n IH]; [done|]. simpl. by rewrite (guard_over _ Hg), IH. Qed.

Lemma guarded_grammar {O T E} `{TerminalGuard O T E} (o : O) : keeps_grammar o.
Proof.
  intros n. revert o. induction n as [|n IH]; intros o; [done|]. simpl.
  destruct (poll_next o) as [polled o1] eqn:Hp. specialize (IH o1).
  destruct polled as [|[ev|]]; [by destruct (delivered n o1)| |by destruct (delivered n o1)].
  destruct (is_terminal ev) eqn:Ht.
  - pose proof (guard_sets _ _ _ Hp Ht) as Hg. rewrite (guard_delivered n o1 Hg). simpl. rewrite Ht. split; [done|].
    intros _. by rewrite (guard_over _ Hg).
  - destruct (delivered n o1) as [l o']. simpl. by rewrite Ht.
Qed.

(** A loop whose body keeps the flag keeps it. *)
Lemma loop_guard_sets {O T E} (body : O → O + (poll (option (Event T E)) * O)) m (g : O → bool) :
  (∀ o o', body o = inl o' → m o' < m o) →
  (∀ o ev o', body o = inr (Ready (Some ev), o') → is_terminal ev = true → g o' = true) →
  ∀ o ev o', rust_loop body m (λ o, (Pending, o)) o = (Ready (Some ev), o') →
    is_terminal ev = true → g o' = true.
Proof.
  intros Hd Hs o.
  apply (rust_loop_ind body m (λ o, (Pending, o)) Hd
    (λ _ r, ∀ ev o', r = (Ready (Some ev), o') → is_terminal ev = true → g o' = true)); [|eauto].
  intros o1 r Hb ev o' ->. eauto.
Qed.

Section guards.
Context {S T E : Type} `{Sized S (Event T E)}.

#[export] Program Instance Take_guard : TerminalGuard (@Take S) T E := { guard := take_done }.
Next Obligation. intros [s n d]; simpl; by intros ->. Qed.
Next Obligation.
  intros [s n d] ev o'. unfold poll_next, Take_poll_next; simpl.
  destruct d; [done|]. destruct (n =? 0); [intros; by simplify_eq/=|].
  case_poll s; repeat case_match; intros; by simplify_eq/=.
Qed.

#[export] Program Instance First_guard {X} (f : X → T → bool * X) :
  TerminalGuard (H:=First_poll_next f) (@First S X) T E := { guard := first_done }.
Next Obligation. intros X f [s x c d]; simpl; by intros ->. Qed.
Next Obligation.
  intros X f [s x c d] ev o'. unfold poll_next, First_poll_next; simpl.
  destruct d; [done|]. destruct c; [intros; by simplify_eq/=|].
  apply (loop_guard_sets (First_body f) First_measure first_done (First_decreases f)).
  intros [s1 x1 c1 d1] ev1 o1. unfold First_body; simpl.
  case_poll s1; repeat case_match; intros; by simplify_eq/=.
Qed.

#[export] Program Instance CatchError_guard {R} `{Stream R (Event T E)} :
  TerminalGuard (@CatchError S R E) T E := { guard := ce_finished }.
Next Obligation.
  intros R ? o Hg. apply (loop_poll_answer _ _ CatchError_decreases).
  unfold CatchError_body. by rewrite Hg.
Qed.
Next Obligation.
  intros R ?. apply (loop_guard_sets CatchError_body CatchError_measure ce_finished CatchError_decreases).
  intros [s f r b] ev o'. unfold CatchError_body; simpl.
  destruct b; [done|]. destruct r as [r|];
    (case_poll r || case_poll s); repeat case_match; intros; simplify_eq/=; congruence.
Qed.

#[export] Program Instance Timeout_guard {W Sl} (rt_sleep : W → Z → Sl * W) sleep_poll :
  TerminalGuard (H:=Timeout_poll_next rt_sleep sleep_poll) (@Timeout S W Sl) T E := { guard := to_done }.
Next Obligation. intros W Sl ? ? [s d sl b w]; simpl; by intros ->. Qed.
Next Obligation.
  intros W Sl rs sp [s d sl b w] ev o'. unfold poll_next at 1, Timeout_poll_next; simpl.
  destruct b; [done|].
  case_poll s; repeat case_match; intros; by simplify_eq/=.
Qed.

#[export] Program Instance Merge_guard {B} `{Stream B (Event T E)} :
  TerminalGuard (@Merge S B) T E := { guard := m_completed }.
Next Obligation.
  intros B ? o Hg. apply (loop_poll_answer _ _ Merge_decreases). unfold Merge_body. by rewrite Hg.
Qed.
Next Obligation.
  intros B ?. apply (loop_guard_sets Merge_body Merge_measure m_completed Merge_decreases).
  assert (Hside : ∀ left (o : @Merge S B) (ev : Event T E) o', merge_side left o = inr (Ready (Some ev), o') →
    is_terminal ev = true → m_completed o' = true).
  { intros left [a b ld rd c lf] ev o'. unfold merge_side.
    destruct left; [destruct ld; [done|case_poll a]|destruct rd; [done|case_poll b]];
      repeat case_match; intros; by simplify_eq/=. }
  intros o ev o'. unfold Merge_body.
  destruct (m_completed o); [done|]. destruct (both_done o); [intros; by simplify_eq/=|].
  destruct (merge_side _ (set_left_first _ _)) as [o1|r1] eqn:Hs1; [|intros [= ->]; by eapply Hside].
  destruct (merge_side _ o1) as [o2|r2] eqn:Hs2; [|intros [= ->]; by eapply Hside].
  by destruct (both_done o2).
Qed.
End guards.

Section guards_projected.
Context {S O T U E X : Type} `{Sized S (Event T E)} `{Stream O (Event U E)} (f : X → T → O * X).

#[export] Program Instance SwitchMap_guard :
  TerminalGuard (H:=SwitchMap_poll_next f) (@SwitchMap S O X) U E := { guard := sm_finished }.
Next Obligation.
  intros o Hg. apply (loop_poll_answer _ _ (SwitchMap_decreases f)).
  unfold SwitchMap_body. by rewrite Hg.
Qed.
Next Obligation.
  apply (loop_guard_sets (SwitchMap_body f) SwitchMap_measure sm_finished (SwitchMap_decreases f)).
  assert (Hsrc : ∀ (o : @SwitchMap S O X) (ev : Event U E) o', sm_poll_source f o = inr (Ready (Some ev), o') →
    is_terminal ev = true → sm_finished o' = true).
  { intros [s x p e b] ev o'. unfold sm_poll_source; simpl.
    destruct e as [[]|]; [destruct p; intros; by simplify_eq/=..|].
    case_poll s; repeat case_match; intros; by simplify_eq/=. }
  intros [s x p e b] ev o'. unfold SwitchMap_body, sm_poll_projected; simpl.
  destruct b; [done|]. destruct p as [p|]; [|apply Hsrc].
  case_poll p; [apply Hsrc| |apply Hsrc]. destruct ev0; [|apply Hsrc|]; intros; by simplify_eq/=.
Qed.
End guards_projected.

Section guards_retry.
Context {X Fut R W Sl T E : Type} `{Stream R (Event T E)}.
Context (factory : X → Fut * X) (fut_poll : Fut → poll R * Fut).
Context (rt_sleep : W → Z → Sl * W) (sleep_poll : Sl → poll () * Sl).

#[export] Program Instance Retrying_guard :
  TerminalGuard (H:=Retrying_poll_next factory fut_poll rt_sleep sleep_poll) (@Retrying X Fut R W Sl) T E :=
  { guard := rt_finished }.
Next Obligation.
  intros o Hg. apply (loop_poll_answer _ _ (Retrying_decreases _ _ _ _)).
  unfold Retrying_body. by rewrite Hg.
Qed.
Next Obligation.
  apply (loop_guard_sets (Retrying_body factory fut_poll rt_sleep sleep_poll) Retrying_measure
    rt_finished (Retrying_decreases _ _ _ _)).
  assert (Hfw : ∀ (o : @Retrying X Fut R W Sl) (ev : Event T E) o', retry_forward rt_sleep o = inr (Ready (Some ev), o') →
    is_terminal ev = true → rt_finished o' = true).
  { intros [x w pol n p s sl b] ev o'. unfold retry_forward.
    destruct s as [s|]; [|done]. case_poll s; repeat case_match; intros; by simplify_eq/=. }
  intros o ev o'. unfold Retrying_body. destruct (rt_finished o); [done|].
  destruct (retry_pause sleep_poll o) as [o1|[r o1]] eqn:Hs1.
  2: { revert Hs1. unfold retry_pause. repeat case_match; intros; by simplify_eq/=. }
  destruct (retry_start factory fut_poll o1) as [o2|[r o2]] eqn:Hs2; [apply Hfw|].
  revert Hs2. unfold retry_start. repeat case_match; intros; by simplify_eq/=.
Qed.
End guards_retry.


