(* ===== verification/Operators.v ===== *)
(** * The operators as methods of [Observable] ([ice-rpc-rx/src/transform/])

    Every inherent method wraps its receiver in the combinator and boxes the
    result ([Observable::from_stream]); [ObservableInput::into_observable] turns
    a future of an observable into a cold one ([Deferred], [creation.rs]).  The
    boxed stream type is the parameter [P] of [Observable]. *)

From S2P Require Import Prelude Text Event Stream Filtering Transforming Combining Conditional ErrorHandling Utility Delay.

(** ** [Observable] as a sized stream *)

Section observable_sized.
Context {C : Type → Type} `{AsyncChannelLaws C} {P K T E : Type} `{Sized P (Event T E)}.

Definition inner_size (i : StreamInner C P K T E) : nat :=
  match i with
  | SChannel rx _ => length (cv_queue (ch_view rx))
  | SInline queue => length queue
  | SPipeline stream => stream_size stream
  end.

Lemma channel_poll_size (rx : C (Event T E)) r rx' : ch_poll_recv rx = (r, rx') →
  match r with
  | Ready (Some _) => length (cv_queue (ch_view rx')) < length (cv_queue (ch_view rx))
  | _ => rx' = rx
  end.
Proof.
  intros Hr. destruct (cv_queue (ch_view rx)) as [|a q] eqn:Hq.
  - destruct (cv_closed (ch_view rx)) eqn:Hc.
    + rewrite (ch_recv_end rx Hq Hc) in Hr. by simplify_eq.
    + rewrite (ch_recv_wait rx Hq Hc) in Hr. by simplify_eq.
  - destruct (ch_recv_some rx a q Hq) as (c1 & Hr' & Hv). rewrite Hr' in Hr. simplify_eq.
    rewrite Hv. simpl. lia.
Qed.

Lemma poll_inner_size (i : StreamInner C P K T E) r i' : poll_inner i = (r, i') →
  match r with
  | Ready (Some _) => inner_size i' < inner_size i
  | _ => inner_size i' ≤ inner_size i
  end.
Proof.
  destruct i as [rx cl|[|ev q]|p]; simpl.
  - destruct (ch_poll_recv rx) as [r' rx'] eqn:Hr. apply channel_poll_size in Hr.
    intros [= <- <-]. destruct r' as [|[]]; simpl; [by subst|done|by subst].
  - intros [= <- <-]. done.
  - intros [= <- <-]. simpl. lia.
  - destruct (poll_next p) as [r' p'] eqn:Hr. intros [= <- <-]. destruct r' as [|[]]; simpl; solve_size.
Qed.

#[export] Program Instance Observable_sized : Sized (Observable C P K T E) (Event T E) := {
  stream_size o := inner_size (inner o)
}.
Next Obligation.
  intros o. unfold poll_next, Observable_poll_next.
  destruct (poll_inner (inner o)) as [r i] eqn:Hp. apply poll_inner_size in Hp. simpl.
  destruct r as [|[]]; simpl in *; lia.
Qed.
Next Obligation.
  intros o a o'. unfold poll_next, Observable_poll_next.
  destruct (poll_inner (inner o)) as [r i] eqn:Hp. apply poll_inner_size in Hp.
  intros; simplify_eq/=. done.
Qed.
End observable_sized.

(** ** [defer] and [ObservableInput] *)

Section deferred.
(** The factory's state, its future, and the stream that future gives. *)
Context {X Fut O T E : Type} `{Stream O (Event T E)}.
Context (factory : X → Fut * X) (fut_poll : Fut → poll O * Fut).

Record Deferred : Type := MkDeferred {
  df_factory : option X;
  df_pending : option Fut;
  df_stream : option O
}.

Definition deferred_new (x : X) : Deferred := MkDeferred (Some x) None None.

(** One round; a factory asked for a second time never answers. *)
Definition Deferred_body (this : Deferred) : Deferred + (poll (option (Event T E)) * Deferred) :=
  let started :=
    match df_pending this, df_stream this with
    | None, None =>
        match df_factory this with
        | Some x => Some (MkDeferred None (Some (fst (factory x))) None)
        | None => None
        end
    | _, _ => Some this
    end in
  match started with
  | None => inr (Pending, this)
  | Some this =>
      let awaited :=
        match df_pending this with
        | Some pending =>
            match fut_poll pending with
            | (Ready observable, _) => inl (MkDeferred (df_factory this) None (Some observable))
            | (Pending, pending') =>
                inr (MkDeferred (df_factory this) (Some pending') (df_stream this))
            end
        | None => inl this
        end in
      match awaited with
      | inr this => inr (Pending, this)
      | inl this =>
          match df_stream this with
          | Some stream =>
              let (r, stream') := poll_next stream in
              inr (r, MkDeferred (df_factory this) (df_pending this) (Some stream'))
          | None => inl this
          end
      end
  end.

(** Every round returns: the loop never goes round. *)
#[export] Instance Deferred_poll_next : Stream Deferred (Event T E) :=
  rust_loop Deferred_body (λ _, 0) (λ this, (Pending, this)).

Lemma Deferred_answers o : ∃ r, Deferred_body o = inr r.
Proof.
  destruct o as [x p s]. unfold Deferred_body; simpl.
  destruct p as [p|], s as [s|]; simpl; repeat case_match; simplify_eq/=; eauto.
Qed.

Lemma Deferred_decreases (o o' : Deferred) : Deferred_body o = inl o' → 0 < 0.
Proof. intros Hb. destruct (Deferred_answers o) as [r Hr]. by rewrite Hr in Hb. Qed.

Lemma deferred_stream (s : O) l : yields s l → yields (MkDeferred None None (Some s)) l.
Proof.
  induction 1; [eapply (loop_end _ _ Deferred_decreases)
               |eapply (loop_pending _ _ Deferred_decreases)
               |eapply (loop_item _ _ Deferred_decreases)];
    try (unfold Deferred_body; scrut; reflexivity); done.
Qed.

Lemma deferred_future fut s fut' l : completes fut_poll fut s fut' → yields s l →
  yields (MkDeferred None (Some fut) None) l.
Proof.
  intros Hc Hy. induction Hc as [fut s fut' Hp|fut fut1 s fut' Hp Hc IH].
  - eapply yields_same_poll; [|by apply deferred_stream].
    unfold poll_next, Deferred_poll_next. rewrite !rust_loop_unfold by apply Deferred_decreases.
    unfold Deferred_body; simpl. by rewrite Hp.
  - eapply (loop_pending _ _ Deferred_decreases); [|by apply IH].
    unfold Deferred_body; by scrut.
Qed.

(** A deferred call is made once, by its first consumer: [defer] runs its
    factory at the first poll, awaits its future, however long, and then
    delivers exactly what the resulting observable delivers; the [expect]
    that guards the factory never fails. *)
Theorem defer_delivers x fut x' s fut' l :
  factory x = (fut, x') → completes fut_poll fut s fut' → yields s l →
  yields (deferred_new x) l.
Proof.
  intros Hf Hc Hy. eapply yields_same_poll; [|by eapply deferred_future].
  unfold poll_next, Deferred_poll_next. rewrite !rust_loop_unfold by apply Deferred_decreases.
  unfold Deferred_body; simpl. by rewrite Hf.
Qed.
End deferred.

Lemma defer_delivers_witness :
  yields (H:=Deferred_poll_next (λ x : unit, (1, x))
      (λ n, match n with 0 => (Ready (MkScript [Ready (Next 7); Ready (Complete (E:=nat))]), 0)
                       | S n' => (Pending, n') end))
    (deferred_new tt) [Next 7; Complete].
Proof.
  apply (defer_delivers (λ x, (1, x)) _ tt 1 tt (MkScript [Ready (Next 7); Ready Complete]) 0);
    [done| |apply (script_yields [Ready (Next 7); Ready Complete])].
  eapply completes_pending; [done|]. by apply completes_ready.
Defined.

(** ** The methods *)

Module Methods.
Section methods.
Context {C : Type → Type} `{AsyncChannelLaws C} {P K T E : Type} `{Sized P (Event T E)}.
Abbreviation Obs := (Observable C P K T E).
(** An observable over a boxed pipeline [Q]. *)
Abbreviation Piped Q U F := (Observable C Q K U F).

Definition filter {X} (self : Obs) (predicate : X) : Piped (Filter (S:=Obs) (X:=X)) T E :=
  from_stream (MkFilter self predicate).

Definition distinct_until_changed (self : Obs) : Piped (DistinctUntilChanged (S:=Obs) (T:=T)) T E :=
  from_stream (MkDistinct self None).

Definition take (self : Obs) (n : nat) : Piped (Take (S:=Obs)) T E :=
  from_stream (MkTake self n false).

Definition skip (self : Obs) (n : nat) : Piped (Skip (S:=Obs)) T E := from_stream (MkSkip self n).

Definition first_with {X} (self : Obs) (predicate : X) : Piped (First (S:=Obs) (X:=X)) T E :=
  from_stream (MkFirst self predicate false false).

Definition map {U X} (self : Obs) (f : X) : Piped (Map (S:=Obs) (X:=X)) U E := from_stream (MkMap self f).

Definition map_err {E2 X} (self : Obs) (f : X) : Piped (MapErr (S:=Obs) (X:=X)) T E2 :=
  from_stream (MkMapErr self f).

Definition scan {U X} (self : Obs) (initial : U) (accumulator : X) : Piped (Scan (S:=Obs) (U:=U) (X:=X)) U E :=
  from_stream (MkScan self accumulator (Some initial)).

Definition switch_map {O U X} (self : Obs) (f : X) : Piped (SwitchMap (S:=Obs) (O:=O) (X:=X)) U E :=
  from_stream (switch_map_new self f).

Definition start_with (self : Obs) (value : T) : Piped (StartWith (S:=Obs) (T:=T)) T E :=
  from_stream (MkStartWith self (Some value)).

Definition merge {B} (self : Obs) (other : B) : Piped (Merge (A:=Obs) (B:=B)) T E :=
  from_stream (merge_new self other).

Definition take_until {N} (self : Obs) (notifier : N) : Piped (TakeUntil (S:=Obs) (N:=N)) T E :=
  from_stream (take_until_new self notifier).

Definition take_until_token {Tok} (self : Obs) (token : Tok) : Piped (TakeUntilToken (S:=Obs) (K:=Tok)) T E :=
  from_stream (take_until_token_new self token).

Definition catch_error {R} (self : Obs) (f : E → R) : Piped (CatchError (S:=Obs) (R:=R) (E:=E)) T E :=
  from_stream (catch_error_new self f).

Definition tap {W} (self : Obs) (w : W) : Piped (Tap (S:=Obs) (W:=W)) T E := from_stream (MkTap self w).

Definition finalize {W} (self : Obs) (f : W → W) (w : W) : Piped (Finalize (S:=Obs) (W:=W)) T E :=
  from_stream (finalize_new self f w).

Definition timeout {W Sl} (self : Obs) (duration : Z) (w : W)
    : Piped (Timeout (S:=Obs) (W:=W) (Sl:=Sl)) T E :=
  from_stream (timeout_new self duration w).

Definition delay {W Sl} (self : Obs) (duration : Z) (w : W)
    : Piped (Delay (S:=Obs) (T:=T) (E:=E) (W:=W) (Sl:=Sl)) T E :=
  from_stream (delay_new self duration w).

Definition retry_with {X Fut R W Sl} (factory : X) (policy : RetryPolicy) (w : W)
    : Piped (Retrying (X:=X) (Fut:=Fut) (R:=R) (W:=W) (Sl:=Sl)) T E :=
  from_stream (retrying_new factory w policy).

Definition defer {X Fut O} (factory : X) : Piped (Deferred (X:=X) (Fut:=Fut) (O:=O)) T E :=
  from_stream (deferred_new factory).
End methods.
End Methods.

(** ** Pipelines *)

Section pipelines.
Context {C : Type → Type} `{AsyncChannelLaws C} {P K T E : Type} `{Sized P (Event T E)}.

Lemma take_events_values {V} n (vs : list V) :
  take_events n (List.map Next vs ++ [Complete]) =
  List.map Next (list.take n vs) ++ [Complete (E:=E)].
Proof. revert n; induction vs as [|v vs IH]; intros [|n]; simpl; [done..|]. by rewrite IH. Qed.

Lemma map_state_pure {V} (g : T → V) (vs : list T) :
  map_state (λ x v, (g v, x)) tt vs = List.map g vs.
Proof. induction vs as [|v vs IH]; simpl; [done|]. by rewrite IH. Qed.

Context {U : Type} (p : T → bool) (f : T → U).

Abbreviation Source := (Observable C P K T E).
Abbreviation Filtered := (Observable C (Filter (S:=Source) (X:=unit)) K T E).
Abbreviation Mapped := (Observable C (Map (S:=Filtered) (X:=unit)) K U E).
Abbreviation Taken := (Observable C (Take (S:=Mapped)) K U E).

#[local] Instance filtered_stream : Stream (Filter (S:=Source) (X:=unit)) (Event T E) :=
  Filter_poll_next (λ x v, (p v, x)).
#[local] Instance filtered_sized : Sized (Filter (S:=Source) (X:=unit)) (Event T E) :=
  Filter_sized (λ x v, (p v, x)).
#[local] Instance mapped_stream : Stream (Map (S:=Filtered) (X:=unit)) (Event U E) :=
  Map_poll_next (λ x v, (f v, x)).
#[local] Instance mapped_sized : Sized (Map (S:=Filtered) (X:=unit)) (Event U E) :=
  Map_sized (λ x v, (f v, x)).

(** [from(vs).filter(p).map(f).take(n)]. *)
Definition pipeline (vs : list T) (n : nat) : Taken :=
  Methods.take (Methods.map (Methods.filter (from vs) tt) tt) n.

(** A pipeline means what it reads as: [from(vs).filter(p).map(f).take(n)]
    delivers the first [n] images of the values that pass the predicate, then
    one [Complete], and [collect] on it answers that list. *)
Theorem pipeline_reads_as_lists n (vs : list T) :
  let out := list.take n (List.map f (List.filter p vs)) in
  yields (pipeline vs n) (List.map Next out ++ [Complete]) ∧
  ∃ st, completes collect_values (pipeline vs n, []) (Ok out) st.
Proof.
  intros out.
  assert (Hy : yields (pipeline vs n) (List.map Next out ++ [Complete])).
  { apply pipeline_yields. unfold out. rewrite <- take_events_values. apply take_yields.
    apply pipeline_yields. rewrite <- map_state_pure.
    apply (map_yields _ _ _ _ [Complete]); [by constructor|].
    apply pipeline_yields. rewrite <- filter_events_pure by (by constructor).
    apply filter_yields, inline_yields. }
  split; [done|]. destruct (collect_values_completes _ _ [] Hy) as [st Hc]. exists st.
  assert (Hb : before_terminal (List.map Next out ++ [Complete (E:=E)]) = (out, None)).
  { clear. induction out as [|v out IH]; simpl; [done|]. by rewrite IH. }
  by rewrite Hb in Hc.
Qed.
End pipelines.

Lemma pipeline_reads_as_lists_witness :
  ∃ st, completes (F:=_ * list nat) (collect_values
      (H0:=Observable_sized (C:=VecChannel) (H1:=Take_poll_next (H:=Observable_poll_next
             (H1:=mapped_stream (P:=Script (Event nat nat)) Nat.even (Nat.mul 10)))) ))
    (pipeline (C:=VecChannel) (P:=Script (Event nat nat)) (K:=unit) (E:=nat) [1; 2; 3; 4; 6] 2, [])
    (Ok [20; 40]) st.
Proof.
  apply (pipeline_reads_as_lists (C:=VecChannel) (P:=Script (Event nat nat)) Nat.even (Nat.mul 10) 2).
Defined.
