(* ===== verification/Bridge.v ===== *)
(** * From an observable to the samples of a call ([ice-rpc/src/transport/bridge.rs])

    The fold of a stream into wire events, the framing of the responses, the
    method table of a service and the rejections.  The encoder ([rkyv]) and the
    sink a response is pushed into ([ResponseEmitter]) are interfaces. *)

From S2P Require Import Prelude MachineInt Text Event Header Wire Stream.

(** ** [WireFolding] *)

Section folding.
Context {S T E : Type} `{Stream S (Event T E)}.

Record WireFolding : Type := MkWireFolding { wf_source : S; wf_pending : option (Event T E) }.

Definition wire_folding_new (source : S) : WireFolding := MkWireFolding source None.

(** The event the poll works on: the look-ahead, or the next of the source. *)
Definition wf_event (this : WireFolding) : poll (option (Event T E)) * S :=
  match wf_pending this with
  | Some event => (Ready (Some event), wf_source this)
  | None => poll_next (wf_source this)
  end.

#[export] Instance WireFolding_poll_next : Stream WireFolding (WireEvent T E) := λ this,
  match wf_event this with
  | (Pending, s) => (Pending, MkWireFolding s None)
  | (Ready None, s) => (Ready None, MkWireFolding s None)
  | (Ready (Some (Next value)), s) =>
      match poll_next s with
      | (Ready (Some Complete), s') => (Ready (Some (WCompleteWith value)), MkWireFolding s' None)
      | (Ready other, s') => (Ready (Some (WNext value)), MkWireFolding s' other)
      | (Pending, s') => (Ready (Some (WNext value)), MkWireFolding s' None)
      end
  | (Ready (Some other), s) => (Ready (Some (wire_from other)), MkWireFolding s None)
  end.

Definition wf_size `{!Sized S (Event T E)} (this : WireFolding) : nat :=
  stream_size (wf_source this) + match wf_pending this with Some _ => 1 | None => 0 end.

#[export] Program Instance WireFolding_sized `{!Sized S (Event T E)} :
  Sized WireFolding (WireEvent T E) := { stream_size := wf_size }.
Next Obligation.
  intros ? [s [p|]]; unfold poll_next, WireFolding_poll_next, wf_event, wf_size; simpl.
  - destruct p; [|simpl; lia..]. case_poll s; [|destruct ev|]; simpl; solve_size.
  - case_poll s; [simpl; solve_size| |simpl; solve_size].
    destruct ev; [|simpl; solve_size..]. case_poll s'; [|destruct ev|]; simpl; solve_size.
Qed.
Next Obligation.
  intros ? [s [p|]] a o'; unfold poll_next, WireFolding_poll_next, wf_event, wf_size; simpl.
  - destruct p; [|intros; simplify_eq/=; lia..].
    case_poll s; [|destruct ev|]; intros; simplify_eq/=; solve_size.
  - case_poll s; [done| |done].
    destruct ev; [|intros; simplify_eq/=; solve_size..].
    case_poll s'; [|destruct ev|]; intros; simplify_eq/=; solve_size.
Qed.

Context `{!Fused S (Event T E)}.

(** What the other side expands the folded events to. *)
Definition expand_all (ws : list (WireEvent T E)) : list (Event T E) := mjoin (map expand_wire ws).

(** The folded stream delivers something the consumer reads as [l]. *)
Definition folds (o : WireFolding) (l : list (Event T E)) : Prop :=
  ∃ ws, yields o ws ∧ expand_all ws = map wire_view l.

Lemma wf_poll_none s ev s1 : poll_next s = (Ready (Some ev), s1) →
  poll_next (MkWireFolding s None) = poll_next (MkWireFolding s1 (Some ev)).
Proof.
  intros Hp. change (WireFolding_poll_next (MkWireFolding s None) =
    WireFolding_poll_next (MkWireFolding s1 (Some ev))).
  unfold WireFolding_poll_next, wf_event; simpl. by rewrite Hp.
Qed.

Lemma folds_cons o w o' evs l : poll_next o = (Ready (Some w), o') → folds o' l →
  expand_wire w = map wire_view evs → folds o (evs ++ l).
Proof.
  intros Hp (ws & Hws & He) Hw. exists (w :: ws). split; [by eapply yields_item|].
  unfold expand_all in *; simpl. by rewrite He, Hw, map_app.
Qed.

Lemma folds_terminal s ev l : is_terminal ev = true →
  folds (MkWireFolding s None) l → folds (MkWireFolding s (Some ev)) (ev :: l).
Proof.
  intros Ht Hf. apply (folds_cons _ (wire_from ev) (MkWireFolding s None) [ev]); [|done|].
  - by destruct ev.
  - apply expand_wire_from.
Qed.

Lemma fold_yields s l : yields s l →
  folds (MkWireFolding s None) l ∧ (∀ ev, folds (MkWireFolding s (Some ev)) (ev :: l)).
Proof.
  induction 1 as [s s1 Hp|s s1 l Hp Hy [IH _]|s s1 ev1 l Hp Hy [IH IHs]].
  - assert (Hnone : folds (MkWireFolding s None) []).
    { exists []. split; [|done]. eapply yields_end.
      unfold poll_next at 1, WireFolding_poll_next, wf_event; by scrut. }
    split; [done|]. intros [v| |e]; [|by apply folds_terminal..].
    exists [WNext v]. split; [|done].
    eapply yields_item; [unfold poll_next at 1, WireFolding_poll_next; by scrut|].
    eapply yields_end. unfold poll_next at 1, WireFolding_poll_next, wf_event; simpl.
    by rewrite (fused _ _ Hp).
  - assert (Hnone : folds (MkWireFolding s None) l).
    { destruct IH as (ws & Hws & He). exists ws. split; [|done]. eapply yields_pending; [|done].
      unfold poll_next at 1, WireFolding_poll_next, wf_event; by scrut. }
    split; [done|]. intros [v| |e]; [|by apply folds_terminal..].
    apply (folds_cons _ (WNext v) (MkWireFolding s1 None) [Next v]); [|done|done].
    unfold poll_next at 1, WireFolding_poll_next; by scrut.
  - assert (Hnone : folds (MkWireFolding s None) (ev1 :: l)).
    { destruct (IHs ev1) as (ws & Hws & He). exists ws. split; [|done].
      eapply yields_same_poll; [by apply wf_poll_none|done]. }
    split; [done|]. intros [v| |e]; [|by apply folds_terminal..].
    destruct ev1 as [v1| |e1].
    + apply (folds_cons _ (WNext v) (MkWireFolding s1 (Some (Next v1))) [Next v]); [|apply IHs|done].
      unfold poll_next at 1, WireFolding_poll_next; by scrut.
    + apply (folds_cons _ (WCompleteWith v) (MkWireFolding s1 None) [Next v; Complete]); [|apply IH|done].
      unfold poll_next at 1, WireFolding_poll_next; by scrut.
    + apply (folds_cons _ (WNext v) (MkWireFolding s1 (Some (Error e1))) [Next v]); [|apply IHs|done].
      unfold poll_next at 1, WireFolding_poll_next; by scrut.
Qed.

(** The event a poll of the fold starts from: the one read ahead, or the next of the
    source. *)
Definition next_event (o : WireFolding) (ev : Event T E) (s : S) : Prop :=
  wf_pending o = Some ev ∧ s = wf_source o ∨
  wf_pending o = None ∧ poll_next (wf_source o) = (Ready (Some ev), s).

(** C11. The fold into wire events is lossless and never holds a value back:
    whatever the pauses of the source, the consumer's expansion of what is
    published is the source's sequence ([Empty] read as the end of the stream).
    In every state of the fold, with an event read ahead or not: a value and the
    [Complete] that is ready behind it travel as one sample, a value followed by
    silence is published at once, an event that was read ahead is what the next
    poll publishes first, and the fold waits only when its source does, with
    nothing in hand. *)
Theorem wire_folding_lossless s l :
  yields s l →
  folds (wire_folding_new s) l ∧
  (∀ o v s1 s2, next_event o (Next v) s1 → poll_next s1 = (Ready (Some Complete), s2) →
     poll_next o = (Ready (Some (WCompleteWith v)), MkWireFolding s2 None)) ∧
  (∀ o v s1 s2, next_event o (Next v) s1 → poll_next s1 = (Pending, s2) →
     poll_next o = (Ready (Some (WNext v)), MkWireFolding s2 None)) ∧
  (∀ o ev, wf_pending o = Some ev →
     ∃ w o', poll_next o = (Ready (Some w), o') ∧ head (expand_wire w) = Some (wire_view ev)) ∧
  (∀ o o', poll_next o = (Pending, o') →
     wf_pending o = None ∧ wf_pending o' = None ∧ poll_next (wf_source o) = (Pending, wf_source o')).
Proof.
  intros Hy. split; [by apply fold_yields|].
  assert (Hev : ∀ o ev s1, next_event o ev s1 → wf_event o = (Ready (Some ev), s1)).
  { intros o ev s1 [[Hp ->]|[Hp Hs]]; unfold wf_event; by rewrite Hp. }
  split_and!.
  - intros o v s1 s2 Ho H2. unfold poll_next at 1, WireFolding_poll_next. by rewrite (Hev _ _ _ Ho), H2.
  - intros o v s1 s2 Ho H2. unfold poll_next at 1, WireFolding_poll_next. by rewrite (Hev _ _ _ Ho), H2.
  - intros o ev Hp. unfold poll_next at 1, WireFolding_poll_next, wf_event. rewrite Hp.
    destruct ev as [v| |e]; [|by eauto|destruct e; by eauto].
    destruct (poll_next (wf_source o)) as [[|[[]|]] s']; by eauto.
  - intros [src pending] o'. unfold poll_next at 1, WireFolding_poll_next, wf_event. simpl.
    destruct pending as [[v| |e]|]; [destruct (poll_next src) as [[|[[]|]] s']; done|done|done|].
    destruct (poll_next src) as [[|[[v| |e]|]] s']; try done; [by intros [= <-]|].
    destruct (poll_next s') as [[|[[]|]] s'']; done.
Qed.
End folding.

Lemma wire_folding_lossless_witness :
  folds (wire_folding_new (MkScript [Ready (Next 1); Pending; Ready (Next 2); Ready (Complete (E:=nat))]))
    [Next 1; Next 2; Complete].
Proof.
  apply wire_folding_lossless. apply (script_yields [Ready (Next 1); Pending; Ready (Next 2); Ready Complete]).
Defined.

(** ** The encoder and the sink *)

(** [rkyv] at the two types that travel in a response. *)
Class Codec (T E : Type) : Type := {
  encode_event : WireEvent T E → option bytes;
  decode_event : bytes → option (WireEvent T E);
  encode_error : RpcError → option bytes;
  decode_error : bytes → option RpcError;
  (** The text of the failure, for bytes that do not decode. *)
  decode_failure : bytes → string
}.

(** What is archived decodes to what it was. *)
Class CodecLaws (T E : Type) `{Codec T E} : Prop := {
  decode_encode_event w bs : encode_event w = Some bs → decode_event bs = Some w;
  decode_encode_error e bs : encode_error e = Some bs → decode_error bs = Some e
}.

(** An archive format for integer values and errors, to run examples with: a
    tag, then the fields. *)
Definition error_code (e : RpcError) : bytes :=
  match e with
  | SerializationError => [0]
  | TransportError m => 1 :: as_bytes m
  | RpcTimeout => [2]
  | Cancelled => [3]
  | Internal m => 4 :: as_bytes m
  | ProtocolMismatch m => 5 :: as_bytes m
  | UnknownMethod m => 6 :: as_bytes m
  | UnknownService m => 7 :: as_bytes m
  | IncompatibleVersion a b => [8; a; b]
  end%Z.

Definition error_decode (bs : bytes) : option RpcError :=
  match bs with
  | [0] => Some SerializationError
  | 1 :: m => Some (TransportError (of_bytes m))
  | [2] => Some RpcTimeout
  | [3] => Some Cancelled
  | 4 :: m => Some (Internal (of_bytes m))
  | 5 :: m => Some (ProtocolMismatch (of_bytes m))
  | 6 :: m => Some (UnknownMethod (of_bytes m))
  | 7 :: m => Some (UnknownService (of_bytes m))
  | [8; a; b] => Some (IncompatibleVersion a b)
  | _ => None
  end%Z.

#[export] Instance ByteCodec : Codec Z Z := {
  encode_event w := Some match w with
                         | WNext v => [10; v]
                         | WComplete => [11]
                         | WCompleteWith v => [12; v]
                         | WError e => [13; e]
                         | WRpcError e => 14 :: error_code e
                         end%Z;
  decode_event bs := match bs with
                     | [10; v] => Some (WNext v)
                     | [11] => Some WComplete
                     | [12; v] => Some (WCompleteWith v)
                     | [13; e] => Some (WError e)
                     | 14 :: e => WRpcError <$> error_decode e
                     | _ => None
                     end%Z;
  encode_error e := Some (error_code e);
  decode_error := error_decode;
  decode_failure _ := "invalid archive"%string
}.

Lemma error_decode_code e : error_decode (error_code e) = Some e.
Proof. destruct e; simpl; by rewrite ?of_as_bytes. Qed.

#[export] Instance ByteCodec_laws : CodecLaws Z Z.
Proof.
  split.
  - intros [] bs [= <-]; simpl; by rewrite ?error_decode_code.
  - intros e bs [= <-]. apply error_decode_code.
Qed.

(** [trait ResponseEmitter]: [false] asks the producer to stop. *)
Class ResponseEmitter (M : Type) : Type := emit : M → EventKind → bytes → bool * M.

(** [CollectEmitter]. *)
Definition CollectEmitter : Type := list (EventKind * bytes).

#[export] Instance CollectEmitter_emit : ResponseEmitter CollectEmitter := λ samples kind payload,
  (true, samples ++ [(kind, payload)]).

(** [CollectEmitter::take]. *)
Definition collect_take (samples : CollectEmitter) : list (EventKind * bytes) * CollectEmitter :=
  (samples, []).

(** ** [observable_to_responses] *)

Section responses.
Context {S T E M : Type} `{Sized S (Event T E)} `{Codec T E} `{ResponseEmitter M}.

(** The frame of one wire event: a technical error travels bare. *)
Definition frame (wire : WireEvent T E) : EventKind * option bytes :=
  match wire with
  | WRpcError err => (KRpcError, encode_error err)
  | _ => (wire_kind wire, encode_event wire)
  end.

Definition responses_body (st : WireFolding (S:=S) (T:=T) (E:=E) * M)
    : (WireFolding * M) + (poll () * (WireFolding * M)) :=
  let (stream, emitter) := st in
  match poll_next stream with
  | (Pending, stream') => inr (Pending, (stream', emitter))
  | (Ready None, stream') => inr (Ready (), (stream', emitter))
  | (Ready (Some wire), stream') =>
      match frame wire with
      | (kind, Some bs) =>
          let (more, emitter') := emit emitter kind bs in
          if more then inl (stream', emitter') else inr (Ready (), (stream', emitter'))
      | (_, None) => inr (Ready (), (stream', emitter))
      end
  end.

(** One poll of the future. *)
Definition observable_to_responses
    : WireFolding (S:=S) (T:=T) (E:=E) * M → poll () * (WireFolding * M) :=
  rust_loop responses_body (λ st, stream_size st.1) (λ st, (Pending, st)).

Lemma responses_decreases st st' :
  responses_body st = inl st' → stream_size st'.1 < stream_size st.1.
Proof.
  destruct st as [o m]. unfold responses_body. case_poll o; intros; repeat case_match; simplify_eq.
  by eapply poll_size_lt.
Qed.
End responses.

(** The samples of a sequence of wire events, up to the first that cannot be
    encoded. *)
Fixpoint frames {T E} `{Codec T E} (ws : list (WireEvent T E)) : list (EventKind * bytes) :=
  match ws with
  | [] => []
  | w :: ws' => match frame w with
                | (kind, Some bs) => (kind, bs) :: frames ws'
                | (_, None) => []
                end
  end.

(** A collector is given the frames of the whole stream. *)
Lemma collect_responses {S T E} `{Sized S (Event T E)} `{Codec T E}
    (o : WireFolding (S:=S) (T:=T) (E:=E)) ws (acc : CollectEmitter) : yields o ws →
  ∃ o', completes observable_to_responses (o, acc) () (o', acc ++ frames ws).
Proof.
  intros Hy; revert acc; induction Hy as [o o1 Hp|o o1 ws Hp Hy IH|o o1 w ws Hp Hy IH]; intros acc.
  - exists o1. apply completes_ready. unfold observable_to_responses.
    rewrite rust_loop_unfold by apply responses_decreases. unfold responses_body. rewrite Hp.
    simpl. by rewrite app_nil_r.
  - destruct (IH acc) as [o' Hc]. exists o'. eapply completes_pending; [|done].
    unfold observable_to_responses. rewrite rust_loop_unfold by apply responses_decreases.
    unfold responses_body. by rewrite Hp.
  - simpl. destruct (frame w) as [kind [bs|]] eqn:Hf.
    + destruct (IH (acc ++ [(kind, bs)])) as [o' Hc]. exists o'.
      rewrite <- app_assoc in Hc. eapply completes_loop; [apply responses_decreases| |done].
      unfold responses_body. by rewrite Hp, Hf.
    + exists o1. apply completes_ready. unfold observable_to_responses.
      rewrite rust_loop_unfold by apply responses_decreases. unfold responses_body. rewrite Hp, Hf.
      by rewrite app_nil_r.
Qed.

(** ** The method table *)

(** A handler turns a request into a task; it may already push to its sink
    (a payload that does not decode is answered on the spot). *)
Definition MethodHandler (Task M : Type) : Type := RpcHeader → bytes → M → Task * M.

Record MethodEntry (Task M : Type) : Type := MkMethodEntry {
  me_handler : MethodHandler Task M;
  me_oneway : bool
}.
Arguments MkMethodEntry {Task M} _ _.
Arguments me_handler {Task M} _.
Arguments me_oneway {Task M} _.

Record DispatchedRequest (Task : Type) : Type := MkDispatched {
  dr_task : Task;
  dr_expects_response : bool
}.
Arguments MkDispatched {Task} _ _.
Arguments dr_task {Task} _.
Arguments dr_expects_response {Task} _.

Record ServiceDispatcher (Task M : Type) : Type := MkDispatcher {
  sd_service : ServiceRef;
  sd_handlers : gmap Z (MethodEntry Task M)
}.
Arguments MkDispatcher {Task M} _ _.
Arguments sd_service {Task M} _.
Arguments sd_handlers {Task M} _.

Section dispatcher.
Context {Task M : Type}.
Implicit Type d : ServiceDispatcher Task M.

Definition dispatcher_new (service : ServiceRef) : ServiceDispatcher Task M := MkDispatcher service ∅.

Definition method {I} `{MethodId I} d (id : I) (handler : MethodHandler Task M) :
    ServiceDispatcher Task M :=
  MkDispatcher (sd_service d) (<[method_id id := MkMethodEntry handler false]> (sd_handlers d)).

Definition oneway_method {I} `{MethodId I} d (id : I) (handler : MethodHandler Task M) :
    ServiceDispatcher Task M :=
  MkDispatcher (sd_service d) (<[method_id id := MkMethodEntry handler true]> (sd_handlers d)).

Definition dispatch d (id : Z) (header : RpcHeader) (payload : bytes) (emitter : M)
    : option (DispatchedRequest Task) * M :=
  match sd_handlers d !! id with
  | Some entry =>
      let (task, emitter') := me_handler entry header payload emitter in
      (Some (MkDispatched task (negb (me_oneway entry))), emitter')
  | None => (None, emitter)
  end.
End dispatcher.

(** ** Rejections *)

Section rejections.
Context {T E M : Type} `{Codec T E} `{ResponseEmitter M}.

Definition emit_rpc_error (err : RpcError) (emitter : M) : bool * M :=
  match encode_error (T:=T) (E:=E) err with
  | Some bs => emit emitter KRpcError bs
  | None => (false, emitter)
  end.

(** A payload that does not decode as the method's request is answered. *)
Definition reject_undecodable (emitter : M) : M := (emit_rpc_error SerializationError emitter).2.

(** A one-way one is not. *)
Definition reject_undecodable_oneway (emitter : M) : M := emitter.

Definition reject_json_request (emitter : M) : M := (emit_rpc_error SerializationError emitter).2.
Definition reject_json_dispatch (message : string) (emitter : M) : M :=
  (emit_rpc_error (Internal message) emitter).2.
Definition reject_json_response (emitter : M) : M := (emit_rpc_error SerializationError emitter).2.
End rejections.
