(* ===== verification/Publish.v ===== *)
(** * Publication of one sample ([ice-rpc/src/transport/publish.rs], [notify.rs])

    The retrying write both sides go through, its one-shot counterpart, and the
    coalescing of the wake-up notifications.  The bus is iceoryx2, whose code is
    not part of the repository: [Bus] is what the transport uses of it and of
    the operating system (the clock, the signal flag, the two ways to wait), and
    [BusLaws] what it relies on. *)

From S2P Require Import Prelude MachineInt Text Event Header.

Local Open Scope Z_scope.

(** ** The bus *)

(** A sample: the header and the bytes behind it. *)
Abbreviation Sample := (RpcHeader * bytes)%type.

Class Bus (W : Type) : Type := {
  (** The clock in nanoseconds, how many samples were loaned (a payload is
      copied into each), and the samples a subscriber has taken. *)
  bus_clock : W → Z;
  bus_loaned : W → nat;
  bus_delivered : W → list Sample;
  instant_now : W → Z * W;
  number_of_subscribers : W → nat * W;
  loan_slice_uninit : W → nat → result () string * W;
  (** How many subscribers took the sample. *)
  send_sample : W → RpcHeader → bytes → result nat string * W;
  shutdown_requested : W → bool * W;
  termination_requested : W → bool * W;
  request_shutdown : W → W;
  yield_now : W → W;
  thread_sleep : W → Z → W
}.

(** An operation that publishes nothing; time may pass. *)
Definition quiet {W} `{Bus W} (w w' : W) : Prop :=
  bus_clock w ≤ bus_clock w' ∧ bus_delivered w' = bus_delivered w.

(** One that copies no payload either. *)
Definition idle {W} `{Bus W} (w w' : W) : Prop := quiet w w' ∧ bus_loaned w' = bus_loaned w.

Class BusLaws (W : Type) `{Bus W} : Prop := {
  now_law w : (instant_now w).1 = bus_clock (instant_now w).2 ∧ idle w (instant_now w).2;
  subscribers_law w : idle w (number_of_subscribers w).2;
  loan_law w n : quiet w (loan_slice_uninit w n).2;
  send_law w h p :
    bus_clock w ≤ bus_clock (send_sample w h p).2 ∧
    bus_delivered (send_sample w h p).2 =
      bus_delivered w ++ match (send_sample w h p).1 with
                         | Ok (S _) => [(h, p)]
                         | _ => []
                         end;
  shutdown_law w : idle w (shutdown_requested w).2;
  termination_law w : idle w (termination_requested w).2;
  request_shutdown_law w : idle w (request_shutdown w);
  yield_law w : idle w (yield_now w);
  sleep_law w d : 0 ≤ d →
    idle w (thread_sleep w d) ∧ bus_clock w + d ≤ bus_clock (thread_sleep w d)
}.

Lemma quiet_refl {W} `{Bus W} (w : W) : quiet w w.
Proof. split; [lia|done]. Qed.

Lemma quiet_trans {W} `{Bus W} (w1 w2 w3 : W) : quiet w1 w2 → quiet w2 w3 → quiet w1 w3.
Proof. intros [? ?] [? ?]. split; [lia|congruence]. Qed.

Lemma idle_quiet {W} `{Bus W} (w w' : W) : idle w w' → quiet w w'.
Proof. by intros [? _]. Qed.
#[local] Hint Resolve idle_quiet quiet_trans : icerpc.

Lemma idle_trans {W} `{Bus W} (w1 w2 w3 : W) : idle w1 w2 → idle w2 w3 → idle w1 w3.
Proof. intros [? ?] [? ?]. split; [by eapply quiet_trans|congruence]. Qed.

(** ** The operations *)

Definition PUBLISH_SPIN_ATTEMPTS : nat := 4096.
(** One millisecond, in nanoseconds. *)
Definition PUBLISH_RETRY_SLEEP : Z := 1000000.

Definition transport_error (context err : string) : RpcError :=
  TransportError (context +:+ ": " +:+ err).

Section publish.
Context {W : Type} `{Bus W}.

(** A zero-length payload still needs a sample. *)
Definition sample_payload (payload : bytes) : bytes :=
  match payload with [] => [0] | _ => payload end.

Definition try_publish (header : RpcHeader) (payload : bytes) (w : W) : result bool RpcError * W :=
  let payload := sample_payload payload in
  match loan_slice_uninit w (length payload) with
  | (Err e, w) => (Err (transport_error "loan sample" e), w)
  | (Ok _, w) =>
      match send_sample w header payload with
      | (Err e, w) => (Err (transport_error "send sample" e), w)
      | (Ok delivered, w) => (Ok (0 <? delivered)%nat, w)
      end
  end.

Definition publish_one_way (header : RpcHeader) (payload : bytes) (w : W)
    : result bool RpcError * W :=
  let (subscribers, w) := number_of_subscribers w in
  if (subscribers =? 0)%nat then (Ok false, w) else try_publish header payload w.

(** [backoff]: the new attempt count, or the error that ends the wait. *)
Definition backoff (attempts : nat) (w : W) : result nat RpcError * W :=
  if (attempts <? PUBLISH_SPIN_ATTEMPTS)%nat then (Ok (S attempts), yield_now w)
  else
    let (terminate, w) := termination_requested w in
    if terminate then (Err Cancelled, request_shutdown w)
    else (Ok attempts, thread_sleep w PUBLISH_RETRY_SLEEP).

Definition no_subscriber : RpcError :=
  TransportError "no subscriber connected (is the provider running?)".
Definition buffer_full : RpcError :=
  TransportError "delivery refused: the subscriber buffer stayed full".

Abbreviation publishing := (nat * W)%type.
Abbreviation published := (result () RpcError * W)%type.

(** Waiting before another attempt, unless the deadline has passed. *)
Definition wait_or_give_up (deadline : Z) (err : RpcError) (attempts : nat) (w : W)
    : publishing + published :=
  let (now, w) := instant_now w in
  if deadline <=? now then inr (Err err, w)
  else
    match backoff attempts w with
    | (Err e, w) => inr (Err e, w)
    | (Ok attempts, w) => inl (attempts, w)
    end.

(** One round of the [loop]. *)
Definition publish_body (deadline : Z) (header : RpcHeader) (payload : bytes) (st : publishing)
    : publishing + published :=
  let (attempts, w) := st in
  let (stop, w) := shutdown_requested w in
  if stop then inr (Err Cancelled, w)
  else
    let (subscribers, w) := number_of_subscribers w in
    if (subscribers =? 0)%nat then wait_or_give_up deadline no_subscriber attempts w
    else
      match try_publish header payload w with
      | (Err e, w) => inr (Err e, w)
      | (Ok true, w) => inr (Ok (), w)
      | (Ok false, w) => wait_or_give_up deadline buffer_full attempts w
      end.

(** The yields left, and the sleeps left before the deadline. *)
Definition publish_measure (deadline : Z) (st : publishing) : nat :=
  (PUBLISH_SPIN_ATTEMPTS - st.1) +
  Z.to_nat ((deadline - bus_clock st.2) / PUBLISH_RETRY_SLEEP + 1).

(** No answer of the code: the measure is always enough. *)
Definition out_of_fuel : RpcError := Internal "out of fuel".

Definition publish_until_delivered (header : RpcHeader) (payload : bytes) (timeout : Z) (w : W)
    : published :=
  let (now, w) := instant_now w in
  let deadline := now + timeout in
  rust_loop (publish_body deadline header payload) (publish_measure deadline)
    (λ st, (Err out_of_fuel, st.2)) (O, w).

(** ** Properties *)

Context `{!BusLaws W}.

Lemma try_publish_spec header payload w :
  bus_clock w ≤ bus_clock (try_publish header payload w).2 ∧
  bus_delivered (try_publish header payload w).2 =
    bus_delivered w ++ match (try_publish header payload w).1 with
                       | Ok true => [(header, sample_payload payload)]
                       | _ => []
                       end.
Proof.
  unfold try_publish. set (p := sample_payload payload).
  pose proof (loan_law w (length p)) as [Hc Hd].
  destruct (loan_slice_uninit w (length p)) as [[u|e] w1]; simpl in *.
  2: { by rewrite app_nil_r. }
  pose proof (send_law w1 header p) as [Hc2 Hd2].
  destruct (send_sample w1 header p) as [[n|e] w2]; simpl in *.
  - rewrite Hd2, Hd. split; [lia|]. by destruct n.
  - rewrite Hd2, Hd. split; [lia|done].
Qed.

Lemma try_publish_err header payload w w' e : try_publish header payload w = (Err e, w') →
  e ≠ no_subscriber ∧ e ≠ buffer_full.
Proof. unfold try_publish. intros. repeat case_match; simplify_eq; split; discriminate. Qed.

Lemma backoff_spec attempts w :
  idle w (backoff attempts w).2 ∧
  match (backoff attempts w).1 with
  | Ok attempts' =>
      (attempts < PUBLISH_SPIN_ATTEMPTS)%nat ∧ attempts' = S attempts ∨
      (PUBLISH_SPIN_ATTEMPTS ≤ attempts)%nat ∧ attempts' = attempts ∧
        bus_clock w + PUBLISH_RETRY_SLEEP ≤ bus_clock (backoff attempts w).2
  | Err e => e = Cancelled
  end.
Proof.
  unfold backoff. destruct (Nat.ltb_spec attempts PUBLISH_SPIN_ATTEMPTS); simpl.
  - split; [apply yield_law|]. by left.
  - pose proof (termination_law w) as Ht. destruct (termination_requested w) as [t w1]. simpl in Ht.
    destruct t; simpl.
    + split; [|done]. eapply idle_trans; [done|]. apply request_shutdown_law.
    + destruct (sleep_law w1 PUBLISH_RETRY_SLEEP) as [Hq Hs]; [done|].
      split; [by eapply idle_trans|]. right. split; [done|]. split; [done|].
      destruct Ht as [[? _] _]. unfold PUBLISH_RETRY_SLEEP in *. lia.
Qed.

Lemma wait_or_give_up_spec deadline err attempts w :
  match wait_or_give_up deadline err attempts w with
  | inl (attempts', w') => idle w w' ∧ bus_clock w < deadline ∧
      ((attempts < PUBLISH_SPIN_ATTEMPTS)%nat ∧ attempts' = S attempts ∨
       (PUBLISH_SPIN_ATTEMPTS ≤ attempts)%nat ∧ attempts' = attempts ∧
         bus_clock w + PUBLISH_RETRY_SLEEP ≤ bus_clock w')
  | inr (r, w') => idle w w' ∧ (r = Err err ∧ deadline ≤ bus_clock w' ∨ r = Err Cancelled)
  end.
Proof.
  unfold wait_or_give_up. pose proof (now_law w) as [Hn Hq].
  destruct (instant_now w) as [now w1]. simpl in Hn, Hq. subst now.
  destruct (Z.leb_spec deadline (bus_clock w1)); [by split; [|left]|].
  pose proof (backoff_spec attempts w1) as [Hb Hs].
  destruct (backoff attempts w1) as [[attempts'|e] w2]; simpl in *.
  - split; [by eapply idle_trans|]. destruct Hq as [[Hc _] _]. split; [lia|].
    destruct Hs as [?|(? & ? & ?)]; [by left|]. right. split; [done|]. split; [done|]. lia.
  - split; [by eapply idle_trans|]. subst e. by right.
Qed.

Lemma sleeps_decrease d d' : 0 < d → d' + PUBLISH_RETRY_SLEEP ≤ d →
  (Z.to_nat (d' / PUBLISH_RETRY_SLEEP + 1) < Z.to_nat (d / PUBLISH_RETRY_SLEEP + 1))%nat.
Proof.
  intros Hd Hle. assert (0 ≤ d / PUBLISH_RETRY_SLEEP) by (apply Z.div_pos; [lia|done]).
  assert (d' / PUBLISH_RETRY_SLEEP + 1 ≤ d / PUBLISH_RETRY_SLEEP); [|lia].
  rewrite <- (Z.div_add d' 1 PUBLISH_RETRY_SLEEP) by done. apply Z.div_le_mono; [done|lia].
Qed.

(** What one round does: it answers, having delivered the sample exactly when
    it says so, or it has waited and delivered nothing. *)
Lemma publish_body_spec deadline header payload attempts w :
  match publish_body deadline header payload (attempts, w) with
  | inl (attempts', w') => quiet w w' ∧
      (publish_measure deadline (attempts', w') < publish_measure deadline (attempts, w))%nat
  | inr (r, w') => bus_clock w ≤ bus_clock w' ∧
      bus_delivered w' =
        bus_delivered w ++ match r with Ok _ => [(header, sample_payload payload)] | Err _ => [] end ∧
      (r = Err no_subscriber ∨ r = Err buffer_full → deadline ≤ bus_clock w')
  end.
Proof.
  unfold publish_body. pose proof (shutdown_law w) as Hs.
  destruct (shutdown_requested w) as [stop w1]. simpl in Hs.
  destruct stop; [destruct Hs as [[? ->] _]; rewrite app_nil_r; by intuition|].
  pose proof (subscribers_law w1) as Hn. destruct (number_of_subscribers w1) as [subs w2]. simpl in Hn.
  assert (Hq : quiet w w2) by eauto with icerpc.
  assert (Hwait : ∀ err w3, quiet w w3 →
    match wait_or_give_up deadline err attempts w3 with
    | inl (attempts', w') => quiet w w' ∧
        (publish_measure deadline (attempts', w') < publish_measure deadline (attempts, w))%nat
    | inr (r, w') => bus_clock w ≤ bus_clock w' ∧
        bus_delivered w' =
          bus_delivered w ++ match r with Ok _ => [(header, sample_payload payload)] | Err _ => [] end ∧
        (r = Err no_subscriber ∨ r = Err buffer_full → deadline ≤ bus_clock w')
    end).
  { intros err w3 Hq3. pose proof (wait_or_give_up_spec deadline err attempts w3) as Hw.
    destruct (wait_or_give_up deadline err attempts w3) as [[attempts' w']|[r w']].
    - destruct Hw as ([Hq' _] & Hd & Hcases). split; [by eapply quiet_trans|].
      destruct Hq3, Hq'. unfold publish_measure; simpl.
      assert (Hle : (deadline - bus_clock w') / PUBLISH_RETRY_SLEEP ≤
                    (deadline - bus_clock w) / PUBLISH_RETRY_SLEEP)
        by (apply Z.div_le_mono; [done|lia]).
      destruct Hcases as [[? ->]|(? & -> & ?)]; [lia|].
      pose proof (sleeps_decrease (deadline - bus_clock w) (deadline - bus_clock w')). lia.
    - destruct Hw as ([Hq' _] & Hcases). destruct (quiet_trans _ _ _ Hq3 Hq') as [Hc Hd].
      split; [done|]. destruct Hcases as [[-> ?]| ->]; rewrite app_nil_r; by intuition. }
  destruct (subs =? 0)%nat; [by apply Hwait|].
  pose proof (try_publish_spec header payload w2) as [Hc Hd].
  destruct (try_publish header payload w2) as [[[|]|e] w3] eqn:He; simpl in *.
  - destruct Hq as [? Hq2]. split; [lia|]. rewrite Hd, Hq2. split; [done|]. by intros [?|?].
  - apply Hwait. rewrite app_nil_r in Hd. eapply quiet_trans; [done|]. by split.
  - rewrite app_nil_r in *. destruct Hq as [? <-]. split; [lia|]. split; [done|].
    apply try_publish_err in He as [Hn1 Hn2]. intros [Hr|Hr]; congruence.
Qed.

Lemma publish_decreases deadline header payload s s' :
  publish_body deadline header payload s = inl s' →
  (publish_measure deadline s' < publish_measure deadline s)%nat.
Proof.
  destruct s as [a v], s' as [a' v']. intros E.
  pose proof (publish_body_spec deadline header payload a v) as Hs. rewrite E in Hs. by apply Hs.
Qed.

(** The retrying write: it always ends, and what it says is what happened. *)
Lemma publish_until_delivered_spec header payload timeout w :
  match publish_until_delivered header payload timeout w with
  | (r, w') =>
      bus_delivered w' =
        bus_delivered w ++ match r with Ok _ => [(header, sample_payload payload)] | Err _ => [] end ∧
      (r = Err no_subscriber ∨ r = Err buffer_full → bus_clock w + timeout ≤ bus_clock w')
  end.
Proof.
  unfold publish_until_delivered. pose proof (now_law w) as [Hn Hq].
  destruct (instant_now w) as [now w1]. simpl in Hn, Hq. subst now.
  set (d := bus_clock w1 + timeout).
  pose proof (rust_loop_ind (publish_body d header payload) (publish_measure d)
    (λ st, (Err out_of_fuel, st.2)) (publish_decreases _ _ _)
    (λ st rw, bus_delivered rw.2 =
        bus_delivered st.2 ++
          match rw.1 with Ok _ => [(header, sample_payload payload)] | Err _ => [] end ∧
      (rw.1 = Err no_subscriber ∨ rw.1 = Err buffer_full → d ≤ bus_clock rw.2))) as Hind.
  destruct (Hind) with (s := (O, w1)) as [Hd Ht].
  - intros [a v] [r v'] E. pose proof (publish_body_spec d header payload a v) as Hs.
    rewrite E in Hs. by destruct Hs as (_ & ? & ?).
  - intros [a v] [a' v'] rw E. pose proof (publish_body_spec d header payload a v) as Hs.
    rewrite E in Hs. destruct Hs as [[_ Hd] _]. simpl. by rewrite Hd.
  - destruct (rust_loop _ _ _ _) as [r w']. simpl in *. destruct Hq as [[Hc Hdw] _].
    split; [by rewrite Hd, Hdw|]. intros Hr. specialize (Ht Hr). subst d. lia.
Qed.

(** With nobody attached, a round copies nothing. *)
Lemma publish_body_unattended deadline header payload attempts w :
  (∀ v : W, (number_of_subscribers v).1 = O) →
  match publish_body deadline header payload (attempts, w) with
  | inl (_, w') => bus_loaned w' = bus_loaned w
  | inr (r, w') => bus_loaned w' = bus_loaned w ∧ (r = Err Cancelled ∨ r = Err no_subscriber)
  end.
Proof.
  intros Hnone. unfold publish_body. pose proof (shutdown_law w) as [_ Hs].
  destruct (shutdown_requested w) as [stop w1]. simpl in Hs. destruct stop; [by auto|].
  pose proof (subscribers_law w1) as [_ Hn]. specialize (Hnone w1).
  destruct (number_of_subscribers w1) as [subs w2]. simpl in *. subst subs. simpl.
  pose proof (wait_or_give_up_spec deadline no_subscriber attempts w2) as Hw.
  destruct (wait_or_give_up _ _ _ _) as [[a v]|[r v]]; destruct Hw as ([_ ?] & Hw); [congruence|].
  split; [congruence|]. destruct Hw as [[? _]|?]; auto.
Qed.

Lemma publish_unattended header payload timeout w :
  (∀ v : W, (number_of_subscribers v).1 = O) →
  let rw := publish_until_delivered header payload timeout w in
  bus_loaned rw.2 = bus_loaned w ∧ (rw.1 = Err Cancelled ∨ rw.1 = Err no_subscriber).
Proof.
  intros Hnone. unfold publish_until_delivered. pose proof (now_law w) as [_ [_ Hq]].
  destruct (instant_now w) as [now w1]. simpl in Hq. rewrite <- Hq.
  apply (rust_loop_ind (publish_body _ _ _) (publish_measure _) _ (publish_decreases _ _ _)
    (λ st rw, bus_loaned rw.2 = bus_loaned st.2 ∧ (rw.1 = Err Cancelled ∨ rw.1 = Err no_subscriber))).
  - intros [a v] [r v'] E. pose proof (publish_body_unattended (now + timeout) header payload a v Hnone) as Hs.
    by rewrite E in Hs.
  - intros [a v] [a' v'] rw E. pose proof (publish_body_unattended (now + timeout) header payload a v Hnone) as Hs.
    rewrite E in Hs. simpl. by rewrite Hs.
Qed.

(** A round gives up because it was asked to. *)
Definition asked_to_stop : Prop := ∃ v : W, (shutdown_requested v).1 = true ∨ (termination_requested v).1 = true.

Lemma backoff_cancelled attempts w w' e : backoff attempts w = (Err e, w') → asked_to_stop.
Proof.
  unfold backoff. destruct (attempts <? PUBLISH_SPIN_ATTEMPTS)%nat; [done|].
  destruct (termination_requested w) as [[] w1] eqn:Ht; [|done]. intros _. exists w. right. by rewrite Ht.
Qed.

Lemma publish_body_cancelled deadline header payload st w' :
  publish_body deadline header payload st = inr (Err Cancelled, w') → asked_to_stop.
Proof.
  destruct st as [attempts w]. unfold publish_body. destruct (shutdown_requested w) as [[] w1] eqn:Hs.
  { intros _. exists w. left. by rewrite Hs. }
  assert (Hwait : ∀ err v, err ≠ Cancelled → wait_or_give_up deadline err attempts v = inr (Err Cancelled, w') → asked_to_stop).
  { intros err v Hne. unfold wait_or_give_up. destruct (instant_now v) as [now v1]. destruct (deadline <=? now); [congruence|].
    destruct (backoff attempts v1) as [[a|e] v2] eqn:Hb; [done|]. intros _. by eapply backoff_cancelled. }
  destruct (number_of_subscribers w1) as [n w2]. destruct (n =? 0)%nat; [by apply Hwait|].
  destruct (try_publish header payload w2) as [[[]|e] w3] eqn:Hp; [done|by apply Hwait|].
  intros [= -> _]. unfold try_publish in Hp. repeat case_match; simplify_eq; discriminate.
Qed.

(** C8. The retrying write ends, after as many rounds as there are yields and sleeps
    before its deadline at most, and what it answers is what happened: [Ok] with
    exactly this sample handed to a subscriber, once, and an error with nothing
    handed over.  The two timeout errors are given only once the deadline has
    passed, [Cancelled] only when a stop was asked for, and while nobody is
    attached no payload is copied. *)
Theorem publish_exactly_once header payload timeout w :
  let (now, w1) := instant_now w in
  let (r, w') := publish_until_delivered header payload timeout w in
  (∃ rounds, (rounds ≤ PUBLISH_SPIN_ATTEMPTS + Z.to_nat (timeout / PUBLISH_RETRY_SLEEP + 1))%nat ∧
     loop_rounds (publish_body (now + timeout) header payload) (O, w1) rounds (r, w')) ∧
  bus_delivered w' =
    bus_delivered w ++ match r with Ok _ => [(header, sample_payload payload)] | Err _ => [] end ∧
  (r = Err no_subscriber ∨ r = Err buffer_full → bus_clock w + timeout ≤ bus_clock w') ∧
  (r = Err Cancelled → asked_to_stop) ∧
  ((∀ v : W, (number_of_subscribers v).1 = O) →
     bus_loaned w' = bus_loaned w ∧ (r = Err Cancelled ∨ r = Err no_subscriber)).
Proof.
  pose proof (publish_until_delivered_spec header payload timeout w) as Hs.
  pose proof (publish_unattended header payload timeout w) as Hu. pose proof (now_law w) as [Hn _].
  unfold publish_until_delivered in *. destruct (instant_now w) as [now w1]. simpl in Hn.
  pose proof (rust_loop_rounds (publish_body (now + timeout) header payload) (publish_measure (now + timeout))
    (λ st, (Err out_of_fuel, st.2)) (publish_decreases _ _ _) (O, w1)) as (n & Hle & Hr).
  destruct (rust_loop _ _ _ _) as [r w']. destruct Hs as [Hd Ht]. split.
  { exists n. split; [|done]. revert Hle. unfold publish_measure. cbn [fst snd].
    replace (now + timeout - bus_clock w1) with timeout by lia. lia. }
  split; [done|]. split; [done|]. split; [|done]. intros ->. clear - Hr. remember (Err Cancelled, w') as rw.
  induction Hr as [s r Hb|]; [|by auto]. subst. by eapply publish_body_cancelled.
Qed.
End publish.

(** ** A bus to try it on

    A clock that each operation advances, and, for each reading of the
    subscriber count, what it says and whether the buffer behind it is full. *)

Record SimBus : Type := MkSim {
  sim_clock : Z;
  sim_loaned : nat;
  sim_delivered : list Sample;
  sim_script : list (nat * bool)
}.

Definition sim_tick (w : SimBus) (d : Z) : SimBus :=
  MkSim (sim_clock w + d) (sim_loaned w) (sim_delivered w) (sim_script w).

#[export] Instance SimBus_bus : Bus SimBus := {
  bus_clock := sim_clock;
  bus_loaned := sim_loaned;
  bus_delivered := sim_delivered;
  instant_now w := (sim_clock w, w);
  number_of_subscribers w :=
    (match sim_script w with (n, _) :: _ => n | [] => O end, w);
  loan_slice_uninit w _ :=
    (Ok (), MkSim (sim_clock w) (S (sim_loaned w)) (sim_delivered w) (sim_script w));
  send_sample w h p :=
    match sim_script w with
    | (S n, false) :: _ =>
        (Ok (S n), MkSim (sim_clock w) (sim_loaned w) (sim_delivered w ++ [(h, p)]) (sim_script w))
    | _ => (Ok O, w)
    end;
  shutdown_requested w := (false, w);
  termination_requested w := (false, w);
  request_shutdown w := w;
  yield_now w := MkSim (sim_clock w + 1) (sim_loaned w) (sim_delivered w) (tail (sim_script w));
  thread_sleep w d := sim_tick w d
}.

#[export] Instance SimBus_laws : BusLaws SimBus.
Proof.
  split; intros; unfold idle, quiet; simpl; repeat case_match; simpl;
    rewrite ?app_nil_r; repeat split; try done; try lia.
Qed.

(** Nobody at first, then a full buffer, then a free one: the third attempt
    delivers, two payloads having been copied. *)
Lemma publish_exactly_once_witness :
  let w := MkSim 0 0 [] [(O, false); (1%nat, true); (1%nat, false)] in
  let out := publish_until_delivered RpcHeader_default [7] 100 w in
  out.1 = Ok () ∧ bus_loaned out.2 = 2%nat ∧ bus_delivered out.2 = [(RpcHeader_default, [7])].
Proof.
  intros w out. split; [vm_compute; reflexivity|]. split; [vm_compute; reflexivity|].
  pose proof (publish_exactly_once RpcHeader_default [7] 100 w) as H. cbn [instant_now SimBus_bus] in H.
  subst out. destruct (publish_until_delivered RpcHeader_default [7] 100 w) as [r w'] eqn:E.
  destruct H as (_ & H & _). assert (Hr : r = Ok ()).
  { change r with (r, w').1. rewrite <- E. vm_compute. reflexivity. }
  subst r. exact H.
Defined.
