(* ===== verification/Notify.v ===== *)
(** * Coalesced wake-up notifications ([ice-rpc/src/transport/notify.rs])

    A coalescer is one atomic shared by the threads that publish on a channel.
    [should_notify] reads the clock, loads the atomic and perhaps stores: the
    three are separate steps here, so that the threads interleave freely. *)

From S2P Require Import Prelude MachineInt.

Local Open Scope Z_scope.

Definition NEVER : Z := 0.
(** [NOTIFY_COALESCE_WINDOW.as_micros()]. *)
Definition NOTIFY_COALESCE_WINDOW : Z := 100.

(** The decision of [should_notify] on the value it loaded. *)
Definition coalesced (previous now : Z) : bool :=
  negb (previous =? NEVER) && (sat_sub now previous <? NOTIFY_COALESCE_WINDOW).

(** [should_notify] run by one thread alone: the answer and the new content. *)
Definition should_notify (cell clock : Z) : bool * Z :=
  let now := wrap 64 (clock + 1) in
  if coalesced cell now then (false, cell) else (true, now).

(** The microsecond clock, from two readings in nanoseconds. *)
Definition clock_us (base now : Z) : Z := wrap 64 (Z.max 0 (now - base) / 1000).

(** ** The threads of a channel *)

(** Where a thread is inside [should_notify]. *)
Inductive caller : Type :=
| Outside
| HasNow (now : Z)
| MustStore (now : Z).

Record Coalescer : Type := MkCoalescer {
  co_cell : Z;
  co_clock : Z;
  co_caller : nat → caller;
  (** The stamps of the notifications granted so far. *)
  co_granted : list Z
}.

Definition coalescer_new (clock : Z) : Coalescer := MkCoalescer NEVER clock (λ _, Outside) [].

Definition set_caller (f : nat → caller) (t : nat) (c : caller) : nat → caller :=
  λ t', if decide (t' = t) then c else f t'.

(** A step of the system; the label is an answer given to a thread, with the
    stamp the thread read. *)
Inductive co_step : Coalescer → option (bool * Z) → Coalescer → Prop :=
| co_tick c d : 0 ≤ d → fits 64 (co_clock c + d + 1) →
    co_step c None (MkCoalescer (co_cell c) (co_clock c + d) (co_caller c) (co_granted c))
| co_now c t : co_caller c t = Outside →
    co_step c None (MkCoalescer (co_cell c) (co_clock c)
      (set_caller (co_caller c) t (HasNow (wrap 64 (co_clock c + 1)))) (co_granted c))
| co_skip c t now : co_caller c t = HasNow now → coalesced (co_cell c) now = true →
    co_step c (Some (false, now)) (MkCoalescer (co_cell c) (co_clock c)
      (set_caller (co_caller c) t Outside) (co_granted c))
| co_load c t now : co_caller c t = HasNow now → coalesced (co_cell c) now = false →
    co_step c None (MkCoalescer (co_cell c) (co_clock c)
      (set_caller (co_caller c) t (MustStore now)) (co_granted c))
| co_store c t now : co_caller c t = MustStore now →
    co_step c (Some (true, now)) (MkCoalescer now (co_clock c)
      (set_caller (co_caller c) t Outside) (now :: co_granted c)).

Inductive co_reachable (c0 : Coalescer) : Coalescer → Prop :=
| co_refl : co_reachable c0 c0
| co_more c l c' : co_reachable c0 c → co_step c l c' → co_reachable c0 c'.

(** ** Properties *)

Definition caller_ok (clock : Z) (c : caller) : Prop :=
  match c with Outside => True | HasNow now | MustStore now => 1 ≤ now ≤ clock + 1 end.

(** The content is the stamp of a granted notification, and no stamp is ahead
    of the clock. *)
Definition co_inv (c : Coalescer) : Prop :=
  fits 64 (co_clock c + 1) ∧ 0 ≤ co_clock c ∧
  (co_cell c = NEVER ∧ co_granted c = [] ∨ co_cell c ∈ co_granted c) ∧
  (∀ t, caller_ok (co_clock c) (co_caller c t)) ∧
  (∀ g, g ∈ co_granted c → 1 ≤ g ≤ co_clock c + 1).

Lemma caller_ok_mono k k' c : k ≤ k' → caller_ok k c → caller_ok k' c.
Proof. destruct c; simpl; lia. Qed.

Lemma caller_ok_set k f t c :
  (∀ u, caller_ok k (f u)) → caller_ok k c → ∀ u, caller_ok k (set_caller f t c u).
Proof. intros Hf Hc u. unfold set_caller. by case_decide. Qed.

Lemma co_inv_step c l c' : co_inv c → co_step c l c' → co_inv c'.
Proof.
  intros (Hfit & Hpos & Hcell & Hcall & Hgr) Hstep. unfold co_inv.
  destruct Hstep as [c d Hd Hf|c t Ht|c t now Ht Hco|c t now Ht Hco|c t now Ht]; simpl;
    split_and!; try done; try lia.
  - intros t. apply (caller_ok_mono (co_clock c)); [lia|done].
  - intros g Hg%Hgr. lia.
  - apply caller_ok_set; [done|]. simpl. rewrite wrap_small by done. lia.
  - by apply caller_ok_set.
  - apply caller_ok_set; [done|]. specialize (Hcall t). by rewrite Ht in Hcall.
  - right. apply elem_of_cons. by left.
  - by apply caller_ok_set.
  - specialize (Hcall t). rewrite Ht in Hcall. simpl in Hcall.
    intros g [->|Hg]%elem_of_cons; [lia|by apply Hgr].
Qed.

Lemma co_inv_reachable k c : 0 ≤ k → fits 64 (k + 1) → co_reachable (coalescer_new k) c → co_inv c.
Proof.
  intros Hk Hf. induction 1 as [|c l c' _ IH Hs]; [|by eapply co_inv_step].
  unfold co_inv; simpl. split_and!; try done; [by left|]. by intros ? ?%elem_of_nil.
Qed.

(** However the publishing threads interleave, a wake-up is skipped only
    when another one was granted less than the window before (so the receiver
    has not parked yet), the first one is always granted, and a granted one is
    recorded: a thread that runs alone behaves as the function reads. *)
Theorem skipped_only_when_recent k c :
  0 ≤ k → fits 64 (k + 1) → co_reachable (coalescer_new k) c →
  (∀ now c', co_step c (Some (false, now)) c' →
     ∃ g, g ∈ co_granted c ∧ now - g < NOTIFY_COALESCE_WINDOW) ∧
  (co_granted c = [] → (should_notify (co_cell c) (co_clock c)).1 = true) ∧
  (∀ t, co_caller c t = Outside →
     let (answer, cell') := should_notify (co_cell c) (co_clock c) in
     ∃ c' c'' now, co_step c None c' ∧
       (co_step c' (Some (answer, now)) c'' ∨
        ∃ c1, co_step c' None c1 ∧ co_step c1 (Some (answer, now)) c'') ∧
       co_cell c'' = cell').
Proof.
  intros Hk Hf Hreach. pose proof (co_inv_reachable k c Hk Hf Hreach) as (_ & _ & Hcell & _ & Hgr).
  split; [|split].
  - intros now c' Hs. inversion Hs as [| |? t ? _ Hco| |]; subst.
    unfold coalesced in Hco. apply andb_true_iff in Hco as [Hn Hw].
    apply negb_true_iff, Z.eqb_neq in Hn. apply Z.ltb_lt in Hw. unfold sat_sub in Hw.
    destruct Hcell as [[? _]|Hg]; [done|]. exists (co_cell c). split; [done|lia].
  - intros Hnil. destruct Hcell as [[-> _]|Hg]; [done|]. rewrite Hnil in Hg. by apply elem_of_nil in Hg.
  - intros t Ht. unfold should_notify. set (now := wrap 64 (co_clock c + 1)).
    set (c1 := MkCoalescer (co_cell c) (co_clock c) (set_caller (co_caller c) t (HasNow now)) (co_granted c)).
    assert (Hnow : co_caller c1 t = HasNow now) by (simpl; unfold set_caller; by rewrite decide_True).
    destruct (coalesced (co_cell c) now) eqn:Hco.
    + eexists c1, _, now. split; [by apply co_now|]. split; [left; by apply (co_skip c1 t)|done].
    + eexists c1, _, now. split; [by apply co_now|].
      split; [right; eexists; split; [by apply (co_load c1 t)|]|].
      * apply (co_store _ t). simpl. unfold set_caller. by rewrite decide_True.
      * done.
Qed.

Lemma skipped_only_when_recent_witness :
  co_reachable (coalescer_new 7) (MkCoalescer NEVER 7 (set_caller (λ _, Outside) 0%nat (HasNow 8)) []) ∧
  (should_notify NEVER 7).1 = true ∧ (should_notify 8 50).1 = false.
Proof.
  assert (Hr : co_reachable (coalescer_new 7)
    (MkCoalescer NEVER 7 (set_caller (λ _, Outside) 0%nat (HasNow 8)) [])).
  { eapply co_more; [apply co_refl|]. apply (co_now (coalescer_new 7) 0%nat). reflexivity. }
  split; [exact Hr|]. split; [|reflexivity].
  apply (skipped_only_when_recent 7 (coalescer_new 7)); [lia|vm_compute; split; congruence|apply co_refl|reflexivity].
Defined.
