(* ===== verification/Client.v ===== *)
(** * The consumer side ([ice-rpc/src/transport/client.rs])

    One consumed channel: the table of the handlers in flight, the streams of
    its calls, the request path and the routing of the responses.  A handler
    and the stream of its call share one channel object, kept in the slot of
    the call: what the response thread sends is what the consumer polls. *)

From S2P Require Import Prelude MachineInt Text Event Header Context Wire Stream Bridge Publish Notify.

Local Open Scope Z_scope.

(** ** The ports of a channel *)

Section client.
Context {C : Type → Type} `{AsyncChannel C} {P T E : Type} `{Stream P (Event T E)} `{Codec T E}.
Context {W : Type} `{Bus W}.

(** The consumer's end of one call.  The cleanup closure captures the header of
    the request. *)
Abbreviation slot := (Observable C P RpcHeader T E).

Record ConsumerPorts : Type := MkPorts {
  (** The publisher, its service and the clock. *)
  cp_bus : W;
  (** A handler is known by the slot whose channel it sends to. *)
  cp_handlers : gmap bytes nat;
  cp_slots : list slot;
  cp_last_request_notify : Z;
  cp_wakeups : nat;
  cp_seq : Z
}.

Definition set_bus (st : ConsumerPorts) (w : W) : ConsumerPorts :=
  MkPorts w (cp_handlers st) (cp_slots st) (cp_last_request_notify st) (cp_wakeups st) (cp_seq st).
Definition set_handlers (st : ConsumerPorts) (h : gmap bytes nat) : ConsumerPorts :=
  MkPorts (cp_bus st) h (cp_slots st) (cp_last_request_notify st) (cp_wakeups st) (cp_seq st).
Definition set_slots (st : ConsumerPorts) (s : list slot) : ConsumerPorts :=
  MkPorts (cp_bus st) (cp_handlers st) s (cp_last_request_notify st) (cp_wakeups st) (cp_seq st).

(** What [open_consumer_ports] leaves. *)
Definition ports_new (w : W) : ConsumerPorts := MkPorts w ∅ [] NEVER 0 0.

(** ** The channel of a slot *)

Definition slot_chan (s : slot) : option (C (Event T E)) :=
  match inner s with SChannel rx _ => Some rx | _ => None end.

Definition with_chan (s : slot) (rx : C (Event T E)) : slot :=
  match inner s with
  | SChannel _ k => MkObservable (SChannel rx k) (terminated s)
  | _ => s
  end.

(** [tx.try_send_event]: whether it was accepted. *)
Definition send_to (tx : nat) (ev : Event T E) (st : ConsumerPorts) : bool * ConsumerPorts :=
  match cp_slots st !! tx ≫= slot_chan with
  | Some rx =>
      let (r, rx') := try_send_event rx ev in
      (is_ok r, set_slots st (alter (λ s, with_chan s rx') tx (cp_slots st)))
  | None => (false, st)
  end.

(** The last sender, or the receiver, of a call is gone. *)
Definition close_slot (tx : nat) (st : ConsumerPorts) : ConsumerPorts :=
  set_slots st
    (alter (λ s, match slot_chan s with Some rx => with_chan s (ch_close rx) | None => s end)
       tx (cp_slots st)).

(** ** Releasing a call *)

(** The entry owns the sender of the call: removing it closes the channel. *)
Definition release_handler (cid : bytes) (st : ConsumerPorts) : bool * ConsumerPorts :=
  match cp_handlers st !! cid with
  | Some tx => (true, close_slot tx (set_handlers st (delete cid (cp_handlers st))))
  | None => (false, st)
  end.

(** The wake-up of the provider, coalesced.  [base] is the origin of the
    microsecond clock. *)
Definition notify_provider (base : Z) (st : ConsumerPorts) : ConsumerPorts :=
  let (now, w) := instant_now (cp_bus st) in
  let (must, cell) := should_notify (cp_last_request_notify st) (clock_us base now) in
  MkPorts w (cp_handlers st) (cp_slots st) cell
    (if must then S (cp_wakeups st) else cp_wakeups st) (cp_seq st).

(** [ports.seq.fetch_add(1)]. *)
Definition next_seq (st : ConsumerPorts) : Z * ConsumerPorts :=
  (cp_seq st,
   MkPorts (cp_bus st) (cp_handlers st) (cp_slots st) (cp_last_request_notify st) (cp_wakeups st)
     (wrap 64 (cp_seq st + 1))).

Definition publish_best_effort (header : RpcHeader) (st : ConsumerPorts) : ConsumerPorts :=
  let (_, w) := try_publish header [] (cp_bus st) in set_bus st w.

Definition publish_cancel (base : Z) (request : RpcHeader) (p : Proc) (st : ConsumerPorts)
    : ConsumerPorts :=
  let (seq, st) := next_seq st in
  let header := with_seq (cancel_from request p) seq in
  notify_provider base (publish_best_effort header st).

(** Only a call that handed out no terminal event and is still in the table is
    cancelled. *)
Definition cancels (answered in_flight : bool) : bool := negb answered && in_flight.

(** The cleanup closure of [native_call]. *)
Definition cleanup (base : Z) (header : RpcHeader) (answered : bool) (p : Proc) (st : ConsumerPorts)
    : ConsumerPorts :=
  let (in_flight, st) := release_handler (h_correlation_id header) st in
  if cancels answered in_flight then publish_cancel base header p st else st.

(** Dropping the stream in slot [i]. *)
Definition drop_slot (base : Z) (i : nat) (p : Proc) (st : ConsumerPorts) : ConsumerPorts :=
  let st := match cp_slots st !! i ≫= drop_observable with
            | Some (header, answered) => cleanup base header answered p st
            | None => st
            end in
  close_slot i st.

(** ** Responses *)

(** The handler closure of the call [cid], whose sender is [tx]. *)
Definition handle_response (tx : nat) (cid : bytes) (kind : EventKind) (bs : bytes)
    (st : ConsumerPorts) : ConsumerPorts :=
  if decide (kind = KRpcError) then
    let error := match decode_error bs with
                 | Some err => err
                 | None => transport_error "decode rpc error" (decode_failure bs)
                 end in
    let (_, st) := send_to tx (Error (Technical error)) st in
    (release_handler cid st).2
  else
    match decode_event bs with
    | Some wire =>
        let terminal := wire_is_terminal wire in
        let (event, follow_up) := normalize_wire_event wire in
        let (sent, st) := send_to tx event st in
        if negb sent then (release_handler cid st).2
        else
          let st := match follow_up with
                    | Some next => (send_to tx next st).2
                    | None => st
                    end in
          if terminal then (release_handler cid st).2 else st
    | None =>
        let (_, st) :=
          send_to tx (Error (Technical (transport_error "decode response" (decode_failure bs)))) st in
        (release_handler cid st).2
    end.

(** The closure the response dispatcher hands to its receive loop. *)
Definition route_response (header : RpcHeader) (payload : bytes) (st : ConsumerPorts)
    : ConsumerPorts :=
  match cp_handlers st !! h_correlation_id header with
  | Some tx => handle_response tx (h_correlation_id header) (event_kind header) payload st
  | None => st
  end.

(** ** Calls *)

Definition request_header {M} `{MethodId M} (th : Thread) (service : ServiceRef) (method : M)
    (p : Proc) (st : ConsumerPorts) : RpcHeader * Proc * ConsumerPorts :=
  let (trace, p) := outgoing_trace th p in
  let (h, p) := header_request method (sr_id service) (sr_version service) p in
  let (seq, st) := next_seq st in
  (with_seq (with_span_id (with_trace h trace) (tc_parent_span_id trace)) seq, p, st).

(** [native_call] up to the registration of the handler: the header, the slot
    of the call. *)
Definition call_begin {M} `{MethodId M} (th : Thread) (service : ServiceRef) (method : M)
    (p : Proc) (st : ConsumerPorts) : RpcHeader * nat * Proc * ConsumerPorts :=
  let '(header, p, st) := request_header th service method p st in
  let tx := length (cp_slots st) in
  let st := set_slots st (cp_slots st ++ [unbounded_channel]) in
  let st := set_handlers st (<[h_correlation_id header := tx]> (cp_handlers st)) in
  (header, tx, p, st).

(** [native_call] from the publication on. *)
Definition call_publish (base : Z) (header : RpcHeader) (tx : nat) (payload : bytes) (timeout : Z)
    (st : ConsumerPorts) : result nat RpcError * ConsumerPorts :=
  let (r, w) := publish_until_delivered header payload timeout (cp_bus st) in
  let st := set_bus st w in
  match r with
  | Err e => (Err e, close_slot tx (release_handler (h_correlation_id header) st).2)
  | Ok _ =>
      let st := notify_provider base st in
      (Ok tx, set_slots st (alter (λ s, with_cleanup s header) tx (cp_slots st)))
  end.

Definition native_call {M} `{MethodId M} (base : Z) (th : Thread) (service : ServiceRef) (method : M)
    (payload : bytes) (timeout : Z) (p : Proc) (st : ConsumerPorts)
    : result nat RpcError * Proc * ConsumerPorts :=
  let '(header, tx, p, st) := call_begin th service method p st in
  let (r, st) := call_publish base header tx payload timeout st in
  (r, p, st).

Definition send_one_way {M} `{MethodId M} (base : Z) (th : Thread) (service : ServiceRef) (method : M)
    (payload : bytes) (p : Proc) (st : ConsumerPorts) : result bool RpcError * Proc * ConsumerPorts :=
  let '(header, p, st) := request_header th service method p st in
  let (r, w) := publish_one_way header payload (cp_bus st) in
  let st := set_bus st w in
  match r with
  | Err e => (Err e, p, st)
  | Ok delivered => (Ok delivered, p, if delivered then notify_provider base st else st)
  end.

(** The consumer polls its stream. *)
Definition poll_slot (i : nat) (st : ConsumerPorts) : poll (option (Event T E)) * ConsumerPorts :=
  match cp_slots st !! i with
  | Some s => let (r, s') := poll_next s in (r, set_slots st (<[i := s']> (cp_slots st)))
  | None => (Pending, st)
  end.

(** ** What a call delivers *)

(** The events one sample of a call stands for, and whether it ends it. *)
Definition sample_events (kind : EventKind) (bs : bytes) : list (Event T E) * bool :=
  if decide (kind = KRpcError) then
    ([Error (Technical match decode_error bs with
                       | Some err => err
                       | None => transport_error "decode rpc error" (decode_failure bs)
                       end)], true)
  else
    match decode_event bs with
    | Some wire => (expand_wire wire, wire_is_terminal wire)
    | None => ([Error (Technical (transport_error "decode response" (decode_failure bs)))], true)
    end.

(** The events of a sequence of samples, up to the first that ends the call. *)
Fixpoint relay (samples : list (EventKind * bytes)) : list (Event T E) * bool :=
  match samples with
  | [] => ([], false)
  | (kind, bs) :: rest =>
      let (evs, over) := sample_events kind bs in
      if over then (evs, true) else let (evs', over') := relay rest in (evs ++ evs', over')
  end.

Lemma relay_snoc samples kind bs :
  relay (samples ++ [(kind, bs)]) =
    if (relay samples).2 then relay samples
    else ((relay samples).1 ++ (sample_events kind bs).1, (sample_events kind bs).2).
Proof.
  induction samples as [|[k b] rest IH]; simpl.
  - destruct (sample_events kind bs) as [evs []]; simpl; by rewrite ?app_nil_r.
  - destruct (sample_events k b) as [evs []]; [done|]. rewrite IH.
    destruct (relay rest) as [evs' []]; simpl; [done|]. by rewrite app_assoc.
Qed.

Lemma sample_open_events kind bs :
  (sample_events kind bs).2 = false → existsb is_terminal (sample_events kind bs).1 = false.
Proof.
  unfold sample_events. case_decide; [done|]. destruct (decode_event bs) as [[]|]; done.
Qed.

(** Before its end a call delivers no terminal event. *)
Lemma relay_open samples evs handed q :
  relay samples = (evs, false) → handed ++ q = evs → existsb is_terminal handed = false.
Proof.
  intros Hrel <-. assert (Hall : existsb is_terminal (handed ++ q) = false);
    [|by rewrite existsb_app, orb_false_iff in Hall; destruct Hall].
  revert Hrel. generalize (handed ++ q). clear. induction samples as [|[k b] rest IH]; intros l Hrel; simpl in Hrel.
  - by simplify_eq.
  - pose proof (sample_open_events k b) as Ho. destruct (sample_events k b) as [evs []]; simplify_eq.
    destruct (relay rest) as [evs' over']. simplify_eq/=. rewrite existsb_app, Ho by done. by apply IH.
Qed.

(** ** The slot of a call *)

(** The stream of a call: its cleanup, whether a terminal event was handed
    out, what waits in its channel and whether that is closed. *)
Definition slot_is (s : slot) (k : option RpcHeader) (t : bool) (q : list (Event T E)) (closed : bool)
    : Prop :=
  ∃ rx, s = MkObservable (SChannel rx k) t ∧ ch_view rx = ChanView q closed None.

Context `{!AsyncChannelLaws C}.

Lemma send_open i ev st s k t q :
  cp_slots st !! i = Some s → slot_is s k t q false →
  ∃ s', send_to i ev st = (true, set_slots st (<[i := s']> (cp_slots st))) ∧
    slot_is s' k t (q ++ [ev]) false.
Proof.
  intros Hs (rx & -> & Hv). unfold send_to. rewrite Hs. simpl.
  destruct (ch_send_room rx ev) as (rx' & Hr & Hv'); [by rewrite Hv..|].
  unfold try_send_event. rewrite Hr. exists (MkObservable (SChannel rx' k) t). split.
  - f_equal. f_equal. by rewrite (list_alter_insert _ _ _ _ Hs).
  - exists rx'. split; [done|]. rewrite Hv', Hv. done.
Qed.

Lemma close_slot_eq i st s k t q c :
  cp_slots st !! i = Some s → slot_is s k t q c →
  ∃ s', close_slot i st = set_slots st (<[i := s']> (cp_slots st)) ∧ slot_is s' k t q true.
Proof.
  intros Hs (rx & -> & Hv). unfold close_slot.
  exists (MkObservable (SChannel (ch_close rx) k) t). split.
  - f_equal. by rewrite (list_alter_insert _ _ _ _ Hs).
  - exists (ch_close rx). split; [done|]. by rewrite ch_close_view, Hv.
Qed.
Lemma release_eq cid i st s k t q c :
  cp_handlers st !! cid = Some i → cp_slots st !! i = Some s → slot_is s k t q c →
  ∃ s', release_handler cid st =
      (true, set_slots (set_handlers st (delete cid (cp_handlers st))) (<[i := s']> (cp_slots st))) ∧
    slot_is s' k t q true.
Proof.
  intros Hh Hs Hi. unfold release_handler. rewrite Hh.
  destruct (close_slot_eq i (set_handlers st (delete cid (cp_handlers st))) s k t q c) as (s' & -> & ?);
    [done..|]. by exists s'.
Qed.

(** Sending to an open slot and then releasing its call. *)
Lemma send_release cid i st s k t q ev :
  cp_handlers st !! cid = Some i → cp_slots st !! i = Some s → slot_is s k t q false →
  ∃ s', (let (_, st1) := send_to i ev st in (release_handler cid st1).2) =
      set_slots (set_handlers st (delete cid (cp_handlers st))) (<[i := s']> (cp_slots st)) ∧
    slot_is s' k t (q ++ [ev]) true.
Proof.
  intros Hh Hs Hi. destruct (send_open i ev st s k t q Hs Hi) as (s1 & -> & Hi1).
  pose proof (lookup_lt_Some _ _ _ Hs).
  destruct (release_eq cid i (set_slots st (<[i := s1]> (cp_slots st))) s1 k t (q ++ [ev]) false)
    as (s2 & -> & Hi2); [done|simpl; by apply list_lookup_insert_eq|done|].
  exists s2. split; [|done]. unfold set_slots, set_handlers; simpl. by rewrite list_insert_insert_eq.
Qed.

Lemma terminal_sample cid i st s k t q ev :
  cp_handlers st !! cid = Some i → cp_slots st !! i = Some s → slot_is s k t q false →
  ∃ s', (let (sent, st1) := send_to i ev st in
         if negb sent then (release_handler cid st1).2 else (release_handler cid st1).2) =
      set_slots (set_handlers st (delete cid (cp_handlers st))) (<[i := s']> (cp_slots st)) ∧
    slot_is s' k t (q ++ [ev]) true.
Proof.
  intros Hh Hs Hi. destruct (send_release cid i st s k t q ev Hh Hs Hi) as (s1 & Heq & Hi1).
  exists s1. split; [|done]. destruct (send_to i ev st) as [[] st1]; done.
Qed.

(** What a sample of the call does to its slot and to its entry. *)
Lemma handle_response_eq cid i st s k t q kind bs :
  cp_handlers st !! cid = Some i → cp_slots st !! i = Some s → slot_is s k t q false →
  let '(evs, over) := sample_events kind bs in
  ∃ s', handle_response i cid kind bs st =
      set_slots (set_handlers st (if over : bool then delete cid (cp_handlers st) else cp_handlers st))
        (<[i := s']> (cp_slots st)) ∧
    slot_is s' k t (q ++ evs) over.
Proof.
  intros Hh Hs Hi. unfold handle_response, sample_events.
  destruct (decide (kind = KRpcError)); [by apply (send_release cid i st s)|].
  destruct (decode_event bs) as [wire|]; [|by apply (send_release cid i st s)].
  pose proof (lookup_lt_Some _ _ _ Hs).
  destruct wire as [v| |v|e|e]; simpl.
  - destruct (send_open i (Next v) st s k t q Hs Hi) as (s1 & -> & Hi1). simpl.
    exists s1. by destruct st.
  - by apply (terminal_sample cid i st s).
  - destruct (send_open i (Next v) st s k t q Hs Hi) as (s1 & -> & Hi1). simpl.
    destruct (send_release cid i (set_slots st (<[i := s1]> (cp_slots st))) s1 k t (q ++ [Next v]) Complete)
      as (s2 & Heq & Hi2); [done|simpl; by apply list_lookup_insert_eq|done|].
    exists s2. rewrite <- app_assoc in Hi2. split; [|done].
    destruct (send_to i Complete _) as [r st1] in Heq |- *. simpl. rewrite Heq.
    unfold set_slots, set_handlers; simpl. by rewrite list_insert_insert_eq.
  - by apply (terminal_sample cid i st s).
  - by apply (terminal_sample cid i st s).
Qed.
(** The two tables a call lives in. *)
Definition same_calls (st st' : ConsumerPorts) : Prop :=
  cp_slots st' = cp_slots st ∧ cp_handlers st' = cp_handlers st.

Lemma notify_same base st : same_calls st (notify_provider base st).
Proof. unfold notify_provider. by repeat case_match. Qed.

Lemma publish_cancel_same base h p st : same_calls st (publish_cancel base h p st).
Proof.
  unfold publish_cancel, publish_best_effort. simpl. destruct (try_publish _ _ _) as [r w].
  match goal with |- same_calls _ (notify_provider _ ?st1) => apply (notify_same base st1) end.
Qed.

Lemma publish_cancel_seq base h p st : cp_seq (publish_cancel base h p st) = wrap 64 (cp_seq st + 1).
Proof.
  unfold publish_cancel, publish_best_effort, next_seq. destruct (try_publish _ _ _) as [r w] eqn:Ht.
  unfold notify_provider. by repeat case_match.
Qed.

(** The entry of a call names its slot, or is gone. *)
Lemma release_any cid i st s k t q c :
  cp_handlers st !! cid = Some i ∨ cp_handlers st !! cid = None →
  cp_slots st !! i = Some s → slot_is s k t q c →
  ∃ s' c', cp_slots (release_handler cid st).2 = <[i := s']> (cp_slots st) ∧ slot_is s' k t q c' ∧
    cp_handlers (release_handler cid st).2 = delete cid (cp_handlers st) ∧
    (release_handler cid st).1 = bool_decide (is_Some (cp_handlers st !! cid)).
Proof.
  intros [Hh|Hh] Hs Hi.
  - destruct (release_eq cid i st s k t q c Hh Hs Hi) as (s' & -> & Hi'). exists s', true.
    rewrite Hh. done.
  - exists s, c. unfold release_handler. rewrite Hh. simpl.
    rewrite list_insert_id by done. by rewrite delete_id.
Qed.

Lemma close_insert i st s k t q c :
  cp_slots st !! i = Some s → slot_is s k t q c →
  ∃ s', cp_slots (close_slot i st) = <[i := s']> (cp_slots st) ∧ slot_is s' k t q true ∧
    cp_handlers (close_slot i st) = cp_handlers st.
Proof. intros Hs Hi. destruct (close_slot_eq i st s k t q c Hs Hi) as (s' & -> & ?). by exists s'. Qed.

(** The end of a call whose stream is dropped: the channel is closed, the entry
    is gone, and the Cancel is published exactly when the call was neither
    answered nor released. *)
Lemma drop_slot_eq base i p st s header t q c :
  let cid := h_correlation_id header in
  cp_handlers st !! cid = Some i ∨ cp_handlers st !! cid = None →
  cp_slots st !! i = Some s → slot_is s (Some header) t q c →
  ∃ s', cp_slots (drop_slot base i p st) = <[i := s']> (cp_slots st) ∧
    slot_is s' (Some header) t q true ∧
    cp_handlers (drop_slot base i p st) = delete cid (cp_handlers st) ∧
    let released := (release_handler cid st).2 in
    drop_slot base i p st =
      close_slot i
        (if cancels t (bool_decide (is_Some (cp_handlers st !! cid)))
         then publish_cancel base header p released else released).
Proof.
  intros cid Hh Hs Hi.
  destruct (release_any cid i st s _ _ _ _ Hh Hs Hi) as (s1 & c1 & Hs1 & Hi1 & Hh1 & Hr1).
  assert (Heq : drop_slot base i p st = close_slot i
     (if cancels t (bool_decide (is_Some (cp_handlers st !! cid)))
      then publish_cancel base header p (release_handler cid st).2 else (release_handler cid st).2)).
  { unfold drop_slot, cleanup. rewrite Hs. destruct Hi as (rx & -> & Hv). simpl.
    fold cid. rewrite <- Hr1. by destruct (release_handler cid st). }
  set (st2 := if cancels t _ then _ else _) in Heq.
  assert (Hsame : same_calls (release_handler cid st).2 st2).
  { subst st2. destruct (cancels t _); [apply publish_cancel_same|done]. }
  destruct Hsame as [Hs2 Hh2]. pose proof (lookup_lt_Some _ _ _ Hs).
  destruct (close_insert i st2 s1 (Some header) t q c1) as (s2 & Hs3 & Hi3 & Hh3);
    [rewrite Hs2, Hs1; by apply list_lookup_insert_eq|done|].
  exists s2. rewrite Heq. rewrite Hs3, Hs2, Hs1, list_insert_insert_eq.
  split_and!; [done|done| |done]. by rewrite Hh3, Hh2, Hh1.
Qed.

(** The end of [native_call]. *)
Lemma call_publish_eq base header i payload timeout st s t q c :
  let cid := h_correlation_id header in
  cp_handlers st !! cid = Some i ∨ cp_handlers st !! cid = None →
  cp_slots st !! i = Some s → slot_is s None t q c →
  let (r, st') := call_publish base header i payload timeout st in
  ∃ s', cp_slots st' = <[i := s']> (cp_slots st) ∧
    match r with
    | Ok j => j = i ∧ slot_is s' (Some header) t q c ∧ cp_handlers st' = cp_handlers st
    | Err _ => slot_is s' None t q true ∧ cp_handlers st' = delete cid (cp_handlers st)
    end.
Proof.
  intros cid Hh Hs Hi. unfold call_publish. fold cid.
  destruct (publish_until_delivered _ _ _ _) as [[u|e] w].
  - destruct (notify_same base (set_bus st w)) as [Hs1 Hh1].
    destruct Hi as (rx & -> & Hv). exists (MkObservable (SChannel rx (Some header)) t). simpl.
    rewrite (list_alter_insert _ _ _ _ (eq_trans (f_equal (.!! i) Hs1) Hs)), Hs1, Hh1.
    split_and!; try done. by exists rx.
  - destruct (release_any cid i (set_bus st w) s _ _ _ _ Hh Hs Hi) as (s1 & c1 & Hs1 & Hi1 & Hh1 & _).
    pose proof (lookup_lt_Some _ _ _ Hs).
    destruct (close_insert i (release_handler cid (set_bus st w)).2 s1 None t q c1) as (s2 & Hs2 & Hi2 & Hh2);
      [rewrite Hs1; by apply list_lookup_insert_eq|done|].
    exists s2. rewrite Hs2, Hs1, list_insert_insert_eq. split_and!; [done..|]. by rewrite Hh2, Hh1.
Qed.

Lemma poll_slot_eq i st s k t q c :
  cp_slots st !! i = Some s → slot_is s k t q c →
  ∃ s', (poll_slot i st).2 = set_slots st (<[i := s']> (cp_slots st)) ∧
    match q with
    | ev :: q' => (poll_slot i st).1 = Ready (Some ev) ∧ slot_is s' k (is_terminal ev || t) q' c
    | [] => (poll_slot i st).1 = (if c then Ready None else Pending) ∧ slot_is s' k t [] c
    end.
Proof.
  intros Hs (rx & -> & Hv). unfold poll_slot. rewrite Hs.
  unfold poll_next, Observable_poll_next. simpl. destruct q as [|ev q'].
  - destruct c.
    + rewrite ch_recv_end by (by rewrite Hv). simpl. eexists. split; [done|]. split; [done|]. by exists rx.
    + rewrite ch_recv_wait by (by rewrite Hv). simpl. eexists. split; [done|]. split; [done|]. by exists rx.
  - destruct (ch_recv_some rx ev q') as (rx' & -> & Hv'); [by rewrite Hv|]. simpl.
    eexists. split; [done|]. split; [done|]. exists rx'. rewrite Hv', Hv. simpl.
    split; [|done]. by destruct (is_terminal ev).
Qed.
(** ** The life of the calls of a channel

    The threads of a consumer share the ports: callers register and publish,
    the response thread routes samples, the consumers poll and drop.  A call is
    followed with the samples that arrived for it and the events handed out. *)

Inductive CallPhase : Type := Publishing | Live | Gone.

Record Call : Type := MkCall {
  call_header : RpcHeader;
  call_phase : CallPhase;
  call_handed : list (Event T E);
  call_arrived : list (EventKind * bytes)
}.

Definition call_cid (c : Call) : bytes := h_correlation_id (call_header c).

Record Client : Type := MkClient {
  cl_ports : ConsumerPorts;
  cl_proc : Proc;
  cl_calls : list Call
}.

Definition set_phase (c : Call) (ph : CallPhase) : Call :=
  MkCall (call_header c) ph (call_handed c) (call_arrived c).
Definition hand_out (c : Call) (polled : poll (option (Event T E))) : Call :=
  match polled with
  | Ready (Some ev) => MkCall (call_header c) (call_phase c) (call_handed c ++ [ev]) (call_arrived c)
  | _ => c
  end.
Definition arrive (c : Call) (kind : EventKind) (bs : bytes) : Call :=
  MkCall (call_header c) (call_phase c) (call_handed c) (call_arrived c ++ [(kind, bs)]).

Inductive client_step (base : Z) : Client → Client → Prop :=
| step_begin st p calls th service (method : Z) header tx p' st' :
    u64 (cid_counter p + 3) →
    call_begin th service method p st = (header, tx, p', st') →
    client_step base (MkClient st p calls)
      (MkClient st' p' (calls ++ [MkCall header Publishing [] []]))
| step_publish st p calls i c payload timeout r st' :
    calls !! i = Some c → call_phase c = Publishing →
    call_publish base (call_header c) i payload timeout st = (r, st') →
    client_step base (MkClient st p calls)
      (MkClient st' p (<[i := set_phase c (if is_ok r then Live else Gone)]> calls))
| step_sample st p calls i c header payload :
    calls !! i = Some c → call_cid c = h_correlation_id header →
    client_step base (MkClient st p calls)
      (MkClient (route_response header payload st) p
         (<[i := arrive c (event_kind header) payload]> calls))
| step_stray st p calls header payload :
    (∀ i c, calls !! i = Some c → call_cid c ≠ h_correlation_id header) →
    client_step base (MkClient st p calls) (MkClient (route_response header payload st) p calls)
| step_poll st p calls i c r st' :
    calls !! i = Some c → call_phase c = Live → poll_slot i st = (r, st') →
    client_step base (MkClient st p calls) (MkClient st' p (<[i := hand_out c r]> calls))
| step_drop st p calls i c :
    calls !! i = Some c → call_phase c = Live →
    client_step base (MkClient st p calls)
      (MkClient (drop_slot base i p st) p (<[i := set_phase c Gone]> calls))
| step_one_way st p calls th service (method : Z) payload r p' st' :
    u64 (cid_counter p + 3) →
    send_one_way base th service method payload p st = (r, p', st') →
    client_step base (MkClient st p calls) (MkClient st' p' calls).

Inductive client_reachable (base : Z) (w : W) (p : Proc) : Client → Prop :=
| client_start : client_reachable base w p (MkClient (ports_new w) p [])
| client_more c c' :
    client_reachable base w p c → client_step base c c' → client_reachable base w p c'.

(** The state of one call: what arrived is what was handed out and what waits,
    in order, and the entry is there exactly while the call is open. *)
Definition call_inv (handlers : gmap bytes nat) (i : nat) (c : Call) (s : slot) : Prop :=
  let '(evs, over) := relay (call_arrived c) in
  ∃ k q closed, slot_is s k (existsb is_terminal (call_handed c)) q closed ∧
    match call_phase c with
    | Gone => handlers !! call_cid c = None
    | ph => call_handed c ++ q = evs ∧ closed = over ∧
        handlers !! call_cid c = (if over then None else Some i) ∧
        k = match ph with Live => Some (call_header c) | _ => None end
    end.

(** The ids of the calls were allocated by this process, in order. *)
Definition ids_inv (p : Proc) (calls : list Call) : Prop :=
  u32 (proc_pid p) ∧ u64 (cid_counter p) ∧
  (∀ i c, calls !! i = Some c →
     ∃ n, 0 ≤ n < cid_counter p ∧ call_cid c = correlation_id_of (proc_pid p) n) ∧
  (∀ i j c d, calls !! i = Some c → calls !! j = Some d → call_cid c = call_cid d → i = j).

Definition client_inv (cl : Client) : Prop :=
  let st := cl_ports cl in
  ids_inv (cl_proc cl) (cl_calls cl) ∧
  length (cp_slots st) = length (cl_calls cl) ∧
  (∀ cid i, cp_handlers st !! cid = Some i → ∃ c, cl_calls cl !! i = Some c ∧ call_cid c = cid) ∧
  (∀ i c s, cl_calls cl !! i = Some c → cp_slots st !! i = Some s →
     call_inv (cp_handlers st) i c s).
Lemma ids_inv_update p calls i c c' :
  ids_inv p calls → calls !! i = Some c → call_header c' = call_header c →
  ids_inv p (<[i := c']> calls).
Proof.
  intros (Hp & Hu & Hids & Hinj) Hc Hh.
  assert (Hcid : ∀ j d, <[i := c']> calls !! j = Some d → ∃ d0, calls !! j = Some d0 ∧ call_cid d0 = call_cid d).
  { intros j d [(-> & <- & _)|[? Hd]]%list_lookup_insert_Some; [|by exists d].
    exists c. unfold call_cid. by rewrite Hh. }
  split_and!; [done|done|..].
  - intros j d (d0 & Hd & <-)%Hcid. by eapply Hids.
  - intros j1 j2 d1 d2 (e1 & ? & <-)%Hcid (e2 & ? & <-)%Hcid. by eapply Hinj.
Qed.

(** A change to one call and to its entry leaves the others as they are. *)
Lemma client_inv_update st st' p calls i c c' s' :
  client_inv (MkClient st p calls) → calls !! i = Some c → call_header c' = call_header c →
  cp_slots st' = <[i := s']> (cp_slots st) →
  cp_handlers st' = cp_handlers st ∨ cp_handlers st' = delete (call_cid c) (cp_handlers st) →
  call_inv (cp_handlers st') i c' s' →
  client_inv (MkClient st' p (<[i := c']> calls)).
Proof.
  intros (Hids & Hlen & Hhs & Hcalls) Hc Hh Hs' Hh' Hinv. simpl in *.
  assert (Hcid : call_cid c' = call_cid c) by (unfold call_cid; by rewrite Hh).
  split_and!; simpl.
  - by eapply ids_inv_update.
  - by rewrite Hs', !length_insert.
  - intros cid j Hj. assert (Hold : cp_handlers st !! cid = Some j).
    { destruct Hh' as [Hh'|Hh']; rewrite Hh' in Hj; [done|]. by apply lookup_delete_Some in Hj as []. }
    destruct (Hhs _ _ Hold) as (d & Hd & Hdc). destruct (decide (i = j)) as [->|Hne].
    + exists c'. rewrite list_lookup_insert_eq by (by eapply lookup_lt_Some).
      simplify_eq. by rewrite Hcid.
    + exists d. by rewrite list_lookup_insert_ne.
  - intros j d s Hd Hsj. rewrite Hs' in Hsj. destruct (decide (i = j)) as [->|Hne].
    + pose proof (lookup_lt_Some _ _ _ Hc). rewrite list_lookup_insert_eq in Hd by done.
      rewrite list_lookup_insert_eq in Hsj by (by rewrite Hlen). by simplify_eq.
    + rewrite list_lookup_insert_ne in Hd by done. rewrite list_lookup_insert_ne in Hsj by done.
      specialize (Hcalls j d s Hd Hsj).
      assert (Hl : cp_handlers st' !! call_cid d = cp_handlers st !! call_cid d).
      { destruct Hh' as [->| ->]; [done|]. apply lookup_delete_ne. intros Heq. apply Hne.
        destruct Hids as (_ & _ & _ & Hinj). by eapply Hinj. }
      unfold call_inv in *. by rewrite Hl.
Qed.

(** The entry of a known call names its slot, or is gone. *)
Lemma client_inv_entry st p calls i c :
  client_inv (MkClient st p calls) → calls !! i = Some c →
  (cp_handlers st !! call_cid c = Some i ∨ cp_handlers st !! call_cid c = None) ∧
  ∃ s, cp_slots st !! i = Some s ∧ call_inv (cp_handlers st) i c s.
Proof.
  intros (Hids & Hlen & Hhs & Hcalls) Hc. simpl in *. split.
  - destruct (cp_handlers st !! call_cid c) as [j|] eqn:Hj; [|by right]. left. f_equal.
    destruct (Hhs _ _ Hj) as (d & Hd & Heq). destruct Hids as (_ & _ & _ & Hinj). by eapply Hinj.
  - destruct (cp_slots st !! i) as [s|] eqn:Hs; [exists s; eauto|].
    apply lookup_ge_None in Hs. apply lookup_lt_Some in Hc. lia.
Qed.

Lemma inv_publish base st p calls i c payload timeout r st' :
  client_inv (MkClient st p calls) → calls !! i = Some c → call_phase c = Publishing →
  call_publish base (call_header c) i payload timeout st = (r, st') →
  client_inv (MkClient st' p (<[i := set_phase c (if is_ok r then Live else Gone)]> calls)).
Proof.
  intros Hinv Hc Hph Hpub. destruct (client_inv_entry _ _ _ _ _ Hinv Hc) as (He & s & Hs & Hci).
  unfold call_inv in Hci. destruct (relay (call_arrived c)) as [evs over] eqn:Hrel.
  destruct Hci as (k & q & closed & Hi & Hci). rewrite Hph in Hci. destruct Hci as (Hq & Hcl & Hen & ->).
  pose proof (call_publish_eq base (call_header c) i payload timeout st s _ q closed He Hs Hi) as Hp.
  rewrite Hpub in Hp. destruct Hp as (s' & Hs' & Hp).
  destruct r as [j|e]; simpl.
  - destruct Hp as (-> & Hi' & Hh'). apply (client_inv_update st st' p calls i c _ s'); try done; [by left|].
    unfold call_inv; simpl. rewrite Hrel, Hh'. eauto 10.
  - destruct Hp as (Hi' & Hh'). apply (client_inv_update st st' p calls i c _ s'); try done; [by right|].
    unfold call_inv; simpl. rewrite Hrel. eexists _, _, _. split; [done|].
    rewrite Hh'. apply lookup_delete_eq.
Qed.

Lemma inv_poll st p calls i c r st' :
  client_inv (MkClient st p calls) → calls !! i = Some c → call_phase c = Live →
  poll_slot i st = (r, st') → client_inv (MkClient st' p (<[i := hand_out c r]> calls)).
Proof.
  intros Hinv Hc Hph Hpoll. destruct (client_inv_entry _ _ _ _ _ Hinv Hc) as (He & s & Hs & Hci).
  unfold call_inv in Hci. destruct (relay (call_arrived c)) as [evs over] eqn:Hrel.
  destruct Hci as (k & q & closed & Hi & Hci). rewrite Hph in Hci. destruct Hci as (Hq & Hcl & Hen & ->).
  destruct (poll_slot_eq i st s _ _ q closed Hs Hi) as (s' & Hst & Hp). rewrite Hpoll in Hst, Hp.
  simpl in Hst, Hp. subst st'.
  apply (client_inv_update st _ p calls i c _ s'); try done; [by destruct r as [|[]]|by left|].
  destruct q as [|ev q]; destruct Hp as [-> Hi']; unfold call_inv; simpl.
  - destruct closed; simpl; rewrite Hrel, Hph; eauto 10.
  - rewrite Hrel, Hph. rewrite existsb_app. simpl. rewrite orb_false_r, orb_comm.
    eexists _, q, closed. split; [done|]. by rewrite <- app_assoc.
Qed.

Lemma inv_drop base st p calls i c :
  client_inv (MkClient st p calls) → calls !! i = Some c → call_phase c = Live →
  client_inv (MkClient (drop_slot base i p st) p (<[i := set_phase c Gone]> calls)).
Proof.
  intros Hinv Hc Hph. destruct (client_inv_entry _ _ _ _ _ Hinv Hc) as (He & s & Hs & Hci).
  unfold call_inv in Hci. destruct (relay (call_arrived c)) as [evs over] eqn:Hrel.
  destruct Hci as (k & q & closed & Hi & Hci). rewrite Hph in Hci. destruct Hci as (Hq & Hcl & Hen & ->).
  destruct (drop_slot_eq base i p st s _ _ q closed He Hs Hi) as (s' & Hs' & Hi' & Hh' & _).
  apply (client_inv_update st _ p calls i c _ s'); try done; [by right|].
  rewrite Hh'. unfold call_inv; simpl. rewrite Hrel. eexists _, _, _. split; [done|].
  apply lookup_delete_eq.
Qed.

Lemma inv_sample st p calls i c header payload :
  client_inv (MkClient st p calls) → calls !! i = Some c → call_cid c = h_correlation_id header →
  client_inv (MkClient (route_response header payload st) p
    (<[i := arrive c (event_kind header) payload]> calls)).
Proof.
  intros Hinv Hc Hcid. destruct (client_inv_entry _ _ _ _ _ Hinv Hc) as (He & s & Hs & Hci).
  unfold call_inv in Hci. destruct (relay (call_arrived c)) as [evs over] eqn:Hrel.
  destruct Hci as (k & q & closed & Hi & Hci).
  pose proof (relay_snoc (call_arrived c) (event_kind header) payload) as Hsnoc. rewrite Hrel in Hsnoc.
  unfold route_response. rewrite <- Hcid. destruct He as [He|He]; rewrite He.
  - assert (Hlive : call_phase c ≠ Gone) by (intros Hg; rewrite Hg in Hci; congruence).
    assert (Hopen : over = false).
    { destruct (call_phase c); try done; destruct Hci as (_ & _ & Hen & _); destruct over; congruence. }
    subst over. simpl in Hsnoc.
    assert (Hcl : closed = false) by (destruct (call_phase c); try done; by destruct Hci as (_ & ? & _)).
    subst closed.
    pose proof (handle_response_eq (call_cid c) i st s k _ q (event_kind header) payload He Hs Hi) as Hr.
    destruct (sample_events (event_kind header) payload) as [evs' over'].
    destruct Hr as (s' & -> & Hi').
    apply (client_inv_update st _ p calls i c _ s'); try done; [destruct over'; [by right|by left]|].
    unfold call_inv; simpl. rewrite Hsnoc. exists k, (q ++ evs'), over'. split; [done|].
    assert (Hen : (if over' then delete (call_cid c) (cp_handlers st) else cp_handlers st) !! call_cid c
      = (if over' then None else Some i)) by (destruct over'; [apply lookup_delete_eq|done]).
    destruct (call_phase c); try done; destruct Hci as (<- & _ & _ & ->); by rewrite app_assoc.
  - apply (client_inv_update st _ p calls i c _ s); try done;
      [by rewrite list_insert_id|by left|].
    unfold call_inv; simpl. rewrite Hsnoc. destruct over.
    { exists k, q, closed. by split. }
    exists k, q, closed. split; [done|].
    destruct (call_phase c); try done; destruct Hci as (_ & _ & Hen & _); congruence.
Qed.
Lemma outgoing_trace_counter th p :
  u64 (cid_counter p) → u64 (cid_counter p + 3) →
  let p' := (outgoing_trace th p).2 in
  proc_pid p' = proc_pid p ∧ cid_counter p ≤ cid_counter p' ≤ cid_counter p + 2.
Proof.
  intros [? ?] [? ?].
  assert (Hw : ∀ k, 0 ≤ k ≤ 3 → wrap 64 (cid_counter p + k) = cid_counter p + k)
    by (intros; apply wrap_small; split; lia).
  unfold outgoing_trace, child_trace, continued_or_root, new_root, next_correlation_id, next_span_id.
  repeat case_match; simplify_eq/=; split; try done; try lia;
    rewrite (Hw 1) by lia; try lia.
  replace (cid_counter p + 1 + 1) with (cid_counter p + 2) by lia. rewrite (Hw 2); lia.
Qed.

Lemma request_header_id th service (method : Z) p st :
  u64 (cid_counter p) → u64 (cid_counter p + 3) →
  let '(header, p', st') := request_header th service method p st in
  same_calls st st' ∧ proc_pid p' = proc_pid p ∧ u64 (cid_counter p') ∧
  ∃ n, cid_counter p ≤ n < cid_counter p' ∧ h_correlation_id header = correlation_id_of (proc_pid p) n.
Proof.
  intros Hu Hu3. pose proof (outgoing_trace_counter th p Hu Hu3) as Ht. unfold request_header.
  destruct (outgoing_trace th p) as [trace p1]. simpl in Ht. destruct Ht as (Hpid & Hlo & Hhi).
  unfold header_request, next_correlation_id, next_seq. simpl.
  destruct Hu as [? ?], Hu3 as [? ?]. rewrite (wrap_small 64 (cid_counter p1 + 1)) by (split; lia).
  split; [done|]. split; [done|]. split; [split; lia|].
  exists (cid_counter p1). split; [lia|]. by rewrite Hpid.
Qed.

Lemma ids_inv_later p p' calls :
  ids_inv p calls → proc_pid p' = proc_pid p → u64 (cid_counter p') → cid_counter p ≤ cid_counter p' →
  ids_inv p' calls.
Proof.
  intros (Hp & Hu & Hids & Hinj) Hpid Hu' Hle. unfold ids_inv. rewrite Hpid. split_and!; try done.
  intros i c Hc. destruct (Hids i c Hc) as (n & Hn & Heq). exists n. split; [lia|done].
Qed.

Lemma ids_inv_snoc p p' calls c n :
  ids_inv p calls → proc_pid p' = proc_pid p → u64 (cid_counter p') →
  cid_counter p ≤ n < cid_counter p' → call_cid c = correlation_id_of (proc_pid p) n →
  ids_inv p' (calls ++ [c]).
Proof.
  intros Hids Hpid Hu' Hn Hc. pose proof Hids as (Hp & Hu & Hold & Hinj).
  destruct (ids_inv_later p p' calls Hids Hpid Hu' ltac:(lia)) as (Hp' & _ & Hids' & _).
  assert (Hnew : ∀ i d, calls !! i = Some d → call_cid d ≠ call_cid c).
  { intros i d Hd Heq. destruct (Hold i d Hd) as (m & Hm & Hdm). rewrite Heq, Hc in Hdm.
    assert (Hpid64 : u64 (proc_pid p)) by (by eapply (fits_mono 32); [lia|]).
    destruct Hu, Hu'. apply correlation_id_of_inj in Hdm as [_ ?]; try done; [lia|split; lia..]. }
  split_and!; [done|done| |].
  - intros i d [Hd|[Hge Hd]]%lookup_app_Some; [by eapply Hids'|].
    apply list_lookup_singleton_Some in Hd as [_ <-]. exists n. rewrite Hpid. split; [|done].
    destruct Hu. lia.
  - intros i j d e [Hd|[Hgi Hd]]%lookup_app_Some [He|[Hgj He]]%lookup_app_Some Heq.
    + by eapply Hinj.
    + apply list_lookup_singleton_Some in He as [_ <-]. by apply Hnew in Hd.
    + apply list_lookup_singleton_Some in Hd as [_ <-]. by apply Hnew in He.
    + apply list_lookup_singleton_Some in Hd as [? _], He as [? _]. lia.
Qed.

Lemma inv_begin th service (method : Z) p st calls header tx p' st' :
  client_inv (MkClient st p calls) → u64 (cid_counter p + 3) →
  call_begin th service method p st = (header, tx, p', st') →
  client_inv (MkClient st' p' (calls ++ [MkCall header Publishing [] []])).
Proof.
  intros (Hids & Hlen & Hhs & Hcalls) Hu3 Hb. simpl in *.
  pose proof (request_header_id th service method p st (proj1 (proj2 Hids)) Hu3) as Hr.
  unfold call_begin in Hb. destruct (request_header _ _ _ _ _) as [[h p1] st1].
  destruct Hr as ([Hs1 Hh1] & Hpid & Hu' & n & Hn & Hcid). simplify_eq/=.
  set (c := MkCall header Publishing [] []).
  pose proof (ids_inv_snoc p p' calls c n Hids Hpid Hu' Hn Hcid) as Hids'.
  rewrite Hs1, Hh1. split_and!; simpl; [done|by rewrite !length_app, Hlen|..].
  - intros cid i [[<- <-]|[Hne Hi]]%lookup_insert_Some.
    + exists c. split; [|done]. rewrite Hlen. by rewrite list_lookup_middle.
    + destruct (Hhs _ _ Hi) as (d & Hd & ?). exists d. split; [|done]. by apply lookup_app_l_Some.
  - intros i d s Hd Hs. apply lookup_app_Some in Hs as [Hs|[Hge Hs]].
    + pose proof (lookup_lt_Some _ _ _ Hs) as Hlt. pose proof Hd as Hd'.
      rewrite lookup_app_l in Hd by lia. specialize (Hcalls i d s Hd Hs).
      assert (Hne : h_correlation_id header ≠ call_cid d).
      { intros Heq. destruct Hids' as (_ & _ & _ & Hinj).
        assert (i = length calls); [|lia].
        apply (Hinj i (length calls) d c Hd'); [by rewrite list_lookup_middle|done]. }
      unfold call_inv in *. by rewrite lookup_insert_ne.
    + apply list_lookup_singleton_Some in Hs as [Hi <-].
      assert (i = length calls) as -> by lia. rewrite list_lookup_middle in Hd by done. simplify_eq.
      unfold call_inv; simpl. exists None, [], false. rewrite Hlen, lookup_insert_eq. split; [|done].
      eexists. split; [done|]. apply ch_unbounded_view.
Qed.

Lemma inv_one_way base th service (method : Z) payload p st calls r p' st' :
  client_inv (MkClient st p calls) → u64 (cid_counter p + 3) →
  send_one_way base th service method payload p st = (r, p', st') →
  client_inv (MkClient st' p' calls).
Proof.
  intros (Hids & Hlen & Hhs & Hcalls) Hu3 Hb. simpl in *.
  pose proof (request_header_id th service method p st (proj1 (proj2 Hids)) Hu3) as Hr.
  unfold send_one_way in Hb. destruct (request_header _ _ _ _ _) as [[h p1] st1].
  destruct Hr as ([Hs1 Hh1] & Hpid & Hu' & n & Hn & Hcid).
  destruct (publish_one_way h payload (cp_bus st1)) as [r1 w].
  assert (same_calls st st' ∧ p' = p1) as [[Hs Hh] Hp'].
  { destruct r1 as [[]|e]; simplify_eq; [|done..]. split; [|done].
    destruct (notify_same base (set_bus st1 w)) as [Hs2 Hh2]. split; [exact (eq_trans Hs2 Hs1)|exact (eq_trans Hh2 Hh1)]. }
  subst p'. split_and!; simpl; [|rewrite ?Hs, ?Hh; done..]. eapply ids_inv_later; [done..|lia].
Qed.

Lemma client_inv_step base cl cl' : client_inv cl → client_step base cl cl' → client_inv cl'.
Proof.
  intros Hinv Hstep. destruct Hstep as [| | |st p calls header payload Hstray| | |].
  - by eapply inv_begin.
  - by eapply inv_publish.
  - by apply inv_sample.
  - unfold route_response. destruct (cp_handlers st !! h_correlation_id header) as [tx|] eqn:Htx; [|done].
    destruct Hinv as (_ & _ & Hhs & _). destruct (Hhs _ _ Htx) as (c & Hc & Heq).
    by destruct (Hstray tx c Hc).
  - by eapply inv_poll.
  - by apply inv_drop.
  - by eapply inv_one_way.
Qed.

Lemma client_inv_reachable base w p cl :
  u32 (proc_pid p) → u64 (cid_counter p) → client_reachable base w p cl → client_inv cl.
Proof.
  intros Hp Hu. induction 1 as [|cl cl' _ IH Hs]; [|by eapply client_inv_step].
  by split_and!.
Qed.
(** ** What the consumer is promised *)

(** C1. Calls do not mix: however the callers, the response thread and the
    consumers of a channel interleave, the events a consumer has been handed
    plus those that wait for it are the events of the samples that carried its
    correlation id, in order and up to the first that ends the call; nothing of
    another call, nothing after the end.  The entry of a call is in the table
    exactly while the call is open. *)
Theorem calls_do_not_mix base w p cl i c :
  u32 (proc_pid p) → u64 (cid_counter p) → client_reachable base w p cl →
  cl_calls cl !! i = Some c →
  ∃ s, cp_slots (cl_ports cl) !! i = Some s ∧
    (call_phase c ≠ Gone →
     ∃ k q, slot_is s k (existsb is_terminal (call_handed c)) q (relay (call_arrived c)).2 ∧
       call_handed c ++ q = (relay (call_arrived c)).1) ∧
    (cp_handlers (cl_ports cl) !! call_cid c = Some i ↔
       call_phase c ≠ Gone ∧ (relay (call_arrived c)).2 = false) ∧
    (∀ cid j, cp_handlers (cl_ports cl) !! cid = Some j →
       ∃ d, cl_calls cl !! j = Some d ∧ call_cid d = cid).
Proof.
  intros Hp Hu Hr Hc. pose proof (client_inv_reachable _ _ _ _ Hp Hu Hr) as Hinv.
  destruct cl as [st p' calls]. simpl in *.
  destruct (client_inv_entry _ _ _ _ _ Hinv Hc) as (He & s & Hs & Hci). exists s. split; [done|].
  unfold call_inv in Hci. destruct (relay (call_arrived c)) as [evs over] eqn:Hrel.
  destruct Hci as (k & q & closed & Hi & Hci). simpl. destruct Hinv as (_ & _ & Hhs & _).
  destruct (call_phase c) eqn:Hph.
  - destruct Hci as (Hq & -> & Hen & _). split; [intros _; by exists k, q|]. split; [|done].
    rewrite Hen. destruct over; split; [done|by intros [_ ?]|done|done].
  - destruct Hci as (Hq & -> & Hen & _). split; [intros _; by exists k, q|]. split; [|done].
    rewrite Hen. destruct over; split; [done|by intros [_ ?]|done|done].
  - split; [done|]. split; [|done]. rewrite Hci. split; [done|]. by intros [? ?].
Qed.

(** ** From the provider's stream to the consumer's *)

Context `{!CodecLaws T E}.

(** Every event of the two types can be archived. *)
Definition encodes_all : Prop := ∀ w : WireEvent T E, is_Some (frame w).2.

Lemma sample_of_frame (w : WireEvent T E) kind bs :
  frame w = (kind, Some bs) → sample_events kind bs = (expand_wire w, wire_is_terminal w).
Proof.
  unfold sample_events, frame. destruct w; intros Hf; injection Hf as <- Hf; simpl;
    try (by rewrite (decode_encode_event _ _ Hf)).
  by rewrite (decode_encode_error _ _ Hf).
Qed.

(** The consumer's reading of the frames of a well-formed stream. *)
Lemma relay_frames ws (l : list (Event T E)) :
  encodes_all → rx_grammar l = true → expand_all ws = l →
  relay (frames ws) = (l, existsb is_terminal l).
Proof.
  intros Henc. revert l. induction ws as [|w ws IH]; intros l Hg Hl; [by subst l|]. simpl.
  destruct (frame w) as [kind obs] eqn:Hf. destruct (Henc w) as [bs Hbs]. rewrite Hf in Hbs.
  simpl in Hbs. subst obs. simpl. rewrite (sample_of_frame w kind bs Hf).
  unfold expand_all in Hl. simpl in Hl. fold (expand_all ws) in Hl. subst l.
  destruct w as [v| |v|e|e]; simpl in *.
  - by rewrite (IH (expand_all ws)).
  - by apply bool_decide_eq_true in Hg as ->.
  - by apply bool_decide_eq_true in Hg as ->.
  - by apply bool_decide_eq_true in Hg as ->.
  - by apply bool_decide_eq_true in Hg as ->.
Qed.

Lemma rx_grammar_view (l : list (Event T E)) : rx_grammar (map wire_view l) = rx_grammar l.
Proof. induction l as [|[v| |[e|e|]] l IH]; simpl; try done; by destruct l. Qed.

Lemma terminal_view (l : list (Event T E)) :
  existsb is_terminal (map wire_view l) = existsb is_terminal l.
Proof. induction l as [|[v| |[e|e|]] l IH]; simpl; by rewrite ?IH. Qed.

(** C2. The round trip of a call: the provider's stream, folded, framed and
    archived, is what the consumer of the call receives.  When the samples that
    arrived for a call are those the provider task pushed for a well-formed
    stream [l], the consumer has been handed, or has waiting, exactly [l]
    ([Empty] read as the end), whatever other traffic the channel carries, and
    its channel is closed behind [l] exactly when [l] has its terminal. *)
Theorem round_trip {Src} `{Sized Src (Event T E), !Fused Src (Event T E)} (src : Src) l base w p cl i c :
  encodes_all → yields src l → rx_grammar l = true →
  ∃ o samples,
    completes observable_to_responses (wire_folding_new src, [] : CollectEmitter) () (o, samples) ∧
    (u32 (proc_pid p) → u64 (cid_counter p) → client_reachable base w p cl →
     cl_calls cl !! i = Some c → call_phase c ≠ Gone → call_arrived c = samples →
     ∃ s k q, cp_slots (cl_ports cl) !! i = Some s ∧
       slot_is s k (existsb is_terminal (call_handed c)) q (existsb is_terminal l) ∧
       call_handed c ++ q = map wire_view l).
Proof.
  intros Henc Hy Hg. destruct (proj1 (fold_yields src l Hy)) as (ws & Hws & He).
  destruct (collect_responses (wire_folding_new src) ws [] Hws) as [o Hc].
  exists o, (frames ws). split; [done|]. intros Hp Hu Hr Hi Hph Harr.
  pose proof (client_inv_reachable _ _ _ _ Hp Hu Hr) as Hinv. destruct cl as [st p' calls].
  destruct (client_inv_entry _ _ _ _ _ Hinv Hi) as (_ & s & Hs & Hci).
  unfold call_inv in Hci. rewrite Harr, (relay_frames ws (map wire_view l)) in Hci;
    [|done|by rewrite rx_grammar_view|done]. rewrite terminal_view in Hci.
  destruct Hci as (k & q & closed & Hsl & Hci). exists s, k, q. split; [done|].
  destruct (call_phase c); [| |done]; destruct Hci as (Hq & -> & _); done.
Qed.
End client.

(** ** A run

    One call on a channel with a provider: registered, published, and answered
    by one value; then a second value for a call nobody made. *)

Module Run.

Definition proc0 : Proc := proc_start 7 None.
Definition bus0 : SimBus := MkSim 0 0 [] [(1%nat, false)].
Definition begun := call_begin (C:=VecChannel) (P:=Script (Event Z Z)) (T:=Z) (E:=Z)
  empty_thread (MkServiceRef 3 1) (9 : Z) proc0 (ports_new bus0).
Definition header : RpcHeader := begun.1.1.1.
Definition proc1 : Proc := begun.1.2.
Definition published := call_publish 0 header 0 [1] 100 begun.2.
Definition sample (kind : EventKind) : RpcHeader := response_from header kind 1 proc1.

(** The call, after the samples [l] of its provider. *)
Definition after (l : list (EventKind * bytes)) : Client (C:=VecChannel) :=
  MkClient (fold_left (λ st '(k, bs), route_response (sample k) bs st) l published.2) proc1
    [MkCall header Live [] l].

Lemma after_snoc l kind bs :
  client_reachable 0 bus0 proc0 (after l) → client_reachable 0 bus0 proc0 (after (l ++ [(kind, bs)])).
Proof.
  intros Hr. eapply client_more; [exact Hr|].
  assert (Hk : event_kind (sample kind) = kind) by (by destruct kind).
  pose proof (step_sample 0 (cl_ports (after l)) proc1 [MkCall header Live [] l] 0%nat
    (MkCall header Live [] l) (sample kind) bs eq_refl eq_refl) as Hs.
  unfold after at 2. rewrite fold_left_app. rewrite Hk in Hs. exact Hs.
Qed.

Lemma after_reachable l : client_reachable 0 bus0 proc0 (after l).
Proof.
  induction l as [|[k bs] l IH] using rev_ind; [|by apply after_snoc].
  eapply client_more; [eapply client_more; [apply client_start|]|].
  - apply (step_begin 0 _ _ [] empty_thread (MkServiceRef 3 1) 9 header 0%nat proc1 begun.2);
      [by vm_compute|reflexivity].
  - apply (step_publish 0 begun.2 proc1 [MkCall header Publishing [] []] 0%nat
      (MkCall header Publishing [] []) [1] 100 (Ok 0%nat) published.2); [done|done|].
    vm_compute. reflexivity.
Qed.

Lemma proc0_ok : u32 (proc_pid proc0) ∧ u64 (cid_counter proc0).
Proof. by vm_compute. Qed.
End Run.

Import Run.

Lemma calls_do_not_mix_witness :
  ∃ s k q, cp_slots (cl_ports (after [(KNext, [10; 5])])) !! 0%nat = Some s ∧
    slot_is s k false q false ∧ [] ++ q = [Next 5].
Proof.
  destruct (calls_do_not_mix 0 bus0 proc0 (after [(KNext, [10; 5])]) 0%nat
    (MkCall header Live [] [(KNext, [10; 5])])) as (s & Hs & Hq & _);
    [apply proc0_ok|apply proc0_ok|apply after_reachable|reflexivity|].
  destruct Hq as (k & q & Hi & Hq); [discriminate|].
  exists s, k, q. split; [exact Hs|]. split; [exact Hi|exact Hq].
Defined.

(** A provider that answers 5, pauses and ends: the consumer receives both. *)
Lemma round_trip_witness :
  ∃ s k q, cp_slots (cl_ports (after [(KNext, [10; 5]); (KComplete, [11])])) !! 0%nat = Some s ∧
    slot_is s k false q true ∧ [] ++ q = [Next 5; Complete].
Proof.
  destruct (round_trip (MkScript [Ready (Next 5); Pending; Ready Complete])
    [Next 5; Complete] 0 bus0 proc0 (after [(KNext, [10; 5]); (KComplete, [11])]) 0%nat
    (MkCall header Live [] [(KNext, [10; 5]); (KComplete, [11])])) as (o & samples & Hc & Hrun).
  - intros []; vm_compute; eauto.
  - apply (script_yields [Ready (Next 5); Pending; Ready Complete]).
  - reflexivity.
  - apply Hrun; [apply proc0_ok|apply proc0_ok|apply after_reachable|reflexivity|discriminate|].
    symmetry. revert Hc. generalize samples as out. intros out Hc.
    repeat (inversion Hc; clear Hc; subst;
      match goal with H : observable_to_responses _ = _ |- _ => vm_compute in H; simplify_eq end;
      match goal with H : completes _ _ _ _ |- _ => rename H into Hc | |- _ => reflexivity end).
Defined.
