(* ===== verification/Dropping.v ===== *)
(** * Dropping a call while it is answered ([ice-rpc/src/transport/client.rs])

    The response thread and the drop of a stream take the lock of the handler
    table separately from what they do around it: the thread clones a handler
    out of the table, sends to the stream and releases the entry in three
    critical sections, and a consumer can poll or drop its stream in between.
    [Client] runs each of the two in one step; here they are cut at every
    access to what the threads share. *)

From S2P Require Import Prelude MachineInt Text Event Header Context Wire Stream Bridge Publish Notify Client.

Local Open Scope Z_scope.

Section dropping.
Context {C : Type → Type} `{AsyncChannel C} {P T E : Type} `{Stream P (Event T E)} `{Codec T E}.
Context {W : Type} `{Bus W}.

Abbreviation ports := (ConsumerPorts (C := C) (P := P) (T := T) (E := E) (W := W)).

(** ** The response thread *)

(** What is left of a run of the handler: a send, whose failure may end the run
    with the release of the call, or that release. *)
Inductive Action : Type :=
| TrySend (ev : Event T E) (or_release : bool)
| Release.

Definition handler_actions (kind : EventKind) (bs : bytes) : list Action :=
  if decide (kind = KRpcError) then
    let error := match decode_error bs with
                 | Some err => err
                 | None => transport_error "decode rpc error" (decode_failure bs)
                 end in
    [TrySend (Error (Technical error)) false; Release]
  else
    match decode_event bs with
    | Some wire =>
        let terminal := wire_is_terminal wire in
        let (event, follow_up) := normalize_wire_event wire in
        TrySend event true ::
        match follow_up with Some next => [TrySend next false] | None => [] end ++
        (if terminal then [Release] else [])
    | None => [TrySend (Error (Technical (transport_error "decode response" (decode_failure bs)))) false; Release]
    end.

(** The thread has a clone of the handler of a call, which owns its sender. *)
Record Routing : Type := MkRouting { ro_tx : nat; ro_cid : bytes; ro_todo : list Action }.

(** The removal of an entry; the sender goes with it unless the thread has its
    clone of the handler. *)
Definition release_entry (cloned : bool) (cid : bytes) (st : ports)
    : bool * ports :=
  match cp_handlers st !! cid with
  | Some tx =>
      let st := set_handlers st (delete cid (cp_handlers st)) in
      (true, if cloned then st else close_slot tx st)
  | None => (false, st)
  end.

Lemma release_entry_alone cid (st : ports) : release_entry false cid st = release_handler cid st.
Proof. done. Qed.

Definition thread_lookup (header : RpcHeader) (payload : bytes) (st : ports)
    : option Routing :=
  match cp_handlers st !! h_correlation_id header with
  | Some tx => Some (MkRouting tx (h_correlation_id header) (handler_actions (event_kind header) payload))
  | None => None
  end.

(** One access of the thread; at the end it drops its clone, the last owner of the
    sender once the entry is gone. *)
Definition thread_step (r : Routing) (st : ports)
    : option Routing * ports :=
  match ro_todo r with
  | TrySend ev or_release :: rest =>
      let (sent, st) := send_to (ro_tx r) ev st in
      (Some (MkRouting (ro_tx r) (ro_cid r) (if or_release && negb sent then [Release] else rest)), st)
  | Release :: rest => (Some (MkRouting (ro_tx r) (ro_cid r) rest), (release_entry true (ro_cid r) st).2)
  | [] => (None, if decide (cp_handlers st !! ro_cid r = Some (ro_tx r)) then st else close_slot (ro_tx r) st)
  end.

Definition holds (th : option Routing) (i : nat) : bool :=
  match th with Some r => bool_decide (ro_tx r = i) | None => false end.

(** ** The drop of a stream *)

(** The cleanup up to its decision. *)
Definition drop_begin (th : option Routing) (i : nat) (st : ports)
    : option (RpcHeader * bool) * ports :=
  match cp_slots st !! i ≫= drop_observable with
  | Some (header, answered) =>
      let (in_flight, st) := release_entry (holds th i) (h_correlation_id header) st in
      (Some (header, cancels answered in_flight), st)
  | None => (None, st)
  end.

(** The rest of it, and the receiver is dropped. *)
Definition drop_finish (base : Z) (i : nat) (decided : option (RpcHeader * bool)) (p : Proc)
    (st : ports) : ports :=
  close_slot i match decided with
               | Some (header, true) => publish_cancel base header p st
               | _ => st
               end.

(** Undisturbed, the two are the steps of [Client]. *)
Lemma drop_in_steps base i p (st : ports) :
  let (decided, st') := drop_begin None i st in drop_finish base i decided p st' = drop_slot base i p st.
Proof.
  unfold drop_begin, drop_finish, drop_slot. destruct (cp_slots st !! i ≫= drop_observable) as [[header answered]|]; [|done].
  simpl. unfold cleanup. rewrite release_entry_alone. destruct (release_handler _ st) as [in_flight st'].
  by destruct (cancels answered in_flight).
Qed.

Fixpoint thread_run (n : nat) (r : Routing) (st : ports) : option Routing * ports :=
  match n with
  | O => (Some r, st)
  | S n => match thread_step r st with (Some r', st') => thread_run n r' st' | (None, st') => (None, st') end
  end.

Lemma send_to_handlers tx ev (st : ports) : cp_handlers (send_to tx ev st).2 = cp_handlers st.
Proof. unfold send_to. destruct (cp_slots st !! tx ≫= slot_chan); [|done]. by destruct (try_send_event _ _). Qed.

(** A release by the thread, and its return. *)
Lemma run_release n tx cid (st : ports) :
  cp_handlers st !! cid = Some tx →
  thread_run (S (S n)) (MkRouting tx cid [Release]) st = (None, (release_handler cid st).2).
Proof.
  intros Hh. cbn. unfold release_entry, release_handler. rewrite Hh. cbn.
  by rewrite decide_False by (rewrite lookup_delete_eq; done).
Qed.

Lemma run_send_release n tx cid ev (st : ports) :
  cp_handlers st !! cid = Some tx →
  thread_run (S (S (S n))) (MkRouting tx cid [TrySend ev false; Release]) st =
    (None, let (_, st) := send_to tx ev st in (release_handler cid st).2).
Proof.
  intros Hh. pose proof (send_to_handlers tx ev st) as Hs. remember (S (S n)) as m. cbn. subst m.
  destruct (send_to tx ev st) as [sent st1]. simpl in Hs. apply run_release. by rewrite Hs.
Qed.

Lemma route_in_steps header payload (st : ports) :
  match thread_lookup header payload st with
  | Some r => thread_run 4 r st = (None, route_response header payload st)
  | None => route_response header payload st = st
  end.
Proof.
  unfold thread_lookup, route_response. destruct (cp_handlers st !! _) as [tx|] eqn:Hh; [|done].
  set (cid := h_correlation_id header) in *. unfold handler_actions, handle_response.
  destruct (decide (event_kind header = KRpcError)); [by apply (run_send_release 1)|].
  destruct (decode_event payload) as [wire|]; [|by apply (run_send_release 1)].
  destruct (normalize_wire_event wire) as [event follow_up] eqn:Hn.
  remember 3%nat as m. cbn. pose proof (send_to_handlers tx event st) as Hs. destruct (send_to tx event st) as [[] st1].
  2:{ subst m. simpl in Hs. apply run_release. by rewrite Hs. }
  simpl in Hs. rewrite <- Hs in Hh. destruct follow_up as [next|].
  - pose proof (send_to_handlers tx next st1) as Hs1. destruct wire; simplify_eq/=.
    pose proof (run_send_release 0 tx cid Complete st1 Hh) as Hr. by destruct (send_to tx Complete st1).
  - destruct (wire_is_terminal wire); subst m; simpl; [by apply (run_release 1)|]. by rewrite decide_True.
Qed.

(** ** The threads of a channel

    A dropped stream is no longer its consumer's, and its cleanup may still be
    running. *)

Record Shared : Type := MkShared {
  sh_client : Client (C := C) (P := P) (T := T) (E := E) (W := W);
  sh_thread : option Routing;
  sh_dropping : list (nat * option (RpcHeader * bool))
}.

Inductive shared_step (base : Z) : Shared → Shared → Prop :=
| shared_begin st p calls th ds tl service (method : Z) header tx p' st' :
    u64 (cid_counter p + 3) →
    call_begin tl service method p st = (header, tx, p', st') →
    shared_step base (MkShared (MkClient st p calls) th ds)
      (MkShared (MkClient st' p' (calls ++ [MkCall header Publishing [] []])) th ds)
| shared_publish st p calls th ds i c payload timeout r st' :
    calls !! i = Some c → call_phase c = Publishing →
    call_publish base (call_header c) i payload timeout st = (r, st') →
    shared_step base (MkShared (MkClient st p calls) th ds)
      (MkShared (MkClient st' p (<[i := set_phase c (if is_ok r then Live else Gone)]> calls)) th ds)
| shared_lookup st p calls ds i c header payload :
    calls !! i = Some c → call_cid c = h_correlation_id header →
    shared_step base (MkShared (MkClient st p calls) None ds)
      (MkShared (MkClient st p (<[i := arrive c (event_kind header) payload]> calls)) (thread_lookup header payload st) ds)
| shared_stray st p calls ds header payload :
    (∀ i c, calls !! i = Some c → call_cid c ≠ h_correlation_id header) →
    shared_step base (MkShared (MkClient st p calls) None ds)
      (MkShared (MkClient st p calls) (thread_lookup header payload st) ds)
| shared_thread st p calls r ds th' st' :
    thread_step r st = (th', st') →
    shared_step base (MkShared (MkClient st p calls) (Some r) ds) (MkShared (MkClient st' p calls) th' ds)
| shared_poll st p calls th ds i c r st' :
    calls !! i = Some c → call_phase c = Live → poll_slot i st = (r, st') →
    shared_step base (MkShared (MkClient st p calls) th ds)
      (MkShared (MkClient st' p (<[i := hand_out c r]> calls)) th ds)
| shared_drop_begin st p calls th ds i c decided st' :
    calls !! i = Some c → call_phase c = Live → drop_begin th i st = (decided, st') →
    shared_step base (MkShared (MkClient st p calls) th ds)
      (MkShared (MkClient st' p (<[i := set_phase c Gone]> calls)) th ((i, decided) :: ds))
| shared_drop_finish st p calls th ds1 ds2 i decided :
    shared_step base (MkShared (MkClient st p calls) th (ds1 ++ (i, decided) :: ds2))
      (MkShared (MkClient (drop_finish base i decided p st) p calls) th (ds1 ++ ds2)).

Inductive shared_reachable (base : Z) (w : W) (p : Proc) : Shared → Prop :=
| shared_start : shared_reachable base w p (MkShared (MkClient (ports_new w) p []) None [])
| shared_more f f' : shared_reachable base w p f → shared_step base f f' → shared_reachable base w p f'.

(** ** The invariant *)

(** What the thread still does for the call in slot [i]. *)
Definition todo_of (th : option Routing) (i : nat) : option (list Action) :=
  match th with Some r => if decide (ro_tx r = i) then Some (ro_todo r) else None | None => None end.

Definition sends (todo : option (list Action)) : list (Event T E) :=
  omap (λ a, match a with TrySend ev _ => Some ev | Release => None end) (default [] todo).

Definition releases (todo : option (list Action)) : bool :=
  existsb (λ a, match a with Release => true | TrySend _ _ => false end) (default [] todo).

(** A run for a call that its sample ends, or not: sends and then the release, if any. *)
Definition todo_ok (over : bool) (todo : list Action) : Prop :=
  (∃ l, todo = map (uncurry TrySend) l ++ (if over then [Release] else [])) ∨ over = true ∧ todo = [].

Definition call_shared (todo : option (list Action)) (handlers : gmap bytes nat) (i : nat) (c : Call)
    (s : Observable C P RpcHeader T E) : Prop :=
  match call_phase c with
  | Gone => handlers !! call_cid c = None
  | ph =>
      let '(evs, over) := relay (call_arrived c) in
      ∃ q, slot_is s (match ph with Live => Some (call_header c) | _ => None end) (existsb is_terminal (call_handed c)) q
             (over && bool_decide (todo = None)) ∧
        call_handed c ++ q ++ sends todo = evs ∧
        handlers !! call_cid c = (if over && negb (releases todo) then None else Some i) ∧
        from_option (todo_ok over) True todo
  end.

Definition shared_inv (f : Shared) : Prop :=
  let st := cl_ports (sh_client f) in
  let calls := cl_calls (sh_client f) in
  ids_inv (cl_proc (sh_client f)) calls ∧
  length (cp_slots st) = length calls ∧
  (∀ cid i, cp_handlers st !! cid = Some i → ∃ c, calls !! i = Some c ∧ call_cid c = cid) ∧
  (∀ i c s, calls !! i = Some c → cp_slots st !! i = Some s →
     call_shared (todo_of (sh_thread f) i) (cp_handlers st) i c s) ∧
  (∀ r, sh_thread f = Some r → ∃ c, calls !! ro_tx r = Some c ∧ call_cid c = ro_cid r) ∧
  (∀ i d, (i, d) ∈ sh_dropping f → ∃ c, calls !! i = Some c ∧ call_phase c = Gone).

(** A change to one call, its entry and the work of the thread for it leaves the others
    as they are. *)
Lemma shared_inv_update st st' p calls th th' ds ds' i c c' s' :
  shared_inv (MkShared (MkClient st p calls) th ds) → calls !! i = Some c → call_header c' = call_header c →
  (call_phase c = Gone → call_phase c' = Gone) →
  cp_slots st' = <[i := s']> (cp_slots st) →
  cp_handlers st' = cp_handlers st ∨ cp_handlers st' = delete (call_cid c) (cp_handlers st) →
  (∀ j, j ≠ i → todo_of th' j = todo_of th j) →
  (∀ r, th' = Some r → ro_tx r = i ∧ ro_cid r = call_cid c ∨ th = Some r) →
  (∀ j d, (j, d) ∈ ds' → (j, d) ∈ ds ∨ j = i ∧ call_phase c' = Gone) →
  call_shared (todo_of th' i) (cp_handlers st') i c' s' →
  shared_inv (MkShared (MkClient st' p (<[i := c']> calls)) th' ds').
Proof.
  intros (Hids & Hlen & Hhs & Hcalls & Hth & Hds) Hc Hh Hgone Hs' Hh' Htodo Hth' Hds' Hinv. simpl in *.
  assert (Hcid : call_cid c' = call_cid c) by (unfold call_cid; by rewrite Hh).
  pose proof (lookup_lt_Some _ _ _ Hc) as Hlt.
  assert (Hold : ∀ j d, calls !! j = Some d → ∃ d', <[i := c']> calls !! j = Some d' ∧ call_cid d' = call_cid d ∧
    (call_phase d = Gone → call_phase d' = Gone)).
  { intros j d Hd. destruct (decide (i = j)) as [->|Hne].
    - exists c'. rewrite list_lookup_insert_eq by done. by simplify_eq.
    - exists d. by rewrite list_lookup_insert_ne. }
  split_and!; simpl.
  - by eapply ids_inv_update.
  - by rewrite Hs', !length_insert.
  - intros cid j Hj. assert (Hj' : cp_handlers st !! cid = Some j).
    { destruct Hh' as [Hh'|Hh']; rewrite Hh' in Hj; [done|]. by apply lookup_delete_Some in Hj as []. }
    destruct (Hhs _ _ Hj') as (d & Hd & <-). destruct (Hold j d Hd) as (d' & ? & ? & _). by exists d'.
  - intros j d s Hd Hsj. rewrite Hs' in Hsj. destruct (decide (i = j)) as [->|Hne].
    + rewrite list_lookup_insert_eq in Hd by done. rewrite list_lookup_insert_eq in Hsj by (by rewrite Hlen). by simplify_eq.
    + rewrite list_lookup_insert_ne in Hd by done. rewrite list_lookup_insert_ne in Hsj by done. rewrite Htodo by done. specialize (Hcalls j d s Hd Hsj).
      assert (Hl : cp_handlers st' !! call_cid d = cp_handlers st !! call_cid d).
      { destruct Hh' as [->| ->]; [done|]. apply lookup_delete_ne. intros Heq. apply Hne.
        destruct Hids as (_ & _ & _ & Hinj). by eapply Hinj. }
      unfold call_shared in *. by rewrite Hl.
  - intros r Hr. destruct (Hth' r Hr) as [[-> ->]|Hr'].
    + destruct (Hold i c Hc) as (d' & ? & ? & _). by exists d'.
    + destruct (Hth r Hr') as (d & Hd & <-). destruct (Hold _ d Hd) as (d' & ? & ? & _). by exists d'.
  - intros j d Hj. destruct (Hds' j d Hj) as [Hj'|[-> Hg]].
    + destruct (Hds j d Hj') as (e & He & Hg). destruct (Hold _ e He) as (e' & ? & _ & ?). exists e'. auto.
    + exists c'. by rewrite list_lookup_insert_eq.
Qed.

(** The entry of a known call names its slot, or is gone. *)
Lemma shared_inv_entry st p calls th ds i c :
  shared_inv (MkShared (MkClient st p calls) th ds) → calls !! i = Some c →
  (cp_handlers st !! call_cid c = Some i ∨ cp_handlers st !! call_cid c = None) ∧
  ∃ s, cp_slots st !! i = Some s ∧ call_shared (todo_of th i) (cp_handlers st) i c s.
Proof.
  intros (Hids & Hlen & Hhs & Hcalls & _) Hc. simpl in *. split.
  - destruct (cp_handlers st !! call_cid c) as [j|] eqn:Hj; [|by right]. left. f_equal.
    destruct (Hhs _ _ Hj) as (d & Hd & Heq). destruct Hids as (_ & _ & _ & Hinj). by eapply Hinj.
  - destruct (cp_slots st !! i) as [s|] eqn:Hs; [exists s; eauto|].
    apply lookup_ge_None in Hs. apply lookup_lt_Some in Hc. lia.
Qed.

Context `{!AsyncChannelLaws C}.

(** Operations on a slot whatever it holds. *)
Lemma close_any i (st : ports) s :
  cp_slots st !! i = Some s →
  ∃ s', cp_slots (close_slot i st) = <[i := s']> (cp_slots st) ∧ cp_handlers (close_slot i st) = cp_handlers st ∧
    ∀ k t q c, slot_is s k t q c → slot_is s' k t q true.
Proof.
  intros Hs. eexists. split; [unfold close_slot; simpl; by apply list_alter_insert|]. split; [done|].
  intros k t q c (rx & -> & Hv). simpl. exists (ch_close rx). split; [done|]. by rewrite ch_close_view, Hv.
Qed.

Lemma send_any i ev (st : ports) s :
  cp_slots st !! i = Some s →
  ∃ s', cp_slots (send_to i ev st).2 = <[i := s']> (cp_slots st) ∧
    ∀ k t q, slot_is s k t q false → (send_to i ev st).1 = true ∧ slot_is s' k t (q ++ [ev]) false.
Proof.
  intros Hs. unfold send_to. rewrite Hs. simpl. destruct (slot_chan s) as [rx|] eqn:Hrx.
  - destruct (try_send_event rx ev) as [r rx'] eqn:Hr. exists (with_chan s rx').
    split; [simpl; by rewrite (list_alter_insert _ _ _ _ Hs)|]. intros k t q (rx0 & -> & Hv).
    injection Hrx as <-.
    destruct (ch_send_room rx0 ev) as (rx1 & Hr1 & Hv1); [by rewrite Hv..|]. unfold try_send_event in Hr.
    rewrite Hr1 in Hr. simplify_eq. split; [done|]. exists rx'. split; [done|]. by rewrite Hv1, Hv.
  - exists s. split; [by rewrite list_insert_id|]. intros k t q (rx0 & -> & _). done.
Qed.

Lemma release_entry_any cloned cid i (st : ports) s :
  cp_handlers st !! cid = Some i ∨ cp_handlers st !! cid = None → cp_slots st !! i = Some s →
  ∃ s', cp_slots (release_entry cloned cid st).2 = <[i := s']> (cp_slots st) ∧
    cp_handlers (release_entry cloned cid st).2 = delete cid (cp_handlers st) ∧
    (release_entry cloned cid st).1 = bool_decide (is_Some (cp_handlers st !! cid)) ∧
    (cloned = true → s' = s).
Proof.
  intros [Hh|Hh] Hs; unfold release_entry; rewrite Hh.
  - destruct cloned; simpl.
    + exists s. by rewrite list_insert_id.
    + destruct (close_any i (set_handlers st (delete cid (cp_handlers st))) s Hs) as (s' & Hs' & Hh' & _). by exists s'.
  - exists s. simpl. by rewrite list_insert_id, delete_id.
Qed.

Lemma holds_todo th i : holds th i = bool_decide (is_Some (todo_of th i)).
Proof. destruct th as [r|]; [|done]. simpl. repeat case_bool_decide; case_decide; naive_solver. Qed.

Lemma todo_tx tx cid todo : todo_of (Some (MkRouting tx cid todo)) tx = Some todo.
Proof. simpl. by rewrite decide_True. Qed.

(** The handler of a sample sends the events it stands for and releases the call it ends. *)
Lemma handler_actions_ok kind bs :
  let todo := handler_actions kind bs in
  sends (Some todo) = (sample_events kind bs).1 ∧ releases (Some todo) = (sample_events kind bs).2 ∧
  todo_ok (sample_events kind bs).2 todo.
Proof.
  unfold handler_actions, sample_events, todo_ok. case_decide.
  { split_and!; [done..|]. left. by eexists [(_, _)]. }
  destruct (decode_event bs) as [wire|]; [|split_and!; [done..|]; left; by eexists [(_, _)]].
  destruct wire; simpl; (split_and!; [done..|]); left; ((by eexists [(_, _)]) || (by eexists [(_, _); (_, _)])).
Qed.

Lemma shared_inv_lookup st p calls ds i c header payload :
  shared_inv (MkShared (MkClient st p calls) None ds) → calls !! i = Some c → call_cid c = h_correlation_id header →
  shared_inv (MkShared (MkClient st p (<[i := arrive c (event_kind header) payload]> calls)) (thread_lookup header payload st) ds).
Proof.
  intros Hinv Hc Hcid. destruct (shared_inv_entry _ _ _ _ _ _ _ Hinv Hc) as (He & s & Hs & Hci).
  unfold thread_lookup. rewrite <- Hcid.
  pose proof (relay_snoc (call_arrived c) (event_kind header) payload) as Hsnoc.
  destruct He as [He|He]; rewrite He.
  - apply (shared_inv_update st _ p calls None _ ds ds i c _ s); try done; [by rewrite list_insert_id|by left|..].
    + intros j Hj. simpl. by rewrite decide_False.
    + intros r [= <-]. by left.
    + by left.
    + destruct (handler_actions_ok (event_kind header) payload) as (Hse & Hre & Hok).
      simpl todo_of. rewrite decide_True by done. unfold call_shared in *. simpl. rewrite He in *.
      destruct (call_phase c) eqn:Hph; [| |done]; rewrite Hsnoc; destruct (relay (call_arrived c)) as [evs []];
        destruct Hci as (q & Hi & Hq & Hen & _); try done; simpl in *; exists q; rewrite Hse, Hre, andb_false_r;
        (split_and!; [done| |by destruct (sample_events _ _).2|done]); rewrite app_nil_r in Hq; by rewrite <- Hq, app_assoc.
  - apply (shared_inv_update st _ p calls None _ ds ds i c _ s); try done; [by rewrite list_insert_id|by left|by left|].
    unfold call_shared in *. simpl in *. rewrite He in *.
    destruct (call_phase c) eqn:Hph; [| |done]; rewrite Hsnoc; destruct (relay (call_arrived c)) as [evs []];
      destruct Hci as (q & Hi & Hq & Hen & _); try done; by exists q.
Qed.

(** What is left to do for a call in its next access. *)
Lemma todo_ok_send over ev b rest : todo_ok over (TrySend ev b :: rest) → todo_ok over rest.
Proof.
  intros [[[|[ev' b'] l] Hl]|[_ ?]]; [by destruct over| |done]. injection Hl as _ _ ->. left. by exists l.
Qed.

Lemma todo_ok_release over rest : todo_ok over (Release :: rest) → over = true ∧ rest = [].
Proof. intros [[[|[ev b] l] Hl]|[_ ?]]; [destruct over; by simplify_eq/=|done|done]. Qed.

Lemma shared_inv_same_calls st st' p calls th th' ds ds' i c s' :
  shared_inv (MkShared (MkClient st p calls) th ds) → calls !! i = Some c →
  cp_slots st' = <[i := s']> (cp_slots st) →
  cp_handlers st' = cp_handlers st ∨ cp_handlers st' = delete (call_cid c) (cp_handlers st) →
  (∀ j, j ≠ i → todo_of th' j = todo_of th j) →
  (∀ r, th' = Some r → ro_tx r = i ∧ ro_cid r = call_cid c ∨ th = Some r) →
  (∀ j d, (j, d) ∈ ds' → (j, d) ∈ ds) →
  call_shared (todo_of th' i) (cp_handlers st') i c s' →
  shared_inv (MkShared (MkClient st' p calls) th' ds').
Proof.
  intros Hinv Hc Hs Hh Htodo Hth Hds Hci. rewrite <- (list_insert_id calls i c) by done.
  eapply (shared_inv_update st st' p calls th th' ds ds' i c c s'); try done. intros j d Hj. left. by apply Hds.
Qed.

Lemma shared_inv_return st p calls tx cid ds c :
  shared_inv (MkShared (MkClient st p calls) (Some (MkRouting tx cid [])) ds) → calls !! tx = Some c → call_cid c = cid →
  shared_inv (MkShared (MkClient (if decide (cp_handlers st !! cid = Some tx) then st else close_slot tx st) p calls) None ds).
Proof.
  intros Hinv Hc <-. destruct (shared_inv_entry _ _ _ _ _ _ _ Hinv Hc) as (He & s & Hs & Hci).
  rewrite todo_tx in Hci.
  assert (Hother : ∀ j, j ≠ tx → todo_of None j = todo_of (Some (MkRouting tx (call_cid c) [])) j)
    by (intros; simpl; by rewrite decide_False).
  case_decide as Hd.
  - apply (shared_inv_same_calls st st p calls (Some (MkRouting tx (call_cid c) [])) None ds ds tx c s); try done;
      [by rewrite list_insert_id|by left|].
    unfold call_shared in *. simpl in *. rewrite Hd in *.
    destruct (call_phase c); [| |done]; destruct (relay (call_arrived c)) as [evs []];
      destruct Hci as (q & Hi & Hq & Hen & _); try done; by exists q.
  - destruct (close_any tx st s Hs) as (s' & Hs' & Hh' & Hclose).
    apply (shared_inv_same_calls st _ p calls (Some (MkRouting tx (call_cid c) [])) None ds ds tx c s'); try done; [by left|].
    rewrite Hh'. unfold call_shared in *. simpl in *. destruct He as [He|He]; [done|]. rewrite He in *.
    destruct (call_phase c); [| |done]; destruct (relay (call_arrived c)) as [evs []];
      destruct Hci as (q & Hi & Hq & Hen & _); try done; exists q; split_and!; try done; by eapply Hclose.
Qed.

Lemma shared_inv_send st p calls tx cid ev b rest ds c :
  shared_inv (MkShared (MkClient st p calls) (Some (MkRouting tx cid (TrySend ev b :: rest))) ds) →
  calls !! tx = Some c → call_cid c = cid →
  let (sent, st') := send_to tx ev st in
  shared_inv (MkShared (MkClient st' p calls) (Some (MkRouting tx cid (if b && negb sent then [Release] else rest))) ds).
Proof.
  intros Hinv Hc <-. destruct (shared_inv_entry _ _ _ _ _ _ _ Hinv Hc) as (He & s & Hs & Hci).
  rewrite todo_tx in Hci.
  destruct (send_any tx ev st s Hs) as (s' & Hs' & Hsend). pose proof (send_to_handlers tx ev st) as Hh'.
  destruct (send_to tx ev st) as [sent st']. simpl in Hs', Hh', Hsend.
  apply (shared_inv_same_calls st st' p calls (Some (MkRouting tx (call_cid c) (TrySend ev b :: rest))) _ ds ds tx c s'); try done.
  - by left.
  - intros j Hj. simpl. by rewrite !decide_False.
  - intros r [= <-]. by left.
  - rewrite todo_tx, Hh'. unfold call_shared in *.
    destruct (call_phase c); [| |done]; destruct (relay (call_arrived c)) as [evs over];
      destruct Hci as (q & Hi & Hq & Hen & Hok); rewrite andb_false_r in Hi; destruct (Hsend _ _ _ Hi) as [-> Hi'];
      rewrite andb_false_r; exists (q ++ [ev]); rewrite andb_false_r; (split_and!; [done| |done|]);
      [by rewrite <- app_assoc|by eapply todo_ok_send|by rewrite <- app_assoc|by eapply todo_ok_send].
Qed.

Lemma shared_inv_release st p calls tx cid rest ds c :
  shared_inv (MkShared (MkClient st p calls) (Some (MkRouting tx cid (Release :: rest))) ds) →
  calls !! tx = Some c → call_cid c = cid →
  shared_inv (MkShared (MkClient (release_entry true cid st).2 p calls) (Some (MkRouting tx cid rest)) ds).
Proof.
  intros Hinv Hc <-. destruct (shared_inv_entry _ _ _ _ _ _ _ Hinv Hc) as (He & s & Hs & Hci).
  rewrite todo_tx in Hci.
  destruct (release_entry_any true (call_cid c) tx st s He Hs) as (s' & Hs' & Hh' & _ & Hsame). rewrite Hsame in Hs' by done.
  apply (shared_inv_same_calls st _ p calls (Some (MkRouting tx (call_cid c) (Release :: rest))) _ ds ds tx c s); try done.
  - by right.
  - intros j Hj. simpl. by rewrite !decide_False.
  - intros r [= <-]. by left.
  - rewrite todo_tx, Hh'. unfold call_shared in *. rewrite lookup_delete_eq.
    destruct (call_phase c); [| |done]; destruct (relay (call_arrived c)) as [evs over];
      destruct Hci as (q & Hi & Hq & Hen & [-> ->]%todo_ok_release); exists q; (split_and!; [done|done|done|by right]).
Qed.

Lemma shared_inv_thread st p calls r ds th' st' :
  shared_inv (MkShared (MkClient st p calls) (Some r) ds) → thread_step r st = (th', st') →
  shared_inv (MkShared (MkClient st' p calls) th' ds).
Proof.
  intros Hinv Hstep. pose proof Hinv as (_ & _ & _ & _ & Hth & _). simpl in Hth.
  destruct (Hth r eq_refl) as (c & Hc & Hcid). destruct r as [tx cid todo]. unfold thread_step in Hstep.
  cbn [ro_tx ro_cid ro_todo] in *. destruct todo as [|[ev b|] rest].
  - simplify_eq. by eapply shared_inv_return.
  - pose proof (shared_inv_send _ _ _ _ _ _ _ _ _ _ Hinv Hc Hcid) as Hs. by destruct (send_to tx ev st); simplify_eq.
  - simplify_eq. by eapply shared_inv_release.
Qed.

Lemma shared_inv_publish base st p calls th ds i c payload timeout r st' :
  shared_inv (MkShared (MkClient st p calls) th ds) → calls !! i = Some c → call_phase c = Publishing →
  call_publish base (call_header c) i payload timeout st = (r, st') →
  shared_inv (MkShared (MkClient st' p (<[i := set_phase c (if is_ok r then Live else Gone)]> calls)) th ds).
Proof.
  intros Hinv Hc Hph Hpub. destruct (shared_inv_entry _ _ _ _ _ _ _ Hinv Hc) as (He & s & Hs & Hci).
  unfold call_shared in Hci. rewrite Hph in Hci. destruct (relay (call_arrived c)) as [evs over] eqn:Hrel.
  destruct Hci as (q & Hi & Hq & Hen & Hok).
  pose proof (call_publish_eq base (call_header c) i payload timeout st s _ q _ He Hs Hi) as Hp.
  rewrite Hpub in Hp. destruct Hp as (s' & Hs' & Hp). destruct r as [j|e]; simpl.
  - destruct Hp as (-> & Hi' & Hh'). apply (shared_inv_update st st' p calls th th ds ds i c _ s'); try done; try by auto.
    + by rewrite Hph.
    + unfold call_shared. simpl. rewrite Hrel, Hh'. by exists q.
  - destruct Hp as (Hi' & Hh'). apply (shared_inv_update st st' p calls th th ds ds i c _ s'); try done; try by auto.
    unfold call_shared. simpl. rewrite Hh'. apply lookup_delete_eq.
Qed.

Lemma shared_inv_poll st p calls th ds i c r st' :
  shared_inv (MkShared (MkClient st p calls) th ds) → calls !! i = Some c → call_phase c = Live →
  poll_slot i st = (r, st') → shared_inv (MkShared (MkClient st' p (<[i := hand_out c r]> calls)) th ds).
Proof.
  intros Hinv Hc Hph Hpoll. destruct (shared_inv_entry _ _ _ _ _ _ _ Hinv Hc) as (He & s & Hs & Hci).
  unfold call_shared in Hci. rewrite Hph in Hci. destruct (relay (call_arrived c)) as [evs over] eqn:Hrel.
  destruct Hci as (q & Hi & Hq & Hen & Hok).
  destruct (poll_slot_eq i st s _ _ q _ Hs Hi) as (s' & Hst & Hp). rewrite Hpoll in Hst, Hp. simpl in Hst, Hp. subst st'.
  apply (shared_inv_update st _ p calls th th ds ds i c _ s'); try done; try by auto.
  - by destruct r as [|[]].
  - by rewrite Hph.
  - destruct q as [|ev q]; destruct Hp as [-> Hi']; unfold call_shared; simpl.
    + assert (Hsame : ∀ b : bool, hand_out c (if b then Ready None else Pending) = c) by (by intros []).
      rewrite Hsame, Hph, Hrel. by exists [].
    + rewrite Hph, Hrel. exists q. rewrite existsb_app. simpl. rewrite orb_false_r, orb_comm.
      split_and!; [done| |done|done]. by rewrite <- app_assoc.
Qed.

(** What the decision of a drop rests on. *)
Lemma drop_begin_eq th i (c : Call (T := T) (E := E)) (st : ports) s q closed :
  cp_handlers st !! call_cid c = Some i ∨ cp_handlers st !! call_cid c = None → cp_slots st !! i = Some s →
  slot_is s (Some (call_header c)) (existsb is_terminal (call_handed c)) q closed →
  ∃ s' st', drop_begin th i st =
      (Some (call_header c, cancels (existsb is_terminal (call_handed c)) (bool_decide (is_Some (cp_handlers st !! call_cid c)))),
       st') ∧
    cp_slots st' = <[i := s']> (cp_slots st) ∧ cp_handlers st' = delete (call_cid c) (cp_handlers st) ∧ cp_seq st' = cp_seq st.
Proof.
  intros He Hs (rx & -> & Hv). unfold drop_begin. rewrite Hs. simpl. fold (call_cid c).
  destruct (release_entry_any (holds th i) (call_cid c) i st _ He Hs) as (s' & Hs' & Hh' & Hr & _).
  assert (Hseq : cp_seq (release_entry (holds th i) (call_cid c) st).2 = cp_seq st)
    by (unfold release_entry; destruct (cp_handlers st !! _); [by destruct (holds th i)|done]).
  destruct (release_entry _ _ st) as [in_flight st']. simpl in *. rewrite Hr. by exists s', st'.
Qed.

Lemma shared_inv_drop_begin st p calls th ds i c decided st' :
  shared_inv (MkShared (MkClient st p calls) th ds) → calls !! i = Some c → call_phase c = Live →
  drop_begin th i st = (decided, st') →
  shared_inv (MkShared (MkClient st' p (<[i := set_phase c Gone]> calls)) th ((i, decided) :: ds)).
Proof.
  intros Hinv Hc Hph Hdrop. destruct (shared_inv_entry _ _ _ _ _ _ _ Hinv Hc) as (He & s & Hs & Hci).
  unfold call_shared in Hci. rewrite Hph in Hci. destruct (relay (call_arrived c)) as [evs over] eqn:Hrel.
  destruct Hci as (q & Hi & _). destruct (drop_begin_eq th i c st s q _ He Hs Hi) as (s' & st1 & Heq & Hs' & Hh' & _).
  rewrite Hdrop in Heq. simplify_eq. apply (shared_inv_update st _ p calls th th ds _ i c _ s'); try done; try by auto.
  - intros j d [Heq|Hin]%elem_of_cons; [simplify_eq; by right|by left].
  - unfold call_shared. simpl. rewrite Hh'. apply lookup_delete_eq.
Qed.

Lemma shared_inv_drop_finish base st p calls th ds1 ds2 i decided :
  shared_inv (MkShared (MkClient st p calls) th (ds1 ++ (i, decided) :: ds2)) →
  shared_inv (MkShared (MkClient (drop_finish base i decided p st) p calls) th (ds1 ++ ds2)).
Proof.
  intros Hinv. pose proof Hinv as (_ & _ & _ & _ & _ & Hds). simpl in Hds.
  destruct (Hds i decided) as (c & Hc & Hph); [set_solver|].
  destruct (shared_inv_entry _ _ _ _ _ _ _ Hinv Hc) as (_ & s & Hs & Hci). unfold call_shared in Hci. rewrite Hph in Hci.
  unfold drop_finish. set (st1 := match decided with Some (header, true) => _ | _ => st end).
  assert (Hsame : same_calls st st1) by (subst st1; destruct decided as [[header []]|]; [apply publish_cancel_same|done|done]).
  destruct Hsame as [Hs1 Hh1]. rewrite <- Hs1 in Hs. destruct (close_any i st1 s Hs) as (s' & Hs' & Hh' & _).
  apply (shared_inv_same_calls st _ p calls th th (ds1 ++ (i, decided) :: ds2) _ i c s'); try done.
  - by rewrite Hs', Hs1.
  - left. by rewrite Hh', Hh1.
  - by right.
  - set_solver.
  - unfold call_shared. by rewrite Hph, Hh', Hh1.
Qed.

Lemma shared_inv_begin tl service (method : Z) p st calls th ds header tx p' st' :
  shared_inv (MkShared (MkClient st p calls) th ds) → u64 (cid_counter p + 3) →
  call_begin tl service method p st = (header, tx, p', st') →
  shared_inv (MkShared (MkClient st' p' (calls ++ [MkCall header Publishing [] []])) th ds).
Proof.
  intros (Hids & Hlen & Hhs & Hcalls & Hth & Hds) Hu3 Hb. simpl in *.
  pose proof (request_header_id tl service method p st (proj1 (proj2 Hids)) Hu3) as Hr.
  unfold call_begin in Hb. destruct (request_header _ _ _ _ _) as [[h p1] st1].
  destruct Hr as ([Hs1 Hh1] & Hpid & Hu' & n & Hn & Hcid). simplify_eq/=.
  set (c := MkCall header Publishing [] []).
  pose proof (ids_inv_snoc p p' calls c n Hids Hpid Hu' Hn Hcid) as Hids'.
  assert (Hold : ∀ i d, calls !! i = Some d → (calls ++ [c]) !! i = Some d) by (intros; by apply lookup_app_l_Some).
  rewrite Hs1, Hh1. split_and!; simpl; [done|by rewrite !length_app, Hlen|..].
  - intros cid i [[<- <-]|[Hne Hi]]%lookup_insert_Some.
    + exists c. split; [|done]. rewrite Hlen. by rewrite list_lookup_middle.
    + destruct (Hhs _ _ Hi) as (d & Hd & ?). eauto.
  - intros i d s Hd Hs. apply lookup_app_Some in Hs as [Hs|[Hge Hs]].
    + pose proof (lookup_lt_Some _ _ _ Hs) as Hlt. pose proof Hd as Hd'.
      rewrite lookup_app_l in Hd by lia. specialize (Hcalls i d s Hd Hs).
      assert (Hne : h_correlation_id header ≠ call_cid d).
      { intros Heq. destruct Hids' as (_ & _ & _ & Hinj). assert (i = length calls); [|lia].
        apply (Hinj i (length calls) d c Hd'); [by rewrite list_lookup_middle|done]. }
      unfold call_shared in *. by rewrite lookup_insert_ne.
    + apply list_lookup_singleton_Some in Hs as [Hi <-].
      assert (i = length calls) as -> by lia. rewrite list_lookup_middle in Hd by done. simplify_eq.
      assert (todo_of th (length calls) = None) as ->.
      { destruct th as [r|]; [|done]. simpl. destruct (Hth r eq_refl) as (d & Hd & _). apply lookup_lt_Some in Hd.
        by rewrite decide_False by lia. }
      unfold call_shared; simpl. exists []. rewrite Hlen, lookup_insert_eq. split_and!; try done.
      eexists. split; [done|]. apply ch_unbounded_view.
  - intros r Hr. destruct (Hth r Hr) as (d & Hd & ?). eauto.
  - intros i d Hin. destruct (Hds i d Hin) as (e & He & ?). eauto.
Qed.

Lemma shared_inv_step base f f' : shared_inv f → shared_step base f f' → shared_inv f'.
Proof.
  intros Hinv Hstep. destruct Hstep as [| | |st p calls ds header payload Hstray| | | |].
  - by eapply shared_inv_begin.
  - by eapply shared_inv_publish.
  - by apply shared_inv_lookup.
  - unfold thread_lookup. destruct (cp_handlers st !! h_correlation_id header) as [tx|] eqn:Htx; [|done].
    destruct Hinv as (_ & _ & Hhs & _). destruct (Hhs _ _ Htx) as (c & Hc & Heq). by destruct (Hstray tx c Hc).
  - by eapply shared_inv_thread.
  - by eapply shared_inv_poll.
  - by eapply shared_inv_drop_begin.
  - by apply shared_inv_drop_finish.
Qed.

Lemma shared_inv_reachable base w p f :
  u32 (proc_pid p) → u64 (cid_counter p) → shared_reachable base w p f → shared_inv f.
Proof.
  intros Hp Hu. induction 1 as [|f f' _ IH Hs]; [|by eapply shared_inv_step].
  split_and!; try done. simpl. set_solver.
Qed.

(** C7. An abandoned call is cancelled remotely, an answered one is not, whatever the
    other threads are in the middle of.  When a consumer drops its stream, the Cancel
    of that very call is decided exactly when the stream has handed out no terminal event
    and no sample that ends the call has been handled to its end: a call that was not
    answered is always cancelled, a call whose end the consumer has seen never, even
    while the response thread has still to release it; a call whose end the
    consumer has not seen is cancelled only if the thread is still at it.  The entry is
    gone in every case and no other entry is touched. *)
Theorem cancel_iff_unanswered base w p f i c :
  u32 (proc_pid p) → u64 (cid_counter p) → shared_reachable base w p f →
  cl_calls (sh_client f) !! i = Some c → call_phase c = Live →
  let st := cl_ports (sh_client f) in
  let seen := existsb is_terminal (call_handed c) in
  let over := (relay (call_arrived c)).2 in
  let releasing := releases (todo_of (sh_thread f) i) in
  let cancel := negb seen && (negb over || releasing) in
  let (decided, st') := drop_begin (sh_thread f) i st in
  (seen = true → over = true) ∧
  cp_handlers st' = delete (call_cid c) (cp_handlers st) ∧ cp_seq st' = cp_seq st ∧
  ∀ p' st'', drop_finish base i decided p' st'' =
    close_slot i (if cancel then publish_cancel base (call_header c) p' st'' else st'').
Proof.
  intros Hp Hu Hr Hc Hph. pose proof (shared_inv_reachable _ _ _ _ Hp Hu Hr) as Hinv.
  destruct f as [[st p1 calls] th ds]. cbn [sh_client sh_thread cl_ports cl_calls] in *. cbv zeta.
  destruct (shared_inv_entry _ _ _ _ _ _ _ Hinv Hc) as (He & s & Hs & Hci).
  unfold call_shared in Hci. rewrite Hph in Hci. destruct (relay (call_arrived c)) as [evs over] eqn:Hrel.
  destruct Hci as (q & Hi & Hq & Hen & _).
  destruct (drop_begin_eq th i c st s q _ He Hs Hi) as (s' & st' & -> & _ & Hh' & Hseq). simpl.
  split_and!; [|done|done|].
  - intros Hseen. destruct over; [done|]. rewrite (relay_open _ _ _ _ Hrel Hq) in Hseen. done.
  - intros p' st''. unfold drop_finish, cancels. rewrite Hen. by destruct (existsb _ _), over, (releases _).
Qed.
End dropping.

(** ** The end seen before the release

    The response thread has sent the end of a call and not yet released it; the consumer
    polls it and drops the stream. *)

Module Race.
Import Client.Run.

Definition routing : Routing (T := Z) (E := Z) :=
  MkRouting 0 (h_correlation_id header) (handler_actions KComplete [11]).

Definition sent : option Routing * ConsumerPorts := thread_step routing published.2.

Definition polled : poll (option (Event Z Z)) * ConsumerPorts := poll_slot 0 sent.2.

(** Before the sample, and after the poll. *)
Definition waiting : Shared (C := VecChannel) :=
  MkShared (MkClient published.2 proc1 [MkCall header Live [] []]) None [].

Definition seen : Shared (C := VecChannel) :=
  MkShared (MkClient polled.2 proc1 [MkCall header Live [Complete] [(KComplete, [11])]]) sent.1 [].

Lemma waiting_reachable : shared_reachable 0 bus0 proc0 waiting.
Proof.
  eapply shared_more; [eapply shared_more; [apply shared_start|]|].
  - apply (shared_begin 0 _ _ [] None [] empty_thread (MkServiceRef 3 1) 9 header 0%nat proc1 begun.2);
      [by vm_compute|reflexivity].
  - apply (shared_publish 0 begun.2 proc1 [MkCall header Publishing [] []] None [] 0%nat
      (MkCall header Publishing [] []) [1] 100 (Ok 0%nat) published.2); [done|done|]. vm_compute. reflexivity.
Qed.

Definition answered : Call (T := Z) (E := Z) := MkCall header Live [] [(KComplete, [11])].

Lemma seen_reachable : shared_reachable 0 bus0 proc0 seen.
Proof.
  apply (shared_more 0 bus0 proc0 (MkShared (MkClient sent.2 proc1 [answered]) sent.1 [])).
  - apply (shared_more 0 bus0 proc0 (MkShared (MkClient published.2 proc1 [answered]) (Some routing) [])).
    + apply (shared_more 0 bus0 proc0 waiting _ waiting_reachable).
      assert (Hl : thread_lookup (sample KComplete) [11] published.2 = Some routing) by (vm_compute; reflexivity).
      rewrite <- Hl. by apply (shared_lookup 0 published.2 proc1 [MkCall header Live [] []] [] 0%nat (MkCall header Live [] [])
        (sample KComplete) [11]).
    + by apply (shared_thread 0 published.2 proc1 [answered] routing []).
  - apply (shared_poll 0 sent.2 proc1 [answered] sent.1 [] 0%nat answered (Ready (Some Complete)) polled.2); reflexivity.
Qed.
End Race.

(** Dropped before any answer the call is cancelled; dropped with its end seen, it is not,
    although its entry is still there. *)
Lemma cancel_iff_unanswered_witness :
  cp_seq (drop_finish 0 0 (drop_begin None 0 (cl_ports (sh_client Race.waiting))).1 Run.proc1
    (drop_begin None 0 (cl_ports (sh_client Race.waiting))).2) = 2 ∧
  let st := cl_ports (sh_client Race.seen) in
  is_Some (cp_handlers st !! h_correlation_id Run.header) ∧
  cp_seq (drop_finish 0 0 (drop_begin (sh_thread Race.seen) 0 st).1 Run.proc1 (drop_begin (sh_thread Race.seen) 0 st).2) = 1.
Proof.
  split; [|split].
  - pose proof (cancel_iff_unanswered 0 Run.bus0 Run.proc0 Race.waiting 0%nat (MkCall Run.header Live [] [])
      (proj1 Run.proc0_ok) (proj2 Run.proc0_ok) Race.waiting_reachable eq_refl eq_refl) as Ht.
    cbv zeta in Ht. destruct (drop_begin _ _ _) as [decided st'] eqn:Hd in Ht. destruct Ht as (_ & _ & Hseq & Hf).
    change (sh_thread Race.waiting) with (None : option (Routing (T := Z) (E := Z))) in Hd.
    rewrite Hd. simpl fst. simpl snd. rewrite Hf. cbn [close_slot set_slots cp_seq]. simpl negb. simpl andb. cbv iota.
    rewrite publish_cancel_seq, Hseq. vm_compute. reflexivity.
  - vm_compute. eauto.
  - pose proof (cancel_iff_unanswered 0 Run.bus0 Run.proc0 Race.seen 0%nat
      (MkCall Run.header Live [Complete] [(KComplete, [11])])
      (proj1 Run.proc0_ok) (proj2 Run.proc0_ok) Race.seen_reachable eq_refl eq_refl) as Ht.
    cbv zeta in Ht. destruct (drop_begin _ _ _) as [decided st'] eqn:Hd in Ht. destruct Ht as (_ & _ & Hseq & Hf).
    rewrite Hd. simpl fst. simpl snd. rewrite Hf. cbn [close_slot set_slots cp_seq]. simpl negb. simpl andb. cbv iota.
    rewrite Hseq. vm_compute. reflexivity.
Defined.
