(* ===== verification/Server.v ===== *)
(** * The provider side ([ice-rpc/src/transport/server.rs])

    One provided channel: the hub the calls publish through, the table of the
    calls in flight, the cancellable task of a call, the routing of a request,
    and the registry the channels are started from.  The task of a call is the
    future its handler returned ([CallTask]); it reaches the hub through the
    emitter of its own request and nothing else. *)

From S2P Require Import Prelude MachineInt Text Event Header Context Wire Cancel Stream Bridge Publish Notify.

Local Open Scope Z_scope.

(** 500 ms, in nanoseconds. *)
Definition CONSUMER_WAIT_TIMEOUT : Z := 500000000.

(** ** The hub *)

Section hub.
Context {W : Type} `{Bus W}.

(** [ResponseHub], with the tokens its table points to. *)
Record ResponseHub : Type := MkHub {
  hub_bus : W;
  hub_seq : Z;
  hub_coalescer : Z;
  hub_wakeups : nat;
  (** [InFlightCalls]: the token of each call in flight. *)
  hub_in_flight : gmap bytes nat;
  hub_tokens : list CancellationToken
}.

Definition hub_new (w : W) : ResponseHub := MkHub w 0 NEVER 0 ∅ [].

Definition set_calls (hub : ResponseHub) (calls : gmap bytes nat) (tokens : list CancellationToken)
    : ResponseHub :=
  MkHub (hub_bus hub) (hub_seq hub) (hub_coalescer hub) (hub_wakeups hub) calls tokens.

(** [InFlightCalls::register]. *)
Definition register_call (cid : bytes) (hub : ResponseHub) : nat * ResponseHub :=
  let token := length (hub_tokens hub) in
  (token, set_calls hub (<[cid := token]> (hub_in_flight hub)) (hub_tokens hub ++ [token_new])).

(** [InFlightCalls::cancel]: whether the call was in flight, and the tasks the
    token wakes. *)
Definition cancel_call (cid : bytes) (hub : ResponseHub) : bool * list Waker * ResponseHub :=
  match hub_in_flight hub !! cid with
  | Some tok =>
      match hub_tokens hub !! tok with
      | Some t =>
          let (woken, t') := cancel t in
          (true, woken, set_calls hub (hub_in_flight hub) (<[tok := t']> (hub_tokens hub)))
      | None => (true, [], hub)
      end
  | None => (false, [], hub)
  end.

(** [InFlightCalls::unregister]. *)
Definition unregister_call (cid : bytes) (hub : ResponseHub) : ResponseHub :=
  set_calls hub (delete cid (hub_in_flight hub)) (hub_tokens hub).

(** [ResponseHub::publish]; [p] is the process that stamps the header. *)
Definition hub_publish (base : Z) (p : Proc) (kind : EventKind) (request : RpcHeader)
    (payload : bytes) (hub : ResponseHub) : bool * ResponseHub :=
  let header := with_seq (response_from request kind (h_service_version request) p) (hub_seq hub) in
  let seq' := wrap 64 (hub_seq hub + 1) in
  match publish_until_delivered header payload CONSUMER_WAIT_TIMEOUT (hub_bus hub) with
  | (Ok _, w) =>
      let (now, w) := instant_now w in
      let (must, cell) := should_notify (hub_coalescer hub) (clock_us base now) in
      (true, MkHub w seq' cell (if must then S (hub_wakeups hub) else hub_wakeups hub)
               (hub_in_flight hub) (hub_tokens hub))
  | (Err _, w) =>
      (false, MkHub w seq' (hub_coalescer hub) (hub_wakeups hub) (hub_in_flight hub) (hub_tokens hub))
  end.

(** [CallEmitter]: the hub, and the request being answered. *)
Record CallEmitter : Type := MkEmitter { em_hub : ResponseHub; em_request : RpcHeader }.

#[export] Instance CallEmitter_emit (base : Z) (p : Proc) : ResponseEmitter CallEmitter :=
  λ emitter kind payload,
    let (delivered, hub) := hub_publish base p kind (em_request emitter) payload (em_hub emitter) in
    (delivered, MkEmitter hub (em_request emitter)).

(** What answering [request] may do to the hub: publish its responses. *)
Inductive answers (base : Z) (p : Proc) (request : RpcHeader) : ResponseHub → ResponseHub → Prop :=
| answers_none hub : answers base p request hub hub
| answers_more hub hub' kind payload :
    answers base p request (hub_publish base p kind request payload hub).2 hub' →
    answers base p request hub hub'.
End hub.
Arguments ResponseHub W : clear implicits.
Arguments CallEmitter W : clear implicits.

(** ** The tasks *)

(** The future a handler returns: one poll with a waker, on a thread whose
    ambient slots it may read, publishing through the hub. *)
Class CallTask (F W : Type) : Type :=
  task_poll : Z → Proc → F → Waker → Thread → ResponseHub W → poll () * F * ResponseHub W.

Section server.
Context {F W : Type} `{Bus W} `{CallTask F W} {T E : Type} `{Codec T E}.
(** The origin of the microsecond clock, and the process. *)
Context (base : Z) (p : Proc).

Record CancellableCall : Type := MkCancellable {
  ca_cid : bytes;
  ca_token : nat;
  ca_registered_waker : option Waker;
  ca_task : F
}.

(** [CancellableCall::wrap]. *)
Definition cancellable (cid : bytes) (token : nat) (task : F) : CancellableCall :=
  MkCancellable cid token None task.

(** [CancellableCall::poll].  [_ambient] is dropped on both ways out. *)
Definition poll_call (c : CancellableCall) (w : Waker) (th : Thread) (hub : ResponseHub W)
    : poll () * CancellableCall * Thread * ResponseHub W :=
  match hub_tokens hub !! ca_token c with
  | None => (Ready (), c, th, hub)
  | Some token =>
      if is_cancelled token then (Ready (), c, th, hub)
      else
        let (previous, th) := install_call_cancellation (ca_token c) th in
        let '(polled, task, hub) := task_poll base p (ca_task c) w th hub in
        let th := drop_ambient_cancel previous th in
        let c := MkCancellable (ca_cid c) (ca_token c) (ca_registered_waker c) task in
        match polled with
        | Ready _ => (Ready (), c, th, hub)
        | Pending =>
            let token := default token_new (hub_tokens hub !! ca_token c) in
            let '(cancelled, token, cache) :=
              poll_cancelled_cached token w (ca_registered_waker c) in
            let hub := set_calls hub (hub_in_flight hub) (<[ca_token c := token]> (hub_tokens hub)) in
            let c := MkCancellable (ca_cid c) (ca_token c) cache (ca_task c) in
            (cancelled, c, th, hub)
        end
  end.

(** [InFlightGuard::drop]: the end of a call releases its entry. *)
Definition drop_call (c : CancellableCall) (hub : ResponseHub W) : ResponseHub W :=
  unregister_call (ca_cid c) hub.

(** ** The executor *)

(** What the channel runs: the hub, the slots of the channel's thread, and the
    tasks handed to the runtime, by task id.  A one-way task is not wrapped. *)
Record Server : Type := MkServer {
  sv_hub : ResponseHub W;
  sv_thread : Thread;
  sv_tasks : gmap nat (CancellableCall + F);
  sv_next : nat
}.

(** [Waker::noop]; a task is woken by its id. *)
Definition NOOP : Waker := 0%nat.

Definition server_new (w : W) : Server := MkServer (hub_new w) empty_thread ∅ 1.

(** One poll of a task, and its drop when it is over. *)
Definition poll_task (t : CancellableCall + F) (w : Waker) (th : Thread) (hub : ResponseHub W)
    : option (CancellableCall + F) * Thread * ResponseHub W :=
  match t with
  | inl c =>
      match poll_call c w th hub with
      | (Ready _, c, th, hub) => (None, th, drop_call c hub)
      | (Pending, c, th, hub) => (Some (inl c), th, hub)
      end
  | inr task =>
      match task_poll base p task w th hub with
      | (Ready _, _, hub) => (None, th, hub)
      | (Pending, task, hub) => (Some (inr task), th, hub)
      end
  end.

(** [Spawner::spawn]. *)
Definition spawn (t : CancellableCall + F) (sv : Server) : Server :=
  MkServer (sv_hub sv) (sv_thread sv) (<[sv_next sv := t]> (sv_tasks sv)) (S (sv_next sv)).

(** [Spawner::run_or_spawn]: polled in place with a waker that does nothing,
    unless no runtime was captured ([entered] is false). *)
Definition run_or_spawn (entered : bool) (t : CancellableCall + F) (sv : Server) : Server :=
  if entered then
    match poll_task t NOOP (sv_thread sv) (sv_hub sv) with
    | (None, th, hub) => MkServer hub th (sv_tasks sv) (sv_next sv)
    | (Some t, th, hub) => spawn t (MkServer hub th (sv_tasks sv) (sv_next sv))
    end
  else spawn t sv.

(** The executor polls the task [id] on a worker thread. *)
Definition run_task (id : nat) (worker : Thread) (sv : Server) : Server :=
  match sv_tasks sv !! id with
  | None => sv
  | Some t =>
      match poll_task t id worker (sv_hub sv) with
      | (None, _, hub) => MkServer hub (sv_thread sv) (delete id (sv_tasks sv)) (sv_next sv)
      | (Some t, _, hub) => MkServer hub (sv_thread sv) (<[id := t]> (sv_tasks sv)) (sv_next sv)
      end
  end.

(** ** Requests *)

Abbreviation dispatcher := (ServiceDispatcher F (CallEmitter W)).

Inductive RequestRejection : Type :=
| RejectProtocol (actual : Z)
| RejectServiceVersion (expected actual : Z).

Definition classify (d : dispatcher) (header : RpcHeader) : option RequestRejection :=
  if negb (h_protocol_version header =? PROTOCOL_VERSION) then
    Some (RejectProtocol (h_protocol_version header))
  else
    let expected := sr_version (sd_service d) in
    if negb (h_service_version header =? expected) then
      Some (RejectServiceVersion expected (h_service_version header))
    else None.

Definition rejection_rpc_error (r : RequestRejection) : RpcError :=
  match r with
  | RejectProtocol actual =>
      ProtocolMismatch
        ("protocol_version " +:+ pretty actual +:+ " != " +:+ pretty PROTOCOL_VERSION)
  | RejectServiceVersion expected actual => IncompatibleVersion expected actual
  end.

#[local] Instance hub_emit : ResponseEmitter (CallEmitter W) := CallEmitter_emit base p.

Definition reject (header : RpcHeader) (err : RpcError) (hub : ResponseHub W) : ResponseHub W :=
  em_hub (emit_rpc_error (T:=T) (E:=E) err (MkEmitter hub header)).2.

Definition set_hub (sv : Server) (hub : ResponseHub W) : Server :=
  MkServer hub (sv_thread sv) (sv_tasks sv) (sv_next sv).

(** [handle_request], and the tasks a Cancel wakes. *)
Definition handle_request (entered : bool) (table : gmap Z dispatcher) (header : RpcHeader)
    (payload : bytes) (sv : Server) : list Waker * Server :=
  match event_kind header with
  | KRequest =>
      match table !! h_service_id header with
      | None =>
          ([], set_hub sv (reject header (UnknownService (hex_u32_prefixed (h_service_id header)))
                             (sv_hub sv)))
      | Some d =>
          match classify d header with
          | Some rejection =>
              ([], set_hub sv (reject header (rejection_rpc_error rejection) (sv_hub sv)))
          | None =>
              let cid := h_correlation_id header in
              let (dispatched, emitter) :=
                dispatch d (h_method_id header) header payload (MkEmitter (sv_hub sv) header) in
              let hub := em_hub emitter in
              match dispatched with
              | Some (MkDispatched task true) =>
                  let (token, hub) := register_call cid hub in
                  ([], run_or_spawn entered (inl (cancellable cid token task)) (set_hub sv hub))
              | Some (MkDispatched task false) =>
                  ([], run_or_spawn entered (inr task) (set_hub sv hub))
              | None =>
                  ([], set_hub sv (reject header (UnknownMethod (hex_u32_prefixed (h_method_id header)))
                                     hub))
              end
          end
      end
  | KCancel =>
      let '(_, woken, hub) := cancel_call (h_correlation_id header) (sv_hub sv) in
      (woken, set_hub sv hub)
  | _ => ([], sv)
  end.

(** ** What the tasks and the handlers may do *)

Context `{!BusLaws W}.
Context (task_request : F → RpcHeader).

(** A task answers the request it was built for, and only that one. *)
Hypothesis task_answers : ∀ f w th hub,
  let '(_, f', hub') := task_poll base p f w th hub in
  task_request f' = task_request f ∧ answers base p (task_request f) hub hub'.

(** So does a handler that answers on the spot. *)
Definition handlers_answer (table : gmap Z dispatcher) : Prop :=
  ∀ sid d mid entry header payload hub,
    table !! sid = Some d → sd_handlers d !! mid = Some entry →
    let (task, emitter) := me_handler entry header payload (MkEmitter hub header) in
    task_request task = header ∧ answers base p header hub (em_hub emitter).

(** Publishing touches neither the table nor the tokens. *)
Lemma hub_publish_calls kind request payload (hub : ResponseHub W) :
  hub_in_flight (hub_publish base p kind request payload hub).2 = hub_in_flight hub ∧
  hub_tokens (hub_publish base p kind request payload hub).2 = hub_tokens hub.
Proof. unfold hub_publish. by repeat case_match. Qed.

Lemma answers_calls request (hub hub' : ResponseHub W) : answers base p request hub hub' →
  hub_in_flight hub' = hub_in_flight hub ∧ hub_tokens hub' = hub_tokens hub.
Proof.
  induction 1 as [|hub hub' kind payload _ [IH1 IH2]]; [done|].
  destruct (hub_publish_calls kind request payload hub) as [Hf Ht]. by rewrite IH1, IH2.
Qed.

Lemma reject_answers header err (hub : ResponseHub W) :
  answers base p header hub (reject header err hub).
Proof.
  unfold reject, emit_rpc_error. destruct (encode_error err) as [bs|]; [|apply answers_none].
  unfold emit, hub_emit, CallEmitter_emit. simpl.
  destruct (hub_publish base p KRpcError header bs hub) as [d hub'] eqn:Hp. simpl.
  apply (answers_more _ _ _ _ _ KRpcError bs). rewrite Hp. apply answers_none.
Qed.

Lemma handler_calls table sid d mid header payload hub dispatched emitter :
  handlers_answer table → table !! sid = Some d →
  dispatch d mid header payload (MkEmitter hub header) = (dispatched, emitter) →
  answers base p header hub (em_hub emitter) ∧
  (∀ task b, dispatched = Some (MkDispatched task b) → task_request task = header).
Proof.
  intros Hok Hd Hdis. unfold dispatch in Hdis. destruct (sd_handlers d !! mid) as [entry|] eqn:He.
  - pose proof (Hok sid d mid entry header payload hub Hd He) as Ha.
    destruct (me_handler entry header payload (MkEmitter hub header)) as [task em].
    simplify_eq/=. destruct Ha as [Hr Ha]. split; [done|]. intros. by simplify_eq.
  - simplify_eq/=. split; [apply answers_none|done].
Qed.

(** ** The table of the calls in flight *)

(** The token of a call is its own, and holds the waker the call remembers. *)
Definition call_ok (hub : ResponseHub W) (c : CancellableCall) : Prop :=
  hub_in_flight hub !! ca_cid c = Some (ca_token c) ∧
  ∃ t, hub_tokens hub !! ca_token c = Some t ∧
    (∀ w, ca_registered_waker c = Some w → is_cancelled t = true ∨ w ∈ tok_wakers t).

Definition server_inv (sv : Server) : Prop :=
  let hub := sv_hub sv in
  (∀ id c, sv_tasks sv !! id = Some (inl c) → call_ok hub c) ∧
  (∀ cid tok, hub_in_flight hub !! cid = Some tok →
     (tok < length (hub_tokens hub))%nat ∧
     ∃ id c, sv_tasks sv !! id = Some (inl c) ∧ ca_cid c = cid) ∧
  (∀ id1 id2 c1 c2, sv_tasks sv !! id1 = Some (inl c1) → sv_tasks sv !! id2 = Some (inl c2) →
     ca_cid c1 = ca_cid c2 ∨ ca_token c1 = ca_token c2 → id1 = id2) ∧
  (∀ id, is_Some (sv_tasks sv !! id) → (id < sv_next sv)%nat).

(** Between two steps the table of the tasks and the hub may be out of step for
    one call, [pending]. *)
Definition inv_except (sv : Server) (pending : CancellableCall) : Prop :=
  let hub := sv_hub sv in
  call_ok hub pending ∧
  (∀ id c, sv_tasks sv !! id = Some (inl c) →
     call_ok hub c ∧ ca_cid c ≠ ca_cid pending ∧ ca_token c ≠ ca_token pending) ∧
  (∀ cid tok, hub_in_flight hub !! cid = Some tok →
     (tok < length (hub_tokens hub))%nat ∧
     (cid = ca_cid pending ∨ ∃ id c, sv_tasks sv !! id = Some (inl c) ∧ ca_cid c = cid)) ∧
  (∀ id1 id2 c1 c2, sv_tasks sv !! id1 = Some (inl c1) → sv_tasks sv !! id2 = Some (inl c2) →
     ca_cid c1 = ca_cid c2 ∨ ca_token c1 = ca_token c2 → id1 = id2) ∧
  (∀ id, is_Some (sv_tasks sv !! id) → (id < sv_next sv)%nat).

(** A change of the hub that keeps the table and the other tokens. *)
Definition touches (tok : nat) (hub hub' : ResponseHub W) : Prop :=
  hub_in_flight hub' = hub_in_flight hub ∧ length (hub_tokens hub') = length (hub_tokens hub) ∧
  ∀ i, i ≠ tok → hub_tokens hub' !! i = hub_tokens hub !! i.

Lemma answers_touches request tok (hub hub' : ResponseHub W) :
  answers base p request hub hub' → touches tok hub hub'.
Proof. intros [Hf Ht]%answers_calls. unfold touches. rewrite Ht. done. Qed.

Lemma poll_cached_spec t w cache :
  (∀ v, cache = Some v → is_cancelled t = true ∨ v ∈ tok_wakers t) →
  let '(r, t', cache') := poll_cancelled_cached t w cache in
  (r = Pending → cache' = Some w) ∧ (∀ v, cache' = Some v → is_cancelled t' = true ∨ v ∈ tok_wakers t').
Proof.
  intros Hc. unfold poll_cancelled_cached.
  destruct (is_cancelled t) eqn:Ht; [split; [done|intros v _; by left]|].
  assert (Hreg : let '(r, t', cache') :=
      match poll_cancelled t w with
      | (Ready _, t') => (Ready (), t', cache)
      | (Pending, t') => (Pending, t', Some w)
      end in
    (r = Pending → cache' = Some w) ∧ (∀ v, cache' = Some v → is_cancelled t' = true ∨ v ∈ tok_wakers t')).
  { unfold poll_cancelled. rewrite Ht. unfold is_cancelled in *. rewrite register_flag, Ht.
    split; [done|]. intros v [= <-]. right. apply elem_register. by left. }
  destruct cache as [v|]; [|done]. destruct (bool_decide (v = w)) eqn:Hv; [|done].
  apply bool_decide_eq_true in Hv as ->. split; [done|]. rewrite Ht. apply Hc.
Qed.

(** One poll of a call: it keeps to its own token and to its own entry, leaves
    the ambient slots as they were, waits with its waker registered, and does
    nothing at all once cancelled. *)
Lemma poll_call_spec c w th (hub : ResponseHub W) :
  call_ok hub c →
  let '(r, c', th', hub') := poll_call c w th hub in
  touches (ca_token c) hub hub' ∧ ca_cid c' = ca_cid c ∧ ca_token c' = ca_token c ∧ th' = th ∧
  (r = Pending → call_ok hub' c' ∧ ca_registered_waker c' = Some w) ∧
  (∀ t, hub_tokens hub !! ca_token c = Some t → is_cancelled t = true → r = Ready () ∧ hub' = hub).
Proof.
  intros (Hf & t & Ht & Hw). unfold poll_call. rewrite Ht.
  destruct (is_cancelled t) eqn:Hc.
  { split_and!; try done. }
  unfold install_call_cancellation.
  pose proof (task_answers (ca_task c) w (MkThread (t_current th) (Some (ca_token c))) hub) as Ha.
  destruct (task_poll base p (ca_task c) w _ hub) as [[r f'] hub1]. destruct Ha as [Hr Ha].
  apply answers_calls in Ha as [Hf1 Ht1].
  assert (Hth : drop_ambient_cancel (t_cancel th) (MkThread (t_current th) (Some (ca_token c))) = th)
    by (by destruct th).
  destruct r as [|u]; simpl.
  2: { split_and!; try done; [by split_and!; rewrite ?Hf1, ?Ht1|]. intros t' Ht' ?. simplify_eq. congruence. }
  rewrite Ht1, Ht. simpl. pose proof (poll_cached_spec t w (ca_registered_waker c) ltac:(by rewrite Hc)) as Hp.
  destruct (poll_cancelled_cached t w (ca_registered_waker c)) as [[r' t'] cache'].
  destruct Hp as [Hp1 Hp2]. pose proof (lookup_lt_Some _ _ _ Ht).
  split_and!; try done.
  - unfold touches. simpl. split; [done|]. split; [by rewrite length_insert|].
    intros i Hi. by apply list_lookup_insert_ne.
  - intros ->. split; [|by apply Hp1]. split; [by rewrite <- Hf1 in Hf|]. exists t'. simpl. split; [|done].
    by apply list_lookup_insert_eq.
  - intros t0 Ht0 ?. simplify_eq. congruence.
Qed.

Lemma call_ok_touches tok (hub hub' : ResponseHub W) c :
  touches tok hub hub' → ca_token c ≠ tok → call_ok hub c → call_ok hub' c.
Proof.
  intros (Hf & Hl & Ht) Hne (Hc & t & Htok & Hw). split; [by rewrite Hf|]. exists t. by rewrite Ht.
Qed.

(** The call leaves the table with its last poll. *)
Lemma inv_released sv c hub' :
  inv_except sv c → touches (ca_token c) (sv_hub sv) hub' →
  server_inv (set_hub sv (unregister_call (ca_cid c) hub')).
Proof.
  intros (Hc & Hcalls & Htab & Hinj & Hnext) Htou. pose proof Htou as (Hf & Hl & Ht).
  split; [|split; [|by split]]; simpl.
  - intros id d Hd. destruct (Hcalls id d Hd) as (Hok & Hcid & Htk).
    destruct (call_ok_touches _ _ _ _ Htou Htk Hok) as (Hin & Hrest). split; [|done].
    simpl. by rewrite lookup_delete_ne.
  - intros cid tok [Hne Hin]%lookup_delete_Some. rewrite Hf in Hin.
    destruct (Htab cid tok Hin) as (Hlt & [->|Hex]); [done|]. rewrite Hl. done.
Qed.

(** The call is put back, with a task id that is free. *)
Lemma inv_put sv c hub' c' id next' :
  inv_except sv c → touches (ca_token c) (sv_hub sv) hub' → call_ok hub' c' →
  ca_cid c' = ca_cid c → ca_token c' = ca_token c →
  sv_tasks sv !! id = None → (sv_next sv ≤ next')%nat → (id < next')%nat →
  server_inv (MkServer hub' (sv_thread sv) (<[id := inl c']> (sv_tasks sv)) next').
Proof.
  intros (Hc & Hcalls & Htab & Hinj & Hnext) Htou Hok' Hcid Htok Hfree Hn Hid.
  pose proof Htou as (Hf & Hl & Ht). split_and!; simpl.
  - intros j d [[<- [= <-]]|[Hne Hd]]%lookup_insert_Some; [done|].
    destruct (Hcalls j d Hd) as (Hok & _ & Htk). by eapply call_ok_touches.
  - intros cid tok Hin. rewrite Hf in Hin. destruct (Htab cid tok Hin) as (Hlt & Hwho).
    rewrite Hl. split; [done|]. destruct Hwho as [->|(j & d & Hd & <-)].
    + exists id, c'. by rewrite lookup_insert_eq.
    + exists j, d. split; [|done]. rewrite lookup_insert_ne; [done|congruence].
  - intros i j c1 c2 [[<- [= <-]]|[Hni Hi]]%lookup_insert_Some [[<- [= <-]]|[Hnj Hj]]%lookup_insert_Some He.
    + done.
    + destruct (Hcalls j c2 Hj) as (_ & Hx & Hy). rewrite Hcid, Htok in He. destruct He; congruence.
    + destruct (Hcalls i c1 Hi) as (_ & Hx & Hy). rewrite Hcid, Htok in He. destruct He; congruence.
    + by eapply Hinj.
  - intros j [<-|[_ Hj]]%lookup_insert_is_Some; [lia|]. apply Hnext in Hj. lia.
Qed.

(** Taking a call out to poll it. *)
Lemma inv_take sv id c :
  server_inv sv → sv_tasks sv !! id = Some (inl c) →
  inv_except (MkServer (sv_hub sv) (sv_thread sv) (delete id (sv_tasks sv)) (sv_next sv)) c.
Proof.
  intros (Hcalls & Htab & Hinj & Hnext) Hc. split_and!; simpl.
  - by eapply Hcalls.
  - intros j d [Hne Hd]%lookup_delete_Some. split; [by eapply Hcalls|].
    split; intros He; apply Hne; symmetry; eapply (Hinj j id d c); eauto.
  - intros cid tok Hin. destruct (Htab cid tok Hin) as (Hlt & j & d & Hd & <-). split; [done|].
    destruct (decide (j = id)) as [->|Hne]; [left; by simplify_eq|]. right. exists j, d.
    by rewrite lookup_delete_ne.
  - intros i j c1 c2 [_ Hi]%lookup_delete_Some [_ Hj]%lookup_delete_Some. by eapply Hinj.
  - intros j [t [_ Ht]%lookup_delete_Some]. by eapply Hnext.
Qed.

(** Registering a call whose id is not in flight. *)
Lemma inv_register sv cid task :
  server_inv sv → hub_in_flight (sv_hub sv) !! cid = None →
  let (token, hub) := register_call cid (sv_hub sv) in
  inv_except (set_hub sv hub) (cancellable cid token task).
Proof.
  intros (Hcalls & Htab & Hinj & Hnext) Hfree. unfold register_call. split_and!; simpl; try done.
  - split; simpl; [by rewrite lookup_insert_eq|]. exists token_new.
    split; [by rewrite list_lookup_middle|done].
  - intros id d Hd. destruct (Hcalls id d Hd) as (Hin & t & Ht & Hw).
    assert (ca_cid d ≠ cid) by congruence. pose proof (lookup_lt_Some _ _ _ Ht).
    split; [split; simpl|split; [done|lia]].
    + by rewrite lookup_insert_ne.
    + exists t. split; [by apply lookup_app_l_Some|done].
  - intros c tok. rewrite length_app. simpl. intros [[<- <-]|[Hne Hin]]%lookup_insert_Some.
    + split; [lia|by left].
    + destruct (Htab c tok Hin) as (Hlt & Hex). split; [lia|by right].
Qed.

(** A step that changes neither the table nor the registered tasks. *)
Lemma inv_same sv hub' th' tasks' next' :
  server_inv sv → hub_in_flight hub' = hub_in_flight (sv_hub sv) →
  hub_tokens hub' = hub_tokens (sv_hub sv) →
  (∀ id c, tasks' !! id = Some (inl c) ↔ sv_tasks sv !! id = Some (inl c)) →
  (∀ id, is_Some (tasks' !! id) → (id < next')%nat) →
  server_inv (MkServer hub' th' tasks' next').
Proof.
  intros (Hcalls & Htab & Hinj & Hnext) Hf Ht Htasks Hn. split_and!; simpl; [..|done].
  - intros id c Hc%Htasks. destruct (Hcalls id c Hc) as (Hin & Hrest). unfold call_ok. by rewrite Hf, Ht.
  - intros cid tok. rewrite Hf, Ht. intros Hin. destruct (Htab cid tok Hin) as (Hlt & id & c & Hc & Hcid).
    split; [done|]. exists id, c. by rewrite Htasks.
  - intros i j c1 c2 Hi%Htasks Hj%Htasks. by eapply Hinj.
Qed.

(** The end of one poll of a call that was taken out or just registered. *)
Lemma inv_polled sv c w th id next' :
  inv_except sv c → sv_tasks sv !! id = None → (sv_next sv ≤ next')%nat → (id < next')%nat →
  match poll_task (inl c) w th (sv_hub sv) with
  | (None, _, hub) => server_inv (set_hub sv hub)
  | (Some t, _, hub) => server_inv (MkServer hub (sv_thread sv) (<[id := t]> (sv_tasks sv)) next')
  end.
Proof.
  intros Hinv Hfree Hn Hid. pose proof (poll_call_spec c w th (sv_hub sv) (proj1 Hinv)) as Hp.
  unfold poll_task. destruct (poll_call c w th (sv_hub sv)) as [[[[|u] c'] th'] hub'].
  - destruct Hp as (Htou & Hcid & Htok & _ & Hok & _). destruct (Hok eq_refl) as [Hok' _].
    by eapply inv_put.
  - destruct Hp as (Htou & Hcid & Htok & _). unfold drop_call. rewrite Hcid. by apply inv_released.
Qed.

Lemma inv_set_thread sv th : server_inv sv →
  server_inv (MkServer (sv_hub sv) th (sv_tasks sv) (sv_next sv)).
Proof. done. Qed.

(** One-way tasks keep out of the table. *)
Lemma inv_plain_polled sv task w th id next' :
  server_inv sv → (∀ c, sv_tasks sv !! id ≠ Some (inl c)) →
  (sv_next sv ≤ next')%nat → (id < next')%nat →
  match poll_task (inr task) w th (sv_hub sv) with
  | (None, _, hub) => server_inv (MkServer hub (sv_thread sv) (delete id (sv_tasks sv)) next')
  | (Some t, _, hub) => server_inv (MkServer hub (sv_thread sv) (<[id := t]> (sv_tasks sv)) next')
  end.
Proof.
  intros Hinv Hid Hn Hlt. unfold poll_task. pose proof (task_answers task w th (sv_hub sv)) as Ha.
  destruct (task_poll base p task w th (sv_hub sv)) as [[[|u] f'] hub'];
    destruct Ha as [_ [Hf Ht]%answers_calls]; pose proof Hinv as (_ & _ & _ & Hnext);
    apply (inv_same sv); try done.
  - intros j c. split; [intros [[_ ?]|[_ ?]]%lookup_insert_Some; done|].
    intros Hj. rewrite lookup_insert_ne; [done|]. intros ->. by apply Hid in Hj.
  - intros j [<-|[_ Hj]]%lookup_insert_is_Some; [lia|]. apply Hnext in Hj. lia.
  - intros j c. split; [by intros [_ ?]%lookup_delete_Some|].
    intros Hj. rewrite lookup_delete_ne; [done|]. intros ->. by apply Hid in Hj.
  - intros j [t [_ Hj]%lookup_delete_Some]. specialize (Hnext j ltac:(by eexists)). lia.
Qed.

Lemma inv_fresh sv : server_inv sv → sv_tasks sv !! sv_next sv = None.
Proof.
  intros (_ & _ & _ & Hnext). destruct (sv_tasks sv !! sv_next sv) eqn:Ht; [|done].
  specialize (Hnext (sv_next sv) ltac:(by eexists)). lia.
Qed.

Lemma inv_run_task id worker sv : server_inv sv → server_inv (run_task id worker sv).
Proof.
  intros Hinv. unfold run_task. destruct (sv_tasks sv !! id) as [t|] eqn:Ht; [|done].
  pose proof Hinv as (_ & _ & _ & Hnext). specialize (Hnext id ltac:(by eexists)).
  destruct t as [c|f].
  - pose proof (inv_polled _ c id worker id (sv_next sv) (inv_take sv id c Hinv Ht)
      (lookup_delete_eq _ _) (le_n _) Hnext) as Hp. simpl sv_hub in Hp.
    destruct (poll_task (inl c) id worker (sv_hub sv)) as [[[t|] th] hub]; [|exact Hp].
    simpl in Hp. by rewrite insert_delete_eq in Hp.
  - apply (inv_plain_polled sv f id worker id (sv_next sv)) in Hinv; [|by rewrite Ht|lia|done].
    by destruct (poll_task (inr f) id worker (sv_hub sv)) as [[[t|] th] hub].
Qed.

Lemma inv_run_call entered sv c : inv_except sv c → sv_tasks sv !! sv_next sv = None →
  server_inv (run_or_spawn entered (inl c) sv).
Proof.
  intros Hinv Hfree. unfold run_or_spawn, spawn. destruct entered.
  - pose proof (inv_polled sv c NOOP (sv_thread sv) (sv_next sv) (S (sv_next sv)) Hinv Hfree
      ltac:(lia) ltac:(lia)) as Hp.
    destruct (poll_task (inl c) NOOP (sv_thread sv) (sv_hub sv)) as [[[t|] th] hub];
      by apply (inv_set_thread _ th) in Hp.
  - apply (inv_put sv c (sv_hub sv) c); [done|by split_and!|apply Hinv|done|done|done|lia|lia].
Qed.

Lemma inv_run_plain entered sv f : server_inv sv → server_inv (run_or_spawn entered (inr f) sv).
Proof.
  intros Hinv. pose proof (inv_fresh sv Hinv) as Hfree. pose proof Hinv as (_ & _ & _ & Hnext).
  unfold run_or_spawn, spawn. destruct entered.
  - pose proof (inv_plain_polled sv f NOOP (sv_thread sv) (sv_next sv) (S (sv_next sv)) Hinv
      ltac:(by rewrite Hfree) ltac:(lia) ltac:(lia)) as Hp.
    destruct (poll_task (inr f) NOOP (sv_thread sv) (sv_hub sv)) as [[[t|] th] hub];
      [by apply (inv_set_thread _ th) in Hp|].
    rewrite delete_id in Hp by done. apply (inv_same _ hub th (sv_tasks sv) (sv_next sv)) in Hp; done.
  - apply (inv_same sv); try done; simpl.
    + intros j c. split; [intros [[_ ?]|[_ ?]]%lookup_insert_Some; done|].
      intros Hj. rewrite lookup_insert_ne; [done|congruence].
    + intros j [<-|[_ Hj]]%lookup_insert_is_Some; [lia|]. apply Hnext in Hj. lia.
Qed.

Lemma inv_answers sv request hub' :
  server_inv sv → answers base p request (sv_hub sv) hub' → server_inv (set_hub sv hub').
Proof.
  intros Hinv [Hf Ht]%answers_calls. apply (inv_same sv); try done. apply Hinv.
Qed.

Lemma inv_cancel sv cid : server_inv sv → server_inv (set_hub sv (cancel_call cid (sv_hub sv)).2).
Proof.
  intros Hinv. unfold cancel_call. destruct (hub_in_flight (sv_hub sv) !! cid) as [tok|] eqn:Hcid; [|done].
  destruct (hub_tokens (sv_hub sv) !! tok) as [t|] eqn:Ht; [|done].
  pose proof (lookup_lt_Some _ _ _ Ht). destruct Hinv as (Hcalls & Htab & Hinj & Hnext).
  destruct (cancel t) as [woken t'] eqn:Hcan. split_and!; simpl; try done.
  - intros id c Hc. destruct (Hcalls id c Hc) as (Hin & u & Hu & Hw). split; [done|]. simpl.
    destruct (decide (tok = ca_token c)) as [->|Hne].
    + exists t'. split; [by apply list_lookup_insert_eq|]. intros w _. left.
      unfold cancel in Hcan. unfold is_cancelled. by destruct (tok_cancelled t) eqn:?; simplify_eq.
    + exists u. by rewrite list_lookup_insert_ne.
  - intros c k Hin. rewrite length_insert. by apply Htab.
Qed.

(** ** The life of a channel *)

Context (entered : bool) (table : gmap Z dispatcher).

(** A request, whose id is not that of a call in flight; any other sample; a
    poll of a task by the executor. *)
Inductive server_step : Server → Server → Prop :=
| srv_request sv header payload :
    event_kind header = KRequest → hub_in_flight (sv_hub sv) !! h_correlation_id header = None →
    server_step sv (handle_request entered table header payload sv).2
| srv_other sv header payload :
    event_kind header ≠ KRequest → server_step sv (handle_request entered table header payload sv).2
| srv_run sv id worker : server_step sv (run_task id worker sv).

Inductive server_reachable (w : W) : Server → Prop :=
| server_start : server_reachable w (server_new w)
| server_more sv sv' : server_reachable w sv → server_step sv sv' → server_reachable w sv'.

Hypothesis table_answers : handlers_answer table.

Lemma inv_request header payload sv :
  server_inv sv → event_kind header = KRequest →
  hub_in_flight (sv_hub sv) !! h_correlation_id header = None →
  server_inv (handle_request entered table header payload sv).2.
Proof.
  intros Hinv Hk Hfree. unfold handle_request. rewrite Hk.
  destruct (table !! h_service_id header) as [d|] eqn:Hd; [|eapply inv_answers, reject_answers; done].
  destruct (classify d header); [eapply inv_answers, reject_answers; done|].
  destruct (dispatch d (h_method_id header) header payload (MkEmitter (sv_hub sv) header))
    as [dispatched emitter] eqn:Hdis.
  destruct (handler_calls _ _ _ _ _ _ _ _ _ table_answers Hd Hdis) as [Ha _].
  pose proof (inv_answers sv header _ Hinv Ha) as Hinv'.
  destruct dispatched as [[task []]|].
  - pose proof (inv_register (set_hub sv (em_hub emitter)) (h_correlation_id header) task Hinv') as Hr.
    simpl in Hr. apply answers_calls in Ha as [Hf _]. rewrite Hf in Hr at 1.
    apply (inv_run_call entered); [by apply Hr|]. by apply inv_fresh in Hinv'.
  - by apply inv_run_plain.
  - apply (inv_answers (set_hub sv (em_hub emitter)) header); [done|]. apply reject_answers.
Qed.

Lemma inv_step sv sv' : server_inv sv → server_step sv sv' → server_inv sv'.
Proof.
  intros Hinv Hstep. revert Hinv.
  destruct Hstep as [sv header payload Hk Hfree|sv header payload Hk|sv id worker]; intros Hinv.
  - by apply inv_request.
  - unfold handle_request. destruct (event_kind header); try done.
    pose proof (inv_cancel sv (h_correlation_id header) Hinv) as Hc.
    by destruct (cancel_call _ _) as [[b woken] hub].
  - by apply inv_run_task.
Qed.

Lemma inv_reachable w sv : server_reachable w sv → server_inv sv.
Proof.
  induction 1 as [|sv sv' _ IH Hs]; [|by eapply inv_step].
  split_and!; simpl; [done|done|done|]. intros id. rewrite lookup_empty. by intros [].
Qed.

(** ** What the provider promises *)

(** C3. The table of the calls in flight is exact: whatever the order of the
    requests, the Cancels and the polls, a correlation id is in it exactly while
    a task that answers it is running, with that task's token; a finished or
    cancelled call leaves nothing behind, and no two tasks share an entry or a
    token. *)
Theorem in_flight_exact w sv :
  server_reachable w sv →
  (∀ cid tok, hub_in_flight (sv_hub sv) !! cid = Some tok ↔
     ∃ id c, sv_tasks sv !! id = Some (inl c) ∧ ca_cid c = cid ∧ ca_token c = tok) ∧
  (∀ id1 id2 c1 c2, sv_tasks sv !! id1 = Some (inl c1) → sv_tasks sv !! id2 = Some (inl c2) →
     ca_cid c1 = ca_cid c2 ∨ ca_token c1 = ca_token c2 → id1 = id2) ∧
  ((∀ id c, sv_tasks sv !! id ≠ Some (inl c)) → hub_in_flight (sv_hub sv) = ∅).
Proof.
  intros Hr. pose proof (inv_reachable w sv Hr) as (Hcalls & Htab & Hinj & _). split_and!; [|done|].
  - intros cid tok. split.
    + intros Hin. destruct (Htab cid tok Hin) as (_ & id & c & Hc & Hcid). exists id, c.
      destruct (Hcalls id c Hc) as (Hin' & _). rewrite Hcid, Hin in Hin'. by simplify_eq.
    + intros (id & c & Hc & <- & <-). by destruct (Hcalls id c Hc) as (? & _).
  - intros Hno. apply map_eq. intros cid. rewrite lookup_empty.
    destruct (hub_in_flight (sv_hub sv) !! cid) as [tok|] eqn:Hin; [|done].
    destruct (Htab cid tok Hin) as (_ & id & c & Hc & _). by apply Hno in Hc.
Qed.

(** C6. A Cancel stops the call it names, and silently: it publishes nothing and
    leaves every other call alone, it wakes the task at the waker it waits
    with, and the next poll drops the task without running it and releases the
    entry.  Naming a call that is not in flight is harmless. *)
Theorem remote_cancel_stops w sv header payload :
  server_reachable w sv → event_kind header = KCancel →
  let cid := h_correlation_id header in
  let sv1 := (handle_request entered table header payload sv).2 in
  let woken := (handle_request entered table header payload sv).1 in
  hub_bus (sv_hub sv1) = hub_bus (sv_hub sv) ∧ hub_seq (sv_hub sv1) = hub_seq (sv_hub sv) ∧
  sv_tasks sv1 = sv_tasks sv ∧ hub_in_flight (sv_hub sv1) = hub_in_flight (sv_hub sv) ∧
  (hub_in_flight (sv_hub sv) !! cid = None → sv1 = sv ∧ woken = []) ∧
  (∀ id c, sv_tasks sv !! id = Some (inl c) → ca_cid c = cid →
     (∀ t v, hub_tokens (sv_hub sv) !! ca_token c = Some t → is_cancelled t = false →
        ca_registered_waker c = Some v → v ∈ woken) ∧
     ∀ worker, run_task id worker sv1 =
       MkServer (unregister_call cid (sv_hub sv1)) (sv_thread sv) (delete id (sv_tasks sv)) (sv_next sv)) ∧
  (∀ id c, sv_tasks sv !! id = Some (inl c) → ca_cid c ≠ cid →
     hub_tokens (sv_hub sv1) !! ca_token c = hub_tokens (sv_hub sv) !! ca_token c).
Proof.
  intros Hr Hk cid. pose proof (inv_reachable w sv Hr) as (Hcalls & Htab & Hinj & _).
  unfold handle_request. rewrite Hk. fold cid. unfold cancel_call.
  destruct (hub_in_flight (sv_hub sv) !! cid) as [tok|] eqn:Hcid; simpl.
  2: { destruct sv; simpl in *. split_and!; try done. intros id c Hc <-.
       destruct (Hcalls id c Hc) as (Hin & _). congruence. }
  destruct (Htab cid tok Hcid) as (_ & id0 & c0 & Hc0 & Hcc0).
  destruct (Hcalls id0 c0 Hc0) as (Hin0 & t & Ht & Hw). rewrite Hcc0, Hcid in Hin0.
  injection Hin0 as ->. rewrite Ht. destruct (cancel t) as [woken t'] eqn:Hcan. simpl.
  assert (Ht' : is_cancelled t' = true).
  { unfold cancel in Hcan. unfold is_cancelled. by destruct (tok_cancelled t) eqn:?; simplify_eq. }
  pose proof (lookup_lt_Some _ _ _ Ht). split_and!; try done.
  - intros id c Hc Hcc. assert (id = id0) as -> by (eapply Hinj; eauto; left; congruence). simplify_eq.
    split.
    + intros t0 v Ht0 Hlive Hv. simplify_eq. unfold cancel in Hcan. unfold is_cancelled in Hlive.
      rewrite Hlive in Hcan. simplify_eq. destruct (Hw v Hv) as [?|?]; [|done].
      unfold is_cancelled in *. congruence.
    + intros worker. unfold run_task. simpl. rewrite Hc0. unfold poll_task, poll_call. simpl.
      rewrite list_lookup_insert_eq by done. rewrite Ht'. unfold drop_call. by rewrite Hcc0.
  - intros id c Hc Hne. rewrite list_lookup_insert_ne; [done|]. intros Heq. apply Hne.
    assert (id = id0) as -> by (eapply Hinj; eauto). by simplify_eq.
Qed.
End server.

(** ** The task of a streaming method

    The future a generated handler returns: it relays the observable of the
    implementation to the emitter of the call. *)

Section stream_task.
Context {Src W T E : Type} `{Sized Src (Event T E)} `{Codec T E} `{Bus W}.

Record StreamTask : Type := MkStreamTask {
  stk_stream : WireFolding (S:=Src) (T:=T) (E:=E);
  stk_request : RpcHeader
}.

#[export] Instance StreamTask_poll : CallTask StreamTask W := λ base p f w th hub,
  let '(r, (o, emitter)) :=
    @observable_to_responses Src T E (CallEmitter W) _ _ _ (CallEmitter_emit base p)
      (stk_stream f, MkEmitter hub (stk_request f)) in
  (r, MkStreamTask o (stk_request f), em_hub emitter).

Lemma stream_task_answers base p f w th (hub : ResponseHub W) :
  let '(_, f', hub') := task_poll base p f w th hub in
  stk_request f' = stk_request f ∧ answers base p (stk_request f) hub hub'.
Proof.
  unfold task_poll, StreamTask_poll.
  pose proof (rust_loop_ind _ (λ st : WireFolding (S:=Src) (T:=T) (E:=E) * CallEmitter W, stream_size st.1)
    (λ st, (Pending, st)) (@responses_decreases Src T E (CallEmitter W) _ _ _ (CallEmitter_emit base p))
    (λ st r, em_request r.2.2 = em_request st.2 ∧
       answers base p (em_request st.2) (em_hub st.2) (em_hub r.2.2))) as Hind.
  specialize (Hind) with (s := (stk_stream f, MkEmitter hub (stk_request f))).
  unfold observable_to_responses.
  destruct (rust_loop _ _ _ _) as [r [o em]]. simpl in Hind. split; [done|]. apply Hind; clear.
  - intros [o em] [r [o' em']] Hb. unfold responses_body in Hb. simpl in *.
    destruct (poll_next o) as [[|[wire|]] o1]; simplify_eq; try (split; [done|apply answers_none]).
    destruct (frame wire) as [kind [bs|]]; simplify_eq; [|split; [done|apply answers_none]].
    unfold emit, CallEmitter_emit in Hb.
    destruct (hub_publish base p kind (em_request em) bs (em_hub em)) as [[] hub1] eqn:Hp; simplify_eq/=.
    split; [done|]. apply (answers_more _ _ _ _ _ kind bs). rewrite Hp. apply answers_none.
  - intros [o em] [o' em'] r Hb [IH1 IH2]. unfold responses_body in Hb. simpl in *.
    destruct (poll_next o) as [[|[wire|]] o1]; simplify_eq.
    destruct (frame wire) as [kind [bs|]]; simplify_eq.
    unfold emit, CallEmitter_emit in Hb.
    destruct (hub_publish base p kind (em_request em) bs (em_hub em)) as [[] hub1] eqn:Hp; simplify_eq/=.
    split; [done|]. apply (answers_more _ _ _ _ _ kind bs). by rewrite Hp.
Qed.
End stream_task.

(** ** The response channel *)

Section sequence.
Context {W : Type} `{BusLaws W}.

(** The hub publishing a series of responses. *)
Definition publish_all (base : Z) (p : Proc) (l : list (EventKind * RpcHeader * bytes))
    (hub : ResponseHub W) : ResponseHub W :=
  fold_left (λ hub '(kind, request, payload), (hub_publish base p kind request payload hub).2) l hub.

Lemma hub_publish_delivers base p kind request payload (hub : ResponseHub W) :
  let '(ok, hub') := hub_publish base p kind request payload hub in
  hub_seq hub' = wrap 64 (hub_seq hub + 1) ∧
  bus_delivered (hub_bus hub') = bus_delivered (hub_bus hub) ++
    (if ok : bool then
       [(with_seq (response_from request kind (h_service_version request) p) (hub_seq hub),
         sample_payload payload)]
     else []).
Proof.
  unfold hub_publish. set (h := with_seq _ _).
  pose proof (publish_until_delivered_spec h payload CONSUMER_WAIT_TIMEOUT (hub_bus hub)) as Hs.
  destruct (publish_until_delivered h payload CONSUMER_WAIT_TIMEOUT (hub_bus hub)) as [[u|e] w].
  - destruct Hs as [Hd _]. pose proof (now_law w) as [_ [[_ Hn] _]].
    destruct (instant_now w) as [now w']. simpl in Hn. destruct (should_notify _ _) as [must cell].
    simpl. split; [done|]. by rewrite Hn, Hd.
  - destruct Hs as [Hd _]. by split.
Qed.

(** The responses of a channel carry increasing sequence numbers, one for
    each attempt: what was delivered is a subsequence of what was published,
    in order, each sample with the id of the request it answers and the number
    of its attempt, so a gap is a sample that was lost and nothing else. *)
Theorem responses_numbered base p l (hub : ResponseHub W) :
  fits 64 (hub_seq hub + Z.of_nat (length l)) → 0 ≤ hub_seq hub →
  let hub' := publish_all base p l hub in
  hub_seq hub' = hub_seq hub + Z.of_nat (length l) ∧
  ∃ delivered, bus_delivered (hub_bus hub') = bus_delivered (hub_bus hub) ++ delivered ∧
    sublist delivered
      (imap (λ i '(kind, request, payload),
         (with_seq (response_from request kind (h_service_version request) p)
            (hub_seq hub + Z.of_nat i), sample_payload payload)) l).
Proof.
  revert hub. induction l as [|[[kind request] payload] l IH]; intros hub Hfit Hpos.
  - simpl. split; [lia|]. exists []. by rewrite app_nil_r.
  - simpl length in *. pose proof (hub_publish_delivers base p kind request payload hub) as Hp.
    cbv zeta. change (publish_all base p ((kind, request, payload) :: l) hub)
      with (publish_all base p l (hub_publish base p kind request payload hub).2).
    destruct (hub_publish base p kind request payload hub) as [ok hub1]. destruct Hp as [Hseq Hd].
    cbn [snd]. destruct Hfit as [Hlo Hhi].
    rewrite wrap_small in Hseq by (split; lia).
    destruct (IH hub1) as (Hs & delivered & Hd' & Hsub); [rewrite Hseq; split; lia|lia|].
    split; [rewrite Hs, Hseq; lia|]. rewrite Hd', Hd, <- app_assoc. eexists. split; [done|].
    rewrite Hseq in Hsub. erewrite imap_ext in Hsub.
    + destruct ok; simpl; rewrite Z.add_0_r; [by apply sublist_skip|by apply sublist_cons].
    + intros i [[k r] pl] _. simpl. by replace (hub_seq hub + 1 + Z.of_nat i) with (hub_seq hub + Z.of_nat (S i)) by lia.
Qed.
End sequence.

(** ** A provider

    One service with one method, whose stream answers 5, pauses twice and ends. *)

Module Provider.

Abbreviation task := (StreamTask (Src:=Script (Event Z Z)) (T:=Z) (E:=Z)).

Definition proc0 : Proc := proc_start 8 None.
Definition bus0 : SimBus := MkSim 0 0 [] [(1%nat, false)].

Definition handler : MethodHandler task (CallEmitter SimBus) := λ header payload emitter,
  (MkStreamTask
     (wire_folding_new (MkScript [Ready (Next 5); Pending; Pending; Ready Complete])) header, emitter).

Definition table : gmap Z (ServiceDispatcher task (CallEmitter SimBus)) :=
  {[ 3 := method (dispatcher_new (MkServiceRef 3 1)) (9 : Z) handler ]}.

Definition request : RpcHeader := (header_request (9 : Z) 3 1 (proc_start 7 None)).1.

Definition served : Server := (handle_request (T:=Z) (E:=Z) 0 proc0 true table request [] (server_new bus0)).2.

Lemma table_answers : handlers_answer 0 proc0 stk_request table.
Proof.
  intros sid d mid entry header payload hub Hd He.
  unfold table in Hd. apply lookup_singleton_Some in Hd as [<- <-].
  simpl in He. apply lookup_insert_Some in He as [[<- <-]|[_ He]]; [|by apply lookup_empty_Some in He].
  split; [done|]. apply answers_none.
Qed.

Lemma served_reachable : server_reachable (T:=Z) (E:=Z) 0 proc0 true table bus0 served.
Proof. eapply server_more; [apply server_start|]. by apply srv_request. Qed.
End Provider.

Import Provider.

(** The call that waits is in the table, with its task. *)
Lemma in_flight_exact_witness :
  ∃ id c, sv_tasks served !! id = Some (inl c) ∧ ca_cid c = h_correlation_id request ∧ ca_token c = 0%nat.
Proof.
  apply (in_flight_exact (T:=Z) (E:=Z) 0 proc0 stk_request
    (stream_task_answers 0 proc0) true table table_answers bus0 served served_reachable).
  vm_compute. reflexivity.
Defined.

(** Cancelled, it is dropped by its next poll. *)
Lemma remote_cancel_stops_witness :
  let sv1 := (handle_request (T:=Z) (E:=Z) 0 proc0 true table (cancel_from request proc0) [] served).2 in
  sv_tasks (run_task 0 proc0 1 empty_thread sv1) = ∅ ∧
  hub_in_flight (sv_hub (run_task 0 proc0 1 empty_thread sv1)) = ∅.
Proof.
  intros sv1.
  destruct (remote_cancel_stops (T:=Z) (E:=Z) 0 proc0 stk_request (stream_task_answers 0 proc0)
    true table table_answers bus0 served (cancel_from request proc0) [] served_reachable)
    as (_ & _ & Hts & Hin & _ & Hrun & _); [reflexivity|].
  destruct (sv_tasks served !! 1%nat) as [[c|f]|] eqn:Hc; [|vm_compute in Hc; discriminate..].
  destruct (Hrun 1%nat c Hc) as [_ Hr]; [vm_compute in Hc; injection Hc as <-; reflexivity|].
  fold sv1 in Hr, Hin. rewrite Hr. simpl. split; [vm_compute; reflexivity|].
  rewrite Hin. vm_compute. reflexivity.
Defined.

Lemma responses_numbered_witness :
  let hub' := publish_all 0 proc0 [(KNext, request, [10; 5]); (KComplete, request, [11])] (hub_new bus0) in
  hub_seq hub' = 2.
Proof.
  apply (responses_numbered 0 proc0 [(KNext, request, [10; 5]); (KComplete, request, [11])] (hub_new bus0));
    [split; reflexivity || (simpl; lia)|reflexivity || (simpl; lia)].
Defined.
