(* ===== verification/Registry.v ===== *)
(** * The channels a process provides ([ice-rpc/src/transport/server.rs])

    Services register on a channel while they initialize; the channels are
    started once, each with the table of its dispatchers. *)

From S2P Require Import Prelude MachineInt Text Event Header Context Wire Cancel Stream Bridge Publish Notify Server.

Local Open Scope Z_scope.

Section registry.
Context {F M : Type}.
Abbreviation dispatcher := (ServiceDispatcher F M).

Record RegisteredChannelService : Type := MkRegistered {
  rs_name : string;
  rs_dispatcher : dispatcher
}.

Definition service_id (s : RegisteredChannelService) : Z := sr_id (sd_service (rs_dispatcher s)).

(** The registry, the seal, and the channel threads started so far with the
    dispatchers each was given. *)
Record Registry : Type := MkRegistry {
  rg_channels : gmap string (list RegisteredChannelService);
  rg_sealed : bool;
  rg_threads : list (string * list dispatcher)
}.

Definition registry_new : Registry := MkRegistry ∅ false [].

Fixpoint conflicting_name (entries : list RegisteredChannelService) (id : Z) : option string :=
  match entries with
  | [] => None
  | svc :: rest => if service_id svc =? id then Some (rs_name svc) else conflicting_name rest id
  end.

(** The table a channel thread routes with: collected from the dispatchers in
    order, a later one replacing an earlier one of the same id. *)
Definition service_table (services : list dispatcher) : gmap Z dispatcher :=
  fold_left (λ table d, <[sr_id (sd_service d) := d]> table) services ∅.

Definition collision (channel name previous : string) (id : Z) : RpcError :=
  TransportError ("service_id collision on channel '" +:+ channel +:+ "': '" +:+ name +:+ "' and '"
    +:+ previous +:+ "' both map to " +:+ hex_u32_prefixed id).

Definition register_native_service (channel name : string) (d : dispatcher) (rg : Registry)
    : result () RpcError * Registry :=
  let id := sr_id (sd_service d) in
  if rg_sealed rg then
    (Ok (), MkRegistry (rg_channels rg) true (rg_threads rg ++ [(channel, [d])]))
  else
    let services := default [] (rg_channels rg !! channel) in
    match conflicting_name services id with
    | Some previous =>
        (Err (collision channel name previous id),
         MkRegistry (<[channel := services]> (rg_channels rg)) false (rg_threads rg))
    | None =>
        (Ok (),
         MkRegistry (<[channel := services ++ [MkRegistered name d]]> (rg_channels rg)) false
           (rg_threads rg))
    end.

(** The drained channels come in an order of the map's own. *)
Definition start_registered_channels (rg : Registry) : Registry :=
  if rg_sealed rg then rg
  else
    MkRegistry ∅ true
      (rg_threads rg ++
       map (λ '(channel, services), (channel, map rs_dispatcher services))
         (map_to_list (rg_channels rg))).

(** ** Properties *)

(** The registrations of an initialization, in order. *)
Definition register_all (l : list (string * string * dispatcher)) (rg : Registry) : Registry :=
  fold_left (λ rg '(channel, name, d), (register_native_service channel name d rg).2) l rg.

(** Ids are not repeated on a channel. *)
Definition distinct_ids (services : list RegisteredChannelService) : Prop :=
  NoDup (map service_id services).

Lemma conflicting_name_None services id :
  conflicting_name services id = None ↔ id ∉ map service_id services.
Proof.
  induction services as [|s rest IH]; simpl; [split; [intros _; apply not_elem_of_nil|done]|].
  rewrite not_elem_of_cons. destruct (Z.eqb_spec (service_id s) id) as [->|Hne]; [naive_solver|].
  rewrite IH. naive_solver.
Qed.

Abbreviation collect := (fold_left (λ table d, <[sr_id (sd_service d) := d]> table)).

Lemma collect_other services (m : gmap Z dispatcher) id :
  id ∉ map (λ d, sr_id (sd_service d)) services → collect services m !! id = m !! id.
Proof.
  revert m. induction services as [|x rest IH]; intros m Hid; [done|]. simpl in *.
  apply not_elem_of_cons in Hid as [Hx Hid]. rewrite IH by done. by rewrite lookup_insert_ne.
Qed.

Lemma collect_in services (m : gmap Z dispatcher) d :
  NoDup (map (λ d, sr_id (sd_service d)) services) → d ∈ services →
  collect services m !! sr_id (sd_service d) = Some d.
Proof.
  revert m. induction services as [|x rest IH]; intros m Hnd Hd; [by apply elem_of_nil in Hd|].
  simpl in *. apply NoDup_cons in Hnd as [Hx Hnd]. apply elem_of_cons in Hd as [->|Hd]; [|by apply IH].
  rewrite collect_other by done. by rewrite lookup_insert_eq.
Qed.

(** The services of a channel. *)
Definition services_of (rg : Registry) (channel : string) : list RegisteredChannelService :=
  default [] (rg_channels rg !! channel).

(** What the registrations [l] leave. *)
Definition registry_inv (l : list (string * string * dispatcher)) (rg : Registry) : Prop :=
  rg_sealed rg = false ∧ rg_threads rg = [] ∧
  ∀ channel, distinct_ids (services_of rg channel) ∧
    ∀ id, id ∈ map service_id (services_of rg channel) ↔
      ∃ name d, (channel, name, d) ∈ l ∧ sr_id (sd_service d) = id.

Lemma services_of_insert rg channel l channel' sealed threads :
  services_of (MkRegistry (<[channel := l]> (rg_channels rg)) sealed threads) channel' =
  if decide (channel = channel') then l else services_of rg channel'.
Proof.
  unfold services_of; simpl. case_decide as Heq; [subst; by rewrite lookup_insert_eq|].
  by rewrite lookup_insert_ne.
Qed.

(** One registration before the seal: refused exactly when the id is taken. *)
Lemma register_one l rg channel name d :
  registry_inv l rg →
  let '(r, rg') := register_native_service channel name d rg in
  registry_inv (l ++ [(channel, name, d)]) rg' ∧
  (is_err r = true ↔ ∃ name' d', (channel, name', d') ∈ l ∧ sr_id (sd_service d') = sr_id (sd_service d)) ∧
  (∀ channel', ∃ more, services_of rg' channel' = services_of rg channel' ++ more) ∧
  (r = Ok () → MkRegistered name d ∈ services_of rg' channel).
Proof.
  intros (Hseal & Hth & Hinv). unfold register_native_service. rewrite Hseal.
  fold (services_of rg channel). set (id := sr_id (sd_service d)).
  destruct (Hinv channel) as [Hnd Hids].
  destruct (conflicting_name (services_of rg channel) id) as [previous|] eqn:Hc.
  - assert (Htaken : id ∈ map service_id (services_of rg channel)).
    { destruct (decide (id ∈ map service_id (services_of rg channel))) as [|Hn]; [done|].
      apply conflicting_name_None in Hn. congruence. }
    split_and!; try done.
    + split; [done|]. split; [done|].
      intros channel'. rewrite services_of_insert. case_decide as Heq; [subst channel'|].
      * split; [done|]. intros i. rewrite Hids. set_unfold. split; [naive_solver|].
        intros (n & e & [He|[He|[]]] & <-); [by eauto|]. injection He as -> ->.
        exact (proj1 (Hids id) Htaken).
      * destruct (Hinv channel') as [Hnd' Hids']. split; [done|]. intros i. rewrite Hids'. set_unfold.
        naive_solver.
    + split; [intros _; exact (proj1 (Hids id) Htaken)|done].
    + intros channel'. rewrite services_of_insert. exists []. rewrite app_nil_r. by case_decide; subst.
  - apply conflicting_name_None in Hc. split_and!; try done.
    + split; [done|]. split; [done|].
      intros channel'. rewrite services_of_insert. case_decide as Heq; [subst channel'|].
      * unfold distinct_ids. rewrite map_app. simpl. split.
        { apply NoDup_app. split_and!; [done| |apply NoDup_singleton].
          intros i Hi ->%list_elem_of_singleton. done. }
        intros i. rewrite elem_of_app, Hids, list_elem_of_singleton. set_unfold. naive_solver.
      * destruct (Hinv channel') as [Hnd' Hids']. split; [done|]. intros i. rewrite Hids'. set_unfold.
        naive_solver.
    + split; [done|]. intros (n & e & He & Hid). destruct Hc. apply Hids. by exists n, e.
    + intros channel'. rewrite services_of_insert. case_decide; subst; [by eexists|].
      exists []. by rewrite app_nil_r.
    + intros _. rewrite services_of_insert, decide_True by done. set_solver.
Qed.

Lemma registry_inv_new : registry_inv [] registry_new.
Proof.
  split; [done|]. split; [done|]. intros channel. unfold services_of. simpl. rewrite lookup_empty. simpl.
  split; [constructor|]. intros id. split; [by intros ?%elem_of_nil|].
  by intros (n & d & ?%elem_of_nil & _).
Qed.

Lemma register_all_snoc l channel name d rg :
  register_all (l ++ [(channel, name, d)]) rg =
  (register_native_service channel name d (register_all l rg)).2.
Proof. unfold register_all. by rewrite fold_left_app. Qed.

Lemma register_all_inv l : registry_inv l (register_all l registry_new).
Proof.
  induction l as [|[[channel name] d] l IH] using rev_ind; [apply registry_inv_new|].
  rewrite register_all_snoc. pose proof (register_one l _ channel name d IH) as H.
  destruct (register_native_service _ _ _ _) as [r rg']. apply H.
Qed.

Lemma register_all_grows l l' channel :
  ∃ more, services_of (register_all (l ++ l') registry_new) channel =
    services_of (register_all l registry_new) channel ++ more.
Proof.
  induction l' as [|[[ch name] d] l' IH] using rev_ind; [exists []; by rewrite !app_nil_r|].
  rewrite app_assoc, register_all_snoc.
  pose proof (register_one (l ++ l') _ ch name d (register_all_inv (l ++ l'))) as H.
  destruct (register_native_service _ _ _ _) as [r rg']. destruct H as (_ & _ & Hg & _).
  destruct IH as [m1 Hm1], (Hg channel) as [m2 Hm2]. simpl. exists (m1 ++ m2).
  by rewrite Hm2, Hm1, app_assoc.
Qed.

(** C12. Every service that registered is served: a registration is refused
    exactly when an earlier one of the same channel has its id; once the
    channels are started each has one thread, and that thread's table finds
    every accepted service of the channel under its id. *)
Theorem registered_services_served l i channel name d :
  l !! i = Some (channel, name, d) →
  let r := (register_native_service channel name d (register_all (take i l) registry_new)).1 in
  let started := start_registered_channels (register_all l registry_new) in
  (is_err r = true ↔
     ∃ j name' d', (j < i)%nat ∧ l !! j = Some (channel, name', d') ∧
       sr_id (sd_service d') = sr_id (sd_service d)) ∧
  NoDup (map fst (rg_threads started)) ∧
  (r = Ok () → ∃ services, (channel, services) ∈ rg_threads started ∧
     service_table services !! sr_id (sd_service d) = Some d).
Proof.
  intros Hi r started.
  pose proof (register_one (take i l) _ channel name d (register_all_inv (take i l))) as H.
  destruct (register_all_inv l) as (Hseal & Hth & Hall). subst started.
  unfold start_registered_channels. rewrite Hseal, Hth. simpl.
  split_and!.
  - subst r. destruct (register_native_service _ _ _ _) as [r rg']. destruct H as (_ & -> & _).
    split.
    + intros (name' & d' & [j Hj]%list_elem_of_lookup & Hid). exists j, name', d'.
      apply lookup_take_Some in Hj as [Hj Hlt]. done.
    + intros (j & name' & d' & Hlt & Hj & Hid). exists name', d'. split; [|done].
      apply (list_elem_of_lookup_2 _ j). by rewrite lookup_take_lt.
  - rewrite map_map. erewrite map_ext; [apply NoDup_fst_map_to_list|]. by intros [].
  - intros Hok. subst r.
    destruct (register_native_service _ _ _ _) as [r rg'] eqn:Hreg. simpl in Hok.
    destruct H as (_ & _ & _ & Hin). specialize (Hin Hok).
    replace rg' with (register_all (take i l ++ [(channel, name, d)]) registry_new) in Hin
      by (by rewrite register_all_snoc, Hreg).
    destruct (register_all_grows (take i l ++ [(channel, name, d)]) (drop (S i) l) channel) as [more Hmore].
    rewrite <- app_assoc in Hmore. simpl in Hmore. rewrite take_drop_middle in Hmore by done.
    set (full := register_all l registry_new) in *.
    assert (Hsv : rg_channels full !! channel = Some (services_of full channel)).
    { unfold services_of in *. destruct (rg_channels full !! channel); [done|]. simpl in Hmore.
      symmetry in Hmore. apply app_eq_nil in Hmore as [Hm _]. rewrite Hm in Hin. by apply elem_of_nil in Hin. }
    exists (map rs_dispatcher (services_of full channel)). split.
    + apply list_elem_of_fmap. exists (channel, services_of full channel). split; [done|].
      by apply elem_of_map_to_list.
    + unfold service_table. apply collect_in.
      * rewrite map_map. apply Hall.
      * apply list_elem_of_fmap. exists (MkRegistered name d). split; [done|].
        rewrite Hmore. apply elem_of_app. by left.
Qed.
End registry.

Lemma registered_services_served_witness :
  let d id := dispatcher_new (Task:=nat) (M:=nat) (MkServiceRef id 1) in
  let l := [("demo", "Person", d 7); ("demo", "Report", d 9)]%string in
  ∃ services,
    ("demo"%string, services) ∈ rg_threads (start_registered_channels (register_all l registry_new)) ∧
    service_table services !! 9 = Some (d 9).
Proof.
  intros d l.
  apply (registered_services_served l 1 "demo" "Report" (d 9)); reflexivity.
Defined.
