(* ===== verification/System.v ===== *)
(** * The two sides of a call

    What a provider answers, read by the consumer that asked: the verdict of
    the provider on a request it cannot serve, end to end. *)

From S2P Require Import Prelude MachineInt Text Event Header Context Wire Cancel Stream Bridge Publish Notify Client Server Registry.

Local Open Scope Z_scope.

Section system.
Context {F W : Type} `{Bus W, !BusLaws W} `{CallTask F W} {T E : Type} `{Codec T E, !CodecLaws T E}.
Context (base : Z) (p : Proc) (entered : bool).
Context (table : gmap Z (ServiceDispatcher F (CallEmitter W))).

(** Why a request cannot be served: the service, then the protocol, then the
    version, then the method. *)
Definition verdict (header : RpcHeader) : option RpcError :=
  match table !! h_service_id header with
  | None => Some (UnknownService (hex_u32_prefixed (h_service_id header)))
  | Some d =>
      if negb (h_protocol_version header =? PROTOCOL_VERSION) then
        Some (ProtocolMismatch ("protocol_version " +:+ pretty (h_protocol_version header)
                                +:+ " != " +:+ pretty PROTOCOL_VERSION))
      else if negb (h_service_version header =? sr_version (sd_service d)) then
        Some (IncompatibleVersion (sr_version (sd_service d)) (h_service_version header))
      else
        match sd_handlers d !! h_method_id header with
        | None => Some (UnknownMethod (hex_u32_prefixed (h_method_id header)))
        | Some _ => None
        end
  end.

Lemma handle_unserved header payload sv err :
  event_kind header = KRequest → verdict header = Some err →
  handle_request (T:=T) (E:=E) base p entered table header payload sv =
  ([], set_hub sv (reject (T:=T) (E:=E) base p header err (sv_hub sv))).
Proof.
  intros Hk Hv. unfold handle_request, verdict in *. rewrite Hk.
  destruct (table !! h_service_id header) as [d|]; [|by simplify_eq].
  unfold classify. destruct (h_protocol_version header =? PROTOCOL_VERSION); simpl in *; [|by simplify_eq].
  destruct (h_service_version header =? sr_version (sd_service d)); simpl in *; [|by simplify_eq].
  unfold dispatch. destruct (sd_handlers d !! h_method_id header); by simplify_eq.
Qed.

(** The answer to a request that is not served, and how its caller reads it. *)
Lemma unserved_answered header payload sv err bs :
  event_kind header = KRequest → verdict header = Some err →
  encode_error (T:=T) (E:=E) err = Some bs → bs ≠ [] →
  let sv' := (handle_request (T:=T) (E:=E) base p entered table header payload sv).2 in
  sv_tasks sv' = sv_tasks sv ∧ hub_in_flight (sv_hub sv') = hub_in_flight (sv_hub sv) ∧
  ∃ response ok,
    (ok, sv_hub sv') = hub_publish base p KRpcError header bs (sv_hub sv) ∧
    bus_delivered (hub_bus (sv_hub sv')) =
      bus_delivered (hub_bus (sv_hub sv)) ++ (if ok : bool then [(response, bs)] else []) ∧
    h_correlation_id response = h_correlation_id header ∧
    ∀ rest, relay (T:=T) (E:=E) ((event_kind response, bs) :: rest) = ([Error (Technical err)], true).
Proof.
  intros Hk Hv He Hbs. rewrite (handle_unserved header payload sv err Hk Hv). simpl.
  unfold reject, emit_rpc_error. rewrite He. unfold emit, hub_emit, CallEmitter_emit. simpl.
  pose proof (hub_publish_delivers base p KRpcError header bs (sv_hub sv)) as Hd.
  pose proof (hub_publish_calls base p KRpcError header bs (sv_hub sv)) as [Hf _].
  destruct (hub_publish base p KRpcError header bs (sv_hub sv)) as [ok hub']. destruct Hd as [_ Hd].
  simpl in *. split; [done|]. split; [done|]. eexists _, ok. split; [done|]. split.
  - rewrite Hd. unfold sample_payload. destruct bs as [|b bs]; [done|]. reflexivity.
  - split; [done|]. intros rest. unfold event_kind; simpl. unfold sample_events. simpl.
    by rewrite (decode_encode_error _ _ He).
Qed.

(** C10. A request that cannot be served is answered, and the caller reads the
    reason: no task is started and no entry is made, one sample at most is
    published, it carries the caller's correlation id, and the consumer turns
    it into the one technical error that names the cause and closes the call.
    The sample is missing only if the write itself failed. *)
Theorem unserved_request_answered header payload sv err bs :
  event_kind header = KRequest → verdict header = Some err →
  encode_error (T:=T) (E:=E) err = Some bs → bs ≠ [] →
  let sv' := (handle_request (T:=T) (E:=E) base p entered table header payload sv).2 in
  sv_tasks sv' = sv_tasks sv ∧ hub_in_flight (sv_hub sv') = hub_in_flight (sv_hub sv) ∧
  ∃ response ok,
    (ok, sv_hub sv') = hub_publish base p KRpcError header bs (sv_hub sv) ∧
    bus_delivered (hub_bus (sv_hub sv')) =
      bus_delivered (hub_bus (sv_hub sv)) ++ (if ok : bool then [(response, bs)] else []) ∧
    h_correlation_id response = h_correlation_id header ∧
    relay (T:=T) (E:=E) [(event_kind response, bs)] = ([Error (Technical err)], true).
Proof.
  intros Hk Hv He Hbs. destruct (unserved_answered header payload sv err bs Hk Hv He Hbs)
    as (Ht & Hf & response & ok & Hp & Hd & Hc & Hr). split_and!; [done|done|]. exists response, ok. by split_and!.
Qed.
End system.

Section late.
Context {F W : Type} `{Bus W, !BusLaws W} `{CallTask F W} {T E : Type} `{Codec T E, !CodecLaws T E}.

(** C39. A service registered on a channel that is already served spoils the calls of
    the others.  It is accepted without a collision check and gets a second thread on
    the channel; a request the first thread serves reaches the second one too, which
    knows another service only and answers it: the sample it publishes carries the id of
    the call, and ends it for its caller with [UnknownService], whatever the service
    answers after it. *)
Theorem late_registration_rejects_others base p entered channel services name
    (b : ServiceDispatcher F (CallEmitter W)) (rg : Registry) header payload sv bs :
  rg_sealed rg = true → (channel, services) ∈ rg_threads rg →
  event_kind header = KRequest → verdict (service_table services) header = None →
  sr_id (sd_service b) ≠ h_service_id header →
  let err := UnknownService (hex_u32_prefixed (h_service_id header)) in
  encode_error (T:=T) (E:=E) err = Some bs → bs ≠ [] →
  let (r, rg') := register_native_service channel name b rg in
  r = Ok () ∧ (channel, services) ∈ rg_threads rg' ∧ (channel, [b]) ∈ rg_threads rg' ∧
  let sv' := (handle_request (T:=T) (E:=E) base p entered (service_table [b]) header payload sv).2 in
  ∃ response ok,
    (ok, sv_hub sv') = hub_publish base p KRpcError header bs (sv_hub sv) ∧
    bus_delivered (hub_bus (sv_hub sv')) =
      bus_delivered (hub_bus (sv_hub sv)) ++ (if ok : bool then [(response, bs)] else []) ∧
    h_correlation_id response = h_correlation_id header ∧
    ∀ served, relay (T:=T) (E:=E) ((event_kind response, bs) :: served) = ([Error (Technical err)], true).
Proof.
  intros Hseal Hth Hk Hserved Hne err He Hbs. unfold register_native_service. rewrite Hseal. simpl.
  split_and!; [done|apply elem_of_app; by left|apply elem_of_app; right; by apply list_elem_of_singleton|].
  assert (Hv : verdict (service_table [b]) header = Some err).
  { unfold verdict, service_table. simpl. by rewrite lookup_insert_ne, lookup_empty. }
  by destruct (unserved_answered base p entered (service_table [b]) header payload sv err bs Hk Hv He Hbs) as (_ & _ & Hr).
Qed.
End late.

(** A call of a service the channel does not host. *)
Lemma unserved_request_answered_witness :
  let sv := server_new Provider.bus0 in
  let stray := (header_request (9 : Z) 4 1 (proc_start 7 None)).1 in
  let sv' := (handle_request (T:=Z) (E:=Z) 0 Provider.proc0 true Provider.table stray [] sv).2 in
  ∃ response,
    bus_delivered (hub_bus (sv_hub sv')) = [(response, error_code (UnknownService "0x00000004"))] ∧
    relay (T:=Z) (E:=Z) [(event_kind response, error_code (UnknownService "0x00000004"))] =
      ([Error (Technical (UnknownService "0x00000004"))], true).
Proof.
  intros sv stray sv'.
  destruct (unserved_request_answered (T:=Z) (E:=Z) 0 Provider.proc0 true Provider.table stray [] sv
    (UnknownService "0x00000004") (error_code (UnknownService "0x00000004")))
    as (_ & _ & response & ok & Hok & Hd & _ & Hr);
    [reflexivity|vm_compute; reflexivity|reflexivity|discriminate|].
  exists response. split; [|exact Hr]. fold sv' in Hd. rewrite Hd.
  assert (Hyes : ok = true).
  { apply (f_equal fst) in Hok. simpl in Hok. rewrite Hok. vm_compute. reflexivity. }
  rewrite Hyes. reflexivity.
Defined.

(** A service that answers nothing, beside the provider of the example. *)
Lemma late_registration_rejects_others_witness :
  let served := [method (dispatcher_new (MkServiceRef 3 1)) (9 : Z) Provider.handler] in
  let b : ServiceDispatcher Provider.task (CallEmitter SimBus) := dispatcher_new (MkServiceRef 4 1) in
  let rg := MkRegistry ∅ true [("demo"%string, served)] in
  let sv' := (handle_request (T:=Z) (E:=Z) 0 Provider.proc0 true (service_table [b]) Provider.request []
                (server_new Provider.bus0)).2 in
  (register_native_service "demo" "Late" b rg).1 = Ok () ∧
  ∃ response, bus_delivered (hub_bus (sv_hub sv')) = [(response, error_code (UnknownService "0x00000003"))] ∧
    h_correlation_id response = h_correlation_id Provider.request ∧
    relay (T:=Z) (E:=Z) [(event_kind response, error_code (UnknownService "0x00000003")); (KNext, [10; 5])] =
      ([Error (Technical (UnknownService "0x00000003"))], true).
Proof.
  intros served b rg sv'.
  pose proof (late_registration_rejects_others (T:=Z) (E:=Z) 0 Provider.proc0 true "demo" served "Late" b rg Provider.request []
    (server_new Provider.bus0) (error_code (UnknownService "0x00000003"))
    eq_refl ltac:(left) eq_refl eq_refl ltac:(discriminate) eq_refl ltac:(discriminate)) as Ht.
  destruct (register_native_service _ _ _ _) as [r rg'] in Ht |- *.
  destruct Ht as (Hr & _ & _ & response & ok & Hok & Hd & Hc & Hrelay).
  split; [exact Hr|]. exists response. split; [|split; [exact Hc|exact (Hrelay _)]].
  fold sv' in Hd. rewrite Hd.
  assert (Hyes : ok = true) by (apply (f_equal fst) in Hok; simpl in Hok; rewrite Hok; vm_compute; reflexivity).
  rewrite Hyes. reflexivity.
Defined.
