(* ===== verification/Locator.v ===== *)
(** * The service locator ([ice-rpc/src/locator.rs])

    The providers of a process are registered by name and initialized in
    dependency order; the consumers are built on first use.  The registry is a
    hash map: it is listed in an order of its own, so the initialization is
    modelled over any listing of its entries. *)

From S2P Require Import Prelude MachineInt.

Lemma not_forall_in_forallb {A} (f : A → bool) (l : list A) :
  ¬ (∀ x, In x l → f x = true) → ∃ x, In x l ∧ f x = false.
Proof.
  induction l as [|a l IH]; intros Hn; [by destruct Hn|].
  destruct (f a) eqn:Ha; [|exists a; split; [by left|done]].
  destruct IH as (x & Hx & Hf); [|exists x; split; [by right|done]].
  intros Hall. apply Hn. by intros x [->|Hx]; [|apply Hall].
Qed.

(** ** [topological_order] *)

Section order.
Context (names : list string) (deps : list (list string)).

Definition name_of (i : nat) : string := default ""%string (names !! i).
Definition deps_of (i : nat) : list string := default [] (deps !! i).

(** The state of the [while] loop: what remains, who is done, the order. *)
Record Sorting : Type := MkSorting {
  so_remaining : list nat;
  so_done : gset string;
  so_order : list nat
}.

Definition ready (done : gset string) (i : nat) : bool :=
  forallb (λ dep, bool_decide (dep ∈ done) || negb (bool_decide (dep ∈ names))) (deps_of i).

(** The [for] loop over what remains: the next remainder, the names done, the
    order, and whether it progressed. *)
Fixpoint sort_round (remaining : list nat) (done : gset string) (order : list nat)
    : list nat * gset string * list nat * bool :=
  match remaining with
  | [] => ([], done, order, false)
  | i :: rest =>
      if ready done i then
        let '(next, done, order, _) := sort_round rest ({[name_of i]} ∪ done) (order ++ [i]) in
        (next, done, order, true)
      else
        let '(next, done, order, progressed) := sort_round rest done order in
        (i :: next, done, order, progressed)
  end.

Definition sort_body (st : Sorting) : Sorting + list nat :=
  match so_remaining st with
  | [] => inr (so_order st)
  | remaining =>
      let '(next, done, order, progressed) := sort_round remaining (so_done st) (so_order st) in
      if progressed then inl (MkSorting next done order)
      else inl (MkSorting [] done (order ++ next))
  end.

Definition topological_order : list nat :=
  rust_loop sort_body (λ st, length (so_remaining st)) so_order
    (MkSorting (seq 0 (length names)) ∅ []).

(** *** Termination and completeness *)

Lemma sort_round_split remaining done order :
  let '(next, done', order', progressed) := sort_round remaining done order in
  ∃ picked, order' = order ++ picked ∧ remaining ≡ₚ picked ++ next ∧
    done' = list_to_set (map name_of picked) ∪ done ∧ progressed = negb (bool_decide (picked = [])).
Proof.
  revert done order. induction remaining as [|i rest IH]; intros done order; simpl.
  - exists []. rewrite app_nil_r. split_and!; try done. simpl. set_solver.
  - destruct (ready done i).
    + specialize (IH ({[name_of i]} ∪ done) (order ++ [i])).
      destruct (sort_round rest _ _) as [[[next done'] order'] progressed].
      destruct IH as (picked & -> & Hp & -> & _). exists (i :: picked). split_and!.
      * by rewrite <- app_assoc.
      * simpl. by constructor.
      * simpl. set_solver.
      * done.
    + specialize (IH done order). destruct (sort_round rest done order) as [[[next done'] order'] progressed].
      destruct IH as (picked & -> & Hp & -> & ->). exists picked. split_and!; try done.
      rewrite Hp. by apply Permutation_middle.
Qed.

Lemma sort_decreases st st' : sort_body st = inl st' →
  length (so_remaining st') < length (so_remaining st).
Proof.
  destruct st as [[|i rest] dn order]; unfold sort_body; cbn [so_remaining so_done so_order]; [done|].
  pose proof (sort_round_split (i :: rest) dn order) as Hs.
  destruct (sort_round (i :: rest) dn order) as [[[next dn'] order'] progressed].
  destruct Hs as (picked & _ & Hp & _ & Hprog). apply Permutation_length in Hp.
  rewrite length_app in Hp. intros He. destruct progressed; simplify_eq/=; [|lia].
  destruct picked; [done|]. simpl in *. lia.
Qed.

(** Whatever the dependencies, the order is complete. *)
Lemma topological_order_perm : topological_order ≡ₚ seq 0 (length names).
Proof.
  unfold topological_order.
  apply (rust_loop_ind sort_body _ so_order sort_decreases
    (λ st order, order ≡ₚ so_order st ++ so_remaining st)).
  - intros [[|i rest] dn order] r Hb; unfold sort_body in Hb;
      cbn [so_remaining so_done so_order] in *; [simplify_eq; by rewrite app_nil_r|].
    destruct (sort_round (i :: rest) dn order) as [[[next dn'] order'] []]; done.
  - intros [[|i rest] dn order] st' r Hb Hr; unfold sort_body in Hb;
      cbn [so_remaining so_done so_order] in *; [done|].
    pose proof (sort_round_split (i :: rest) dn order) as Hs.
    destruct (sort_round (i :: rest) dn order) as [[[next dn'] order'] progressed].
    destruct Hs as (picked & -> & Hp & _). rewrite Hp.
    destruct progressed; simplify_eq; simpl in Hr; rewrite Hr; rewrite ?app_nil_r; by rewrite <- app_assoc.
Qed.

(** *** Dependencies first *)

(** Every service comes after the services of the process it depends on. *)
Definition respects (order : list nat) : Prop :=
  ∀ l1 i l2, order = l1 ++ i :: l2 →
  ∀ dep, dep ∈ deps_of i → dep ∈ names → dep ∈ map name_of l1.

(** No service depends on itself through the services of the process. *)
Definition acyclic : Prop :=
  ∃ rank : string → nat, ∀ i dep, i < length names → dep ∈ deps_of i → dep ∈ names →
    rank dep < rank (name_of i).

Lemma ready_spec dn i : ready dn i = true ↔ ∀ dep, dep ∈ deps_of i → dep ∈ names → dep ∈ dn.
Proof.
  unfold ready. rewrite forallb_forall. split.
  - intros Hall dep Hd Hn. apply list_elem_of_In in Hd. specialize (Hall dep Hd).
    apply orb_true_iff in Hall as [Hb|Hb]; [by apply bool_decide_eq_true in Hb|].
    by rewrite bool_decide_eq_true_2 in Hb.
  - intros Hall dep Hd. apply list_elem_of_In in Hd. apply orb_true_iff.
    destruct (decide (dep ∈ names)) as [Hn|Hn].
    + left. apply bool_decide_eq_true. by apply Hall.
    + right. by rewrite bool_decide_eq_false_2.
Qed.

Lemma respects_snoc order i :
  respects order → ready (list_to_set (map name_of order)) i = true → respects (order ++ [i]).
Proof.
  intros Ho Hr l1 j l2 Heq dep Hd Hn. destruct l2 as [|k l2 _] using rev_ind.
  - apply app_inj_tail in Heq as [-> ->]. rewrite ready_spec in Hr. specialize (Hr dep Hd Hn).
    by apply elem_of_list_to_set in Hr.
  - rewrite app_comm_cons, app_assoc in Heq. apply app_inj_tail in Heq as [-> _].
    by eapply Ho.
Qed.

Lemma sort_round_respects remaining dn order :
  dn = list_to_set (map name_of order) → respects order →
  let '(next, dn', order', progressed) := sort_round remaining dn order in
  dn' = list_to_set (map name_of order') ∧ respects order' ∧
  (progressed = false → dn' = dn ∧ ∀ i, i ∈ remaining → ready dn i = false).
Proof.
  revert dn order. induction remaining as [|i rest IH]; intros dn order Hdn Ho; simpl.
  - split_and!; try done. intros _. split; [done|]. by intros i ?%elem_of_nil.
  - destruct (ready dn i) eqn:Hi.
    + specialize (IH ({[name_of i]} ∪ dn) (order ++ [i])).
      destruct (sort_round rest _ _) as [[[next dn'] order'] progressed].
      destruct IH as (H1 & H2 & _); [|by apply respects_snoc; subst dn|done].
      rewrite map_app, list_to_set_app_L. simpl. subst dn. set_solver.
    + specialize (IH dn order Hdn Ho). destruct (sort_round rest dn order) as [[[next dn'] order'] progressed].
      destruct IH as (H1 & H2 & H3). split_and!; try done. intros Hp. destruct (H3 Hp) as [Heq Hall].
      split; [done|]. intros j [->|Hj]%elem_of_cons; [done|by apply Hall].
Qed.

Lemma name_lookup dep : dep ∈ names → ∃ j, j < length names ∧ name_of j = dep.
Proof.
  intros [j Hj]%list_elem_of_lookup. exists j. split; [by eapply lookup_lt_Some|].
  unfold name_of. by rewrite Hj.
Qed.

(** While the graph has no cycle, some service is always ready. *)
Lemma always_progress order remaining :
  acyclic → order ++ remaining ≡ₚ seq 0 (length names) → remaining ≠ [] →
  ¬ ∀ i, i ∈ remaining → ready (list_to_set (map name_of order)) i = false.
Proof.
  intros [rank Hrank] Hperm Hne Hall.
  assert (Hnone : ∀ n i, i ∈ remaining → rank (name_of i) < n → False).
  { intros n. induction n as [|n IH]; intros i Hi Hn; [lia|].
    assert (Hlt : i < length names).
    { assert (i ∈ seq 0 (length names)) as Hs by (rewrite <- Hperm; set_solver). apply elem_of_seq in Hs. lia. }
    assert (Hdep : ∃ dep, dep ∈ deps_of i ∧ dep ∈ names ∧ dep ∉ map name_of order).
    { specialize (Hall i Hi). unfold ready in Hall.
      apply not_true_iff_false in Hall. rewrite forallb_forall in Hall.
      apply not_forall_in_forallb in Hall as (dep & Hd & Hf).
      apply orb_false_iff in Hf as [H1 H2]. exists dep. split; [by apply list_elem_of_In|].
      apply bool_decide_eq_false in H1. apply negb_false_iff, bool_decide_eq_true in H2.
      split; [done|]. by rewrite elem_of_list_to_set in H1. }
    destruct Hdep as (dep & Hd & Hn' & Hno). destruct (name_lookup dep Hn') as (j & Hj & <-).
    assert (Hjin : j ∈ order ++ remaining) by (rewrite Hperm; apply elem_of_seq; lia).
    apply elem_of_app in Hjin as [Hjo|Hjr].
    - apply Hno. apply list_elem_of_fmap. by exists j.
    - apply (IH j Hjr). specialize (Hrank i (name_of j) Hlt Hd Hn'). lia. }
  destruct remaining as [|i rest]; [done|]. apply (Hnone (S (rank (name_of i))) i); [set_solver|lia].
Qed.

Lemma topological_order_respects : acyclic → respects topological_order.
Proof.
  intros Hac. unfold topological_order.
  pose proof (rust_loop_ind sort_body _ so_order sort_decreases
    (λ st order, so_done st = list_to_set (map name_of (so_order st)) →
       respects (so_order st) → so_order st ++ so_remaining st ≡ₚ seq 0 (length names) →
       respects order)) as Hind.
  apply Hind; clear Hind.
  - intros [[|i rest] dn order] r Hb; unfold sort_body in Hb;
      cbn [so_remaining so_done so_order] in *; [by simplify_eq|].
    destruct (sort_round (i :: rest) dn order) as [[[next dn'] order'] []]; done.
  - intros [[|i rest] dn order] st' r Hb IH; unfold sort_body in Hb;
      cbn [so_remaining so_done so_order] in *; [done|].
    intros Hdn Ho Hperm. pose proof (sort_round_respects (i :: rest) dn order Hdn Ho) as Hr.
    pose proof (sort_round_split (i :: rest) dn order) as Hs.
    destruct (sort_round (i :: rest) dn order) as [[[next dn'] order'] progressed].
    destruct Hr as (Hdn' & Ho' & Hstuck), Hs as (picked & -> & Hp & _).
    destruct progressed.
    + simplify_eq. apply IH; cbn [so_remaining so_done so_order]; try done.
      rewrite <- Hperm, Hp. by rewrite app_assoc.
    + exfalso. destruct (Hstuck eq_refl) as [_ Hall]. rewrite Hdn in Hall.
      by apply (always_progress order (i :: rest)).
  - done.
  - intros l1 i l2 Hn. by destruct l1.
  - done.
Qed.
End order.

(** ** [initialize_all] *)

Section initialize.
(** What [init] of a service does to the rest of the process, and the start of
    the channels. *)
Context {St : Type} (init : string → St → bool * St) (start_channels : St → St).

Definition failed_message (name : string) : string :=
  ("service '" +:+ name +:+ "' failed to initialize")%string.

(** The [for] loop: the services initialized, the first failure. *)
Fixpoint run_inits (names : list string) (order : list nat) (st : St)
    : list string * option string * St :=
  match order with
  | [] => ([], None, st)
  | i :: rest =>
      let name := name_of names i in
      let (ok, st) := init name st in
      if ok then let '(log, failure, st) := run_inits names rest st in (name :: log, failure, st)
      else ([name], Some name, st)
  end.

(** [snapshot] lists the entries of the map with their dependencies. *)
Definition initialize_all (snapshot : list (string * list string)) (st : St)
    : list string * result () string * St :=
  let names := map fst snapshot in
  let deps := map snd snapshot in
  match run_inits names (topological_order names deps) st with
  | (log, Some name, st) => (log, Err (failed_message name), st)
  | (log, None, st) => (log, Ok (), start_channels st)
  end.

(** The process after the [init]s of these services, and whether each succeeded in
    its turn. *)
Definition after_inits (log : list string) (st : St) : St := fold_left (λ st name, (init name st).2) log st.

Definition all_succeed (log : list string) (st : St) : Prop :=
  ∀ before name after, log = before ++ name :: after → (init name (after_inits before st)).1 = true.

Lemma all_succeed_cons name log st :
  (init name st).1 = true → all_succeed log (init name st).2 → all_succeed (name :: log) st.
Proof. intros Hn Hl [|n before] name' after Heq; simplify_eq/=; [done|]. by eapply Hl. Qed.

(** The services of a run of [init]s: a prefix of the order, cut after the
    first failure. *)
Lemma run_inits_spec names order st :
  let '(log, failure, st') := run_inits names order st in
  (∃ rest, map (name_of names) order = log ++ rest ∧ (failure = None → rest = [])) ∧ st' = after_inits log st ∧
  match failure with
  | None => all_succeed log st
  | Some name => ∃ before, log = before ++ [name] ∧ all_succeed before st ∧ (init name (after_inits before st)).1 = false
  end.
Proof.
  revert st. induction order as [|i order IH]; intros st; simpl.
  { split_and!; [by exists []|done|]. by intros [|? ?] ? ?. }
  destruct (init (name_of names i) st) as [[] st1] eqn:Hi.
  - specialize (IH st1). destruct (run_inits names order st1) as [[log failure] st'].
    destruct IH as ((rest & Heq & Hr) & -> & Hf). split; [exists rest; by rewrite Heq|].
    split; [simpl; by rewrite Hi|]. destruct failure as [name|].
    + destruct Hf as (before & -> & Hs & Hn). exists (name_of names i :: before). split; [done|]. simpl. rewrite Hi.
      split; [|done]. apply all_succeed_cons; by rewrite Hi.
    + apply all_succeed_cons; by rewrite Hi.
  - split_and!; [by eexists|simpl; by rewrite Hi|]. exists []. split; [done|]. simpl. rewrite Hi. split; [|done].
    by intros [|? ?] ? ?.
Qed.

(** The dependencies of the entry [name], among the services of the process. *)
Definition local_deps (snapshot : list (string * list string)) (name dep : string) : Prop :=
  dep ∈ map fst snapshot ∧ ∃ ds, (name, ds) ∈ snapshot ∧ dep ∈ ds.

Lemma names_seq (names : list string) : map (name_of names) (seq 0 (length names)) = names.
Proof.
  apply list_eq. intros i. destruct (decide (i < length names)) as [Hi|Hi].
  - rewrite list_lookup_fmap, lookup_seq_lt by done. simpl. unfold name_of.
    destruct (lookup_lt_is_Some_2 names i Hi) as [x Hx]. by rewrite Hx.
  - rewrite !lookup_ge_None_2; [done|lia|]. rewrite length_map, length_seq. lia.
Qed.

(** C13. The providers of a process start in dependency order, however the
    registry happens to list them: with no dependency cycle among them, a
    service is initialized after every service of the process it depends on
    (the others never block).  All of them are, once each, and the channels are started
    behind the last; or one fails, the first to do so: it is the one that is
    reported, the last that is touched, and the process is left as its [init] left
    it, the channels not started. *)
Theorem initialize_all_in_order (snapshot : list (string * list string)) st :
  NoDup (map fst snapshot) → acyclic (map fst snapshot) (map snd snapshot) →
  let '(log, r, st') := initialize_all snapshot st in
  (∀ before name after, log = before ++ name :: after →
     ∀ dep, local_deps snapshot name dep → dep ∈ before) ∧
  match r with
  | Ok _ => log ≡ₚ map fst snapshot ∧ all_succeed log st ∧ st' = start_channels (after_inits log st)
  | Err message => ∃ before name, log = before ++ [name] ∧ message = failed_message name ∧
      all_succeed before st ∧ (init name (after_inits before st)).1 = false ∧ st' = after_inits log st ∧
      NoDup log ∧ log ⊆ map fst snapshot
  end.
Proof.
  intros Hnd Hac. unfold initialize_all. set (names := map fst snapshot) in *. set (deps := map snd snapshot) in *.
  pose proof (run_inits_spec names (topological_order names deps) st) as Hrun.
  pose proof (topological_order_respects names deps Hac) as Hord.
  pose proof (topological_order_perm names deps) as Hperm.
  destruct (run_inits names (topological_order names deps) st) as [[log failure] st1].
  destruct Hrun as ((rest & Hmap & Hrest) & -> & Hfail).
  assert (Hbefore : ∀ before name after, log = before ++ name :: after →
    ∀ dep, local_deps snapshot name dep → dep ∈ before).
  { intros before name after -> dep [Hdep (ds & Hds & Hin)].
    rewrite <- app_assoc in Hmap. simpl in Hmap.
    apply map_eq_app in Hmap as (o1 & o2 & Ho & <- & Ho2). apply map_eq_cons in Ho2 as (i & o3 & -> & Hi & _).
    apply (Hord o1 i o3 Ho dep); [|done]. unfold deps_of.
    apply list_elem_of_lookup in Hds as [j Hj].
    assert (Hij : i = j).
    { assert (Hii : i ∈ topological_order names deps) by (rewrite Ho; set_solver).
      rewrite Hperm in Hii. apply elem_of_seq in Hii.
      destruct (lookup_lt_is_Some_2 names i ltac:(lia)) as [x Hx].
      eapply (NoDup_lookup names); [done|done|]. unfold name_of in Hi. rewrite Hx in Hi. simpl in Hi.
      subst x. unfold names. by rewrite list_lookup_fmap, Hj. }
    subst j. unfold deps. by rewrite list_lookup_fmap, Hj. }
  destruct failure as [name|]; (split; [done|]).
  - destruct Hfail as (before & Hlog & Hs & Hn). exists before, name.
    assert (Hall : log ++ rest ≡ₚ names) by (by rewrite <- Hmap, Hperm, names_seq).
    split_and!; try done.
    + rewrite <- Hall in Hnd. by apply NoDup_app in Hnd as [? _].
    + intros x Hx. rewrite <- Hall. set_solver.
  - rewrite (Hrest eq_refl), app_nil_r in Hmap. split; [|done]. rewrite <- Hmap, Hperm. by rewrite names_seq.
Qed.
End initialize.

Lemma initialize_all_in_order_witness :
  let snapshot := [("api", ["db"; "auth"; "remote"]); ("auth", ["db"]); ("db", [])]%string in
  let out := initialize_all (λ _ n, (true, S n)) (λ n, n + 100) snapshot 0 in
  out = (["db"; "auth"; "api"]%string, Ok (), 103) ∧ out.1.1 ≡ₚ ["api"; "auth"; "db"]%string.
Proof.
  intros snapshot out. split; [vm_compute; reflexivity|].
  apply (initialize_all_in_order (λ _ n, (true, S n)) (λ n, n + 100) snapshot 0).
  - apply (bool_decide_unpack _). vm_compute. exact I.
  - exists (λ s, if decide (s = "db"%string) then 0 else if decide (s = "auth"%string) then 1 else 2).
    intros [|[|[|i]]] dep Hi Hd Hn; vm_compute in Hd; simpl in Hi; try lia;
      repeat (apply elem_of_cons in Hd as [->|Hd]; [|]); try (by apply elem_of_nil in Hd);
      try (vm_compute; lia).
    exfalso. simpl in Hn.
    repeat (apply elem_of_cons in Hn as [Hn|Hn]; [discriminate|]). by apply elem_of_nil in Hn.
Defined.

(** ** The registry and the proxies *)

(** An instance: its concrete type, and which object it is. *)
Record ServiceInstance : Type := MkInstance { in_type : Z; in_object : nat }.

#[export] Instance instance_eq_dec : EqDecision ServiceInstance.
Proof. solve_decision. Defined.

Record ServiceLocator : Type := MkLocator {
  loc_entries : gmap string ServiceInstance;
  loc_lazy_cache : gmap string ServiceInstance;
  loc_objects : nat
}.

(** [Arc::downcast]. *)
Definition downcast (type : Z) (i : ServiceInstance) : option ServiceInstance :=
  if (in_type i =? type)%Z then Some i else None.

(** The number is cast to a byte. *)
Definition service_count (loc : ServiceLocator) : Z := wrap 8 (Z.of_nat (size (loc_entries loc))).

Definition register (name : string) (service : ServiceInstance) (loc : ServiceLocator) : bool * ServiceLocator :=
  (bool_decide (is_Some (loc_entries loc !! name)),
   MkLocator (<[name := service]> (loc_entries loc)) (loc_lazy_cache loc) (loc_objects loc)).

(** [get] of the service type [type], named [name]. *)
Definition get (type : Z) (name : string) (loc : ServiceLocator) : option ServiceInstance * ServiceLocator :=
  match loc_entries loc !! name with
  | Some entry => (downcast type entry, loc)
  | None =>
      match loc_lazy_cache loc !! name with
      | Some instance => (downcast type instance, loc)
      | None =>
          let proxy := MkInstance type (loc_objects loc) in
          (Some proxy,
           MkLocator (loc_entries loc) (<[name := proxy]> (loc_lazy_cache loc)) (S (loc_objects loc)))
      end
  end.

Definition get_all (l : list (Z * string)) (loc : ServiceLocator) : ServiceLocator :=
  fold_left (λ loc '(type, name), (get type name loc).2) l loc.

(** What a lookup finds, a later [get] finds too. *)
Definition found (name : string) (i : ServiceInstance) (loc : ServiceLocator) : Prop :=
  loc_entries loc !! name = Some i ∨
  loc_entries loc !! name = None ∧ loc_lazy_cache loc !! name = Some i.

Lemma get_keeps name i type' name' loc : found name i loc → found name i (get type' name' loc).2.
Proof.
  unfold found, get. destruct (loc_entries loc !! name') as [e|] eqn:He; [done|].
  destruct (loc_lazy_cache loc !! name') as [c|] eqn:Hc; [done|]. simpl.
  intros [Hf|[Hn Hf]]; [by left|]. right. split; [done|]. rewrite lookup_insert_ne; [done|congruence].
Qed.

(** A consumer that asks again, after any other lookups, is given the object it
    was given first. *)
Lemma get_is_stable type name i loc l :
  (get type name loc).1 = Some i →
  get type name (get_all l (get type name loc).2) = (Some i, get_all l (get type name loc).2).
Proof.
  intros Hg. assert (Hf : found name i (get type name loc).2 ∧ in_type i = type).
  { unfold get, downcast, found in *. destruct (loc_entries loc !! name) as [e|] eqn:He.
    - simpl in *. destruct (Z.eqb_spec (in_type e) type); simplify_eq. rewrite He. auto.
    - destruct (loc_lazy_cache loc !! name) as [c|] eqn:Hc; simpl in *.
      + destruct (Z.eqb_spec (in_type c) type); simplify_eq. rewrite He, Hc. auto.
      + simplify_eq. simpl. rewrite lookup_insert_eq. auto. }
  destruct Hf as [Hf Ht]. assert (Hall : found name i (get_all l (get type name loc).2)).
  { generalize dependent (get type name loc).2. induction l as [|[t n] l IH]; intros loc' Hf; [done|].
    simpl. apply IH. by apply get_keeps. }
  clear Hg Hf. revert Hall. generalize (get_all l (get type name loc).2). intros loc' Hall.
  unfold get, downcast. destruct Hall as [->|[-> ->]]; by rewrite (proj2 (Z.eqb_eq _ _) Ht).
Qed.

(** ** Lookups that race

    The two maps are read and written under locks of their own: between the reads
    of a lookup and its write another one may have cached its proxy. *)

Inductive Getting : Type :=
| GEntries
| GCache
| GWrite (proxy : ServiceInstance)
| GDone (r : option ServiceInstance).

Definition get_step (type : Z) (name : string) (g : Getting) (loc : ServiceLocator) : Getting * ServiceLocator :=
  match g with
  | GEntries => match loc_entries loc !! name with
                | Some entry => (GDone (downcast type entry), loc)
                | None => (GCache, loc)
                end
  | GCache => match loc_lazy_cache loc !! name with
              | Some instance => (GDone (downcast type instance), loc)
              | None => (GWrite (MkInstance type (loc_objects loc)),
                         MkLocator (loc_entries loc) (loc_lazy_cache loc) (S (loc_objects loc)))
              end
  | GWrite proxy =>
      (GDone (Some proxy),
       match loc_lazy_cache loc !! name with
       | Some _ => loc
       | None => MkLocator (loc_entries loc) (<[name := proxy]> (loc_lazy_cache loc)) (loc_objects loc)
       end)
  | GDone r => (g, loc)
  end.

(** The lookups of several threads: which one takes its next step. *)
Fixpoint get_race (schedule : list nat) (gs : list (Z * string * Getting)) (loc : ServiceLocator)
    : list (Z * string * Getting) * ServiceLocator :=
  match schedule with
  | [] => (gs, loc)
  | i :: rest =>
    match gs !! i with
    | None => get_race rest gs loc
    | Some (type, name, g) =>
      let (g', loc') := get_step type name g loc in get_race rest (<[i := (type, name, g')]> gs) loc'
    end
  end.

(** Alone, the steps are [get]. *)
Lemma get_alone type name loc :
  get_race [0; 0; 0] [(type, name, GEntries)] loc =
  ([(type, name, GDone (get type name loc).1)], (get type name loc).2).
Proof.
  unfold get. simpl. destruct (loc_entries loc !! name) as [e|] eqn:He; simpl; [done|].
  destruct (loc_lazy_cache loc !! name) as [c|] eqn:Hc; simpl; [done|]. by rewrite Hc.
Qed.

(** Whatever the interleaving, a proxy that is cached stays, so that every lookup
    that begins later is given it. *)
Lemma race_keeps_cached name i schedule gs loc :
  found name i loc → found name i (get_race schedule gs loc).2.
Proof.
  revert gs loc. induction schedule as [|k rest IH]; intros gs loc Hf; [done|]. simpl.
  destruct (gs !! k) as [[[type' name'] g]|]; [|by apply IH].
  destruct (get_step type' name' g loc) as [g' loc'] eqn:Hs. apply IH.
  destruct g as [| |proxy|r]; simpl in Hs.
  - destruct (loc_entries loc !! name'); by simplify_eq.
  - destruct (loc_lazy_cache loc !! name'); simplify_eq; done.
  - destruct (loc_lazy_cache loc !! name') eqn:Hc; simplify_eq; [done|]. unfold found in *. simpl.
    destruct Hf as [?|[? ?]]; [by left|]. right. split; [done|]. rewrite lookup_insert_ne; [done|congruence].
  - by simplify_eq.
Qed.

(** Two lookups that race are given two proxies, of which one is cached. *)
Example racing_lookups_differ :
  get_race [0; 0; 1; 1; 0; 1] [(7%Z, "db"%string, GEntries); (7%Z, "db"%string, GEntries)] (MkLocator ∅ ∅ 0) =
  ([(7%Z, "db"%string, GDone (Some (MkInstance 7 0))); (7%Z, "db"%string, GDone (Some (MkInstance 7 1)))],
   MkLocator ∅ {["db"%string := MkInstance 7 0]} 2).
Proof. vm_compute. reflexivity. Qed.
