(* ===== verification/Pump.v ===== *)
(** * The receive loop ([ice-rpc/src/transport/pump.rs], [waitset.rs])

    The loop of both dispatch threads: spin, then block, hand every sample to a
    callback, stop when asked.  What the environment answers to a round (the
    stop flag, the subscriber, the signal flag, the wait) is an input of the
    round, so a run is a list of inputs. *)

From S2P Require Import Prelude MachineInt.

Local Open Scope Z_scope.

Definition IDLE_SPINS : Z := 2000.
Definition SIGNAL_CHECK_SAMPLES : Z := 256.

Section pump.
Context {Sample : Type}.

(** [subscriber.receive()]. *)
Inductive received : Type :=
| GotSample (s : Sample)
| GotNothing
| GotError.

(** What the wait reports: an event of the listener, the deadline, a signal. *)
Inductive waited : Type := WaitEvent | WaitDeadline | WaitSignal.

Record round : Type := MkRound {
  in_stop : bool;
  in_receive : received;
  in_termination : bool;
  in_wait : waited
}.

Record Pump : Type := MkPump {
  pu_idle_spins : Z;
  pu_signal_ticks : Z;
  pu_handled : list Sample;
  (** Yields and blocking waits, most recent first; and whether the loop asked
      the process to stop. *)
  pu_pauses : list bool;
  pu_shutdown : bool
}.

Definition pump_new : Pump := MkPump 0 0 [] [] false.

(** [wait_for_wakeup]: whether there is something to poll, and whether a
    shutdown was requested. *)
Definition wait_for_wakeup (w : waited) : bool * bool :=
  match w with
  | WaitSignal => (true, true)
  | WaitEvent => (true, false)
  | WaitDeadline => (false, false)
  end.

(** One round of the [while] loop: [inr] is the way out. *)
Definition pump_round (r : round) (p : Pump) : Pump + Pump :=
  let '(MkPump idle ticks handled pauses down) := p in
  if in_stop r then inr p
  else
    match in_receive r with
    | GotSample s =>
        let ticks := wrap 32 (ticks + 1) in
        if (Z.land ticks (SIGNAL_CHECK_SAMPLES - 1) =? 0) && in_termination r then
          inr (MkPump 0 ticks handled pauses true)
        else inl (MkPump 0 ticks (handled ++ [s]) pauses down)
    | GotNothing =>
        if idle <? IDLE_SPINS then inl (MkPump (idle + 1) ticks handled (false :: pauses) down)
        else
          let (notified, signal) := wait_for_wakeup (in_wait r) in
          inl (MkPump (if notified then 0 else IDLE_SPINS) ticks handled (true :: pauses) (down || signal))
    | GotError => inl (MkPump 0 ticks handled (false :: pauses) down)
    end.

(** The loop over the rounds it is given: [inl] when it is still running. *)
Fixpoint receive_rounds (rounds : list round) (p : Pump) : Pump + Pump :=
  match rounds with
  | [] => inl p
  | r :: rest => match pump_round r p with
                 | inl p => receive_rounds rest p
                 | inr p => inr p
                 end
  end.

(** The setup: the creation of the wait set, and the attachment of the listener. *)
Record Setup : Type := MkSetup { su_waitset : result () string; su_attach : result () string }.

Definition setup_ok (su : Setup) : bool := is_ok (su_waitset su) && is_ok (su_attach su).

(** The whole function; a setup that fails is its return, before the first round. *)
Definition run_receive_loop (su : Setup) (rounds : list round) : Pump + Pump :=
  match su_waitset su with
  | Err _ => inr pump_new
  | Ok _ => match su_attach su with
            | Err _ => inr pump_new
            | Ok _ => receive_rounds rounds pump_new
            end
  end.

(** The samples of the rounds. *)
Definition samples (rounds : list round) : list Sample :=
  omap (λ r, match in_receive r with GotSample s => Some s | _ => None end) rounds.

(** The loop went through [rounds] and left, or not, during the next one. *)
Lemma receive_rounds_split rounds p :
  match receive_rounds rounds p with
  | inl p' => pu_handled p' = pu_handled p ++ samples rounds
  | inr p' => ∃ before r after, rounds = before ++ r :: after ∧
      pu_handled p' = pu_handled p ++ samples before ∧
      (in_stop r = true ∨ ∃ s, in_receive r = GotSample s ∧ in_termination r = true ∧ pu_shutdown p' = true)
  end.
Proof.
  revert p. induction rounds as [|r rest IH]; intros [idle ticks handled pauses down];
    cbn [receive_rounds pump_round pu_handled]; [by rewrite app_nil_r|].
  destruct (in_stop r) eqn:Hstop.
  { exists [], r, rest. rewrite app_nil_r. auto. }
  assert (Hmore : ∀ p1 s, pu_handled p1 = handled ++ s → samples (r :: rest) = s ++ samples rest →
    samples [r] = s →
    match receive_rounds rest p1 with
    | inl p' => pu_handled p' = handled ++ samples (r :: rest)
    | inr p' => ∃ before r0 after, r :: rest = before ++ r0 :: after ∧
        pu_handled p' = handled ++ samples before ∧
        (in_stop r0 = true ∨
         ∃ s, in_receive r0 = GotSample s ∧ in_termination r0 = true ∧ pu_shutdown p' = true)
    end).
  { intros p1 s Hp1 Hs Hr. specialize (IH p1). destruct (receive_rounds rest p1) as [p'|p'].
    - by rewrite IH, Hp1, Hs, app_assoc.
    - destruct IH as (before & r0 & after & -> & Hh & Hw). exists (r :: before), r0, after.
      split; [done|]. split; [|done]. rewrite Hh, Hp1, <- app_assoc. f_equal.
      change (r :: before) with ([r] ++ before). unfold samples in *. by rewrite omap_app, Hr. }
  destruct (in_receive r) as [s| |] eqn:Hrec.
  - destruct ((Z.land _ _ =? 0) && in_termination r) eqn:Hterm.
    + exists [], r, rest. apply andb_true_iff in Hterm as [_ Hterm]. rewrite app_nil_r. eauto 10.
    + apply (Hmore _ [s]); [done|..]; unfold samples; simpl; by rewrite Hrec.
  - destruct (idle <? IDLE_SPINS).
    + apply (Hmore _ []); [simpl; by rewrite app_nil_r|..]; unfold samples; simpl; by rewrite Hrec.
    + destruct (wait_for_wakeup (in_wait r)) as [notified signal].
      apply (Hmore _ []); [simpl; by rewrite app_nil_r|..]; unfold samples; simpl; by rewrite Hrec.
  - apply (Hmore _ []); [simpl; by rewrite app_nil_r|..]; unfold samples; simpl; by rewrite Hrec.
Qed.

(** A silent channel. *)
Definition silent : round := MkRound false GotNothing false WaitDeadline.

Lemma silent_blocks n p : pu_idle_spins p = IDLE_SPINS →
  receive_rounds (replicate n silent) p =
  inl (MkPump IDLE_SPINS (pu_signal_ticks p) (pu_handled p) (replicate n true ++ pu_pauses p)
         (pu_shutdown p)).
Proof.
  revert p. induction n as [|n IH]; intros [idle ticks handled pauses down] Hi; simpl in *; subst idle; [done|].
  unfold IDLE_SPINS at 1. simpl. rewrite IH by done. simpl. rewrite orb_false_r.
  do 2 f_equal. by rewrite (cons_middle true), app_assoc, <- replicate_cons_app.
Qed.

Lemma silent_spins n p : pu_idle_spins p + Z.of_nat n ≤ IDLE_SPINS →
  receive_rounds (replicate n silent) p =
  inl (MkPump (pu_idle_spins p + Z.of_nat n) (pu_signal_ticks p) (pu_handled p)
         (replicate n false ++ pu_pauses p) (pu_shutdown p)).
Proof.
  revert p. induction n as [|n IH]; intros [idle ticks handled pauses down] Hi; simpl in *.
  { by rewrite Z.add_0_r. }
  rewrite (proj2 (Z.ltb_lt _ _)) by lia. rewrite IH by (simpl; lia). simpl. f_equal. f_equal; [lia|].
  by rewrite (cons_middle false), app_assoc, <- replicate_cons_app.
Qed.

Lemma receive_rounds_app l1 l2 p :
  receive_rounds (l1 ++ l2) p =
  match receive_rounds l1 p with inl p' => receive_rounds l2 p' | inr p' => inr p' end.
Proof. revert p. induction l1 as [|r l1 IH]; intros p; simpl; [done|]. by destruct (pump_round r p). Qed.

(** The receive loop hands every sample it receives to the callback, once
    and in order.  Asked to stop it has handled them all; when it notices the
    termination of the process it leaves with the sample it holds unhandled; and
    it handles nothing when it could not be set up.
    On a silent channel it yields [IDLE_SPINS] times and blocks from then on. *)
Theorem receive_loop_handles_all (su : Setup) (rounds : list round) :
  match run_receive_loop su rounds with
  | inl p => setup_ok su = true ∧ pu_handled p = samples rounds
  | inr p => setup_ok su = false ∧ pu_handled p = [] ∨
      ∃ before r after, rounds = before ++ r :: after ∧ pu_handled p = samples before ∧
      (in_stop r = true ∨ ∃ s, in_receive r = GotSample s ∧ in_termination r = true ∧ pu_shutdown p = true)
  end ∧
  ∀ n, ∃ p, run_receive_loop (MkSetup (Ok ()) (Ok ())) (replicate (Z.to_nat IDLE_SPINS + n) silent) = inl p ∧
    pu_pauses p = replicate n true ++ replicate (Z.to_nat IDLE_SPINS) false.
Proof.
  split.
  - unfold run_receive_loop, setup_ok. destruct (su_waitset su); [|by left]. destruct (su_attach su); [|by left].
    pose proof (receive_rounds_split rounds pump_new) as Hs.
    destruct (receive_rounds rounds pump_new); [done|by right].
  - intros n. unfold run_receive_loop. simpl su_waitset. simpl su_attach.
    rewrite replicate_add, receive_rounds_app, silent_spins by (simpl; unfold IDLE_SPINS; lia).
    rewrite silent_blocks by (cbn [pu_idle_spins pump_new]; unfold IDLE_SPINS; lia).
    eexists. split; [done|]. cbn [pu_pauses pump_new]. by rewrite app_nil_r.
Qed.
End pump.

(** A sample is lost when the loop notices the termination on it: the 256th. *)
Example termination_drops_a_sample :
  let quiet s := MkRound false (GotSample s) false WaitDeadline in
  let last := MkRound false (GotSample 256) true WaitDeadline in
  let rounds := map quiet (seqZ 1 255) ++ [last] in
  match receive_rounds rounds pump_new with
  | inr p => pu_handled p = seqZ 1 255
  | inl _ => False
  end.
Proof. vm_compute. reflexivity. Qed.
