(* ===== verification/Open.v ===== *)
(** * Opening a service ([ice-rpc/src/transport/open.rs])

    What a failure to open a service means, and the bounded retry.  The error
    types belong to iceoryx2: an error is known by its [Debug] name, the only
    thing the source prints of it, and the sets of names are those the source
    matches on. *)

From S2P Require Import Prelude MachineInt Text Event Publish.

Definition OPEN_RETRY_ATTEMPTS : nat := 20.

(** ** Classification *)

Definition is_config_mismatch (error : string) : bool :=
  bool_decide (error ∈
    ["IncompatibleTypes"; "IncompatibleMessagingPattern"; "IncompatibleAttributes";
     "IncompatibleOverflowBehavior"; "DoesNotSupportRequestedMinBufferSize";
     "DoesNotSupportRequestedMinHistorySize";
     "DoesNotSupportRequestedMinSubscriberBorrowedSamples";
     "DoesNotSupportRequestedAmountOfPublishers"; "DoesNotSupportRequestedAmountOfSubscribers";
     "DoesNotSupportRequestedAmountOfNodes"]%string).

Definition is_stale_state (error : string) : bool :=
  bool_decide (error ∈ ["ServiceInCorruptedState"; "HangsInCreation"]%string).

Definition is_stale_creation (error : string) : bool :=
  bool_decide (error ∈ ["ServiceInCorruptedState"; "HangsInCreation"]%string).

Definition is_event_config_mismatch (error : string) : bool :=
  bool_decide (error ∈
    ["IncompatibleMessagingPattern"; "IncompatibleAttributes"; "IncompatibleDeadline";
     "IncompatibleNotifierCreatedEvent"; "IncompatibleNotifierDroppedEvent";
     "IncompatibleNotifierDeadEvent"; "DoesNotSupportRequestedAmountOfNotifiers";
     "DoesNotSupportRequestedAmountOfListeners"; "DoesNotSupportRequestedMaxEventId";
     "DoesNotSupportRequestedAmountOfNodes"]%string).

Section errors.
(** The two remedies, as texts. *)
Context (REMEDY_CONFIG REMEDY_STALE : string).

Definition with_remedy (context error remedy : string) : RpcError :=
  ProtocolMismatch (context +:+ ": " +:+ error +:+ ". " +:+ remedy).

Definition pub_sub_open_error (context error : string) : RpcError :=
  if is_config_mismatch error then with_remedy context error REMEDY_CONFIG
  else if is_stale_state error then with_remedy context error REMEDY_STALE
  else transport_error context error.

Definition pub_sub_create_error (context error : string) : RpcError :=
  if is_stale_creation error then with_remedy context error REMEDY_STALE
  else transport_error context error.

Definition event_create_error (context error : string) : RpcError :=
  if bool_decide (error = "ServiceInCorruptedState"%string) then with_remedy context error REMEDY_STALE
  else transport_error context error.

Definition event_open_error (context error : string) : RpcError :=
  if is_event_config_mismatch error then with_remedy context error REMEDY_CONFIG
  else if is_stale_state error then with_remedy context error REMEDY_STALE
  else transport_error context error.

Definition system_in_flux (context : string) : RpcError :=
  TransportError
    (context +:+ ": SystemInFlux. Either another process is creating or removing this service "
     +:+ "right now, in which case retrying works, or the state is left over from a process that "
     +:+ "died while it held it, in which case retrying cannot help and this persists: "
     +:+ REMEDY_STALE).

(** The three ways [open_or_create] fails. *)
Inductive OpenOrCreateError : Type :=
| OpenFailed (error : string)
| CreateFailed (error : string)
| InFlux.

Definition open_service_error (e : OpenOrCreateError) : RpcError :=
  match e with
  | OpenFailed inner => pub_sub_open_error "open service" inner
  | CreateFailed inner => pub_sub_create_error "create service" inner
  | InFlux => system_in_flux "open service"
  end.

Definition event_error (e : OpenOrCreateError) : RpcError :=
  match e with
  | OpenFailed inner => event_open_error "open event" inner
  | CreateFailed inner => event_create_error "create event" inner
  | InFlux => system_in_flux "open event service"
  end.

(** [open_existing_service]: a missing service is an answer. *)
Definition open_existing_service {A} (opened : result A string) : result (option A) RpcError :=
  match opened with
  | Ok service => Ok (Some service)
  | Err e =>
      if bool_decide (e = "DoesNotExist"%string) then Ok None
      else Err (pub_sub_open_error "open service (read-only)" e)
  end.

(** A failure no retry can cure is not retryable, and only such a failure. *)
Lemma open_service_error_retryable e :
  is_retryable (open_service_error e) =
  match e with
  | OpenFailed inner => negb (is_config_mismatch inner || is_stale_state inner)
  | CreateFailed inner => negb (is_stale_creation inner)
  | InFlux => true
  end.
Proof.
  destruct e as [e|e|]; simpl; [unfold pub_sub_open_error|unfold pub_sub_create_error|done].
  - destruct (is_config_mismatch e), (is_stale_state e); done.
  - by destruct (is_stale_creation e).
Qed.
End errors.

(** ** [retry_open] *)

Section retry.
Context {St A : Type} (attempt_open : St → result A RpcError * St).
(** The stop token, read after a failed attempt, and the sleep. *)
Context (stopped : St → bool) (sleep : St → St).

(** One round: the attempts made so far are counted. *)
Definition retry_body (attempts : nat) (st : nat * St) : (nat * St) + (result A RpcError * nat * St) :=
  let (attempt, s) := st in
  match attempt_open s with
  | (Ok opened, s) => inr (Ok opened, attempt, s)
  | (Err e, s) =>
      if negb (is_retryable e) || (attempts <=? attempt) || stopped s then inr (Err e, attempt, s)
      else inl (S attempt, sleep s)
  end.

Definition retry_open (attempts : nat) (s : St) : result A RpcError * nat * St :=
  rust_loop (retry_body attempts) (λ st, attempts - st.1)
    (λ st, (Err Cancelled, st.1, st.2)) (0, s).

Lemma retry_decreases attempts st st' :
  retry_body attempts st = inl st' → attempts - st'.1 < attempts - st.1.
Proof.
  destruct st as [attempt s]. unfold retry_body. destruct (attempt_open s) as [[a|e] s1]; [done|].
  destruct (negb (is_retryable e) || (attempts <=? attempt) || stopped s1) eqn:Hc; [done|].
  intros [= <-]. apply orb_false_iff in Hc as [[_ Hle%Nat.leb_gt]%orb_false_iff _]. simpl. lia.
Qed.

(** The attempts of a run: each failed with a retryable error and was followed
    by a sleep; the last one gave the answer. *)
Inductive attempts_from : St → nat → result A RpcError → St → Prop :=
| attempt_last s r s' : attempt_open s = (r, s') → attempts_from s 0 r s'
| attempt_again s e s1 n r s' :
    attempt_open s = (Err e, s1) → is_retryable e = true → stopped s1 = false →
    attempts_from (sleep s1) n r s' → attempts_from s (S n) r s'.

(** Opening is retried a bounded number of times and never in vain: the
    loop ends after at most [attempts] retries with the answer of its last
    attempt; every attempt before it failed with a retryable error while no
    stop was asked; and it gives up only on an error that is not retryable
    (such as a configuration mismatch, which is tried once), with the budget
    spent, or when asked to stop. *)
Theorem retry_open_bounded attempts s :
  let '(r, n, s') := retry_open attempts s in
  n ≤ attempts ∧ attempts_from s n r s' ∧
  ∀ e, r = Err e → is_retryable e = false ∨ n = attempts ∨ stopped s' = true.
Proof.
  unfold retry_open.
  pose proof (rust_loop_ind (retry_body attempts) (λ st, attempts - st.1)
    (λ st, (Err Cancelled, st.1, st.2)) (retry_decreases attempts)
    (λ st out, st.1 ≤ attempts → ∃ k, out.1.2 = st.1 + k ∧ out.1.2 ≤ attempts ∧
       attempts_from st.2 k out.1.1 out.2 ∧
       ∀ e, out.1.1 = Err e → is_retryable e = false ∨ out.1.2 = attempts ∨ stopped out.2 = true)) as Hind.
  specialize (Hind) with (s := (0, s)).
  destruct (rust_loop _ _ _ (0, s)) as [[r n] s']. simpl in Hind.
  destruct Hind as (k & -> & Hle & Hat & Hgive); [clear..|lia|done].
  - intros [attempt s] [[r n] s'] Hb Hle. unfold retry_body in Hb. simpl in *.
    destruct (attempt_open s) as [[a|e] s1] eqn:Ho.
    + simplify_eq. exists 0. split_and!; [lia|lia|by apply attempt_last|done].
    + destruct (negb (is_retryable e) || (attempts <=? attempt) || stopped s1) eqn:Hc; simplify_eq.
      exists 0. split_and!; [lia|lia|by apply attempt_last|]. intros e' [= <-].
      apply orb_true_iff in Hc as [[?%negb_true_iff|?%Nat.leb_le]%orb_true_iff|?]; [by left|right; left; lia|by right; right].
  - intros [attempt s] [attempt' s1] [[r n] s'] Hb IH Hle. pose proof Hb as Hd.
    apply retry_decreases in Hd. unfold retry_body in Hb. simpl in *.
    destruct (attempt_open s) as [[a|e] s2] eqn:Ho; [done|].
    destruct (negb (is_retryable e) || (attempts <=? attempt) || stopped s2) eqn:Hc; [done|].
    simplify_eq. apply orb_false_iff in Hc as [[Hr%negb_false_iff Hle'%Nat.leb_gt]%orb_false_iff Hst].
    destruct IH as (k & -> & Hn & Hat & Hgive); [lia|]. exists (S k). split_and!; [lia|lia| |done].
    by eapply attempt_again.
Qed.
End retry.
