(* ===== verification/Process.v ===== *)
(** * The life of a process ([ice-rpc/src/lib.rs], [shutdown.rs], [transport/mod.rs],
    [transport/client.rs])

    A process shares one node and one set of ports per consumed channel; the
    threads that own ports are registered, and the clean shutdown cancels the
    tokens, waits for them, empties the cache and drops the node.  Ports are
    objects named by an index: a set lives while the cache, its dispatch thread
    or a call stream holds it.  What iceoryx2 answers is the interface
    [BusOpen]. *)

From S2P Require Import Prelude MachineInt Text Event Open.

Class BusOpen (W : Type) : Type := {
  create_node : W → result nat string * W;
  (** The services, the publisher, the notifier, the subscriber, the listener. *)
  open_ports : W → nat → string → result () RpcError * W;
  open_sleep : W → W
}.

Record Ports : Type := MkPorts {
  po_channel : string;
  po_node : nat;
  (** The call streams that hold it. *)
  po_streams : nat
}.

(** A thread: the ports a response dispatcher holds, and whether it returned. *)
Record Task : Type := MkTask { ta_ports : option nat; ta_ended : bool }.

Inductive ShutdownPhase : Type := NotStarted | Joining (pending : list nat) | ShutDown.

Section process.
Context {W : Type} `{BusOpen W}.

Record Process : Type := MkProcess {
  pr_world : W;
  pr_global_stop : bool;
  pr_registry_stop : bool;
  pr_node : option (result nat string);
  pr_ports : list Ports;
  pr_cache : gmap string nat;
  pr_tasks : list Task;
  (** [ShutdownRegistry]. *)
  pr_handles : list nat;
  pr_threads : list nat;
  (** [ShutdownGuard]. *)
  pr_done : bool;
  pr_phase : ShutdownPhase
}.

Definition process_new (w : W) : Process :=
  MkProcess w false false None [] ∅ [] [] [] false NotStarted.

(** ** The shared node *)

Definition node_error (e : string) : RpcError := TransportError ("node creation: " +:+ e).

(** [get_or_insert_with]: whatever the creation answered is kept. *)
Definition shared_node (p : Process) : result nat RpcError * Process :=
  let '(slot, w) := match pr_node p with
                    | Some r => (r, pr_world p)
                    | None => create_node (pr_world p)
                    end in
  (match slot with Ok node => Ok node | Err e => Err (node_error e) end,
   MkProcess w (pr_global_stop p) (pr_registry_stop p) (Some slot) (pr_ports p) (pr_cache p)
     (pr_tasks p) (pr_handles p) (pr_threads p) (pr_done p) (pr_phase p)).

Definition release_shared_node (p : Process) : bool * Process :=
  (match pr_node p with Some _ => true | None => false end,
   MkProcess (pr_world p) (pr_global_stop p) (pr_registry_stop p) None (pr_ports p) (pr_cache p)
     (pr_tasks p) (pr_handles p) (pr_threads p) (pr_done p) (pr_phase p)).

(** ** The ports of the consumed channels *)

(** [spawn_response_dispatcher]: the thread holds the ports and is registered. *)
Definition spawn_response_dispatcher (j : nat) (p : Process) : Process :=
  MkProcess (pr_world p) (pr_global_stop p) (pr_registry_stop p) (pr_node p) (pr_ports p) (pr_cache p)
    (pr_tasks p ++ [MkTask (Some j) false]) (pr_handles p ++ [length (pr_tasks p)]) (pr_threads p)
    (pr_done p) (pr_phase p).

Definition open_consumer_ports (channel : string) (p : Process) : result nat RpcError * Process :=
  match shared_node p with
  | (Err e, p1) => (Err e, p1)
  | (Ok node, p1) =>
      let '(opened, w) := open_ports (pr_world p1) node channel in
      let ports := match opened with Ok _ => [MkPorts channel node 0] | Err _ => [] end in
      let p2 := MkProcess w (pr_global_stop p1) (pr_registry_stop p1) (pr_node p1) (pr_ports p1 ++ ports)
                  (pr_cache p1) (pr_tasks p1) (pr_handles p1) (pr_threads p1) (pr_done p1) (pr_phase p1) in
      match opened with
      | Err e => (Err e, p2)
      | Ok _ => (Ok (length (pr_ports p1)), spawn_response_dispatcher (length (pr_ports p1)) p2)
      end
  end.

Definition process_sleep (p : Process) : Process :=
  MkProcess (open_sleep (pr_world p)) (pr_global_stop p) (pr_registry_stop p) (pr_node p) (pr_ports p)
    (pr_cache p) (pr_tasks p) (pr_handles p) (pr_threads p) (pr_done p) (pr_phase p).

(** [consumer_ports], under the lock of the cache. *)
Definition consumer_ports (channel : string) (p : Process) : result nat RpcError * Process :=
  match pr_cache p !! channel with
  | Some j => (Ok j, p)
  | None =>
      let '(r, _, p') := retry_open (open_consumer_ports channel) pr_global_stop process_sleep
                           OPEN_RETRY_ATTEMPTS p in
      match r with
      | Err e => (Err e, p')
      | Ok j =>
          (Ok j, MkProcess (pr_world p') (pr_global_stop p') (pr_registry_stop p') (pr_node p') (pr_ports p')
                   (<[channel := j]> (pr_cache p')) (pr_tasks p') (pr_handles p') (pr_threads p')
                   (pr_done p') (pr_phase p'))
      end
  end.

Definition release_consumer_ports (p : Process) : nat * Process :=
  (size (pr_cache p),
   MkProcess (pr_world p) (pr_global_stop p) (pr_registry_stop p) (pr_node p) (pr_ports p) ∅
     (pr_tasks p) (pr_handles p) (pr_threads p) (pr_done p) (pr_phase p)).

(** A call stream takes hold of its ports, and lets them go. *)
Definition set_streams (f : nat → nat) (j : nat) (p : Process) : Process :=
  MkProcess (pr_world p) (pr_global_stop p) (pr_registry_stop p) (pr_node p)
    (alter (λ o, MkPorts (po_channel o) (po_node o) (f (po_streams o))) j (pr_ports p)) (pr_cache p)
    (pr_tasks p) (pr_handles p) (pr_threads p) (pr_done p) (pr_phase p).

(** ** Threads and tokens *)

(** The thread of a provided channel, registered by [register_shutdown_thread]. *)
Definition start_channel (p : Process) : Process :=
  MkProcess (pr_world p) (pr_global_stop p) (pr_registry_stop p) (pr_node p) (pr_ports p) (pr_cache p)
    (pr_tasks p ++ [MkTask None false]) (pr_handles p) (pr_threads p ++ [length (pr_tasks p)])
    (pr_done p) (pr_phase p).

Definition end_task (t : nat) (p : Process) : Process :=
  MkProcess (pr_world p) (pr_global_stop p) (pr_registry_stop p) (pr_node p) (pr_ports p) (pr_cache p)
    (alter (λ k, MkTask (ta_ports k) true) t (pr_tasks p)) (pr_handles p) (pr_threads p)
    (pr_done p) (pr_phase p).

Definition request_shutdown (p : Process) : Process :=
  MkProcess (pr_world p) true true (pr_node p) (pr_ports p) (pr_cache p)
    (pr_tasks p) (pr_handles p) (pr_threads p) (pr_done p) (pr_phase p).

(** ** The shutdown *)

(** [join_all] takes the handles before it waits for them. *)
Definition join_all (p : Process) : Process :=
  MkProcess (pr_world p) (pr_global_stop p) (pr_registry_stop p) (pr_node p) (pr_ports p) (pr_cache p)
    (pr_tasks p) [] [] (pr_done p) (Joining (pr_handles p ++ pr_threads p)).

(** [ShutdownGuard::shutdown], to its first wait. *)
Definition shutdown (p : Process) : Process :=
  if pr_done p then p
  else
    let p1 := MkProcess (pr_world p) (pr_global_stop p) (pr_registry_stop p) (pr_node p) (pr_ports p)
                (pr_cache p) (pr_tasks p) (pr_handles p) (pr_threads p) true (pr_phase p) in
    join_all (request_shutdown p1).

Definition task_ended (p : Process) (t : nat) : bool :=
  match pr_tasks p !! t with Some k => ta_ended k | None => true end.

Fixpoint drop_ended (p : Process) (pending : list nat) : list nat :=
  match pending with
  | t :: rest => if task_ended p t then drop_ended p rest else pending
  | [] => []
  end.

(** A poll of the wait; once everything is joined, the ports and the node go. *)
Definition join_poll (p : Process) : Process :=
  match pr_phase p with
  | Joining pending =>
      let set_phase ph p := MkProcess (pr_world p) (pr_global_stop p) (pr_registry_stop p) (pr_node p)
        (pr_ports p) (pr_cache p) (pr_tasks p) (pr_handles p) (pr_threads p) (pr_done p) ph in
      match drop_ended p pending with
      | [] => set_phase ShutDown (release_shared_node (release_consumer_ports p).2).2
      | rest => set_phase (Joining rest) p
      end
  | _ => p
  end.

(** [Drop] of the guard. *)
Definition drop_guard (p : Process) : Process := if pr_done p then p else request_shutdown p.

Inductive ProcessStep : Type :=
| PUse (channel : string) (kept : bool)
| PDropStream (j : nat)
| PStartChannel
| PTaskEnds (t : nat)
| PSignal
| PShutdown
| PJoin
| PDropGuard.

Definition process_step (p : Process) (s : ProcessStep) : Process :=
  match s with
  | PUse channel kept =>
      match consumer_ports channel p with
      | (Ok j, p') => if kept then set_streams S j p' else p'
      | (Err _, p') => p'
      end
  | PDropStream j => set_streams pred j p
  | PStartChannel => start_channel p
  | PTaskEnds t => end_task t p
  | PSignal => request_shutdown p
  | PShutdown => shutdown p
  | PJoin => join_poll p
  | PDropGuard => drop_guard p
  end.

Definition run (steps : list ProcessStep) (p : Process) : Process := fold_left process_step steps p.

(** ** Opening *)

(** [p'] differs from [p] by the world, the node and what is given. *)
Definition opened_as (p p' : Process) (ports : list Ports) (tasks : list Task) (handles : list nat) : Prop :=
  pr_global_stop p' = pr_global_stop p ∧ pr_registry_stop p' = pr_registry_stop p ∧
  pr_ports p' = pr_ports p ++ ports ∧ pr_cache p' = pr_cache p ∧ pr_tasks p' = pr_tasks p ++ tasks ∧
  pr_handles p' = pr_handles p ++ handles ∧ pr_threads p' = pr_threads p ∧
  pr_done p' = pr_done p ∧ pr_phase p' = pr_phase p.

(** What an opening does, whether or not it succeeds. *)
Definition opening (channel : string) (p : Process) (r : result nat RpcError) (p' : Process) : Prop :=
  match r with
  | Ok j => j = length (pr_ports p) ∧
      ∃ node, opened_as p p' [MkPorts channel node 0] [MkTask (Some j) false] [length (pr_tasks p)]
  | Err _ => opened_as p p' [] [] []
  end.

Lemma open_consumer_ports_spec channel p :
  opening channel p (open_consumer_ports channel p).1 (open_consumer_ports channel p).2.
Proof.
  unfold open_consumer_ports, shared_node, opening, opened_as.
  destruct (match pr_node p with Some r => (r, pr_world p) | None => create_node (pr_world p) end) as [[node|e] w];
    simpl; rewrite ?app_nil_r; [|done].
  destruct (open_ports w node channel) as [[u|e] w']; simpl; rewrite ?app_nil_r; [|done]. eauto 15.
Qed.

Lemma retry_open_spec channel p :
  let '(r, _, p') := retry_open (open_consumer_ports channel) pr_global_stop process_sleep OPEN_RETRY_ATTEMPTS p in
  opening channel p r p'.
Proof.
  unfold retry_open.
  pose proof (rust_loop_ind _ _ (λ st, (Err Cancelled, st.1, st.2))
    (retry_decreases (open_consumer_ports channel) pr_global_stop process_sleep OPEN_RETRY_ATTEMPTS)
    (λ st r, opening channel st.2 r.1.1 r.2)) as Hind.
  specialize (λ Hret Hstep, Hind Hret Hstep (0, p)). simpl in Hind.
  destruct (rust_loop _ _ _ _) as [[r n] p']. apply Hind; clear Hind.
  - intros [n0 q] [[r0 n1] q'] Hb. unfold retry_body in Hb.
    pose proof (open_consumer_ports_spec channel q) as Hs.
    destruct (open_consumer_ports channel q) as [[j|e] q1]; [by simplify_eq|].
    destruct (negb (is_retryable e) || (OPEN_RETRY_ATTEMPTS <=? n0) || pr_global_stop q1); by simplify_eq.
  - intros [n0 q] [n1 q'] [[r0 n2] q2] Hb Hr. unfold retry_body in Hb.
    pose proof (open_consumer_ports_spec channel q) as Hs.
    destruct (open_consumer_ports channel q) as [[j|e] q1]; [done|].
    destruct (negb (is_retryable e) || (OPEN_RETRY_ATTEMPTS <=? n0) || pr_global_stop q1); [done|]. simplify_eq.
    unfold opening, opened_as, process_sleep in *. simpl in *.
    destruct Hs as (E1 & E2 & E3 & E4 & E5 & E6 & E7 & E8 & E9). rewrite E1, E2, E3, E4, E5, E6, E7, E8, E9, !app_nil_r in Hr.
    by destruct r0; rewrite ?app_nil_r.
Qed.

(** The three outcomes of [consumer_ports]. *)
Lemma consumer_ports_spec channel p :
  match consumer_ports channel p with
  | (Ok j, p') =>
      pr_cache p !! channel = Some j ∧ p' = p ∨
      pr_cache p !! channel = None ∧ j = length (pr_ports p) ∧
      ∃ node p1, opened_as p p1 [MkPorts channel node 0] [MkTask (Some j) false] [length (pr_tasks p)] ∧
        p' = MkProcess (pr_world p1) (pr_global_stop p1) (pr_registry_stop p1) (pr_node p1) (pr_ports p1)
               (<[channel := j]> (pr_cache p1)) (pr_tasks p1) (pr_handles p1) (pr_threads p1)
               (pr_done p1) (pr_phase p1)
  | (Err _, p') => pr_cache p !! channel = None ∧ opened_as p p' [] [] []
  end.
Proof.
  unfold consumer_ports. destruct (pr_cache p !! channel) as [j|] eqn:Hc; [by left|].
  pose proof (retry_open_spec channel p) as Hr.
  destruct (retry_open _ _ _ _ p) as [[[j|e] n] p1]; simpl in Hr; [|done].
  destruct Hr as (-> & node & Hr). right. eauto 10.
Qed.

(** ** One set of ports per channel *)

(** Until the shutdown releases it, the cache has exactly the sets ever opened,
    each under its channel. *)
Definition ports_ok (p : Process) : Prop :=
  pr_phase p ≠ ShutDown →
  NoDup (map po_channel (pr_ports p)) ∧
  ∀ channel j, pr_cache p !! channel = Some j ↔ map po_channel (pr_ports p) !! j = Some channel.

Lemma set_streams_channels f j p : map po_channel (pr_ports (set_streams f j p)) = map po_channel (pr_ports p).
Proof.
  unfold set_streams; simpl. apply list_eq. intros i. rewrite !list_lookup_fmap.
  destruct (decide (i = j)) as [->|Hne]; [rewrite list_lookup_alter_eq|by rewrite list_lookup_alter_ne].
  by destruct (pr_ports p !! j).
Qed.

Lemma ports_ok_eq p p' :
  (pr_phase p' ≠ ShutDown → pr_phase p ≠ ShutDown) →
  map po_channel (pr_ports p') = map po_channel (pr_ports p) → pr_cache p' = pr_cache p →
  ports_ok p → ports_ok p'.
Proof. unfold ports_ok. intros Hph -> -> Hok Hp. auto. Qed.

Lemma consumer_ports_ok channel p : ports_ok p → ports_ok (consumer_ports channel p).2.
Proof.
  intros Hok. pose proof (consumer_ports_spec channel p) as Hs.
  destruct (consumer_ports channel p) as [[j|e] p']; simpl.
  - destruct Hs as [[_ ->]|(Hc & -> & node & p1 & (_ & _ & E3 & E4 & _ & _ & _ & _ & E9) & ->)]; [done|].
    intros Hph. simpl in Hph. rewrite E9 in Hph. destruct (Hok Hph) as [Hnd Hiff]. simpl.
    rewrite E3, E4, map_app. simpl.
    assert (Hfresh : channel ∉ map po_channel (pr_ports p)).
    { intros [j Hj]%list_elem_of_lookup. apply Hiff in Hj. congruence. }
    split; [apply NoDup_app; split_and!; [done|set_solver|apply NoDup_singleton]|]. intros c j.
    destruct (decide (c = channel)) as [->|Hne].
    + rewrite lookup_insert_eq. split.
      * intros [= <-]. rewrite lookup_app_r by (rewrite length_map; lia). by rewrite length_map, Nat.sub_diag.
      * intros [Hl|[Hle Hj]]%lookup_app_Some; [by apply list_elem_of_lookup_2 in Hl|].
        rewrite length_map in *. f_equal. apply lookup_lt_Some in Hj. simpl in Hj. lia.
    + rewrite lookup_insert_ne, Hiff by done. split; [intros; by apply lookup_app_l_Some|].
      intros [Hl|[Hle Hj]]%lookup_app_Some; [done|]. apply list_lookup_singleton_Some in Hj as [_ ?]. congruence.
  - destruct Hs as (_ & _ & _ & E3 & E4 & _ & _ & _ & _ & E9). rewrite app_nil_r in E3.
    eapply ports_ok_eq; [by rewrite E9|by rewrite E3|done|done].
Qed.

(** The guard and the phase agree. *)
Definition phase_ok (p : Process) : Prop := pr_done p = true ∨ pr_phase p = NotStarted.

Lemma consumer_ports_phase channel p :
  pr_done (consumer_ports channel p).2 = pr_done p ∧ pr_phase (consumer_ports channel p).2 = pr_phase p.
Proof.
  pose proof (consumer_ports_spec channel p) as Hs. destruct (consumer_ports channel p) as [[j|e] p']; simpl.
  - destruct Hs as [[_ ->]|(_ & _ & node & p1 & Ho & ->)]; [done|]. by destruct Ho as (_ & _ & _ & _ & _ & _ & _ & E8 & E9).
  - by destruct Hs as (_ & _ & _ & _ & _ & _ & _ & _ & E8 & E9).
Qed.

Lemma process_step_phase_ok p s : phase_ok p → phase_ok (process_step p s).
Proof.
  unfold phase_ok. intros Hok. destruct s as [channel kept|j| |t| | | |]; simpl; try done.
  - destruct (consumer_ports_phase channel p) as [Hd Hph].
    destruct (consumer_ports channel p) as [[j|e] p']; [destruct kept|]; simpl in *; rewrite Hd, Hph; done.
  - unfold shutdown. destruct (pr_done p) eqn:Hd; [by left|]. by left.
  - unfold join_poll. destruct Hok as [Hd|Hn]; [|right; by rewrite Hn]. left.
    destruct (pr_phase p); [done| |done]. by destruct (drop_ended p pending).
  - unfold drop_guard. destruct (pr_done p) eqn:Hd; simpl; rewrite ?Hd; [by left|exact Hok].
Qed.

Lemma process_step_ports_ok p s : phase_ok p → ports_ok p → ports_ok (process_step p s).
Proof.
  intros Hphase Hok. destruct s as [channel kept|j| |t| | | |]; simpl;
    try (eapply ports_ok_eq; [..|exact Hok]; done).
  - pose proof (consumer_ports_ok channel p Hok) as Hc. destruct (consumer_ports channel p) as [[j|e] p']; [|done].
    destruct kept; [|done]. eapply ports_ok_eq; [..|exact Hc]; [done|apply set_streams_channels|done].
  - eapply ports_ok_eq; [..|exact Hok]; [done|apply set_streams_channels|done].
  - unfold shutdown. destruct (pr_done p) eqn:Hd; [done|]. destruct Hphase as [?|Hn]; [congruence|].
    eapply ports_ok_eq; [..|exact Hok]; [by rewrite Hn|done..].
  - unfold join_poll. destruct (pr_phase p) as [|pending|] eqn:Hph; [done| |done].
    destruct (drop_ended p pending); [by intros []|]. eapply ports_ok_eq; [..|exact Hok]; [by rewrite Hph|done..].
  - unfold drop_guard. destruct (pr_done p); [done|]. eapply ports_ok_eq; [..|exact Hok]; done.
Qed.

Lemma run_ok steps p : phase_ok p → ports_ok p → phase_ok (run steps p) ∧ ports_ok (run steps p).
Proof.
  revert p. induction steps as [|s steps IH]; intros p Hph Hok; simpl; [done|].
  apply IH; [by apply process_step_phase_ok|by apply process_step_ports_ok].
Qed.

Lemma process_new_ok w : phase_ok (process_new w) ∧ ports_ok (process_new w).
Proof.
  split; [by right|]. intros _. split; [constructor|]. intros channel j. simpl. by rewrite lookup_empty.
Qed.

(** A process has one set of ports per consumed channel: whatever it does before
    its shutdown releases them, no channel is opened twice, and every call on a
    channel is given the set opened for it. *)
Theorem ports_opened_once steps w channel :
  let p := run steps (process_new w) in
  pr_phase p ≠ ShutDown →
  NoDup (map po_channel (pr_ports p)) ∧
  match consumer_ports channel p with
  | (Ok j, p') => map po_channel (pr_ports p') !! j = Some channel ∧ NoDup (map po_channel (pr_ports p')) ∧
      (consumer_ports channel p') = (Ok j, p')
  | (Err _, p') => channel ∉ map po_channel (pr_ports p') ∧ pr_ports p' = pr_ports p
  end.
Proof.
  intros p Hph. destruct (process_new_ok w) as [H1 H2]. destruct (run_ok steps _ H1 H2) as [Hp Hok]. fold p in Hp, Hok.
  split; [by apply Hok|]. pose proof (consumer_ports_ok channel p Hok) as Hok'.
  destruct (consumer_ports_phase channel p) as [_ Hph']. pose proof (consumer_ports_spec channel p) as Hs.
  destruct (consumer_ports channel p) as [[j|e] p']; simpl in *.
  - destruct Hok' as [Hnd Hiff]; [congruence|].
    assert (Hj : pr_cache p' !! channel = Some j).
    { destruct Hs as [[Hc ->]|(_ & _ & node & p1 & _ & ->)]; [done|]. simpl. apply lookup_insert_eq. }
    split_and!; [by apply Hiff|done|]. unfold consumer_ports. by rewrite Hj.
  - destruct Hs as (Hc & _ & _ & E3 & _). rewrite app_nil_r in E3. split; [|done]. rewrite E3.
    destruct (Hok Hph) as [_ Hiff]. intros [j Hj]%list_elem_of_lookup. apply Hiff in Hj. congruence.
Qed.

(** ** The clean shutdown *)

(** What is still to be waited for. *)
Definition awaited (p : Process) : list nat :=
  pr_handles p ++ pr_threads p ++ match pr_phase p with Joining pending => pending | _ => [] end.

Definition tasks_ok (p : Process) : Prop :=
  ∀ t k, pr_tasks p !! t = Some k → ta_ended k = false → t ∈ awaited p.

Lemma drop_ended_spec p pending t :
  t ∈ pending → task_ended p t = false → t ∈ drop_ended p pending.
Proof.
  induction pending as [|t0 rest IH]; simpl; [done|]. intros [->|Ht]%elem_of_cons He; [rewrite He; by left|].
  destruct (task_ended p t0); [by apply IH|by right].
Qed.

Lemma tasks_ok_eq p p' : pr_tasks p' = pr_tasks p → awaited p' = awaited p → tasks_ok p → tasks_ok p'.
Proof. unfold tasks_ok. intros -> ->. done. Qed.

(** A thread that is started is registered. *)
Lemma tasks_ok_start p p' k0 :
  pr_tasks p' = pr_tasks p ++ [k0] → (∀ t, t = length (pr_tasks p) ∨ t ∈ awaited p → t ∈ awaited p') →
  tasks_ok p → tasks_ok p'.
Proof.
  unfold tasks_ok. intros -> Hsub Hok t k Hk He. apply Hsub.
  apply lookup_app_Some in Hk as [Hk|[Hle Hk]]; [right; by eapply Hok|].
  apply lookup_lt_Some in Hk. simpl in Hk. left. lia.
Qed.

Lemma consumer_ports_tasks_ok channel p : tasks_ok p → tasks_ok (consumer_ports channel p).2.
Proof.
  intros Hok. pose proof (consumer_ports_spec channel p) as Hs. destruct (consumer_ports channel p) as [[j|e] p']; simpl.
  - destruct Hs as [[_ ->]|(_ & -> & node & p1 & (_ & _ & _ & _ & E5 & E6 & E7 & _ & E9) & ->)]; [done|].
    eapply tasks_ok_start; [simpl; exact E5| |done]. intros t. unfold awaited; simpl. rewrite E6, E7, E9. set_solver.
  - destruct Hs as (_ & _ & _ & _ & _ & E5 & E6 & E7 & _ & E9). rewrite app_nil_r in *.
    eapply tasks_ok_eq; [exact E5| |done]. unfold awaited. by rewrite E6, E7, E9.
Qed.

Lemma process_step_tasks_ok p s : phase_ok p → tasks_ok p → tasks_ok (process_step p s).
Proof.
  intros Hphase Hok. destruct s as [channel kept|j| |t| | | |]; simpl; try done.
  - pose proof (consumer_ports_tasks_ok channel p Hok) as Hc.
    destruct (consumer_ports channel p) as [[j|e] p']; [by destruct kept|done].
  - eapply tasks_ok_start; [done| |done]. intros t. unfold awaited; simpl. set_solver.
  - unfold tasks_ok, awaited. simpl. intros t' k Hk He. destruct (decide (t = t')) as [->|Hne].
    + rewrite list_lookup_alter_eq in Hk. apply fmap_Some in Hk as (k0 & _ & ->). done.
    + rewrite list_lookup_alter_ne in Hk by done. by eapply Hok.
  - unfold shutdown. destruct (pr_done p) eqn:Hd; [done|]. destruct Hphase as [?|Hn]; [congruence|].
    unfold tasks_ok, awaited. simpl. intros t k Hk He. specialize (Hok t k Hk He). unfold awaited in Hok.
    rewrite Hn in Hok. set_solver.
  - unfold join_poll. destruct (pr_phase p) as [|pending|] eqn:Hph; [done| |done].
    assert (Hrest : ∀ t k, pr_tasks p !! t = Some k → ta_ended k = false →
      t ∈ pr_handles p ++ pr_threads p ++ drop_ended p pending).
    { intros t k Hk He. specialize (Hok t k Hk He). unfold awaited in Hok. rewrite Hph in Hok.
      rewrite !elem_of_app in *. destruct Hok as [?|[?|Hp]]; [by eauto..|]. right; right.
      apply drop_ended_spec; [done|]. unfold task_ended. by rewrite Hk. }
    by destruct (drop_ended p pending).
  - unfold drop_guard. by destruct (pr_done p).
Qed.

(** Steps that neither open ports nor start threads. *)
Definition quiet_step (s : ProcessStep) : bool :=
  match s with PUse _ _ | PStartChannel => false | _ => true end.

(** The shutdown under way: nothing is registered any more. *)
Definition closing (p : Process) : Prop :=
  pr_done p = true ∧ pr_handles p = [] ∧ pr_threads p = [] ∧ pr_global_stop p = true ∧ pr_registry_stop p = true ∧
  (pr_phase p = ShutDown ∧ pr_cache p = ∅ ∧ pr_node p = None ∨ ∃ pending, pr_phase p = Joining pending).

Lemma quiet_step_closing p s : quiet_step s = true → closing p → closing (process_step p s).
Proof.
  unfold closing. intros Hq (Hd & Hh & Ht & Hg & Hr & Hph). destruct s; simpl in *; try done.
  - unfold shutdown. by rewrite Hd.
  - unfold join_poll. destruct (pr_phase p) as [|pending|] eqn:E; [naive_solver| |by rewrite E].
    destruct (drop_ended p pending); simpl; split_and!; eauto.
  - unfold drop_guard. by rewrite Hd.
Qed.

(** Who holds a set of ports. *)
Definition alive (p : Process) (j : nat) : Prop :=
  (∃ channel, pr_cache p !! channel = Some j) ∨
  (∃ t, pr_tasks p !! t = Some (MkTask (Some j) false)) ∨
  (∃ o, pr_ports p !! j = Some o ∧ 0 < po_streams o).

Lemma run_app steps1 steps2 p : run (steps1 ++ steps2) p = run steps2 (run steps1 p).
Proof. apply fold_left_app. Qed.

Lemma run_tasks_ok steps p : phase_ok p → tasks_ok p → tasks_ok (run steps p).
Proof.
  revert p. induction steps as [|s steps IH]; intros p Hph Hok; simpl; [done|].
  apply IH; [by apply process_step_phase_ok|by apply process_step_tasks_ok].
Qed.

Lemma run_closing steps p : forallb quiet_step steps = true → closing p → closing (run steps p).
Proof.
  revert p. induction steps as [|s steps IH]; intros p; simpl; [done|].
  intros [Hs Hq]%andb_true_iff Hc. apply IH; [done|by apply quiet_step_closing].
Qed.

(** What a process that is closing has let go of. *)
Lemma closing_releases p :
  tasks_ok p → closing p →
  pr_global_stop p = true ∧ pr_registry_stop p = true ∧
  (pr_phase p = ShutDown →
    (∀ t k, pr_tasks p !! t = Some k → ta_ended k = true) ∧ pr_cache p = ∅ ∧ pr_node p = None ∧
    ∀ j, alive p j ↔ ∃ o, pr_ports p !! j = Some o ∧ 0 < po_streams o) ∧
  ((∀ t k, pr_tasks p !! t = Some k → ta_ended k = true) → pr_phase (process_step p PJoin) = ShutDown).
Proof.
  intros Htasks Hc.
  destruct Hc as (_ & Hh & Ht & Hg & Hr & Hphase). split_and!; [done..| |].
  - intros Hsd. destruct Hphase as [(_ & Hcache & Hnode)|[pending Hp]]; [|congruence].
    assert (Hended : ∀ t k, pr_tasks p !! t = Some k → ta_ended k = true).
    { intros t k Hk. destruct (ta_ended k) eqn:He; [done|]. specialize (Htasks t k Hk He).
      unfold awaited in Htasks. rewrite Hh, Ht, Hsd in Htasks. by apply elem_of_nil in Htasks. }
    split_and!; [done..|]. intros j. unfold alive. rewrite Hcache. split; [|by eauto].
    intros [[c Hl]|[[t Hl]|Hs]]; [by rewrite lookup_empty in Hl|by specialize (Hended _ _ Hl)|done].
  - intros Hended. simpl. unfold join_poll. destruct Hphase as [(Hsd & _)|[pending Hp]]; [by rewrite Hsd|]. rewrite Hp.
    assert (Hnil : drop_ended p pending = []).
    { clear Hp. induction pending as [|t rest IH]; simpl; [done|]. unfold task_ended.
      destruct (pr_tasks p !! t) as [k|] eqn:Hk; [rewrite (Hended t k Hk)|]; done. }
    by rewrite Hnil.
Qed.

(** C19. The clean shutdown leaves nothing on the bus.  After any life of the
    process, once the shutdown is begun and as long as nothing is opened behind
    it, whatever else happens: the tokens are cancelled; if it has ended, every
    thread has returned, the cache is empty, the node is released, and a set of
    ports is held only by the call streams the program still has; and it ends,
    at the next poll once the threads have returned. *)
Theorem shutdown_releases steps1 steps2 w :
  pr_done (run steps1 (process_new w)) = false → forallb quiet_step steps2 = true →
  let p := run (steps1 ++ PShutdown :: steps2) (process_new w) in
  pr_global_stop p = true ∧ pr_registry_stop p = true ∧
  (pr_phase p = ShutDown →
    (∀ t k, pr_tasks p !! t = Some k → ta_ended k = true) ∧ pr_cache p = ∅ ∧ pr_node p = None ∧
    ∀ j, alive p j ↔ ∃ o, pr_ports p !! j = Some o ∧ 0 < po_streams o) ∧
  ((∀ t k, pr_tasks p !! t = Some k → ta_ended k = true) → pr_phase (process_step p PJoin) = ShutDown).
Proof.
  intros Hd Hq p. destruct (process_new_ok w) as [Hph0 Hok0].
  assert (Htasks : tasks_ok p) by (apply run_tasks_ok; [done|]; by intros ??).
  assert (Hc : closing p).
  { unfold p. rewrite run_app. simpl. apply run_closing; [done|]. unfold shutdown. rewrite Hd. unfold closing. simpl. eauto 10. }
  by apply closing_releases.
Qed.

(** ** A node that could not be created *)

Lemma open_stuck channel e p : pr_node p = Some (Err e) →
  open_consumer_ports channel p = (Err (node_error e), p).
Proof. intros Hn. unfold open_consumer_ports, shared_node. rewrite Hn. simpl. rewrite <- Hn. by destruct p. Qed.

Lemma retry_stuck channel e attempts m : ∀ n p,
  attempts - n = m → pr_node p = Some (Err e) → pr_global_stop p = false →
  ∃ k p', rust_loop (retry_body (open_consumer_ports channel) pr_global_stop process_sleep attempts)
      (λ st, attempts - st.1) (λ st, (Err Cancelled, st.1, st.2)) (n, p) = (Err (node_error e), k, p') ∧
    pr_node p' = Some (Err e) ∧ pr_cache p' = pr_cache p ∧ pr_global_stop p' = pr_global_stop p ∧
    pr_world p' = Nat.iter m open_sleep (pr_world p).
Proof.
  induction m as [|m IH]; intros n p Hm Hn Hs.
  - rewrite rust_loop_unfold by apply retry_decreases. unfold retry_body at 1. rewrite (open_stuck channel e p Hn).
    rewrite (proj2 (Nat.leb_le attempts n)) by lia. rewrite orb_true_r. by exists n, p.
  - rewrite rust_loop_unfold by apply retry_decreases. unfold retry_body at 1. rewrite (open_stuck channel e p Hn), Hs.
    rewrite (proj2 (Nat.leb_gt attempts n)) by lia. simpl is_retryable. simpl orb. cbn [negb].
    destruct (IH (S n) (process_sleep p)) as (k & p' & -> & Hn' & Hc' & Hs' & Hw'); [lia|done|done|].
    exists k, p'. split_and!; [done|done|done|by rewrite Hs'|]. rewrite Hw'. unfold process_sleep. simpl pr_world.
    by rewrite Nat.iter_swap.
Qed.

Lemma call_stuck channel e (p : Process) :
  pr_node p = Some (Err e) → pr_cache p !! channel = None →
  ∃ p', consumer_ports channel p = (Err (node_error e), p') ∧
    pr_node p' = Some (Err e) ∧ pr_cache p' = pr_cache p ∧ pr_global_stop p' = pr_global_stop p ∧
    pr_world p' = Nat.iter (if pr_global_stop p then 0 else OPEN_RETRY_ATTEMPTS) open_sleep (pr_world p).
Proof.
  intros Hn Hc. unfold consumer_ports. rewrite Hc. unfold retry_open. destruct (pr_global_stop p) eqn:Hs.
  - rewrite rust_loop_unfold by apply retry_decreases. unfold retry_body at 1.
    rewrite (open_stuck channel e p Hn), Hs, orb_true_r. by exists p.
  - destruct (retry_stuck channel e OPEN_RETRY_ATTEMPTS OPEN_RETRY_ATTEMPTS 0 p) as (k & p' & -> & ? & ? & ? & ?);
      [lia|done..|]. exists p'. split_and!; congruence.
Qed.

(** The first call: its first attempt asks for the node. *)
Definition node_failed (e : string) (w : W) (p : Process) : Process :=
  MkProcess w (pr_global_stop p) (pr_registry_stop p) (Some (Err e)) (pr_ports p) (pr_cache p)
    (pr_tasks p) (pr_handles p) (pr_threads p) (pr_done p) (pr_phase p).

Lemma first_call channel e w1 (p : Process) :
  pr_node p = None → create_node (pr_world p) = (Err e, w1) →
  consumer_ports channel p =
    match pr_cache p !! channel with Some j => (Ok j, p) | None => consumer_ports channel (node_failed e w1 p) end.
Proof.
  intros Hn Hw. unfold consumer_ports. simpl pr_cache. destruct (pr_cache p !! channel) eqn:Hc; [done|].
  unfold retry_open. rewrite !(rust_loop_unfold _ _ _ (retry_decreases _ _ _ _)). unfold retry_body at 1 3.
  rewrite (open_stuck channel e (node_failed e w1 p)) by done.
  assert (open_consumer_ports channel p = (Err (node_error e), node_failed e w1 p)) as ->; [|done].
  unfold open_consumer_ports, shared_node. by rewrite Hn, Hw.
Qed.

(** The calls of these channels, one after the other. *)
Fixpoint use_each (channels : list string) (p : Process) : list (result nat RpcError) * Process :=
  match channels with
  | [] => ([], p)
  | channel :: rest =>
      let (r, p1) := consumer_ports channel p in
      let (rs, p2) := use_each rest p1 in (r :: rs, p2)
  end.

Lemma use_each_stuck channels e (p : Process) :
  pr_node p = Some (Err e) → (∀ channel, channel ∈ channels → pr_cache p !! channel = None) →
  let (answers, p') := use_each channels p in
  answers = replicate (length channels) (Err (node_error e)) ∧ pr_node p' = Some (Err e) ∧ pr_cache p' = pr_cache p ∧
  pr_world p' = Nat.iter (length channels * if pr_global_stop p then 0 else OPEN_RETRY_ATTEMPTS) open_sleep (pr_world p).
Proof.
  revert p. induction channels as [|channel rest IH]; intros p Hn Hc; [done|]. cbn [use_each].
  destruct (call_stuck channel e p Hn (Hc channel ltac:(left))) as (p1 & -> & Hn1 & Hc1 & Hs1 & Hw1).
  specialize (IH p1 Hn1). destruct (use_each rest p1) as [rs p2]. destruct IH as (-> & Hn2 & Hc2 & Hw2).
  { intros c Hin. rewrite Hc1. apply Hc. by right. }
  split_and!; [done|done|congruence|]. rewrite Hw2, Hs1, Hw1. cbn [length]. rewrite Nat.mul_succ_l. by rewrite Nat.iter_add.
Qed.

(** C38. A failed creation of the node is kept: once a call found no node and the bus
    refused to create one, every call of a channel that is not open, that one and any
    later, on whatever channel, is answered with that failure, though the bus
    might grant a node by then; it is not asked again, neither by the retries of
    the opening nor by the calls: they do nothing but wait. *)
Theorem node_failure_sticks channel later e w1 (p : Process) :
  pr_node p = None → create_node (pr_world p) = (Err e, w1) →
  (∀ c, c ∈ channel :: later → pr_cache p !! c = None) →
  let (answers, p') := use_each (channel :: later) p in
  answers = replicate (S (length later)) (Err (node_error e)) ∧ pr_node p' = Some (Err e) ∧ pr_cache p' = pr_cache p ∧
  pr_world p' = Nat.iter (S (length later) * if pr_global_stop p then 0 else OPEN_RETRY_ATTEMPTS) open_sleep w1.
Proof.
  intros Hn Hw Hc. pose proof (use_each_stuck (channel :: later) e (node_failed e w1 p) eq_refl Hc) as Hs.
  cbn [use_each] in *. rewrite (first_call channel e w1 p Hn Hw), (Hc channel) by left. exact Hs.
Qed.
End process.

(** ** A bus for the examples: what it answers, in order *)

#[export] Instance ListBus : BusOpen (list bool) := {
  create_node w := match w with
                   | true :: w' => (Ok 0, w')
                   | false :: w' => (Err "InternalError"%string, w')
                   | [] => (Ok 0, [])
                   end;
  open_ports w _ _ := match w with
                      | false :: w' => (Err (TransportError "SystemInFlux"), w')
                      | _ :: w' => (Ok (), w')
                      | [] => (Ok (), [])
                      end;
  open_sleep w := w
}.

Lemma ports_opened_once_witness :
  NoDup (map po_channel (pr_ports (run [PUse "a" true; PUse "b" false; PUse "a" true] (process_new [true; false; true])))).
Proof.
  apply (ports_opened_once [PUse "a" true; PUse "b" false; PUse "a" true] [true; false; true] "c"). by vm_compute.
Defined.

(** Two consumed channels, a provided one, a stream still held: the program
    waits for its three threads. *)
Lemma shutdown_releases_witness :
  pr_cache (run ([PUse "a" true; PUse "b" false; PStartChannel] ++
                 PShutdown :: [PTaskEnds 0; PJoin; PTaskEnds 2; PTaskEnds 1; PJoin]) (process_new (W:=list bool) [])) = ∅.
Proof.
  refine (proj1 (proj2 (proj1 (proj2 (proj2 (shutdown_releases (W:=list bool)
    [PUse "a" true; PUse "b" false; PStartChannel] [PTaskEnds 0; PJoin; PTaskEnds 2; PTaskEnds 1; PJoin] [] _ _))) _)));
    by vm_compute.
Defined.

Lemma node_failure_sticks_witness :
  (use_each ["a"; "b"]%string (process_new [false])).1 = [Err (node_error "InternalError"); Err (node_error "InternalError")].
Proof.
  pose proof (node_failure_sticks "a" ["b"%string] "InternalError" [] (process_new [false]) eq_refl eq_refl) as Ht.
  destruct (use_each _ _) as [answers p'] in Ht |- *. destruct Ht as [-> _]; [|reflexivity].
  intros c _. apply lookup_empty.
Defined.
