(* ===== verification/Correlate.v ===== *)
(** * Loss detection and call correlation ([ice-rpc-monitor/src/loss.rs], [correlate.rs])

    The two tables of the observer: the last sequence number of each publisher,
    and the calls whose response stream is still open.  The order in which a
    [HashMap] is walked is not specified: it is an argument ([HashIter]). *)

From S2P Require Import Prelude MachineInt Header.

Local Open Scope Z_scope.

(** ** The order of a hash map *)

Class HashIter : Type :=
  hash_iter : ∀ {K V : Type} `{Countable K}, gmap K V → list (K * V).

Class HashIterLaws `{HashIter} : Prop :=
  hash_iter_perm : ∀ {K V : Type} `{Countable K} (m : gmap K V), hash_iter m ≡ₚ map_to_list m.

(** One order, for the examples. *)
#[export] Instance KeyIter : HashIter := λ K V _ _ m, map_to_list m.
#[export] Instance KeyIter_laws : HashIterLaws (H:=KeyIter).
Proof. by intros K V Heq Hc m. Qed.

(** [Iterator::min_by_key]: the first of the least ones. *)
Definition min_by_key {A} (key : A → Z) (l : list A) : option A :=
  fold_left (λ best x,
    match best with
    | None => Some x
    | Some b => if key x <? key b then Some x else Some b
    end) l None.

(** ** Loss *)

Record LossTracker : Type := MkLossTracker { lt_last : gmap Z Z }.

Definition loss_default : LossTracker := MkLossTracker ∅.

Definition observe (publisher_id seq : Z) (self : LossTracker) : Z * LossTracker :=
  (match lt_last self !! publisher_id with
   | Some previous => if sat_add 64 previous 1 <? seq then seq - previous - 1 else 0
   | None => 0
   end,
   MkLossTracker (<[publisher_id := seq]> (lt_last self))).

Definition tracked (self : LossTracker) : nat := size (lt_last self).

(** ** The table of calls *)

Record PendingCall : Type := MkPendingCall {
  pc_channel : string;
  pc_service_id : Z;
  pc_method : string;
  pc_request_ts_ns : Z;
  pc_request_bytes : Z;
  pc_request_text : option string;
  pc_first_response_seen : bool;
  pc_started : Z
}.

(** [new], read at the instant [now]. *)
Definition pending_call_new (channel : string) (service_id : Z) (method : string)
    (request_ts_ns request_bytes : Z) (request_text : option string) (now : Z) : PendingCall :=
  MkPendingCall channel service_id method request_ts_ns request_bytes request_text false now.

(** [Instant::elapsed] saturates at zero. *)
Definition age (now : Z) (c : PendingCall) : Z := Z.max 0 (now - pc_started c).

Definition seen_first (c : PendingCall) : PendingCall :=
  MkPendingCall (pc_channel c) (pc_service_id c) (pc_method c) (pc_request_ts_ns c)
    (pc_request_bytes c) (pc_request_text c) true (pc_started c).

Inductive Resolution : Type :=
| Matched (call : PendingCall)
| Unknown.

Record Correlate : Type := MkCorrelate {
  co_entries : gmap bytes PendingCall;
  co_max : nat;
  co_ttl : Z
}.

Definition correlate_new (max : nat) (ttl : Z) : Correlate := MkCorrelate ∅ max ttl.

Definition set_entries (self : Correlate) (entries : gmap bytes PendingCall) : Correlate :=
  MkCorrelate entries (co_max self) (co_ttl self).

Definition contains (cid : bytes) (self : Correlate) : bool :=
  bool_decide (is_Some (co_entries self !! cid)).

Section operations.
Context `{HashIter}.

(** The call to make room with, and the table without it. *)
Definition evict_oldest (self : Correlate) : list PendingCall * gmap bytes PendingCall :=
  if bool_decide (co_max self ≤ size (co_entries self))%nat then
    match min_by_key (λ e, pc_started e.2) (hash_iter (co_entries self)) with
    | Some (oldest, _) =>
        match co_entries self !! oldest with
        | Some call => ([call], delete oldest (co_entries self))
        | None => ([], co_entries self)
        end
    | None => ([], co_entries self)
    end
  else ([], co_entries self).

Definition correlate_insert (cid : bytes) (call : PendingCall) (self : Correlate)
    : list PendingCall * Correlate :=
  let (evicted, entries) := evict_oldest self in
  (evicted, set_entries self (<[cid := call]> entries)).

Definition correlate_on_response (cid : bytes) (terminal : bool) (self : Correlate)
    : Resolution * Correlate :=
  if terminal then
    match co_entries self !! cid with
    | Some call => (Matched call, set_entries self (delete cid (co_entries self)))
    | None => (Unknown, set_entries self (delete cid (co_entries self)))
    end
  else
    match co_entries self !! cid with
    | Some call => (Matched call, set_entries self (<[cid := seen_first call]> (co_entries self)))
    | None => (Unknown, self)
    end.

(** [retain], with the evicted calls in the order of the walk. *)
Definition correlate_sweep (now : Z) (self : Correlate) : list PendingCall * Correlate :=
  (map snd (filter (λ e, co_ttl self ≤ age now e.2) (hash_iter (co_entries self))),
   set_entries self (filter (λ e, age now e.2 < co_ttl self) (co_entries self))).
End operations.

(** ** Loss: what is counted *)

(** The reports of a run of observations, with their publisher. *)
Fixpoint observe_all (l : list (Z * Z)) (t : LossTracker) : list (Z * Z) :=
  match l with
  | [] => []
  | (p, seq) :: l' => (p, (observe p seq t).1) :: observe_all l' (observe p seq t).2
  end.

Definition of_publisher (p : Z) (l : list (Z * Z)) : list Z :=
  map snd (filter (λ e, e.1 = p) l).

Definition total (l : list Z) : Z := fold_right Z.add 0 l.

(** Numbers that follow each other upwards. *)
Fixpoint increasing (l : list Z) : Prop :=
  match l with
  | a :: ((b :: _) as l') => a < b ∧ increasing l'
  | _ => True
  end.

Lemma observe_step p seq prev t :
  lt_last t !! p = Some prev → prev < seq → u64 seq → (observe p seq t).1 = seq - prev - 1.
Proof.
  intros Hl Hlt Hs. unfold observe. rewrite Hl. simpl. unfold sat_add, fits in *.
  destruct (Z.ltb_spec (Z.min (2 ^ 64 - 1) (prev + 1)) seq); lia.
Qed.

Lemma of_publisher_cons p q x l :
  of_publisher p ((q, x) :: l) = if decide (q = p) then x :: of_publisher p l else of_publisher p l.
Proof. unfold of_publisher. rewrite filter_cons. simpl. by repeat case_decide. Qed.

Lemma last_default {A} (b : A) r x y : List.last (b :: r) x = List.last (b :: r) y.
Proof. revert b. induction r as [|c r IH]; intros b; [done|]. apply (IH c). Qed.

(** From a known last number on, the reports of a publisher add up to the holes. *)
Lemma holes_after p l t prev :
  lt_last t !! p = Some prev → increasing (prev :: of_publisher p l) → Forall u64 (of_publisher p l) →
  total (of_publisher p (observe_all l t)) =
  List.last (of_publisher p l) prev - prev - Z.of_nat (length (of_publisher p l)).
Proof.
  revert t prev. induction l as [|[q seq] l IH]; intros t prev Hl Hinc Hu; [simpl; lia|].
  cbn [observe_all]. rewrite !of_publisher_cons in *. destruct (decide (q = p)) as [->|Hne].
  - destruct Hinc as [Hlt Hinc]. apply Forall_cons in Hu as [Hs Hu].
    change (total (?x :: ?r)) with (x + total r).
    rewrite (observe_step p seq prev), (IH _ seq) by (first [done|apply lookup_insert_eq]).
    destruct (of_publisher p l) as [|b r] eqn:E; [simpl; lia|].
    change (List.last (seq :: b :: r) prev) with (List.last (b :: r) prev).
    rewrite (last_default b r seq prev). cbn [length]. lia.
  - apply IH; [|done|done]. simpl. by rewrite lookup_insert_ne.
Qed.

(** The observer counts exactly what it missed: however the publishers
    interleave, when the numbers observed of one of them increase, what the
    tracker has reported for it is the number of samples published between the
    first and the last one observed and not observed themselves. *)
Theorem loss_counts_holes p l :
  increasing (of_publisher p l) → Forall u64 (of_publisher p l) →
  total (of_publisher p (observe_all l loss_default)) =
  match of_publisher p l with
  | [] => 0
  | first :: _ => List.last (of_publisher p l) first - first + 1 - Z.of_nat (length (of_publisher p l))
  end.
Proof.
  assert (Hnone : lt_last loss_default !! p = None) by apply lookup_empty.
  revert Hnone. generalize loss_default as t.
  induction l as [|[q seq] l IH]; intros t Hnone Hinc Hu; [done|].
  cbn [observe_all]. rewrite !of_publisher_cons in *. destruct (decide (q = p)) as [->|Hne].
  - apply Forall_cons in Hu as [Hs Hu]. change (total (?x :: ?r)) with (x + total r).
    rewrite (holes_after p l _ seq) by (first [done|apply lookup_insert_eq]).
    unfold observe. rewrite Hnone. simpl.
    destruct (of_publisher p l) as [|b r]; simpl in *; lia.
  - apply IH; [|done|done]. simpl. by rewrite lookup_insert_ne.
Qed.

Lemma loss_counts_holes_witness :
  total (of_publisher 7 (observe_all [(7, 3); (9, 1); (7, 4); (7, 8); (9, 5); (7, 10)] loss_default)) = 4.
Proof.
  exact (loss_counts_holes 7 [(7, 3); (9, 1); (7, 4); (7, 8); (9, 5); (7, 10)]
    ltac:(vm_compute; auto) ltac:(repeat constructor; vm_compute; congruence)).
Defined.

(** ** The table: what each operation does *)

Lemma min_by_key_spec {A} (key : A → Z) l x :
  min_by_key key l = Some x → x ∈ l ∧ ∀ y, y ∈ l → key x ≤ key y.
Proof.
  unfold min_by_key. revert x. induction l as [|a l IH] using rev_ind; intros x; [done|].
  rewrite fold_left_app. simpl. destruct (fold_left _ l None) as [b|] eqn:Hb.
  - destruct (IH b eq_refl) as [Hin Hmin]. destruct (Z.ltb_spec (key a) (key b)); intros; simplify_eq.
    + split; [apply elem_of_app; right; by apply list_elem_of_singleton|].
      intros y [Hy| ->%list_elem_of_singleton]%elem_of_app; [specialize (Hmin y Hy)|]; lia.
    + split; [apply elem_of_app; by left|].
      intros y [Hy| ->%list_elem_of_singleton]%elem_of_app; [by apply Hmin|lia].
  - intros. simplify_eq. destruct l as [|c l _] using rev_ind.
    + split; [by apply list_elem_of_singleton|]. intros y ->%list_elem_of_singleton. lia.
    + rewrite fold_left_app in Hb. simpl in Hb. destruct (fold_left _ l None); [|done].
      by case_match.
Qed.

Lemma min_by_key_some {A} (key : A → Z) l : l ≠ [] → is_Some (min_by_key key l).
Proof.
  intros Hl. destruct l as [|c l _] using rev_ind; [done|]. unfold min_by_key.
  rewrite fold_left_app. simpl. destruct (fold_left _ l None) as [b|]; [|by eexists].
  destruct (key c <? key b); by eexists.
Qed.

Section facts.
Context `{HashIterLaws}.

Lemma elem_of_hash_iter {V} (m : gmap bytes V) k v : (k, v) ∈ hash_iter m ↔ m !! k = Some v.
Proof. rewrite hash_iter_perm. apply elem_of_map_to_list. Qed.

(** Making room: nothing to do, or the oldest call leaves. *)
Lemma evict_oldest_spec self :
  (evict_oldest self = ([], co_entries self) ∧
   (size (co_entries self) < co_max self ∨ co_entries self = ∅)%nat) ∨
  ∃ cid call, (co_max self ≤ size (co_entries self))%nat ∧ co_entries self !! cid = Some call ∧
    evict_oldest self = ([call], delete cid (co_entries self)) ∧
    ∀ k c, co_entries self !! k = Some c → pc_started call ≤ pc_started c.
Proof.
  unfold evict_oldest. case_bool_decide as Hsize; [|left; split; [done|left; lia]].
  destruct (decide (co_entries self = ∅)) as [He|He].
  { left. destruct (min_by_key _ _) as [[k c]|] eqn:Hm; [|by auto].
    apply min_by_key_spec in Hm as [Hin _]. apply elem_of_hash_iter in Hin.
    by rewrite He, lookup_empty in Hin. }
  right. destruct (min_by_key_some (λ e, pc_started e.2) (hash_iter (co_entries self))) as [[k c] Hm].
  { intros Hnil. apply He, map_eq. intros k. rewrite lookup_empty.
    destruct (co_entries self !! k) as [c|] eqn:Hk; [|done].
    apply elem_of_hash_iter in Hk. rewrite Hnil in Hk. by apply elem_of_nil in Hk. }
  rewrite Hm. apply min_by_key_spec in Hm as [Hin Hmin]. apply elem_of_hash_iter in Hin.
  exists k, c. rewrite Hin. split_and!; [done..|]. intros k' c' Hk'.
  apply (Hmin (k', c')). by apply elem_of_hash_iter.
Qed.

Lemma correlate_insert_bounded cid call self :
  (size (co_entries self) ≤ Nat.max 1 (co_max self))%nat →
  (size (co_entries (correlate_insert cid call self).2) ≤ Nat.max 1 (co_max self))%nat.
Proof.
  intros Hle. unfold correlate_insert.
  destruct (evict_oldest_spec self) as [[-> Hroom]|(k & c & Hfull & Hk & -> & _)]; simpl.
  - rewrite map_size_insert. destruct (co_entries self !! cid); [exact Hle|].
    destruct Hroom as [Hroom|Hroom]; [lia|]. rewrite Hroom, map_size_empty in *. lia.
  - rewrite map_size_insert, map_size_delete, Hk.
    assert (0 < size (co_entries self))%nat.
    { destruct (decide (size (co_entries self) = 0)%nat) as [Hz|Hz]; [|lia].
      apply map_size_empty_inv in Hz. by rewrite Hz, lookup_empty in Hk. }
    destruct (delete k (co_entries self) !! cid); unfold id; lia.
Qed.
End facts.

(** ** Calls by service *)

Definition call_key (c : PendingCall) : string * Z := (pc_channel c, pc_service_id c).

(** The calls of a service that are tracked, and those of a list. *)
Definition calls_of (key : string * Z) (m : gmap bytes PendingCall) : Z :=
  Z.of_nat (size (filter (λ e, call_key e.2 = key) m)).

Definition calls_among (key : string * Z) (l : list PendingCall) : Z :=
  Z.of_nat (length (filter (λ c, call_key c = key) l)).

Lemma calls_of_insert key m cid c :
  m !! cid = None → calls_of key (<[cid := c]> m) = calls_of key m + calls_among key [c].
Proof.
  intros Hm. unfold calls_of, calls_among. rewrite filter_cons, filter_nil.
  case_decide as Hk.
  - rewrite map_filter_insert_True by done. rewrite map_size_insert.
    rewrite map_lookup_filter_None_2 by (by left). simpl. lia.
  - rewrite map_filter_insert_False by done. rewrite delete_id by done. simpl. lia.
Qed.

Lemma calls_of_delete key m cid c :
  m !! cid = Some c → calls_of key (delete cid m) = calls_of key m - calls_among key [c].
Proof.
  intros Hm. rewrite <- (insert_delete_id m cid c Hm) at 2.
  rewrite calls_of_insert by apply lookup_delete_eq. lia.
Qed.

Lemma calls_of_update key m cid c c' :
  m !! cid = Some c → call_key c' = call_key c → calls_of key (<[cid := c']> m) = calls_of key m.
Proof.
  intros Hm Hk. rewrite <- insert_delete_eq. rewrite calls_of_insert by apply lookup_delete_eq.
  rewrite (calls_of_delete key m cid c Hm). unfold calls_among.
  rewrite !filter_cons, !filter_nil, Hk. case_decide; simpl; lia.
Qed.

Lemma calls_among_one key c : calls_among key [c] = if decide (call_key c = key) then 1 else 0.
Proof. unfold calls_among. rewrite filter_cons, filter_nil. by case_decide. Qed.

Lemma calls_among_cons key c l : calls_among key (c :: l) = calls_among key [c] + calls_among key l.
Proof. unfold calls_among. rewrite !filter_cons, filter_nil. case_decide; simpl; lia. Qed.

#[export] Instance calls_among_perm key : Proper ((≡ₚ) ==> (=)) (calls_among key).
Proof. intros l l' Hl. unfold calls_among. by rewrite Hl. Qed.

Lemma calls_of_list key m : calls_of key m = calls_among key (map snd (map_to_list m)).
Proof.
  induction m as [|cid c m Hm IH] using map_ind; [done|].
  rewrite calls_of_insert, map_to_list_insert by done. cbn [map snd].
  rewrite (calls_among_cons key c (map snd (map_to_list m))). lia.
Qed.

Lemma calls_among_split key (p : PendingCall → Prop) `{!∀ c, Decision (p c)} l :
  calls_among key l = calls_among key (filter p l) + calls_among key (filter (λ c, ¬ p c) l).
Proof.
  induction l as [|c l IH]; [done|]. rewrite calls_among_cons, !filter_cons.
  destruct (decide (p c)) as [Hp|Hp].
  - rewrite decide_False by tauto. rewrite (calls_among_cons _ _ (filter p l)). lia.
  - rewrite decide_True by done. rewrite (calls_among_cons _ _ (filter (λ c, ¬ p c) l)). lia.
Qed.

Section sweep.
Context `{HashIterLaws}.

Lemma filter_snd (p : PendingCall → Prop) `{!∀ c, Decision (p c)} (l : list (bytes * PendingCall)) :
  map snd (filter (λ e, p e.2) l) = filter p (map snd l).
Proof.
  induction l as [|[k c] l IH]; [done|]. cbn [map snd]. rewrite !filter_cons. cbn [snd].
  destruct (decide (p c)); cbn [map snd]; by rewrite IH.
Qed.

Lemma calls_of_filter (key : string * Z) (p q : PendingCall → Prop)
    `{Hdp : !∀ c, Decision (p c)} `{Hdq : !∀ c, Decision (q c)} (m : gmap bytes PendingCall) :
  (∀ c, q c ↔ ¬ p c) →
  calls_of key (filter (λ e, q e.2) m) + calls_among key (filter p (map snd (map_to_list m))) =
  calls_of key m.
Proof.
  intros Hpq. induction m as [|cid c m Hm IH] using map_ind; [done|].
  rewrite (calls_of_insert key m) by done. rewrite map_to_list_insert by done.
  cbn [map snd]. rewrite filter_cons. destruct (decide (p c)) as [Hp|Hp].
  - rewrite map_filter_insert_False by (simpl; rewrite Hpq; tauto). rewrite delete_id by done.
    rewrite (calls_among_cons key c (filter p _)). lia.
  - rewrite map_filter_insert_True by (simpl; by rewrite Hpq).
    rewrite calls_of_insert by (apply map_lookup_filter_None_2; by left). lia.
Qed.

(** Sweeping gives up exactly the calls that are old enough. *)
Lemma sweep_calls_of now self key :
  calls_of key (co_entries (correlate_sweep now self).2) =
  calls_of key (co_entries self) - calls_among key (correlate_sweep now self).1.
Proof.
  unfold correlate_sweep. cbn [fst snd co_entries set_entries].
  pose proof (filter_snd (λ c, co_ttl self ≤ age now c) (hash_iter (co_entries self))) as Hsnd.
  cbn beta in Hsnd. rewrite Hsnd, hash_iter_perm.
  pose proof (calls_of_filter key (λ c, co_ttl self ≤ age now c) (λ c, age now c < co_ttl self)
    (co_entries self)) as Hsplit.
  cbn beta in Hsplit. rewrite <- Hsplit by (intros c; lia). lia.
Qed.
End sweep.
