(* ===== verification/Metrics.v ===== *)
(** * Metrics of the observer ([ice-rpc-monitor/src/metrics.rs], [metrics/render.rs])

    Counters and gauges by label, and the histograms with the quantiles read
    from them.  A [f64] is the binary64 value of the specification of floating
    point numbers of the Standard Library ([spec_float], 53 bits of mantissa,
    exponents up to 1024), with its rounding. *)

From Stdlib Require Import SpecFloat.
From S2P Require Import Prelude MachineInt Correlate.

Local Open Scope Z_scope.

(** ** Floating point *)

Abbreviation f64 := spec_float.

(** [z as f64], [+], [/], [*] and [<=]. *)
Definition f64_of_Z (z : Z) : f64 := binary_normalize 53 1024 z 0 false.
Definition f64_add : f64 → f64 → f64 := SFadd 53 1024.
Definition f64_div : f64 → f64 → f64 := SFdiv 53 1024.
Definition f64_mul : f64 → f64 → f64 := SFmul 53 1024.
Definition f64_le : f64 → f64 → bool := SFleb.

(** A decimal literal: the quotient is rounded once, as the literal is. *)
Definition f64_lit (num den : Z) : f64 := f64_div (f64_of_Z num) (f64_of_Z den).

(** [x.ceil() as u64]: the cast saturates, and takes what is not a number to 0. *)
Definition f64_ceil_u64 (x : f64) : Z :=
  match x with
  | S754_zero _ | S754_nan => 0
  | S754_infinity s => if s then 0 else 2 ^ 64 - 1
  | S754_finite true _ _ => 0
  | S754_finite false m e =>
      Z.min (2 ^ 64 - 1)
        (if 0 <=? e then Zpos m * 2 ^ e else - ((- Zpos m) / 2 ^ (- e)))
  end.

(** ** Histograms *)

Definition LATENCY_BOUNDS : list f64 :=
  [f64_lit 1 10000; f64_lit 25 100000; f64_lit 5 10000; f64_lit 1 1000; f64_lit 25 10000;
   f64_lit 5 1000; f64_lit 1 100; f64_lit 25 1000; f64_lit 5 100; f64_lit 1 10; f64_lit 25 100;
   f64_lit 5 10; f64_of_Z 1; f64_lit 25 10; f64_of_Z 5; f64_of_Z 10].

Definition PAYLOAD_BOUNDS : list f64 :=
  map f64_of_Z [16; 64; 256; 1024; 4096; 16384; 65536; 262144; 1048576].

Record Histogram : Type := MkHistogram {
  hi_buckets : list Z;
  hi_sum : f64;
  hi_count : Z
}.

Definition histogram_empty (bounds : list f64) : Histogram :=
  MkHistogram (replicate (length bounds) 0) (f64_of_Z 0) 0.

Definition histogram_observe (value : f64) (bounds : list f64) (self : Histogram) : Histogram :=
  MkHistogram
    (zip_with (λ slot bound, if f64_le value bound then slot + 1 else slot) (hi_buckets self) bounds)
    (f64_add (hi_sum self) value) (hi_count self + 1).

(** [histogram_merge]: a histogram with fewer buckets leaves the others as they are. *)
Fixpoint add_buckets (slots values : list Z) : list Z :=
  match slots, values with
  | slot :: slots', value :: values' => (slot + value) :: add_buckets slots' values'
  | slots, _ => slots
  end.

Definition histogram_merge (histograms : list Histogram) (bounds : list f64) : Histogram :=
  fold_left (λ merged h,
    MkHistogram (add_buckets (hi_buckets merged) (hi_buckets h))
      (f64_add (hi_sum merged) (hi_sum h)) (hi_count merged + hi_count h))
    histograms (histogram_empty bounds).

Definition quantile_target (count : Z) (q : f64) : Z :=
  Z.max 1 (f64_ceil_u64 (f64_mul q (f64_of_Z count))).

Definition quantile (histogram : Histogram) (bounds : list f64) (q : f64) : option f64 :=
  if hi_count histogram =? 0 then None
  else
    let target := quantile_target (hi_count histogram) q in
    match find (λ sb, target <=? sb.1) (zip (hi_buckets histogram) bounds) with
    | Some (_, bound) => Some bound
    | None => Some (S754_infinity false)
    end.

(** ** The registry *)

Inductive Direction : Type := DRequest | DResponse.

#[export] Instance Direction_eq_dec : EqDecision Direction.
Proof. solve_decision. Defined.

Definition direction_label (direction : Direction) : string :=
  match direction with DRequest => "req" | DResponse => "resp" end.

(** The traffic counters of [Inner]. *)
Record Metrics : Type := MkMetrics {
  m_requests : gmap (string * Z * string) Z;
  m_responses : gmap (string * Z * string) Z;
  m_latency : gmap (string * Z * string) Histogram;
  m_payload : gmap (string * string) Histogram;
  m_inflight : gmap (string * Z) Z;
  m_unmatched : gmap string Z;
  m_orphan : gmap string Z;
  m_sample_gaps : Z;
  m_clock_skew : Z;
  m_nodes_alive : Z;
  m_node_crashes : Z
}.

Definition metrics_new : Metrics := MkMetrics ∅ ∅ ∅ ∅ ∅ ∅ ∅ 0 0 0 0.

(** [*map.entry(key).or_default() += delta]. *)
Definition bump {K} `{Countable K} (delta : Z) (key : K) (map : gmap K Z) : gmap K Z :=
  <[key := default 0 (map !! key) + delta]> map.

Definition on_request (channel : string) (service_id : Z) (method : string) (m : Metrics) : Metrics :=
  MkMetrics (bump 1 (channel, service_id, method) (m_requests m)) (m_responses m) (m_latency m)
    (m_payload m) (m_inflight m) (m_unmatched m) (m_orphan m) (m_sample_gaps m) (m_clock_skew m)
    (m_nodes_alive m) (m_node_crashes m).

Definition on_response (channel : string) (service_id : Z) (kind : string) (m : Metrics) : Metrics :=
  MkMetrics (m_requests m) (bump 1 (channel, service_id, kind) (m_responses m)) (m_latency m)
    (m_payload m) (m_inflight m) (m_unmatched m) (m_orphan m) (m_sample_gaps m) (m_clock_skew m)
    (m_nodes_alive m) (m_node_crashes m).

(** [entry(key).or_insert_with(empty).observe(value)]. *)
Definition observe_at {K} `{Countable K} (bounds : list f64) (value : f64) (key : K)
    (map : gmap K Histogram) : gmap K Histogram :=
  <[key := histogram_observe value bounds (default (histogram_empty bounds) (map !! key))]> map.

Definition on_payload (channel : string) (direction : Direction) (len : Z) (m : Metrics) : Metrics :=
  MkMetrics (m_requests m) (m_responses m) (m_latency m)
    (observe_at PAYLOAD_BOUNDS (f64_of_Z len) (channel, direction_label direction) (m_payload m))
    (m_inflight m) (m_unmatched m) (m_orphan m) (m_sample_gaps m) (m_clock_skew m)
    (m_nodes_alive m) (m_node_crashes m).

Definition on_latency (channel : string) (service_id : Z) (method : string) (seconds : f64)
    (m : Metrics) : Metrics :=
  MkMetrics (m_requests m) (m_responses m)
    (observe_at LATENCY_BOUNDS seconds (channel, service_id, method) (m_latency m))
    (m_payload m) (m_inflight m) (m_unmatched m) (m_orphan m) (m_sample_gaps m) (m_clock_skew m)
    (m_nodes_alive m) (m_node_crashes m).

Definition on_inflight (channel : string) (service_id : Z) (delta : Z) (m : Metrics) : Metrics :=
  MkMetrics (m_requests m) (m_responses m) (m_latency m) (m_payload m)
    (bump delta (channel, service_id) (m_inflight m)) (m_unmatched m) (m_orphan m) (m_sample_gaps m)
    (m_clock_skew m) (m_nodes_alive m) (m_node_crashes m).

Definition on_unmatched_request (channel : string) (m : Metrics) : Metrics :=
  MkMetrics (m_requests m) (m_responses m) (m_latency m) (m_payload m) (m_inflight m)
    (bump 1 channel (m_unmatched m)) (m_orphan m) (m_sample_gaps m) (m_clock_skew m)
    (m_nodes_alive m) (m_node_crashes m).

Definition on_orphan_response (channel : string) (m : Metrics) : Metrics :=
  MkMetrics (m_requests m) (m_responses m) (m_latency m) (m_payload m) (m_inflight m)
    (m_unmatched m) (bump 1 channel (m_orphan m)) (m_sample_gaps m) (m_clock_skew m)
    (m_nodes_alive m) (m_node_crashes m).

Definition on_sample_gap (missed : Z) (m : Metrics) : Metrics :=
  if missed =? 0 then m
  else
    MkMetrics (m_requests m) (m_responses m) (m_latency m) (m_payload m) (m_inflight m)
      (m_unmatched m) (m_orphan m) (wrap 64 (m_sample_gaps m + missed)) (m_clock_skew m)
      (m_nodes_alive m) (m_node_crashes m).

Definition on_clock_skew (m : Metrics) : Metrics :=
  MkMetrics (m_requests m) (m_responses m) (m_latency m) (m_payload m) (m_inflight m)
    (m_unmatched m) (m_orphan m) (m_sample_gaps m) (m_clock_skew m + 1)
    (m_nodes_alive m) (m_node_crashes m).

Definition set_nodes_alive (alive : Z) (m : Metrics) : Metrics :=
  MkMetrics (m_requests m) (m_responses m) (m_latency m) (m_payload m) (m_inflight m)
    (m_unmatched m) (m_orphan m) (m_sample_gaps m) (m_clock_skew m) alive (m_node_crashes m).

Definition add_node_crash (count : Z) (m : Metrics) : Metrics :=
  MkMetrics (m_requests m) (m_responses m) (m_latency m) (m_payload m) (m_inflight m)
    (m_unmatched m) (m_orphan m) (m_sample_gaps m) (m_clock_skew m) (m_nodes_alive m)
    (m_node_crashes m + count).

(** ** What a histogram says *)

Definition count_le (bound : f64) (vs : list f64) : Z :=
  Z.of_nat (length (List.filter (λ v, f64_le v bound) vs)).

(** The histogram of the values [vs], observed in that order. *)
Definition histogram_of (bounds : list f64) (vs : list f64) : Histogram :=
  fold_left (λ h v, histogram_observe v bounds h) vs (histogram_empty bounds).

(** The buckets of [h] count the values [vs]. *)
Definition counts (bounds : list f64) (vs : list f64) (h : Histogram) : Prop :=
  hi_buckets h = map (λ b, count_le b vs) bounds ∧ hi_count h = Z.of_nat (length vs).

Lemma count_le_app b vs ws : count_le b (vs ++ ws) = count_le b vs + count_le b ws.
Proof. unfold count_le. rewrite List.filter_app, length_app. lia. Qed.

Lemma counts_empty bounds : counts bounds [] (histogram_empty bounds).
Proof. split; [|done]. simpl. induction bounds as [|b bounds IH]; simpl; [done|]. by f_equal. Qed.

Lemma counts_observe bounds vs v h :
  counts bounds vs h → counts bounds (vs ++ [v]) (histogram_observe v bounds h).
Proof.
  intros [Hb Hc]. split; [|simpl; rewrite Hc, length_app; simpl; lia]. simpl. rewrite Hb.
  clear. induction bounds as [|b bounds IH]; simpl; [done|]. f_equal; [|done].
  assert (count_le b [v] = if f64_le v b then 1 else 0) as Hv by (unfold count_le; simpl; by destruct (f64_le v b)).
  rewrite count_le_app, Hv. destruct (f64_le v b); lia.
Qed.

Lemma counts_histogram_of bounds vs : counts bounds vs (histogram_of bounds vs).
Proof.
  unfold histogram_of. rewrite <- (app_nil_l vs) at 1. generalize (counts_empty bounds).
  generalize (histogram_empty bounds) as h, (@nil f64) as ws.
  induction vs as [|v vs IH]; intros h ws Hh; simpl; [by rewrite app_nil_r|].
  replace (ws ++ v :: vs) with ((ws ++ [v]) ++ vs) by (by rewrite <- app_assoc).
  by apply IH, counts_observe.
Qed.

Lemma counts_merge bounds vss :
  counts bounds (concat vss) (histogram_merge (map (histogram_of bounds) vss) bounds).
Proof.
  unfold histogram_merge. rewrite <- (app_nil_l (concat vss)). generalize (counts_empty bounds).
  generalize (histogram_empty bounds) as h, (@nil f64) as ws.
  induction vss as [|vs vss IH]; intros h ws Hh; simpl; [by rewrite app_nil_r|].
  rewrite app_assoc. apply IH. destruct Hh as [Hb Hc], (counts_histogram_of bounds vs) as [Hb' Hc'].
  split; simpl; [|rewrite Hc, Hc', length_app; lia]. rewrite Hb, Hb'. clear.
  induction bounds as [|b bounds IH]; simpl; [done|]. by rewrite IH, count_le_app.
Qed.

(** The quantile of a histogram that counts [vs]. *)
Lemma quantile_counts bounds vs h q :
  counts bounds vs h →
  match quantile h bounds q with
  | None => vs = []
  | Some r =>
      vs ≠ [] ∧
      let target := quantile_target (Z.of_nat (length vs)) q in
      (∃ before after, bounds = before ++ r :: after ∧ target ≤ count_le r vs ∧
         Forall (λ b, count_le b vs < target) before) ∨
      (r = S754_infinity false ∧ Forall (λ b, count_le b vs < target) bounds)
  end.
Proof.
  intros [Hb Hc]. unfold quantile. rewrite Hb, Hc.
  destruct (Z.eqb_spec (Z.of_nat (length vs)) 0) as [H0|H0]; [by destruct vs|].
  set (target := quantile_target _ q). generalize target. clear target. intros target.
  assert (Hne : vs ≠ []) by (by intros ->).
  clear Hb Hc H0. induction bounds as [|b bounds IH]; simpl.
  { split; [done|]. by right. }
  destruct (Z.leb_spec target (count_le b vs)) as [Hle|Hlt].
  { split; [done|]. left. exists [], bounds. by split_and!. }
  destruct (find _ _) as [[x r]|].
  all: destruct IH as [_ [(before & after & -> & Hr & Hf)|[Hinf Hf]]]; split; try done.
  all: try (left; exists (b :: before), after; split_and!; [done|done|by constructor]).
  all: right; split; [done|by constructor].
Qed.

(** ** The order of the bounds *)

(** Exponents first, then mantissas. *)
Definition cmp_finite (m1 : positive) (e1 : Z) (m2 : positive) (e2 : Z) : comparison :=
  match e1 ?= e2 with Lt => Lt | Gt => Gt | Eq => (m1 ?= m2)%positive end.

Lemma cmp_finite_spec m1 e1 m2 e2 :
  match cmp_finite m1 e1 m2 e2 with
  | Eq => e1 = e2 ∧ m1 = m2
  | Lt => e1 < e2 ∨ e1 = e2 ∧ (m1 < m2)%positive
  | Gt => e2 < e1 ∨ e1 = e2 ∧ (m2 < m1)%positive
  end.
Proof.
  unfold cmp_finite. destruct (Z.compare_spec e1 e2); [|by left..].
  destruct (Pos.compare_spec m1 m2); auto.
Qed.

Lemma le_finite s1 m1 e1 s2 m2 e2 :
  f64_le (S754_finite s1 m1 e1) (S754_finite s2 m2 e2) =
  match s1, s2 with
  | true, false => true
  | false, true => false
  | false, false => match cmp_finite m1 e1 m2 e2 with Gt => false | _ => true end
  | true, true => match cmp_finite m1 e1 m2 e2 with Lt => false | _ => true end
  end.
Proof.
  unfold f64_le, SFleb, SFcompare, cmp_finite, Pos.compare.
  destruct s1, s2; try done; destruct (e1 ?= e2); try done; by destruct (Pos.compare_cont Eq m1 m2).
Qed.

Lemma f64_le_trans x y z : f64_le x y = true → f64_le y z = true → f64_le x z = true.
Proof.
  destruct x as [[]|[]| |[] mx ex], y as [[]|[]| |[] my ey], z as [[]|[]| |[] mz ez]; try done;
    rewrite !le_finite; try done.
  all: pose proof (cmp_finite_spec mx ex my ey); pose proof (cmp_finite_spec my ey mz ez);
    pose proof (cmp_finite_spec mx ex mz ez).
  all: destruct (cmp_finite mx ex my ey), (cmp_finite my ey mz ez), (cmp_finite mx ex mz ez); try done; lia.
Qed.

(** A bound that is not below another one has at least its values. *)
Lemma count_le_mono b1 b2 vs : f64_le b1 b2 = true → count_le b1 vs ≤ count_le b2 vs.
Proof.
  intros Hb. unfold count_le. apply inj_le. induction vs as [|v vs IH]; simpl; [done|].
  destruct (f64_le v b1) eqn:H1; [rewrite (f64_le_trans _ _ _ H1 Hb); simpl; lia|].
  destruct (f64_le v b2); simpl; lia.
Qed.

Fixpoint f64_sorted (l : list f64) : bool :=
  match l with
  | a :: ((b :: _) as l') => f64_le a b && f64_sorted l'
  | _ => true
  end.

Fixpoint nondecreasing (l : list Z) : bool :=
  match l with
  | a :: ((b :: _) as l') => (a <=? b) && nondecreasing l'
  | _ => true
  end.

Lemma buckets_cumulative bounds vs h :
  counts bounds vs h → f64_sorted bounds = true → nondecreasing (hi_buckets h) = true.
Proof.
  intros [-> _]. induction bounds as [|a [|b bounds] IH]; [done..|]. cbn. intros [Hab Hs]%andb_true_iff.
  apply andb_true_iff. split; [|by apply IH]. apply Z.leb_le. by apply count_le_mono.
Qed.

(** What a rendering reads of the latencies of several series: the merged
    buckets are cumulative over the bounds of the program, and a quantile is
    [None] exactly when nothing was observed, otherwise the least bound under
    which the wanted share of all the observed values lies, or infinity when no
    bound has it; so at least that share of the values are at most the quantile
    shown. *)
Theorem quantile_of_merged vss q :
  let vs := concat vss in
  let merged := histogram_merge (map (histogram_of LATENCY_BOUNDS) vss) LATENCY_BOUNDS in
  let target := quantile_target (Z.of_nat (length vs)) q in
  nondecreasing (hi_buckets merged) = true ∧
  hi_count merged = Z.of_nat (length vs) ∧
  match quantile merged LATENCY_BOUNDS q with
  | None => vs = []
  | Some r =>
      vs ≠ [] ∧
      ((∃ before after, LATENCY_BOUNDS = before ++ r :: after ∧ target ≤ count_le r vs ∧
          Forall (λ b, count_le b vs < target) before) ∨
       (r = S754_infinity false ∧ Forall (λ b, count_le b vs < target) LATENCY_BOUNDS))
  end.
Proof.
  pose proof (counts_merge LATENCY_BOUNDS vss) as Hc. split; [|split].
  - eapply buckets_cumulative; [exact Hc|]. by vm_compute.
  - apply Hc.
  - by apply quantile_counts.
Qed.

(** Half of three latencies of 2, 3 and 40 milliseconds are under 5 of them. *)
Example median_of_three :
  quantile (histogram_of LATENCY_BOUNDS [f64_lit 2 1000; f64_lit 40 1000; f64_lit 3 1000])
    LATENCY_BOUNDS (f64_lit 1 2) = Some (f64_lit 5 1000).
Proof. by vm_compute. Qed.
