(* ===== verification/Collector.v ===== *)
(** * The observer ([ice-rpc-monitor/src/collector.rs], [ice-rpc/src/monitor/decode.rs])

    What the observer does with each sample it drains: it counts, pairs the
    responses with their requests, holds the responses that overtook their
    request, and traces the calls that end.  [Instant::now] is the argument
    [now]; the decoders of the services are values of the configuration. *)

From stdpp Require Import pretty.
From S2P Require Import Prelude MachineInt Text Event Header Context Correlate Metrics.

Local Open Scope Z_scope.

(** ** Decoders *)

Record ServiceDecoder : Type := MkServiceDecoder {
  sd_request : string → bytes → option string;
  sd_response : string → bytes → option string;
  sd_method_name : Z → option string
}.

(** [ClosureDecoder], with the method names declared to it. *)
Definition closure_decoder (request response : string → bytes → option string) (names : list (Z * string))
    : ServiceDecoder :=
  MkServiceDecoder request response
    (λ method_id, snd <$> find (λ e, e.1 =? method_id) names).

Definition with_method (name : string) (names : list (Z * string)) : list (Z * string) :=
  names ++ [(method_id_of name, name)].

Definition Decoders : Type := gmap Z ServiceDecoder.

Definition decoders_register (service_id : Z) (decoder : ServiceDecoder) (self : Decoders) : Decoders :=
  <[service_id := decoder]> self.

Definition decoders_request (self : Decoders) (service_id : Z) (method : string) (payload : bytes)
    : option string := d ← self !! service_id; sd_request d method payload.

Definition decoders_response (self : Decoders) (service_id : Z) (method : string) (payload : bytes)
    : option string := d ← self !! service_id; sd_response d method payload.

Definition decoders_method_name (self : Decoders) (service_id method_id : Z) : option string :=
  d ← self !! service_id; sd_method_name d method_id.

(** ** The state of the observer *)

Definition MAX_DEFERRED : nat := 16384.
Definition MAX_DEFERRED_SAMPLES : nat := 4096.
(** 250 ms, in nanoseconds. *)
Definition ORPHAN_GRACE : Z := 250000000.

Inductive Sample : Type :=
| Meta (payload_len : Z)
| Full (payload : bytes).

Definition payload_len (s : Sample) : Z :=
  match s with Meta n => n | Full payload => Z.of_nat (length payload) end.

Definition undecoded (len : Z) : string := ("<" +:+ pretty len +:+ " bytes, no decoder>")%string.

Record Emitter : Type := MkEmitter { em_pid : Z; em_node_id : Z; em_publisher_id : Z }.

Record DeferredResponses : Type := MkDeferred {
  de_channel : string;
  de_samples : list (RpcHeader * Emitter * Sample);
  de_since : Z
}.

Record TraceRecord : Type := MkTraceRecord {
  tr_call_id : string;
  tr_trace_id : option string;
  tr_parent_span_id : Z;
  tr_channel : string;
  tr_service_id : Z;
  tr_method : string;
  tr_event_kind : string;
  tr_emitter_pid : Z;
  tr_request_bytes : Z;
  tr_response_bytes : Z;
  tr_latency_us : Z;
  tr_request_text : option string;
  tr_response_text : option string
}.

Record Monitor : Type := MkMonitor {
  mo_decoders : Decoders;
  mo_trace_sample_rate : Z;
  mo_metrics : Metrics;
  mo_correlate : Correlate;
  mo_loss : LossTracker;
  mo_deferred : gmap bytes DeferredResponses;
  (** The records handed to the sink, when there is one. *)
  mo_trace : option (list TraceRecord);
  mo_traced : Z;
  mo_pids : gmap Z bool
}.

Definition set_metrics (m : Monitor) (x : Metrics) : Monitor :=
  MkMonitor (mo_decoders m) (mo_trace_sample_rate m) x (mo_correlate m) (mo_loss m) (mo_deferred m)
    (mo_trace m) (mo_traced m) (mo_pids m).

Definition set_correlate (m : Monitor) (x : Correlate) : Monitor :=
  MkMonitor (mo_decoders m) (mo_trace_sample_rate m) (mo_metrics m) x (mo_loss m) (mo_deferred m)
    (mo_trace m) (mo_traced m) (mo_pids m).

Definition set_deferred (m : Monitor) (x : gmap bytes DeferredResponses) : Monitor :=
  MkMonitor (mo_decoders m) (mo_trace_sample_rate m) (mo_metrics m) (mo_correlate m) (mo_loss m) x
    (mo_trace m) (mo_traced m) (mo_pids m).

(** The sink is opened when tracing is on. *)
Definition monitor_new (decoders : Decoders) (max_inflight : nat) (call_ttl trace_sample_rate : Z) : Monitor :=
  MkMonitor decoders trace_sample_rate metrics_new (correlate_new max_inflight call_ttl) loss_default ∅
    (if trace_sample_rate =? 0 then None else Some []) 0 ∅.

Section monitor.
Context `{HashIter}.
(** [decode_aligned::<RpcError>]. *)
Context (decode_rpc_error : bytes → option RpcError).

(** ** Requests *)

Definition method_text (m : Monitor) (header : RpcHeader) : string :=
  match decoders_method_name (mo_decoders m) (h_service_id header) (h_method_id header) with
  | Some name => name
  | None => hex_u32_prefixed (h_method_id header)
  end.

(** A call given up: unmatched, and no longer in flight. *)
Definition drop_pending (evicted : PendingCall) (m : Metrics) : Metrics :=
  on_inflight (pc_channel evicted) (pc_service_id evicted) (-1)
    (on_unmatched_request (pc_channel evicted) m).

Definition monitor_on_request (now : Z) (channel : string) (header : RpcHeader) (sample : Sample)
    (m : Monitor) : Monitor :=
  if decide (event_kind header = KRequest) then
    let method := method_text m header in
    let metrics := on_inflight channel (h_service_id header) 1
                     (on_request channel (h_service_id header) method (mo_metrics m)) in
    let request_text :=
      match sample with
      | Full payload =>
          Some (default (undecoded (Z.of_nat (length payload)))
                  (decoders_request (mo_decoders m) (h_service_id header) method payload))
      | Meta _ => None
      end in
    let call := pending_call_new channel (h_service_id header) method (h_timestamp_ns header)
                  (payload_len sample) request_text now in
    let (evicted, correlate) := correlate_insert (h_correlation_id header) call (mo_correlate m) in
    set_metrics (set_correlate m correlate) (fold_left (λ x c, drop_pending c x) evicted metrics)
  else m.

(** ** Traces *)

Definition response_text (header : RpcHeader) (sample : Sample) (call : PendingCall) (m : Monitor)
    : option string :=
  match sample with
  | Full payload =>
      Some (if decide (event_kind header = KRpcError) then
              match decode_rpc_error payload with
              | Some err => ("rpc error: " +:+ RpcError_display err)%string
              | None => undecoded (Z.of_nat (length payload))
              end
            else
              default (undecoded (Z.of_nat (length payload)))
                (decoders_response (mo_decoders m) (pc_service_id call) (pc_method call) payload))
  | Meta _ => None
  end.

Definition trace_record (channel : string) (header : RpcHeader) (emitter : Emitter) (sample : Sample)
    (call : PendingCall) (kind : string) (m : Monitor) : TraceRecord :=
  let trace := header_trace header in
  MkTraceRecord (fmt_correlation_id (h_correlation_id header))
    (if trace_is_present trace then Some (trace_id_hex trace) else None)
    (tc_parent_span_id trace) channel (h_service_id header) (pc_method call) kind (em_pid emitter)
    (pc_request_bytes call) (payload_len sample)
    (sat_sub (h_timestamp_ns header) (pc_request_ts_ns call) / 1000)
    (pc_request_text call) (response_text header sample call m).

Definition emit_trace (channel : string) (header : RpcHeader) (emitter : Emitter) (sample : Sample)
    (call : PendingCall) (kind : string) (m : Monitor) : Monitor :=
  match mo_trace m with
  | None => m
  | Some sink =>
      let traced := wrap 64 (mo_traced m + 1) in
      let rate := mo_trace_sample_rate m in
      let sink' :=
        if (rate =? 0) || negb (traced mod rate =? 0) then sink
        else sink ++ [trace_record channel header emitter sample call kind m] in
      MkMonitor (mo_decoders m) rate (mo_metrics m) (mo_correlate m) (mo_loss m) (mo_deferred m)
        (Some sink') traced (mo_pids m)
  end.

(** ** Responses *)

(** The latency of a call, in seconds. *)
Definition seconds_between (request_ns response_ns : Z) : f64 :=
  f64_div (f64_of_Z (response_ns - request_ns)) (f64_of_Z 1000000000).

Definition complete_response (channel : string) (header : RpcHeader) (emitter : Emitter) (sample : Sample)
    (call : PendingCall) (kind : EventKind) (m : Monitor) : Monitor :=
  let m1 :=
    if pc_first_response_seen call then m
    else if pc_request_ts_ns call <=? h_timestamp_ns header then
      set_metrics m (on_latency (pc_channel call) (pc_service_id call) (pc_method call)
        (seconds_between (pc_request_ts_ns call) (h_timestamp_ns header)) (mo_metrics m))
    else set_metrics m (on_clock_skew (mo_metrics m)) in
  if kind_is_terminal kind then
    emit_trace channel header emitter sample call (kind_label kind)
      (set_metrics m1 (on_inflight (pc_channel call) (pc_service_id call) (-1) (mo_metrics m1)))
  else m1.

Definition orphans (entry : DeferredResponses) (m : Metrics) : Metrics :=
  Nat.iter (length (de_samples entry)) (on_orphan_response (de_channel entry)) m.

(** Make room among the deferred responses. *)
Definition evict_deferred (m : Monitor) : Monitor :=
  if bool_decide (MAX_DEFERRED ≤ size (mo_deferred m))%nat then
    match min_by_key (λ e, de_since e.2) (hash_iter (mo_deferred m)) with
    | Some (oldest, _) =>
        match mo_deferred m !! oldest with
        | Some entry =>
            set_metrics (set_deferred m (delete oldest (mo_deferred m))) (orphans entry (mo_metrics m))
        | None => m
        end
    | None => m
    end
  else m.

Definition defer_response (now : Z) (channel : string) (header : RpcHeader) (emitter : Emitter)
    (sample : Sample) (m0 : Monitor) : Monitor :=
  let m := evict_deferred m0 in
  let cid := h_correlation_id header in
  match mo_deferred m !! cid with
  | Some entry =>
      if bool_decide (MAX_DEFERRED_SAMPLES ≤ length (de_samples entry))%nat then
        set_metrics (set_deferred m (delete cid (mo_deferred m))) (orphans entry (mo_metrics m))
      else
        set_deferred m (<[cid := MkDeferred (de_channel entry)
          (de_samples entry ++ [(header, emitter, sample)]) (de_since entry)]> (mo_deferred m))
  | None =>
      set_deferred m (<[cid := MkDeferred channel [(header, emitter, sample)] now]> (mo_deferred m))
  end.

Definition monitor_on_response (now : Z) (channel : string) (header : RpcHeader) (emitter : Emitter)
    (sample : Sample) (m : Monitor) : Monitor :=
  let kind := event_kind header in
  let m1 := set_metrics m (on_response channel (h_service_id header) (kind_label kind) (mo_metrics m)) in
  match correlate_on_response (h_correlation_id header) (kind_is_terminal kind) (mo_correlate m1) with
  | (Matched call, correlate) =>
      complete_response channel header emitter sample call kind (set_correlate m1 correlate)
  | (Unknown, correlate) => defer_response now channel header emitter sample (set_correlate m1 correlate)
  end.

(** ** Deferred responses *)

Definition replay_sample (cid : bytes) (channel : string) (m : Monitor) (s : RpcHeader * Emitter * Sample)
    : Monitor :=
  match s with
  | (header, emitter, sample) =>
      let kind := event_kind header in
      match correlate_on_response cid (kind_is_terminal kind) (mo_correlate m) with
      | (Matched call, correlate) =>
          complete_response channel header emitter sample call kind (set_correlate m correlate)
      | (Unknown, correlate) => set_correlate m correlate
      end
  end.

Definition replay_entry (m : Monitor) (cid : bytes) : Monitor :=
  match mo_deferred m !! cid with
  | Some entry =>
      fold_left (replay_sample cid (de_channel entry)) (de_samples entry)
        (set_deferred m (delete cid (mo_deferred m)))
  | None => m
  end.

Definition ready_deferred (m : Monitor) : list bytes :=
  filter (λ cid, contains cid (mo_correlate m) = true) (map fst (hash_iter (mo_deferred m))).

Definition expire_deferred (now : Z) (m : Monitor) : Monitor :=
  let expired := filter (λ e, ORPHAN_GRACE ≤ Z.max 0 (now - de_since e.2)) (hash_iter (mo_deferred m)) in
  set_metrics
    (set_deferred m (filter (λ e, Z.max 0 (now - de_since e.2) < ORPHAN_GRACE) (mo_deferred m)))
    (fold_left (λ x e, orphans e.2 x) expired (mo_metrics m)).

Definition resolve_deferred (now : Z) (m : Monitor) : Monitor :=
  if decide (mo_deferred m = ∅) then m
  else expire_deferred now (fold_left replay_entry (ready_deferred m) m).

(** ** The periodic work, and a sample *)

Definition monitor_sweep (now : Z) (m : Monitor) : Monitor :=
  let (evicted, correlate) := correlate_sweep now (mo_correlate m) in
  set_metrics (set_correlate m correlate) (fold_left (λ x c, drop_pending c x) evicted (mo_metrics m)).

(** [is_pid_alive] answers from the list of the nodes. *)
Definition check_liveness (is_pid_alive : Z → bool) (m : Monitor) : Monitor :=
  let alive := Z.of_nat (size (filter (λ e, is_pid_alive e.1 = true) (mo_pids m))) in
  let crashed :=
    Z.of_nat (size (filter (λ e, is_pid_alive e.1 = false ∧ e.2 = true) (mo_pids m))) in
  let metrics := set_nodes_alive alive (mo_metrics m) in
  MkMonitor (mo_decoders m) (mo_trace_sample_rate m)
    (if 0 <? crashed then add_node_crash crashed metrics else metrics)
    (mo_correlate m) (mo_loss m) (mo_deferred m) (mo_trace m) (mo_traced m)
    (map_imap (λ pid _, Some (is_pid_alive pid)) (mo_pids m)).

Definition process (now : Z) (channel : string) (direction : Direction) (header : RpcHeader)
    (emitter : Emitter) (sample : Sample) (m : Monitor) : Monitor :=
  let (missed, loss) := observe (em_publisher_id emitter) (h_seq header) (mo_loss m) in
  let metrics := on_payload channel direction (payload_len sample) (on_sample_gap missed (mo_metrics m)) in
  let m1 := MkMonitor (mo_decoders m) (mo_trace_sample_rate m) metrics (mo_correlate m) loss
              (mo_deferred m) (mo_trace m) (mo_traced m)
              (if mo_pids m !! em_pid emitter is Some _ then mo_pids m else <[em_pid emitter := true]> (mo_pids m)) in
  match direction with
  | DRequest => monitor_on_request now channel header sample m1
  | DResponse => monitor_on_response now channel header emitter sample m1
  end.
End monitor.

(** ** What is observed, in any order *)

Section runs.
Context `{HashIterLaws} (decode_rpc_error : bytes → option RpcError).

Inductive MonitorStep : Type :=
| MSample (now : Z) (channel : string) (direction : Direction) (header : RpcHeader) (emitter : Emitter)
    (sample : Sample)
| MResolve (now : Z)
| MSweep (now : Z)
| MLiveness (is_pid_alive : Z → bool).

Definition monitor_step (m : Monitor) (s : MonitorStep) : Monitor :=
  match s with
  | MSample now channel direction header emitter sample =>
      process decode_rpc_error now channel direction header emitter sample m
  | MResolve now => resolve_deferred decode_rpc_error now m
  | MSweep now => monitor_sweep now m
  | MLiveness alive => check_liveness alive m
  end.

(** The id of the call a step starts to track. *)
Definition request_cid (s : MonitorStep) : option bytes :=
  match s with
  | MSample _ _ DRequest header _ _ =>
      if decide (event_kind header = KRequest) then Some (h_correlation_id header) else None
  | _ => None
  end.

(** The gauge of a service. *)
Definition gauge (key : string * Z) (x : Metrics) : Z := default 0 (m_inflight x !! key).

(** ** The gauge *)

Lemma gauge_on_inflight key channel service delta x :
  gauge key (on_inflight channel service delta x) =
  gauge key x + if decide ((channel, service) = key) then delta else 0.
Proof.
  unfold gauge, on_inflight, bump. cbn [m_inflight]. case_decide as Hk.
  - subst. by rewrite lookup_insert_eq.
  - rewrite lookup_insert_ne by done. lia.
Qed.

Lemma gauge_give_up key evicted x :
  gauge key (fold_left (λ x c, drop_pending c x) evicted x) = gauge key x - calls_among key evicted.
Proof.
  revert x. induction evicted as [|c evicted IH]; intros x.
  - unfold calls_among. simpl. lia.
  - cbn [fold_left]. rewrite IH, (calls_among_cons key c evicted).
    unfold drop_pending. rewrite gauge_on_inflight, calls_among_one. unfold call_key.
    change (gauge key (on_unmatched_request (pc_channel c) x)) with (gauge key x).
    repeat case_decide; simpl; try done; lia.
Qed.

Lemma gauge_orphans key entry x : gauge key (orphans entry x) = gauge key x.
Proof. unfold orphans. by induction (length (de_samples entry)). Qed.

(** Completing a response changes the gauge on a terminal only, and no table. *)
Lemma complete_response_spec channel header emitter sample call kind m :
  let m' := complete_response decode_rpc_error channel header emitter sample call kind m in
  mo_correlate m' = mo_correlate m ∧ mo_deferred m' = mo_deferred m ∧
  ∀ key, gauge key (mo_metrics m') =
    gauge key (mo_metrics m) - if kind_is_terminal kind then calls_among key [call] else 0.
Proof.
  cbn zeta. unfold complete_response.
  assert (Hg : ∀ key x, gauge key (on_inflight (pc_channel call) (pc_service_id call) (-1) x) =
    gauge key x - calls_among key [call]).
  { intros key x. rewrite gauge_on_inflight, calls_among_one. unfold call_key. case_decide; lia. }
  destruct (pc_first_response_seen call); [|destruct (pc_request_ts_ns call <=? h_timestamp_ns header)];
    (destruct (kind_is_terminal kind); [unfold emit_trace; destruct (mo_trace m) eqn:Ht; simpl; rewrite ?Ht|]);
    simpl; (split; [done|split; [done|intros key]]); rewrite ?Hg; try done; unfold gauge; simpl; lia.
Qed.

(** ** The tables *)

(** What holds of the observer between two steps, after the ids [seen]. *)
Record monitor_ok (max : nat) (seen : gset bytes) (m : Monitor) : Prop := {
  ok_gauge key : gauge key (mo_metrics m) = calls_of key (co_entries (mo_correlate m));
  ok_seen cid : is_Some (co_entries (mo_correlate m) !! cid) → cid ∈ seen;
  ok_max : co_max (mo_correlate m) = max;
  ok_tracked : (size (co_entries (mo_correlate m)) ≤ Nat.max 1 max)%nat;
  ok_deferred : (size (mo_deferred m) ≤ MAX_DEFERRED)%nat;
  ok_samples cid e : mo_deferred m !! cid = Some e → (length (de_samples e) ≤ MAX_DEFERRED_SAMPLES)%nat
}.

(** Resolving a response against the table. *)
Lemma on_response_spec cid terminal co r co' :
  correlate_on_response cid terminal co = (r, co') →
  co_max co' = co_max co ∧ (size (co_entries co') ≤ size (co_entries co))%nat ∧
  (∀ k, is_Some (co_entries co' !! k) → is_Some (co_entries co !! k)) ∧
  ∀ key, calls_of key (co_entries co') = calls_of key (co_entries co) -
    match r with Matched call => if terminal then calls_among key [call] else 0 | Unknown => 0 end.
Proof.
  unfold correlate_on_response. destruct terminal, (co_entries co !! cid) as [c|] eqn:Hc;
    intros; simplify_eq; cbn [set_entries co_entries co_max]; (split; [done|]).
  - rewrite map_size_delete, Hc. split_and!; [lia|by intros k [? [_ ?]%lookup_delete_Some]|].
    intros key. by apply calls_of_delete.
  - rewrite delete_id by done. split_and!; [done|done|]. intros key. lia.
  - rewrite map_size_insert, Hc. split_and!; [done| |].
    + intros k. destruct (decide (cid = k)) as [<-|]; [by rewrite Hc|]. by rewrite lookup_insert_ne.
    + intros key. rewrite (calls_of_update key _ cid c) by done. lia.
  - split_and!; [done|done|]. intros key. lia.
Qed.

(** A response matched and completed. *)
Lemma ok_complete max seen m channel header emitter sample cid call co' :
  let kind := event_kind header in
  monitor_ok max seen m →
  correlate_on_response cid (kind_is_terminal kind) (mo_correlate m) = (Matched call, co') →
  monitor_ok max seen
    (complete_response decode_rpc_error channel header emitter sample call kind (set_correlate m co')).
Proof.
  intros kind Hok Hr. apply on_response_spec in Hr as (Hmax & Hsize & Hkeys & Hcalls).
  destruct (complete_response_spec channel header emitter sample call kind (set_correlate m co'))
    as (Hco & Hde & Hg).
  destruct Hok as [Hgauge Hseen Hm Htr Hd Hs]. split; rewrite ?Hco, ?Hde; cbn [set_correlate mo_correlate mo_deferred].
  - intros key. rewrite Hg, Hcalls, <- Hgauge. done.
  - intros k Hk. by apply Hseen, Hkeys.
  - by rewrite Hmax.
  - lia.
  - done.
  - done.
Qed.

(** An unmatched response leaves the table as it was. *)
Lemma ok_unknown max seen m cid terminal co' :
  monitor_ok max seen m → correlate_on_response cid terminal (mo_correlate m) = (Unknown, co') →
  monitor_ok max seen (set_correlate m co').
Proof.
  intros [Hgauge Hseen Hm Htr Hd Hs] Hr. apply on_response_spec in Hr as (Hmax & Hsize & Hkeys & Hcalls).
  split; cbn [set_correlate mo_correlate mo_deferred mo_metrics].
  - intros key. rewrite Hcalls, <- Hgauge. lia.
  - intros k Hk. by apply Hseen, Hkeys.
  - by rewrite Hmax.
  - lia.
  - done.
  - done.
Qed.

(** Changing the deferred responses, and counters other than the gauge. *)
Lemma ok_set_deferred max seen m deferred x :
  monitor_ok max seen m → (∀ key, gauge key x = gauge key (mo_metrics m)) →
  (size deferred ≤ MAX_DEFERRED)%nat →
  (∀ cid e, deferred !! cid = Some e → (length (de_samples e) ≤ MAX_DEFERRED_SAMPLES)%nat) →
  monitor_ok max seen (set_metrics (set_deferred m deferred) x).
Proof.
  intros [Hgauge Hseen Hm Htr Hd Hs] Hx Hsize Hlen. split; try done.
  intros key. cbn [set_metrics mo_metrics mo_correlate set_deferred]. by rewrite Hx.
Qed.

Lemma max_deferred_pos : (1 < MAX_DEFERRED)%nat.
Proof. apply Nat.ltb_lt. by vm_compute. Qed.

Lemma max_samples_pos : (0 < MAX_DEFERRED_SAMPLES)%nat.
Proof. apply Nat.ltb_lt. by vm_compute. Qed.

Lemma ok_evict_deferred max seen m :
  monitor_ok max seen m →
  monitor_ok max seen (evict_deferred m) ∧ (size (mo_deferred (evict_deferred m)) < MAX_DEFERRED)%nat.
Proof.
  intros Hok. unfold evict_deferred. pose proof (ok_deferred _ _ _ Hok). pose proof max_deferred_pos.
  case_bool_decide as Hfull; [|split; [done|lia]].
  destruct (min_by_key_some (λ e, de_since e.2) (hash_iter (mo_deferred m))) as [[k e] Hk].
  { intros Hnil. assert (mo_deferred m = ∅) as He.
    { apply map_eq. intros k. rewrite lookup_empty. destruct (mo_deferred m !! k) as [e|] eqn:Hk; [|done].
      apply elem_of_hash_iter in Hk. rewrite Hnil in Hk. by apply elem_of_nil in Hk. }
    rewrite He, map_size_empty in Hfull. lia. }
  rewrite Hk. apply min_by_key_spec in Hk as [Hk _]. apply elem_of_hash_iter in Hk. rewrite Hk.
  assert (size (delete k (mo_deferred m)) < MAX_DEFERRED)%nat as Hlt by (rewrite map_size_delete, Hk; lia).
  split; [|done]. apply ok_set_deferred; [done|intros; apply gauge_orphans|lia|].
  intros cid d [_ Hd]%lookup_delete_Some. by eapply ok_samples.
Qed.

Lemma ok_defer max seen m now channel header emitter sample :
  monitor_ok max seen m → monitor_ok max seen (defer_response now channel header emitter sample m).
Proof.
  intros Hok. apply ok_evict_deferred in Hok as [Hok Hsize]. unfold defer_response.
  set (m1 := evict_deferred m) in *. set (cid := h_correlation_id header).
  pose proof max_samples_pos.
  assert (Hput : ∀ d, (length (de_samples d) ≤ MAX_DEFERRED_SAMPLES)%nat →
    monitor_ok max seen (set_metrics (set_deferred m1 (<[cid := d]> (mo_deferred m1))) (mo_metrics m1))).
  { intros d Hd. apply ok_set_deferred; [done|done| |].
    - rewrite map_size_insert. destruct (mo_deferred m1 !! cid); [apply Nat.lt_le_incl, Hsize|lia].
    - intros k e [[<- <-]|[_ Hk]]%lookup_insert_Some; [done|by eapply ok_samples]. }
  destruct (mo_deferred m1 !! cid) as [e|] eqn:He; [case_bool_decide as Hfull|].
  - apply ok_set_deferred; [done|intros; apply gauge_orphans| |].
    + rewrite map_size_delete, He. lia.
    + intros k d [_ Hk]%lookup_delete_Some. by eapply ok_samples.
  - apply Hput. simpl. rewrite length_app. simpl. lia.
  - apply Hput. simpl. lia.
Qed.

Lemma ok_on_response max seen m now channel header emitter sample :
  monitor_ok max seen m →
  monitor_ok max seen (monitor_on_response decode_rpc_error now channel header emitter sample m).
Proof.
  intros Hok. unfold monitor_on_response.
  set (m1 := set_metrics m _).
  assert (Hok1 : monitor_ok max seen m1) by (destruct Hok; by split).
  destruct (correlate_on_response _ _ (mo_correlate m1)) as [[call|] co'] eqn:Hr.
  - by eapply ok_complete.
  - apply ok_defer. by eapply ok_unknown.
Qed.

Lemma ok_replay_sample max seen cid channel m x :
  monitor_ok max seen m → monitor_ok max seen (replay_sample decode_rpc_error cid channel m x).
Proof.
  intros Hok. destruct x as [[header emitter] sample]. unfold replay_sample.
  destruct (correlate_on_response _ _ (mo_correlate m)) as [[call|] co'] eqn:Hr.
  - by eapply ok_complete.
  - by eapply ok_unknown.
Qed.

Lemma ok_replay_entry max seen m cid :
  monitor_ok max seen m → monitor_ok max seen (replay_entry decode_rpc_error m cid).
Proof.
  intros Hok. unfold replay_entry. destruct (mo_deferred m !! cid) as [e|] eqn:He; [|done].
  assert (Hok' : monitor_ok max seen (set_deferred m (delete cid (mo_deferred m)))).
  { change (set_deferred m ?d) with (set_metrics (set_deferred m d) (mo_metrics m)).
    apply ok_set_deferred; [done|done| |].
    - rewrite map_size_delete, He. pose proof (ok_deferred _ _ _ Hok). lia.
    - intros k d [_ Hk]%lookup_delete_Some. by eapply ok_samples. }
  revert Hok'. generalize (set_deferred m (delete cid (mo_deferred m))).
  induction (de_samples e) as [|x l IH]; intros m' Hok'; [done|]. by apply IH, ok_replay_sample.
Qed.

Lemma ok_expire max seen now m : monitor_ok max seen m → monitor_ok max seen (expire_deferred now m).
Proof.
  intros Hok. unfold expire_deferred. apply ok_set_deferred; [done| | |].
  - intros key. generalize (mo_metrics m).
    induction (filter _ (hash_iter (mo_deferred m))) as [|e l IH]; intros x; [done|]. simpl.
    by rewrite IH, gauge_orphans.
  - pose proof (ok_deferred _ _ _ Hok). etrans; [|done]. apply map_subseteq_size, map_filter_subseteq.
  - intros k e [Hk _]%map_lookup_filter_Some. by eapply ok_samples.
Qed.

Lemma ok_resolve max seen now m :
  monitor_ok max seen m → monitor_ok max seen (resolve_deferred decode_rpc_error now m).
Proof.
  intros Hok. unfold resolve_deferred. case_decide as Hne; [done|]. clear Hne. apply ok_expire.
  generalize (ready_deferred m) as l. intros l. revert m Hok.
  induction l as [|cid l IH]; intros m Hok; [done|]. by apply IH, ok_replay_entry.
Qed.

(** Making room and inserting a call that is not tracked. *)
Lemma insert_spec cid call co evicted co' :
  co_entries co !! cid = None → correlate_insert cid call co = (evicted, co') →
  co_max co' = co_max co ∧
  (∀ k, is_Some (co_entries co' !! k) → k = cid ∨ is_Some (co_entries co !! k)) ∧
  ∀ key, calls_of key (co_entries co') =
    calls_of key (co_entries co) + calls_among key [call] - calls_among key evicted.
Proof.
  intros Hnone. unfold correlate_insert.
  destruct (evict_oldest_spec co) as [[-> _]|(k0 & c0 & _ & Hk0 & -> & _)]; intros; simplify_eq;
    cbn [set_entries co_entries co_max]; (split; [done|split]).
  - intros k [c [[<- _]|[_ Hk]]%lookup_insert_Some]; [by left|by right].
  - intros key. rewrite calls_of_insert by done. unfold calls_among at 3. simpl. lia.
  - intros k [c [[<- _]|[_ [_ Hk]%lookup_delete_Some]]%lookup_insert_Some]; [by left|by right].
  - intros key. rewrite calls_of_insert by (by rewrite lookup_delete_None; auto).
    rewrite (calls_of_delete key _ k0 c0) by done. lia.
Qed.

Lemma ok_on_request max seen m now channel header sample :
  monitor_ok max seen m → h_correlation_id header ∉ seen →
  monitor_ok max ({[h_correlation_id header]} ∪ seen) (monitor_on_request now channel header sample m).
Proof.
  intros Hok Hfresh. assert (Hmono : monitor_ok max ({[h_correlation_id header]} ∪ seen) m).
  { destruct Hok. split; try done. set_solver. }
  unfold monitor_on_request. case_decide as Hkind; [|done]. cbn zeta.
  set (call := pending_call_new _ _ _ _ _ _ _).
  destruct (correlate_insert (h_correlation_id header) call (mo_correlate m)) as [evicted co'] eqn:Hi.
  assert (co_entries (mo_correlate m) !! h_correlation_id header = None) as Hnone.
  { apply eq_None_not_Some. intros Hs. by apply Hfresh, (ok_seen _ _ _ Hok). }
  pose proof (correlate_insert_bounded (h_correlation_id header) call (mo_correlate m)) as Hb.
  rewrite Hi, (ok_max _ _ _ Hok) in Hb. specialize (Hb (ok_tracked _ _ _ Hok)). simpl in Hb.
  apply insert_spec in Hi as (Hmax & Hkeys & Hcalls); [|done].
  destruct Hok as [Hgauge Hseen Hm Htr Hd Hs].
  split; cbn [set_metrics set_correlate mo_metrics mo_correlate mo_deferred]; try done.
  - intros key. rewrite gauge_give_up, gauge_on_inflight, Hcalls, <- Hgauge, calls_among_one.
    change (call_key call) with (channel, h_service_id header).
    change (gauge key (on_request channel (h_service_id header) (method_text m header) (mo_metrics m)))
      with (gauge key (mo_metrics m)).
    case_decide; lia.
  - intros k [->|Hk]%Hkeys; [set_solver|]. apply Hseen in Hk. set_solver.
  - by rewrite Hmax.
Qed.

Lemma ok_sweep max seen now m : monitor_ok max seen m → monitor_ok max seen (monitor_sweep now m).
Proof.
  intros [Hgauge Hseen Hm Htr Hd Hs]. unfold monitor_sweep.
  pose proof (sweep_calls_of now (mo_correlate m)) as Hcalls.
  assert (co_entries (correlate_sweep now (mo_correlate m)).2 ⊆ co_entries (mo_correlate m)) as Hsub
    by (apply map_filter_subseteq).
  assert (co_max (correlate_sweep now (mo_correlate m)).2 = co_max (mo_correlate m)) as Hmax by done.
  destruct (correlate_sweep now (mo_correlate m)) as [evicted co']. cbn [fst snd] in *.
  split; cbn [set_metrics set_correlate mo_metrics mo_correlate mo_deferred]; try done.
  - intros key. by rewrite gauge_give_up, Hcalls, Hgauge.
  - intros k [c Hk]. apply Hseen. exists c. by eapply lookup_weaken.
  - by rewrite Hmax.
  - etrans; [by apply map_subseteq_size|done].
Qed.

Lemma ok_liveness max seen alive m : monitor_ok max seen m → monitor_ok max seen (check_liveness alive m).
Proof.
  intros [Hgauge Hseen Hm Htr Hd Hs]. unfold check_liveness. split; try done.
  intros key. cbn [mo_metrics mo_correlate]. rewrite <- Hgauge. by destruct (0 <? _).
Qed.

Lemma ok_process max seen now channel direction header emitter sample m :
  monitor_ok max seen m →
  (direction = DRequest → event_kind header = KRequest → h_correlation_id header ∉ seen) →
  monitor_ok max
    (match request_cid (MSample now channel direction header emitter sample) with
     | Some cid => {[cid]} ∪ seen | None => seen end)
    (process decode_rpc_error now channel direction header emitter sample m).
Proof.
  intros Hok Hfresh. unfold process. destruct (observe _ _ _) as [missed loss].
  set (m1 := MkMonitor _ _ _ _ _ _ _ _ _).
  assert (Hok1 : monitor_ok max seen m1).
  { destruct Hok. split; try done. unfold m1. cbn [mo_metrics]. unfold on_sample_gap. by destruct (missed =? 0). }
  unfold request_cid. destruct direction; [|by apply ok_on_response].
  case_decide as Hk; [by apply ok_on_request; auto|].
  unfold monitor_on_request. by rewrite decide_False.
Qed.

Lemma ok_steps max steps seen m0 :
  monitor_ok max seen m0 → NoDup (omap request_cid steps) →
  (∀ cid, cid ∈ omap request_cid steps → cid ∉ seen) →
  ∃ seen', monitor_ok max seen' (fold_left monitor_step steps m0).
Proof.
  revert seen m0. induction steps as [|s steps IH]; intros seen m0 Hok Hnd Hfresh; [by exists seen|]. simpl in *.
  destruct s as [now channel direction header emitter sample|now|now|alive]; simpl in *.
  - apply (ok_process max seen now channel direction header emitter sample) in Hok.
    + unfold request_cid in *. destruct direction; [|by eapply IH].
      case_decide; [|by eapply IH]. simpl in *. apply NoDup_cons in Hnd as [Hni Hnd].
      eapply IH; [done|done|]. intros cid Hcid. specialize (Hfresh cid). set_solver.
    + intros -> Hk. apply Hfresh. unfold request_cid. rewrite decide_True by done. simpl. by left.
  - eapply IH; [by apply ok_resolve|done|done].
  - eapply IH; [by apply ok_sweep|done|done].
  - eapply IH; [by apply ok_liveness|done|done].
Qed.

(** C33. Whatever the observer drains, in whatever order, when no correlation id
    is requested twice: the gauge of the calls in flight of every service of
    every channel is the number of its calls the observer tracks; the table of
    the calls never exceeds its capacity (of one call at least), nor the deferred
    responses theirs, nor the samples held for one call theirs. *)
Theorem inflight_gauge_exact decoders max ttl rate steps :
  NoDup (omap request_cid steps) →
  let m := fold_left monitor_step steps (monitor_new decoders max ttl rate) in
  (∀ key, gauge key (mo_metrics m) = calls_of key (co_entries (mo_correlate m))) ∧
  (size (co_entries (mo_correlate m)) ≤ Nat.max 1 max)%nat ∧
  (size (mo_deferred m) ≤ MAX_DEFERRED)%nat ∧
  (∀ cid e, mo_deferred m !! cid = Some e → (length (de_samples e) ≤ MAX_DEFERRED_SAMPLES)%nat).
Proof.
  intros Hnd m.
  destruct (ok_steps max steps ∅ (monitor_new decoders max ttl rate)) as [seen' []]; [|done|set_solver|by split_and!].
  split; simpl; try done; try (rewrite map_size_empty; lia).
  intros cid [c Hc]. by rewrite lookup_empty in Hc.
Qed.

(** ** Responses that overtook their request *)

(** The samples of one response stream, with the instants they were drained at. *)
Definition drained : Type := Z * (RpcHeader * Emitter * Sample).

Definition drain_response (channel : string) (m : Monitor) (d : drained) : Monitor :=
  match d with
  | (now, (header, emitter, sample)) =>
      monitor_on_response decode_rpc_error now channel header emitter sample m
  end.

Definition sample_kind (d : drained) : EventKind := event_kind d.2.1.1.

(** The samples of one call: its id on each, a terminal on the last at most. *)
Definition stream_of (cid : bytes) (ds : list drained) : Prop :=
  Forall (λ d, h_correlation_id d.2.1.1 = cid) ds ∧
  Forall (λ d, kind_is_terminal (sample_kind d) = false) (removelast ds).

(** The count of a response sample, alone. *)
Definition count_response (channel : string) (m : Monitor) (d : drained) : Monitor :=
  set_metrics m (on_response channel (h_service_id d.2.1.1) (kind_label (sample_kind d)) (mo_metrics m)).

Lemma complete_count channel channel' header emitter sample call kind m d :
  complete_response decode_rpc_error channel header emitter sample call kind (count_response channel' m d) =
  count_response channel' (complete_response decode_rpc_error channel header emitter sample call kind m) d.
Proof.
  unfold complete_response, emit_trace, count_response.
  destruct (pc_first_response_seen call), (pc_request_ts_ns call <=? h_timestamp_ns header),
    (kind_is_terminal kind); try done; cbn [set_metrics mo_trace]; by destruct (mo_trace m).
Qed.

Lemma replay_count cid channel channel' m d x :
  replay_sample decode_rpc_error cid channel (count_response channel' m d) x =
  count_response channel' (replay_sample decode_rpc_error cid channel m x) d.
Proof.
  destruct x as [[header emitter] sample]. unfold replay_sample.
  change (mo_correlate (count_response channel' m d)) with (mo_correlate m).
  destruct (correlate_on_response _ _ _) as [[call|] co']; [|done].
  change (set_correlate (count_response channel' m d) co') with (count_response channel' (set_correlate m co') d).
  apply complete_count.
Qed.

Lemma request_count now channel channel' header sample m d :
  monitor_on_request now channel header sample (count_response channel' m d) =
  count_response channel' (monitor_on_request now channel header sample m) d.
Proof.
  unfold monitor_on_request. case_decide; [|done]. cbn zeta.
  change (mo_correlate (count_response channel' m d)) with (mo_correlate m).
  change (mo_decoders (count_response channel' m d)) with (mo_decoders m).
  change (method_text (count_response channel' m d) header) with (method_text m header).
  destruct (correlate_insert _ _ _) as [evicted co']. unfold count_response. cbn [set_metrics mo_metrics].
  generalize (mo_metrics m) as x. intros x.
  assert (Hfold : ∀ y, fold_left (λ x c, drop_pending c x) evicted
      (on_response channel' (h_service_id d.2.1.1) (kind_label (sample_kind d)) y) =
    on_response channel' (h_service_id d.2.1.1) (kind_label (sample_kind d))
      (fold_left (λ x c, drop_pending c x) evicted y)).
  { induction evicted as [|c evicted IH]; intros y; [done|]. cbn [fold_left]. by rewrite <- IH. }
  unfold set_correlate, set_metrics. cbn [mo_decoders mo_trace_sample_rate mo_loss mo_deferred mo_trace mo_traced mo_pids mo_metrics mo_correlate].
  by rewrite <- Hfold.
Qed.

(** A response of a tracked call is counted, and completed at once. *)
Lemma drain_tracked channel m d :
  is_Some (co_entries (mo_correlate m) !! h_correlation_id d.2.1.1) →
  drain_response channel m d =
  replay_sample decode_rpc_error (h_correlation_id d.2.1.1) channel (count_response channel m d) d.2.
Proof.
  destruct d as [now [[header emitter] sample]]. cbn [fst snd]. intros [call Hc].
  unfold drain_response, monitor_on_response, replay_sample, count_response, sample_kind. cbn [fst snd].
  set (m1 := set_metrics m _). unfold correlate_on_response.
  change (mo_correlate m1) with (mo_correlate m). rewrite Hc. by destruct (kind_is_terminal _).
Qed.

Lemma complete_correlate channel header emitter sample call kind m :
  mo_correlate (complete_response decode_rpc_error channel header emitter sample call kind m) = mo_correlate m.
Proof. apply complete_response_spec. Qed.

(** A sample that does not end the call leaves it tracked. *)
Lemma replay_keeps_tracked cid channel m x :
  kind_is_terminal (event_kind x.1.1) = false → is_Some (co_entries (mo_correlate m) !! cid) →
  is_Some (co_entries (mo_correlate (replay_sample decode_rpc_error cid channel m x)) !! cid).
Proof.
  destruct x as [[header emitter] sample]. cbn [fst]. intros Hk [c Hc]. unfold replay_sample.
  unfold correlate_on_response. rewrite Hk, Hc, complete_correlate. simpl. by rewrite lookup_insert_eq.
Qed.

(** In order: counting, then completing, sample by sample. *)
Lemma drain_all_tracked cid channel ds m :
  stream_of cid ds → is_Some (co_entries (mo_correlate m) !! cid) →
  fold_left (drain_response channel) ds m =
  fold_left (replay_sample decode_rpc_error cid channel) (map snd ds) (fold_left (count_response channel) ds m).
Proof.
  intros [Hcid Hterm]. revert m. induction ds as [|d ds IH]; intros m Hc; [done|].
  apply Forall_cons in Hcid as [Hd Hcid]. cbn [fold_left map]. rewrite drain_tracked, Hd by (by rewrite Hd).
  assert (Hswap : ∀ l m', replay_sample decode_rpc_error cid channel (fold_left (count_response channel) l m') d.2 =
    fold_left (count_response channel) l (replay_sample decode_rpc_error cid channel m' d.2)).
  { induction l as [|e l IHl]; intros m'; [done|]. cbn [fold_left]. by rewrite IHl, replay_count. }
  rewrite Hswap. destruct ds as [|e ds]; [done|]. cbn [removelast] in Hterm. apply Forall_cons in Hterm as [Hk Hterm].
  apply IH; [done|done|]. by apply replay_keeps_tracked.
Qed.

(** Ahead of the request: counting and holding. *)
Definition held (cid : bytes) (channel : string) (m : Monitor) (ds : list drained) : Monitor :=
  match ds with
  | [] => m
  | d :: _ => set_deferred (fold_left (count_response channel) ds m)
                {[cid := MkDeferred channel (map snd ds) d.1]}
  end.

Lemma drain_unknown channel m d :
  co_entries (mo_correlate m) !! h_correlation_id d.2.1.1 = None →
  drain_response channel m d =
  defer_response d.1 channel d.2.1.1 d.2.1.2 d.2.2 (count_response channel m d).
Proof.
  destruct d as [now [[header emitter] sample]]. cbn [fst snd]. intros Hc.
  unfold drain_response, monitor_on_response, count_response, sample_kind, correlate_on_response. cbn [fst snd].
  set (m1 := set_metrics m _). change (mo_correlate m1) with (mo_correlate m). rewrite Hc.
  assert (set_correlate m1 (mo_correlate m) = m1) as Hsame by (by destruct m).
  destruct (kind_is_terminal _); [|by rewrite Hsame]. rewrite delete_id by done.
  assert (set_entries (mo_correlate m) (co_entries (mo_correlate m)) = mo_correlate m) as ->
    by (by destruct (mo_correlate m)).
  by rewrite Hsame.
Qed.

Lemma count_all_tables channel ds m :
  mo_deferred (fold_left (count_response channel) ds m) = mo_deferred m ∧
  mo_correlate (fold_left (count_response channel) ds m) = mo_correlate m.
Proof. revert m. induction ds as [|d ds IH]; intros m; [done|]. apply (IH (count_response channel m d)). Qed.

Lemma defer_spec now channel header emitter sample m :
  (size (mo_deferred m) < MAX_DEFERRED)%nat →
  (∀ e, mo_deferred m !! h_correlation_id header = Some e → (length (de_samples e) < MAX_DEFERRED_SAMPLES)%nat) →
  defer_response now channel header emitter sample m =
  set_deferred m (<[h_correlation_id header :=
    match mo_deferred m !! h_correlation_id header with
    | Some e => MkDeferred (de_channel e) (de_samples e ++ [(header, emitter, sample)]) (de_since e)
    | None => MkDeferred channel [(header, emitter, sample)] now
    end]> (mo_deferred m)).
Proof.
  intros Hsize Hlen. unfold defer_response, evict_deferred. rewrite (bool_decide_eq_false_2 (_ ≤ size _)%nat) by lia.
  destruct (mo_deferred m !! h_correlation_id header) as [e|] eqn:He; [|done].
  specialize (Hlen e eq_refl). by rewrite bool_decide_eq_false_2 by lia.
Qed.

Lemma drain_all_unknown cid channel ds m :
  Forall (λ d : drained, h_correlation_id d.2.1.1 = cid) ds →
  co_entries (mo_correlate m) !! cid = None → mo_deferred m = ∅ →
  (length ds ≤ MAX_DEFERRED_SAMPLES)%nat →
  fold_left (drain_response channel) ds m = held cid channel m ds.
Proof.
  intros Hcid Hc Hde. pose proof max_deferred_pos. pose proof max_samples_pos.
  induction ds as [|d ds IH] using rev_ind; intros Hlen; [done|].
  apply Forall_app in Hcid as [Hcid [Hd _]%Forall_cons]. rewrite length_app in Hlen. simpl in Hlen.
  rewrite fold_left_app. cbn [fold_left]. rewrite IH by (done || lia).
  destruct ds as [|d0 ds]; cbn [held].
  - rewrite drain_unknown by (by rewrite Hd). rewrite defer_spec, Hd; cbn [count_response set_metrics mo_deferred].
    + rewrite Hde, lookup_empty. unfold held. cbn [fold_left map]. rewrite insert_empty.
      by destruct d as [now [[header emitter] sample]].
    + rewrite Hde, map_size_empty. lia.
    + rewrite Hde. intros e. by rewrite lookup_empty.
  - destruct (count_all_tables channel (d0 :: ds) m) as [_ Hco].
    rewrite drain_unknown by (rewrite Hd; cbn [set_deferred mo_correlate]; by rewrite Hco).
    rewrite defer_spec, Hd; cbn [count_response set_metrics set_deferred mo_deferred].
    + rewrite lookup_singleton_eq, insert_singleton_eq. cbn [app held]. unfold count_response, set_deferred.
      rewrite app_comm_cons, map_app, fold_left_app. by destruct d as [now [[header emitter] sample]].
    + rewrite map_size_singleton. lia.
    + rewrite Hd. intros e. rewrite lookup_singleton_eq. intros [= <-]. cbn [de_samples length map] in *. rewrite length_map. unfold drained in *. lia.
Qed.

Lemma request_deferred now channel header sample m x :
  monitor_on_request now channel header sample (set_deferred m x) =
  set_deferred (monitor_on_request now channel header sample m) x.
Proof.
  unfold monitor_on_request. case_decide; [|done]. cbn zeta.
  change (mo_correlate (set_deferred m x)) with (mo_correlate m).
  change (method_text (set_deferred m x) header) with (method_text m header).
  by destruct (correlate_insert _ _ _) as [evicted co'].
Qed.

Lemma request_tables now channel header sample m :
  mo_deferred (monitor_on_request now channel header sample m) = mo_deferred m ∧
  (event_kind header = KRequest →
   is_Some (co_entries (mo_correlate (monitor_on_request now channel header sample m)) !!
     h_correlation_id header)).
Proof.
  unfold monitor_on_request. case_decide; [|done]. cbn zeta. unfold correlate_insert.
  destruct (evict_oldest (mo_correlate m)) as [evicted entries]. split; [done|]. intros _. simpl.
  by rewrite lookup_insert_eq.
Qed.

Lemma replay_all_deferred cid channel l m :
  mo_deferred (fold_left (replay_sample decode_rpc_error cid channel) l m) = mo_deferred m.
Proof.
  revert m. induction l as [|[[header emitter] sample] l IH]; intros m; [done|]. cbn [fold_left].
  rewrite IH. unfold replay_sample. destruct (correlate_on_response _ _ _) as [[call|] co']; [|done].
  by rewrite (proj1 (proj2 (complete_response_spec _ _ _ _ _ _ _))).
Qed.

Lemma hash_iter_empty {V} : hash_iter (∅ : gmap bytes V) = [].
Proof. apply Permutation_nil. rewrite hash_iter_perm. by rewrite map_to_list_empty. Qed.

Lemma hash_iter_singleton {V} (k : bytes) (v : V) : hash_iter ({[k := v]} : gmap bytes V) = [(k, v)].
Proof. apply Permutation_length_1_inv. rewrite hash_iter_perm. by rewrite map_to_list_singleton. Qed.

Lemma expire_empty now m : mo_deferred m = ∅ → expire_deferred now m = m.
Proof.
  intros He. unfold expire_deferred. rewrite He, hash_iter_empty, map_filter_empty. simpl.
  destruct m. simpl in *. by subst.
Qed.

(** A response stream drained before its request is not lost nor counted
    twice: when its samples have been held and the request is then drained,
    resolving the deferred responses leaves the observer exactly as if the
    request had been drained first: same counters, latencies, gauges, tables and
    traces. *)
Theorem overtaking_is_transparent m channel ds header sample now now' :
  event_kind header = KRequest →
  stream_of (h_correlation_id header) ds → (length ds ≤ MAX_DEFERRED_SAMPLES)%nat →
  co_entries (mo_correlate m) !! h_correlation_id header = None → mo_deferred m = ∅ →
  resolve_deferred decode_rpc_error now'
    (monitor_on_request now channel header sample (fold_left (drain_response channel) ds m)) =
  fold_left (drain_response channel) ds (monitor_on_request now channel header sample m).
Proof.
  intros Hkind Hstream Hlen Hnone Hde.
  rewrite (drain_all_unknown (h_correlation_id header)) by (try done; apply Hstream).
  destruct (request_tables now channel header sample m) as [Hrd Hrt]. specialize (Hrt Hkind).
  rewrite (drain_all_tracked (h_correlation_id header)) by done.
  destruct ds as [|d ds].
  { cbn [held fold_left map]. unfold resolve_deferred. rewrite decide_True; [done|]. by rewrite Hrd. }
  unfold held. rewrite request_deferred.
  assert (Hcount : ∀ l m, monitor_on_request now channel header sample (fold_left (count_response channel) l m) =
    fold_left (count_response channel) l (monitor_on_request now channel header sample m)).
  { induction l as [|x l IH]; intros m0; [done|]. cbn [fold_left]. by rewrite IH, request_count. }
  rewrite Hcount. set (R := monitor_on_request now channel header sample m) in *.
  destruct (count_all_tables channel (d :: ds) R) as [Hcd Hco]. set (X := fold_left _ (d :: ds) R) in *.
  unfold resolve_deferred. cbn [set_deferred mo_deferred]. rewrite decide_False by apply map_non_empty_singleton.
  unfold ready_deferred. cbn [set_deferred mo_deferred mo_correlate]. rewrite hash_iter_singleton. cbn [map fst].
  rewrite filter_cons_True by (unfold contains; rewrite Hco; by apply bool_decide_eq_true). rewrite filter_nil.
  cbn [fold_left]. unfold replay_entry. cbn [set_deferred mo_deferred].
  rewrite lookup_singleton_eq, delete_singleton_eq. cbn [de_channel de_samples].
  match goal with |- context [fold_left (replay_sample _ _ _) _ ?Y] => assert (Y = X) as -> end.
  { rewrite Hrd, Hde in Hcd. clearbody X. destruct X. simpl in *. by subst. }
  apply expire_empty. etrans; [exact (replay_all_deferred (h_correlation_id header) channel (map snd (d :: ds)) X)|].
  by rewrite Hcd, Hrd.
Qed.
(** *** The end of the stream drained with its request *)

(** What an observed request leaves alone, and the call it makes. *)
Lemma request_effects now channel header sample m :
  event_kind header = KRequest →
  let m1 := monitor_on_request now channel header sample m in
  m_latency (mo_metrics m1) = m_latency (mo_metrics m) ∧ m_orphan (mo_metrics m1) = m_orphan (mo_metrics m) ∧
  ∃ call, co_entries (mo_correlate m1) !! h_correlation_id header = Some call ∧
    pc_channel call = channel ∧ pc_service_id call = h_service_id header ∧ pc_method call = method_text m header ∧
    pc_request_ts_ns call = h_timestamp_ns header ∧ pc_first_response_seen call = false.
Proof.
  intros Hk. unfold monitor_on_request. rewrite decide_True by done. cbn zeta. unfold correlate_insert.
  destruct (evict_oldest (mo_correlate m)) as [evicted entries].
  assert (Hdrop : ∀ l x, m_latency (fold_left (λ x c, drop_pending c x) l x) = m_latency x ∧
    m_orphan (fold_left (λ x c, drop_pending c x) l x) = m_orphan x).
  { intros l. induction l as [|c l IH]; intros x; [done|]. simpl. by destruct (IH (drop_pending c x)) as [-> ->]. }
  cbn [set_metrics set_correlate mo_metrics mo_correlate set_entries co_entries].
  split_and!; [by rewrite (proj1 (Hdrop _ _))|by rewrite (proj2 (Hdrop _ _))|].
  rewrite lookup_insert_eq. eexists. by split_and!.
Qed.

(** What the end of a call that was not answered before does. *)
Lemma first_end_effects now channel header emitter sample m call :
  kind_is_terminal (event_kind header) = true → co_entries (mo_correlate m) !! h_correlation_id header = Some call →
  pc_first_response_seen call = false → pc_request_ts_ns call ≤ h_timestamp_ns header →
  let m1 := monitor_on_response decode_rpc_error now channel header emitter sample m in
  m_latency (mo_metrics m1) = observe_at LATENCY_BOUNDS (seconds_between (pc_request_ts_ns call) (h_timestamp_ns header))
    (pc_channel call, pc_service_id call, pc_method call) (m_latency (mo_metrics m)) ∧
  m_orphan (mo_metrics m1) = m_orphan (mo_metrics m) ∧ mo_deferred m1 = mo_deferred m ∧
  co_entries (mo_correlate m1) !! h_correlation_id header = None.
Proof.
  intros Ht Hc Hf Hle. unfold monitor_on_response. cbn zeta. unfold correlate_on_response. rewrite Ht.
  cbn [set_metrics mo_correlate]. rewrite Hc.
  set (m1 := set_correlate _ _).
  destruct (complete_response_spec channel header emitter sample call (event_kind header) m1) as (Hco & Hde & _).
  rewrite Hco, Hde. split; [|split; [|split; [done|apply lookup_delete_eq]]].
  all: unfold complete_response; rewrite Hf, (proj2 (Z.leb_le _ _)), Ht by done.
  all: unfold emit_trace; cbn [set_metrics mo_trace m1 set_correlate]; by destruct (mo_trace m).
Qed.

Lemma orphans_counted entry x :
  default 0 (m_orphan (orphans entry x) !! de_channel entry) =
    default 0 (m_orphan x !! de_channel entry) + Z.of_nat (length (de_samples entry)) ∧
  m_latency (orphans entry x) = m_latency x.
Proof.
  unfold orphans. induction (length (de_samples entry)) as [|n [IH1 IH2]]; [split; [simpl; lia|done]|]. rewrite Nat2Z.inj_succ.
  change (Nat.iter (S n) (on_orphan_response (de_channel entry)) x) with
    (on_orphan_response (de_channel entry) (Nat.iter n (on_orphan_response (de_channel entry)) x)).
  split; [|by rewrite <- IH2]. cbn [on_orphan_response m_orphan]. unfold bump. rewrite lookup_insert_eq. simpl. lia.
Qed.

(** Held responses whose call is not tracked wait, and are given up after their grace. *)
Lemma resolve_untracked now m cid entry :
  mo_deferred m = {[cid := entry]} → co_entries (mo_correlate m) !! cid = None →
  resolve_deferred decode_rpc_error now m =
    if decide (ORPHAN_GRACE ≤ Z.max 0 (now - de_since entry)) then
      set_metrics (set_deferred m ∅) (orphans entry (mo_metrics m))
    else m.
Proof.
  intros Hd Hn. unfold resolve_deferred. rewrite Hd, decide_False by apply map_non_empty_singleton.
  assert (ready_deferred m = []) as ->.
  { unfold ready_deferred. rewrite Hd, hash_iter_singleton. simpl. rewrite filter_cons_False; [done|].
    unfold contains. rewrite Hn. by rewrite bool_decide_eq_false_2 by (by intros [? ?]). }
  cbn [fold_left]. unfold expire_deferred. rewrite Hd, hash_iter_singleton. case_decide as Hg.
  - rewrite filter_cons_True by done. rewrite filter_nil. cbn [fold_left].
    rewrite map_filter_singleton_False; [done|]. simpl. lia.
  - rewrite filter_cons_False by done. rewrite filter_nil. cbn [fold_left].
    rewrite map_filter_singleton_True by (simpl; lia). rewrite <- Hd. by destruct m.
Qed.

End runs.

(** ** Examples *)

Definition example_header (cid : Z) (kind : EventKind) (ts : Z) : RpcHeader :=
  MkHeader (replicate 16 cid) ts 0 zero_trace_id 0 0 7 0 0 (as_u8 kind) 2 1 0.

Definition example_emitter : Emitter := MkEmitter 4242 1 9.

Definition no_error (bs : bytes) : option RpcError := None.

(** Two calls, one answered before its request is seen, one never. *)
Definition example_steps : list MonitorStep :=
  [MSample 0 "app" DResponse (example_header 1 KComplete 900) example_emitter (Meta 3);
   MSample 1 "app" DRequest (example_header 1 KRequest 400) example_emitter (Meta 8);
   MSample 2 "app" DRequest (example_header 2 KRequest 500) example_emitter (Meta 8);
   MResolve 3].

Lemma inflight_gauge_exact_witness :
  let m := fold_left (monitor_step no_error) example_steps (monitor_new ∅ 10 60 1) in
  gauge ("app"%string, 7) (mo_metrics m) = 1.
Proof.
  cbn zeta. rewrite (proj1 (inflight_gauge_exact no_error ∅ 10 60 1 example_steps
    ltac:(apply (bool_decide_unpack _); vm_compute; exact I))).
  by vm_compute.
Defined.

Lemma overtaking_is_transparent_witness :
  let m := monitor_new ∅ 10 60 1 in
  let ds := [(0, (example_header 1 KNext 800, example_emitter, Meta 3));
             (1, (example_header 1 KComplete 900, example_emitter, Meta 0))] in
  resolve_deferred no_error 3
    (monitor_on_request 2 "app" (example_header 1 KRequest 400) (Meta 8)
       (fold_left (drain_response no_error "app") ds m)) =
  fold_left (drain_response no_error "app") ds
    (monitor_on_request 2 "app" (example_header 1 KRequest 400) (Meta 8) m).
Proof.
  apply overtaking_is_transparent; try reflexivity.
  - by repeat constructor.
  - apply Nat.leb_le. by vm_compute.
Defined.

