(* ===== verification/Parse.v ===== *)
(** * Reading text

    The functions of Rust's standard library the program reads text with:
    splitting, trimming, prefixes and suffixes, integers, floating point numbers
    and lossy UTF-8.  A text is its bytes; the separators are ASCII. *)

From Stdlib Require Import SpecFloat.
From S2P Require Import Prelude MachineInt Text Metrics.

Local Open Scope Z_scope.

(** ** Splitting *)

(** [split(sep)]: never empty. *)
Fixpoint split (sep : Z) (s : bytes) : list bytes :=
  match s with
  | [] => [[]]
  | c :: s' =>
      if c =? sep then [] :: split sep s'
      else match split sep s' with
           | w :: ws => (c :: w) :: ws
           | [] => [[c]]
           end
  end.

(** [split_once(sep)]. *)
Fixpoint split_once (sep : Z) (s : bytes) : option (bytes * bytes) :=
  match s with
  | [] => None
  | c :: s' =>
      if c =? sep then Some ([], s')
      else match split_once sep s' with Some (a, b) => Some (c :: a, b) | None => None end
  end.

Fixpoint trim_start (sep : Z) (s : bytes) : bytes :=
  match s with
  | c :: s' => if c =? sep then trim_start sep s' else s
  | [] => []
  end.

(** [trim_matches(sep)]. *)
Definition trim_matches (sep : Z) (s : bytes) : bytes :=
  reverse (trim_start sep (reverse (trim_start sep s))).

Definition starts_with (prefix s : bytes) : bool := bool_decide (take (length prefix) s = prefix).

Definition ends_with (suffix s : bytes) : bool :=
  bool_decide (length suffix ≤ length s)%nat &&
  bool_decide (drop (length s - length suffix) s = suffix).

Definition strip_prefix (prefix s : bytes) : option bytes :=
  if starts_with prefix s then Some (drop (length prefix) s) else None.

Definition strip_suffix (suffix s : bytes) : option bytes :=
  if ends_with suffix s then Some (take (length s - length suffix) s) else None.

(** [eq_ignore_ascii_case]. *)
Definition ascii_lower (c : Z) : Z := if (65 <=? c) && (c <=? 90) then c + 32 else c.

Definition eq_ignore_case (a b : bytes) : bool := bool_decide (map ascii_lower a = map ascii_lower b).

(** ** Integers *)

Definition digit (c : Z) : option Z := if (48 <=? c) && (c <=? 57) then Some (c - 48) else None.

(** The value of a non-empty run of digits, to the end. *)
Fixpoint digits_value (acc : Z) (s : bytes) : option Z :=
  match s with
  | [] => Some acc
  | c :: s' => d ← digit c; digits_value (10 * acc + d) s'
  end.

Definition parse_digits (s : bytes) : option Z :=
  match s with [] => None | _ => digits_value 0 s end.

(** [parse::<u64>()] and [parse::<i64>()]: a sign, digits, and the value in range. *)
Definition parse_u64 (s : bytes) : option Z :=
  n ← parse_digits (match s with 43 :: s' => s' | _ => s end);
  if n <? 2 ^ 64 then Some n else None.

Definition parse_i64 (s : bytes) : option Z :=
  match s with
  | 45 :: s' => n ← parse_digits s'; if n <=? 2 ^ 63 then Some (- n) else None
  | _ =>
      n ← parse_digits (match s with 43 :: s' => s' | _ => s end);
      if n <? 2 ^ 63 then Some n else None
  end.

(** ** Floating point *)

(** The run of digits [s] starts with, its value and length, and the rest. *)
Fixpoint digit_run (acc : Z) (len : nat) (s : bytes) : Z * nat * bytes :=
  match s with
  | c :: s' => match digit c with
               | Some d => digit_run (10 * acc + d) (S len) s'
               | None => (acc, len, s)
               end
  | [] => (acc, len, [])
  end.

(** The nearest binary64 to the quotient of two positive integers. *)
Definition f64_ratio (negative : bool) (num den : positive) : f64 :=
  let '(m, e, l) := SFdiv_core_binary 53 1024 (Zpos num) 0 (Zpos den) 0 in
  binary_round_aux 53 1024 negative m e l.

(** The nearest binary64 to [m * 10 ^ e]. *)
Definition f64_decimal (negative : bool) (m e : Z) : f64 :=
  match m with
  | Zpos p =>
      if 0 <=? e then f64_ratio negative (p * Z.to_pos (10 ^ e)) 1
      else f64_ratio negative p (Z.to_pos (10 ^ (- e)))
  | _ => S754_zero negative
  end.

(** The exponent, to the end of the text. *)
Definition parse_exponent (s : bytes) : option Z :=
  match s with
  | [] => Some 0
  | c :: s' =>
      if (c =? 101) || (c =? 69) then
        match s' with
        | 45 :: s2 => Z.opp <$> parse_digits s2
        | 43 :: s2 => parse_digits s2
        | _ => parse_digits s'
        end
      else None
  end.

Definition parse_unsigned_f64 (negative : bool) (s : bytes) : option f64 :=
  if eq_ignore_case s (as_bytes "inf") || eq_ignore_case s (as_bytes "infinity") then
    Some (S754_infinity negative)
  else if eq_ignore_case s (as_bytes "nan") then Some S754_nan
  else
    let '(whole, n1, rest) := digit_run 0 0 s in
    let '(m, n2, rest') := match rest with 46 :: r => digit_run whole 0 r | _ => (whole, 0%nat, rest) end in
    if bool_decide (n1 + n2 = 0)%nat then None
    else e ← parse_exponent rest'; Some (f64_decimal negative m (e - Z.of_nat n2)).

Definition parse_f64 (s : bytes) : option f64 :=
  match s with
  | 45 :: s' => parse_unsigned_f64 true s'
  | 43 :: s' => parse_unsigned_f64 false s'
  | _ => parse_unsigned_f64 false s
  end.

Definition f64_is_finite (x : f64) : bool :=
  match x with S754_zero _ | S754_finite _ _ _ => true | _ => false end.

(** ** UTF-8 *)

Definition in_range (lo hi c : Z) : bool := (lo <=? c) && (c <=? hi).

(** The bytes the next character takes, and whether it is one; an invalid
    sequence is cut where it stops being a prefix of a character. *)
Definition utf8_next (s : bytes) : nat * bool :=
  let at_ i := nth i s 0 in
  let cont i := in_range 128 191 (at_ i) in
  let b0 := at_ 0%nat in
  let b1 := at_ 1%nat in
  if b0 <? 128 then (1%nat, true)
  else if in_range 194 223 b0 then if cont 1%nat then (2%nat, true) else (1%nat, false)
  else if in_range 224 239 b0 then
    let ok1 := if b0 =? 224 then in_range 160 191 b1
               else if b0 =? 237 then in_range 128 159 b1 else cont 1%nat in
    if ok1 then if cont 2%nat then (3%nat, true) else (2%nat, false) else (1%nat, false)
  else if in_range 240 244 b0 then
    let ok1 := if b0 =? 240 then in_range 144 191 b1
               else if b0 =? 244 then in_range 128 143 b1 else cont 1%nat in
    if ok1 then
      if cont 2%nat then if cont 3%nat then (4%nat, true) else (3%nat, false) else (2%nat, false)
    else (1%nat, false)
  else (1%nat, false).

Definition REPLACEMENT : bytes := [239; 191; 189].

(** [String::from_utf8_lossy]; every step consumes a byte. *)
Fixpoint lossy_fuel (fuel : nat) (s : bytes) : bytes :=
  match fuel, s with
  | S fuel', _ :: _ =>
      let (n, ok) := utf8_next s in
      (if ok then take n s else REPLACEMENT) ++ lossy_fuel fuel' (drop n s)
  | _, _ => []
  end.

Definition from_utf8_lossy (s : bytes) : bytes := lossy_fuel (length s) s.

(** Text that is valid UTF-8, as every [&str] is. *)
Inductive utf8 : bytes → Prop :=
| utf8_nil : utf8 []
| utf8_char s n : s ≠ [] → utf8_next s = (n, true) → (n ≤ length s)%nat → utf8 (drop n s) → utf8 s.

(** ** Facts *)

(** Words put back together. *)
Fixpoint join (sep : Z) (ws : list bytes) : bytes :=
  match ws with
  | [] => []
  | [w] => w
  | w :: ws' => w ++ sep :: join sep ws'
  end.

Lemma split_not_nil sep s : split sep s ≠ [].
Proof. destruct s as [|c s]; simpl; [done|]. destruct (c =? sep); [done|]. by destruct (split sep s). Qed.

Lemma join_split sep s : join sep (split sep s) = s.
Proof.
  induction s as [|c s IH]; [done|]. simpl. pose proof (split_not_nil sep s).
  destruct (Z.eqb_spec c sep) as [->|]; destruct (split sep s) as [|w [|w' ws]]; try done; simpl in *; by rewrite IH.
Qed.

(** No word of a split holds the separator. *)
Lemma split_words sep s : Forall (λ w, sep ∉ w) (split sep s).
Proof.
  induction s as [|c s IH]; simpl; [constructor; [apply not_elem_of_nil|done]|].
  destruct (Z.eqb_spec c sep) as [->|Hne]; [constructor; [apply not_elem_of_nil|done]|].
  destruct (split sep s) as [|w ws]; inversion IH; subst; repeat constructor; try done.
  - by rewrite list_elem_of_singleton.
  - rewrite elem_of_cons. by intros [->|].
Qed.

Lemma split_app sep w s : sep ∉ w → split sep (w ++ sep :: s) = w :: split sep s.
Proof.
  induction w as [|c w IH]; simpl; [by rewrite Z.eqb_refl|].
  rewrite not_elem_of_cons. intros [Hc Hw]. destruct (Z.eqb_spec c sep); [congruence|]. by rewrite IH.
Qed.

Lemma split_single sep w : sep ∉ w → split sep w = [w].
Proof.
  induction w as [|c w IH]; [done|]. rewrite not_elem_of_cons. intros [Hc Hw]. simpl.
  destruct (Z.eqb_spec c sep); [congruence|]. by rewrite IH.
Qed.

Lemma split_join sep ws : ws ≠ [] → Forall (λ w, sep ∉ w) ws → split sep (join sep ws) = ws.
Proof.
  induction ws as [|w [|w' ws] IH]; [done|..]; intros _ Hw; apply Forall_cons in Hw as [Hw Hws].
  - by apply split_single.
  - change (join sep (w :: w' :: ws)) with (w ++ sep :: join sep (w' :: ws)).
    rewrite split_app by done. by rewrite IH.
Qed.

Lemma split_once_app sep a b : sep ∉ a → split_once sep (a ++ sep :: b) = Some (a, b).
Proof.
  induction a as [|c a IH]; simpl; [by rewrite Z.eqb_refl|].
  rewrite not_elem_of_cons. intros [Hc Ha]. destruct (Z.eqb_spec c sep); [congruence|]. by rewrite IH.
Qed.

(** Trimming takes a run of separators off each end. *)
Lemma trim_start_spec sep s :
  ∃ n, s = replicate n sep ++ trim_start sep s ∧ head (trim_start sep s) ≠ Some sep.
Proof.
  induction s as [|c s (n & Hs & Hh)]; simpl; [by exists 0%nat|].
  destruct (Z.eqb_spec c sep) as [->|Hne].
  - exists (S n). simpl. by rewrite <- Hs.
  - exists 0%nat. simpl. split; [done|]. congruence.
Qed.

Lemma trim_start_replicate sep n s : head s ≠ Some sep → trim_start sep (replicate n sep ++ s) = s.
Proof.
  intros Hs. induction n as [|n IH]; simpl.
  - destruct s as [|c s]; [done|]. simpl in *. destruct (Z.eqb_spec c sep); [congruence|done].
  - by rewrite Z.eqb_refl.
Qed.

(** A valid text is its own lossy reading. *)
Lemma utf8_next_pos s : (0 < (utf8_next s).1)%nat.
Proof. unfold utf8_next. repeat case_match; simpl; lia. Qed.

Lemma from_utf8_lossy_valid s : utf8 s → from_utf8_lossy s = s.
Proof.
  unfold from_utf8_lossy. assert (Hfuel : ∀ fuel s, (length s ≤ fuel)%nat → utf8 s → lossy_fuel fuel s = s).
  { clear. induction fuel as [|fuel IH]; intros s Hlen Hu.
    - by destruct s; simpl in *; [|lia].
    - destruct Hu as [|s n Hne Hnext Hn Hu]; [done|]. pose proof (utf8_next_pos s) as Hpos.
      rewrite Hnext in Hpos. simpl in Hpos. destruct s as [|c s]; [done|]. cbn [lossy_fuel]. rewrite Hnext.
      rewrite IH; [|rewrite length_drop; lia|done]. apply take_drop. }
  by apply Hfuel.
Qed.

Lemma utf8_ascii s : Forall (λ c, c < 128) s → utf8 s.
Proof.
  induction 1 as [|c s Hc Hs IH]; [constructor|]. apply (utf8_char _ 1); [done| |simpl; lia|done].
  unfold utf8_next. simpl. by destruct (Z.ltb_spec c 128); [|lia].
Qed.

(** ** Numbers read back *)

Lemma digit_char d : (d < 10)%N → digit (Z.of_N (Ascii.N_of_ascii (pretty_N_char d))) = Some (Z.of_N d).
Proof.
  intros Hd. assert (d = 0 ∨ d = 1 ∨ d = 2 ∨ d = 3 ∨ d = 4 ∨ d = 5 ∨ d = 6 ∨ d = 7 ∨ d = 8 ∨ d = 9)%N
    as Hcases by lia. by destruct_or! Hcases; subst d.
Qed.

Lemma digits_pretty x s :
  digits_value 0 (as_bytes (pretty_N_go x s)) = digits_value (Z.of_N x) (as_bytes s).
Proof.
  revert s. induction (N.lt_wf_0 x) as [x _ IH]. intros s.
  assert (x = 0 ∨ 0 < x)%N as [->|Hx] by lia; [by rewrite pretty_N_go_0|].
  rewrite pretty_N_go_step, IH by (done || by apply N.div_lt).
  cbn [as_bytes String.list_ascii_of_string map digits_value].
  change (as_bytes (String ?c ?t)) with (Z.of_N (Ascii.N_of_ascii c) :: as_bytes t). cbn [digits_value].
  rewrite digit_char by (by apply N.mod_lt). cbn [mbind option_bind]. f_equal.
  rewrite N2Z.inj_div, N2Z.inj_mod. change (Z.of_N 10) with 10. symmetry. apply Z.div_mod. lia.
Qed.

(** The first character of a number is a digit. *)
Lemma pretty_head x s : (0 < x)%N → ∃ c t, pretty_N_go x s = String c t ∧ is_Some (digit (Z.of_N (Ascii.N_of_ascii c))).
Proof.
  revert s. induction (N.lt_wf_0 x) as [x _ IH]. intros s Hx. rewrite pretty_N_go_step by done.
  assert (x `div` 10 = 0 ∨ 0 < x `div` 10)%N as [->|Hdiv] by (generalize (x `div` 10)%N; lia); [|apply IH; [by apply N.div_lt|done]].
  rewrite pretty_N_go_0. eexists _, _. split; [done|]. rewrite digit_char by (by apply N.mod_lt). done.
Qed.

Lemma parse_u64_pretty n : u64 n → parse_u64 (as_bytes (pretty n)) = Some n.
Proof.
  intros [Hlo Hhi]. unfold parse_u64.
  assert (Hgo : ∀ x, x ≠ 0%N → parse_digits (as_bytes (pretty_N_go x "")) = Some (Z.of_N x) ∧
    match as_bytes (pretty_N_go x "") with 43 :: s' => s' | _ => as_bytes (pretty_N_go x "") end
      = as_bytes (pretty_N_go x "")).
  { intros x Hx. destruct (pretty_head x "") as (c & t & Hc & d & Hd); [lia|].
    pose proof (digits_pretty x "") as Hv. rewrite Hc in *.
    change (as_bytes (String c t)) with (Z.of_N (Ascii.N_of_ascii c) :: as_bytes t) in *.
    split; [exact Hv|]. unfold digit in Hd. destruct (Z.eq_dec (Z.of_N (Ascii.N_of_ascii c)) 43) as [E|E]; [by rewrite E in Hd|].
    destruct (Z.of_N (Ascii.N_of_ascii c)) as [|p|p]; try done. by repeat (destruct p as [p|p|]; try done). }
  destruct n as [|p|p]; [done| |lia].
  destruct (Hgo (Npos p) ltac:(done)) as [Hp Hsign].
  change (pretty (Zpos p)) with (pretty_N_go (Npos p) "").
  rewrite Hsign, Hp. cbn [mbind option_bind]. change (Z.of_N (Npos p)) with (Zpos p).
  destruct (Z.ltb_spec (Zpos p) (2 ^ 64)); [done|lia].
Qed.
