(* ===== verification/Json.v ===== *)
(** * The JSON contract of a service ([ice-rpc/src/json.rs], [transport/json_host.rs])

    Both halves: how a JSON caller reads a call, and how the answers of a JSON
    host become the samples of a call.  The conversions of the payload types
    (serde) and of base64 are parameters; the deadline of the first answer is
    raced in an order drawn at random, and whether it has passed is an argument
    of each poll. *)

From S2P Require Import Prelude MachineInt Text Event Header Wire Stream Subscribe Bridge Client Metrics.

Local Open Scope Z_scope.

(** ** Values *)

Inductive Number : Type :=
| NPosInt (n : Z)
| NNegInt (n : Z)
| NFloat (x : f64).

(** [serde_json::Value]; the keys of an object are distinct. *)
Inductive Value : Type :=
| VNull
| VBool (b : bool)
| VNumber (n : Number)
| VString (s : string)
| VArray (l : list Value)
| VObject (fields : list (string * Value)).

Definition as_str (v : Value) : option string :=
  match v with VString s => Some s | _ => None end.

(** [Map::get], [Map::remove] and [Map::insert]. *)
Definition field_get (name : string) (fields : list (string * Value)) : option Value :=
  snd <$> find (λ f, bool_decide (f.1 = name)) fields.

Definition field_remove (name : string) (fields : list (string * Value)) : list (string * Value) :=
  filter (λ f, f.1 ≠ name) fields.

Definition field_insert (name : string) (v : Value) (fields : list (string * Value)) : list (string * Value) :=
  field_remove name fields ++ [(name, v)].

(** ** The caller *)

Inductive ReadMode : Type := First | All.

Inductive JsonOutcome : Type :=
| JValue (v : Value)
| JNothing
| JAccepted (delivered : bool).

Inductive JsonCallError : Type :=
| InvalidArgs (message : string)
| BusinessError (message : string)
| TransportFailure (message : string).

(** [collect::<Result<Vec<_>, _>>]: the first failure wins. *)
Fixpoint collect_results {A B X} (f : A → result B X) (l : list A) : result (list B) X :=
  match l with
  | [] => Ok []
  | a :: l' =>
      match f a with
      | Err e => Err e
      | Ok b => match collect_results f l' with Ok bs => Ok (b :: bs) | Err e => Err e end
      end
  end.

Section reading.
Context {S T E : Type} `{Sized S (Event T E)}.
(** [serde_json::to_value] and the [Display] of the business error. *)
Context (to_value : T → result Value string) (display : E → string).

Definition first_outcome (r : result T (ObservableError E)) : result JsonOutcome JsonCallError :=
  match r with
  | Ok value =>
      match to_value value with
      | Ok v => Ok (JValue v)
      | Err e => Err (TransportFailure ("failed to serialize the response: " +:+ e))
      end
  | Err (Business e) => Err (BusinessError (display e))
  | Err (Technical e) => Err (TransportFailure (RpcError_display e))
  | Err Empty => Ok JNothing
  end.

Definition all_outcome (r : result (list T) (ObservableError E)) : result JsonOutcome JsonCallError :=
  match r with
  | Ok values =>
      match collect_results to_value values with
      | Ok vs => Ok (JValue (VArray vs))
      | Err e => Err (TransportFailure ("failed to serialize a value: " +:+ e))
      end
  | Err (Business e) => Err (BusinessError (display e))
  | Err (Technical e) => Err (TransportFailure (RpcError_display e))
  | Err Empty => Ok (JValue (VArray []))
  end.

(** One poll of [read_json], over the stream and what was collected of it. *)
Definition read_json (read : ReadMode) (st : S * list T)
    : poll (result JsonOutcome JsonCallError) * (S * list T) :=
  match read with
  | First =>
      match first_event st.1 with
      | (Ready r, s') => (Ready (first_outcome r), (s', st.2))
      | (Pending, s') => (Pending, (s', st.2))
      end
  | All =>
      match collect_values st with
      | (Ready r, st') => (Ready (all_outcome r), st')
      | (Pending, st') => (Pending, st')
      end
  end.

(** What a JSON caller is told of a sequence of events. *)
Definition json_answer (read : ReadMode) (l : list (Event T E)) : result JsonOutcome JsonCallError :=
  match read with
  | First => first_outcome (first_answer l)
  | All => all_outcome (collect_answer l)
  end.

(** Reading a call as JSON answers for any stream that ends, whatever its
    pauses: the first value, or all of them, serialized; a business error and a
    transport failure told apart; a call without a value is a success, told
    apart from a null value under [First], an empty array under [All]. *)
Theorem read_json_answers read (s : S) l :
  yields s l → ∃ st', completes (read_json read) (s, []) (json_answer read l) st'.
Proof.
  intros Hy. destruct read; simpl.
  - destruct (first_event_completes s l Hy) as [s' Hc]. exists (s', []). clear Hy.
    induction Hc as [s0 r s1 Hp|s0 s1 r s2 Hp Hc IH].
    + apply completes_ready. simpl. by rewrite Hp.
    + eapply completes_pending; [simpl; by rewrite Hp|done].
  - destruct (collect_values_completes s l [] Hy) as [st' Hc]. exists st'. clear Hy.
    change (match before_terminal l with
            | (vs, None) => Ok ([] ++ vs) | (_, Some e) => Err e end) with (collect_answer l) in Hc.
    induction Hc as [s0 r s1 Hp|s0 s1 r s2 Hp Hc IH].
    + apply completes_ready. simpl. by rewrite Hp.
    + eapply completes_pending; [simpl; by rewrite Hp|done].
Qed.
End reading.

(** ** Arguments *)

Section arguments.
(** [serde_json::from_value] and the standard base64 decoder, with their messages. *)
Context {T : Type} (from_value : Value → result T string) (base64 : string → result bytes string).

Definition arg_from_json (method name : string) (value : Value) : result T JsonCallError :=
  match from_value value with
  | Ok v => Ok v
  | Err e => Err (InvalidArgs ("invalid parameter '" +:+ name +:+ "' of '" +:+ method +:+ "': " +:+ e))
  end.

Definition arg_from_base64 (method name : string) (value : option Value) : result bytes JsonCallError :=
  match value ≫= as_str with
  | None =>
      Err (InvalidArgs ("parameter '" +:+ name +:+ "' of '" +:+ method +:+ "' must be a base64 string"))
  | Some text =>
      match base64 text with
      | Ok bs => Ok bs
      | Err e =>
          Err (InvalidArgs
            ("parameter '" +:+ name +:+ "' of '" +:+ method +:+ "' is not valid base64: " +:+ e))
      end
  end.
End arguments.

(** [take_field]: the field is moved out, leaving [Null] in its place. *)
Definition take_field (args : Value) (name : string) : Value * Value :=
  match args with
  | VObject fields =>
      match field_get name fields with
      | Some v => (v, VObject (map (λ f, if bool_decide (f.1 = name) then (f.1, VNull) else f) fields))
      | None => (VNull, args)
      end
  | _ => (VNull, args)
  end.

(** ** The host *)

Section host.
Context {T E : Type} `{Codec T E}.
Context (from_value_t : Value → option T) (from_value_e : Value → option E).

Definition wire_from_json (value : Value) : option (WireEvent T E) :=
  match value with
  | VObject object =>
      match field_get "type" object ≫= as_str with
      | Some "complete"%string =>
          match field_get "data" object with
          | Some data => WCompleteWith <$> from_value_t data
          | None => Some WComplete
          end
      | Some "error"%string => data ← field_get "data" object; WError <$> from_value_e data
      | Some "next"%string | None => data ← field_get "data" object; WNext <$> from_value_t data
      | Some _ => None
      end
  | _ => None
  end.

(** [event_from_json]: the kind and the archive of the event. *)
Definition event_from_json (value : Value) : option (EventKind * bytes) :=
  event ← wire_from_json value; bs ← encode_event event; Some (wire_kind event, bs).

(** The envelope a host writes an event in. *)
Definition envelope (to_t : T → Value) (to_e : E → Value) (w : WireEvent T E) : option Value :=
  match w with
  | WNext v => Some (VObject [("data", to_t v); ("type", VString "next")]%string)
  | WComplete => Some (VObject [("type", VString "complete")]%string)
  | WCompleteWith v => Some (VObject [("data", to_t v); ("type", VString "complete")]%string)
  | WError e => Some (VObject [("data", to_e e); ("type", VString "error")]%string)
  | WRpcError _ => None
  end.

Lemma wire_from_envelope to_t to_e w v :
  (∀ x, from_value_t (to_t x) = Some x) → (∀ x, from_value_e (to_e x) = Some x) →
  envelope to_t to_e w = Some v → wire_from_json v = Some w.
Proof.
  intros Ht He. destruct w; intros; simplify_eq/=; by rewrite ?Ht, ?He.
Qed.

(** A stream of answers: [JsonCallStream]. *)
Inductive JsonCallEvent : Type :=
| JEvent (v : Value)
| JFailed (message : string).

Context {C : Type → Type} `{AsyncChannel C}.

Record JsonCallStream : Type := MkJsonCallStream {
  js_receiver : C Value;
  js_answered : bool
}.

Definition json_channel : JsonCallStream := MkJsonCallStream ch_unbounded false.

Definition no_answer : string := "the JSON host did not answer within 30s".

(** [recv] of the first event: the answer arms no further deadline. *)
Definition first_recv (s : JsonCallStream) : poll (option JsonCallEvent) * JsonCallStream :=
  match ch_poll_recv (js_receiver s) with
  | (Ready (Some v), rx) => (Ready (Some (JEvent v)), MkJsonCallStream rx true)
  | (Ready None, rx) => (Ready None, MkJsonCallStream rx (js_answered s))
  | (Pending, rx) => (Pending, MkJsonCallStream rx (js_answered s))
  end.

(** One poll of [next]: [recv_first] is the order drawn by the race of the
    deadline, [elapsed] whether its timer has fired. *)
Definition json_next (recv_first elapsed : bool) (s : JsonCallStream)
    : poll (option JsonCallEvent) * JsonCallStream :=
  if js_answered s then first_recv s
  else if recv_first then
    match first_recv s with
    | (Pending, s') => if elapsed then (Ready (Some (JFailed no_answer)), s') else (Pending, s')
    | r => r
    end
  else if elapsed then (Ready (Some (JFailed no_answer)), s)
  else first_recv s.

(** ** [json_host_handler] *)

Context {M : Type} `{ResponseEmitter M}.
Context (value_to_response : Value → option (EventKind * bytes)).

(** A round of the loop over the events. *)
Definition json_host_round (recv_first elapsed : bool) (st : JsonCallStream * M)
    : (JsonCallStream * M) + (poll () * (JsonCallStream * M)) :=
  let (events, emitter) := st in
  match json_next recv_first elapsed events with
  | (Pending, events') => inr (Pending, (events', emitter))
  | (Ready None, events') => inr (Ready (), (events', emitter))
  | (Ready (Some (JFailed message)), events') =>
      inr (Ready (), (events', reject_json_dispatch (T:=T) (E:=E) message emitter))
  | (Ready (Some (JEvent value)), events') =>
      match value_to_response value with
      | Some (kind, sample) => inl (events', (emit emitter kind sample).2)
      | None => inr (Ready (), (events', reject_json_response (T:=T) (E:=E) emitter))
      end
  end.

(** What the task does before its loop: the arguments decoded by
    [request_to_value], then the call handed to the host. *)
Definition json_host_start (args : option Value) (dispatch_json : Value → result JsonCallStream string)
    (emitter : M) : (JsonCallStream * M) + M :=
  match args with
  | None => inr (reject_json_request (T:=T) (E:=E) emitter)
  | Some a =>
      match dispatch_json a with
      | Ok events => inl (events, emitter)
      | Err e => inr (reject_json_dispatch (T:=T) (E:=E) e emitter)
      end
  end.
End host.

(** ** The registered host *)

(** [set_json_dispatcher] on the cell of the process: the first one stays. *)
Definition set_json_dispatcher {D} (d : D) (cell : option D) : option D :=
  match cell with Some d0 => Some d0 | None => Some d end.

Definition no_dispatcher : string :=
  "no JSON dispatcher registered — call ice_rpc::json::set_json_dispatcher() first".

Definition dispatch_json {A R} (cell : option (A → result R string)) (args : A) : result R string :=
  match cell with Some d => d args | None => Err no_dispatcher end.

(** ** What a host answers *)

Section answers.
Context {T E : Type} `{Codec T E} {C : Type → Type} `{AsyncChannelLaws C}.
Context (value_to_response : Value → option (EventKind * bytes)).

Abbreviation host_round := (json_host_round (T:=T) (E:=E) (C:=C) (M:=CollectEmitter) value_to_response).

(** The sample a rejection is. *)
Definition error_sample (err : RpcError) : list (EventKind * bytes) :=
  match encode_error (T:=T) (E:=E) err with Some bs => [(KRpcError, bs)] | None => [] end.

Fixpoint host_samples (vs : list Value) : list (EventKind * bytes) :=
  match vs with
  | [] => []
  | v :: vs' =>
      match value_to_response v with
      | Some sample => sample :: host_samples vs'
      | None => error_sample SerializationError
      end
  end.

Lemma rejected_sample err (acc : CollectEmitter) :
  (emit_rpc_error (T:=T) (E:=E) err acc).2 = acc ++ error_sample err.
Proof.
  unfold emit_rpc_error, error_sample. destruct (encode_error err); [done|]. by rewrite app_nil_r.
Qed.

(** The draw does not matter while the deadline has not passed. *)
Lemma json_next_in_time b (s : JsonCallStream (C:=C)) : json_next b false s = first_recv s.
Proof.
  unfold json_next. destruct (js_answered s), b; [done..| |done]. by destruct (first_recv s) as [[] ?].
Qed.

(** A JSON host that pushes its answers and closes the call is served to its
    end: each answer is one sample, in order, until one that cannot be encoded,
    which is reported as a serialization error and ends the call; whatever was
    drawn in the race of the deadline. *)
Theorem json_host_serves b (events : JsonCallStream (C:=C)) acc :
  cv_closed (ch_view (js_receiver events)) = true →
  ∃ events', loop_ends (host_round b false) (events, acc) ()
    (events', acc ++ host_samples (cv_queue (ch_view (js_receiver events)))).
Proof.
  remember (cv_queue (ch_view (js_receiver events))) as vs eqn:Hq. symmetry in Hq.
  revert events acc Hq. induction vs as [|v vs IH]; intros events acc Hq Hc.
  - eexists. apply ends_ready. unfold json_host_round. rewrite json_next_in_time. unfold first_recv.
    rewrite (ch_recv_end (js_receiver events)) by done. cbn [host_samples]. by rewrite app_nil_r.
  - destruct (ch_recv_some (js_receiver events) v vs Hq) as (rx & Hr & Hv). cbn [host_samples].
    assert (Hnext : json_next b false events = (Ready (Some (JEvent v)), MkJsonCallStream rx true)).
    { rewrite json_next_in_time. unfold first_recv. by rewrite Hr. }
    destruct (value_to_response v) as [[kind bs]|] eqn:Hresp.
    + destruct (IH (MkJsonCallStream rx true) (acc ++ [(kind, bs)])) as [events' Hends];
        [by cbn; rewrite Hv|by cbn; rewrite Hv|].
      exists events'. eapply ends_again; [unfold json_host_round; by rewrite Hnext, Hresp|].
      cbn [emit CollectEmitter_emit snd]. by rewrite <- app_assoc in Hends.
    + eexists. apply ends_ready. unfold json_host_round. rewrite Hnext, Hresp.
      unfold reject_json_response. by rewrite rejected_sample.
Qed.

(** A host that has not answered when the deadline passes is reported, once. *)
Lemma json_host_silent b (events : JsonCallStream (C:=C)) acc :
  js_answered events = false → cv_queue (ch_view (js_receiver events)) = [] →
  cv_closed (ch_view (js_receiver events)) = false →
  ∃ events', loop_ends (host_round b true) (events, acc) ()
    (events', acc ++ error_sample (Internal no_answer)).
Proof.
  intros Ha Hq Hc. destruct b; eexists; apply ends_ready; unfold json_host_round, json_next, first_recv;
    rewrite Ha, ?(ch_recv_wait (js_receiver events)) by done;
    unfold reject_json_dispatch; by rewrite rejected_sample.
Qed.
End answers.

Section native.
Context {T E : Type} `{Codec T E, !CodecLaws T E} {C : Type → Type} `{AsyncChannelLaws C}.
Context (from_value_t : Value → option T) (from_value_e : Value → option E).
Context (to_t : T → Value) (to_e : E → Value).
Hypothesis round_trip_t : ∀ x, from_value_t (to_t x) = Some x.
Hypothesis round_trip_e : ∀ x, from_value_e (to_e x) = Some x.

Lemma host_samples_frames ws vs :
  Forall2 (λ w v, envelope to_t to_e w = Some v ∧ is_Some (encode_event w)) ws vs →
  host_samples (T:=T) (E:=E) (event_from_json from_value_t from_value_e) vs = frames ws.
Proof.
  induction 1 as [|w v ws vs [Hv [bs Hbs]] Hall IH]; [done|]. cbn [host_samples frames].
  assert (event_from_json from_value_t from_value_e v = Some (wire_kind w, bs)) as ->.
  { unfold event_from_json. rewrite (wire_from_envelope _ _ to_t to_e w v) by done. simpl. by rewrite Hbs. }
  assert (frame w = (wire_kind w, Some bs)) as ->; [|by rewrite IH].
  destruct w; simpl in *; try (by rewrite Hbs). done.
Qed.

(** C26. The consumer of a call cannot tell a service hosted in JSON from a native one.
    Take a well-formed stream that the native dispatcher folds, frames and
    publishes, and a host that writes, as one envelope each, wire events that stand
    for the same events, folded or not: the samples may differ, one for a last value
    and the end or two, but once the call is closed the consumer reads from either
    sequence of samples the same events, those of the stream, and the same end. *)
Theorem json_host_equals_native {Src} `{Sized Src (Event T E), !Fused Src (Event T E)} (src : Src) l
    b ws vs (events : JsonCallStream (C:=C)) :
  encodes_all (T:=T) (E:=E) → yields src l → rx_grammar l = true →
  expand_all ws = map wire_view l → Forall2 (λ w v, envelope to_t to_e w = Some v) ws vs →
  ch_view (js_receiver events) = ChanView vs true None →
  ∃ o events' (native hosted : CollectEmitter),
    completes observable_to_responses (wire_folding_new src, [] : CollectEmitter) () (o, native) ∧
    loop_ends
      (json_host_round (T:=T) (E:=E) (M:=CollectEmitter) (event_from_json from_value_t from_value_e) b false)
      (events, []) () (events', hosted) ∧
    relay (T:=T) (E:=E) native = (map wire_view l, existsb is_terminal l) ∧
    relay (T:=T) (E:=E) hosted = relay (T:=T) (E:=E) native.
Proof.
  intros Henc Hy Hg Hexp Hall Hv.
  destruct (json_host_serves (T:=T) (E:=E) (event_from_json from_value_t from_value_e) b events [])
    as [events' Hends]; [by rewrite Hv|].
  destruct (proj1 (fold_yields src l Hy)) as (ws' & Hws & He).
  destruct (collect_responses (wire_folding_new src) ws' [] Hws) as [o Hc].
  assert (Hread : ∀ w, expand_all w = map wire_view l → relay (frames w) = (map wire_view l, existsb is_terminal l)).
  { intros w Hw. rewrite (relay_frames w (map wire_view l)); [by rewrite terminal_view|done|by rewrite rx_grammar_view|done]. }
  rewrite Hv in Hends. cbn [cv_queue app] in Hends. rewrite (host_samples_frames ws) in Hends.
  - exists o, events', (frames ws'), (frames ws). split_and!; [done|done|by apply Hread|by rewrite !Hread].
  - eapply Forall2_impl; [exact Hall|]. intros w v Hw. split; [done|].
    specialize (Henc w). by destruct w.
Qed.
End native.

(** ** Examples *)

Definition z_value (z : Z) : Value := VNumber (NPosInt z).
Definition value_z (v : Value) : option Z := match v with VNumber (NPosInt z) => Some z | _ => None end.

Definition closed_call (vs : list Value) : JsonCallStream (C:=VecChannel) :=
  MkJsonCallStream (ChanView vs true None) false.

Lemma read_json_answers_witness :
  ∃ st', completes (read_json (λ v, Ok (z_value v)) (λ e : Z, "failed"%string) First)
    (MkScript [Pending; Ready (Next 4); Ready Complete], []) (Ok (JValue (z_value 4))) st'.
Proof.
  exact (read_json_answers (λ v, Ok (z_value v)) (λ e : Z, "failed"%string) First
    (MkScript [Pending; Ready (Next 4); Ready Complete]) [Next 4; Complete] (script_yields _)).
Defined.

Lemma json_host_serves_witness :
  ∃ events', loop_ends
    (json_host_round (T:=Z) (E:=Z) (M:=CollectEmitter) (event_from_json value_z value_z) true false)
    (closed_call [VNull], []) () (events', [(KRpcError, [0])]).
Proof.
  exact (json_host_serves (T:=Z) (E:=Z) (event_from_json value_z value_z) true (closed_call [VNull]) [] eq_refl).
Defined.

Lemma json_host_equals_native_witness :
  ∃ o events' (native hosted : CollectEmitter),
    completes observable_to_responses
      (wire_folding_new (T:=Z) (E:=Z) (MkScript [Ready (Next 4); Ready Complete]), [] : CollectEmitter) () (o, native) ∧
    loop_ends (json_host_round (T:=Z) (E:=Z) (M:=CollectEmitter) (event_from_json value_z value_z) true false)
      (closed_call [VObject [("data", z_value 4); ("type", VString "next")]%string;
                    VObject [("type", VString "complete")]%string], []) () (events', hosted) ∧
    relay (T:=Z) (E:=Z) native = ([Next 4; Complete], true) ∧ relay (T:=Z) (E:=Z) hosted = relay (T:=Z) (E:=Z) native.
Proof.
  apply (json_host_equals_native value_z value_z z_value z_value (λ x, eq_refl) (λ x, eq_refl)
    (MkScript [Ready (Next 4); Ready Complete]) [Next 4; Complete] true [WNext 4; WComplete]
    [VObject [("data", z_value 4); ("type", VString "next")]; VObject [("type", VString "complete")]]%string).
  - intros []; vm_compute; eauto.
  - apply (script_yields [Ready (Next 4); Ready Complete]).
  - reflexivity.
  - reflexivity.
  - repeat constructor.
  - reflexivity.
Defined.
