(* ===== verification/Http.v ===== *)
(** * The HTTP gateway ([ice-rpc/src/http_gateway.rs])

    A request goes through the origin check, the route, the reading of its
    arguments and the JSON view of the service.  Texts are bytes; the reading of
    a JSON body is a parameter, as are the views of the services.  The server
    itself (trillium) is not modelled: a request is a record, a response its
    status and its JSON body. *)

From S2P Require Import Prelude MachineInt Text Event Stream Subscribe Metrics Parse Json.

Local Open Scope Z_scope.

Definition SLASH : Z := 47.
Definition AMP : Z := 38.
Definition EQUALS : Z := 61.
Definition PERCENT : Z := 37.
Definition PLUS : Z := 43.
Definition COLON : Z := 58.
Definition DOT : Z := 46.

(** ** Routes and query strings *)

Definition split_path (path : bytes) : option (bytes * bytes) :=
  let trimmed := trim_matches SLASH path in
  if bool_decide (trimmed = []) then None
  else
    match split SLASH trimmed with
    | [service; method] =>
        if bool_decide (service = []) || bool_decide (method = []) then None
        else Some (service, method)
    | _ => None
    end.

(** The loop of [percent_decode]: a percent sign too close to the end, or
    before what is not hexadecimal, stays. *)
Fixpoint percent_bytes (s : bytes) : bytes :=
  match s with
  | [] => []
  | c :: s' =>
      if c =? PLUS then 32 :: percent_bytes s'
      else if c =? PERCENT then
        match s' with
        | a :: b :: s2 =>
            match hex_value a, hex_value b with
            | Some hi, Some lo => Z.lor (wrap 8 (Z.shiftl hi 4)) lo :: percent_bytes s2
            | _, _ => c :: a :: b :: percent_bytes s2
            end
        | _ => c :: percent_bytes s'
        end
      else c :: percent_bytes s'
  end.

Definition percent_decode (s : bytes) : bytes := from_utf8_lossy (percent_bytes s).

Definition query_pair (pair : bytes) : bytes * bytes :=
  match split_once EQUALS pair with
  | Some (k, v) => (percent_decode k, percent_decode v)
  | None => (percent_decode pair, percent_decode [])
  end.

Definition parse_query_string (querystring : bytes) : gmap bytes bytes :=
  if bool_decide (querystring = []) then ∅
  else fold_left (λ params pair, <[(query_pair pair).1 := (query_pair pair).2]> params)
         (split AMP querystring) ∅.

(** ** Arguments *)

(** [n.into()] for an [i64]. *)
Definition number_of_i64 (n : Z) : Number := if n <? 0 then NNegInt n else NPosInt n.

Definition parse_scalar (s : bytes) : Value :=
  if bool_decide (s = []) then VString ""
  else if eq_ignore_case s (as_bytes "true") then VBool true
  else if eq_ignore_case s (as_bytes "false") then VBool false
  else if eq_ignore_case s (as_bytes "null") || eq_ignore_case s (as_bytes "none") then VNull
  else
    match parse_i64 s with
    | Some n => VNumber (number_of_i64 n)
    | None =>
        match parse_f64 s with
        | Some x => if f64_is_finite x then VNumber (NFloat x) else VString (of_bytes s)
        | None => VString (of_bytes s)
        end
    end.

Definition params_to_json (params : gmap bytes bytes) : Value :=
  match map_to_list params with
  | [] => VNull
  | [(_, val)] => parse_scalar val
  | l => VObject (map (λ kv, (of_bytes kv.1, parse_scalar kv.2)) l)
  end.

(** ** The origin *)

Definition origin_host (origin : bytes) : bytes :=
  let rest :=
    match strip_prefix (as_bytes "https://") origin with
    | Some r => r
    | None => match strip_prefix (as_bytes "http://") origin with Some r => r | None => origin end
    end in
  default [] (head (split SLASH (default [] (head (split COLON rest))))).

Definition is_origin_allowed (allowed origin : bytes) : bool :=
  let host := origin_host origin in
  if bool_decide (host = []) then false
  else bool_decide (host = allowed) || ends_with (DOT :: allowed) host.

(** [allowed_origin_domain], from the environment variable. *)
Definition allowed_origin_domain (var : option bytes) : bytes :=
  match var with
  | Some v => if bool_decide (v = []) then as_bytes "my-domain.com" else v
  | None => as_bytes "my-domain.com"
  end.

(** ** The gateway *)

Inductive HttpMethod : Type := Get | Post | OtherMethod.

Record HttpRequest : Type := MkHttpRequest {
  hq_origin : option bytes;
  hq_path : bytes;
  hq_method : HttpMethod;
  hq_querystring : bytes;
  hq_body : bytes
}.

Record HttpResponse : Type := MkHttpResponse { hr_status : Z; hr_body : Value }.

Definition error_body (message : string) : Value :=
  VObject [("error", VString message); ("status", VString "error")]%string.

Section gateway.
(** The views of the services, which their factories build in a world of their own. *)
Context {Invoker Factory X : Type} (call_factory : Factory → X → Invoker * X).
(** [serde_json::from_str]. *)
Context (from_str : bytes → option Value).

(** [gs_calls] is the list of the calls the handlers made of the views: whose, the view, the
    method, its arguments and the answer. *)
Record HttpGatewayState : Type := MkGatewayState {
  gs_factories : gmap bytes Factory;
  gs_cache : gmap bytes Invoker;
  gs_world : X;
  gs_calls : list (nat * (Invoker * bytes * Value * option (result JsonOutcome JsonCallError)))
}.

Definition gateway_new (factories : gmap bytes Factory) (x : X) : HttpGatewayState :=
  MkGatewayState factories ∅ x [].

Definition outcome_response (r : result JsonOutcome JsonCallError) : HttpResponse :=
  match r with
  | Ok (JValue data) => MkHttpResponse 200 (VObject [("data", data); ("status", VString "ok")]%string)
  | Ok JNothing => MkHttpResponse 200 (VObject [("status", VString "ok")]%string)
  | Ok (JAccepted delivered) =>
      MkHttpResponse 202 (VObject [("delivered", VBool delivered); ("status", VString "accepted")]%string)
  | Err (InvalidArgs message) | Err (BusinessError message) => MkHttpResponse 400 (error_body message)
  | Err (TransportFailure message) => MkHttpResponse 502 (error_body message)
  end.

Definition unknown_service (service : bytes) : string :=
  "Unknown service '" +:+ of_bytes service
  +:+ "'. Make sure this service is exposed via start_http_gateway!.".

Definition unknown_method (service method : bytes) : string :=
  "Unknown method '" +:+ of_bytes method +:+ "' for service '" +:+ of_bytes service +:+ "'".

(** An origin that is present and not allowed is refused. *)
Definition origin_rejection (allowed : bytes) (origin_header : option bytes) : option HttpResponse :=
  match origin_header with
  | Some origin =>
      if is_origin_allowed allowed origin then None
      else Some (MkHttpResponse 403 (error_body
             ("Origin '" +:+ of_bytes origin +:+ "' is not allowed. Only the domain '"
              +:+ of_bytes allowed +:+ "' is accepted.")))
  | None => None
  end.

(** *** A handler

    The server runs one handler per request, as a task; the points at which it
    awaits something are its states.  What the awaited thing says in a turn is
    an input: whether the body arrived (and could be read), whether the lock of
    the cache was got, and what the view answered. *)

Record Turn : Type := MkTurn {
  tn_body : poll bool;
  tn_lock : bool;
  tn_answer : poll (option (result JsonOutcome JsonCallError))
}.

Inductive HandlerPhase : Type :=
| Arrived
| ReadingBody (service method : bytes)
| Looking (service method : bytes) (params : Value)
| Storing (service method : bytes) (params : Value) (proxy : Invoker)
| Calling (service method : bytes) (params : Value) (proxy : Invoker)
| Answered (response : HttpResponse).

(** [invoke_service], up to the cache. *)
Definition invoke_start (service method : bytes) (params : Value) : HandlerPhase :=
  if bool_decide (service = []) || bool_decide (method = []) then
    Answered (MkHttpResponse 400
      (error_body "Service and method names are required in the URL: /{service}/{method}"))
  else Looking service method params.

(** [HttpGateway::run], up to its first await. *)
Definition gateway_run (allowed : bytes) (req : HttpRequest) : HandlerPhase :=
  match origin_rejection allowed (hq_origin req) with
  | Some response => Answered response
  | None =>
      match split_path (hq_path req) with
      | None => Answered (MkHttpResponse 404 (error_body "Invalid route. Expected URL format: /{service}/{method}"))
      | Some (service, method) =>
          match hq_method req with
          | Get => invoke_start service method (params_to_json (parse_query_string (hq_querystring req)))
          | Post => ReadingBody service method
          | OtherMethod => Answered (MkHttpResponse 405 (error_body "Method not allowed. Use GET or POST."))
          end
      end
  end.

(** [get_or_create]: the look, with the view built when there is none, ... *)
Definition cache_look (service method : bytes) (params : Value) (st : HttpGatewayState) : HandlerPhase * HttpGatewayState :=
  match gs_cache st !! service with
  | Some proxy => (Calling service method params proxy, st)
  | None =>
      match gs_factories st !! service with
      | None => (Answered (MkHttpResponse 404 (error_body (unknown_service service))), st)
      | Some factory =>
          let (proxy, x) := call_factory factory (gs_world st) in
          (Storing service method params proxy, MkGatewayState (gs_factories st) (gs_cache st) x (gs_calls st))
      end
  end.

(** ... and the insertion, which keeps the view another handler stored meanwhile. *)
Definition cache_store (service : bytes) (proxy : Invoker) (st : HttpGatewayState) : HttpGatewayState :=
  MkGatewayState (gs_factories st)
    (match gs_cache st !! service with
     | Some _ => gs_cache st
     | None => <[service := proxy]> (gs_cache st)
     end) (gs_world st) (gs_calls st).

(** The rest of [invoke_service]. *)
Definition invoke_response (service method : bytes) (r : option (result JsonOutcome JsonCallError)) : HttpResponse :=
  match r with
  | None => MkHttpResponse 404 (error_body (unknown_method service method))
  | Some r => outcome_response r
  end.

Definition note_call (i : nat) (proxy : Invoker) (method : bytes) (params : Value)
    (r : option (result JsonOutcome JsonCallError)) (st : HttpGatewayState) : HttpGatewayState :=
  MkGatewayState (gs_factories st) (gs_cache st) (gs_world st) (gs_calls st ++ [(i, (proxy, method, params, r))]).

(** A turn of the handler of the request number [i]. *)
Definition handler_step (allowed : bytes) (i : nat) (req : HttpRequest) (turn : Turn) (phase : HandlerPhase)
    (st : HttpGatewayState) : HandlerPhase * HttpGatewayState :=
  match phase with
  | Arrived => (gateway_run allowed req, st)
  | ReadingBody service method =>
      match tn_body turn with
      | Pending => (phase, st)
      | Ready arrived =>
          let body := if arrived : bool then hq_body req else [] in
          (invoke_start service method (default VNull (from_str body)), st)
      end
  | Looking service method params => if tn_lock turn then cache_look service method params st else (phase, st)
  | Storing service method params proxy =>
      if tn_lock turn then (Calling service method params proxy, cache_store service proxy st) else (phase, st)
  | Calling service method params proxy =>
      match tn_answer turn with
      | Pending => (phase, st)
      | Ready r => (Answered (invoke_response service method r), note_call i proxy method params r st)
      end
  | Answered response => (phase, st)
  end.

(** The handlers of the requests, by arrival, and the shared state. *)
Definition gateway_step (allowed : bytes) (reqs : list HttpRequest) (s : list HandlerPhase * HttpGatewayState)
    (t : nat * Turn) : list HandlerPhase * HttpGatewayState :=
  match reqs !! t.1, s.1 !! t.1 with
  | Some req, Some phase =>
      let '(phase', st') := handler_step allowed t.1 req t.2 phase s.2 in (<[t.1 := phase']> s.1, st')
  | _, _ => s
  end.

Definition gateway_start (factories : gmap bytes Factory) (x : X) (reqs : list HttpRequest)
    : list HandlerPhase * HttpGatewayState :=
  (replicate (length reqs) Arrived, gateway_new factories x).

Definition gateway_handles (allowed : bytes) (factories : gmap bytes Factory) (x : X) (reqs : list HttpRequest)
    (schedule : list (nat * Turn)) : list HandlerPhase * HttpGatewayState :=
  fold_left (gateway_step allowed reqs) schedule (gateway_start factories x reqs).
End gateway.

(** ** Routes *)

Lemma trim_matches_split sep s :
  ∃ i j, s = replicate i sep ++ trim_matches sep s ++ replicate j sep.
Proof.
  destruct (trim_start_spec sep s) as (i & Hi & _).
  destruct (trim_start_spec sep (reverse (trim_start sep s))) as (j & Hj & _).
  exists i, j. unfold trim_matches. rewrite Hi at 1. f_equal.
  apply (f_equal reverse) in Hj. by rewrite reverse_involutive, reverse_app, reverse_replicate in Hj.
Qed.

Lemma trim_matches_padded sep i j s :
  head s ≠ Some sep → last s ≠ Some sep → trim_matches sep (replicate i sep ++ s ++ replicate j sep) = s.
Proof.
  intros Hh Hl. destruct (decide (s = [])) as [->|Hne].
  - rewrite app_nil_l, <- replicate_add. unfold trim_matches.
    rewrite <- (app_nil_r (replicate (i + j) sep)). by rewrite trim_start_replicate.
  - unfold trim_matches. rewrite trim_start_replicate by (by destruct s).
    rewrite reverse_app, reverse_replicate, trim_start_replicate; [apply reverse_involutive|].
    by rewrite head_reverse.
Qed.

(** A route of two names. *)
Definition is_route (service method path : bytes) : Prop :=
  service ≠ [] ∧ method ≠ [] ∧ SLASH ∉ service ∧ SLASH ∉ method ∧
  ∃ i j, path = replicate i SLASH ++ (service ++ SLASH :: method) ++ replicate j SLASH.

Lemma head_app_not (sep : Z) (a b : bytes) : a ≠ [] → sep ∉ a → head (a ++ b) ≠ Some sep.
Proof. destruct a as [|c a]; [done|]. intros _ Hn [= ->]. set_solver. Qed.

Lemma last_app_not (sep : Z) (a b : bytes) : b ≠ [] → sep ∉ b → last (a ++ b) ≠ Some sep.
Proof.
  intros Hb Hn. destruct b as [|c b _] using rev_ind; [done|]. rewrite app_assoc, last_snoc.
  intros [= ->]. set_solver.
Qed.

(** A path is a route exactly when it is two names without slashes, put
    together by one slash, with any slashes around; the names are those read. *)
Theorem split_path_spec path service method :
  split_path path = Some (service, method) ↔ is_route service method path.
Proof.
  unfold split_path, is_route. split.
  - case_bool_decide as Hempty; [done|]. destruct (split SLASH (trim_matches SLASH path)) as [|s [|m [|x ws]]] eqn:Hs;
      try done.
    repeat case_bool_decide; try done. intros [= -> ->]. pose proof (split_words SLASH (trim_matches SLASH path)) as Hw.
    rewrite Hs in Hw. apply Forall_cons in Hw as [Hs1 [Hm1 _]%Forall_cons]. split_and!; try done.
    destruct (trim_matches_split SLASH path) as (i & j & Hp). exists i, j. rewrite Hp at 1. f_equal. f_equal.
    rewrite <- (join_split SLASH (trim_matches SLASH path)), Hs. done.
  - intros (Hs & Hm & Hns & Hnm & i & j & ->).
    rewrite trim_matches_padded;
      [|by apply head_app_not|by change (SLASH :: method) with ([SLASH] ++ method); rewrite app_assoc; apply last_app_not].
    rewrite bool_decide_eq_false_2 by (by destruct service).
    rewrite split_app, split_single by done. by rewrite !bool_decide_eq_false_2.
Qed.

(** ** Query strings *)

(** The encoding of a text: letters, digits and four marks as they are. *)
Definition unreserved (b : Z) : bool :=
  in_range 48 57 b || in_range 65 90 b || in_range 97 122 b ||
  bool_decide (b ∈ [45; 46; 95; 126]).

Definition encode_byte (b : Z) : bytes := if unreserved b then [b] else PERCENT :: hex_byte b.

Definition percent_encode (s : bytes) : bytes := mjoin (map encode_byte s).

Definition render_query (pairs : list (bytes * bytes)) : bytes :=
  join AMP (map (λ kv, percent_encode kv.1 ++ EQUALS :: percent_encode kv.2) pairs).

(** What each encoded byte looks like. *)
Definition encoded_ok (b : Z) : Prop :=
  AMP ∉ encode_byte b ∧ EQUALS ∉ encode_byte b ∧
  (unreserved b = true → b ≠ PLUS ∧ b ≠ PERCENT) ∧
  hex_value (hex_digit (Z.shiftr b 4)) = Some (Z.shiftr b 4) ∧
  hex_value (hex_digit (Z.land b 15)) = Some (Z.land b 15) ∧
  Z.lor (wrap 8 (Z.shiftl (Z.shiftr b 4) 4)) (Z.land b 15) = b.

#[local] Instance encoded_ok_dec b : Decision (encoded_ok b).
Proof. unfold encoded_ok. apply _. Defined.

Lemma encoded_bytes b : u8 b → encoded_ok b.
Proof. apply (u8_cases encoded_ok). by vm_compute. Qed.

Lemma percent_decode_byte b s : u8 b → percent_bytes (encode_byte b ++ s) = b :: percent_bytes s.
Proof.
  intros Hb. destruct (encoded_bytes b Hb) as (_ & _ & Hun & Hhi & Hlo & Hjoin). unfold encode_byte.
  destruct (unreserved b).
  - destruct (Hun eq_refl) as [H1 H2]. simpl.
    destruct (Z.eqb_spec b PLUS); [done|]. destruct (Z.eqb_spec b PERCENT); [done|]. done.
  - unfold hex_byte. cbn [app percent_bytes]. rewrite Hhi, Hlo, Hjoin. done.
Qed.

Lemma percent_encode_cons b s : percent_encode (b :: s) = encode_byte b ++ percent_encode s.
Proof. done. Qed.

Lemma percent_decode_encode_bytes s : is_bytes s → percent_bytes (percent_encode s) = s.
Proof.
  induction 1 as [|b s Hb Hs IH]; [done|]. rewrite percent_encode_cons, percent_decode_byte by done.
  by rewrite IH.
Qed.

Lemma percent_decode_encode s : is_bytes s → utf8 s → percent_decode (percent_encode s) = s.
Proof.
  intros Hb Hu. unfold percent_decode. rewrite percent_decode_encode_bytes by done.
  by apply from_utf8_lossy_valid.
Qed.

Lemma encode_clean s : is_bytes s → AMP ∉ percent_encode s ∧ EQUALS ∉ percent_encode s.
Proof.
  induction 1 as [|b s Hb Hs [IH1 IH2]]; [split; apply not_elem_of_nil|]. rewrite percent_encode_cons.
  destruct (encoded_bytes b Hb) as (H1 & H2 & _). rewrite !not_elem_of_app. done.
Qed.

Definition text (s : bytes) : Prop := is_bytes s ∧ utf8 s.

Lemma query_pair_render k v :
  text k → text v → query_pair (percent_encode k ++ EQUALS :: percent_encode v) = (k, v).
Proof.
  intros [Hk Uk] [Hv Uv]. unfold query_pair. rewrite split_once_app by (by apply encode_clean).
  by rewrite !percent_decode_encode.
Qed.

Lemma fold_insert_pairs (pairs : list (bytes * bytes)) (m : gmap bytes bytes) :
  NoDup (map fst pairs) → (∀ k, k ∈ map fst pairs → m !! k = None) →
  fold_left (λ m kv, <[kv.1 := kv.2]> m) pairs m = list_to_map pairs ∪ m.
Proof.
  revert m. induction pairs as [|[k v] pairs IH]; intros m Hnd Hm; simpl; [by rewrite (left_id_L ∅ (∪))|].
  simpl in Hnd. apply NoDup_cons in Hnd as [Hk Hnd]. rewrite IH; [|done|].
  - rewrite <- insert_union_l. rewrite insert_union_r; [done|]. by apply not_elem_of_list_to_map.
  - intros k' Hk'. rewrite lookup_insert_ne by (by intros ->). apply Hm. simpl. by right.
Qed.

(** A query string is read back as it was meant: encoding any texts as keys
    and values, whatever bytes they hold, and reading the query string gives
    each key its value. *)
Theorem query_round_trip pairs :
  pairs ≠ [] → Forall (λ kv, text kv.1 ∧ text kv.2) pairs → NoDup (map fst pairs) →
  parse_query_string (render_query pairs) = list_to_map pairs.
Proof.
  intros Hne Htext Hnd. unfold parse_query_string.
  assert (Hwords : Forall (λ w, AMP ∉ w)
    (map (λ kv, percent_encode kv.1 ++ EQUALS :: percent_encode kv.2) pairs)).
  { apply Forall_map. eapply Forall_impl; [exact Htext|]. intros [k v] [[Hk _] [Hv _]]. simpl in *.
    rewrite not_elem_of_app, not_elem_of_cons. by split_and!; [apply encode_clean| |apply encode_clean]. }
  rewrite bool_decide_eq_false_2.
  - unfold render_query. rewrite split_join by (by destruct pairs).
    rewrite <- (right_id_L ∅ (∪) (list_to_map pairs)), <- (fold_insert_pairs pairs ∅) by (done || intros; apply lookup_empty).
    clear Hne Hwords Hnd. generalize (∅ : gmap bytes bytes).
    induction Htext as [|[k v] pairs [Hk Hv] _ IH]; intros m; [done|]. simpl.
    rewrite query_pair_render by done. apply IH.
  - unfold render_query. destruct pairs as [|[k v] [|kv pairs]]; [done|..]; simpl; intros Hnil;
      apply (f_equal length) in Hnil; rewrite ?length_app in Hnil; simpl in Hnil; lia.
Qed.

Lemma query_round_trip_witness :
  parse_query_string (as_bytes "a%26b=%2520&x=1") = list_to_map [(as_bytes "a&b", as_bytes "%20"); (as_bytes "x", as_bytes "1")].
Proof.
  change (as_bytes "a%26b=%2520&x=1") with (render_query [(as_bytes "a&b", as_bytes "%20"); (as_bytes "x", as_bytes "1")]).
  apply query_round_trip; [done| |apply (bool_decide_unpack _); by vm_compute].
  assert (Htext : ∀ w, bool_decide (Forall (λ c, c < 128) (as_bytes w)) = true → text (as_bytes w)).
  { intros w Hw%bool_decide_eq_true. split; [apply is_bytes_as_bytes|by apply utf8_ascii]. }
  apply Forall_cons; split; [|apply Forall_singleton]; split; apply Htext; by vm_compute.
Defined.

(** ** Origins *)

Lemma ends_with_spec suffix s : ends_with suffix s = true ↔ ∃ front, s = front ++ suffix.
Proof.
  unfold ends_with. rewrite andb_true_iff, !bool_decide_eq_true. split.
  - intros [_ Hd]. exists (take (length s - length suffix) s). by rewrite <- Hd at 2; rewrite take_drop.
  - intros [front ->]. rewrite length_app. split; [lia|]. by rewrite drop_app_length' by lia.
Qed.

Lemma origin_host_spec (secure : bool) host port :
  COLON ∉ host → SLASH ∉ host →
  origin_host (as_bytes (if secure then "https://" else "http://") ++ host ++
               match port with Some p => COLON :: p | None => [] end) = host.
Proof.
  intros Hc Hs. unfold origin_host.
  assert (Hhost : default [] (head (split SLASH (default [] (head (split COLON
    (host ++ match port with Some p => COLON :: p | None => [] end)))))) = host).
  { destruct port as [p|]; [rewrite split_app by done|rewrite app_nil_r, (split_single COLON) by done];
      simpl; by rewrite split_single. }
  unfold strip_prefix, starts_with. destruct secure.
  - rewrite take_app_length, bool_decide_eq_true_2, drop_app_length by done. exact Hhost.
  - rewrite bool_decide_eq_false_2 by (vm_compute; done).
    rewrite take_app_length, bool_decide_eq_true_2, drop_app_length by done. exact Hhost.
Qed.

(** The origin of a page is accepted exactly when its host is the allowed
    domain or one of its subdomains, whatever the scheme and the port. *)
Theorem origin_allowed_spec allowed (secure : bool) host port :
  COLON ∉ host → SLASH ∉ host → host ≠ [] →
  is_origin_allowed allowed
    (as_bytes (if secure then "https://" else "http://") ++ host ++ match port with Some p => COLON :: p | None => [] end) = true ↔
  host = allowed ∨ ∃ sub, host = sub ++ DOT :: allowed.
Proof.
  intros Hc Hs Hne. unfold is_origin_allowed. rewrite origin_host_spec, bool_decide_eq_false_2 by done.
  by rewrite orb_true_iff, bool_decide_eq_true, ends_with_spec.
Qed.

Lemma origin_allowed_spec_witness :
  is_origin_allowed (as_bytes "my-domain.com") (as_bytes "https://sub.my-domain.com:8080") = true.
Proof.
  apply (origin_allowed_spec (as_bytes "my-domain.com") true (as_bytes "sub.my-domain.com") (Some (as_bytes "8080")));
    try (apply (bool_decide_unpack _); by vm_compute).
  right. by exists (as_bytes "sub").
Defined.

(** *** The host of any origin *)

(** What follows the scheme, if there is one, up to the first colon or slash. *)
Definition host_of (origin host : bytes) : Prop :=
  ∃ rest, (origin = as_bytes "https://" ++ rest ∨ origin = as_bytes "http://" ++ rest ∨
           origin = rest ∧ ∀ r, origin ≠ as_bytes "https://" ++ r ∧ origin ≠ as_bytes "http://" ++ r) ∧
    COLON ∉ host ∧ SLASH ∉ host ∧ (rest = host ∨ ∃ c tail, rest = host ++ c :: tail ∧ (c = COLON ∨ c = SLASH)).

(** The page is of the allowed domain or of one below it. *)
Definition own_origin (allowed origin : bytes) : Prop :=
  ∃ host, host_of origin host ∧ host ≠ [] ∧ (host = allowed ∨ ∃ sub, host = sub ++ DOT :: allowed).

Lemma strip_prefix_Some prefix s r : strip_prefix prefix s = Some r ↔ s = prefix ++ r.
Proof.
  unfold strip_prefix, starts_with. case_bool_decide as Ht; split; intros Heq; simplify_eq.
  - rewrite <- (take_drop (length prefix) s) at 1. by rewrite Ht.
  - by rewrite drop_app_length.
  - by rewrite take_app_length in Ht.
Qed.

Lemma head_split sep s :
  let w := default [] (head (split sep s)) in sep ∉ w ∧ (s = w ∨ ∃ t, s = w ++ sep :: t).
Proof.
  destruct (decide (sep ∈ s)) as [Hin|Hin].
  - apply list_elem_of_split_l in Hin as (w & t & -> & Hw). rewrite split_app by done. simpl. eauto.
  - rewrite split_single by done. simpl. auto.
Qed.

Lemma origin_host_of origin : host_of origin (origin_host origin).
Proof.
  unfold origin_host. set (rest := match strip_prefix _ origin with Some r => r | None => _ end).
  destruct (head_split COLON rest) as [Hc Hrest]. set (w := default [] (head (split COLON rest))) in *.
  destruct (head_split SLASH w) as [Hs Hw]. set (host := default [] (head (split SLASH w))) in *. clearbody host. clearbody w.
  exists rest. split_and!.
  - subst rest. destruct (strip_prefix (as_bytes "https://") origin) as [r|] eqn:Hr1.
    { left. by apply strip_prefix_Some. }
    destruct (strip_prefix (as_bytes "http://") origin) as [r|] eqn:Hr2.
    { right. left. by apply strip_prefix_Some. }
    right. right. split; [done|]. intros r. split; intros Heq%strip_prefix_Some; congruence.
  - intros Hin. apply Hc. destruct Hw as [->|[t ->]]; set_solver.
  - done.
  - destruct Hw as [Hw|[t Hw]].
    + rewrite <- Hw. destruct Hrest as [->|[t ->]]; [by left|right]. exists COLON, t. auto.
    + right. exists SLASH. destruct Hrest as [Hr|[t' Hr]]; rewrite Hr, Hw; [by eauto|].
      rewrite <- app_assoc. eauto.
Qed.

Lemma host_unique (h1 h2 : bytes) c1 c2 t1 t2 :
  COLON ∉ h1 → SLASH ∉ h1 → COLON ∉ h2 → SLASH ∉ h2 → c1 = COLON ∨ c1 = SLASH → c2 = COLON ∨ c2 = SLASH →
  h1 ++ c1 :: t1 = h2 ++ c2 :: t2 → h1 = h2.
Proof.
  intros Hc1 Hs1 Hc2 Hs2 He1 He2. revert h2 Hc2 Hs2. induction h1 as [|x h1 IH]; intros [|y h2] Hc2 Hs2 Heq;
    simplify_eq/=; [done|exfalso; set_solver|exfalso; set_solver|].
  f_equal. apply IH; set_solver.
Qed.

Lemma host_of_unique origin h1 h2 : host_of origin h1 → host_of origin h2 → h1 = h2.
Proof.
  intros (r1 & Hr1 & Hc1 & Hs1 & He1) (r2 & Hr2 & Hc2 & Hs2 & He2).
  assert (r1 = r2) as <-.
  { destruct Hr1 as [Hr1|[Hr1|[Hr1 Hn]]], Hr2 as [Hr2|[Hr2|[Hr2 Hn']]]; try (by destruct (Hn r2)); try (by destruct (Hn' r1));
      rewrite Hr1 in Hr2; by try (by apply app_inv_head in Hr2). }
  destruct He1 as [->|(c1 & t1 & -> & He1)], He2 as [He|(c2 & t2 & He & He2)]; [done|..].
  - exfalso. rewrite He in Hc1, Hs1. destruct He2 as [->| ->]; [apply Hc1|apply Hs1]; set_solver.
  - exfalso. rewrite <- He in Hc2, Hs2. destruct He1 as [->| ->]; [apply Hc2|apply Hs2]; set_solver.
  - exact (host_unique h1 h2 c1 c2 t1 t2 Hc1 Hs1 Hc2 Hs2 He1 He2 He).
Qed.

Lemma is_origin_allowed_own allowed origin : is_origin_allowed allowed origin = true ↔ own_origin allowed origin.
Proof.
  unfold is_origin_allowed, own_origin. pose proof (origin_host_of origin) as Ho. split.
  - case_bool_decide; [done|]. rewrite orb_true_iff, bool_decide_eq_true, ends_with_spec. eauto.
  - intros (host & Hh & Hne & Hd). rewrite (host_of_unique _ _ _ Ho Hh), bool_decide_eq_false_2 by done.
    by rewrite orb_true_iff, bool_decide_eq_true, ends_with_spec.
Qed.

(** ** Concurrent requests

    A handler gives up the cache between the look and the insertion: two requests
    for a service that is not cached may both build its view.  The specification
    has no cache: it tells which answer a request may get, and which call of a
    view it rests on. *)

(** What the answer of a view becomes. *)
Inductive tells (service method : bytes) : option (result JsonOutcome JsonCallError) → HttpResponse → Prop :=
| tells_value data :
    tells service method (Some (Ok (JValue data)))
      (MkHttpResponse 200 (VObject [("data", data); ("status", VString "ok")]%string))
| tells_nothing :
    tells service method (Some (Ok JNothing)) (MkHttpResponse 200 (VObject [("status", VString "ok")]%string))
| tells_accepted delivered :
    tells service method (Some (Ok (JAccepted delivered)))
      (MkHttpResponse 202 (VObject [("delivered", VBool delivered); ("status", VString "accepted")]%string))
| tells_mistake message e :
    e = InvalidArgs message ∨ e = BusinessError message →
    tells service method (Some (Err e))
      (MkHttpResponse 400 (VObject [("error", VString message); ("status", VString "error")]%string))
| tells_failure message :
    tells service method (Some (Err (TransportFailure message)))
      (MkHttpResponse 502 (VObject [("error", VString message); ("status", VString "error")]%string))
| tells_no_method body : tells service method None (MkHttpResponse 404 body).

(** The arguments of a request. *)
Inductive params_of (from_str : bytes → option Value) (req : HttpRequest) : Value → Prop :=
| params_get : hq_method req = Get → params_of from_str req (params_to_json (parse_query_string (hq_querystring req)))
| params_post body :
    hq_method req = Post → body = hq_body req ∨ body = [] → params_of from_str req (default VNull (from_str body)).

Section concurrent.
Context {Invoker Factory X : Type} (call_factory : Factory → X → Invoker * X).
Context (from_str : bytes → option Value) (allowed : bytes) (factories : gmap bytes Factory).

Abbreviation state := (HttpGatewayState (Invoker := Invoker) (Factory := Factory) (X := X)).

Definition admitted (req : HttpRequest) : Prop := ∀ origin, hq_origin req = Some origin → own_origin allowed origin.

Definition built (service : bytes) (proxy : Invoker) : Prop :=
  ∃ factory x, factories !! service = Some factory ∧ (call_factory factory x).1 = proxy.

(** The answer to a request, and the calls it made. *)
Inductive answer (req : HttpRequest) :
    list (Invoker * bytes * Value * option (result JsonOutcome JsonCallError)) → HttpResponse → Prop :=
| answer_forbidden origin body :
    hq_origin req = Some origin → ¬ own_origin allowed origin → answer req [] (MkHttpResponse 403 body)
| answer_no_route body :
    admitted req → (∀ service method, ¬ is_route service method (hq_path req)) → answer req [] (MkHttpResponse 404 body)
| answer_bad_method service method body :
    admitted req → is_route service method (hq_path req) → hq_method req = OtherMethod →
    answer req [] (MkHttpResponse 405 body)
| answer_no_service service method body :
    admitted req → is_route service method (hq_path req) → hq_method req ≠ OtherMethod → factories !! service = None →
    answer req [] (MkHttpResponse 404 body)
| answer_served service method params proxy r response :
    admitted req → is_route service method (hq_path req) → params_of from_str req params → built service proxy →
    tells service method r response → answer req [(proxy, method, params, r)] response.

(** What a handler knows where it is. *)
Definition asks (req : HttpRequest) (service method : bytes) (params : Value) : Prop :=
  admitted req ∧ is_route service method (hq_path req) ∧ params_of from_str req params.

Definition calls_of (i : nat) (st : state) := map snd (filter (λ c, c.1 = i) (gs_calls st)).

Definition phase_ok (i : nat) (req : HttpRequest) (phase : HandlerPhase) (st : state) : Prop :=
  match phase with
  | Answered response => answer req (calls_of i st) response
  | Arrived => calls_of i st = []
  | ReadingBody service method =>
      calls_of i st = [] ∧ admitted req ∧ is_route service method (hq_path req) ∧ hq_method req = Post
  | Looking service method params => calls_of i st = [] ∧ asks req service method params
  | Storing service method params proxy | Calling service method params proxy =>
      calls_of i st = [] ∧ asks req service method params ∧ built service proxy
  end.

Definition cache_ok (st : state) : Prop := gs_factories st = factories ∧ map_Forall built (gs_cache st).

Lemma invoke_start_route service method params (path : bytes) :
  is_route service method path → invoke_start (Invoker := Invoker) service method params = Looking service method params.
Proof. intros (Hs & Hm & _). unfold invoke_start. by rewrite !bool_decide_eq_false_2. Qed.

Lemma gateway_run_ok i req st : calls_of i st = [] → phase_ok i req (gateway_run allowed req) st.
Proof.
  intros Hno. unfold gateway_run.
  assert (Hor : match origin_rejection allowed (hq_origin req) with
    | Some response => ∃ origin body, hq_origin req = Some origin ∧ ¬ own_origin allowed origin ∧
        response = MkHttpResponse 403 body
    | None => admitted req end).
  { unfold origin_rejection, admitted. destruct (hq_origin req) as [origin|]; [|done].
    destruct (is_origin_allowed allowed origin) eqn:Ho; [intros o [= <-]; by apply is_origin_allowed_own|].
    eexists _, _. split_and!; [done| |done]. rewrite <- is_origin_allowed_own. congruence. }
  destruct (origin_rejection _ _); [destruct Hor as (o & body & ? & ? & ->); simpl; rewrite Hno; by econstructor|].
  destruct (split_path (hq_path req)) as [[service method]|] eqn:Hsp; simpl.
  2:{ rewrite Hno. apply answer_no_route; [done|]. intros s m Hr%split_path_spec. congruence. }
  apply split_path_spec in Hsp. destruct (hq_method req) eqn:Hm; simpl.
  - rewrite (invoke_start_route _ _ _ _ Hsp). split; [done|]. split; [done|]. split; [done|]. by constructor.
  - done.
  - rewrite Hno. by eapply answer_bad_method.
Qed.

Lemma cache_look_ok i req service method params st :
  cache_ok st → calls_of i st = [] → asks req service method params →
  let (phase, st') := cache_look call_factory service method params st in
  phase_ok i req phase st' ∧ cache_ok st' ∧ gs_calls st' = gs_calls st.
Proof.
  intros [Hf Hc] Hno Hask. unfold cache_look. destruct (gs_cache st !! service) as [proxy|] eqn:Hs.
  { split; [|done]. simpl. split_and!; [done|done|by apply (Hc _ _ Hs)]. }
  rewrite Hf. destruct (factories !! service) as [factory|] eqn:Hfac.
  - destruct (call_factory factory (gs_world st)) as [proxy x] eqn:Hcall. split; [|done]. simpl. split_and!; [done|done|].
    exists factory, (gs_world st). by rewrite Hcall.
  - split; [|done]. destruct Hask as (Ha & Hr & Hp). simpl. rewrite Hno.
    eapply answer_no_service; [done|done| |done]. destruct Hp; congruence.
Qed.

Lemma invoke_response_tells service method r : tells service method r (invoke_response service method r).
Proof. destruct r as [[[]|[]]|]; simpl; solve [constructor; auto|apply tells_failure]. Qed.

Lemma calls_of_note i j proxy method params r st :
  calls_of j (note_call i proxy method params r st) =
    calls_of j st ++ (if decide (i = j) then [(proxy, method, params, r)] else []).
Proof.
  unfold calls_of, note_call. simpl. rewrite filter_app, map_app. f_equal. rewrite filter_cons. simpl.
  by destruct (decide (i = j)).
Qed.

(** A turn keeps what its handler knows, the cache, and the calls of the others. *)
Lemma handler_step_ok i req turn phase st :
  cache_ok st → phase_ok i req phase st →
  let (phase', st') := handler_step call_factory from_str allowed i req turn phase st in
  phase_ok i req phase' st' ∧ cache_ok st' ∧ ∀ j, j ≠ i → calls_of j st' = calls_of j st.
Proof.
  intros Hc Hp. destruct phase as [|service method|service method params|service method params proxy|service method params proxy|response];
    simpl in *.
  - split_and!; try done. by apply gateway_run_ok.
  - destruct Hp as (Hno & Ha & Hr & Hm). destruct (tn_body turn) as [|arrived]; [done|]. split_and!; try done.
    rewrite (invoke_start_route _ _ _ _ Hr). split; [done|]. split; [done|]. split; [done|].
    apply params_post; [done|]. destruct arrived; auto.
  - destruct Hp as [Hno Hask]. destruct (tn_lock turn); [|done].
    pose proof (cache_look_ok i req service method params st Hc Hno Hask) as Hl. destruct (cache_look _ _ _ _ st) as [phase' st'].
    destruct Hl as (? & ? & Hcalls). split_and!; try done. intros j _. unfold calls_of. by rewrite Hcalls.
  - destruct (tn_lock turn); [|done]. destruct Hc as [Hf Hc], Hp as (Hno & Hask & Hb). split_and!; try done. split; [done|].
    unfold cache_store. simpl. destruct (gs_cache st !! service); [done|]. by apply map_Forall_insert_2.
  - destruct (tn_answer turn) as [|r]; [done|]. destruct Hp as (Hno & (Ha & Hr & Hpar) & Hb). split_and!; [|done|].
    + simpl. rewrite calls_of_note, Hno, decide_True by done. econstructor; eauto using invoke_response_tells.
    + intros j Hj. rewrite calls_of_note, decide_False by done. apply app_nil_r.
  - done.
Qed.

Definition gateway_ok (reqs : list HttpRequest) (s : list HandlerPhase * state) : Prop :=
  cache_ok s.2 ∧ length s.1 = length reqs ∧
  ∀ i req phase, reqs !! i = Some req → s.1 !! i = Some phase → phase_ok i req phase s.2.

Lemma phase_ok_calls i req phase st st' : calls_of i st' = calls_of i st → phase_ok i req phase st → phase_ok i req phase st'.
Proof. intros Heq. unfold phase_ok. by rewrite Heq. Qed.

Lemma gateway_step_ok reqs s t :
  gateway_ok reqs s → gateway_ok reqs (gateway_step call_factory from_str allowed reqs s t).
Proof.
  intros (Hc & Hlen & Hp). destruct t as [i turn]. unfold gateway_step. cbn [fst snd].
  destruct (reqs !! i) as [req|] eqn:Hreq; [|done]. destruct (s.1 !! i) as [phase|] eqn:Hphase; [|done].
  pose proof (handler_step_ok i req turn phase s.2 Hc (Hp _ _ _ Hreq Hphase)) as Hstep.
  destruct (handler_step _ _ _ i req turn phase s.2) as [phase' st']. destruct Hstep as (Hok & Hst & Hother).
  split_and!; simpl; [done|by rewrite length_insert|]. intros j req' phase2 Hj. destruct (decide (i = j)) as [->|Hne].
  - rewrite list_lookup_insert_eq by (by eapply lookup_lt_Some). intros [= <-]. by simplify_eq.
  - rewrite list_lookup_insert_ne by done. intros Hj2. eapply phase_ok_calls; [by apply Hother|]. by eapply Hp.
Qed.

(** *** The turns a handler needs *)

Definition ready_turn (t : Turn) : bool :=
  tn_lock t && match tn_body t with Ready _ => true | Pending => false end &&
  match tn_answer t with Ready _ => true | Pending => false end.

Definition turns (i : nat) (schedule : list (nat * Turn)) : nat :=
  length (filter (λ t, t.1 = i ∧ ready_turn t.2 = true) schedule).

Definition steps_left (phase : HandlerPhase (Invoker := Invoker)) : nat :=
  match phase with
  | Arrived => 5
  | ReadingBody _ _ => 4
  | Looking _ _ _ => 3
  | Storing _ _ _ _ => 2
  | Calling _ _ _ _ => 1
  | Answered _ => 0
  end.

Lemma handler_step_progress i req turn phase (st : state) :
  (steps_left (handler_step call_factory from_str allowed i req turn phase st).1 ≤
     steps_left phase - (if ready_turn turn then 1 else 0))%nat.
Proof.
  unfold ready_turn, handler_step, gateway_run, invoke_start, cache_look.
  destruct phase; simpl; repeat (case_match; simplify_eq/=); lia.
Qed.

Lemma gateway_progress reqs s schedule i phase :
  length s.1 = length reqs → s.1 !! i = Some phase →
  ∃ phase', (fold_left (gateway_step call_factory from_str allowed reqs) schedule s).1 !! i = Some phase' ∧
            (steps_left phase' ≤ steps_left phase - turns i schedule)%nat.
Proof.
  revert s phase. induction schedule as [|[j turn] l IH]; intros s phase Hlen Hi; simpl.
  { exists phase. unfold turns. simpl. split; [done|lia]. }
  assert (Hlt : is_Some (reqs !! i)) by (apply lookup_lt_is_Some; rewrite <- Hlen; by eapply lookup_lt_Some).
  set (s1 := gateway_step _ _ _ reqs s (j, turn)).
  assert (Hstep : ∃ phase1, s1.1 !! i = Some phase1 ∧ length s1.1 = length reqs ∧
    (steps_left phase1 ≤ steps_left phase - (if decide (j = i ∧ ready_turn turn = true) then 1 else 0))%nat).
  { unfold s1, gateway_step. cbn [fst snd]. destruct (decide (j = i)) as [->|Hne].
    - destruct Hlt as [req ->]. rewrite Hi. pose proof (handler_step_progress i req turn phase s.2) as Hpr.
      destruct (handler_step _ _ _ i req turn phase s.2) as [phase1 st1]. exists phase1. simpl in *.
      rewrite length_insert, list_lookup_insert_eq by (by eapply lookup_lt_Some). split_and!; [done..|].
      destruct (ready_turn turn); case_decide; naive_solver lia.
    - exists phase. rewrite decide_False by (by intros [? _]). destruct (reqs !! j), (s.1 !! j); try (split_and!; [done..|lia]).
      case_match. simpl. rewrite length_insert, list_lookup_insert_ne by done. split_and!; [done..|lia]. }
  destruct Hstep as (phase1 & Hi1 & Hlen1 & Hle). destruct (IH _ _ Hlen1 Hi1) as (phase' & Hp & Hle').
  exists phase'. split; [done|]. unfold turns in *. rewrite filter_cons. simpl.
  destruct (decide (j = i ∧ ready_turn turn = true)); simpl; lia.
Qed.

(** C25. The gateway answers each request on its own, and its cache cannot be seen.
    However the handlers of the requests take their turns, an answer is one the
    specification without a cache allows: 403 exactly for an origin outside the
    allowed domain, 404 for no route, no service or no method, 405 for another
    verb, else what the view of the named service, as its factory built it,
    answered to that one call with these arguments, under the status of its outcome.
    A handler that has had five turns in which nothing kept it waiting has answered. *)
Theorem gateway_refines_stateless x reqs schedule i req :
  reqs !! i = Some req →
  let s := gateway_handles call_factory from_str allowed factories x reqs schedule in
  (∀ response, s.1 !! i = Some (Answered response) → answer req (calls_of i s.2) response) ∧
  ((5 ≤ turns i schedule)%nat → ∃ response, s.1 !! i = Some (Answered response)).
Proof.
  intros Hreq s.
  assert (Hok : gateway_ok reqs s).
  { unfold s, gateway_handles. assert (Hstart : gateway_ok reqs (gateway_start factories x reqs)).
    { split_and!; simpl; [by split; [|apply map_Forall_empty]|by rewrite length_replicate|].
      intros j req' phase _ [-> _]%lookup_replicate. done. }
    revert Hstart. generalize (gateway_start (Invoker := Invoker) factories x reqs).
    induction schedule as [|t l IH]; intros s0 Hs0; simpl; [done|]. by apply IH, gateway_step_ok. }
  destruct Hok as (_ & _ & Hp). split.
  - intros response Hr. exact (Hp _ _ _ Hreq Hr).
  - intros Hturns. destruct (gateway_progress reqs (gateway_start factories x reqs) schedule i Arrived) as (phase & Hi & Hle).
    + simpl. by rewrite length_replicate.
    + simpl. apply lookup_replicate. split; [done|]. by eapply lookup_lt_Some.
    + simpl in Hle. destruct phase; simpl in Hle; try lia. by eexists.
Qed.
End concurrent.

(** Two requests for one service, both of which miss the cache; a third from a page
    outside the domain. *)
Definition echo_factories : gmap bytes () := {[ as_bytes "echo" := () ]}.

Definition echo_request (origin : option bytes) (arg : bytes) : HttpRequest :=
  MkHttpRequest origin (as_bytes "/echo/say") Get (as_bytes "x=" ++ arg) [].

Definition echo_requests : list HttpRequest :=
  [echo_request None (as_bytes "1"); echo_request (Some (as_bytes "http://my-domain.com:80")) (as_bytes "2");
   echo_request (Some (as_bytes "http://evil.com")) (as_bytes "3")].

Definition waiting : Turn := MkTurn Pending true Pending.
Definition told (n : Z) : Turn := MkTurn (Ready true) true (Ready (Some (Ok (JValue (VNumber (NPosInt n)))))).

Definition echo_schedule : list (nat * Turn) :=
  [(0, waiting); (1, waiting); (0, waiting); (1, waiting); (2, waiting); (0, waiting); (1, waiting); (1, waiting); (0, told 1);
   (1, told 2)]%nat.

Definition echo_end : list HandlerPhase * HttpGatewayState (Invoker := nat) :=
  gateway_handles (λ _ n, (n, S n)) (λ _, None) (as_bytes "my-domain.com") echo_factories 7%nat echo_requests echo_schedule.

(** Each built its view and each was answered by it; the cache has the first. *)
Lemma gateway_refines_stateless_witness :
  echo_end.1 !! 1%nat = Some (Answered (MkHttpResponse 200
    (VObject [("data", VNumber (NPosInt 2)); ("status", VString "ok")]%string))) ∧
  answer (λ _ n, (n, S n)) (λ _, None) (as_bytes "my-domain.com") echo_factories
    (echo_request (Some (as_bytes "http://my-domain.com:80")) (as_bytes "2"))
    [(8%nat, as_bytes "say", VNumber (NPosInt 2), Some (Ok (JValue (VNumber (NPosInt 2)))))]
    (MkHttpResponse 200 (VObject [("data", VNumber (NPosInt 2)); ("status", VString "ok")]%string)) ∧
  ¬ own_origin (as_bytes "my-domain.com") (as_bytes "http://evil.com").
Proof.
  assert (H1 : echo_end.1 !! 1%nat = Some (Answered (MkHttpResponse 200
    (VObject [("data", VNumber (NPosInt 2)); ("status", VString "ok")]%string)))) by (vm_compute; reflexivity).
  split; [exact H1|]. split.
  - destruct (gateway_refines_stateless (λ (_ : ()) n, (n, S n)) (λ _, None) (as_bytes "my-domain.com") echo_factories 7%nat
      echo_requests echo_schedule 1%nat (echo_request (Some (as_bytes "http://my-domain.com:80")) (as_bytes "2")) eq_refl) as [Ha _].
    specialize (Ha _ H1).
    assert (Hcalls : calls_of 1 echo_end.2 = [(8%nat, as_bytes "say", VNumber (NPosInt 2), Some (Ok (JValue (VNumber (NPosInt 2)))))])
      by (vm_compute; reflexivity).
    rewrite <- Hcalls. exact Ha.
  - rewrite <- is_origin_allowed_own. by vm_compute.
Defined.
