(* ===== verification/Config.v ===== *)
(** * The configuration of the observer ([ice-rpc-monitor/src/config.rs])

    The arguments of the command line, read one flag at a time.  Durations are
    in milliseconds.  The reading of a socket address and its error are
    parameters, as is the text of the help. *)

From S2P Require Import Prelude MachineInt Text Collector Parse.

Local Open Scope Z_scope.

Inductive Mode : Type := Stats | Detail.

Inductive TraceFormat : Type := FJson | FHuman.

#[export] Instance Mode_eq_dec : EqDecision Mode.
Proof. solve_decision. Defined.

Section config.
(** [SocketAddr] and its [FromStr]. *)
Context {Addr : Type} (parse_addr : string → result Addr string) (default_prometheus : string) (HELP : string).

Record Config : Type := MkConfig {
  cf_prometheus_addr : option Addr;
  cf_channels : list string;
  cf_mode : Mode;
  cf_detail_channels : list string;
  cf_discover_interval : Z;
  cf_sweep_interval : Z;
  cf_call_ttl : Z;
  cf_max_inflight : Z;
  cf_trace_sample_rate : Z;
  cf_trace_file : option string;
  cf_trace_format : TraceFormat;
  cf_decoders : Decoders;
  cf_health_interval : Z;
  cf_health_shm : bool;
  cf_cleanup : bool;
  cf_console_live : bool;
  cf_liveness_interval : Z
}.

Definition config_default : Config :=
  MkConfig (match parse_addr default_prometheus with Ok a => Some a | Err _ => None end)
    [] Stats [] 2000 5000 60000 100000 0 None FJson ∅ 2000 false false false 1000.

Definition set_prometheus_addr (v : option Addr) (c : Config) : Config :=
  MkConfig v (cf_channels c) (cf_mode c) (cf_detail_channels c) (cf_discover_interval c)
    (cf_sweep_interval c) (cf_call_ttl c) (cf_max_inflight c) (cf_trace_sample_rate c)
    (cf_trace_file c) (cf_trace_format c) (cf_decoders c) (cf_health_interval c) (cf_health_shm c)
    (cf_cleanup c) (cf_console_live c) (cf_liveness_interval c).

Definition set_channels (v : list string) (c : Config) : Config :=
  MkConfig (cf_prometheus_addr c) v (cf_mode c) (cf_detail_channels c) (cf_discover_interval c)
    (cf_sweep_interval c) (cf_call_ttl c) (cf_max_inflight c) (cf_trace_sample_rate c)
    (cf_trace_file c) (cf_trace_format c) (cf_decoders c) (cf_health_interval c) (cf_health_shm c)
    (cf_cleanup c) (cf_console_live c) (cf_liveness_interval c).

Definition set_mode (v : Mode) (c : Config) : Config :=
  MkConfig (cf_prometheus_addr c) (cf_channels c) v (cf_detail_channels c) (cf_discover_interval c)
    (cf_sweep_interval c) (cf_call_ttl c) (cf_max_inflight c) (cf_trace_sample_rate c)
    (cf_trace_file c) (cf_trace_format c) (cf_decoders c) (cf_health_interval c) (cf_health_shm c)
    (cf_cleanup c) (cf_console_live c) (cf_liveness_interval c).

Definition set_detail_channels (v : list string) (c : Config) : Config :=
  MkConfig (cf_prometheus_addr c) (cf_channels c) (cf_mode c) v (cf_discover_interval c)
    (cf_sweep_interval c) (cf_call_ttl c) (cf_max_inflight c) (cf_trace_sample_rate c)
    (cf_trace_file c) (cf_trace_format c) (cf_decoders c) (cf_health_interval c) (cf_health_shm c)
    (cf_cleanup c) (cf_console_live c) (cf_liveness_interval c).

Definition set_discover_interval (v : Z) (c : Config) : Config :=
  MkConfig (cf_prometheus_addr c) (cf_channels c) (cf_mode c) (cf_detail_channels c) v
    (cf_sweep_interval c) (cf_call_ttl c) (cf_max_inflight c) (cf_trace_sample_rate c)
    (cf_trace_file c) (cf_trace_format c) (cf_decoders c) (cf_health_interval c) (cf_health_shm c)
    (cf_cleanup c) (cf_console_live c) (cf_liveness_interval c).

Definition set_call_ttl (v : Z) (c : Config) : Config :=
  MkConfig (cf_prometheus_addr c) (cf_channels c) (cf_mode c) (cf_detail_channels c)
    (cf_discover_interval c) (cf_sweep_interval c) v (cf_max_inflight c) (cf_trace_sample_rate c)
    (cf_trace_file c) (cf_trace_format c) (cf_decoders c) (cf_health_interval c) (cf_health_shm c)
    (cf_cleanup c) (cf_console_live c) (cf_liveness_interval c).

Definition set_max_inflight (v : Z) (c : Config) : Config :=
  MkConfig (cf_prometheus_addr c) (cf_channels c) (cf_mode c) (cf_detail_channels c)
    (cf_discover_interval c) (cf_sweep_interval c) (cf_call_ttl c) v (cf_trace_sample_rate c)
    (cf_trace_file c) (cf_trace_format c) (cf_decoders c) (cf_health_interval c) (cf_health_shm c)
    (cf_cleanup c) (cf_console_live c) (cf_liveness_interval c).

Definition set_trace_sample_rate (v : Z) (c : Config) : Config :=
  MkConfig (cf_prometheus_addr c) (cf_channels c) (cf_mode c) (cf_detail_channels c)
    (cf_discover_interval c) (cf_sweep_interval c) (cf_call_ttl c) (cf_max_inflight c) v
    (cf_trace_file c) (cf_trace_format c) (cf_decoders c) (cf_health_interval c) (cf_health_shm c)
    (cf_cleanup c) (cf_console_live c) (cf_liveness_interval c).

Definition set_trace_file (v : option string) (c : Config) : Config :=
  MkConfig (cf_prometheus_addr c) (cf_channels c) (cf_mode c) (cf_detail_channels c)
    (cf_discover_interval c) (cf_sweep_interval c) (cf_call_ttl c) (cf_max_inflight c)
    (cf_trace_sample_rate c) v (cf_trace_format c) (cf_decoders c) (cf_health_interval c)
    (cf_health_shm c) (cf_cleanup c) (cf_console_live c) (cf_liveness_interval c).

Definition set_trace_format (v : TraceFormat) (c : Config) : Config :=
  MkConfig (cf_prometheus_addr c) (cf_channels c) (cf_mode c) (cf_detail_channels c)
    (cf_discover_interval c) (cf_sweep_interval c) (cf_call_ttl c) (cf_max_inflight c)
    (cf_trace_sample_rate c) (cf_trace_file c) v (cf_decoders c) (cf_health_interval c)
    (cf_health_shm c) (cf_cleanup c) (cf_console_live c) (cf_liveness_interval c).

Definition set_health_interval (v : Z) (c : Config) : Config :=
  MkConfig (cf_prometheus_addr c) (cf_channels c) (cf_mode c) (cf_detail_channels c)
    (cf_discover_interval c) (cf_sweep_interval c) (cf_call_ttl c) (cf_max_inflight c)
    (cf_trace_sample_rate c) (cf_trace_file c) (cf_trace_format c) (cf_decoders c) v
    (cf_health_shm c) (cf_cleanup c) (cf_console_live c) (cf_liveness_interval c).

Definition set_health_shm (v : bool) (c : Config) : Config :=
  MkConfig (cf_prometheus_addr c) (cf_channels c) (cf_mode c) (cf_detail_channels c)
    (cf_discover_interval c) (cf_sweep_interval c) (cf_call_ttl c) (cf_max_inflight c)
    (cf_trace_sample_rate c) (cf_trace_file c) (cf_trace_format c) (cf_decoders c)
    (cf_health_interval c) v (cf_cleanup c) (cf_console_live c) (cf_liveness_interval c).

Definition set_cleanup (v : bool) (c : Config) : Config :=
  MkConfig (cf_prometheus_addr c) (cf_channels c) (cf_mode c) (cf_detail_channels c)
    (cf_discover_interval c) (cf_sweep_interval c) (cf_call_ttl c) (cf_max_inflight c)
    (cf_trace_sample_rate c) (cf_trace_file c) (cf_trace_format c) (cf_decoders c)
    (cf_health_interval c) (cf_health_shm c) v (cf_console_live c) (cf_liveness_interval c).

Definition set_console_live (v : bool) (c : Config) : Config :=
  MkConfig (cf_prometheus_addr c) (cf_channels c) (cf_mode c) (cf_detail_channels c)
    (cf_discover_interval c) (cf_sweep_interval c) (cf_call_ttl c) (cf_max_inflight c)
    (cf_trace_sample_rate c) (cf_trace_file c) (cf_trace_format c) (cf_decoders c)
    (cf_health_interval c) (cf_health_shm c) (cf_cleanup c) v (cf_liveness_interval c).

Definition detail_for (c : Config) (channel : string) : bool :=
  bool_decide (cf_mode c = Detail) || existsb (String.eqb channel) (cf_detail_channels c).

(** The text of [ParseIntError]. *)
Definition int_error (s : bytes) : string :=
  match s with
  | [] => "cannot parse integer from empty string"
  | _ => match parse_digits (match s with 43 :: s' => s' | _ => s end) with
         | Some _ => "number too large to fit in target type"
         | None => "invalid digit found in string"
         end
  end.

Definition config_parse_u64 (raw : string) : result Z string :=
  match parse_u64 (as_bytes raw) with
  | Some n => Ok n
  | None => Err ("invalid number '" +:+ raw +:+ "': " +:+ int_error (as_bytes raw))%string
  end.

(** What a flag does with its value. *)
Definition number_flag (set : Z → Config → Config) (v : string) (c : Config) : result Config string :=
  match config_parse_u64 v with Ok n => Ok (set n c) | Err e => Err e end.

Definition value_flag (arg : string) : option (string → Config → result Config string) :=
  if String.eqb arg "--prometheus" then Some (λ v c,
    if String.eqb v "off" then Ok (set_prometheus_addr None c)
    else match parse_addr v with
         | Ok a => Ok (set_prometheus_addr (Some a) c)
         | Err e => Err ("invalid --prometheus address: " +:+ e)%string
         end)
  else if String.eqb arg "--channel" then Some (λ v c, Ok (set_channels (cf_channels c ++ [v]) c))
  else if String.eqb arg "--mode" then Some (λ v c,
    if String.eqb v "stats" then Ok (set_mode Stats c)
    else if String.eqb v "detail" then Ok (set_mode Detail c)
    else Err ("invalid --mode '" +:+ v +:+ "' (expected 'stats' or 'detail')")%string)
  else if String.eqb arg "--detail-channel" then
    Some (λ v c, Ok (set_detail_channels (cf_detail_channels c ++ [v]) c))
  else if String.eqb arg "--discover-interval-ms" then Some (number_flag set_discover_interval)
  else if String.eqb arg "--call-ttl-ms" then Some (number_flag set_call_ttl)
  else if String.eqb arg "--max-inflight" then Some (number_flag set_max_inflight)
  else if String.eqb arg "--trace-sample-rate" then Some (number_flag set_trace_sample_rate)
  else if String.eqb arg "--trace-file" then Some (λ v c, Ok (set_trace_file (Some v) c))
  else if String.eqb arg "--trace-format" then Some (λ v c,
    if String.eqb v "json" then Ok (set_trace_format FJson c)
    else if String.eqb v "human" then Ok (set_trace_format FHuman c)
    else Err ("invalid --trace-format '" +:+ v +:+ "' (expected 'json' or 'human')")%string)
  else if String.eqb arg "--health-interval-ms" then Some (number_flag set_health_interval)
  else None.

(** A flag that takes no value, the help, or what is unknown. *)
Definition switch (arg : string) (c : Config) : result Config string :=
  if String.eqb arg "--detail" then Ok (set_mode Detail c)
  else if String.eqb arg "--health-shm" then Ok (set_health_shm true c)
  else if String.eqb arg "--cleanup" then Ok (set_cleanup true c)
  else if String.eqb arg "--live" then Ok (set_console_live true c)
  else if String.eqb arg "--help" || String.eqb arg "-h" then Err HELP
  else Err ("unknown argument '" +:+ arg +:+ "'" +:+ String (Ascii.ascii_of_nat 10) HELP)%string.

(** The [while] loop over the arguments. *)
Fixpoint read_args (args : list string) (c : Config) : result Config string :=
  match args with
  | [] => Ok c
  | arg :: rest =>
      match value_flag arg with
      | Some set =>
          match rest with
          | [] => Err ("missing value for " +:+ arg)%string
          | v :: rest' => match set v c with Ok c' => read_args rest' c' | Err e => Err e end
          end
      | None => match switch arg c with Ok c' => read_args rest c' | Err e => Err e end
      end
  end.

Definition from_args (args : list string) : result Config string := read_args args config_default.

(** ** Every configuration can be asked for *)

(** The command line of a configuration. *)
Definition to_args (show_addr : Addr → string) (c : Config) : list string :=
  ["--prometheus"; match cf_prometheus_addr c with Some a => show_addr a | None => "off" end] ++
  mjoin (map (λ ch, ["--channel"; ch]%string) (cf_channels c)) ++
  ["--mode"; match cf_mode c with Stats => "stats" | Detail => "detail" end] ++
  mjoin (map (λ ch, ["--detail-channel"; ch]) (cf_detail_channels c)) ++
  ["--discover-interval-ms"; pretty (cf_discover_interval c); "--call-ttl-ms"; pretty (cf_call_ttl c);
   "--max-inflight"; pretty (cf_max_inflight c); "--trace-sample-rate"; pretty (cf_trace_sample_rate c)] ++
  match cf_trace_file c with Some f => ["--trace-file"; f] | None => [] end ++
  ["--trace-format"; match cf_trace_format c with FJson => "json" | FHuman => "human" end;
   "--health-interval-ms"; pretty (cf_health_interval c)] ++
  (if cf_health_shm c then ["--health-shm"] else []) ++
  (if cf_cleanup c then ["--cleanup"] else []) ++
  (if cf_console_live c then ["--live"] else []).

(** The settings that have no flag keep their default. *)
Definition askable (c : Config) : Prop :=
  cf_sweep_interval c = 5000 ∧ cf_liveness_interval c = 1000 ∧ cf_decoders c = ∅ ∧
  u64 (cf_discover_interval c) ∧ u64 (cf_call_ttl c) ∧ u64 (cf_max_inflight c) ∧
  u64 (cf_trace_sample_rate c) ∧ u64 (cf_health_interval c).

Lemma read_value arg set v rest c c' :
  value_flag arg = Some set → set v c = Ok c' → read_args (arg :: v :: rest) c = read_args rest c'.
Proof. intros Hf Hs. simpl. by rewrite Hf, Hs. Qed.

Lemma number_flag_pretty set n c : u64 n → number_flag set (pretty n) c = Ok (set n c).
Proof. intros Hn. unfold number_flag, config_parse_u64. by rewrite parse_u64_pretty. Qed.

Lemma read_channels l rest c :
  read_args (mjoin (map (λ ch, ["--channel"; ch]%string) l) ++ rest) c = read_args rest (set_channels (cf_channels c ++ l) c).
Proof.
  revert c. induction l as [|ch l IH]; intros c; [rewrite app_nil_r; by destruct c|].
  change (mjoin (map (λ ch, ["--channel"; ch]%string) (ch :: l)) ++ rest)
    with ("--channel" :: ch :: (mjoin (map (λ ch, ["--channel"; ch]%string) l) ++ rest))%string.
  erewrite read_value; [|reflexivity..]. rewrite IH. simpl. by rewrite <- app_assoc.
Qed.

Lemma read_detail_channels l rest c :
  read_args (mjoin (map (λ ch, ["--detail-channel"; ch]) l) ++ rest) c =
  read_args rest (set_detail_channels (cf_detail_channels c ++ l) c).
Proof.
  revert c. induction l as [|ch l IH]; intros c; [rewrite app_nil_r; by destruct c|].
  change (mjoin (map (λ ch, ["--detail-channel"; ch]) (ch :: l)) ++ rest)
    with ("--detail-channel" :: ch :: (mjoin (map (λ ch, ["--detail-channel"; ch]) l) ++ rest))%string.
  erewrite read_value; [|reflexivity..]. rewrite IH. simpl. by rewrite <- app_assoc.
Qed.

(** The command line of a configuration reads back as that configuration,
    whatever the names of its channels and its trace file: an argument that is
    the value of a flag is never taken for a flag. *)
Theorem args_round_trip (show_addr : Addr → string) c :
  (∀ a, parse_addr (show_addr a) = Ok a ∧ show_addr a ≠ "off"%string) → askable c →
  from_args (to_args show_addr c) = Ok c.
Proof.
  intros Haddr (Hsw & Hlv & Hdec & Hdi & Htt & Hmi & Hts & Hhi). unfold from_args, to_args.
  destruct c as [addr chans mode dchans di sw ttl mi ts tf fmt dec hi shm cl live lv]. simpl in Hsw, Hlv, Hdec, Hdi, Htt, Hmi, Hts, Hhi. subst sw lv dec.
  cbn [app cf_prometheus_addr cf_channels cf_mode cf_detail_channels cf_discover_interval cf_call_ttl cf_max_inflight
    cf_trace_sample_rate cf_trace_file cf_trace_format cf_health_interval cf_health_shm cf_cleanup cf_console_live].
  erewrite (read_value "--prometheus" _ _ _ _ (set_prometheus_addr addr config_default)); [|reflexivity|].
  2:{ simpl. destruct addr as [a|]; [|done]. destruct (Haddr a) as [Hp Hne].
      rewrite (proj2 (String.eqb_neq _ _) Hne). by rewrite Hp. }
  rewrite read_channels.
  erewrite (read_value "--mode" _ _ _ _ (set_mode mode (set_channels chans (set_prometheus_addr addr config_default))));
    [|reflexivity|by destruct mode].
  rewrite read_detail_channels.
  do 4 (erewrite read_value; [|reflexivity|by apply number_flag_pretty]).
  assert (Hfile : ∀ rest c0, cf_trace_file c0 = None →
    read_args (match tf with Some f => ["--trace-file"; f]%string | None => [] end ++ rest) c0
    = read_args rest (set_trace_file tf c0)).
  { intros rest c0 Hc0. destruct tf; [done|]. destruct c0; simpl in *. by subst. }
  rewrite Hfile by done. clear Hfile.
  destruct fmt; (erewrite (read_value "--trace-format"); [|reflexivity..]);
    (erewrite read_value; [|reflexivity|by apply number_flag_pretty]); by destruct shm, cl, live.
Qed.
End config.

(** One address, for the example. *)
Definition example_addr (v : string) : result () string :=
  if String.eqb v "127.0.0.1:9898" then Ok () else Err "invalid socket address syntax"%string.

Lemma args_round_trip_witness :
  from_args example_addr "127.0.0.1:9898" "help"
    ["--prometheus"; "off"; "--channel"; "--live"; "--mode"; "detail"; "--discover-interval-ms"; "500";
     "--call-ttl-ms"; "60000"; "--max-inflight"; "100000"; "--trace-sample-rate"; "0"; "--trace-format"; "json";
     "--health-interval-ms"; "0"; "--cleanup"]%string
  = Ok (MkConfig None ["--live"]%string Detail [] 500 5000 60000 100000 0 None FJson ∅ 0 false true false 1000).
Proof.
  apply (args_round_trip example_addr "127.0.0.1:9898" "help" (λ _, "127.0.0.1:9898")%string
    (MkConfig None ["--live"]%string Detail [] 500 5000 60000 100000 0 None FJson ∅ 0 false true false 1000)).
  - intros []. done.
  - unfold askable. simpl. split_and!; done.
Defined.
