(* ===== verification/Health.v ===== *)
(** * The inventory of the machine ([ice-rpc-monitor/src/health.rs], [metrics.rs])

    The scan of the nodes is throttled and keeps what the last good scan found;
    the footprint of the shared memory is measured by a walk of bounded depth.
    What the bus lists and the layout of its files are arguments; the file system
    is a tree.  Then the part of the registry of metrics that shows them. *)

From S2P Require Import Prelude MachineInt Text Parse.

Local Open Scope Z_scope.

(** ** The shared-memory footprint *)

Record Layout : Type := MkLayout { la_prefix : string; la_data_segment_suffix : string }.

Record ShmFootprint : Type := MkFootprint { sf_bytes : Z; sf_segments : Z; sf_files : Z }.

Definition footprint_default : ShmFootprint := MkFootprint 0 0 0.

(** An entry of a directory: one whose metadata cannot be read, a file with its
    name and length, a directory that may be unreadable. *)
Inductive Entry : Type :=
| EUnknown
| EFile (name : string) (len : Z)
| EDir (content : option (list Entry)).

Definition MAX_WALK_DEPTH : nat := 8.

(** A file met by the walk. *)
Definition count_file (layout : Layout) (name : string) (len : Z) (out : ShmFootprint) : ShmFootprint :=
  if starts_with (as_bytes (la_prefix layout)) (as_bytes name) then
    if ends_with (as_bytes (la_data_segment_suffix layout)) (as_bytes name) then
      MkFootprint (sf_bytes out + len) (sf_segments out + 1) (sf_files out + 1)
    else MkFootprint (sf_bytes out) (sf_segments out) (sf_files out + 1)
  else out.

(** [walk], with the depths left below the directory. *)
Fixpoint walk (left : nat) (layout : Layout) (dir : option (list Entry)) (out : ShmFootprint) : ShmFootprint :=
  match left with
  | O => out
  | S left' =>
      match dir with
      | None => out
      | Some entries =>
          fold_left (λ out e,
            match e with
            | EUnknown => out
            | EFile name len => count_file layout name len out
            | EDir content => walk left' layout content out
            end) entries out
      end
  end.

(** The depths 0 to [MAX_WALK_DEPTH] are walked. *)
Definition scan_shm (layout : Layout) (roots : list (option (list Entry))) : ShmFootprint :=
  fold_left (λ out root, walk (S MAX_WALK_DEPTH) layout root out) roots footprint_default.

(** The files at a depth of [n] or less below a directory, and no others. *)
Fixpoint files_within (left : nat) (dir : option (list Entry)) : list (string * Z) :=
  match left with
  | O => []
  | S left' =>
      mjoin (map (λ e, match e with
                       | EUnknown => []
                       | EFile name len => [(name, len)]
                       | EDir content => files_within left' content
                       end) (default [] dir))
  end.

Definition of_transport (layout : Layout) (f : string * Z) : bool :=
  starts_with (as_bytes (la_prefix layout)) (as_bytes f.1).

Definition is_segment (layout : Layout) (f : string * Z) : bool :=
  ends_with (as_bytes (la_data_segment_suffix layout)) (as_bytes f.1).

Definition sum (l : list Z) : Z := foldr Z.add 0 l.

(** What a list of files amounts to. *)
Definition footprint_of (layout : Layout) (files : list (string * Z)) : ShmFootprint :=
  let mine := filter (λ f, of_transport layout f = true) files in
  let segments := filter (λ f, is_segment layout f = true) mine in
  MkFootprint (sum (map snd segments)) (Z.of_nat (length segments)) (Z.of_nat (length mine)).

Definition footprint_add (a b : ShmFootprint) : ShmFootprint :=
  MkFootprint (sf_bytes a + sf_bytes b) (sf_segments a + sf_segments b) (sf_files a + sf_files b).

Lemma sum_app l1 l2 : sum (l1 ++ l2) = sum l1 + sum l2.
Proof. unfold sum. induction l1 as [|z l1 IH]; simpl; lia. Qed.

Lemma footprint_of_app layout l1 l2 :
  footprint_of layout (l1 ++ l2) = footprint_add (footprint_of layout l1) (footprint_of layout l2).
Proof.
  unfold footprint_of, footprint_add. simpl. rewrite !filter_app, !length_app, map_app, sum_app. f_equal; lia.
Qed.

Lemma footprint_add_assoc a b c : footprint_add (footprint_add a b) c = footprint_add a (footprint_add b c).
Proof. unfold footprint_add; simpl. f_equal; lia. Qed.

Lemma footprint_add_nil layout a : footprint_add a (footprint_of layout []) = a.
Proof. destruct a. unfold footprint_add, footprint_of; simpl. f_equal; lia. Qed.

Lemma count_file_of layout name len out :
  count_file layout name len out = footprint_add out (footprint_of layout [(name, len)]).
Proof.
  unfold count_file, footprint_of, footprint_add, of_transport, is_segment. destruct out as [by_ seg files]. cbn [sf_bytes sf_segments sf_files].
  rewrite filter_cons, filter_nil. cbn [fst].
  destruct (starts_with _ _); [rewrite decide_True by done|rewrite decide_False by done]; rewrite ?filter_cons, filter_nil;
    cbn [fst]; [|simpl; f_equal; lia].
  destruct (ends_with _ _); [rewrite decide_True by done|rewrite decide_False by done]; simpl; f_equal; lia.
Qed.

Lemma walk_spec left layout dir out :
  walk left layout dir out = footprint_add out (footprint_of layout (files_within left dir)).
Proof.
  revert dir out. induction left as [|left IH]; intros dir out; simpl; [by rewrite footprint_add_nil|].
  destruct dir as [entries|]; simpl; [|by rewrite footprint_add_nil]. revert out.
  induction entries as [|e entries IHe]; intros out; simpl; [by rewrite footprint_add_nil|]. rewrite IHe.
  change (mjoin (?x :: ?l)) with (x ++ mjoin l). rewrite footprint_of_app, <- footprint_add_assoc. f_equal.
  destruct e as [|name len|content]; [by rewrite footprint_add_nil|apply count_file_of|apply IH].
Qed.

(** The walk measures the files of the transport and nothing else: the footprint
    is that of the files up to the depth bound under the roots that carry its
    prefix, the segments among them counted with their bytes, whatever cannot be
    read left out. *)
Theorem scan_shm_spec layout roots :
  scan_shm layout roots = footprint_of layout (mjoin (map (files_within (S MAX_WALK_DEPTH)) roots)).
Proof.
  unfold scan_shm.
  assert (Hgen : ∀ out, fold_left (λ out root, walk (S MAX_WALK_DEPTH) layout root out) roots out =
    footprint_add out (footprint_of layout (mjoin (map (files_within (S MAX_WALK_DEPTH)) roots)))).
  { induction roots as [|root roots IH]; intros out; [by cbn [fold_left map]; rewrite footprint_add_nil|].
    cbn [fold_left map]. rewrite IH, walk_spec, footprint_add_assoc, <- footprint_of_app. done. }
  rewrite Hgen. by destruct (footprint_of _ _).
Qed.

(** ** The scanner *)

Inductive NodeHealth : Type := NAlive | NDead | NInaccessible | NUndefined.

Definition node_label (h : NodeHealth) : string :=
  match h with
  | NAlive => "alive"
  | NDead => "dead"
  | NInaccessible => "inaccessible"
  | NUndefined => "undefined"
  end.

Record NodeInfo : Type := MkNodeInfo {
  ni_pid : Z;
  ni_health : NodeHealth;
  ni_executable : option string;
  ni_name : option string
}.

(** The processes of the snapshot are those of the optional system library. *)
Record HealthSnapshot : Type := MkSnapshot {
  hs_nodes : list NodeInfo;
  hs_layout : option Layout;
  hs_shm : option ShmFootprint;
  hs_cpu_count : Z;
  hs_scans : Z;
  hs_errors : Z
}.

Definition snapshot_default : HealthSnapshot := MkSnapshot [] None None 0 0 0.

Record Scanner : Type := MkScanner {
  sc_interval : Z;
  sc_shm_enabled : bool;
  sc_cpu_count : Z;
  sc_last : option Z;
  sc_snapshot : HealthSnapshot
}.

Definition scanner_new (cpu_count interval : Z) (shm_enabled : bool) : Scanner :=
  MkScanner interval shm_enabled cpu_count None snapshot_default.

(** What a scan finds: the nodes, or the failure of their listing; the layout
    and the files under its roots. *)
Record Machine : Type := MkMachine {
  ma_nodes : option (list NodeInfo);
  ma_layout : Layout;
  ma_roots : list (option (list Entry))
}.

Definition refresh (ma : Machine) (s : Scanner) : Scanner :=
  let h := sc_snapshot s in
  MkScanner (sc_interval s) (sc_shm_enabled s) (sc_cpu_count s) (sc_last s)
    (MkSnapshot (default (hs_nodes h) (ma_nodes ma)) (Some (ma_layout ma))
       (if sc_shm_enabled s then Some (scan_shm (ma_layout ma) (ma_roots ma)) else hs_shm h)
       (sc_cpu_count s) (hs_scans h + 1)
       (match ma_nodes ma with Some _ => hs_errors h | None => hs_errors h + 1 end)).

Definition refresh_if_due (now : Z) (ma : Machine) (s : Scanner) : bool * Scanner :=
  let due := match sc_last s with
             | Some last => negb (Z.max 0 (now - last) <? sc_interval s)
             | None => true
             end in
  if due then
    (true, refresh ma (MkScanner (sc_interval s) (sc_shm_enabled s) (sc_cpu_count s) (Some now) (sc_snapshot s)))
  else (false, s).

(** The scans made among the calls, with their instants. *)
Fixpoint scans_made (calls : list (Z * Machine)) (s : Scanner) : list (Z * Machine) :=
  match calls with
  | [] => []
  | (now, ma) :: rest =>
      let (due, s') := refresh_if_due now ma s in
      if due then (now, ma) :: scans_made rest s' else scans_made rest s'
  end.

Definition scanner_run (calls : list (Z * Machine)) (s : Scanner) : Scanner :=
  fold_left (λ s call, (refresh_if_due call.1 call.2 s).2) calls s.

(** Consecutive scans are an interval apart. *)
Fixpoint spaced (interval : Z) (last : option Z) (scans : list (Z * Machine)) : Prop :=
  match scans with
  | [] => True
  | (now, _) :: rest =>
      match last with Some t => interval ≤ Z.max 0 (now - t) | None => True end ∧ spaced interval (Some now) rest
  end.

Definition failed_scans (scans : list (Z * Machine)) : Z :=
  Z.of_nat (length (filter (λ c, ma_nodes c.2 = None) scans)).

(** An observer that hiccups reports no node as gone: in any sequence of calls,
    the scans made are at least the interval apart, all of them are counted, the
    failed ones apart, and the nodes shown are those of the last scan that could
    list them. *)
Theorem scanner_conservative (calls : list (Z * Machine)) (s : Scanner) :
  let scans := scans_made calls s in
  let s' := scanner_run calls s in
  spaced (sc_interval s) (sc_last s) scans ∧
  hs_scans (sc_snapshot s') = hs_scans (sc_snapshot s) + Z.of_nat (length scans) ∧
  hs_errors (sc_snapshot s') = hs_errors (sc_snapshot s) + failed_scans scans ∧
  hs_nodes (sc_snapshot s') = default (hs_nodes (sc_snapshot s)) (last (omap (λ c, ma_nodes c.2) scans)).
Proof.
  revert s. induction calls as [|[now ma] calls IH]; intros s; simpl.
  { unfold failed_scans. simpl. split_and!; [done|lia..|done]. }
  unfold refresh_if_due. destruct (match sc_last s with Some _ => _ | None => true end) eqn:Hdue; [|apply IH].
  set (s1 := refresh ma _). specialize (IH s1). destruct IH as (Hsp & Hn & He & Hno). simpl in *.
  split_and!.
  - destruct (sc_last s) as [t|]; [|done]. by apply negb_true_iff, Z.ltb_ge in Hdue.
  - done.
  - lia.
  - rewrite He. unfold failed_scans. rewrite filter_cons. cbn [snd].
    destruct (decide (ma_nodes ma = None)) as [Hn0|Hn0]; destruct (ma_nodes ma); try done; cbn [length]; lia.
  - rewrite Hno. destruct (ma_nodes ma) as [nodes|]; simpl; [|done].
    rewrite last_cons. unfold omap. by destruct (last (list_omap _ _ _ (scans_made calls s1))).
Qed.

(** ** The inventory the registry exports ([metrics.rs]) *)

Record ChannelHealth : Type := MkChannelHealth {
  ch_channel : string;
  ch_direction : string;
  ch_attached : bool;
  ch_publishers : Z;
  ch_subscribers : Z;
  ch_max_publishers : Z;
  ch_max_subscribers : Z;
  ch_subscriber_buffer : Z
}.

(** [as i64]. *)
Definition as_i64 (z : Z) : Z := (z + 2 ^ 63) mod 2 ^ 64 - 2 ^ 63.

Record ChannelSample : Type := MkChannelSample {
  cs_attached : Z;
  cs_publishers : Z;
  cs_subscribers : Z;
  cs_max_publishers : Z;
  cs_max_subscribers : Z;
  cs_subscriber_buffer : Z
}.

(** The part of the registry that is replaced, beside the counters of [Metrics].
    [iv_shm] is [None] when the footprint is not measured: its gauges are then 0. *)
Record Inventory : Type := MkInventory {
  iv_node_states : gmap string Z;
  iv_node_info : gmap (Z * string * string) Z;
  iv_services : Z;
  iv_channels : gmap (string * string) ChannelSample;
  iv_shm : option (Z * Z * Z);
  iv_health_scans : Z;
  iv_health_errors : Z;
  iv_observer_dropped : Z;
  iv_discovery_errors : Z;
  iv_host_cpu_count : Z
}.

Definition inventory_new : Inventory := MkInventory ∅ ∅ 0 ∅ None 0 0 0 0 0.

Definition channel_sample (c : ChannelHealth) : ChannelSample :=
  MkChannelSample (Z.b2z (ch_attached c)) (as_i64 (ch_publishers c)) (as_i64 (ch_subscribers c))
    (as_i64 (ch_max_publishers c)) (as_i64 (ch_max_subscribers c)) (as_i64 (ch_subscriber_buffer c)).

Definition set_channels (channels : list ChannelHealth) (i : Inventory) : Inventory :=
  MkInventory (iv_node_states i) (iv_node_info i) (iv_services i)
    (fold_left (λ m c, <[(ch_channel c, ch_direction c) := channel_sample c]> m) channels ∅)
    (iv_shm i) (iv_health_scans i) (iv_health_errors i) (iv_observer_dropped i) (iv_discovery_errors i)
    (iv_host_cpu_count i).

Definition set_services (count : Z) (i : Inventory) : Inventory :=
  MkInventory (iv_node_states i) (iv_node_info i) count (iv_channels i) (iv_shm i) (iv_health_scans i)
    (iv_health_errors i) (iv_observer_dropped i) (iv_discovery_errors i) (iv_host_cpu_count i).

Definition count_node (m : gmap string Z) (n : NodeInfo) : gmap string Z :=
  <[node_label (ni_health n) := default 0 (m !! node_label (ni_health n)) + 1]> m.

Definition note_node (m : gmap (Z * string * string) Z) (n : NodeInfo) : gmap (Z * string * string) Z :=
  <[(ni_pid n, node_label (ni_health n), default "?"%string (ni_executable n)) := 1]> m.

Definition set_health (h : HealthSnapshot) (i : Inventory) : Inventory :=
  MkInventory (fold_left count_node (hs_nodes h) ∅) (fold_left note_node (hs_nodes h) ∅)
    (iv_services i) (iv_channels i)
    ((λ f, (as_i64 (sf_bytes f), as_i64 (sf_segments f), as_i64 (sf_files f))) <$> hs_shm h)
    (hs_scans h) (hs_errors h) (iv_observer_dropped i) (iv_discovery_errors i) (as_i64 (hs_cpu_count h)).

Definition set_observer (dropped_traces discovery_errors : Z) (i : Inventory) : Inventory :=
  MkInventory (iv_node_states i) (iv_node_info i) (iv_services i) (iv_channels i) (iv_shm i)
    (iv_health_scans i) (iv_health_errors i) dropped_traces discovery_errors (iv_host_cpu_count i).

(** The states exported are those of the nodes of the snapshot: nothing is left
    of an earlier one. *)
Lemma set_health_counts h i label :
  default 0 (iv_node_states (set_health h i) !! label) =
  Z.of_nat (length (filter (λ n, node_label (ni_health n) = label) (hs_nodes h))).
Proof.
  simpl. assert (Hgen : ∀ l m, default 0 (fold_left count_node l m !! label) =
    default 0 (m !! label) + Z.of_nat (length (filter (λ n, node_label (ni_health n) = label) l))).
  { induction l as [|n l IH]; intros m; [simpl; lia|]. cbn [fold_left]. rewrite IH. unfold count_node.
    rewrite filter_cons, lookup_insert. repeat case_decide; subst; try done; simpl; lia. }
  rewrite Hgen, lookup_empty. simpl. lia.
Qed.
