(* ===== verification/Observer.v ===== *)
(** * The acquisition loop of the observer ([ice-rpc-monitor/src/collector.rs],
    [ice-rpc/src/transport/monitor.rs], [ice-rpc/src/monitor/inventory.rs])

    The channels on the bus, the views attached to them, and the loop that
    drains them into the [Monitor] of [Collector].  What iceoryx2 and the clock
    answer is the interface [ObserverBus]; the clock is in nanoseconds. *)

From S2P Require Import Prelude MachineInt Text Event Header Correlate Metrics Collector Parse Config Health.

Local Open Scope Z_scope.

(** ** The channels on the bus *)

Definition REQUEST_SUFFIX : string := "_req".
Definition RESPONSE_SUFFIX : string := "_resp".
Definition REQUEST_NOTIFY_SUFFIX : string := "_req_notify".
Definition RESPONSE_NOTIFY_SUFFIX : string := "_resp_notify".

Definition pub_sub_suffix (d : Direction) : string :=
  match d with DRequest => REQUEST_SUFFIX | DResponse => RESPONSE_SUFFIX end.

Definition notify_suffix (d : Direction) : string :=
  match d with DRequest => REQUEST_NOTIFY_SUFFIX | DResponse => RESPONSE_NOTIFY_SUFFIX end.

Definition str_strip_suffix (suffix name : string) : option string :=
  of_bytes <$> strip_suffix (as_bytes suffix) (as_bytes name).

Definition str_ends_with (suffix name : string) : bool := ends_with (as_bytes suffix) (as_bytes name).

Definition strip_direction_suffix (name : string) : option string :=
  match str_strip_suffix REQUEST_SUFFIX name with
  | Some channel => Some channel
  | None => str_strip_suffix RESPONSE_SUFFIX name
  end.

Inductive ServiceRole : Type := RRequest | RResponse | RRequestNotify | RResponseNotify | ROther.

Definition role_of (name : string) : ServiceRole :=
  if str_ends_with "_req_notify" name then RRequestNotify
  else if str_ends_with "_resp_notify" name then RResponseNotify
  else if str_ends_with "_req" name then RRequest
  else if str_ends_with "_resp" name then RResponse
  else ROther.

(** [BTreeSet::insert], on the sorted list of its elements. *)
Fixpoint btree_insert (x : string) (l : list string) : list string :=
  match l with
  | [] => [x]
  | y :: l' =>
      match String.compare x y with
      | Lt => x :: l
      | Eq => l
      | Gt => y :: btree_insert x l'
      end
  end.

(** [discover_channels] over the listing of the services: a name, and whether
    the service is a publish/subscribe one. *)
Definition discover_channels (services : list (string * bool)) : list string :=
  fold_left (λ channels '(name, pub_sub),
    if pub_sub : bool then
      match strip_direction_suffix name with
      | Some channel => btree_insert channel channels
      | None => channels
      end
    else channels) services [].

Lemma btree_insert_elem x y l : y ∈ btree_insert x l ↔ y = x ∨ y ∈ l.
Proof.
  induction l as [|z l IH]; simpl; [set_solver|].
  destruct (String.compare x z) eqn:E; [|set_solver|set_solver].
  apply String.compare_eq_iff in E as ->. set_solver.
Qed.

Lemma as_bytes_inj a b : as_bytes a = as_bytes b → a = b.
Proof. intros E. by rewrite <- (of_as_bytes a), E, of_as_bytes. Qed.

Lemma str_strip_suffix_spec suffix name channel :
  str_strip_suffix suffix name = Some channel ↔ name = channel +:+ suffix.
Proof.
  unfold str_strip_suffix, strip_suffix, ends_with. split.
  - destruct (bool_decide _) eqn:Hlen; simpl; [|done]. apply bool_decide_eq_true in Hlen.
    case_bool_decide as Hd; simpl; [|done]. intros [= <-]. apply as_bytes_inj. rewrite as_bytes_app.
    rewrite as_of_bytes; [by rewrite <- Hd at 2; rewrite take_drop|].
    apply Forall_take, is_bytes_as_bytes.
  - intros ->. rewrite as_bytes_app, length_app. rewrite bool_decide_eq_true_2 by lia.
    replace (length (as_bytes channel) + length (as_bytes suffix) - length (as_bytes suffix))%nat
      with (length (as_bytes channel)) by lia.
    rewrite drop_app_length, bool_decide_eq_true_2, take_app_length by done. simpl. by rewrite of_as_bytes.
Qed.

(** The names of the two directions of a channel are told apart by their end. *)
Lemma strip_direction_spec name channel :
  strip_direction_suffix name = Some channel ↔
  ∃ d, name = channel +:+ pub_sub_suffix d.
Proof.
  unfold strip_direction_suffix. split.
  - destruct (str_strip_suffix REQUEST_SUFFIX name) as [c|] eqn:Hq.
    + intros [= ->]. apply str_strip_suffix_spec in Hq. by exists DRequest.
    + intros Hr%str_strip_suffix_spec. by exists DResponse.
  - intros [[] ->]; simpl.
    + by rewrite (proj2 (str_strip_suffix_spec REQUEST_SUFFIX _ channel)).
    + destruct (str_strip_suffix REQUEST_SUFFIX (channel +:+ RESPONSE_SUFFIX)) as [c|] eqn:Hq;
        [|by apply str_strip_suffix_spec].
      exfalso. apply str_strip_suffix_spec, (f_equal as_bytes) in Hq. rewrite !as_bytes_app in Hq.
      apply (f_equal last) in Hq. change (as_bytes RESPONSE_SUFFIX) with ([95; 114; 101; 115] ++ [112]) in Hq.
      change (as_bytes REQUEST_SUFFIX) with ([95; 114; 101] ++ [113]) in Hq.
      rewrite !app_assoc, !last_snoc in Hq. done.
Qed.

(** The discovery lists exactly the channels one of whose two publish/subscribe
    services is on the bus, each once. *)
Theorem discover_channels_spec services channel :
  channel ∈ discover_channels services ↔ ∃ d, (channel +:+ pub_sub_suffix d, true) ∈ services.
Proof.
  unfold discover_channels.
  assert (Hgen : ∀ acc, channel ∈ fold_left (λ channels '(name, pub_sub),
      if pub_sub : bool then match strip_direction_suffix name with
        | Some channel => btree_insert channel channels | None => channels end else channels) services acc ↔
    channel ∈ acc ∨ ∃ d, (channel +:+ pub_sub_suffix d, true) ∈ services).
  { induction services as [|[name ps] services IH]; intros acc; simpl; [set_solver|]. rewrite IH.
    assert (Hcons : (∃ d, (channel +:+ pub_sub_suffix d, true) ∈ (name, ps) :: services) ↔
      (ps = true ∧ strip_direction_suffix name = Some channel) ∨ ∃ d, (channel +:+ pub_sub_suffix d, true) ∈ services).
    { setoid_rewrite elem_of_cons. setoid_rewrite strip_direction_spec. naive_solver. }
    rewrite Hcons. destruct ps; [|naive_solver].
    destruct (strip_direction_suffix name) as [c|] eqn:Hs; [rewrite btree_insert_elem|]; naive_solver. }
  rewrite Hgen. set_solver.
Qed.

(** ** The bus the observer sees *)

Definition Received : Type := RpcHeader * Emitter * bytes.

Record PortCounts : Type := MkPortCounts {
  pc_publishers : Z;
  pc_subscribers : Z;
  pc_max_publishers : Z;
  pc_max_subscribers : Z;
  pc_subscriber_buffer : Z
}.

Class ObserverBus (W : Type) : Type := {
  (** The samples taken from the views, each with the index of its view. *)
  ow_taken : W → list (nat * Received);
  ow_now : W → Z * W;
  (** [Service::list], [DirectionView::open] and the receive of a view. *)
  ow_services : W → result (list (string * bool)) string * W;
  ow_open : W → string → Direction → bool * W;
  ow_receive : W → nat → result (option Received) string * W;
  ow_alive : W → (Z → bool) * W;
  (** The inventory of the machine, the counts of the ports of a view, the records
      its trace sink has dropped, and the processors of the host. *)
  ow_machine : W → Machine * W;
  ow_ports : W → nat → PortCounts;
  ow_dropped : W → Z;
  ow_cpu_count : W → Z;
  (** The idle wait: on a view, or the pause when there is none. *)
  ow_wait : W → option nat → W
}.

Class ObserverBusLaws (W : Type) `{ObserverBus W} : Prop := {
  now_keeps w : ow_taken (ow_now w).2 = ow_taken w;
  services_keeps w : ow_taken (ow_services w).2 = ow_taken w;
  open_keeps w channel d : ow_taken (ow_open w channel d).2 = ow_taken w;
  receive_takes w i :
    ow_taken (ow_receive w i).2 =
    ow_taken w ++ match (ow_receive w i).1 with Ok (Some x) => [(i, x)] | _ => [] end;
  alive_keeps w : ow_taken (ow_alive w).2 = ow_taken w;
  machine_keeps w : ow_taken (ow_machine w).2 = ow_taken w;
  wait_keeps w v : ow_taken (ow_wait w v) = ow_taken w
}.

(** ** The observer *)

Definition DRAIN_BUDGET : nat := 4096.
(** 50 ms, in nanoseconds. *)
Definition ATTACH_RETRY : Z := 50000000.

Definition ms (d : Z) : Z := d * 1000000.

Record View : Type := MkView { vi_channel : string; vi_direction : Direction; vi_detail : bool }.

Section observer.
Context {Addr W : Type} `{ObserverBus W} `{HashIter} (decode_rpc_error : bytes → option RpcError).

Record Observer : Type := MkObserver {
  ob_config : Config (Addr:=Addr);
  ob_monitor : Monitor;
  ob_views : list View;
  ob_known : list string;
  ob_discovery_errors : Z;
  ob_last_discover : Z;
  ob_last_attach : Z;
  ob_last_sweep : Z;
  ob_last_liveness : Z;
  ob_wait_cursor : nat;
  ob_health : option Scanner;
  (** What the registry exports beside the counters of the monitor. *)
  ob_inventory : Inventory;
  ob_world : W
}.

Definition set_world (w : W) (o : Observer) : Observer :=
  MkObserver (ob_config o) (ob_monitor o) (ob_views o) (ob_known o) (ob_discovery_errors o)
    (ob_last_discover o) (ob_last_attach o) (ob_last_sweep o) (ob_last_liveness o) (ob_wait_cursor o)
    (ob_health o) (ob_inventory o) w.

Definition set_monitor (m : Monitor) (o : Observer) : Observer :=
  MkObserver (ob_config o) m (ob_views o) (ob_known o) (ob_discovery_errors o)
    (ob_last_discover o) (ob_last_attach o) (ob_last_sweep o) (ob_last_liveness o) (ob_wait_cursor o)
    (ob_health o) (ob_inventory o) (ob_world o).

Definition set_views (views : list View) (o : Observer) : Observer :=
  MkObserver (ob_config o) (ob_monitor o) views (ob_known o) (ob_discovery_errors o)
    (ob_last_discover o) (ob_last_attach o) (ob_last_sweep o) (ob_last_liveness o) (ob_wait_cursor o)
    (ob_health o) (ob_inventory o) (ob_world o).

Definition set_known (known : list string) (errors : Z) (o : Observer) : Observer :=
  MkObserver (ob_config o) (ob_monitor o) (ob_views o) known errors
    (ob_last_discover o) (ob_last_attach o) (ob_last_sweep o) (ob_last_liveness o) (ob_wait_cursor o)
    (ob_health o) (ob_inventory o) (ob_world o).

Definition set_times (discover attach sweep liveness : Z) (o : Observer) : Observer :=
  MkObserver (ob_config o) (ob_monitor o) (ob_views o) (ob_known o) (ob_discovery_errors o)
    discover attach sweep liveness (ob_wait_cursor o)
    (ob_health o) (ob_inventory o) (ob_world o).

Definition set_cursor (cursor : nat) (o : Observer) : Observer :=
  MkObserver (ob_config o) (ob_monitor o) (ob_views o) (ob_known o) (ob_discovery_errors o)
    (ob_last_discover o) (ob_last_attach o) (ob_last_sweep o) (ob_last_liveness o) cursor
    (ob_health o) (ob_inventory o) (ob_world o).

Definition set_health_state (health : option Scanner) (inventory : Inventory) (o : Observer) : Observer :=
  MkObserver (ob_config o) (ob_monitor o) (ob_views o) (ob_known o) (ob_discovery_errors o)
    (ob_last_discover o) (ob_last_attach o) (ob_last_sweep o) (ob_last_liveness o) (ob_wait_cursor o)
    health inventory (ob_world o).

(** [Instant::now]. *)
Definition read_clock (o : Observer) : Z * Observer := let (now, w) := ow_now (ob_world o) in (now, set_world w o).

Definition observer_new (config : Config) (w : W) : Observer :=
  let (now, w') := ow_now w in
  MkObserver config
    (monitor_new (cf_decoders config) (Z.to_nat (cf_max_inflight config)) (ms (cf_call_ttl config))
       (cf_trace_sample_rate config))
    [] [] 0 now now now now 0
    (if cf_health_interval config =? 0 then None
     else Some (scanner_new (ow_cpu_count w') (ms (cf_health_interval config)) (cf_health_shm config)))
    inventory_new w'.

Definition refresh_channel_list (o : Observer) : Observer :=
  match cf_channels (ob_config o) with
  | [] =>
      match ow_services (ob_world o) with
      | (Ok services, w) => set_known (discover_channels services) (ob_discovery_errors o) (set_world w o)
      | (Err _, w) => set_known (ob_known o) (ob_discovery_errors o + 1) (set_world w o)
      end
  | channels => set_known channels (ob_discovery_errors o) o
  end.

Definition is_view (channel : string) (d : Direction) (v : View) : bool :=
  String.eqb (vi_channel v) channel && bool_decide (vi_direction v = d).

Definition open_if_missing (channel : string) (d : Direction) (o : Observer) : Observer :=
  if existsb (is_view channel d) (ob_views o) then o
  else
    let detail := detail_for (ob_config o) channel in
    match ow_open (ob_world o) channel d with
    | (true, w) => set_views (ob_views o ++ [MkView channel d detail]) (set_world w o)
    | (false, w) => set_world w o
    end.

Definition attach_known_channels (o : Observer) : Observer :=
  fold_left (λ o channel, open_if_missing channel DResponse (open_if_missing channel DRequest o)) (ob_known o) o.

(** What is kept of a sample: its payload in detail mode, its length otherwise. *)
Definition sample_of (v : View) (x : Received) : Sample :=
  if vi_detail v then Full x.2 else Meta (Z.of_nat (length x.2)).

(** The samples of a view, within the budget. *)
Fixpoint drain_view (budget : nat) (i : nat) (v : View) (o : Observer) : bool * Observer :=
  match budget with
  | O => (false, o)
  | S budget' =>
      match ow_receive (ob_world o) i with
      | (Ok (Some x), w) =>
          let (now, o1) := read_clock (set_world w o) in
          let m := process decode_rpc_error now (vi_channel v) (vi_direction v) x.1.1 x.1.2 (sample_of v x)
                     (ob_monitor o1) in
          let (_, o2) := drain_view budget' i v (set_monitor m o1) in (true, o2)
      | (_, w) => (false, set_world w o)
      end
  end.

Definition drain_one (st : bool * Observer) (iv : nat * View) : bool * Observer :=
  let (received, o) := drain_view DRAIN_BUDGET iv.1 iv.2 st.2 in (st.1 || received, o).

Definition drain_all (o : Observer) : bool * Observer :=
  fold_left drain_one (imap pair (ob_views o)) (false, o).

(** Work done at most once per interval. *)
Definition when_due (last interval : Z) (work : Z → Observer → Observer) (o : Observer) : Observer :=
  let (now, o1) := read_clock o in
  if interval <=? Z.max 0 (now - last) then let (now', o2) := read_clock o1 in work now' o2 else o1.

Definition due_discover (o : Observer) : Observer :=
  when_due (ob_last_discover o) (ms (cf_discover_interval (ob_config o)))
    (λ now o, refresh_channel_list
       (set_times now (ob_last_attach o) (ob_last_sweep o) (ob_last_liveness o) o)) o.

Definition due_attach (o : Observer) : Observer :=
  when_due (ob_last_attach o) ATTACH_RETRY
    (λ now o, attach_known_channels
       (set_times (ob_last_discover o) now (ob_last_sweep o) (ob_last_liveness o) o)) o.

Definition observer_sweep (o : Observer) : Observer :=
  let (now, o1) := read_clock o in set_monitor (monitor_sweep now (ob_monitor o1)) o1.

Definition due_sweep (o : Observer) : Observer :=
  when_due (ob_last_sweep o) (ms (cf_sweep_interval (ob_config o)))
    (λ now o, observer_sweep
       (set_times (ob_last_discover o) (ob_last_attach o) now (ob_last_liveness o) o)) o.

Definition observer_liveness (o : Observer) : Observer :=
  let (alive, w) := ow_alive (ob_world o) in
  set_monitor (check_liveness alive (ob_monitor o)) (set_world w o).

Definition due_liveness (o : Observer) : Observer :=
  when_due (ob_last_liveness o) (ms (cf_liveness_interval (ob_config o)))
    (λ now o, observer_liveness
       (set_times (ob_last_discover o) (ob_last_attach o) (ob_last_sweep o) now o)) o.

Definition observer_resolve (o : Observer) : Observer :=
  let (now, o1) := read_clock o in set_monitor (resolve_deferred decode_rpc_error now (ob_monitor o1)) o1.

Definition wait_idle (o : Observer) : Observer :=
  match ob_views o with
  | [] => set_world (ow_wait (ob_world o) None) o
  | views =>
      let cursor := (S (ob_wait_cursor o) mod length views)%nat in
      set_cursor cursor (set_world (ow_wait (ob_world o) (Some cursor)) o)
  end.

(** [channel_health]: the block of the known channels, from the views. *)
Definition direction_health (o : Observer) (channel : string) (d : Direction) : ChannelHealth :=
  match list_find (λ v, is_view channel d v = true) (ob_views o) with
  | Some (i, _) =>
      let c := ow_ports (ob_world o) i in
      MkChannelHealth channel (direction_label d) true (pc_publishers c) (pc_subscribers c)
        (pc_max_publishers c) (pc_max_subscribers c) (pc_subscriber_buffer c)
  | None => MkChannelHealth channel (direction_label d) false 0 0 0 0 0
  end.

Definition channel_health (o : Observer) : list ChannelHealth :=
  flat_map (λ channel, [direction_health o channel DRequest; direction_health o channel DResponse]) (ob_known o).

(** The inventory when a scan is due; the attachments on every pass. *)
Definition scan_if_due (o : Observer) : Observer :=
  match ob_health o with
  | None => o
  | Some scanner =>
      let (now, o1) := read_clock o in
      let (ma, w) := ow_machine (ob_world o1) in
      match refresh_if_due now ma scanner with
      | (true, s') => set_health_state (Some s') (set_health (sc_snapshot s') (ob_inventory o1)) (set_world w o1)
      | (false, s') => set_health_state (Some s') (ob_inventory o1) o1
      end
  end.

Definition refresh_health (o : Observer) : Observer :=
  let o1 := scan_if_due o in
  set_health_state (ob_health o1)
    (set_observer (ow_dropped (ob_world o1)) (ob_discovery_errors o1)
       (set_services (as_i64 (Z.of_nat (length (ob_known o1))))
          (set_channels (channel_health o1) (ob_inventory o1)))) o1.

(** One round of the [while] loop of [run]. *)
Definition observer_round (o : Observer) : Observer :=
  let (received, o1) := drain_all (refresh_health (due_attach (due_discover o))) in
  let o2 := due_liveness (due_sweep (observer_resolve o1)) in
  if received then o2 else wait_idle o2.

(** [run], for as many rounds as it is not cancelled. *)
Definition observer_run (rounds : nat) (config : Config) (w : W) : Observer :=
  Nat.iter rounds observer_round (attach_known_channels (refresh_channel_list (observer_new config w))).

(** ** The attachments that are exported *)

(** The entries of the block are those of the known channels. *)
Lemma channels_block (o : Observer) (known : list string) (m : gmap (string * string) ChannelSample) (channel : string) d :
  fold_left (λ m c, <[(ch_channel c, ch_direction c) := channel_sample c]> m)
    (flat_map (λ channel, [direction_health o channel DRequest; direction_health o channel DResponse]) known) m
    !! (channel, direction_label d) =
  if decide (channel ∈ known) then Some (channel_sample (direction_health o channel d))
  else m !! (channel, direction_label d).
Proof.
  assert (Hkey : ∀ c d', (ch_channel (direction_health o c d'), ch_direction (direction_health o c d')) =
    (c, direction_label d')).
  { intros c d'. unfold direction_health. by destruct (list_find _ _) as [[i v]|]. }
  revert m. induction known as [|c known IH]; intros m; [by rewrite decide_False by set_solver|].
  cbn [flat_map app fold_left]. rewrite IH, !Hkey, !lookup_insert.
  destruct (decide (channel ∈ known)); [by rewrite decide_True by set_solver|].
  destruct (decide (channel = c)) as [->|Hne].
  - rewrite (decide_True (P:=c ∈ c :: known)) by set_solver. destruct d; simpl; by repeat case_decide.
  - rewrite (decide_False (P:=channel ∈ c :: known)) by set_solver.
    rewrite !decide_False; [done|congruence..].
Qed.

(** Whatever the state, what a pass exports of the attachments is the truth of
    the observer at that pass, scan or no scan: exactly the known channels are
    listed, in both directions, and one is shown attached exactly when a view
    observes it. *)
Theorem attachments_exact o channel d :
  let o' := refresh_health o in
  let entry := iv_channels (ob_inventory o') !! (channel, direction_label d) in
  (is_Some entry ↔ channel ∈ ob_known o') ∧
  ∀ s, entry = Some s →
    (cs_attached s = 1 ↔ ∃ v, v ∈ ob_views o' ∧ vi_channel v = channel ∧ vi_direction v = d).
Proof.
  intros o' entry.
  assert (He : entry = if decide (channel ∈ ob_known o')
    then Some (channel_sample (direction_health o' channel d)) else None).
  { unfold entry, o', refresh_health, channel_health. cbn [ob_inventory set_health_state iv_channels set_observer
      set_services set_channels ob_known]. rewrite channels_block, lookup_empty. done. }
  rewrite He. split; [case_decide; split; naive_solver|].
  intros s Hs. case_decide; simplify_eq/=. unfold direction_health.
  assert (Hview : ∀ v, is_view channel d v = true ↔ vi_channel v = channel ∧ vi_direction v = d).
  { intros v. unfold is_view. rewrite andb_true_iff, String.eqb_eq, bool_decide_eq_true. done. }
  destruct (list_find _ (ob_views o')) as [[i v]|] eqn:Hf; simpl.
  - apply list_find_Some in Hf as (Hv & Hp & _). split; [|done]. intros _. exists v.
    split; [by eapply list_elem_of_lookup_2|by apply Hview].
  - apply list_find_None in Hf. split; [done|]. intros (v & Hv & Hp).
    rewrite Forall_forall in Hf. destruct (Hf v Hv). by apply Hview.
Qed.

(** ** The loop refines the steps of the monitor *)

Context `{!ObserverBusLaws W}.

(** The sample a step is about. *)
Definition step_sample (s : MonitorStep) : option (string * Direction * RpcHeader * Emitter * Sample) :=
  match s with
  | MSample _ channel d header emitter sample => Some (channel, d, header, emitter, sample)
  | _ => None
  end.

(** A sample taken from a view, as the monitor is told of it. *)
Definition told (views : list View) (ix : nat * Received) : option (string * Direction * RpcHeader * Emitter * Sample) :=
  v ← views !! ix.1; Some (vi_channel v, vi_direction v, ix.2.1.1, ix.2.1.2, sample_of v ix.2).

Record observed (m0 : Monitor) (o : Observer) : Prop := {
  obs_steps : ∃ steps, ob_monitor o = fold_left (monitor_step decode_rpc_error) steps m0 ∧
    map Some (omap step_sample steps) = map (told (ob_views o)) (ow_taken (ob_world o));
  obs_views : NoDup (map (λ v, (vi_channel v, vi_direction v)) (ob_views o))
}.

Lemma observed_frame m0 o o' :
  ob_monitor o' = ob_monitor o → ob_views o' = ob_views o → ow_taken (ob_world o') = ow_taken (ob_world o) →
  observed m0 o → observed m0 o'.
Proof. intros Hm Hv Ht [Hs Hn]. split; [by rewrite Hm, Hv, Ht|by rewrite Hv]. Qed.

(** A step of the monitor that is not a sample. *)
Lemma observed_step m0 s o o' :
  step_sample s = None →
  ob_monitor o' = monitor_step decode_rpc_error (ob_monitor o) s → ob_views o' = ob_views o →
  ow_taken (ob_world o') = ow_taken (ob_world o) → observed m0 o → observed m0 o'.
Proof.
  intros Hnone Hm Hv Ht [(steps & Hs & Hmap) Hn]. split; [|by rewrite Hv]. exists (steps ++ [s]).
  rewrite fold_left_app, omap_app, Hm, Hs, Hv, Ht. split; [done|]. simpl. by rewrite Hnone, app_nil_r.
Qed.

Lemma told_grows views more l outs :
  map Some outs = map (told views) l → map Some outs = map (told (views ++ more)) l.
Proof.
  revert outs. induction l as [|[i x] l IH]; intros [|y outs] E; simplify_eq/=; [done|].
  f_equal; [|by apply IH]. unfold told in *. simpl in *.
  destruct (views !! i) as [v|] eqn:Hv; [|done]. by rewrite (lookup_app_l_Some _ _ _ _ Hv).
Qed.

Lemma clock_keeps m0 o : observed m0 o → observed m0 (read_clock o).2.
Proof.
  unfold read_clock. intros Ho. pose proof (now_keeps (ob_world o)) as Hk.
  destruct (ow_now (ob_world o)) as [now w]. by eapply observed_frame; [..|exact Ho].
Qed.

Lemma set_known_keeps m0 known errors o : observed m0 o → observed m0 (set_known known errors o).
Proof. intros Ho. by eapply observed_frame; [..|exact Ho]. Qed.

Lemma refresh_keeps m0 o : observed m0 o → observed m0 (refresh_channel_list o).
Proof.
  intros Ho. unfold refresh_channel_list. destruct (cf_channels (ob_config o)); [|by apply set_known_keeps].
  pose proof (services_keeps (ob_world o)) as Hk. destruct (ow_services (ob_world o)) as [[services|e] w];
    by eapply observed_frame; [..|exact Ho].
Qed.

Lemma open_keeps_observed m0 channel d o : observed m0 o → observed m0 (open_if_missing channel d o).
Proof.
  intros Ho. unfold open_if_missing. destruct (existsb _ _) eqn:Hex; [done|].
  pose proof (open_keeps (ob_world o) channel d) as Hk.
  destruct (ow_open (ob_world o) channel d) as [[] w]; [|by eapply observed_frame; [..|exact Ho]].
  destruct Ho as [(steps & Hs & Hmap) Hn]. split; simpl in *.
  - exists steps. split; [done|]. rewrite Hk. by apply told_grows.
  - rewrite map_app. apply NoDup_app. split_and!; [done| |apply NoDup_singleton].
    intros [c d'] Hin [= -> ->]%list_elem_of_singleton.
    apply list_elem_of_In, in_map_iff in Hin as (v & [= Hc Hd] & Hv).
    assert (Ht : existsb (is_view channel d) (ob_views o) = true); [|congruence].
    apply existsb_exists. exists v. split; [done|]. unfold is_view.
    by rewrite Hc, Hd, String.eqb_refl, bool_decide_eq_true_2.
Qed.

Lemma attach_keeps m0 o : observed m0 o → observed m0 (attach_known_channels o).
Proof.
  unfold attach_known_channels. generalize (ob_known o) as known. intros known. revert o.
  induction known as [|channel known IH]; intros o Ho; [done|]. simpl. apply IH.
  by apply open_keeps_observed, open_keeps_observed.
Qed.

Lemma drain_view_keeps m0 budget i v o :
  ob_views o !! i = Some v → observed m0 o →
  observed m0 (drain_view budget i v o).2 ∧ ob_views (drain_view budget i v o).2 = ob_views o.
Proof.
  revert o. induction budget as [|budget IH]; intros o Hv Ho; [done|]. simpl.
  pose proof (receive_takes (ob_world o) i) as Ht.
  destruct (ow_receive (ob_world o) i) as [[[x|]|e] w]; simpl in Ht; rewrite ?app_nil_r in Ht;
    [|by split; [eapply observed_frame; [..|exact Ho]|]..].
  unfold read_clock. simpl. pose proof (now_keeps w) as Hk. destruct (ow_now w) as [now w']. simpl in *.
  match goal with |- context [drain_view budget i v ?o1] => assert (Ho1 : observed m0 o1 ∧ ob_views o1 = ob_views o) end.
  { split; [|done]. destruct Ho as [(steps & Hs & Hmap) Hn]. split; [|done].
    exists (steps ++ [MSample now (vi_channel v) (vi_direction v) x.1.1 x.1.2 (sample_of v x)]). simpl.
    rewrite fold_left_app, omap_app, map_app, Hmap, Hk, Ht, map_app, Hs. split; [done|]. simpl. f_equal.
    unfold told. simpl. by rewrite Hv. }
  destruct Ho1 as [Ho1 Hv1]. destruct (IH _ (eq_trans (f_equal (λ vs, vs !! i) Hv1) Hv) Ho1) as [IH1 IH2].
  destruct (drain_view budget i v _) as [b o2]. simpl in *. split; [done|congruence].
Qed.

Lemma drain_all_keeps m0 o : observed m0 o → observed m0 (drain_all o).2.
Proof.
  unfold drain_all. intros Ho.
  assert (Hall : ∀ ivs st, Forall (λ iv, ob_views st.2 !! iv.1 = Some iv.2) ivs → observed m0 st.2 →
    observed m0 (fold_left drain_one ivs st).2).
  { induction ivs as [|[i v] ivs IH]; intros [b o1] Hivs Ho1; [done|]. apply Forall_cons in Hivs as [Hv Hivs].
    cbn [fold_left]. destruct (drain_view_keeps m0 DRAIN_BUDGET i v o1 Hv Ho1) as [H1 H2].
    assert (Hone : (drain_one (b, o1) (i, v)).2 = (drain_view DRAIN_BUDGET i v o1).2)
      by (unfold drain_one; cbn [fst snd]; by destruct (drain_view DRAIN_BUDGET i v o1)).
    apply IH; rewrite Hone; [by rewrite H2|done]. }
  apply Hall; [|done]. apply Forall_lookup. intros k [i v] Hk.
  rewrite list_lookup_imap in Hk. destruct (ob_views o !! k) eqn:E; simplify_eq/=. done.
Qed.

Lemma when_due_keeps m0 last interval work o :
  (∀ now o, observed m0 o → observed m0 (work now o)) → observed m0 o → observed m0 (when_due last interval work o).
Proof.
  intros Hw Ho. unfold when_due. pose proof (clock_keeps m0 o Ho) as H1. destruct (read_clock o) as [now o1].
  destruct (interval <=? _); [|done]. pose proof (clock_keeps m0 o1 H1) as H2. destruct (read_clock o1) as [now' o2].
  by apply Hw.
Qed.

Lemma set_times_keeps m0 a b c d o : observed m0 o → observed m0 (set_times a b c d o).
Proof. intros Ho. by eapply observed_frame; [..|exact Ho]. Qed.

Lemma resolve_keeps m0 o : observed m0 o → observed m0 (observer_resolve o).
Proof.
  intros Ho. unfold observer_resolve. pose proof (clock_keeps m0 o Ho) as H1. destruct (read_clock o) as [now o1].
  by eapply (observed_step _ (MResolve now)); [..|exact H1].
Qed.

Lemma sweep_keeps m0 o : observed m0 o → observed m0 (observer_sweep o).
Proof.
  intros Ho. unfold observer_sweep. pose proof (clock_keeps m0 o Ho) as H1. destruct (read_clock o) as [now o1].
  by eapply (observed_step _ (MSweep now)); [..|exact H1].
Qed.

Lemma liveness_keeps m0 o : observed m0 o → observed m0 (observer_liveness o).
Proof.
  intros Ho. unfold observer_liveness. pose proof (alive_keeps (ob_world o)) as Hk.
  destruct (ow_alive (ob_world o)) as [alive w]. by eapply (observed_step _ (MLiveness alive)); [..|exact Ho].
Qed.

Lemma wait_keeps_observed m0 o : observed m0 o → observed m0 (wait_idle o).
Proof.
  intros Ho. unfold wait_idle. destruct (ob_views o) as [|v views] eqn:Hv;
    (eapply observed_frame; [..|exact Ho]; [done|done|apply wait_keeps]).
Qed.

Lemma health_keeps m0 o : observed m0 o → observed m0 (refresh_health o).
Proof.
  intros Ho. assert (Hs : observed m0 (scan_if_due o)); [|by eapply observed_frame; [..|exact Hs]].
  unfold scan_if_due. destruct (ob_health o) as [scanner|]; [|done].
  pose proof (clock_keeps m0 o Ho) as H1. destruct (read_clock o) as [now o1]. simpl in H1.
  pose proof (machine_keeps (ob_world o1)) as Hk. destruct (ow_machine (ob_world o1)) as [ma w].
  destruct (refresh_if_due now ma scanner) as [[] s']; by eapply observed_frame; [..|exact H1].
Qed.

Lemma round_keeps m0 o : observed m0 o → observed m0 (observer_round o).
Proof.
  intros Ho. unfold observer_round.
  assert (H1 : observed m0 (refresh_health (due_attach (due_discover o)))).
  { apply health_keeps, when_due_keeps; [intros; by apply attach_keeps, set_times_keeps|].
    apply when_due_keeps; [intros; by apply refresh_keeps, set_times_keeps|done]. }
  pose proof (drain_all_keeps m0 _ H1) as H2. destruct (drain_all _) as [received o1]. simpl in H2.
  assert (H3 : observed m0 (due_liveness (due_sweep (observer_resolve o1)))).
  { apply when_due_keeps; [intros; by apply liveness_keeps, set_times_keeps|].
    apply when_due_keeps; [intros; by apply sweep_keeps, set_times_keeps|]. by apply resolve_keeps. }
  destruct received; [done|by apply wait_keeps_observed].
Qed.

(** C24. The acquisition loop implements the abstract monitor: after any number of
    rounds, whatever the bus and the clock answer, the state is the one that the
    steps of the monitor reach, and the samples among those steps are exactly the
    samples taken from the ports, each told once, in the order they were taken,
    with the channel, the direction and the capture mode of its view; no
    direction of a channel is attached twice. *)
Theorem run_refines_monitor rounds config w :
  ow_taken w = [] →
  let o := observer_run rounds config w in
  let m0 := monitor_new (cf_decoders config) (Z.to_nat (cf_max_inflight config)) (ms (cf_call_ttl config))
              (cf_trace_sample_rate config) in
  (∃ steps, ob_monitor o = fold_left (monitor_step decode_rpc_error) steps m0 ∧
    map Some (omap step_sample steps) = map (told (ob_views o)) (ow_taken (ob_world o))) ∧
  NoDup (map (λ v, (vi_channel v, vi_direction v)) (ob_views o)).
Proof.
  intros Hw o m0. assert (Ho : observed m0 o); [|by destruct Ho].
  unfold o, observer_run. clear o. induction rounds as [|n IH]; [|by apply round_keeps].
  cbn [Nat.iter]. apply attach_keeps, refresh_keeps. unfold observer_new. pose proof (now_keeps w) as Hk.
  destruct (ow_now w) as [now w']. split; simpl in *; [|constructor]. exists []. by rewrite Hk, Hw.
Qed.
End observer.

(** ** A bus for the examples: queues that are emptied, a clock that ticks *)

Record SimWorld : Type := MkSimWorld { sw_clock : Z; sw_queues : list (list Received); sw_taken : list (nat * Received) }.

#[export] Instance SimObserverBus : ObserverBus SimWorld := {
  ow_taken := sw_taken;
  ow_now w := (sw_clock w + 1000000, MkSimWorld (sw_clock w + 1000000) (sw_queues w) (sw_taken w));
  ow_services w := (Ok [("app_req", true); ("app_req_notify", false); ("app_resp", true)]%string, w);
  ow_open w _ _ := (true, w);
  ow_receive w i :=
    match sw_queues w !! i with
    | Some (x :: q) => (Ok (Some x), MkSimWorld (sw_clock w) (<[i := q]> (sw_queues w)) (sw_taken w ++ [(i, x)]))
    | _ => (Ok None, w)
    end;
  ow_alive w := (λ _, true, w);
  ow_machine w := (MkMachine None (MkLayout "iox2_" ".data") [], w);
  ow_ports w _ := MkPortCounts 1 1 2 8 16;
  ow_dropped w := 0;
  ow_cpu_count w := 4;
  ow_wait w _ := MkSimWorld (sw_clock w + 5000000) (sw_queues w) (sw_taken w)
}.

#[export] Instance SimObserverBus_laws : ObserverBusLaws SimWorld.
Proof.
  split; intros; try done. simpl. destruct (sw_queues w !! i) as [[|x q]|]; simpl; by rewrite ?app_nil_r.
Qed.

Definition example_config : Config (Addr:=()) :=
  MkConfig None [] Stats ["app"]%string 2000 5000 60000 100 0 None FJson ∅ 0 false false false 1000.

(** A call whose request waits on the first view and whose answer on the second. *)
Definition example_world : SimWorld :=
  MkSimWorld 0 [[(example_header 1 KRequest 400, example_emitter, [1; 2])];
                [(example_header 1 KComplete 900, example_emitter, [3])]] [].

Lemma run_refines_monitor_witness :
  let o := observer_run no_error 2 example_config example_world in
  NoDup (map (λ v, (vi_channel v, vi_direction v)) (ob_views o)) ∧ length (ow_taken (ob_world o)) = 2%nat.
Proof.
  intros o. split; [apply (run_refines_monitor no_error 2 example_config example_world); done|by vm_compute].
Defined.
