(* ===== verification/Traces.v ===== *)
(** * The traces and the inventory of the observer ([ice-rpc-monitor/src/traces.rs], [health.rs])

    A sink hands its records to a writer thread through a bounded queue; the
    inventory is scanned at most once per interval, and a failed scan keeps what
    the previous one found. *)

From S2P Require Import Prelude MachineInt Text Collector Parse Json Config.

Local Open Scope Z_scope.

(** ** Records *)

Definition str_opt (o : option string) : Value := match o with Some s => VString s | None => VNull end.

Definition num (z : Z) : Value := VNumber (NPosInt z).

Definition to_human (r : TraceRecord) : string :=
  ("[msg] cid=" +:+ tr_call_id r +:+ " channel=" +:+ tr_channel r +:+ " service=" +:+ pretty (tr_service_id r)
   +:+ " method=" +:+ tr_method r +:+ " kind=" +:+ tr_event_kind r +:+ " latency_us=" +:+ pretty (tr_latency_us r)
   +:+ " request_bytes=" +:+ pretty (tr_request_bytes r) +:+ " response_bytes=" +:+ pretty (tr_response_bytes r)
   +:+ " emitter_pid=" +:+ pretty (tr_emitter_pid r)
   +:+ match tr_trace_id r with
       | Some id => " trace=" +:+ id +:+ " parent_span=" +:+ pretty (tr_parent_span_id r)
       | None => ""
       end
   +:+ match tr_request_text r with Some text => " request=" +:+ text | None => "" end
   +:+ match tr_response_text r with Some text => " response=" +:+ text | None => "" end)%string.

(** The object before it is printed; the fields of a map are in order. *)
Definition to_json (r : TraceRecord) : Value :=
  VObject ([("call_id", VString (tr_call_id r)); ("channel", VString (tr_channel r));
            ("emitter_pid", num (tr_emitter_pid r)); ("event_kind", VString (tr_event_kind r));
            ("latency_us", num (tr_latency_us r)); ("method", VString (tr_method r));
            ("parent_span_id", num (tr_parent_span_id r))] ++
           match tr_request_text r with Some text => [("request", VString text)] | None => [] end ++
           [("request_bytes", num (tr_request_bytes r))] ++
           match tr_response_text r with Some text => [("response", VString text)] | None => [] end ++
           [("response_bytes", num (tr_response_bytes r)); ("service_id", num (tr_service_id r));
            ("trace_id", str_opt (tr_trace_id r))]).

(** ** The sink *)

Definition RECENT_KEEP : nat := 10.
Definition TRACE_QUEUE : nat := 16384.

Section sink.
(** [Value::to_string]. *)
Context (json_text : Value → string).

Definition render (format : TraceFormat) (r : TraceRecord) : string :=
  match format with FJson => json_text (to_json r) | FHuman => to_human r end.

(** [L] is what the writer thread writes into. *)
Context {L : Type} (on_line : string → L → L).

Record TraceSink : Type := MkTraceSink {
  ts_sender : bool;
  ts_queue : list string;
  ts_capacity : nat;
  ts_dropped : Z;
  ts_format : TraceFormat;
  ts_output : L
}.

Definition sink_spawn (capacity : nat) (format : TraceFormat) (output : L) : TraceSink :=
  MkTraceSink true [] capacity 0 format output.

(** [emit]: a full queue, or a closed one, drops the record and counts it. *)
Definition sink_emit (r : TraceRecord) (s : TraceSink) : TraceSink :=
  if ts_sender s && (length (ts_queue s) <? ts_capacity s)%nat then
    MkTraceSink (ts_sender s) (ts_queue s ++ [render (ts_format s) r]) (ts_capacity s) (ts_dropped s)
      (ts_format s) (ts_output s)
  else
    MkTraceSink (ts_sender s) (ts_queue s) (ts_capacity s) (wrap 64 (ts_dropped s + 1)) (ts_format s) (ts_output s).

(** The writer thread takes a line. *)
Definition sink_write (s : TraceSink) : TraceSink :=
  match ts_queue s with
  | line :: queue => MkTraceSink (ts_sender s) queue (ts_capacity s) (ts_dropped s) (ts_format s) (on_line line (ts_output s))
  | [] => s
  end.

(** [Drop]: the channel is closed, and the writer is waited for: it empties the
    queue and returns. *)
Definition sink_drop (s : TraceSink) : TraceSink :=
  MkTraceSink false [] (ts_capacity s) (ts_dropped s) (ts_format s)
    (fold_left (λ out line, on_line line out) (ts_queue s) (ts_output s)).

Inductive SinkStep : Type := SEmit (r : TraceRecord) | SWrite | SDrop.

Definition sink_step (s : TraceSink) (e : SinkStep) : TraceSink :=
  match e with SEmit r => sink_emit r s | SWrite => sink_write s | SDrop => sink_drop s end.

Definition emitted (steps : list SinkStep) : list TraceRecord :=
  omap (λ e, match e with SEmit r => Some r | _ => None end) steps.

(** The lines accepted so far: in part written, in part waiting. *)
Lemma sink_accounts_from format out0 steps : ∀ s accepted written,
  ts_format s = format → ts_output s = fold_left (λ out line, on_line line out) written out0 →
  accepted = written ++ ts_queue s → (length (ts_queue s) ≤ ts_capacity s)%nat →
  ∃ more written',
    let s' := fold_left sink_step steps s in
    sublist more (map (render format) (emitted steps)) ∧
    ts_output s' = fold_left (λ out line, on_line line out) written' out0 ∧
    accepted ++ more = written' ++ ts_queue s' ∧
    wrap 64 (ts_dropped s') = wrap 64 (ts_dropped s + (Z.of_nat (length (emitted steps)) - Z.of_nat (length more))) ∧
    (length (ts_queue s') ≤ ts_capacity s)%nat.
Proof.
  induction steps as [|e steps IH]; intros s accepted written Hf Hout Hacc Hcap.
  { exists [], written. simpl. rewrite app_nil_r. split_and!; try done. f_equal. lia. }
  destruct e as [r| |]; cbn [fold_left sink_step].
  - unfold sink_emit. destruct (ts_sender s && (length (ts_queue s) <? ts_capacity s)%nat) eqn:Hroom.
    + apply andb_true_iff in Hroom as [_ Hlt%Nat.ltb_lt].
      destruct (IH (MkTraceSink (ts_sender s) (ts_queue s ++ [render (ts_format s) r]) (ts_capacity s) (ts_dropped s)
        (ts_format s) (ts_output s)) (accepted ++ [render format r]) written) as (more & w' & Hsub & Ho & Ha & Hd & Hc);
        [exact Hf|exact Hout|simpl; by rewrite Hacc, Hf, app_assoc|simpl; rewrite length_app; simpl; lia|].
      exists (render format r :: more), w'. simpl in *. rewrite <- app_assoc in Ha.
      split_and!; [by constructor|done|done| |done]. rewrite Hd. f_equal. lia.
    + destruct (IH (MkTraceSink (ts_sender s) (ts_queue s) (ts_capacity s) (wrap 64 (ts_dropped s + 1)) (ts_format s)
        (ts_output s)) accepted written) as (more & w' & Hsub & Ho & Ha & Hd & Hc);
        [exact Hf|exact Hout|exact Hacc|exact Hcap|].
      exists more, w'. simpl in *. split_and!; [by constructor|done|done| |done]. rewrite Hd.
      unfold wrap. rewrite Z.add_mod_idemp_l by done. f_equal. lia.
  - unfold sink_write. destruct (ts_queue s) as [|line queue] eqn:Hq.
    + apply (IH s accepted written); by rewrite ?Hq.
    + destruct (IH (MkTraceSink (ts_sender s) queue (ts_capacity s) (ts_dropped s) (ts_format s)
        (on_line line (ts_output s))) accepted (written ++ [line])) as (more & w' & Hrest);
        [exact Hf|simpl; by rewrite Hout, fold_left_app|simpl; by rewrite Hacc, <- app_assoc|simpl in *; lia|].
      by exists more, w'.
  - destruct (IH (sink_drop s) accepted (written ++ ts_queue s)) as (more & w' & Hrest);
      [exact Hf|simpl; by rewrite Hout, fold_left_app|simpl; by rewrite Hacc, app_nil_r|simpl; lia|].
    by exists more, w'.
Qed.
End sink.

(** ** The memory of recent lines *)

Definition recent_line (line : string) (recent : list string) : list string :=
  (if (RECENT_KEEP <=? length recent)%nat then tail recent else recent) ++ [line].

Definition last_lines (n : nat) (l : list string) : list string := drop (length l - n) l.

Lemma recent_lines lines : fold_left (λ out line, recent_line line out) lines [] = last_lines RECENT_KEEP lines.
Proof.
  induction lines as [|line lines IH] using rev_ind; [done|].
  rewrite fold_left_app, IH. cbn [fold_left]. unfold recent_line, last_lines. rewrite length_drop, length_app. cbn [length].
  destruct (Nat.leb_spec RECENT_KEEP (length lines - (length lines - RECENT_KEEP))) as [Hle|Hlt].
  - unfold RECENT_KEEP in *. rewrite drop_app_le by lia.
    assert (Htail : ∀ l : list string, tail l = drop 1 l) by (by intros [|x l]).
    rewrite Htail, drop_drop. do 2 f_equal. lia.
  - unfold RECENT_KEEP in *. replace (length lines - 10)%nat with 0%nat by lia.
    replace (length lines + 1 - 10)%nat with 0%nat by lia. done.
Qed.

(** Tracing never blocks the observer and never lies about it: whatever the
    order in which records are emitted, lines written and the sink closed, the
    lines written and those waiting are records that were emitted, in order and
    without repetition; the others are counted as dropped; the queue stays within
    its capacity; the live view shows the last ten lines written; and when the
    sink has been closed nothing that was accepted is left unwritten. *)
Theorem trace_sink_accounts (json_text : Value → string) capacity format steps :
  let s := fold_left (sink_step json_text recent_line) steps (sink_spawn capacity format []) in
  ∃ written, sublist (written ++ ts_queue s) (map (render json_text format) (emitted steps)) ∧
    ts_output s = last_lines RECENT_KEEP written ∧
    wrap 64 (ts_dropped s) = wrap 64 (Z.of_nat (length (emitted steps)) - Z.of_nat (length (written ++ ts_queue s))) ∧
    (length (ts_queue s) ≤ capacity)%nat ∧
    (last steps = Some SDrop → ts_queue s = []).
Proof.
  intros s. destruct (sink_accounts_from json_text recent_line format [] steps (sink_spawn capacity format []) [] [])
    as (more & written & Hsub & Ho & Ha & Hd & Hc); [done|done|done|simpl; lia|]. simpl in Ha. fold s in Ho, Ha, Hd, Hc.
  exists written. rewrite <- Ha. split_and!; [done|by rewrite <- recent_lines| |done|].
  - rewrite Hd. simpl. f_equal.
  - intros [front Hfront]%last_Some. unfold s. rewrite Hfront, fold_left_app. done.
Qed.
