(* ===== verification/Gateway.v ===== *)
(** * The Node.js gateway ([ice-rpc-nodejs/src/])

    The bridge between the JSON handlers and a JavaScript dispatcher: the table
    of the calls that JavaScript has not closed, the envelopes it answers with,
    the calls it makes, and the phases of the gateway.  The streams of the calls
    are channels of a store, named by an index; the JavaScript engine (napi) is
    what calls these functions. *)

From S2P Require Import Prelude MachineInt Text Event Header Wire Parse Json.

Local Open Scope Z_scope.

(** ** Failures ([error.rs]) *)

Inductive GatewayErrorCode : Type :=
| GatewayState | UnknownService | UnknownMethod | InvalidArgs | NoProvider | Transport | Timeout | OneWay
| BusinessFailure | Callback | PendingLimit | DuplicateCid | InvalidCid | UnknownCid.

Definition code_str (c : GatewayErrorCode) : string :=
  match c with
  | GatewayState => "E_GATEWAY_STATE"
  | UnknownService => "E_UNKNOWN_SERVICE"
  | UnknownMethod => "E_UNKNOWN_METHOD"
  | InvalidArgs => "E_INVALID_ARGS"
  | NoProvider => "E_NO_PROVIDER"
  | Transport => "E_TRANSPORT"
  | Timeout => "E_TIMEOUT"
  | OneWay => "E_ONE_WAY"
  | BusinessFailure => "E_BUSINESS"
  | Callback => "E_CALLBACK"
  | PendingLimit => "E_PENDING_LIMIT"
  | DuplicateCid => "E_DUPLICATE_CID"
  | InvalidCid => "E_INVALID_CID"
  | UnknownCid => "E_UNKNOWN_CID"
  end.

Record GatewayError : Type := MkGatewayError { ge_code : GatewayErrorCode; ge_message : string }.

Definition rendered (e : GatewayError) : string := (code_str (ge_code e) +:+ ": " +:+ ge_message e)%string.

(** ** Envelopes ([bridge.rs]) *)

Definition REMOVED_ENVELOPE : string :=
  "the `{ type, data }` envelope was removed: use `{ data }` or `{ error }` (resolveNodejsCall), and `emitNodejsEvent(correlationId, { data })`".

Definition invalid_envelope (message : string) : GatewayError := MkGatewayError InvalidArgs message.

Definition next_envelope (event : Value) : result Value GatewayError :=
  match event with
  | VObject object =>
      match field_get "type" object with
      | Some _ => Err (invalid_envelope REMOVED_ENVELOPE)
      | None =>
          match field_get "data" object with
          | Some data => Ok (VObject [("data", data); ("type", VString "next")]%string)
          | None => Err (invalid_envelope "emitNodejsEvent expects `{ data }`: the key is missing")
          end
      end
  | _ => Err (invalid_envelope "emitNodejsEvent expects `{ data }`")
  end.

Definition terminal_envelope (event : Value) : result Value GatewayError :=
  match event with
  | VObject object =>
      match field_get "type" object with
      | Some _ => Err (invalid_envelope REMOVED_ENVELOPE)
      | None =>
          match field_get "data" object with
          | Some data => Ok (VObject [("data", data); ("type", VString "complete")]%string)
          | None =>
              match field_get "error" object with
              | Some error => Ok (VObject [("data", error); ("type", VString "error")]%string)
              | None => Ok (VObject [("type", VString "complete")]%string)
              end
          end
      end
  | VNull => Ok (VObject [("type", VString "complete")]%string)
  | _ => Err (invalid_envelope "resolveNodejsCall expects `{ data }`, `{ error }` or `{}`")
  end.

(** ** The open calls *)

Definition MAX_PENDING_CALLS : nat := 4096.

Definition parse_cid (text : string) : result bytes GatewayError :=
  match parse_correlation_id text with
  | Ret (Some cid) => Ok cid
  | _ => Err (MkGatewayError InvalidCid ("'" +:+ text +:+ "' is not a hexadecimal correlation id"))
  end.

Definition unknown_cid (text : string) : GatewayError :=
  MkGatewayError UnknownCid ("no pending call for '" +:+ text +:+ "' (expired or already answered)").

Inductive Phase : Type := Idle | Configured | Running.

#[export] Instance Phase_eq_dec : EqDecision Phase.
Proof. solve_decision. Defined.

Section gateway.
Context {C : Type → Type} `{AsyncChannel C}.

(** The gateway: its phase, the table of the running bridge, whether the guard is
    held, the streams handed to the handlers, the services registered, and the
    tokens of the process, which nothing resets. *)
Record NodeGateway : Type := MkNodeGateway {
  ng_phase : Phase;
  ng_bridge : option (gmap bytes nat);
  ng_guard : bool;
  ng_channels : list (C Value);
  ng_registered : list string;
  ng_cancelled : bool
}.

Definition gateway_new : NodeGateway := MkNodeGateway Idle None false [] [] false.

Definition set_bridge (b : option (gmap bytes nat)) (channels : list (C Value)) (g : NodeGateway) : NodeGateway :=
  MkNodeGateway (ng_phase g) b (ng_guard g) channels (ng_registered g) (ng_cancelled g).

Definition not_initialized : GatewayError :=
  MkGatewayError GatewayState "the gateway is not initialized; call init() first".

Definition bridge (g : NodeGateway) : result (gmap bytes nat) GatewayError :=
  match ng_bridge g with Some p => Ok p | None => Err not_initialized end.

(** [PendingCalls::insert]. *)
Definition pending_insert (cid : bytes) (sender : nat) (entries : gmap bytes nat)
    : result (gmap bytes nat) GatewayError :=
  if (MAX_PENDING_CALLS <=? size entries)%nat then
    Err (MkGatewayError PendingLimit (pretty MAX_PENDING_CALLS +:+ " calls already await a JavaScript answer"))
  else
    match entries !! cid with
    | Some _ => Err (MkGatewayError DuplicateCid
        ("correlation id '" +:+ fmt_correlation_id cid +:+ "' is already in flight"))
    | None => Ok (<[cid := sender]> entries)
    end.

(** [start_call]: [status] is the answer of the JavaScript engine.  The stream is
    the channel of the call. *)
Definition start_call (status : option string) (cid : bytes) (entries : gmap bytes nat) (g : NodeGateway)
    : result nat GatewayError * NodeGateway :=
  let stream := length (ng_channels g) in
  match pending_insert cid stream entries with
  | Err e => (Err e, g)
  | Ok entries' =>
      match status with
      | Some failure =>
          (Err (MkGatewayError Callback ("the JS dispatcher is not reachable (" +:+ failure +:+ ")")),
           set_bridge (Some (delete cid entries')) (ng_channels g ++ [ch_close ch_unbounded]) g)
      | None => (Ok stream, set_bridge (Some entries') (ng_channels g ++ [ch_unbounded]) g)
      end
  end.

(** [GatewayJsonDispatcher::dispatch_json]. *)
Definition gateway_dispatch_json (status : option string) (cid : bytes) (g : NodeGateway)
    : result nat string * NodeGateway :=
  match bridge g with
  | Err e => (Err (rendered e), g)
  | Ok entries =>
      match start_call status cid entries g with
      | (Ok stream, g') => (Ok stream, g')
      | (Err e, g') => (Err (rendered e), g')
      end
  end.

Definition push (j : nat) (v : Value) (channels : list (C Value)) : result () (TrySendError Value) * list (C Value) :=
  match channels !! j with
  | Some c => let (r, c') := ch_try_send c v in (r, <[j := c']> channels)
  | None => (Err (Closed v), channels)
  end.

Definition emit_event (text : string) (event : Value) (entries : gmap bytes nat) (g : NodeGateway)
    : result () GatewayError * NodeGateway :=
  match parse_cid text with
  | Err e => (Err e, g)
  | Ok cid =>
      match next_envelope event with
      | Err e => (Err e, g)
      | Ok envelope =>
          match entries !! cid with
          | None => (Err (unknown_cid text), g)
          | Some j =>
              let (r, channels) := push j envelope (ng_channels g) in
              (match r with
               | Ok _ => Ok ()
               | Err _ => Err (MkGatewayError Callback "the call was closed while pushing an event")
               end, set_bridge (Some entries) channels g)
          end
      end
  end.

(** The sender is dropped with the call: the channel is closed. *)
Definition resolve (text : string) (event : Value) (entries : gmap bytes nat) (g : NodeGateway)
    : result () GatewayError * NodeGateway :=
  match parse_cid text with
  | Err e => (Err e, g)
  | Ok cid =>
      match terminal_envelope event with
      | Err e => (Err e, g)
      | Ok envelope =>
          match entries !! cid with
          | None => (Err (unknown_cid text), g)
          | Some j =>
              (Ok (), set_bridge (Some (delete cid entries))
                        (alter ch_close j (push j envelope (ng_channels g)).2) g)
          end
      end
  end.

Definition emit_nodejs_event (text : string) (event : Value) (g : NodeGateway) : result () GatewayError * NodeGateway :=
  match bridge g with Err e => (Err e, g) | Ok entries => emit_event text event entries g end.

Definition resolve_nodejs_call (text : string) (event : Value) (g : NodeGateway) : result () GatewayError * NodeGateway :=
  match bridge g with Err e => (Err e, g) | Ok entries => resolve text event entries g end.

(** ** The phases ([state.rs], [services.rs], [napi_api.rs]) *)

Definition set_phase (ph : Phase) (g : NodeGateway) : NodeGateway :=
  MkNodeGateway ph (ng_bridge g) (ng_guard g) (ng_channels g) (ng_registered g) (ng_cancelled g).

Definition before_init : GatewayError := MkGatewayError GatewayState "registerService() must be called before init()".

Definition mark_configured (g : NodeGateway) : result () GatewayError * NodeGateway :=
  if decide (ng_phase g = Running) then (Err before_init, g) else (Ok (), set_phase Configured g).

Definition begin_start (g : NodeGateway) : result () GatewayError * NodeGateway :=
  if decide (ng_phase g = Running) then
    (Err (MkGatewayError GatewayState
       "init() has already been called; call shutdown() before initializing again"), g)
  else (Ok (), set_phase Running g).

(** The old guard, if any, is dropped, which cancels the tokens; the old bridge
    drops its senders. *)
Definition close_all (entries : gmap bytes nat) (channels : list (C Value)) : list (C Value) :=
  map_fold (λ _ j cs, alter ch_close j cs) channels entries.

Definition complete_start (g : NodeGateway) : NodeGateway :=
  MkNodeGateway (ng_phase g) (Some ∅) true
    (match ng_bridge g with Some entries => close_all entries (ng_channels g) | None => ng_channels g end)
    (ng_registered g) (ng_cancelled g || ng_guard g).

Definition stop (g : NodeGateway) : bool * NodeGateway :=
  (ng_guard g,
   MkNodeGateway Idle None false
     (match ng_bridge g with Some entries => close_all entries (ng_channels g) | None => ng_channels g end)
     (ng_registered g) (ng_cancelled g)).

(** [init_impl]. *)
Definition init (g : NodeGateway) : result () GatewayError * NodeGateway :=
  match begin_start g with
  | (Err e, g') => (Err e, g')
  | (Ok _, g') => (Ok (), complete_start g')
  end.

(** [ShutdownTask::compute]: the tokens are cancelled by the release. *)
Definition gateway_shutdown (g : NodeGateway) : NodeGateway :=
  let (_, g') := stop g in
  MkNodeGateway (ng_phase g') (ng_bridge g') (ng_guard g') (ng_channels g') (ng_registered g') true.

(** [known_service_names]: sorted, without repetition. *)
Fixpoint insert_sorted (x : string) (l : list string) : list string :=
  match l with
  | [] => [x]
  | y :: l' => if String.leb x y then x :: l else y :: insert_sorted x l'
  end.

Fixpoint dedup_names (l : list string) : list string :=
  match l with
  | x :: ((y :: _) as l') => if String.eqb x y then dedup_names l' else x :: dedup_names l'
  | _ => l
  end.

Definition known_service_names (table : list string) : list string :=
  dedup_names (foldr insert_sorted [] table).

Definition unknown_service_error (table : list string) (name : string) : GatewayError :=
  MkGatewayError UnknownService
    ("unknown service '" +:+ name +:+ "'; known services: " +:+ String.concat ", " (known_service_names table)).

(** [register_service]: [provide] registers the service with the locator. *)
Definition register_service (table : list string) (name : string) (g : NodeGateway)
    : result () GatewayError * NodeGateway :=
  if negb (existsb (String.eqb name) table) then (Err (unknown_service_error table name), g)
  else if decide (ng_phase g = Running) then (Err before_init, g)
  else
    mark_configured
      (MkNodeGateway (ng_phase g) (ng_bridge g) (ng_guard g) (ng_channels g) (ng_registered g ++ [name])
         (ng_cancelled g)).

(** ** The calls of JavaScript ([consumer.rs]) *)

Section consumer.
(** The services of the addon: the view of each, when a provider is connected. *)
Context {Invoker : Type} (table : list (string * option Invoker)).
Context (invoke_json : Invoker → string → Value → ReadMode → option (result JsonOutcome JsonCallError)).

Definition call_error (e : JsonCallError) : GatewayError :=
  match e with
  | Json.InvalidArgs message => MkGatewayError InvalidArgs message
  | BusinessError message => MkGatewayError BusinessFailure message
  | TransportFailure message => MkGatewayError Transport message
  end.

Definition no_value (service method : string) : GatewayError :=
  MkGatewayError BusinessFailure ("'" +:+ service +:+ "." +:+ method +:+ "' completed without emitting a value").

Definition one_way (service method : string) : GatewayError :=
  MkGatewayError OneWay ("'" +:+ service +:+ "." +:+ method +:+ "' is a one-way method and has no result").

Definition no_provider (service : string) : GatewayError :=
  MkGatewayError NoProvider ("no provider is connected for '" +:+ service +:+ "'").

Definition no_method (service method : string) : GatewayError :=
  MkGatewayError UnknownMethod ("'" +:+ service +:+ "' has no method '" +:+ method +:+ "'").

Definition call_outcome (service method : string) (args : Value) (read : ReadMode) : result JsonOutcome GatewayError :=
  match find (λ entry, String.eqb entry.1 service) table with
  | None => Err (unknown_service_error (map fst table) service)
  | Some (_, None) => Err (no_provider service)
  | Some (_, Some invoker) =>
      match invoke_json invoker method args read with
      | Some (Ok outcome) => Ok outcome
      | Some (Err e) => Err (call_error e)
      | None => Err (no_method service method)
      end
  end.

Definition call_ipc_method (service method : string) (args : Value) : result Value GatewayError :=
  match call_outcome service method args First with
  | Ok (JValue v) => Ok v
  | Ok JNothing => Err (no_value service method)
  | Ok (JAccepted _) => Err (one_way service method)
  | Err e => Err e
  end.

Definition call_ipc_method_stream (service method : string) (args : Value) : result (list Value) GatewayError :=
  match call_outcome service method args All with
  | Ok (JValue (VArray values)) => Ok values
  | Ok (JValue other) => Ok [other]
  | Ok JNothing => Ok []
  | Ok (JAccepted _) => Err (one_way service method)
  | Err e => Err e
  end.
End consumer.
End gateway.

(** ** Interleavings *)

(** What the threads of a gateway do: JavaScript registers services, starts and
    stops the gateway and answers calls; the dispatch thread hands calls over,
    with the status of the JavaScript engine; a handler reads its stream, or
    drops it. *)
Inductive GwAction : Type :=
| ARegister (name : string)
| AInit
| AShutdown
| ADispatch (status : option string) (cid : bytes)
| AEmit (text : string) (event : Value)
| AResolve (text : string) (event : Value)
| ARead (j : nat)
| ADrop (j : nat).

Section interleaving.
Context {C : Type → Type} `{AsyncChannel C} (table : list string).

Definition put_channels (cs : list (C Value)) (g : NodeGateway) : NodeGateway :=
  set_bridge (ng_bridge g) cs g.

Definition gw_next (a : GwAction) (g : NodeGateway) : NodeGateway :=
  match a with
  | ARegister name => (register_service table name g).2
  | AInit => (init g).2
  | AShutdown => gateway_shutdown g
  | ADispatch status cid => (gateway_dispatch_json status cid g).2
  | AEmit text event => (emit_nodejs_event text event g).2
  | AResolve text event => (resolve_nodejs_call text event g).2
  | ARead j => put_channels (alter (λ c, (ch_poll_recv c).2) j (ng_channels g)) g
  | ADrop j => put_channels (alter ch_close j (ng_channels g)) g
  end.

(** The call an answer of JavaScript is for. *)
Definition call_of (text : string) (g : NodeGateway (C:=C)) : option nat :=
  match ng_bridge g, parse_cid text with
  | Some entries, Ok cid => entries !! cid
  | _, _ => None
  end.

(** The envelope an accepted answer stands for: JavaScript was told [Ok]. *)
Definition gw_accepted (a : GwAction) (g : NodeGateway (C:=C)) : option (nat * Value) :=
  match a with
  | AEmit text event =>
      match (emit_nodejs_event text event g).1, call_of text g, next_envelope event with
      | Ok _, Some j, Ok v => Some (j, v)
      | _, _, _ => None
      end
  | AResolve text event =>
      match (resolve_nodejs_call text event g).1, call_of text g, terminal_envelope event with
      | Ok _, Some j, Ok v => Some (j, v)
      | _, _, _ => None
      end
  | _ => None
  end.

Definition gw_read (a : GwAction) (g : NodeGateway (C:=C)) : option (nat * Value) :=
  match a with
  | ARead j =>
      match (λ c, (ch_poll_recv c).1) <$> ng_channels g !! j with
      | Some (Ready (Some v)) => Some (j, v)
      | _ => None
      end
  | _ => None
  end.

(** A run, with the log of the accepted answers and the log of the reads. *)
Record GwRun : Type := MkGwRun {
  gr_accepted : list (nat * Value);
  gr_read : list (nat * Value);
  gr_gateway : NodeGateway (C:=C)
}.

Definition gw_step (r : GwRun) (a : GwAction) : GwRun :=
  let g := gr_gateway r in
  MkGwRun (gr_accepted r ++ option_list (gw_accepted a g)) (gr_read r ++ option_list (gw_read a g)) (gw_next a g).

Definition gw_run (acts : list GwAction) : GwRun := foldl gw_step (MkGwRun [] [] gateway_new) acts.
End interleaving.

Definition of_call (j : nat) (log : list (nat * Value)) : list Value :=
  omap (λ p, if decide (p.1 = j) then Some p.2 else None) log.

#[global] Arguments of_call : simpl never.

Definition is_next (v : Value) : Prop := ∃ d, v = VObject [("data", d); ("type", VString "next")]%string.

Definition closes_call (v : Value) : Prop :=
  v = VObject [("type", VString "complete")]%string ∨
  (∃ d, v = VObject [("data", d); ("type", VString "complete")]%string) ∨
  (∃ d, v = VObject [("data", d); ("type", VString "error")]%string).

Section laws.
Context {C : Type → Type} `{AsyncChannelLaws C} (services : list string).
Implicit Types g : NodeGateway (C:=C).

Lemma of_call_app j l1 l2 : of_call j (l1 ++ l2) = of_call j l1 ++ of_call j l2.
Proof. apply omap_app. Qed.

Lemma next_envelope_is_next event v : next_envelope event = Ok v → is_next v.
Proof. unfold next_envelope. intros. repeat case_match; simplify_eq. by eexists. Qed.

Lemma terminal_envelope_is_terminal event v : terminal_envelope event = Ok v → closes_call v.
Proof. unfold terminal_envelope, closes_call. intros. repeat case_match; simplify_eq; eauto. Qed.

(** What a step may do to the channel of a call. *)
Definition close_only (c c' : C Value) (closing : bool) : Prop :=
  ch_view c' = ChanView (cv_queue (ch_view c)) (cv_closed (ch_view c) || closing) (cv_capacity (ch_view c)).

Lemma close_all_lookup (entries : gmap bytes nat) cs j :
  match cs !! j, close_all entries cs !! j with
  | Some c, Some c' =>
      ∃ b : bool, close_only c c' b ∧ ((∃ cid, entries !! cid = Some j) ↔ b = true)
  | None, None => True
  | _, _ => False
  end.
Proof.
  unfold close_all. apply (map_fold_weak_ind (λ r m,
    match cs !! j, r !! j with
    | Some c, Some c' => ∃ b : bool, close_only c c' b ∧ ((∃ cid, m !! cid = Some j) ↔ b = true)
    | None, None => True
    | _, _ => False
    end)).
  - destruct (cs !! j) as [c|]; [|done]. exists false. split.
    + unfold close_only. destruct (ch_view c). by rewrite orb_false_r.
    + split; [|done]. intros [cid Hc]. by rewrite lookup_empty in Hc.
  - intros cid k m r Hm IH. rewrite list_lookup_alter.
    destruct (decide (k = j)) as [->|Hk].
    + destruct (cs !! j) as [c|], (r !! j) as [c'|]; try done. simpl.
      destruct IH as (b & Hview & _). exists true. split.
      * unfold close_only in *. rewrite ch_close_view, Hview. simpl. by rewrite orb_true_r.
      * split; [done|]. intros _. exists cid. by rewrite lookup_insert_eq.
    + destruct (cs !! j) as [c|], (r !! j) as [c'|]; try done.
      destruct IH as (b & Hview & Hin). exists b. split; [done|]. rewrite <- Hin.
      split; intros [d Hd]; exists d; rewrite lookup_insert in *; case_decide; naive_solver congruence.
Qed.

(** A sequence of intermediate envelopes, closed by at most one terminal one. *)
Definition answer_shape (l : list Value) : Prop :=
  ∃ nexts, Forall is_next nexts ∧ (l = nexts ∨ ∃ t, closes_call t ∧ l = nexts ++ [t]).

Definition pending_call (j : nat) g : Prop :=
  ∃ entries cid, ng_bridge g = Some entries ∧ entries !! cid = Some j.

(** What holds of a call: [dropped] is whether its handler may have dropped the
    stream, [acc] the answers accepted for it, [rd] what was read. *)
Definition call_ok (dropped pending : Prop) (acc rd : list Value) (oc : option (C Value)) : Prop :=
  match oc with
  | None => acc = [] ∧ rd = [] ∧ ¬ pending
  | Some c =>
      cv_capacity (ch_view c) = None ∧ answer_shape acc ∧
      (¬ dropped → rd ++ cv_queue (ch_view c) = acc) ∧
      (pending → Forall is_next acc ∧ (¬ dropped → cv_closed (ch_view c) = false)) ∧
      (¬ pending → cv_closed (ch_view c) = true)
  end.

Record gw_inv (dropped : nat → Prop) (r : GwRun (C:=C)) : Prop := {
  gi_size entries : ng_bridge (gr_gateway r) = Some entries → (size entries ≤ MAX_PENDING_CALLS)%nat;
  gi_inj entries cid1 cid2 j : ng_bridge (gr_gateway r) = Some entries →
    entries !! cid1 = Some j → entries !! cid2 = Some j → cid1 = cid2;
  gi_call j : call_ok (dropped j) (pending_call j (gr_gateway r)) (of_call j (gr_accepted r))
    (of_call j (gr_read r)) (ng_channels (gr_gateway r) !! j)
}.

Lemma call_ok_iff D (P Q : Prop) acc rd oc : (P ↔ Q) → call_ok D P acc rd oc → call_ok D Q acc rd oc.
Proof. unfold call_ok. destruct oc; naive_solver. Qed.

Lemma call_ok_close (D P Q : Prop) acc rd c c' (b : bool) :
  close_only c c' b → (b = true ↔ P) → ¬ Q → call_ok D P acc rd (Some c) → call_ok D Q acc rd (Some c').
Proof.
  unfold close_only. intros Hc Hb HQ (Hcap & Hsh & Hq & Hp & Hn). unfold call_ok. rewrite Hc. simpl.
  split_and!; try done. intros _. destruct b; [by rewrite orb_true_r|].
  rewrite Hn by naive_solver. done.
Qed.

Lemma of_call_entry j k v : of_call j [(k, v)] = if decide (k = j) then [v] else [].
Proof. unfold of_call. simpl. by case_decide. Qed.

Lemma gw_inv_same D r g :
  ng_bridge g = ng_bridge (gr_gateway r) → ng_channels g = ng_channels (gr_gateway r) →
  gw_inv D r → gw_inv D (MkGwRun (gr_accepted r ++ []) (gr_read r ++ []) g).
Proof.
  intros Hb Hc [Hs Hi Hok]. rewrite !app_nil_r. split; simpl; rewrite ?Hb, ?Hc; try done.
  intros j. eapply call_ok_iff; [|apply Hok]. unfold pending_call. by rewrite Hb.
Qed.

(** Dropping the bridge closes every call it still held. *)
Lemma gw_inv_release D r g :
  ng_bridge g = None ∨ ng_bridge g = Some ∅ →
  ng_channels g = (match ng_bridge (gr_gateway r) with
                   | Some entries => close_all entries (ng_channels (gr_gateway r))
                   | None => ng_channels (gr_gateway r)
                   end) →
  gw_inv D r → gw_inv D (MkGwRun (gr_accepted r ++ []) (gr_read r ++ []) g).
Proof.
  intros Hb Hc [Hs Hi Hok]. rewrite !app_nil_r.
  assert (Hnone : ∀ entries cid, ng_bridge g = Some entries → entries !! cid = None).
  { intros entries cid He. destruct Hb as [Hb|Hb]; rewrite Hb in He; simplify_eq. done. }
  assert (Hnp : ∀ j, ¬ pending_call j g).
  { intros j (entries & cid & He & Hl). by rewrite (Hnone _ _ He) in Hl. }
  split; simpl.
  - intros entries He. destruct Hb as [Hb|Hb]; rewrite Hb in He; simplify_eq. rewrite map_size_empty. lia.
  - intros entries c1 c2 j He Hl. by rewrite (Hnone _ _ He) in Hl.
  - intros j. specialize (Hok j). rewrite Hc. unfold pending_call in Hok at 1.
    destruct (ng_bridge (gr_gateway r)) as [entries|] eqn:He.
    + pose proof (close_all_lookup entries (ng_channels (gr_gateway r)) j) as Hl.
      destruct (ng_channels (gr_gateway r) !! j) as [c|], (close_all _ _ !! j) as [c'|]; try done.
      * destruct Hl as (b & Hv & Hin). eapply (call_ok_close _ _ _ _ _ _ _ b); [done| |done|done].
        rewrite <- Hin. naive_solver.
      * simpl in *. naive_solver.
    + eapply call_ok_iff; [|done]. split; [naive_solver|by intros []%Hnp].
Qed.

Lemma gw_inv_dispatch D r status cid :
  gw_inv D r → gw_inv D (gw_step services r (ADispatch status cid)).
Proof.
  intros Hinv. unfold gw_step. simpl. unfold gateway_dispatch_json, bridge, start_call, pending_insert.
  destruct (ng_bridge (gr_gateway r)) as [entries|] eqn:He; [|by apply gw_inv_same].
  destruct (MAX_PENDING_CALLS <=? size entries)%nat eqn:Hmax; [by apply gw_inv_same|]. apply Nat.leb_gt in Hmax.
  destruct (entries !! cid) as [j|] eqn:Hl; [by apply gw_inv_same|].
  destruct Hinv as [Hs Hi Hok]. set (n := length (ng_channels (gr_gateway r))).
  assert (Hfresh : ∀ k, entries !! k ≠ Some n).
  { intros k Hk. specialize (Hok n). unfold n in Hok. rewrite lookup_ge_None_2 in Hok by done.
    destruct Hok as (_ & _ & []). by exists entries, k. }
  assert (Hch : ∀ j, j ≠ n → ∀ c, (ng_channels (gr_gateway r) ++ [c]) !! j = ng_channels (gr_gateway r) !! j).
  { intros j Hj c. destruct (decide (j < n)%nat); [by apply lookup_app_l|].
    unfold n in *. rewrite !lookup_ge_None_2; rewrite ?length_app; simpl; lia || done. }
  assert (Hn : of_call n (gr_accepted r) = [] ∧ of_call n (gr_read r) = []).
  { specialize (Hok n). unfold n in Hok. rewrite lookup_ge_None_2 in Hok by done. naive_solver. }
  assert (Hlast : ∀ c, (ng_channels (gr_gateway r) ++ [c]) !! n = Some c).
  { intros c. unfold n. rewrite lookup_app_r, Nat.sub_diag; done. }
  assert (Hnil : answer_shape []) by (exists []; eauto).
  destruct status as [failure|]; simpl; rewrite !app_nil_r; split; simpl.
  - intros ? [= <-]. rewrite delete_insert_id by done. auto.
  - intros ? c1 c2 j [= <-]. rewrite delete_insert_id by done. eauto.
  - intros j. destruct (decide (j = n)) as [->|Hj].
    + rewrite Hlast. destruct Hn as [-> ->]. simpl. rewrite !ch_close_view, ch_unbounded_view. simpl.
      split_and!; try done. intros (? & k & [= <-] & Hk). rewrite delete_insert_id in Hk by done. by destruct (Hfresh k).
    + rewrite Hch by done. eapply call_ok_iff; [|apply Hok]. unfold pending_call. rewrite He. simpl.
      rewrite delete_insert_id by done. done.
  - intros ? [= <-]. rewrite map_size_insert_None by done. lia.
  - intros ? c1 c2 j [= <-]. rewrite !lookup_insert. do 2 case_decide; subst; try done; intros; simplify_eq;
      try (by destruct (Hfresh c2)); try (by destruct (Hfresh c1)). eauto.
  - intros j. destruct (decide (j = n)) as [->|Hj].
    + rewrite Hlast. destruct Hn as [-> ->]. simpl. rewrite !ch_unbounded_view. simpl.
      split_and!; try done. intros []. exists (<[cid:=n]> entries), cid. by rewrite lookup_insert_eq.
    + rewrite Hch by done. eapply call_ok_iff; [|apply Hok]. unfold pending_call. rewrite He. simpl.
      split; intros (? & k & [= <-] & Hk); do 2 eexists; (split; [done|]).
      * rewrite lookup_insert_ne; [done|]. by intros ->; simplify_eq.
      * rewrite lookup_insert in Hk. case_decide; [congruence|done].
Qed.

(** A push to a call reports what it did: the envelope is queued, or the stream
    was closed and nothing changes. *)
Lemma push_spec j v cs c :
  cs !! j = Some c → cv_capacity (ch_view c) = None →
  (cv_closed (ch_view c) = true ∧ push j v cs = (Err (Closed v), cs)) ∨
  (cv_closed (ch_view c) = false ∧ ∃ c', push j v cs = (Ok (), <[j:=c']> cs) ∧
   ch_view c' = ChanView (cv_queue (ch_view c) ++ [v]) false None).
Proof.
  intros Hc Hcap. unfold push. rewrite Hc.
  destruct (cv_closed (ch_view c)) eqn:Hclosed; [left|right]; (split; [done|]).
  - rewrite ch_send_closed by done. by rewrite list_insert_id.
  - destruct (ch_send_room c v Hclosed) as (c' & -> & Hv); [unfold cv_full; by rewrite Hcap|].
    exists c'. split; [done|]. rewrite Hv. destruct (ch_view c). by simplify_eq/=.
Qed.

Lemma shape_next acc v : Forall is_next acc → is_next v → Forall is_next (acc ++ [v]).
Proof. intros. apply Forall_app_2; [done|]. by constructor. Qed.

Lemma shape_open acc : Forall is_next acc → answer_shape acc.
Proof. intros. exists acc. eauto. Qed.

Lemma pending_set_bridge j entries cs g :
  pending_call j (set_bridge (Some entries) cs g) ↔ ∃ cid, entries !! cid = Some j.
Proof. unfold pending_call. simpl. naive_solver. Qed.

Lemma gw_inv_emit D r text event : gw_inv D r → gw_inv D (gw_step services r (AEmit text event)).
Proof.
  intros Hinv. unfold gw_step. simpl. unfold emit_nodejs_event, call_of, bridge, emit_event.
  destruct (ng_bridge (gr_gateway r)) as [entries|] eqn:He; [|by apply gw_inv_same].
  destruct (parse_cid text) as [cid|e]; [|by apply gw_inv_same].
  destruct (next_envelope event) as [v|e] eqn:Hv; [|by apply gw_inv_same].
  destruct (entries !! cid) as [j|] eqn:Hl; [|by apply gw_inv_same].
  apply next_envelope_is_next in Hv. pose proof (gi_call D r Hinv j) as Hj.
  assert (Hp : pending_call j (gr_gateway r)) by (exists entries, cid; done).
  destruct (ng_channels (gr_gateway r) !! j) as [c|] eqn:Hc; [|by destruct Hj as (_ & _ & [])].
  destruct Hj as (Hcap & Hsh & Hq & Hpend & Hrel).
  destruct (push_spec j v _ c Hc Hcap) as [[Hclosed ->]|(Hopen & c' & -> & Hc')]; [by apply gw_inv_same|].
  simpl. rewrite app_nil_r. destruct Hinv as [Hs Hi Hok]. split; simpl.
  - intros ? [= <-]. auto.
  - intros ? c1 c2 k [= <-]. eauto.
  - intros k. rewrite of_call_app, of_call_entry.
    assert (Hiff : pending_call k (gr_gateway r) ↔ pending_call k (set_bridge (Some entries)
      (<[j:=c']> (ng_channels (gr_gateway r))) (gr_gateway r))) by (unfold pending_call; simpl; by rewrite He).
    eapply call_ok_iff; [exact Hiff|]. case_decide as Hk; subst.
    + rewrite list_lookup_insert_eq by (by eapply lookup_lt_Some). simpl. rewrite Hc'. simpl.
      destruct (Hpend Hp) as [Hnext Hd]. pose proof (shape_next _ _ Hnext Hv).
      split_and!; [done|by apply shape_open| |done|naive_solver]. intros Hnd. by rewrite <- (Hq Hnd), <- app_assoc.
    + rewrite app_nil_r, list_lookup_insert_ne by done. apply Hok.
Qed.

Lemma gw_inv_resolve D r text event : gw_inv D r → gw_inv D (gw_step services r (AResolve text event)).
Proof.
  intros Hinv. unfold gw_step. simpl. unfold resolve_nodejs_call, call_of, bridge, resolve.
  destruct (ng_bridge (gr_gateway r)) as [entries|] eqn:He; [|by apply gw_inv_same].
  destruct (parse_cid text) as [cid|e]; [|by apply gw_inv_same].
  destruct (terminal_envelope event) as [v|e] eqn:Hv; [|by apply gw_inv_same].
  destruct (entries !! cid) as [j|] eqn:Hl; [|by apply gw_inv_same].
  apply terminal_envelope_is_terminal in Hv. pose proof (gi_call D r Hinv j) as Hj.
  assert (Hp : pending_call j (gr_gateway r)) by (exists entries, cid; done).
  destruct (ng_channels (gr_gateway r) !! j) as [c|] eqn:Hc; [|by destruct Hj as (_ & _ & [])].
  destruct Hj as (Hcap & Hsh & Hq & Hpend & Hrel). destruct (Hpend Hp) as [Hnext Hd].
  simpl. rewrite app_nil_r. destruct Hinv as [Hs Hi Hok]. split; simpl.
  - intros ? [= <-]. rewrite map_size_delete. specialize (Hs _ He). destruct (entries !! cid); simpl; lia.
  - intros ? c1 c2 k [= <-]. rewrite !lookup_delete_Some. naive_solver.
  - intros k. rewrite of_call_app, of_call_entry. eapply call_ok_iff; [symmetry; apply pending_set_bridge|].
    case_decide as Hk; subst.
    + assert (Hno : ¬ ∃ d, delete cid entries !! d = Some k).
      { intros (d & [Hne Hd']%lookup_delete_Some). destruct Hne. by eapply Hi. }
      assert (Hs2 : answer_shape (of_call k (gr_accepted r) ++ [v])) by (eexists; eauto).
      rewrite list_lookup_alter_eq.
      destruct (push_spec k v _ c Hc Hcap) as [[Hclosed ->]|(Hopen & c' & -> & Hc')]; simpl.
      * rewrite Hc. simpl. rewrite ch_close_view. simpl. split_and!; try done.
        intros Hnd. specialize (Hd Hnd). congruence.
      * rewrite list_lookup_insert_eq by (by eapply lookup_lt_Some). simpl. rewrite ch_close_view, Hc'. simpl.
        split_and!; try done. intros Hnd. rewrite <- (Hq Hnd), <- app_assoc. done.
    + rewrite app_nil_r, list_lookup_alter_ne by done.
      assert (Hpk : (push j v (ng_channels (gr_gateway r))).2 !! k = ng_channels (gr_gateway r) !! k).
      { destruct (push_spec j v _ c Hc Hcap) as [[_ ->]|(_ & c' & -> & _)]; [done|]. by apply list_lookup_insert_ne. }
      rewrite Hpk. eapply call_ok_iff; [|apply Hok]. unfold pending_call. rewrite He.
      split; [intros (? & d & [= <-] & Hd')|intros (d & [_ Hd']%lookup_delete_Some); by exists entries, d].
      exists d. rewrite lookup_delete_ne; [done|]. by intros ->; simplify_eq.
Qed.

Lemma gw_inv_read D r j : gw_inv D r → gw_inv D (gw_step services r (ARead j)).
Proof.
  intros [Hs Hi Hok]. unfold gw_step. simpl. rewrite app_nil_r. split; simpl; [done|done|].
  intros k. rewrite of_call_app. unfold put_channels. specialize (Hok k).
  eapply call_ok_iff; [done|]. rewrite list_lookup_alter. destruct (decide (j = k)) as [->|Hk].
  - destruct (ng_channels (gr_gateway r) !! k) as [c|]; simpl; [|by rewrite app_nil_r].
    destruct Hok as (Hcap & Hsh & Hq & Hpend & Hrel). destruct (cv_queue (ch_view c)) as [|v q] eqn:Hqu.
    + assert (Hpoll : ∃ p, (∀ v, p ≠ Ready (Some v)) ∧ ch_poll_recv c = (p, c)).
      { destruct (cv_closed (ch_view c)) eqn:Hcl; [exists (Ready None); by rewrite ch_recv_end|].
        exists Pending. by rewrite ch_recv_wait. }
      destruct Hpoll as (p & Hp & ->). simpl. rewrite Hqu.
      assert (option_list (match p with Ready (Some v) => Some (k, v) | _ => None end) = []) as ->.
      { destruct p as [|[v|]]; try done. by destruct (Hp v). }
      simpl. rewrite app_nil_r. done.
    + destruct (ch_recv_some c v q Hqu) as (c' & -> & Hc'). simpl. rewrite of_call_entry, Hc', decide_True by done.
      simpl. rewrite <- app_assoc. done.
  - assert (Hlog : of_call k (option_list (gw_read (ARead j) (gr_gateway r))) = []).
    { simpl. repeat case_match; try done. simpl. by rewrite of_call_entry, decide_False. }
    simpl in Hlog. by rewrite Hlog, app_nil_r.
Qed.

Lemma gw_inv_drop (D : nat → Prop) r j : D j → gw_inv D r → gw_inv D (gw_step services r (ADrop j)).
Proof.
  intros HD [Hs Hi Hok]. unfold gw_step. simpl. rewrite !app_nil_r. split; simpl; [done|done|].
  intros k. specialize (Hok k). eapply call_ok_iff; [done|]. rewrite list_lookup_alter.
  case_decide; subst; [|done]. destruct (ng_channels (gr_gateway r) !! k) as [c|]; [|done].
  simpl in *. rewrite ch_close_view. simpl. naive_solver.
Qed.

Lemma gw_inv_step (D : nat → Prop) r a : (∀ j, a = ADrop j → D j) → gw_inv D r → gw_inv D (gw_step services r a).
Proof.
  intros HD Hinv. destruct a as [name| | |status cid|text event|text event|j|j];
    auto using gw_inv_dispatch, gw_inv_emit, gw_inv_resolve, gw_inv_read, gw_inv_drop.
  - unfold gw_step. simpl. apply gw_inv_same; [| |done];
      unfold register_service, mark_configured; by repeat case_match.
  - unfold gw_step. simpl. unfold init, begin_start.
    case_decide; [by apply gw_inv_same|]. apply gw_inv_release; [by right|done|done].
  - apply gw_inv_release; [by left|done|done].
Qed.

Lemma gw_run_inv acts : gw_inv (λ j, ADrop j ∈ acts) (gw_run services acts).
Proof.
  unfold gw_run.
  cut (∀ (D : nat → Prop) l r, (∀ j, ADrop j ∈ l → D j) → gw_inv D r → gw_inv D (foldl (gw_step services) r l)).
  { intros Hcut. apply Hcut; [done|]. split; simpl; [done|done|]. intros j. split_and!; try done. by intros (? & ? & ? & ?). }
  intros D l. induction l as [|a l IH]; intros r HD Hinv; [done|]. simpl. apply IH; [set_solver|].
  apply gw_inv_step; [|done]. intros j ->. apply HD. by left.
Qed.

(** C23. Under any interleaving of JavaScript, the dispatch thread and the
    handlers, over restarts of the gateway: the table never exceeds its bound and
    never holds a call twice; for each call, the answers JavaScript was told were
    accepted are intermediate events closed by at most one terminal one, and a
    handler that keeps its stream reads exactly these, in order; the stream is
    open while the call is pending and closed once it is not. *)
Theorem js_streams_exact acts :
  let r := gw_run services acts in
  (∀ entries, ng_bridge (gr_gateway r) = Some entries →
     (size entries ≤ MAX_PENDING_CALLS)%nat ∧
     ∀ cid1 cid2 j, entries !! cid1 = Some j → entries !! cid2 = Some j → cid1 = cid2) ∧
  ∀ j c, ng_channels (gr_gateway r) !! j = Some c →
    answer_shape (of_call j (gr_accepted r)) ∧
    (ADrop j ∉ acts → of_call j (gr_read r) ++ cv_queue (ch_view c) = of_call j (gr_accepted r)) ∧
    (pending_call j (gr_gateway r) → Forall is_next (of_call j (gr_accepted r)) ∧
       (ADrop j ∉ acts → cv_closed (ch_view c) = false)) ∧
    (¬ pending_call j (gr_gateway r) → cv_closed (ch_view c) = true).
Proof.
  destruct (gw_run_inv acts) as [Hs Hi Hok]. split; [eauto|].
  intros j c Hc. specialize (Hok j). rewrite Hc in Hok. apply Hok.
Qed.

(** ** Calls that are never answered *)

(** The one-way calls the handlers of the host serve: each is handed over and its
    stream dropped. *)
Fixpoint serve_one_way (stream : nat) (cids : list bytes) : list GwAction :=
  match cids with
  | [] => []
  | cid :: cids' => ADispatch None cid :: ADrop stream :: serve_one_way (S stream) cids'
  end.

(** The actions that take a call out of the table. *)
Definition ends_calls (a : GwAction) : bool :=
  match a with AShutdown | AResolve _ _ => true | _ => false end.

Lemma entries_stay r a entries :
  ends_calls a = false → ng_phase (gr_gateway r) = Running → ng_bridge (gr_gateway r) = Some entries →
  ng_phase (gr_gateway (gw_step services r a)) = Running ∧
  ∃ entries', ng_bridge (gr_gateway (gw_step services r a)) = Some entries' ∧ entries ⊆ entries'.
Proof.
  intros Ha Hph Hb. destruct a as [name| | |status cid|text event|text event|j|j]; try done; simpl.
  - unfold register_service. rewrite Hph. case_match; eauto.
  - unfold init, begin_start. rewrite Hph. eauto.
  - unfold gateway_dispatch_json, bridge, start_call, pending_insert. rewrite Hb.
    destruct (_ <=? _)%nat; [eauto|]. destruct (entries !! cid) eqn:Hl; [eauto|].
    destruct status; simpl; (split; [done|]); eexists; (split; [done|]); [by rewrite delete_insert_id|].
    by apply insert_subseteq.
  - unfold emit_nodejs_event, bridge, emit_event. rewrite Hb.
    destruct (parse_cid text); [|eauto]. destruct (next_envelope event); [|eauto].
    destruct (entries !! _); [|eauto]. destruct (push _ _ _). simpl. eauto.
  - eauto.
  - eauto.
Qed.

Lemma entries_stay_run acts r entries :
  Forall (λ a, ends_calls a = false) acts → ng_phase (gr_gateway r) = Running →
  ng_bridge (gr_gateway r) = Some entries →
  ∃ entries', ng_bridge (gr_gateway (foldl (gw_step services) r acts)) = Some entries' ∧ entries ⊆ entries'.
Proof.
  intros Hacts. revert r entries. induction Hacts as [|a acts Ha Hacts IH]; intros r entries Hph Hb; [by eauto|].
  destruct (entries_stay r a entries Ha Hph Hb) as (Hph' & e1 & Hb1 & Hsub).
  destruct (IH _ e1 Hph' Hb1) as (e2 & Hb2 & Hsub2). exists e2. split; [done|]. by etrans.
Qed.

Lemma one_way_fills cids n r entries :
  ng_phase (gr_gateway r) = Running → ng_bridge (gr_gateway r) = Some entries →
  NoDup cids → (∀ cid, cid ∈ cids → entries !! cid = None) →
  (size entries + length cids ≤ MAX_PENDING_CALLS)%nat →
  ∃ entries', ng_phase (gr_gateway (foldl (gw_step services) r (serve_one_way n cids))) = Running ∧
    ng_bridge (gr_gateway (foldl (gw_step services) r (serve_one_way n cids))) = Some entries' ∧
    size entries' = (size entries + length cids)%nat.
Proof.
  revert n r entries. induction cids as [|cid cids IH]; intros n r entries Hph Hb Hnd Hfresh Hsize.
  { exists entries. simpl. split_and!; [done|done|lia]. }
  apply NoDup_cons in Hnd as [Hnin Hnd]. pose proof (Hfresh cid ltac:(by left)) as Hcid. cbn [length] in Hsize.
  set (r' := foldl (gw_step services) r [ADispatch None cid; ADrop n]).
  assert (Hr' : ng_phase (gr_gateway r') = Running ∧
    ng_bridge (gr_gateway r') = Some (<[cid := length (ng_channels (gr_gateway r))]> entries)).
  { unfold r'. cbn [foldl gw_step gr_gateway gw_next put_channels set_bridge ng_phase ng_bridge].
    unfold gateway_dispatch_json, bridge, start_call, pending_insert. rewrite Hb, Hcid.
    destruct (_ <=? _)%nat eqn:Hle; [apply Nat.leb_le in Hle; lia|]. done. }
  destruct Hr' as [Hph' Hb']. destruct (IH (S n) r' _ Hph' Hb' Hnd) as (e & Hph2 & Hb2 & Hs).
  - intros d Hd. rewrite lookup_insert_ne; [|by intros ->]. apply Hfresh. by right.
  - rewrite map_size_insert_None by done. lia.
  - exists e. split_and!; [exact Hph2|exact Hb2|]. rewrite Hs, map_size_insert_None by done. simpl. lia.
Qed.

(** C37. One-way calls fill the table of the pending calls: after
    [MAX_PENDING_CALLS] of them, each handed over and its stream dropped, every
    further call is refused for the limit, whatever happens in between short of
    an answer or a shutdown; nothing removes the entry of a call nobody waits
    for. *)
Theorem one_way_calls_exhaust cids acts status cid :
  NoDup cids → length cids = MAX_PENDING_CALLS → Forall (λ a, ends_calls a = false) acts →
  let g := gr_gateway (gw_run services (AInit :: serve_one_way 0 cids ++ acts)) in
  gateway_dispatch_json status cid g =
    (Err (rendered (MkGatewayError PendingLimit
       (pretty MAX_PENDING_CALLS +:+ " calls already await a JavaScript answer"))), g).
Proof.
  intros Hnd Hlen Hacts g.
  assert (Hg : ∃ entries, ng_bridge g = Some entries ∧ size entries = MAX_PENDING_CALLS).
  { pose proof (gi_size _ _ (gw_run_inv (AInit :: serve_one_way 0 cids ++ acts))) as Hmax. fold g in Hmax.
    revert Hmax. unfold g, gw_run. cbn [foldl]. rewrite foldl_app.
    edestruct (one_way_fills cids 0 (gw_step services (MkGwRun [] [] gateway_new) AInit) ∅)
      as (e & Hph & Hb & Hs); [done|done|done|done|rewrite map_size_empty; lia|].
    destruct (entries_stay_run acts _ e Hacts Hph Hb) as (e' & Hb' & Hsub). intros Hmax.
    exists e'. split; [exact Hb'|]. specialize (Hmax e' Hb'). pose proof (map_subseteq_size _ _ Hsub).
    rewrite map_size_empty in Hs. lia. }
  destruct Hg as (entries & Hb & Hs). unfold gateway_dispatch_json, bridge, start_call, pending_insert.
  by rewrite Hb, Hs, Nat.leb_refl.
Qed.

(** The tokens of the process stay cancelled after a shutdown: a gateway that
    is initialized again runs under them. *)
Theorem restart_runs_cancelled acts1 acts2 :
  let g := gr_gateway (gw_run services (acts1 ++ [AShutdown] ++ acts2 ++ [AInit])) in
  ng_phase g = Running ∧ ng_cancelled g = true.
Proof.
  assert (Hstep : ∀ r a, ng_cancelled (gr_gateway r) = true →
    ng_cancelled (gr_gateway (gw_step services r a)) = true).
  { intros r a Hc. destruct a as [name| | |status cid|text event|text event|j|j]; try done; simpl.
    - unfold register_service, mark_configured. by repeat case_match.
    - unfold init, begin_start, complete_start. repeat case_match; simplify_eq/=; by rewrite ?Hc.
    - unfold gateway_dispatch_json, start_call. by repeat case_match; simplify_eq/=.
    - unfold emit_nodejs_event, emit_event. by repeat case_match; simplify_eq/=.
    - unfold resolve_nodejs_call, resolve. by repeat case_match; simplify_eq/=. }
  assert (Hrun : ∀ l r, ng_cancelled (gr_gateway r) = true →
    ng_cancelled (gr_gateway (foldl (gw_step services) r l)) = true).
  { intros l. induction l as [|a l IH]; intros r Hc; [done|]. simpl. apply IH, Hstep, Hc. }
  unfold gw_run. rewrite !foldl_app. split.
  - simpl. unfold init, begin_start. by case_decide.
  - apply Hrun, Hrun. done.
Qed.
End laws.

(** Distinct correlation ids, numbered over two bytes. *)
Definition numbered_cid (n : nat) : bytes := replicate 14 0 ++ [Z.of_nat (n / 256); Z.of_nat (n mod 256)].

Lemma numbered_cid_inj n m : numbered_cid n = numbered_cid m → n = m.
Proof.
  intros Heq%app_inv_head.
  assert (Hd : Z.of_nat (n / 256) = Z.of_nat (m / 256)) by congruence.
  assert (Hm : Z.of_nat (n mod 256) = Z.of_nat (m mod 256)) by congruence.
  pose proof (Nat.div_mod_eq n 256). pose proof (Nat.div_mod_eq m 256). lia.
Qed.

Lemma one_way_calls_exhaust_witness :
  let cids := numbered_cid <$> seq 0 MAX_PENDING_CALLS in
  let g := gr_gateway (gw_run (C:=VecChannel) ["greeter"]%string
             (AInit :: serve_one_way 0 cids ++ [ADrop 0; ARegister "greeter"; AInit])) in
  gateway_dispatch_json None (numbered_cid 5000) g =
    (Err (rendered (MkGatewayError PendingLimit
       (pretty MAX_PENDING_CALLS +:+ " calls already await a JavaScript answer"))), g).
Proof.
  apply one_way_calls_exhaust.
  - apply NoDup_fmap_2; [exact numbered_cid_inj|apply NoDup_seq].
  - by rewrite length_fmap, length_seq.
  - repeat constructor.
Defined.

(** A call that emits one value and is resolved with another, both read. *)
Definition example_run : list GwAction :=
  let cid := numbered_cid 7 in let text := fmt_correlation_id cid in
  [AInit; ADispatch None cid; AEmit text (VObject [("data", VNull)]%string); ARead 0;
   AResolve text (VObject [("data", VBool true)]%string); ARead 0;
   AEmit text (VObject [("data", VNull)]%string)].

Lemma js_streams_exact_witness :
  let r := gw_run (C:=VecChannel) [] example_run in
  length (of_call 0 (gr_read r)) = 2%nat ∧
  answer_shape (of_call 0 (gr_accepted r)) ∧ of_call 0 (gr_read r) ++ [] = of_call 0 (gr_accepted r).
Proof.
  intros r. split; [by vm_compute|].
  destruct (js_streams_exact (C:=VecChannel) [] example_run) as [_ Hcall].
  destruct (Hcall 0%nat (ChanView [] true None)) as (Hshape & Hread & _); [by vm_compute|].
  split; [exact Hshape|]. apply Hread.
  intros Hin%list_elem_of_In. unfold example_run in Hin. cbn [In] in Hin.
  repeat (destruct Hin as [Hin|Hin]; [discriminate|]). done.
Defined.

(** ** The answers on the wire *)

Section wire_answers.
Context {T E : Type} `{Codec T E} (from_value_t : Value → option T) (from_value_e : Value → option E).

Definition has_field (name : string) (event : Value) : option Value :=
  match event with VObject o => field_get name o | _ => None end.

(** What the answer of a resolved call means: the key decides, not the value. *)
Definition resolved_event (event : Value) : option (WireEvent T E) :=
  match has_field "data" event, has_field "error" event with
  | Some d, _ => WCompleteWith <$> from_value_t d
  | None, Some e => WError <$> from_value_e e
  | None, None => Some WComplete
  end.

(** An accepted answer of JavaScript is the event its keys name: the data of
    an emitted one is the next value; a resolved call completes with its data,
    fails with its error, or completes without a value, a null payload being a
    value.  An answer is refused exactly when it states a type, or has the wrong
    form, and then with the code of the invalid arguments. *)
Theorem js_answers_on_the_wire event :
  match next_envelope event with
  | Ok v => has_field "type" event = None ∧
      ∃ d, has_field "data" event = Some d ∧ wire_from_json from_value_t from_value_e v = WNext <$> from_value_t d
  | Err e => ge_code e = InvalidArgs ∧ (has_field "data" event = None ∨ is_Some (has_field "type" event))
  end ∧
  match terminal_envelope event with
  | Ok v => has_field "type" event = None ∧ wire_from_json from_value_t from_value_e v = resolved_event event
  | Err e => ge_code e = InvalidArgs ∧ event ≠ VNull ∧
      ((∀ o, event ≠ VObject o) ∨ is_Some (has_field "type" event))
  end.
Proof.
  unfold next_envelope, terminal_envelope, resolved_event. destruct event as [| | | | |o]; simpl;
    try (split; [by eauto|split_and!; [done|done|by left]]).
  - split; [by eauto|done].
  - destruct (field_get "type" o) as [ty|] eqn:Hty; [split; [by eauto|split_and!; by eauto]|].
    destruct (field_get "data" o) as [d|] eqn:Hd; [by eauto 10|].
    destruct (field_get "error" o) as [e|] eqn:He; by eauto.
Qed.
End wire_answers.
