(* ===== verification/Macro.v ===== *)
(** * Reading a service ([ice-rpc-macros/src/model.rs], [codegen/helpers.rs],
      [features.rs], [entry.rs], [lib.rs])

    What the macros decide before any code is generated: the parameters of
    [#[service]], the names it accepts, the methods of the annotated trait and
    the types they answer, the derivations [#[payload]] adds, the driver of
    [#[main]].  Tokens are what the parser of syn hands out; a syntax error of
    its own is [Unexpected].  Identifiers are ASCII. *)

From S2P Require Import Prelude MachineInt Text Header Parse.

Local Open Scope Z_scope.

Inductive SynError : Type :=
| Unexpected
| Message (text : string).

(** The quotation mark. *)
Definition QUOTE : string := of_bytes [34].

(** ** Names *)

Definition SERVICE_NAME_LEN : Z := 64.

Inductive NameKind : Type := NService | NGroup.

Definition name_parameter (kind : NameKind) : string :=
  match kind with
  | NService => "Use #[service(" +:+ QUOTE +:+ "ShortName" +:+ QUOTE +:+ ")] to specify a shorter name."
  | NGroup => "Use #[service(..., group = " +:+ QUOTE +:+ "ShortName" +:+ QUOTE +:+ ")]."
  end.

Definition name_label (kind : NameKind) : string :=
  match kind with NService => "Service name" | NGroup => "Channel name" end.

Definition name_max_len (kind : NameKind) : Z := SERVICE_NAME_LEN.

(** [is_ascii_alphanumeric]. *)
Definition ascii_alnum (c : Z) : bool :=
  in_range 48 57 c || in_range 65 90 c || in_range 97 122 c.

Definition ascii_upper (c : Z) : Z := if in_range 97 122 c then c - 32 else c.

Definition to_lowercase (s : string) : string := of_bytes (map ascii_lower (as_bytes s)).

Definition name_char (c : Z) : bool := ascii_alnum c || (c =? 95) || (c =? 45).

Definition validate_name (kind : NameKind) (name : string) : result () SynError :=
  let max := name_max_len kind in
  let len := Z.of_nat (length (as_bytes name)) in
  if max <? len then
    Err (Message (name_label kind +:+ " '" +:+ name +:+ "' too long (" +:+ pretty len +:+ " > "
           +:+ pretty max +:+ " characters). " +:+ name_parameter kind))
  else if negb (forallb name_char (as_bytes name)) then
    Err (Message ("Invalid " +:+ to_lowercase (name_label kind) +:+ " '" +:+ name
           +:+ "': only ASCII alphanumeric characters, '_' and '-' are allowed."))
  else
    match as_bytes name with
    | first :: _ =>
        if negb (ascii_alnum first) then
          Err (Message ("Invalid " +:+ to_lowercase (name_label kind) +:+ " '" +:+ name
                 +:+ "': must start with a letter or a digit."))
        else Ok ()
    | [] => Ok ()
    end.

(** [g_variant_name]: the loop over the characters. *)
Fixpoint variant_chars (capitalize_next : bool) (cs : bytes) : bytes :=
  match cs with
  | [] => []
  | c :: cs' =>
      if c =? 95 then variant_chars true cs'
      else if capitalize_next then ascii_upper c :: variant_chars false cs'
      else c :: variant_chars false cs'
  end.

Definition g_variant_name (s : string) : string := of_bytes (variant_chars true (as_bytes s)).

(** ** The parameters of [#[service]] *)

Inductive Token : Type :=
| TLitStr (s : string)
| TLitInt (n : Z)
| TIdent (s : string)
| TEq
| TComma
| TOther.

Record ServiceAttr : Type := MkServiceAttr {
  sa_logical_name : option string;
  sa_group : option string;
  sa_service_version : Z;
  sa_max_slice_len : option Z;
  sa_blocking : bool
}.

Definition attr_default : ServiceAttr := MkServiceAttr None None 1 None false.

Definition set_logical_name (n : string) (a : ServiceAttr) : ServiceAttr :=
  MkServiceAttr (Some n) (sa_group a) (sa_service_version a) (sa_max_slice_len a) (sa_blocking a).
Definition set_group (g : string) (a : ServiceAttr) : ServiceAttr :=
  MkServiceAttr (sa_logical_name a) (Some g) (sa_service_version a) (sa_max_slice_len a) (sa_blocking a).
Definition set_version (v : Z) (a : ServiceAttr) : ServiceAttr :=
  MkServiceAttr (sa_logical_name a) (sa_group a) v (sa_max_slice_len a) (sa_blocking a).
Definition set_slice_len (n : Z) (a : ServiceAttr) : ServiceAttr :=
  MkServiceAttr (sa_logical_name a) (sa_group a) (sa_service_version a) (Some n) (sa_blocking a).
Definition set_blocking (a : ServiceAttr) : ServiceAttr :=
  MkServiceAttr (sa_logical_name a) (sa_group a) (sa_service_version a) (sa_max_slice_len a) true.

(** [input.parse::<Token![=]>()?; input.parse::<LitStr>()?]. *)
Definition eq_str (input : list Token) : option (string * list Token) :=
  match input with TEq :: TLitStr s :: rest => Some (s, rest) | _ => None end.

Definition eq_int (input : list Token) : option (Z * list Token) :=
  match input with TEq :: TLitInt n :: rest => Some (n, rest) | _ => None end.

(** One parameter: the attribute it leaves and what remains of the input. *)
Definition parse_parameter (input : list Token) (a : ServiceAttr) : result (ServiceAttr * list Token) SynError :=
  match input with
  | TLitStr name :: rest => Ok (set_logical_name name a, rest)
  | TIdent ident :: rest =>
      if String.eqb ident "blocking" then Ok (set_blocking a, rest)
      else if String.eqb ident "group" then
        match eq_str rest with
        | Some (g, rest') => Ok (set_group g a, rest')
        | None => Err Unexpected
        end
      else if String.eqb ident "version" then
        match eq_int rest with
        | Some (v, rest') => if v <? 2 ^ 16 then Ok (set_version v a, rest') else Err Unexpected
        | None => Err Unexpected
        end
      else if String.eqb ident "max_slice_len" then
        match eq_int rest with
        | Some (n, rest') =>
            if negb (n <? 2 ^ 64) then Err Unexpected
            else if n =? 0 then Err (Message "max_slice_len must be greater than 0")
            else Ok (set_slice_len n a, rest')
        | None => Err Unexpected
        end
      else Err (Message ("unknown parameter `" +:+ ident +:+ "` for #[service]"))
  | _ => Err Unexpected
  end.

(** A round of [while !input.is_empty()]. *)
Definition attr_round (st : list Token * ServiceAttr) : (list Token * ServiceAttr) + result ServiceAttr SynError :=
  let (input, a) := st in
  match input with
  | [] => inr (Ok a)
  | _ =>
      match parse_parameter input a with
      | Err e => inr (Err e)
      | Ok (a', []) => inr (Ok a')
      | Ok (a', TComma :: rest) => inl (rest, a')
      | Ok (_, _) => inr (Err Unexpected)
      end
  end.

Definition parse_attr (input : list Token) : result ServiceAttr SynError :=
  rust_loop attr_round (λ st, length st.1) (λ _, Err Unexpected) (input, attr_default).

Lemma parse_parameter_shrinks input a a' rest :
  parse_parameter input a = Ok (a', rest) → (length rest < length input)%nat.
Proof.
  destruct input as [|[s|n|ident| | |] rest0]; simpl; try done; [intros; simplify_eq; simpl; lia|].
  repeat case_match; intros; simplify_eq; try (simpl; lia);
    repeat match goal with
    | H : eq_str ?r = Some _ |- _ => destruct r as [|[] [|[] ?]]; simpl in H; simplify_eq; simpl; lia
    | H : eq_int ?r = Some _ |- _ => destruct r as [|[] [|[] ?]]; simpl in H; simplify_eq; simpl; lia
    end.
Qed.

Lemma attr_round_decreases st st' : attr_round st = inl st' → (length st'.1 < length st.1)%nat.
Proof.
  destruct st as [input a]. unfold attr_round. destruct input as [|t input]; [done|].
  destruct (parse_parameter (t :: input) a) as [[a' rest]|e] eqn:Hp; [|done].
  apply parse_parameter_shrinks in Hp. destruct rest as [|[] rest]; intros; simplify_eq. simpl in *. lia.
Qed.

(** *** Reading back a list of parameters *)

(** What an author may write. *)
Inductive Param : Type :=
| PName (s : string)
| PGroup (s : string)
| PVersion (v : Z)
| PSliceLen (n : Z)
| PBlocking.

Definition param_tokens (q : Param) : list Token :=
  match q with
  | PName s => [TLitStr s]
  | PGroup s => [TIdent "group"; TEq; TLitStr s]
  | PVersion v => [TIdent "version"; TEq; TLitInt v]
  | PSliceLen n => [TIdent "max_slice_len"; TEq; TLitInt n]
  | PBlocking => [TIdent "blocking"]
  end.

Definition param_ok (q : Param) : Prop :=
  match q with
  | PVersion v => fits 16 v
  | PSliceLen n => 0 < n ∧ fits 64 n
  | _ => True
  end.

Definition apply_param (a : ServiceAttr) (q : Param) : ServiceAttr :=
  match q with
  | PName s => set_logical_name s a
  | PGroup s => set_group s a
  | PVersion v => set_version v a
  | PSliceLen n => set_slice_len n a
  | PBlocking => set_blocking a
  end.

Fixpoint param_list (l : list Param) (trailing : bool) : list Token :=
  match l with
  | [] => []
  | [q] => param_tokens q ++ (if trailing then [TComma] else [])
  | q :: l' => param_tokens q ++ TComma :: param_list l' trailing
  end.

Lemma parse_param q a rest : param_ok q → parse_parameter (param_tokens q ++ rest) a = Ok (apply_param a q, rest).
Proof.
  destruct q as [s|s|v|n|]; simpl; try done.
  - intros [Hlo Hhi]. change (2 ^ 16) with 65536 in *. by rewrite (proj2 (Z.ltb_lt v 65536)) by lia.
  - intros [Hpos [Hlo Hhi]]. rewrite (proj2 (Z.ltb_lt n (2 ^ 64))) by lia.
    by rewrite (proj2 (Z.eqb_neq n 0)) by lia.
Qed.

Lemma parse_list l trailing a : Forall param_ok l →
  rust_loop attr_round (λ st, length st.1) (λ _, Err Unexpected) (param_list l trailing, a) = Ok (fold_left apply_param l a).
Proof.
  intros Hl. revert a. induction Hl as [|q l Hq Hl IH]; intros a;
    (rewrite rust_loop_unfold by apply attr_round_decreases); [done|].
  assert (Hne : ∀ rest, ∃ t ts, param_tokens q ++ rest = t :: ts) by (destruct q; simpl; eauto).
  destruct l as [|q' l].
  - cbn [param_list]. unfold attr_round at 1.
    destruct (Hne (if trailing then [TComma] else [])) as (t & ts & He). rewrite He, <- He, parse_param by done.
    destruct trailing; [|done]. rewrite rust_loop_unfold by apply attr_round_decreases. done.
  - cbn [param_list]. unfold attr_round at 1.
    destruct (Hne (TComma :: param_list (q' :: l) trailing)) as (t & ts & He).
    cbn [param_list] in *. rewrite He, <- He, parse_param by done. apply IH.
Qed.

(** The parameters of a service are read as they are written, in any order and
    with or without a trailing comma, a later one replacing an earlier one. *)
Theorem parse_attr_reads l trailing :
  Forall param_ok l → parse_attr (param_list l trailing) = Ok (fold_left apply_param l attr_default).
Proof. apply parse_list. Qed.

Lemma parse_attr_reads_witness :
  parse_attr [TLitStr "orders"; TComma; TIdent "version"; TEq; TLitInt 2; TComma; TIdent "blocking"; TComma] =
    Ok (MkServiceAttr (Some "orders"%string) None 2 None true).
Proof.
  apply (parse_attr_reads [PName "orders"; PVersion 2; PBlocking] true).
  repeat constructor; simpl; lia.
Defined.

(** ** The types of a signature *)

(** A type of syn: a path whose segments carry their generic arguments
    ([None] when there are no angle brackets), a tuple, or another form. *)
Inductive Ty : Type :=
| TyPath (segments : list (string * option (list GenericArg)))
| TyTuple (elems : list Ty)
| TyOther (text : string)
with GenericArg : Type :=
| GType (ty : Ty)
| GOther (text : string).

Definition unit_ty : Ty := TyTuple [].

Definition is_unit_type (ty : Ty) : bool := match ty with TyTuple [] => true | _ => false end.

(** The generic arguments of the last segment of a path. *)
Definition last_args (ty : Ty) : option (list GenericArg) :=
  match ty with
  | TyPath segments => '(_, args) ← last segments; args
  | _ => None
  end.

Definition extract_first_generic_arg (ty : Ty) : option Ty :=
  match last_args ty with
  | Some (GType inner :: _) => Some inner
  | _ => None
  end.

Definition extract_two_generic_args (ty : Ty) : option (Ty * Ty) :=
  match last_args ty with
  | Some (GType first :: GType second :: _) => Some (first, second)
  | _ => None
  end.

Definition expected_observable : string :=
  "invalid RPC return type: expected `Observable<T, E>`, `Result<Observable<T, E>, _>` or `Result<Event<T, E>, _>`".

Definition expected_success : string :=
  "invalid RPC return type: the success type must be `Observable<T, E>` or `Event<T, E>`".

Definition expected_two : string :=
  "the event type must have exactly two generic parameters: `<T, E>`".

Definition extract_rpc_result_types (ty : Ty) : result (Ty * Ty) SynError :=
  match extract_two_generic_args ty with
  | Some te => Ok te
  | None =>
      match extract_first_generic_arg ty with
      | None => Err (Message expected_observable)
      | Some ok_type =>
          match extract_two_generic_args ok_type with
          | Some te => Ok te
          | None =>
              match extract_first_generic_arg ok_type with
              | None => Err (Message expected_success)
              | Some rpc_event =>
                  match extract_two_generic_args rpc_event with
                  | Some te => Ok te
                  | None => Err (Message expected_two)
                  end
              end
          end
      end
  end.

(** ** The annotated trait *)

(** An argument after the receiver: a named one, or another pattern. *)
Inductive FnArg : Type :=
| ArgIdent (name : string) (ty : Ty)
| ArgPattern.

Record TraitFn : Type := MkTraitFn {
  tf_name : string;
  tf_inputs : list FnArg;
  tf_output : option Ty
}.

Inductive TraitItem : Type :=
| IFn (f : TraitFn)
| IOther.

Record ItemTrait : Type := MkItemTrait {
  it_ident : string;
  it_attrs : list (list string);
  it_supertraits : list string;
  it_items : list TraitItem
}.

Record RpcMethod : Type := MkRpcMethod {
  rm_fn_name : string;
  rm_var_name : string;
  rm_args : list (string * Ty);
  rm_output_type : Ty;
  rm_ok_type : Ty;
  rm_err_type : Ty;
  rm_oneway : bool
}.

Record ServiceModel : Type := MkServiceModel {
  sm_trait_name : string;
  sm_logical_name : string;
  sm_group : string;
  sm_service_version : Z;
  sm_max_slice_len : option Z;
  sm_methods : list RpcMethod
}.

Definition named_args (inputs : list FnArg) : list (string * Ty) :=
  omap (λ a, match a with ArgIdent name ty => Some (name, ty) | ArgPattern => None end) inputs.

Definition unit_answer : string :=
  "`-> ()` is not an RPC return type: remove the return type (`;`) to declare a one-way notification, or return `Observable<(), E>` to answer with no value".

(** The inputs are skipped by one: the receiver. *)
Definition read_method (f : TraitFn) : result RpcMethod SynError :=
  let args := named_args (drop 1 (tf_inputs f)) in
  match tf_output f with
  | Some output =>
      if is_unit_type output then Err (Message unit_answer)
      else
        match extract_rpc_result_types output with
        | Err e => Err e
        | Ok (ok_type, err_type) =>
            Ok (MkRpcMethod (tf_name f) (g_variant_name (tf_name f)) args output ok_type err_type false)
        end
  | None => Ok (MkRpcMethod (tf_name f) (g_variant_name (tf_name f)) args unit_ty unit_ty unit_ty true)
  end.

(** [collect::<Result<Vec<_>, _>>]. *)
Fixpoint read_methods (items : list TraitItem) : result (list RpcMethod) SynError :=
  match items with
  | [] => Ok []
  | IOther :: items' => read_methods items'
  | IFn f :: items' =>
      match read_method f with
      | Err e => Err e
      | Ok m => match read_methods items' with Ok ms => Ok (m :: ms) | Err e => Err e end
      end
  end.

Definition read (attr : ServiceAttr) (t : ItemTrait) : result ServiceModel SynError :=
  let logical_name := default (to_lowercase (it_ident t)) (sa_logical_name attr) in
  match validate_name NService logical_name with
  | Err e => Err e
  | Ok _ =>
      let group := default logical_name (sa_group attr) in
      match validate_name NGroup group with
      | Err e => Err e
      | Ok _ =>
          match read_methods (it_items t) with
          | Err e => Err e
          | Ok methods =>
              Ok (MkServiceModel (it_ident t) logical_name group (sa_service_version attr)
                    (sa_max_slice_len attr) methods)
          end
      end
  end.

(** [index as u8]. *)
Definition numbered_methods (m : ServiceModel) : list (Z * RpcMethod) :=
  imap (λ i method, (wrap 8 (Z.of_nat i), method)) (sm_methods m).

(** ** What is accepted

    The rules a service has to meet, written down without the functions that
    check them. *)

Definition letter_or_digit (c : Z) : Prop := 48 ≤ c ≤ 57 ∨ 65 ≤ c ≤ 90 ∨ 97 ≤ c ≤ 122.

(** At most 64 characters, letters, digits, [_] and [-], the first, if there is one, a letter
    or a digit. *)
Definition valid_name (name : string) : Prop :=
  Z.of_nat (length (as_bytes name)) ≤ 64 ∧
  Forall (λ c, letter_or_digit c ∨ c = 95 ∨ c = 45) (as_bytes name) ∧
  (name = ""%string ∨ ∃ c cs, as_bytes name = c :: cs ∧ letter_or_digit c).

Definition lowered (name : string) : string :=
  of_bytes (map (λ c, if decide (65 ≤ c ≤ 90) then c + 32 else c) (as_bytes name)).

(** The words between the underscores, each with its first letter raised. *)
Definition capitalized (word : bytes) : bytes :=
  match word with c :: cs => (if decide (97 ≤ c ≤ 122) then c - 32 else c) :: cs | [] => [] end.

Definition pascal_case (name : string) : string := of_bytes (mjoin (map capitalized (split 95 (as_bytes name)))).

(** The arguments behind the receiver that have a name. *)
Inductive args_of : list FnArg → list (string * Ty) → Prop :=
| args_nil : args_of [] []
| args_ident name ty inputs args : args_of inputs args → args_of (ArgIdent name ty :: inputs) ((name, ty) :: args)
| args_pattern inputs args : args_of inputs args → args_of (ArgPattern :: inputs) args.

(** A type with two type parameters or more, and one with a single one. *)
Definition two_params (ty t e : Ty) : Prop :=
  ∃ path name more, ty = TyPath (path ++ [(name, Some (GType t :: GType e :: more))]).

Definition one_param (ty inner : Ty) : Prop :=
  ∃ path name more, ty = TyPath (path ++ [(name, Some (GType inner :: more))]) ∧ ∀ t more', more ≠ GType t :: more'.

(** The types of an answer are the first two parameters of the outermost type that has
    two, at most two levels down. *)
Definition answer_types (ty t e : Ty) : Prop :=
  two_params ty t e ∨ ∃ inner, one_param ty inner ∧
    (two_params inner t e ∨ ∃ event, one_param inner event ∧ two_params event t e).

(** The method of a function that is accepted. *)
Definition method_of (f : TraitFn) (m : RpcMethod) : Prop :=
  rm_fn_name m = tf_name f ∧ rm_var_name m = pascal_case (tf_name f) ∧
  args_of (tail (tf_inputs f)) (rm_args m) ∧
  match tf_output f with
  | None => rm_oneway m = true ∧ rm_output_type m = TyTuple [] ∧ rm_ok_type m = TyTuple [] ∧ rm_err_type m = TyTuple []
  | Some output =>
      rm_oneway m = false ∧ output ≠ TyTuple [] ∧ rm_output_type m = output ∧ answer_types output (rm_ok_type m) (rm_err_type m)
  end.

Definition trait_fns (items : list TraitItem) : list TraitFn :=
  omap (λ i, match i with IFn f => Some f | IOther => None end) items.

Definition well_formed (attr : ServiceAttr) (t : ItemTrait) (m : ServiceModel) : Prop :=
  sm_trait_name m = it_ident t ∧
  sm_logical_name m = (match sa_logical_name attr with Some name => name | None => lowered (it_ident t) end) ∧
  sm_group m = (match sa_group attr with Some group => group | None => sm_logical_name m end) ∧
  valid_name (sm_logical_name m) ∧ valid_name (sm_group m) ∧
  sm_service_version m = sa_service_version attr ∧ sm_max_slice_len m = sa_max_slice_len attr ∧
  Forall2 method_of (trait_fns (it_items t)) (sm_methods m).

Lemma ascii_alnum_spec c : ascii_alnum c = true ↔ letter_or_digit c.
Proof. unfold ascii_alnum, letter_or_digit, in_range. rewrite !orb_true_iff, !andb_true_iff, !Z.leb_le. tauto. Qed.

Lemma name_char_spec c : name_char c = true ↔ letter_or_digit c ∨ c = 95 ∨ c = 45.
Proof. unfold name_char. rewrite !orb_true_iff, ascii_alnum_spec, !Z.eqb_eq. tauto. Qed.

Lemma as_bytes_nil name : as_bytes name = [] → name = ""%string.
Proof. by destruct name. Qed.

Lemma validate_name_spec kind name : is_ok (validate_name kind name) = true ↔ valid_name name.
Proof.
  unfold validate_name, valid_name, name_max_len, SERVICE_NAME_LEN.
  destruct (64 <? Z.of_nat (length (as_bytes name))) eqn:Hlen.
  { apply Z.ltb_lt in Hlen. simpl. split; [done|]. intros (Hle & _). lia. }
  apply Z.ltb_ge in Hlen.
  assert (Hall : forallb name_char (as_bytes name) = true ↔ Forall (λ c, letter_or_digit c ∨ c = 95 ∨ c = 45) (as_bytes name)).
  { rewrite forallb_forall, Forall_forall. split; intros Hc c Hin; apply name_char_spec, Hc; by apply list_elem_of_In. }
  destruct (forallb name_char (as_bytes name)) eqn:Hf; cbn [negb].
  2:{ split; [done|]. intros (_ & Hn%Hall & _). congruence. }
  destruct (as_bytes name) as [|c cs] eqn:Hn.
  - split; [|done]. intros _. split_and!; [done|by constructor|left; by apply as_bytes_nil].
  - pose proof (ascii_alnum_spec c) as Hc. destruct (ascii_alnum c); simpl.
    + split; [|done]. intros _. split_and!; [done|by apply Hall|right; exists c, cs; split; [done|by apply Hc]].
    + split; [done|]. intros (_ & _ & [->|(c' & cs' & [= <- <-] & Hl%Hc)]); [by vm_compute in Hn|done].
Qed.

Lemma lowered_spec name : to_lowercase name = lowered name.
Proof.
  unfold to_lowercase, lowered. f_equal. apply map_ext. intros c. unfold ascii_lower, in_range.
  case_decide as Hc; destruct (65 <=? c) eqn:H1, (c <=? 90) eqn:H2; simpl; try done; lia.
Qed.

Lemma variant_chars_words cs :
  variant_chars true cs = mjoin (map capitalized (split 95 cs)) ∧
  variant_chars false cs = default [] (head (split 95 cs)) ++ mjoin (map capitalized (tail (split 95 cs))).
Proof.
  induction cs as [|c cs [IHt IHf]]; [done|]. simpl. rewrite Z.eqb_sym. destruct (95 =? c) eqn:Hc; simpl.
  - split; [by rewrite IHt|]. by rewrite IHt.
  - destruct (split 95 cs) as [|w ws] eqn:Hs; [by apply split_not_nil in Hs|]. simpl in *. rewrite IHf. split; [|done].
    unfold ascii_upper, in_range. case_decide as Hr; destruct (97 <=? c) eqn:H1, (c <=? 122) eqn:H2; simpl; try done; lia.
Qed.

Lemma named_args_spec inputs args : args_of inputs args ↔ named_args inputs = args.
Proof.
  split.
  - induction 1 as [|name ty inputs args _ IH|inputs args _ IH]; [done| |exact IH].
    change (named_args (ArgIdent name ty :: inputs)) with ((name, ty) :: named_args inputs). by rewrite IH.
  - intros <-. induction inputs as [|[name ty|] inputs IH]; simpl; by constructor.
Qed.
(** *** The types of an answer *)

Lemma last_args_spec ty args :
  last_args ty = Some args ↔ ∃ path name, ty = TyPath (path ++ [(name, Some args)]).
Proof.
  split.
  - destruct ty as [segments| |]; simpl; [|done|done]. destruct segments as [|[name a] path _] using rev_ind; [done|].
    rewrite last_snoc. simpl. intros ->. by exists path, name.
  - intros (path & name & ->). simpl. by rewrite last_snoc.
Qed.

Lemma two_params_spec ty t e : extract_two_generic_args ty = Some (t, e) ↔ two_params ty t e.
Proof.
  unfold extract_two_generic_args, two_params. split.
  - destruct (last_args ty) as [[|[t'|] [|[e'|] more]]|] eqn:Hl; intros Heq; simplify_eq.
    apply last_args_spec in Hl as (path & name & ->). by exists path, name, more.
  - intros (path & name & more & ->). by rewrite (proj2 (last_args_spec _ (GType t :: GType e :: more))) by eauto.
Qed.

Lemma one_param_spec ty inner :
  extract_two_generic_args ty = None ∧ extract_first_generic_arg ty = Some inner ↔ one_param ty inner.
Proof.
  unfold extract_two_generic_args, extract_first_generic_arg, one_param. split.
  - intros [H2 H1]. destruct (last_args ty) as [[|[t'|] more]|] eqn:Hl; simplify_eq.
    apply last_args_spec in Hl as (path & name & ->). exists path, name, more. split; [done|].
    intros t more' ->. done.
  - intros (path & name & more & -> & Hmore). rewrite (proj2 (last_args_spec _ (GType inner :: more))) by eauto.
    destruct more as [|[t'|] more]; [done| |done]. by destruct (Hmore t' more).
Qed.

Lemma one_not_two ty inner t e : one_param ty inner → ¬ two_params ty t e.
Proof. intros [H2 _]%one_param_spec H%two_params_spec. congruence. Qed.

Lemma one_param_unique ty i1 i2 : one_param ty i1 → one_param ty i2 → i1 = i2.
Proof. intros [_ H1]%one_param_spec [_ H2]%one_param_spec. congruence. Qed.

Lemma answer_types_spec ty t e : extract_rpc_result_types ty = Ok (t, e) ↔ answer_types ty t e.
Proof.
  unfold extract_rpc_result_types, answer_types. pose proof (two_params_spec ty) as H2. pose proof (one_param_spec ty) as H1.
  destruct (extract_two_generic_args ty) as [[t0 e0]|].
  { rewrite <- H2. split; [intros [= -> ->]; by left|]. intros [[= -> ->]|(inner & [? _]%H1 & _)]; done. }
  destruct (extract_first_generic_arg ty) as [inner|].
  2:{ split; [done|]. intros [?%H2|(inner & [_ ?]%H1 & _)]; done. }
  assert (Hin : one_param ty inner) by (by apply H1).
  assert (Hdown : answer_types ty t e ↔ two_params inner t e ∨ ∃ event, one_param inner event ∧ two_params event t e).
  { unfold answer_types. split; [|eauto]. intros [?%(one_not_two _ _ _ _ Hin)|(inner' & Hin' & Hrest)]; [done|].
    by rewrite (one_param_unique _ _ _ Hin Hin'). }
  unfold answer_types in Hdown. rewrite Hdown. clear H1 H2 Hdown.
  pose proof (two_params_spec inner) as H2. pose proof (one_param_spec inner) as H1.
  destruct (extract_two_generic_args inner) as [[t0 e0]|].
  { rewrite <- H2. split; [intros [= -> ->]; by left|]. intros [[= -> ->]|(event & [? _]%H1 & _)]; done. }
  destruct (extract_first_generic_arg inner) as [event|].
  2:{ split; [done|]. intros [?%H2|(event & [_ ?]%H1 & _)]; done. }
  assert (Hev : one_param inner event) by (by apply H1).
  pose proof (two_params_spec event t e) as He. destruct (extract_two_generic_args event) as [[t0 e0]|]; split.
  - intros [= -> ->]. right. exists event. split; [done|]. by apply He.
  - intros [?%H2|(event' & Hev' & Ht)]; [done|]. rewrite <- (one_param_unique _ _ _ Hev Hev') in Ht. apply He in Ht. congruence.
  - done.
  - intros [?%H2|(event' & Hev' & Ht)]; [done|]. rewrite <- (one_param_unique _ _ _ Hev Hev') in Ht. by apply He in Ht.
Qed.

(** *** The methods and the model *)

Lemma is_unit_type_spec ty : is_unit_type ty = true ↔ ty = unit_ty.
Proof. destruct ty as [|[|]|]; simpl; split; try done; by intros [=]. Qed.

Lemma read_method_spec f m : read_method f = Ok m ↔ method_of f m.
Proof.
  unfold read_method, method_of. assert (Hv : g_variant_name (tf_name f) = pascal_case (tf_name f)).
  { unfold g_variant_name, pascal_case. f_equal. apply variant_chars_words. }
  assert (Htail : tail (tf_inputs f) = drop 1 (tf_inputs f)) by (by destruct (tf_inputs f)).
  rewrite Hv, Htail, named_args_spec. destruct m as [fn var args out t e one]. simpl.
  destruct (tf_output f) as [output|].
  - pose proof (is_unit_type_spec output) as Hu. destruct (is_unit_type output).
    { split; [done|]. intros (_ & _ & _ & _ & Hne & _). destruct Hne. by apply Hu. }
    assert (Hne : output ≠ TyTuple []) by (intros ?%Hu; done). pose proof (answer_types_spec output) as Ha.
    destruct (extract_rpc_result_types output) as [[t' e']|].
    + split; [intros [= <- <- <- <- <- <- <-]; split_and!; try done; by apply Ha|].
      intros (-> & -> & <- & -> & _ & -> & Hans%Ha). by simplify_eq.
    + split; [done|]. intros (_ & _ & _ & _ & _ & _ & Hans%Ha). done.
  - split; [by intros [= <- <- <- <- <- <- <-]|]. by intros (-> & -> & <- & -> & -> & -> & ->).
Qed.

Lemma read_methods_spec items ms : read_methods items = Ok ms ↔ Forall2 method_of (trait_fns items) ms.
Proof.
  revert ms. induction items as [|[f|] items IH]; intros ms; simpl; [|..].
  - split; [intros [= <-]; constructor|]. by intros ->%Forall2_nil_inv_l.
  - change (trait_fns (IFn f :: items)) with (f :: trait_fns items). split.
    + destruct (read_method f) as [m|e] eqn:Hm; [|done]. destruct (read_methods items) as [ms'|e]; [|done].
      intros [= <-]. constructor; [by apply read_method_spec|by apply IH].
    + intros (m & ms' & Hm%read_method_spec & Hms%IH & ->)%Forall2_cons_inv_l. by rewrite Hm, Hms.
  - apply IH.
Qed.

Lemma read_spec attr t m : read attr t = Ok m ↔ well_formed attr t m.
Proof.
  unfold read, well_formed. rewrite lowered_spec. destruct m as [trait name group version len ms]. simpl.
  set (n := match sa_logical_name attr with Some s => s | None => lowered (it_ident t) end).
  assert (Hn : default (lowered (it_ident t)) (sa_logical_name attr) = n) by (by destruct (sa_logical_name attr)).
  rewrite Hn. pose proof (validate_name_spec NService n) as H1. destruct (validate_name NService n).
  2:{ split; [done|]. intros (_ & -> & _ & ?%H1 & _). done. }
  set (g := match sa_group attr with Some s => s | None => n end).
  assert (Hg : default n (sa_group attr) = g) by (by destruct (sa_group attr)).
  rewrite Hg. pose proof (validate_name_spec NGroup g) as H2. destruct (validate_name NGroup g).
  2:{ split; [done|]. intros (_ & -> & -> & _ & ?%H2 & _). done. }
  pose proof (read_methods_spec (it_items t)) as H3. destruct (read_methods (it_items t)) as [ms'|e]; split.
  - intros [= <- <- <- <- <- <-]. split_and!; try done; [by apply H1|by apply H2|by apply H3].
  - intros (-> & -> & -> & _ & _ & -> & -> & Hms%H3). by simplify_eq.
  - done.
  - by intros (_ & _ & _ & _ & _ & _ & _ & Hms%H3).
Qed.

(** The discriminants are distinct as long as a byte has room for them. *)
Lemma numbered_distinct m : (length (sm_methods m) ≤ 256)%nat → NoDup (map fst (numbered_methods m)).
Proof.
  intros Hlen. unfold numbered_methods. apply NoDup_alt. intros i j x. rewrite !list_lookup_fmap, !list_lookup_imap.
  destruct (sm_methods m !! i) as [mi|] eqn:Hi, (sm_methods m !! j) as [mj|] eqn:Hj; simpl; try done. intros [= <-] [= Heq].
  apply lookup_lt_Some in Hi, Hj. rewrite !wrap_small in Heq by (split; lia). lia.
Qed.


(** A trait with a method, a notification and a constant. *)
Definition example_trait : ItemTrait :=
  MkItemTrait "Orders" [] []
    [IFn (MkTraitFn "get_order" [ArgPattern; ArgIdent "id" (TyOther "u64")]
            (Some (TyPath [("Observable"%string, Some [GType (TyOther "Order"); GType (TyOther "Failure")])])));
     IOther; IFn (MkTraitFn "touch" [ArgPattern] None)].


(** An observable inside a [Result] is not looked into, and any type with two parameters will do. *)
Example result_of_observable :
  let observable := TyPath [("Observable"%string, Some [GType (TyOther "T"); GType (TyOther "E")])] in
  extract_rpc_result_types (TyPath [("Result"%string, Some [GType observable; GType (TyOther "X")])]) = Ok (observable, TyOther "X").
Proof. reflexivity. Qed.

(** ** The requirements of the trait ([inject_trait_requirements]) *)

Definition ASYNC_TRAIT : list string := ["ice_rpc"; "codegen"; "async_trait"; "async_trait"]%string.

(** The bounds that were present before are compared, as rendered. *)
Definition inject_trait_requirements (t : ItemTrait) : ItemTrait :=
  let already_annotated := existsb (λ path, bool_decide (last path = Some "async_trait"%string)) (it_attrs t) in
  MkItemTrait (it_ident t)
    (if already_annotated then it_attrs t else it_attrs t ++ [ASYNC_TRAIT])
    (it_supertraits t ++
       filter (λ required, existsb (String.eqb required) (it_supertraits t) = false) ["Send"; "Sync"; "'static"]%string)
    (it_items t).

Lemma filter_nothing {A} (P : A → Prop) `{!∀ x, Decision (P x)} (l : list A) :
  (∀ x, x ∈ l → ¬ P x) → filter P l = [].
Proof.
  induction l as [|x l IH]; intros Hno; [done|]. rewrite filter_cons_False by (apply Hno; left).
  apply IH. intros y Hy. apply Hno. by right.
Qed.

(** Injecting twice is injecting once. *)
Lemma inject_idempotent t :
  inject_trait_requirements (inject_trait_requirements t) = inject_trait_requirements t.
Proof.
  unfold inject_trait_requirements. destruct t as [ident attrs bounds items]. simpl. f_equal.
  - set (ann := λ path, bool_decide (last path = Some "async_trait"%string)).
    destruct (existsb ann attrs) eqn:Ha; [by rewrite Ha|].
    rewrite existsb_app. simpl. by rewrite orb_true_r.
  - set (req := filter _ ["Send"; "Sync"; "'static"]%string).
    rewrite filter_nothing; [by rewrite app_nil_r|].
    intros x Hx. rewrite not_false_iff_true, existsb_app, orb_true_iff.
    destruct (existsb (String.eqb x) bounds) eqn:Hb; [by left|right].
    apply existsb_exists. exists x. split; [|apply String.eqb_refl].
    apply list_elem_of_In, list_elem_of_filter. done.
Qed.

(** [expand_service_with], up to the generators: the first refusal is the expansion. *)
Definition expand_service (attr : list Token) (t : ItemTrait) : result (ItemTrait * ServiceModel) SynError :=
  match parse_attr attr with
  | Err e => Err e
  | Ok service_attr =>
      let t := inject_trait_requirements t in
      match read service_attr t with
      | Err e => Err e
      | Ok model => Ok (t, model)
      end
  end.

(** ** [#[payload]] *)

Record PayloadOptions : Type := MkPayloadOptions { po_no_debug : bool; po_display : bool; po_no_serde : bool }.

Definition payload_parameter (input : list Token) (o : PayloadOptions) : result (PayloadOptions * list Token) SynError :=
  match input with
  | TIdent ident :: rest =>
      if String.eqb ident "no_debug" then Ok (MkPayloadOptions true (po_display o) (po_no_serde o), rest)
      else if String.eqb ident "display" then Ok (MkPayloadOptions (po_no_debug o) true (po_no_serde o), rest)
      else if String.eqb ident "no_serde" then Ok (MkPayloadOptions (po_no_debug o) (po_display o) true, rest)
      else Err (Message ("unknown parameter `" +:+ ident +:+ "` for #[ice_rpc::payload]"))
  | _ => Err Unexpected
  end.

Definition payload_round (st : list Token * PayloadOptions) : (list Token * PayloadOptions) + result PayloadOptions SynError :=
  let (input, o) := st in
  match input with
  | [] => inr (Ok o)
  | _ =>
      match payload_parameter input o with
      | Err e => inr (Err e)
      | Ok (o', []) => inr (Ok o')
      | Ok (o', TComma :: rest) => inl (rest, o')
      | Ok (_, _) => inr (Err Unexpected)
      end
  end.

Definition parse_options (input : list Token) : result PayloadOptions SynError :=
  rust_loop payload_round (λ st, length st.1) (λ _, Err Unexpected) (input, MkPayloadOptions false false false).

(** An attribute of the item: a derivation with its paths, an rkyv attribute with
    its keys, or another. A key of rkyv is a path, with what follows it: nothing,
    a value, or arguments. *)
Inductive KeyTail : Type := NoTail | ValueTail | ArgsTail.

Global Instance key_tail_eq_dec : EqDecision KeyTail.
Proof. solve_decision. Defined.

Inductive Attribute : Type :=
| ADerive (paths : list (list string))
| ARkyv (keys : list (list string * KeyTail))
| AOther.

Inductive ItemKind : Type := KStruct | KEnum | KOther.

Record Item : Type := MkItem { im_kind : ItemKind; im_attrs : list Attribute }.

Definition derives_trait (attrs : list Attribute) (name : string) : bool :=
  existsb (λ a, match a with
                | ADerive paths => existsb (λ path, bool_decide (last path = Some name)) paths
                | _ => false
                end) attrs.

(** The keys the walk over the nested metas meets: it stops with an error behind
    a key whose value or arguments the callback does not consume, and the callback
    consumes the value of [crate] only. *)
Fixpoint keys_met (keys : list (list string * KeyTail)) : list (list string) :=
  match keys with
  | [] => []
  | (path, tail) :: rest =>
      path :: (if bool_decide (tail = NoTail) || (bool_decide (path = ["crate"%string]) && bool_decide (tail = ValueTail))
               then keys_met rest else [])
  end.

Definition is_rkyv_crate_attr (a : Attribute) : bool :=
  match a with
  | ARkyv keys => existsb (λ path, bool_decide (path = ["crate"%string])) (keys_met keys)
  | _ => false
  end.

Record Expansion : Type := MkExpansion {
  ex_derives : list (list string);
  ex_serde_crate : bool;
  ex_display : bool
}.

Definition RKYV (name : string) : list string := ["ice_rpc"; "codegen"; "rkyv"; name]%string.
Definition SERDE (name : string) : list string := ["ice_rpc"; "codegen"; "serde"; name]%string.

Definition payload_refused_kind : string := "#[ice_rpc::payload] may only be applied to a struct or an enum".
Definition payload_refused_crate : string :=
  "#[ice_rpc::payload] already sets `#[rkyv(crate = ..)]`; remove the one written on the item".
Definition payload_refused_pair : string :=
  "#[ice_rpc::payload] cannot combine `display` with `no_debug`: the generated `Display` renders through `Debug`".

Definition payload_debug (o : PayloadOptions) (item : Item) : list (list string) :=
  if po_no_debug o || derives_trait (im_attrs item) "Debug" then [] else [["Debug"%string]].

Definition add_serde (o : PayloadOptions) (item : Item) (json : bool) : bool :=
  json && negb (po_no_serde o) && negb (derives_trait (im_attrs item) "Serialize")
    && negb (derives_trait (im_attrs item) "Deserialize").

(** [expand_payload]; [json] is the feature of the build. *)
Definition expand_payload (attr : list Token) (item : Item) (json : bool) : result Expansion SynError :=
  match parse_options attr with
  | Err e => Err e
  | Ok o =>
      match im_kind item with
      | KOther => Err (Message payload_refused_kind)
      | KStruct | KEnum =>
          if existsb is_rkyv_crate_attr (im_attrs item) then Err (Message payload_refused_crate)
          else if po_display o && po_no_debug o then Err (Message payload_refused_pair)
          else
            let serde := if add_serde o item json then [SERDE "Serialize"; SERDE "Deserialize"] else [] in
            Ok (MkExpansion ([RKYV "Archive"; RKYV "Deserialize"; RKYV "Serialize"] ++ serde ++ payload_debug o item)
                  (add_serde o item json) (po_display o))
      end
  end.

Lemma expand_payload_spec attr item json ex :
  expand_payload attr item json = Ok ex →
  ∃ o, parse_options attr = Ok o ∧ po_display o && po_no_debug o = false ∧
    ex = MkExpansion ([RKYV "Archive"; RKYV "Deserialize"; RKYV "Serialize"]
                        ++ (if add_serde o item json then [SERDE "Serialize"; SERDE "Deserialize"] else [])
                        ++ payload_debug o item) (add_serde o item json) (po_display o).
Proof.
  unfold expand_payload. destruct (parse_options attr) as [o|]; [|done]. intros H. exists o.
  destruct (im_kind item), (existsb is_rkyv_crate_attr (im_attrs item)), (po_display o && po_no_debug o); try done;
    injection H as <-; by split_and!.
Qed.

Lemma elem_of_derives o item (serde : bool) path :
  path ∈ [RKYV "Archive"; RKYV "Deserialize"; RKYV "Serialize"]
           ++ (if serde then [SERDE "Serialize"; SERDE "Deserialize"] else []) ++ payload_debug o item ↔
  path ∈ [RKYV "Archive"; RKYV "Deserialize"; RKYV "Serialize"] ∨
  (serde = true ∧ (path = SERDE "Serialize" ∨ path = SERDE "Deserialize")) ∨
  (po_no_debug o || derives_trait (im_attrs item) "Debug" = false ∧ path = ["Debug"%string]).
Proof.
  rewrite !elem_of_app. unfold payload_debug.
  destruct serde, (po_no_debug o || derives_trait (im_attrs item) "Debug"); set_solver.
Qed.

(** A payload never gets [Debug] or a trait of serde twice, always gets the
    derivations of rkyv, and a generated [Display] always has a [Debug] to render
    through. *)
Lemma payload_derives_once attr item json ex :
  expand_payload attr item json = Ok ex →
  (derives_trait (im_attrs item) "Debug" = true → ["Debug"%string] ∉ ex_derives ex) ∧
  (∀ name, derives_trait (im_attrs item) name = true → SERDE name ∉ ex_derives ex) ∧
  (ex_display ex = true →
     derives_trait (im_attrs item) "Debug" = true ∨ ["Debug"%string] ∈ ex_derives ex) ∧
  NoDup (ex_derives ex).
Proof.
  intros (o & _ & Hpair & ->)%expand_payload_spec. cbn [ex_derives ex_display]. split_and!.
  - intros Hd. rewrite elem_of_derives, Hd, orb_true_r. intros [H|[[_ [H|H]]|[H _]]]; try done.
    rewrite !elem_of_cons, elem_of_nil in H. by destruct H as [|[|[|]]].
  - intros name Hd. rewrite elem_of_derives. unfold add_serde. intros [H|[[Ha H]|[_ H]]]; [|apply andb_true_iff in Ha as [Ha Hde]; apply andb_true_iff in Ha as [_ Hs]|done].
    + rewrite !elem_of_cons, elem_of_nil in H. by destruct H as [|[|[|]]].
    + destruct H as [[= ->]|[= ->]]; [by rewrite Hd in Hs|by rewrite Hd in Hde].
  - intros Hdisp. rewrite Hdisp in Hpair. simpl in Hpair. rewrite elem_of_derives, Hpair.
    simpl. destruct (derives_trait (im_attrs item) "Debug"); [by left|]. right. right. by right.
  - unfold payload_debug. destruct (add_serde o item json), (po_no_debug o || derives_trait (im_attrs item) "Debug");
      by apply (bool_decide_unpack _).
Qed.

(** A crate written behind a key with arguments is not seen, and the item gets
    the attribute twice. *)
Definition hidden_crate : Item :=
  MkItem KStruct [ARkyv [(["derive"%string], ArgsTail); (["crate"%string], ValueTail)]].

Lemma hidden_crate_accepted : is_ok (expand_payload [] hidden_crate false) = true.
Proof. reflexivity. Qed.
