(* ===== verification/Generated.v ===== *)
(** * The code a service expands to ([ice-rpc-macros/src/codegen/], [transport/client.rs])

    The client, the dispatcher, the proxy and the lifecycle that [#[service]]
    writes for a trait, as functions of the model the macro read ([Macro.v]).  A
    request is the discriminant of its method and its arguments; what rkyv does
    with one is the class [RequestCodec].  The implementation of the trait is the
    class [ServiceImpl]: a future per call, whose value is the observable. *)

From S2P Require Import Prelude MachineInt Text Event Header Context Wire Cancel Stream Bridge Publish Notify Client Server System Registry Locator Parse Macro.

Local Open Scope Z_scope.

(** ** Requests *)

(** A value of the request enum. *)
Record Request (V : Type) : Type := MkRequest { rq_variant : Z; rq_args : list V }.
Arguments MkRequest {V} _ _.
Arguments rq_variant {V} _.
Arguments rq_args {V} _.

Class RequestCodec (V : Type) : Type := {
  archive : Request V → option bytes;
  decode_aligned : bytes → option (Request V)
}.

Class RequestCodecLaws (V : Type) `{RequestCodec V} : Prop :=
  decode_archive r bs : archive r = Some bs → decode_aligned bs = Some r.

(** The buffer of a thread, [None] while a call has it. *)
Abbreviation Scratch := (option bytes).

Section scratch.
Context {V : Type} `{RequestCodec V}.
(** What the [Serialize] of a value may do to the cell: a call of its own. *)
Context (nested : Scratch → Scratch).

(** [to_bytes_in] writes behind what the buffer holds. *)
Definition to_bytes_in (r : Request V) (buffer : bytes) : option bytes := (λ bs, buffer ++ bs) <$> archive r.

(** The buffer is taken and cleared, and the request archived into it. *)
Definition scratch_bytes (r : Request V) (cell : Scratch) : result bytes RpcError * Scratch :=
  let buffer := default [] cell in
  match to_bytes_in r (take 0 buffer) with
  | Some bs => (Ok bs, nested None)
  | None => (Err SerializationError, nested None)
  end.

(** Whatever the buffer held, the bytes are those of the request. *)
Lemma scratch_bytes_spec r cell :
  scratch_bytes r cell =
    (match archive r with Some bs => Ok bs | None => Err SerializationError end, nested None).
Proof. unfold scratch_bytes, to_bytes_in. rewrite take_0. by destruct (archive r). Qed.
End scratch.

(** ** The client *)

Section client.
Context {C : Type → Type} `{AsyncChannel C} {P T E : Type} `{Stream P (Event T E)} `{Codec T E}.
Context {W : Type} `{Bus W} {V : Type} `{RequestCodec V}.
Context (nested : Scratch → Scratch).

Abbreviation ports := (ConsumerPorts (C:=C) (P:=P) (T:=T) (E:=E) (W:=W)).

(** [st] holds the ports of the channel. *)
Definition serialize_and_call {M} `{MethodId M} (base : Z) (th : Thread) (service : ServiceRef) (method : M)
    (request : Request V) (timeout : Z) (p : Proc) (st : ports) (cell : Scratch)
    : result nat RpcError * Proc * ports * Scratch :=
  let (encoded, cell) := scratch_bytes nested request cell in
  match encoded with
  | Err e => (Err e, p, st, cell)
  | Ok bs =>
      let '(call, p, st) := native_call base th service method bs timeout p st in
      (call, p, st, Some bs)
  end.

Definition serialize_and_send_one_way {M} `{MethodId M} (base : Z) (th : Thread) (service : ServiceRef) (method : M)
    (request : Request V) (p : Proc) (st : ports) (cell : Scratch)
    : result bool RpcError * Proc * ports * Scratch :=
  let (encoded, cell) := scratch_bytes nested request cell in
  match encoded with
  | Err e => (Err e, p, st, cell)
  | Ok bs =>
      let '(sent, p, st) := send_one_way base th service method bs p st in
      (sent, p, st, Some bs)
  end.

(** The observable a client hands out: the stream of a call, or the one of a
    technical error ([unwrap_or_else(Observable::from_technical_error)]). *)
Inductive ClientStream : Type := CallStream (slot : nat) | ErrorStream (e : RpcError).

(** The identity of the contract: [Proxy::SERVICE]. *)
Definition SERVICE (model : ServiceModel) : ServiceRef :=
  MkServiceRef (service_id_of (sm_logical_name model)) (sm_service_version model).

(** The method of a client, and its blocking twin. *)
Definition client_method (base : Z) (th : Thread) (model : ServiceModel) (m : Z * RpcMethod) (args : list V)
    (timeout : Z) (p : Proc) (st : ports) (cell : Scratch) : ClientStream * Proc * ports * Scratch :=
  let '(call, p, st, cell) :=
    serialize_and_call base th (SERVICE model) (method_id_of (rm_fn_name m.2)) (MkRequest m.1 args) timeout p st cell in
  (match call with Ok slot => CallStream slot | Err e => ErrorStream e end, p, st, cell).

Definition client_oneway_method (base : Z) (th : Thread) (model : ServiceModel) (m : Z * RpcMethod) (args : list V)
    (p : Proc) (st : ports) (cell : Scratch) : result bool RpcError * Proc * ports * Scratch :=
  serialize_and_send_one_way base th (SERVICE model) (method_id_of (rm_fn_name m.2)) (MkRequest m.1 args) p st cell.

(** The connection is made by the first call. *)
Definition client_init : bool := true.
End client.
Arguments ClientStream : clear implicits.

(** ** The implementation *)

(** The future of a call of the method [name], polled on a thread whose ambient
    context it may read; the value of a one-way method is not read. *)
Class ServiceImpl (I Fut Src V : Type) : Type := {
  impl_call : I → string → list V → Fut;
  fut_poll : Fut → Thread → poll Src * Fut
}.

(** ** The server *)

Section server.
Context {I Fut Src V T E : Type} `{ServiceImpl I Fut Src V} `{Sized Src (Event T E)} `{Codec T E} `{RequestCodec V}.

(** The state of a task: the body of the generated [async] block. *)
Inductive GenState : Type :=
| Finished
| Calling (ctx : CallContext) (fut : Fut)
| Relaying (ctx : CallContext) (stream : WireFolding (S:=Src) (T:=T) (E:=E))
| Notifying (ctx : CallContext) (fut : Fut).

Record GenTask : Type := MkGenTask { gt_state : GenState; gt_request : RpcHeader }.

Section handler.
Context {M : Type} `{ResponseEmitter M}.

Definition relay_poll (ctx : CallContext) (stream : WireFolding (S:=Src) (T:=T) (E:=E)) (emitter : M)
    : poll () * GenState * M :=
  let '(r, (stream, emitter)) := observable_to_responses (stream, emitter) in (r, Relaying ctx stream, emitter).

(** A poll of the block, in the scope of its context ([call_scoped]). *)
Definition gen_poll (s : GenState) (th : Thread) (emitter : M) : poll () * GenState * M :=
  match s with
  | Finished => (Ready (), Finished, emitter)
  | Calling ctx fut =>
      match fut_poll fut (enter_ambient ctx th).2 with
      | (Pending, fut) => (Pending, Calling ctx fut, emitter)
      | (Ready src, _) => relay_poll ctx (wire_folding_new src) emitter
      end
  | Relaying ctx stream => relay_poll ctx stream emitter
  | Notifying ctx fut =>
      match fut_poll fut (enter_ambient ctx th).2 with
      | (Pending, fut) => (Pending, Notifying ctx fut, emitter)
      | (Ready _, _) => (Ready (), Finished, emitter)
      end
  end.

(** The handler of a method; [p] numbers the span of the context. *)
Definition native_method (p : Proc) (service_impl : I) (name : string) (m : Z * RpcMethod) : MethodHandler GenTask M :=
  λ header payload emitter,
    let ctx := (call_context_new header name (rm_fn_name m.2) p).1 in
    match decode_aligned payload with
    | Some request =>
        if rq_variant request =? m.1 then
          (MkGenTask (Calling ctx (impl_call service_impl (rm_fn_name m.2) (rq_args request))) header, emitter)
        else (MkGenTask Finished header, reject_undecodable (T:=T) (E:=E) emitter)
    | None => (MkGenTask Finished header, reject_undecodable (T:=T) (E:=E) emitter)
    end.

Definition native_oneway_method (p : Proc) (service_impl : I) (name : string) (m : Z * RpcMethod)
    : MethodHandler GenTask M :=
  λ header payload emitter,
    let ctx := (call_context_new header name (rm_fn_name m.2) p).1 in
    match decode_aligned payload with
    | Some request =>
        if rq_variant request =? m.1 then
          (MkGenTask (Notifying ctx (impl_call service_impl (rm_fn_name m.2) (rq_args request))) header, emitter)
        else (MkGenTask Finished header, reject_undecodable_oneway emitter)
    | None => (MkGenTask Finished header, reject_undecodable_oneway emitter)
    end.

Definition add_method (p : Proc) (service_impl : I) (name : string) (d : ServiceDispatcher GenTask M) (m : Z * RpcMethod)
    : ServiceDispatcher GenTask M :=
  let id := method_id_of (rm_fn_name m.2) in
  if rm_oneway m.2 then oneway_method d id (native_oneway_method p service_impl name m)
  else method d id (native_method p service_impl name m).

Definition native_dispatcher (p : Proc) (model : ServiceModel) (service_impl : I) : ServiceDispatcher GenTask M :=
  fold_left (add_method p service_impl (sm_logical_name model)) (numbered_methods model)
    (dispatcher_new (SERVICE model)).
End handler.

(** *** The table of the methods *)

Section table.
Context {M : Type} `{ResponseEmitter M}.
Context (p : Proc) (service_impl : I).

Definition method_entry (name : string) (m : Z * RpcMethod) : MethodEntry GenTask M :=
  if rm_oneway m.2 then MkMethodEntry (native_oneway_method p service_impl name m) true
  else MkMethodEntry (native_method p service_impl name m) false.

Definition has_id (id : Z) (m : Z * RpcMethod) : Prop := method_id_of (rm_fn_name m.2) = id.

#[global] Instance has_id_dec id m : Decision (has_id id m).
Proof. unfold has_id. apply _. Defined.

(** The last method of an id is the one that answers it. *)
Lemma methods_lookup name ms d id :
  sd_handlers (fold_left (add_method p service_impl name) ms d) !! id =
    match last (filter (has_id id) ms) with
    | Some m => Some (method_entry name m)
    | None => sd_handlers d !! id
    end.
Proof.
  induction ms as [|m ms IH] using rev_ind; [done|].
  rewrite fold_left_app, filter_app. simpl. set (d' := fold_left _ ms d) in *.
  assert (Hadd : sd_handlers (add_method p service_impl name d' m) =
    <[method_id_of (rm_fn_name m.2) := method_entry name m]> (sd_handlers d'))
    by (unfold add_method, method_entry; by destruct (rm_oneway m.2)).
  rewrite Hadd, filter_cons, filter_nil. destruct (decide (has_id id m)) as [Hid|Hid].
  - rewrite last_snoc. unfold has_id in Hid. rewrite Hid. by rewrite lookup_insert_eq.
  - rewrite app_nil_r, <- IH. by rewrite lookup_insert_ne.
Qed.

Lemma methods_service name ms d :
  sd_service (fold_left (add_method p service_impl name) ms d) = sd_service d.
Proof.
  revert d. induction ms as [|m ms IH]; intros d; [done|]. simpl. rewrite IH.
  unfold add_method. by destruct (rm_oneway m.2).
Qed.

(** Names with distinct ids all answer. *)
Definition ids_distinct (ms : list (Z * RpcMethod)) : Prop := NoDup (map (λ m, method_id_of (rm_fn_name m.2)) ms).

Lemma filter_unique_id ms m :
  ids_distinct ms → m ∈ ms → filter (has_id (method_id_of (rm_fn_name m.2))) ms = [m].
Proof.
  unfold ids_distinct. induction ms as [|m' ms IH]; [intros _ H'; by apply elem_of_nil in H'|].
  simpl. intros [Hn Hd]%NoDup_cons [<-|Hin]%elem_of_cons; rewrite filter_cons.
  - rewrite decide_True by done. f_equal. apply filter_nothing. intros x Hx Heq. apply Hn.
    rewrite <- Heq. apply list_elem_of_fmap. by exists x.
  - rewrite decide_False; [by apply IH|]. intros Heq. apply Hn. rewrite Heq.
    apply list_elem_of_fmap. by exists m.
Qed.

Lemma native_dispatcher_lookup model m :
  ids_distinct (numbered_methods model) → m ∈ numbered_methods model →
  sd_handlers (native_dispatcher (M:=M) p model service_impl) !! method_id_of (rm_fn_name m.2) =
    Some (method_entry (sm_logical_name model) m).
Proof. intros Hd Hm. unfold native_dispatcher. by rewrite methods_lookup, (filter_unique_id _ m). Qed.

Lemma native_dispatcher_entry model id entry :
  sd_handlers (native_dispatcher (M:=M) p model service_impl) !! id = Some entry →
  ∃ m, m ∈ numbered_methods model ∧ entry = method_entry (sm_logical_name model) m.
Proof.
  unfold native_dispatcher. rewrite methods_lookup. destruct (last _) as [m|] eqn:Hl; [|done]. intros [= <-].
  exists m. split; [|done]. apply last_Some_elem_of, list_elem_of_filter in Hl. by destruct Hl.
Qed.
End table.

(** *** On a channel *)

Section channel.
Context {W : Type} `{Bus W}.

#[export] Instance GenTask_poll : CallTask GenTask W := λ base p f w th hub,
  let '(r, s, emitter) :=
    @gen_poll (CallEmitter W) (CallEmitter_emit base p) (gt_state f) th (MkEmitter hub (gt_request f)) in
  (r, MkGenTask s (gt_request f), em_hub emitter).

Lemma relay_poll_answers base p ctx o (w : Waker) (th : Thread) request (hub : ResponseHub W) :
  let '(_, _, em) := @relay_poll (CallEmitter W) (CallEmitter_emit base p) ctx o (MkEmitter hub request) in
  answers base p request hub (em_hub em).
Proof.
  unfold relay_poll. pose proof (stream_task_answers base p (MkStreamTask o request) w th hub) as Ha.
  unfold task_poll, StreamTask_poll in Ha. simpl in Ha.
  destruct (observable_to_responses _) as [r [o' em]]. simpl in *. by destruct Ha.
Qed.

(** The task of a generated handler answers its request and no other. *)
Lemma gen_task_answers base p f w th (hub : ResponseHub W) :
  let '(_, f', hub') := task_poll base p f w th hub in
  gt_request f' = gt_request f ∧ answers base p (gt_request f) hub hub'.
Proof.
  destruct f as [s request]. unfold task_poll, GenTask_poll. simpl.
  destruct s as [|ctx fut|ctx o|ctx fut]; simpl.
  - split; [done|apply answers_none].
  - destruct (fut_poll fut _) as [[|src] fut']; [split; [done|apply answers_none]|].
    pose proof (relay_poll_answers base p ctx (wire_folding_new src) w th request hub) as Ha.
    destruct (relay_poll _ _ _) as [[r s'] em]. by split.
  - pose proof (relay_poll_answers base p ctx o w th request hub) as Ha.
    destruct (relay_poll _ _ _) as [[r s'] em]. by split.
  - destruct (fut_poll fut _) as [[|src] fut']; (split; [done|apply answers_none]).
Qed.

Lemma reject_undecodable_answers base p request (hub : ResponseHub W) :
  answers base p request hub
    (em_hub (@reject_undecodable T E (CallEmitter W) _ (CallEmitter_emit base p) (MkEmitter hub request))).
Proof. apply (reject_answers base p request SerializationError hub). Qed.

Lemma service_table_elem {F M} (services : list (ServiceDispatcher F M)) id d :
  service_table services !! id = Some d → d ∈ services.
Proof.
  induction services as [|d' services IH] using rev_ind; [done|].
  unfold service_table. rewrite fold_left_app. simpl.
  intros [[_ ->]|[_ Hd]]%lookup_insert_Some; apply elem_of_app; [right; apply list_elem_of_singleton|left; auto].
  done.
Qed.

(** So do the handlers of the services a process registers, so the in-flight
    accounting and the cancellation of a provider hold of it. *)
Lemma generated_handlers_answer base p pc (services : list (ServiceModel * I)) :
  handlers_answer base p gt_request
    (service_table (map (λ '(model, service_impl),
       @native_dispatcher (CallEmitter W) (CallEmitter_emit base p) pc model service_impl) services)).
Proof.
  intros sid d mid entry header payload hub Hd He.
  apply service_table_elem, list_elem_of_fmap in Hd as ([model service_impl] & -> & _).
  apply native_dispatcher_entry in He as (m & _ & ->). unfold method_entry.
  destruct (rm_oneway m.2); cbn [me_handler]; unfold native_method, native_oneway_method, reject_undecodable_oneway;
    destruct (decode_aligned payload) as [request|]; try destruct (rq_variant request =? m.1); cbn [gt_request em_hub];
    (split; [done|]); try apply answers_none; apply reject_undecodable_answers.
Qed.
End channel.

(** *** A call, served *)

(** The future ends with [src], whatever the threads that poll it. *)
Inductive resolves : Fut → Src → Prop :=
| resolves_ready fut src : (∀ th, (fut_poll fut th).1 = Ready src) → resolves fut src
| resolves_pending fut fut' src :
    (∀ th, fut_poll fut th = (Pending, fut')) → resolves fut' src → resolves fut src.

(** The polls of a task, the [n]-th on the thread [ths n]. *)
Definition gen_run {M} `{ResponseEmitter M} (ths : nat → Thread) (st : nat * (GenState * M)) : poll () * (nat * (GenState * M)) :=
  let '(n, (s, emitter)) := st in
  let '(r, s, emitter) := gen_poll s (ths n) emitter in (r, (S n, (s, emitter))).

Lemma relaying_completes ths ctx o o' (acc samples : CollectEmitter) n :
  completes observable_to_responses (o, acc) () (o', samples) →
  ∃ n', completes (gen_run ths) (n, (Relaying ctx o, acc)) () (n', (Relaying ctx o', samples)).
Proof.
  intros Hc. remember (o, acc) as st eqn:Hst. remember (o', samples) as st' eqn:Hst'. remember () as u.
  revert n o acc Hst. induction Hc as [st u st' Hp|st st1 u st' Hp Hc IH]; intros n o acc ->; subst.
  - exists (S n). apply completes_ready. unfold gen_run, gen_poll, relay_poll. by rewrite Hp.
  - destruct st1 as [o1 acc1]. destruct (IH eq_refl eq_refl (S n) o1 acc1 eq_refl) as [n' Hn]. exists n'.
    eapply completes_pending; [|done]. unfold gen_run, gen_poll, relay_poll. by rewrite Hp.
Qed.

Lemma calling_completes ths ctx fut src o' (acc samples : CollectEmitter) n :
  resolves fut src → completes observable_to_responses (wire_folding_new src, acc) () (o', samples) →
  ∃ n', completes (gen_run ths) (n, (Calling ctx fut, acc)) () (n', (Relaying ctx o', samples)).
Proof.
  intros Hr Hc. revert n. induction Hr as [fut src Hp|fut fut' src Hp Hr IH]; intros n.
  - specialize (Hp (enter_ambient ctx (ths n)).2).
    destruct (fut_poll fut (enter_ambient ctx (ths n)).2) as [q fut'] eqn:Hf. simpl in Hp. subst q.
    inversion Hc as [st u st' Hb|st st1 u st' Hb Hc']; subst.
    + exists (S n). apply completes_ready. unfold gen_run, gen_poll. rewrite Hf. unfold relay_poll. by rewrite Hb.
    + destruct st1 as [o1 acc1]. destruct (relaying_completes ths ctx o1 o' acc1 samples (S n) Hc') as [n' Hn].
      exists n'. eapply completes_pending; [|done]. unfold gen_run, gen_poll. rewrite Hf. unfold relay_poll. by rewrite Hb.
  - destruct (IH Hc (S n)) as [n' Hn]. exists n'. eapply completes_pending; [|done].
    unfold gen_run, gen_poll. by rewrite Hp.
Qed.

(** The implementation's stream, through the task of a generated handler. *)
Lemma generated_call_served ths ctx fut src l `{!Fused Src (Event T E), !CodecLaws T E} :
  encodes_all (T:=T) (E:=E) → resolves fut src → yields src l → rx_grammar l = true →
  ∃ n s (samples : CollectEmitter),
    completes (gen_run ths) (0%nat, (Calling ctx fut, [])) () (n, (s, samples)) ∧
    relay (T:=T) (E:=E) samples = (map wire_view l, existsb is_terminal l).
Proof.
  intros Henc Hr Hy Hg. destruct (proj1 (fold_yields src l Hy)) as (ws & Hws & He).
  destruct (collect_responses (wire_folding_new src) ws [] Hws) as [o Hc].
  destruct (calling_completes ths ctx fut src o [] _ 0 Hr Hc) as [n Hn].
  eexists n, _, _. split; [exact Hn|]. simpl.
  rewrite (relay_frames ws (map wire_view l)); [by rewrite terminal_view|done|by rewrite rx_grammar_view|done].
Qed.

End server.

(** ** The slice length of a channel ([transport/mod.rs]) *)

Definition DEFAULT_MAX_SLICE_LEN : Z := 256.

(** The first declaration of a channel stays. *)
Definition declare_channel_max_slice_len (channel : string) (len : Z) (registry : gmap string Z) : gmap string Z :=
  match registry !! channel with
  | Some _ => registry
  | None => <[channel := len]> registry
  end.

Definition channel_max_slice_len (channel : string) (registry : gmap string Z) : Z :=
  default DEFAULT_MAX_SLICE_LEN (registry !! channel).

(** ** The proxy *)

(** [trait ServiceInit]: the hook of a business type acts on the rest of the
    process. *)
Class ServiceInit (I X : Type) : Type := {
  on_init : I → X → bool * X;
  dependencies : I → list string
}.

Section proxy.
Context {I Fut Src V T E : Type} `{ServiceImpl I Fut Src V} `{Sized Src (Event T E)} `{Codec T E} `{RequestCodec V}.
Context {M : Type} `{ResponseEmitter M}.

Abbreviation dispatcher := (ServiceDispatcher (GenTask (Fut:=Fut) (Src:=Src) (T:=T) (E:=E)) M).

(** The hook of [provide] is the default one, that of [provide_with_init] is the
    implementation. *)
Inductive Mode : Type :=
| Provider (local_impl : I) (init_hook : option I) (server_started : bool)
| Consumer
| ProviderJson (json_dispatcher : option dispatcher).

Record Proxy : Type := MkProxy { px_model : ServiceModel; px_mode : Mode; px_deps : list string }.

Definition provide (model : ServiceModel) (implementation : I) : Proxy :=
  MkProxy model (Provider implementation None false) [].

Definition provide_with_init {X} `{ServiceInit I X} (model : ServiceModel) (implementation : I) : Proxy :=
  MkProxy model (Provider implementation (Some implementation) false) (dependencies implementation).

Definition declared_len (model : ServiceModel) : Z := default DEFAULT_MAX_SLICE_LEN (sm_max_slice_len model).

Definition consume (model : ServiceModel) (slices : gmap string Z) : Proxy * gmap string Z :=
  (MkProxy model Consumer [], declare_channel_max_slice_len (sm_group model) (declared_len model) slices).

(** [json_methods] adds the JSON handlers of the service. *)
Definition provide_json (model : ServiceModel) (json_methods : dispatcher → dispatcher) : Proxy :=
  MkProxy model (ProviderJson (Some (json_methods (dispatcher_new (SERVICE model))))) [].

Definition direct_call : RpcError := Internal "ProviderJson: direct calls are not supported — use IPC".

(** *** Calls *)

Section calls.
Context {C : Type → Type} `{AsyncChannel C} {P : Type} `{Stream P (Event T E)} {W : Type} `{Bus W}.
Context (nested : Scratch → Scratch).

(** What a call gives: the future of the implementation, in the context of
    [local_call_scoped] when the build traces, or an observable. *)
Inductive ProxyCall : Type :=
| LocalCall (ctx : option CallContext) (fut : Fut)
| Answered (stream : ClientStream).

Definition proxy_method (base : Z) (tracing : bool) (th : Thread) (proxy : Proxy) (m : Z * RpcMethod) (args : list V)
    (timeout : Z) (p : Proc) (st : ConsumerPorts (C:=C) (P:=P) (T:=T) (E:=E) (W:=W)) (cell : Scratch)
    : ProxyCall * Proc * ConsumerPorts * Scratch :=
  let model := px_model proxy in
  match px_mode proxy with
  | Provider local_impl _ _ =>
      let fut := impl_call local_impl (rm_fn_name m.2) args in
      if tracing then
        let (ctx, p) := call_context_local (SERVICE model) (sm_logical_name model) (rm_fn_name m.2) th p in
        (LocalCall (Some ctx) fut, p, st, cell)
      else (LocalCall None fut, p, st, cell)
  | Consumer =>
      let '(stream, p, st, cell) := client_method nested base th model m args timeout p st cell in
      (Answered stream, p, st, cell)
  | ProviderJson _ => (Answered (ErrorStream direct_call), p, st, cell)
  end.

(** A poll of [local_call_scoped]. *)
Definition local_call_poll (ctx : option CallContext) (th : Thread) (fut : Fut) : poll Src * Fut :=
  match ctx with
  | Some ctx => fut_poll fut (enter_ambient ctx th).2
  | None => fut_poll fut th
  end.

(** The caller of a one-way method: the implementation is driven to its end
    ([block_on]) and counts as delivered. *)
Inductive OnewayCall : Type :=
| Driven (fut : Fut)
| Sent (r : result bool RpcError).

Definition proxy_oneway_call (base : Z) (th : Thread) (proxy : Proxy) (m : Z * RpcMethod) (args : list V)
    (p : Proc) (st : ConsumerPorts (C:=C) (P:=P) (T:=T) (E:=E) (W:=W)) (cell : Scratch)
    : OnewayCall * Proc * ConsumerPorts * Scratch :=
  match px_mode proxy with
  | Provider local_impl _ _ => (Driven (impl_call local_impl (rm_fn_name m.2) args), p, st, cell)
  | Consumer =>
      let '(r, p, st, cell) := client_oneway_method nested base th (px_model proxy) m args p st cell in
      (Sent r, p, st, cell)
  | ProviderJson _ => (Sent (Err direct_call), p, st, cell)
  end.

(** The same method through the trait: what the client observed is not told. *)
Definition proxy_oneway_method (base : Z) (th : Thread) (proxy : Proxy) (m : Z * RpcMethod) (args : list V)
    (p : Proc) (st : ConsumerPorts (C:=C) (P:=P) (T:=T) (E:=E) (W:=W)) (cell : Scratch)
    : option Fut * Proc * ConsumerPorts * Scratch :=
  match px_mode proxy with
  | Provider local_impl _ _ => (Some (impl_call local_impl (rm_fn_name m.2) args), p, st, cell)
  | Consumer =>
      let '(_, p, st, cell) := client_oneway_method nested base th (px_model proxy) m args p st cell in
      (None, p, st, cell)
  | ProviderJson _ => (None, p, st, cell)
  end.

(** Both send the same request, or drive the same implementation. *)
Lemma proxy_oneway_agree base th proxy m args p st cell :
  let '(call, p1, st1, cell1) := proxy_oneway_call base th proxy m args p st cell in
  proxy_oneway_method base th proxy m args p st cell =
    (match call with Driven fut => Some fut | Sent _ => None end, p1, st1, cell1).
Proof.
  unfold proxy_oneway_call, proxy_oneway_method. destruct (px_mode proxy); [done| |done].
  by destruct (client_oneway_method _ _ _ _ _ _ _ _ _) as [[[r p1] st1] cell1].
Qed.
End calls.

(** *** The lifecycle *)

Section lifecycle.
Context {X : Type} `{ServiceInit I X}.
Context (pc : Proc).

(** What an initialization acts on. *)
Record Host : Type := MkHost {
  ho_world : X;
  ho_slices : gmap string Z;
  ho_registry : Registry (F:=GenTask (Fut:=Fut) (Src:=Src) (T:=T) (E:=E)) (M:=M)
}.

(** The channel is declared, and the service registered on it. *)
Definition declare_and_register (model : ServiceModel) (d : dispatcher) (ho : Host) : bool * Host :=
  let slices := declare_channel_max_slice_len (sm_group model) (declared_len model) (ho_slices ho) in
  let (r, registry) := register_native_service (sm_group model) (sm_logical_name model) d (ho_registry ho) in
  (is_ok r, MkHost (ho_world ho) slices registry).

(** [ServiceLifecycle::init] of a proxy. *)
Definition proxy_init (proxy : Proxy) (ho : Host) : bool * Proxy * Host :=
  let model := px_model proxy in
  let set_mode mode := MkProxy model mode (px_deps proxy) in
  match px_mode proxy with
  | ProviderJson None => (false, proxy, ho)
  | ProviderJson (Some d) =>
      let (ok, ho) := declare_and_register model d ho in (ok, set_mode (ProviderJson None), ho)
  | Provider local_impl init_hook server_started =>
      if server_started then (true, proxy, ho)
      else
        let (ready, x) := match init_hook with
                          | Some hook => on_init hook (ho_world ho)
                          | None => (true, ho_world ho)
                          end in
        let ho := MkHost x (ho_slices ho) (ho_registry ho) in
        if ready then
          let (ok, ho) := declare_and_register model (native_dispatcher pc model local_impl) ho in
          (ok, if ok then set_mode (Provider local_impl init_hook true) else proxy, ho)
        else (false, proxy, ho)
  | Consumer => (client_init, proxy, ho)
  end.

(** *** A process that initializes its services *)

Record Node : Type := MkNode { nd_proxies : gmap string Proxy; nd_host : Host }.

Definition node_init (name : string) (nd : Node) : bool * Node :=
  match nd_proxies nd !! name with
  | Some proxy =>
      let '(ok, proxy, ho) := proxy_init proxy (nd_host nd) in
      (ok, MkNode (<[name := proxy]> (nd_proxies nd)) ho)
  | None => (false, nd)
  end.

Definition node_start (nd : Node) : Node :=
  MkNode (nd_proxies nd)
    (MkHost (ho_world (nd_host nd)) (ho_slices (nd_host nd)) (start_registered_channels (ho_registry (nd_host nd)))).

Abbreviation node_initialize := (initialize_all node_init node_start).

Definition is_json (proxy : Proxy) : bool := match px_mode proxy with ProviderJson _ => true | _ => false end.

(** Initialized: another initialization answers [negb json], and does nothing. *)
Definition settled (nd : Node) (name : string) (json : bool) : Prop :=
  ∃ proxy, nd_proxies nd !! name = Some proxy ∧ is_json proxy = json ∧
    match px_mode proxy with Provider _ _ started => started = true | Consumer => True | ProviderJson d => d = None end.

Lemma settled_init nd name json : settled nd name json → node_init name nd = (negb json, nd).
Proof.
  intros (proxy & Hp & Hj & Hs). unfold node_init. rewrite Hp. unfold proxy_init, is_json in *.
  destruct nd as [proxies ho]. simpl in *.
  destruct (px_mode proxy) as [i h b| |d]; subst; simpl; by rewrite insert_id.
Qed.

Lemma node_init_spec nd name proxy :
  nd_proxies nd !! name = Some proxy →
  let (ok, nd') := node_init name nd in
  (∀ other, other ≠ name → nd_proxies nd' !! other = nd_proxies nd !! other) ∧
  (∃ proxy', nd_proxies nd' !! name = Some proxy' ∧ is_json proxy' = is_json proxy) ∧
  (ok = true → settled nd' name (is_json proxy)).
Proof.
  intros Hp. unfold node_init. rewrite Hp. destruct (proxy_init proxy (nd_host nd)) as [[ok proxy'] ho] eqn:Hi. simpl.
  assert (Hsp : is_json proxy' = is_json proxy ∧ (ok = true →
    match px_mode proxy' with Provider _ _ started => started = true | Consumer => True | ProviderJson d => d = None end)).
  { unfold proxy_init, is_json in *. destruct (px_mode proxy) as [i h [] | |[d|]] eqn:Hm; simpl in Hi.
    - injection Hi as <- <- <-. by rewrite Hm.
    - destruct (match h with Some hook => _ | None => _ end) as [[] x]; [|injection Hi as <- <- <-; by rewrite Hm].
      destruct (declare_and_register _ _ _) as [[] ho']; injection Hi as <- <- <-; simpl; by rewrite ?Hm.
    - injection Hi as <- <- <-. by rewrite Hm.
    - destruct (declare_and_register _ _ _) as [o' ho']. by injection Hi as <- <- <-.
    - injection Hi as <- <- <-. by rewrite Hm. }
  destruct Hsp as [Hj Hok]. split_and!.
  - intros other Hne. by rewrite lookup_insert_ne.
  - exists proxy'. by rewrite lookup_insert_eq.
  - intros ->. exists proxy'. simpl. rewrite lookup_insert_eq. split_and!; [done|done|by apply Hok].
Qed.

(** The proxies of [nd'] are those of [nd], of the same kind, and what was
    settled is settled. *)
Definition proxies_kept (nd nd' : Node) : Prop :=
  (∀ name, is_json <$> nd_proxies nd' !! name = is_json <$> nd_proxies nd !! name) ∧
  (∀ name json, settled nd name json → settled nd' name json).

Lemma node_init_kept nd name : proxies_kept nd (node_init name nd).2.
Proof.
  destruct (nd_proxies nd !! name) as [proxy|] eqn:Hp.
  - pose proof (node_init_spec nd name proxy Hp) as Hs. split.
    + intros other. destruct (node_init name nd) as [ok nd']. destruct Hs as (Ho & (proxy' & Hp' & Hj) & _). simpl.
      destruct (decide (other = name)) as [->|Hne]; [|by rewrite Ho]. rewrite Hp', Hp. simpl. by rewrite Hj.
    + intros other json Hset. destruct (decide (other = name)) as [->|Hne]; [by rewrite (settled_init nd name json)|].
      destruct (node_init name nd) as [ok nd']. destruct Hs as (Ho & _). destruct Hset as (px & Hpx & Hrest).
      exists px. by rewrite Ho.
  - unfold node_init. by rewrite Hp.
Qed.

Lemma proxies_kept_trans nd1 nd2 nd3 : proxies_kept nd1 nd2 → proxies_kept nd2 nd3 → proxies_kept nd1 nd3.
Proof. intros [Ha Hb] [Hc Hd]. split; [intros name; by rewrite Hc|intros; by apply Hd, Hb]. Qed.

Lemma run_inits_kept names order nd :
  let '(log, failure, nd') := run_inits node_init names order nd in
  proxies_kept nd nd' ∧
  (failure = None → (∀ i, i ∈ order → is_Some (nd_proxies nd !! name_of names i)) →
     ∀ i, i ∈ order → ∃ json, settled nd' (name_of names i) json).
Proof.
  revert nd. induction order as [|i order IH]; intros nd; simpl.
  { split; [done|]. intros _ _ i Hi. by apply elem_of_nil in Hi. }
  pose proof (node_init_kept nd (name_of names i)) as Hk.
  pose proof (node_init_spec nd (name_of names i)) as Hsp.
  destruct (node_init (name_of names i) nd) as [[] nd1]; simpl in Hk; [|by split].
  specialize (IH nd1). destruct (run_inits node_init names order nd1) as [[log failure] nd'].
  destruct IH as [Hk' Hset]. split; [by eapply proxies_kept_trans|]. intros Hf Hall j [->|Hj]%elem_of_cons.
  - destruct (Hall i) as [proxy Hp]; [left|]. destruct (Hsp proxy Hp) as (_ & _ & Hok).
    eexists. apply Hk'. by apply Hok.
  - apply Hset; [done| |done]. intros j' Hj'. destruct (Hall j') as [proxy Hp]; [by right|].
    destruct Hk as [Hk _]. specialize (Hk (name_of names j')). rewrite Hp in Hk.
    by destruct (nd_proxies nd1 !! name_of names j').
Qed.

Lemma run_inits_settled names order nd :
  (∀ i, i ∈ order → settled nd (name_of names i) false) →
  run_inits node_init names order nd = (map (name_of names) order, None, nd).
Proof.
  induction order as [|i order IH]; intros Hall; [done|]. simpl.
  rewrite (settled_init nd (name_of names i) false) by (apply Hall; left). simpl.
  rewrite IH; [done|]. intros j Hj. apply Hall. by right.
Qed.

Lemma run_inits_spent names order nd i :
  i ∈ order → settled nd (name_of names i) true →
  ∃ name, (run_inits node_init names order nd).1.2 = Some name.
Proof.
  revert nd. induction order as [|j order IH]; intros nd Hi Hs; [by apply elem_of_nil in Hi|]. simpl.
  destruct (decide (j = i)) as [->|Hne]; [rewrite (settled_init nd _ true Hs); simpl; by eexists|].
  apply elem_of_cons in Hi as [->|Hi]; [done|].
  pose proof (node_init_kept nd (name_of names j)) as [_ Hk].
  destruct (node_init (name_of names j) nd) as [[] nd1]; simpl in Hk; [|by eexists].
  destruct (IH nd1 Hi (Hk _ _ Hs)) as [name Hn]. destruct (run_inits node_init names order nd1) as [[log f] nd']. by exists name.
Qed.

Lemma order_elem names deps i : (i < length names)%nat ↔ i ∈ topological_order names deps.
Proof. rewrite topological_order_perm, elem_of_seq. lia. Qed.

Lemma initialize_all_ok snapshot nd log nd' :
  (∀ name, name ∈ map fst snapshot → is_Some (nd_proxies nd !! name)) →
  node_initialize snapshot nd = (log, Ok (), nd') →
  rg_sealed (ho_registry (nd_host nd')) = true ∧ nd' = node_start nd' ∧
  ∀ i, (i < length (map fst snapshot))%nat →
    settled nd' (name_of (map fst snapshot) i) (default false (is_json <$> nd_proxies nd !! name_of (map fst snapshot) i)).
Proof.
  intros Hall Hi. unfold initialize_all in Hi. set (names := map fst snapshot) in *.
  pose proof (run_inits_kept names (topological_order names (map snd snapshot)) nd) as Hk.
  destruct (run_inits node_init names _ nd) as [[log0 [name|]] nd1]; [done|]. injection Hi as <- <-.
  destruct Hk as [[Hj _] Hs]. unfold node_start, start_registered_channels. simpl.
  destruct (rg_sealed (ho_registry (nd_host nd1))) eqn:Hseal; simpl; rewrite ?Hseal; (split; [done|]; split; [done|]);
    intros i Hlt; destruct (Hs eq_refl) with (i := i) as (json & proxy & Hp & Hjs & Hm);
    try (by apply order_elem); try (intros j Hj'; apply Hall, list_elem_of_lookup; exists j;
      apply order_elem in Hj'; unfold name_of; destruct (lookup_lt_is_Some_2 names j Hj') as [x Hx]; by rewrite Hx);
    exists proxy; (split; [done|]); specialize (Hj (name_of names i)); rewrite Hp in Hj; simpl in Hj; by rewrite <- Hj.
Qed.

Lemma name_of_elem names i : (i < length names)%nat → name_of names i ∈ names.
Proof.
  intros Hi. unfold name_of. destruct (lookup_lt_is_Some_2 names i Hi) as [x Hx]. rewrite Hx. by eapply list_elem_of_lookup_2.
Qed.

(** A node whose services are all settled, and not JSON ones. *)
Lemma initialize_settled s nd :
  nd = node_start nd → (∀ name, name ∈ map fst s → settled nd name false) →
  (node_initialize s nd).1.2 = Ok () ∧ (node_initialize s nd).2 = nd.
Proof.
  intros Hstart Hset. unfold initialize_all. rewrite run_inits_settled; [simpl; by rewrite <- Hstart|].
  intros i Hi%order_elem. by apply Hset, name_of_elem.
Qed.

(** A node with a settled JSON service among them. *)
Lemma initialize_spent s nd name :
  name ∈ map fst s → settled nd name true → ∃ e, (node_initialize s nd).1.2 = Err e.
Proof.
  intros [i Hin]%list_elem_of_lookup Hs. pose proof (lookup_lt_Some _ _ _ Hin) as Hlt. unfold initialize_all.
  destruct (run_inits_spent (map fst s) (topological_order (map fst s) (map snd s)) nd i) as [failed Hf];
    [by apply order_elem|unfold name_of; by rewrite Hin|].
  destruct (run_inits node_init _ _ nd) as [[log f] nd1]. simpl in Hf. subst f. by eexists.
Qed.

Lemma initialize_kept s nd : proxies_kept nd (node_initialize s nd).2.
Proof.
  unfold initialize_all. pose proof (run_inits_kept (map fst s) (topological_order (map fst s) (map snd s)) nd) as Hk.
  destruct (run_inits node_init _ _ nd) as [[log [name|]] nd1]; by destruct Hk as [Hk _].
Qed.

(** The initializations of these listings, one after the other. *)
Definition initialize_each (later : list (list (string * list string))) (nd : Node) : Node :=
  fold_left (λ nd s, (node_initialize s nd).2) later nd.

Lemma initialize_each_kept later nd : proxies_kept nd (initialize_each later nd).
Proof.
  revert nd. induction later as [|s later IH]; intros nd; [done|]. eapply proxies_kept_trans; [apply (initialize_kept s)|apply IH].
Qed.

(** C14. A process that initialized its services can do so again, any number of times
    and to no effect, as long as none of the services is a JSON one: that one gave
    its dispatcher away, fails, and with it every initialization it takes part in
    from then on, whatever was initialized in between, though the service runs. *)
Theorem initialized_again snapshot nd log nd' :
  (∀ name, name ∈ map fst snapshot → is_Some (nd_proxies nd !! name)) →
  node_initialize snapshot nd = (log, Ok (), nd') →
  ∀ later s,
  let again := node_initialize s (initialize_each later nd') in
  ((∀ l name, l ∈ s :: later → name ∈ map fst l →
      name ∈ map fst snapshot ∧ is_json <$> nd_proxies nd !! name = Some false) →
     again.1.2 = Ok () ∧ again.2 = nd') ∧
  (∀ name, name ∈ map fst snapshot → name ∈ map fst s →
     is_json <$> nd_proxies nd !! name = Some true → ∃ e, again.1.2 = Err e).
Proof.
  intros Hall Hi later s. destruct (initialize_all_ok _ _ _ _ Hall Hi) as (_ & Hstart & Hset).
  assert (Hsettled : ∀ name json, name ∈ map fst snapshot → is_json <$> nd_proxies nd !! name = Some json →
    settled nd' name json).
  { intros name json [i Hin]%list_elem_of_lookup Hj. specialize (Hset i (lookup_lt_Some _ _ _ Hin)).
    unfold name_of in Hset. rewrite Hin in Hset. simpl in Hset. by rewrite Hj in Hset. }
  split.
  - intros Hnat. assert (Hone : ∀ l, l ∈ s :: later → (node_initialize l nd').1.2 = Ok () ∧ (node_initialize l nd').2 = nd').
    { intros l Hl. apply initialize_settled; [done|]. intros name Hn. destruct (Hnat l name Hl Hn) as [? ?]. by apply Hsettled. }
    assert (Hsame : initialize_each later nd' = nd').
    { clear -Hone. induction later as [|l later IH]; [done|]. simpl. rewrite (proj2 (Hone l ltac:(set_solver))).
      apply IH. intros l' Hl'. apply Hone. set_solver. }
    rewrite Hsame. apply Hone. set_solver.
  - intros name Hn Hs Hj. apply (initialize_spent s _ name Hs). apply initialize_each_kept. by apply Hsettled.
Qed.

End lifecycle.
End proxy.

(** ** A call, in the process and across the bus *)

Section transparent.
Context {C : Type → Type} `{AsyncChannel C} {P T E : Type} `{Stream P (Event T E)} `{Codec T E, !CodecLaws T E}.
Context {W : Type} `{Bus W, !BusLaws W} {I Fut Src V : Type} `{ServiceImpl I Fut Src V}.
Context `{Sized Src (Event T E), !Fused Src (Event T E)} `{RequestCodec V, !RequestCodecLaws V}.

Abbreviation task := (GenTask (Fut:=Fut) (Src:=Src) (T:=T) (E:=E)).

Lemma request_header_fields (th : Thread) service (id : Z) p (st : ConsumerPorts (C:=C) (P:=P) (T:=T) (E:=E) (W:=W)) :
  let header := (request_header th service id p st).1.1 in
  event_kind header = KRequest ∧ h_protocol_version header = PROTOCOL_VERSION ∧
  h_service_id header = sr_id service ∧ h_service_version header = sr_version service ∧ h_method_id header = id.
Proof.
  unfold request_header. destruct (outgoing_trace th p) as [trace p1]. unfold header_request.
  by destruct (next_correlation_id p1) as [cid p2].
Qed.

Context (base : Z) (pr pc : Proc).
#[local] Instance hub_sink : ResponseEmitter (CallEmitter W) := CallEmitter_emit base pr.

(** A request of the client, at a provider of the service. *)
Lemma generated_request_routed entered (table : gmap Z (ServiceDispatcher task (CallEmitter W)))
    model service_impl m args header payload sv :
  event_kind header = KRequest → h_protocol_version header = PROTOCOL_VERSION →
  h_service_id header = sr_id (SERVICE model) → h_service_version header = sr_version (SERVICE model) →
  h_method_id header = method_id_of (rm_fn_name m.2) →
  table !! sr_id (SERVICE model) = Some (native_dispatcher pc model service_impl) →
  ids_distinct (numbered_methods model) → m ∈ numbered_methods model → rm_oneway m.2 = false →
  decode_aligned payload = Some (MkRequest m.1 args) →
  let cid := h_correlation_id header in
  let (token, hub) := register_call cid (sv_hub sv) in
  let ctx := (call_context_new header (sm_logical_name model) (rm_fn_name m.2) pc).1 in
  handle_request (T:=T) (E:=E) base pr entered table header payload sv =
    ([], run_or_spawn base pr entered
           (inl (cancellable cid token (MkGenTask (Calling ctx (impl_call service_impl (rm_fn_name m.2) args)) header)))
           (set_hub sv hub)).
Proof.
  intros Hk Hpv Hid Hv Hm Ht Hd Hin Hone Hdec. cbv zeta.
  destruct (register_call _ _) as [token hub] eqn:Hreg. unfold handle_request. rewrite Hk, Hid, Ht.
  unfold classify. rewrite Hpv, Z.eqb_refl. cbn [negb].
  unfold native_dispatcher at 1. rewrite methods_service. cbn [sd_service dispatcher_new]. rewrite Hv, Z.eqb_refl. cbn [negb].
  unfold dispatch. rewrite Hm, (native_dispatcher_lookup _ _ _ m Hd Hin). unfold method_entry. rewrite Hone. cbn [me_handler me_oneway].
  unfold native_method. rewrite Hdec. cbn [rq_variant rq_args]. rewrite Z.eqb_refl. cbn [em_hub negb]. by rewrite Hreg.
Qed.

Lemma local_call_completes ctx th (fut : Fut) (src : Src) :
  resolves fut src → ∃ fut', completes (local_call_poll ctx th) fut src fut'.
Proof.
  induction 1 as [fut src Hp|fut fut' src Hp Hr [fut'' IH]].
  - set (th' := match ctx with Some c => (enter_ambient c th).2 | None => th end). specialize (Hp th').
    exists (fut_poll fut th').2. apply completes_ready. unfold local_call_poll.
    destruct ctx; fold th'; by destruct (fut_poll fut th') as [q f]; simpl in *; subst.
  - exists fut''. eapply completes_pending; [|done]. unfold local_call_poll. by destruct ctx.
Qed.

Lemma call_publish_delivers header tx payload timeout (st : ConsumerPorts (C:=C) (P:=P) (T:=T) (E:=E) (W:=W)) :
  let (r, st') := call_publish base header tx payload timeout st in
  bus_delivered (cp_bus st') =
    bus_delivered (cp_bus st) ++ match r with Ok _ => [(header, sample_payload payload)] | Err _ => [] end.
Proof.
  unfold call_publish. pose proof (publish_until_delivered_spec header payload timeout (cp_bus st)) as Hs.
  destruct (publish_until_delivered header payload timeout (cp_bus st)) as [[u|e] w]; destruct Hs as [Hs _].
  - unfold notify_provider. pose proof (now_law w) as [_ [[_ Hn] _]]. simpl.
    destruct (instant_now w) as [now w']. simpl in Hn. destruct (should_notify _ _) as [must cell]. simpl. by rewrite Hn.
  - unfold close_slot, release_handler. by destruct (cp_handlers (set_bus st w) !! _).
Qed.

(** C9. A caller cannot tell where a service runs: the call of a proxy drives the
    implementation of the process, whose future ends with a stream of [l]; the
    same call of a consumer's proxy publishes one request, at most once, and a
    provider of the service hands it to the same method with the same arguments,
    whose task, on whatever threads, pushes samples that the consumer reads as
    [l] ([Empty] read as the end). *)
Theorem location_transparent (nested : Scratch → Scratch) tracing th model service_impl m args src l bs timeout p
    (st : ConsumerPorts (C:=C) (P:=P) (T:=T) (E:=E) (W:=W)) cell :
  ids_distinct (numbered_methods model) → m ∈ numbered_methods model → rm_oneway m.2 = false →
  archive (MkRequest m.1 args) = Some bs → bs ≠ [] → encodes_all (T:=T) (E:=E) →
  let fut := impl_call service_impl (rm_fn_name m.2) args in
  resolves fut src → yields src l → rx_grammar l = true →
  (∃ ctx p1,
     proxy_method (M:=CallEmitter W) nested base tracing th (provide model service_impl) m args timeout p st cell =
       (LocalCall ctx fut, p1, st, cell) ∧
     ∃ fut', completes (local_call_poll ctx th) fut src fut') ∧
  let '(header, tx, p2, st2) := call_begin th (SERVICE model) (method_id_of (rm_fn_name m.2)) p st in
  let (r, st3) := call_publish base header tx bs timeout st2 in
  proxy_method (M:=CallEmitter W) nested base tracing th (consume model ∅).1 m args timeout p st cell =
    (Answered (match r with Ok slot => CallStream slot | Err e => ErrorStream e end), p2, st3, Some bs) ∧
  bus_delivered (cp_bus st3) = bus_delivered (cp_bus st) ++ match r with Ok _ => [(header, bs)] | Err _ => [] end ∧
  ∃ ctx, ∀ entered (table : gmap Z (ServiceDispatcher task (CallEmitter W))) sv,
    table !! sr_id (SERVICE model) = Some (native_dispatcher pc model service_impl) →
    (let (token, hub) := register_call (h_correlation_id header) (sv_hub sv) in
     handle_request (T:=T) (E:=E) base pr entered table header bs sv =
       ([], run_or_spawn base pr entered
              (inl (cancellable (h_correlation_id header) token (MkGenTask (Calling ctx fut) header))) (set_hub sv hub))) ∧
    ∀ ths, ∃ n s (samples : CollectEmitter),
      completes (gen_run ths) (0%nat, (Calling ctx fut, [])) () (n, (s, samples)) ∧
      relay (T:=T) (E:=E) samples = (map wire_view l, existsb is_terminal l).
Proof.
  intros Hd Hin Hone Harch Hne Henc fut Hr Hy Hg. split.
  { destruct tracing; unfold proxy_method; simpl.
    - destruct (call_context_local _ _ _ th p) as [ctx p1]. exists (Some ctx), p1. split; [done|by apply local_call_completes].
    - exists None, p. split; [done|by apply local_call_completes]. }
  unfold call_begin. pose proof (request_header_fields th (SERVICE model) (method_id_of (rm_fn_name m.2)) p st) as Hf.
  destruct (request_header _ _ _ p st) as [[header p2] st1] eqn:Hrh. simpl in Hf.
  set (st2 := set_handlers _ _). pose proof (call_publish_delivers header (length (cp_slots st1)) bs timeout st2) as Hdel.
  destruct (call_publish base header _ bs timeout st2) as [r st3] eqn:Hcp.
  assert (Hbus : cp_bus st2 = cp_bus st).
  { unfold st2. simpl. unfold request_header in Hrh. destruct (outgoing_trace th p) as [tr q].
    destruct (header_request _ _ _ q) as [h q']. unfold next_seq in Hrh. by injection Hrh as _ _ <-. }
  split_and!.
  - unfold proxy_method, client_method, serialize_and_call. simpl. rewrite scratch_bytes_spec, Harch.
    unfold native_call, call_begin. rewrite Hrh. fold st2. rewrite Hcp. by destruct r.
  - rewrite Hdel, Hbus. by destruct bs as [|b bs'].
  - destruct Hf as (Hk & Hpv & Hid & Hv & Hm).
    exists (call_context_new header (sm_logical_name model) (rm_fn_name m.2) pc).1. intros entered table sv Ht. split.
    + by apply (generated_request_routed entered table model service_impl m args header bs sv);
        try apply decode_archive.
    + intros ths. by eapply generated_call_served.
Qed.

(** The last element of a list that has a property. *)
Lemma last_with {A} (Q : A → Prop) `{∀ x, Decision (Q x)} (l : list A) x :
  x ∈ l → Q x → ∃ y l1 l2, l = l1 ++ y :: l2 ∧ Q y ∧ ∀ z, z ∈ l2 → ¬ Q z.
Proof.
  intros Hin Hx. induction l as [|a l IH] using rev_ind; [by apply elem_of_nil in Hin|].
  destruct (decide (Q a)) as [Ha|Ha].
  - exists a, l, []. split_and!; [done..|]. by intros z ?%elem_of_nil.
  - apply elem_of_app in Hin as [Hin|Hin]; [|by apply list_elem_of_singleton in Hin as ->].
    destruct (IH Hin) as (y & l1 & l2 & -> & Hy & Hl2). exists y, l1, (l2 ++ [a]). rewrite <- app_assoc.
    split_and!; [done..|]. intros z [Hz|Hz]%elem_of_app; [by apply Hl2|]. by apply list_elem_of_singleton in Hz as ->.
Qed.

(** C15. A method whose id a later one of the service has is never called: the handler
    of the last of those has replaced its own, and every request of it is the wrong
    variant there, answered with a technical error, or with nothing when that last
    one is one-way. *)
Theorem colliding_method_lost model service_impl m1 m2 before after args bs header (emitter : CallEmitter W) :
  (length (sm_methods model) ≤ 256)%nat → numbered_methods model = before ++ m1 :: after →
  m2 ∈ after → method_id_of (rm_fn_name m2.2) = method_id_of (rm_fn_name m1.2) →
  archive (MkRequest m1.1 args) = Some bs →
  h_method_id header = method_id_of (rm_fn_name m1.2) →
  ∃ m between rest, after = between ++ m :: rest ∧
    method_id_of (rm_fn_name m.2) = method_id_of (rm_fn_name m1.2) ∧
    (∀ m', m' ∈ rest → method_id_of (rm_fn_name m'.2) ≠ method_id_of (rm_fn_name m1.2)) ∧
    dispatch (native_dispatcher (M:=CallEmitter W) pc model service_impl) (h_method_id header) header bs emitter =
      (Some (MkDispatched (MkGenTask Finished header : task) (negb (rm_oneway m.2))),
       if rm_oneway m.2 then emitter else reject_undecodable (T:=T) (E:=E) emitter).
Proof.
  intros Hlen Hms Hin Hid Harch ->. set (id := method_id_of (rm_fn_name m1.2)) in *.
  destruct (last_with (λ m, method_id_of (rm_fn_name m.2) = id) after m2 Hin Hid) as (m & between & rest & -> & Hm & Hrest).
  exists m, between, rest. split_and!; [done..|].
  assert (Hne : m1.1 ≠ m.1).
  { pose proof (numbered_distinct model Hlen) as Hnd. rewrite Hms, map_app in Hnd. apply NoDup_app in Hnd as (_ & _ & Hnd).
    apply NoDup_cons in Hnd as [Hnd _]. intros Heq. apply Hnd, list_elem_of_fmap. exists m. set_solver. }
  unfold dispatch, native_dispatcher. rewrite methods_lookup, Hms, filter_app, filter_cons_True by done.
  rewrite filter_app, (filter_cons_True _ m) by done.
  assert (Hnone : filter (has_id id) rest = []).
  { destruct (filter (has_id id) rest) as [|m' l] eqn:Hf; [done|].
    assert (Hm' : m' ∈ filter (has_id id) rest) by (rewrite Hf; left). apply list_elem_of_filter in Hm' as [? ?].
    by destruct (Hrest m'). }
  rewrite Hnone.
  rewrite app_comm_cons, app_assoc, last_snoc. unfold method_entry. apply decode_archive in Harch.
  destruct (rm_oneway m.2); cbn [me_handler me_oneway]; unfold native_oneway_method, native_method; rewrite Harch;
    cbn [rq_variant]; by rewrite (proj2 (Z.eqb_neq _ _) Hne).
Qed.
End transparent.

(** ** A service

    Two methods and a notification over integers: the implementation answers the
    sum of its arguments. *)

Module Sums.

Definition method_fn (name : string) : TraitItem :=
  IFn (MkTraitFn name [ArgPattern; ArgIdent "a" (TyOther "i64")]
         (Some (TyPath [("Observable"%string, Some [GType (TyOther "i64"); GType (TyOther "i64")])]))).

Definition sums_trait (items : list TraitItem) : ItemTrait := MkItemTrait "Sums" [] [] items.

Definition model_of (items : list TraitItem) : ServiceModel :=
  match read attr_default (sums_trait items) with
  | Ok model => model
  | Err _ => MkServiceModel "" "" "" 0 None []
  end.

Definition sums : ServiceModel := model_of [method_fn "sum"; IFn (MkTraitFn "touch" [ArgPattern] None)].
Definition clash : ServiceModel := model_of [method_fn "costarring"; method_fn "liquid"].

#[export] Instance sum_codec : RequestCodec Z := {
  archive r := Some (rq_variant r :: rq_args r);
  decode_aligned bs := match bs with v :: args => Some (MkRequest v args) | [] => None end
}.

#[export] Instance sum_codec_laws : RequestCodecLaws Z.
Proof. by intros [v args] bs [= <-]. Qed.

#[export] Instance sum_impl : ServiceImpl () (Script (Event Z Z)) (Script (Event Z Z)) Z := {
  impl_call _ _ args := MkScript [Ready (Next (fold_right Z.add 0 args)); Pending; Ready Complete];
  fut_poll fut _ := (Ready fut, fut)
}.

#[export] Instance sum_init : ServiceInit () nat := { on_init _ n := (true, S n); dependencies _ := [] }.

#[export] Instance sink : ResponseEmitter (CallEmitter SimBus) := CallEmitter_emit 0 Provider.proc0.

Abbreviation sum_task := (GenTask (Fut:=Script (Event Z Z)) (Src:=Script (Event Z Z)) (T:=Z) (E:=Z)).

Definition dispatcher0 : ServiceDispatcher sum_task (CallEmitter SimBus) := native_dispatcher Provider.proc0 sums ().

Definition clash_dispatcher : ServiceDispatcher sum_task (CallEmitter SimBus) := native_dispatcher Provider.proc0 clash ().

Definition clash_header : RpcHeader :=
  (header_request (method_id_of "costarring") (sr_id (SERVICE clash)) 1 Run.proc0).1.

Abbreviation sum_proxy := (Proxy (I:=()) (Fut:=Script (Event Z Z)) (Src:=Script (Event Z Z)) (T:=Z) (E:=Z) (M:=CallEmitter SimBus)).

Abbreviation sum_node :=
  (Node (I:=()) (Fut:=Script (Event Z Z)) (Src:=Script (Event Z Z)) (T:=Z) (E:=Z) (M:=CallEmitter SimBus) (X:=nat)).

Definition node0 (proxy : sum_proxy) : sum_node := MkNode {[ "sums"%string := proxy ]} (MkHost 0%nat ∅ registry_new).

Definition sums_snapshot : list (string * list string) := [("sums"%string, [])].

Definition sums_initialize : sum_node → list string * result () string * sum_node :=
  initialize_all (node_init Provider.proc0) node_start sums_snapshot.

Definition native_node : sum_node := node0 (provide_with_init (X:=nat) sums ()).
Definition json_node : sum_node := node0 (provide_json sums (λ d, d)).

Definition table0 : gmap Z (ServiceDispatcher sum_task (CallEmitter SimBus)) := {[ sr_id (SERVICE sums) := dispatcher0 ]}.

Definition sum_method : Z * RpcMethod :=
  default (0, MkRpcMethod "" "" [] unit_ty unit_ty unit_ty true) (numbered_methods sums !! 0%nat).

Definition ports0 : ConsumerPorts (C:=VecChannel) (P:=Script (Event Z Z)) (T:=Z) (E:=Z) := ports_new Run.bus0.
End Sums.

Import Sums.

Lemma sums_ids : ids_distinct (numbered_methods sums).
Proof. vm_compute. repeat constructor; set_solver. Qed.

Lemma sum_resolves : resolves (impl_call () "sum" [2; 3]) (impl_call (V:=Z) () "sum" [2; 3]).
Proof. apply resolves_ready. by intros th. Qed.

Lemma location_transparent_witness :
  let header := (call_begin empty_thread (SERVICE sums) (method_id_of "sum") Run.proc0 ports0).1.1.1 in
  ∃ ctx, (∀ sv,
    let (token, hub) := register_call (h_correlation_id header) (sv_hub sv) in
    handle_request (T:=Z) (E:=Z) 0 Provider.proc0 true table0 header [0; 2; 3] sv =
      ([], run_or_spawn 0 Provider.proc0 true
             (inl (cancellable (h_correlation_id header) token
                (MkGenTask (Calling ctx (impl_call () "sum" [2; 3])) header))) (set_hub sv hub))) ∧
    ∃ n s (samples : CollectEmitter),
      completes (gen_run (λ _, empty_thread)) (0%nat, (Calling ctx (impl_call () "sum" [2; 3]), [])) () (n, (s, samples)) ∧
      relay (T:=Z) (E:=Z) samples = ([Next 5; Complete], true).
Proof.
  intros header.
  destruct (location_transparent (C:=VecChannel) (P:=Script (Event Z Z)) (T:=Z) (E:=Z) 0 Provider.proc0 Provider.proc0
    (λ c, c) false empty_thread sums () sum_method [2; 3] (impl_call () "sum" [2; 3]) [Next 5; Complete] [0; 2; 3] 100
    Run.proc0 ports0 None) as [_ Ht];
    [apply sums_ids|vm_compute; set_solver|reflexivity|reflexivity|done|by intros []; eexists|apply sum_resolves| |reflexivity|].
  { apply (script_yields [Ready (Next 5); Pending; Ready Complete]). }
  destruct (call_begin _ _ _ _ _) as [[[header' tx] p2] st2] eqn:Hb in Ht.
  assert (Hh : header' = header) by (unfold header; change (method_id_of "sum") with (method_id_of (rm_fn_name sum_method.2)); by rewrite Hb).
  rewrite Hh in Ht. destruct (call_publish _ _ _ _ _ _) as [r st3] in Ht. destruct Ht as (_ & _ & ctx & Ht).
  exists ctx. split.
  - intros sv. apply (Ht true table0 sv). apply lookup_singleton_eq.
  - apply (Ht true table0 (server_new Run.bus0)). apply lookup_singleton_eq.
Defined.

(** Two names the hash of the ids does not tell apart. *)
Lemma colliding_method_lost_witness :
  let answer := dispatch clash_dispatcher (h_method_id clash_header) clash_header [0; 7]
                  (MkEmitter (hub_new Run.bus0) clash_header) in
  answer.1 = Some (MkDispatched (MkGenTask Finished clash_header) true) ∧
  map (event_kind ∘ fst) (bus_delivered (hub_bus (em_hub answer.2))) = [KRpcError].
Proof.
  intros answer. split; [|by vm_compute].
  destruct (colliding_method_lost (T:=Z) (E:=Z) (Src:=Script (Event Z Z)) 0 Provider.proc0 Provider.proc0 clash ()
    (default sum_method (numbered_methods clash !! 0%nat)) (default sum_method (numbered_methods clash !! 1%nat))
    [] (drop 1 (numbered_methods clash)) [7] [0; 7] clash_header (MkEmitter (hub_new Run.bus0) clash_header))
    as (m & between & rest & Hafter & _ & _ & Hd);
    [vm_compute; lia|by vm_compute|vm_compute; set_solver|by vm_compute|reflexivity|by vm_compute|].
  assert (Hm : rm_oneway m.2 = false).
  { assert (Hin : m ∈ drop 1 (numbered_methods clash)) by (rewrite Hafter; set_solver). vm_compute in Hin.
    apply list_elem_of_singleton in Hin as ->. reflexivity. }
  rewrite Hm in Hd. exact (f_equal fst Hd).
Defined.

(** The service of the process can be initialized again, its JSON twin cannot. *)
Lemma initialized_again_witness :
  (sums_initialize (sums_initialize (sums_initialize native_node).2).2).1.2 = Ok () ∧
  ∃ e, (sums_initialize (sums_initialize (sums_initialize json_node).2).2).1.2 = Err e.
Proof.
  assert (Hin : ∀ proxy name, name ∈ map fst sums_snapshot → nd_proxies (node0 proxy) !! name = Some proxy).
  { intros proxy name [->|Hn]%elem_of_cons; [reflexivity|by apply elem_of_nil in Hn]. }
  split.
  - destruct (sums_initialize native_node) as [[log r] nd'] eqn:Hrun.
    assert (Hr : r = Ok ()) by (by apply (f_equal (λ x, x.1.2)) in Hrun). subst r.
    assert (Hall : ∀ name, name ∈ map fst sums_snapshot → is_Some (nd_proxies native_node !! name))
      by (intros name Hn; unfold native_node; rewrite Hin by done; by eexists).
    apply (initialized_again Provider.proc0 sums_snapshot native_node log nd' Hall Hrun [sums_snapshot] sums_snapshot).
    intros l name Hl Hn. assert (l = sums_snapshot) as -> by set_solver. split; [done|]. unfold native_node. by rewrite Hin.
  - destruct (sums_initialize json_node) as [[log r] nd'] eqn:Hrun.
    assert (Hr : r = Ok ()) by (by apply (f_equal (λ x, x.1.2)) in Hrun). subst r.
    assert (Hall : ∀ name, name ∈ map fst sums_snapshot → is_Some (nd_proxies json_node !! name))
      by (intros name Hn; unfold json_node; rewrite Hin by done; by eexists).
    destruct (initialized_again Provider.proc0 sums_snapshot json_node log nd' Hall Hrun [sums_snapshot] sums_snapshot)
      as [_ Hagain]. apply (Hagain "sums"%string); [left|left|reflexivity].
Defined.
