(* ===== verification/JsonView.v ===== *)
(** * The JSON view and the decoder of a service ([codegen/json.rs], [codegen/decoder.rs],
    [monitor/decode.rs])

    The tables [#[service]] writes for the JSON transports and for an observer.
    Each is keyed by the names of the methods: requests to JSON values and back,
    answers to samples, payloads to text.  serde and base64 are the class
    [JsonValues]; how a value is shown is an argument of the decoder. *)

From S2P Require Import Prelude MachineInt Text Event Header Wire Stream Bridge Macro Generated Json Collector.

Local Open Scope Z_scope.

(** ** Types the conventions single out *)

(** The last segment of a path, with its arguments. *)
Definition last_segment (ty : Ty) : option (string * option (list GenericArg)) :=
  match ty with TyPath segments => last segments | _ => None end.

Definition is_type_string (ty : Ty) : bool :=
  match last_segment ty with Some (ident, _) => String.eqb ident "String" | None => false end.

Definition is_type_vec_u8 (ty : Ty) : bool :=
  match last_segment ty with
  | Some (ident, Some [GType inner]) =>
      String.eqb ident "Vec" &&
      match last_segment inner with Some (inner_ident, _) => String.eqb inner_ident "u8" | None => false end
  | _ => false
  end.

(** ** Values *)

Class JsonValues (V : Type) : Type := {
  to_value : V → option Value;
  from_value : Ty → Value → result V string;
  (** A value of [String], and of [Vec<u8>], as what it is. *)
  string_of : V → string;
  bytes_of : V → bytes;
  of_vec : bytes → V;
  base64_encode : bytes → string;
  base64_decode : string → result bytes string
}.

(** What serde writes of a value of a type it reads back, and base64 decodes what
    it encoded. *)
Class JsonValuesLaws (V : Type) `{JsonValues V} (has_type : V → Ty → Prop) : Prop := {
  from_to_value v ty j : has_type v ty → to_value v = Some j → from_value ty j = Ok v;
  from_string v ty : has_type v ty → is_type_string ty = true → from_value ty (VString (string_of v)) = Ok v;
  of_vec_bytes v ty : has_type v ty → is_type_vec_u8 ty = true → of_vec (bytes_of v) = v ∧ is_bytes (bytes_of v);
  base64_round bs : is_bytes bs → base64_decode (base64_encode bs) = Ok bs
}.

Section view.
Context {V : Type} `{JsonValues V} `{RequestCodec V}.

(** *** The provider: a request as a value *)

Definition arg_value (ty : Ty) (v : V) : option Value :=
  if is_type_vec_u8 ty then Some (VString (base64_encode (bytes_of v)))
  else if is_type_string ty then Some (VString (string_of v))
  else to_value v.

(** The fields of [json!]; the first that does not serialize ends it. *)
Fixpoint args_fields (args : list (string * Ty)) (values : list V) (fields : list (string * Value))
    : option (list (string * Value)) :=
  match args, values with
  | (name, ty) :: args', v :: values' => j ← arg_value ty v; args_fields args' values' (field_insert name j fields)
  | _, _ => Some fields
  end.

(** No argument is an empty object, one stands for itself, more are named. *)
Definition args_value (args : list (string * Ty)) (values : list V) : option Value :=
  match args, values with
  | [], _ => Some (VObject [])
  | [(_, ty)], v :: _ => arg_value ty v
  | _, _ => VObject <$> args_fields args values []
  end.

Definition method_named (methods : list (Z * RpcMethod)) (name : string) : option (Z * RpcMethod) :=
  find (λ m, String.eqb (rm_fn_name m.2) name) methods.

Definition deserialize_request_to_value (model : ServiceModel) (method : string) (bs : bytes) : option Value :=
  m ← method_named (numbered_methods model) method;
  request ← decode_aligned bs;
  if rq_variant request =? m.1 then args_value (rm_args m.2) (rq_args request) else None.

(** *** The provider: an answer as a sample *)

(** [event_from_json] at the two types of a method; a one-way method has no arm. *)
Definition serialize_response_from_value {S} (event_from_json : RpcMethod → Value → option S)
    (model : ServiceModel) (method : string) (value : Value) : option S :=
  m ← method_named (filter (λ m, rm_oneway m.2 = false) (numbered_methods model)) method;
  event_from_json m.2 value.

(** *** The caller: the arguments of a call *)

Definition value_get (args : Value) (name : string) : option Value :=
  match args with VObject fields => field_get name fields | _ => None end.

(** The named arguments, each taken out of the object in turn. *)
Fixpoint extract_fields (method : string) (args : Value) (l : list (string * Ty)) : result (list V) JsonCallError :=
  match l with
  | [] => Ok []
  | (name, ty) :: l' =>
      let '(extracted, args) :=
        if is_type_vec_u8 ty then
          (match arg_from_base64 base64_decode method name (value_get args name) with
           | Ok bs => Ok (of_vec bs)
           | Err e => Err e
           end, args)
        else let (value, args) := take_field args name in (arg_from_json (from_value ty) method name value, args) in
      match extracted with
      | Err e => Err e
      | Ok v => match extract_fields method args l' with Ok vs => Ok (v :: vs) | Err e => Err e end
      end
  end.

Definition arg_extraction (m : RpcMethod) (args : Value) : result (list V) JsonCallError :=
  match rm_args m with
  | [] => Ok []
  | [(name, ty)] =>
      if is_type_vec_u8 ty then
        match arg_from_base64 base64_decode (rm_fn_name m) name (Some args) with
        | Ok bs => Ok [of_vec bs]
        | Err e => Err e
        end
      else
        match arg_from_json (from_value ty) (rm_fn_name m) name args with Ok v => Ok [v] | Err e => Err e end
  | l => extract_fields (rm_fn_name m) args l
  end.

(** What [invoke_json] does before it waits: no such method, refused arguments,
    or a call of the proxy, whose answer is read or was accepted. *)
Inductive Invocation : Type :=
| NoMethod
| RefusedArgs (e : JsonCallError)
| Reads (m : Z * RpcMethod) (args : list V)
| Notifies (m : Z * RpcMethod) (args : list V).

Definition invoke_json (model : ServiceModel) (method : string) (args : Value) : Invocation :=
  match method_named (numbered_methods model) method with
  | None => NoMethod
  | Some m =>
      match arg_extraction m.2 args with
      | Err e => RefusedArgs e
      | Ok values => if rm_oneway m.2 then Notifies m values else Reads m values
      end
  end.

(** The outcome of a notification. *)
Definition oneway_outcome (sent : result bool RpcError) : result JsonOutcome JsonCallError :=
  match sent with
  | Ok delivered => Ok (JAccepted delivered)
  | Err e => Err (TransportFailure (RpcError_display e))
  end.

(** [json_host_oneway_handler]: the host is handed the call, and what it answers
    is dropped. *)
Definition json_host_oneway {R} (args : option Value) (dispatch_json : Value → result R string) : option R :=
  a ← args; match dispatch_json a with Ok events => Some events | Err _ => None end.
End view.

(** ** The two conventions agree *)

Lemma find_filter_ne {A} (name other : string) (fs : list (string * A)) :
  other ≠ name →
  find (λ f, bool_decide (f.1 = other)) (filter (λ f, f.1 ≠ name) fs) = find (λ f, bool_decide (f.1 = other)) fs.
Proof.
  intros Hne. induction fs as [|[n j] fs IH]; [done|]. rewrite filter_cons. simpl.
  destruct (decide (n = name)) as [->|Hn].
  - rewrite decide_False by naive_solver. rewrite bool_decide_eq_false_2 by naive_solver. done.
  - rewrite decide_True by done. simpl. destruct (bool_decide (n = other)); [done|apply IH].
Qed.

Lemma find_app {A} (f : A → bool) (l k : list A) :
  find f (l ++ k) = match find f l with Some x => Some x | None => find f k end.
Proof. induction l as [|x l IH]; [done|]. simpl. by destruct (f x). Qed.

Lemma find_filter_eq {A} (name : string) (fs : list (string * A)) :
  find (λ f, bool_decide (f.1 = name)) (filter (λ f, f.1 ≠ name) fs) = None.
Proof.
  induction fs as [|[n j] fs IH]; [done|]. rewrite filter_cons. case_decide as Hn; [|done].
  simpl. by rewrite bool_decide_eq_false_2.
Qed.

Lemma field_get_insert name other j fields :
  field_get other (field_insert name j fields) = if decide (other = name) then Some j else field_get other fields.
Proof.
  unfold field_get, field_insert, field_remove. rewrite find_app. destruct (decide (other = name)) as [->|Hne].
  - rewrite find_filter_eq. simpl. by rewrite bool_decide_eq_true_2.
  - rewrite find_filter_ne by done. simpl. rewrite bool_decide_eq_false_2 by done. by destruct (find _ fields).
Qed.

Lemma take_field_spec fields name j :
  field_get name fields = Some j →
  ∃ fields', take_field (VObject fields) name = (j, VObject fields') ∧
    ∀ other, other ≠ name → field_get other fields' = field_get other fields.
Proof.
  intros Hg. unfold take_field. rewrite Hg. eexists. split; [done|]. intros other Hne. unfold field_get. clear Hg.
  induction fields as [|[n v] fields IH]; [done|]. simpl. destruct (bool_decide (n = name)) eqn:Hn; simpl.
  - apply bool_decide_eq_true in Hn as ->. by rewrite bool_decide_eq_false_2 by done.
  - by destruct (bool_decide (n = other)).
Qed.

Local Arguments take_field : simpl never.

Section round_trip.
Context {V : Type} (has_type : V → Ty → Prop) `{JsonValuesLaws V has_type} `{RequestCodecLaws V}.

Lemma arg_value_reads ty v j method name :
  has_type v ty → arg_value ty v = Some j →
  if is_type_vec_u8 ty
  then arg_from_base64 base64_decode method name (Some j) = Ok (bytes_of v) ∧ of_vec (bytes_of v) = v
  else arg_from_json (from_value ty) method name j = Ok v.
Proof.
  intros Ht. unfold arg_value. destruct (is_type_vec_u8 ty) eqn:Hv.
  - intros [= <-]. unfold arg_from_base64. simpl.
    destruct (of_vec_bytes v ty Ht Hv) as [Hof Hbs]. by rewrite base64_round.
  - unfold arg_from_json. destruct (is_type_string ty) eqn:Hs.
    + intros [= <-]. by erewrite from_string.
    + intros Hj. by erewrite from_to_value.
Qed.

(** The fields of the object, by name. *)
Lemma args_fields_get args values fields fields' :
  args_fields args values fields = Some fields' → NoDup (map fst args) → length args = length values →
  (∀ i name ty v, args !! i = Some (name, ty) → values !! i = Some v →
     ∃ j, arg_value ty v = Some j ∧ field_get name fields' = Some j) ∧
  (∀ other, other ∉ map fst args → field_get other fields' = field_get other fields).
Proof.
  revert values fields. induction args as [|[name ty] args IH]; intros [|v values] fields; simpl; try done.
  { intros [= <-] _ _. by split. }
  destruct (arg_value ty v) as [j|] eqn:Hj; simpl; [|done]. intros Hf [Hn Hnd]%NoDup_cons [= Hlen].
  destruct (IH values _ Hf Hnd Hlen) as [Hget Hother]. split.
  - intros [|i] name' ty' v'; simpl; [|by apply Hget]. intros [= <- <-] [= <-]. exists j. split; [done|].
    rewrite Hother by done. rewrite field_get_insert. by rewrite decide_True.
  - intros other [Hne Ho]%not_elem_of_cons. rewrite Hother by done. rewrite field_get_insert. by rewrite decide_False.
Qed.

Lemma extract_fields_round method args values fields :
  NoDup (map fst args) → Forall2 (λ v a, has_type v a.2) values args →
  (∀ i name ty v, args !! i = Some (name, ty) → values !! i = Some v →
     ∃ j, arg_value ty v = Some j ∧ field_get name fields = Some j) →
  extract_fields method (VObject fields) args = Ok values.
Proof.
  intros Hnd Ht. revert fields Hnd. induction Ht as [|v [name ty] values args Hv Ht IH]; intros fields Hnd Hget; [done|].
  simpl in *. apply NoDup_cons in Hnd as [Hn Hnd].
  destruct (Hget 0%nat name ty v eq_refl eq_refl) as (j & Hj & Hf).
  pose proof (arg_value_reads ty v j method name Hv Hj) as Hr.
  destruct (is_type_vec_u8 ty).
  - destruct Hr as [Hr Hb]. rewrite Hf, Hr, Hb. rewrite IH; [done|done|]. intros i. apply (Hget (S i)).
  - destruct (take_field_spec fields name j Hf) as (fields' & Htake & Hkeep). rewrite Htake, Hr.
    rewrite IH; [done|done|]. intros i name' ty' v' Ha Hvs. destruct (Hget (S i) name' ty' v' Ha Hvs) as (j' & ? & ?).
    exists j'. split; [done|]. rewrite Hkeep; [done|]. intros ->. apply Hn.
    apply list_elem_of_fmap. exists (name, ty'). split; [done|]. by eapply list_elem_of_lookup_2.
Qed.

Lemma arg_extraction_round m values j :
  NoDup (map fst (rm_args m)) → Forall2 (λ v a, has_type v a.2) values (rm_args m) →
  args_value (rm_args m) values = Some j → arg_extraction m j = Ok values.
Proof.
  intros Hnd Ht. unfold args_value, arg_extraction. destruct Ht as [|v [name ty] values args Hv Ht]; [done|].
  destruct Ht as [|v' a' values args Hv' Ht].
  - intros Hj. pose proof (arg_value_reads ty v j (rm_fn_name m) name Hv Hj) as Hr.
    destruct (is_type_vec_u8 ty); [destruct Hr as [Hr Hb]; by rewrite Hr, Hb|by rewrite Hr].
  - destruct (args_fields _ _ []) as [fields|] eqn:Hf; [|done]. intros [= <-].
    apply (extract_fields_round (rm_fn_name m) ((name, ty) :: a' :: args) (v :: v' :: values) fields Hnd).
    { by repeat constructor. }
    refine (proj1 (args_fields_get _ _ [] fields Hf Hnd _)).
    simpl. do 2 f_equal. symmetry. by eapply Forall2_length.
Qed.

Definition fn_names_distinct (model : ServiceModel) : Prop :=
  NoDup (map (λ m, rm_fn_name m.2) (numbered_methods model)).

Lemma method_named_found (methods : list (Z * RpcMethod)) m :
  NoDup (map (λ m, rm_fn_name m.2) methods) → m ∈ methods → method_named methods (rm_fn_name m.2) = Some m.
Proof.
  induction methods as [|m' methods IH]; intros Hnd Hm; [by apply elem_of_nil in Hm|].
  simpl in *. apply NoDup_cons in Hnd as [Hn Hnd]. unfold method_named. simpl.
  apply elem_of_cons in Hm as [->|Hm]; [by rewrite String.eqb_refl|].
  destruct (String.eqb_spec (rm_fn_name m'.2) (rm_fn_name m.2)) as [Heq|_]; [|by apply IH].
  exfalso. apply Hn. rewrite Heq. apply list_elem_of_fmap. by exists m.
Qed.

Lemma args_fields_total args (values : list V) fields :
  Forall (λ v, is_Some (to_value v)) values → is_Some (args_fields args values fields).
Proof.
  intros Hs. revert args fields. induction Hs as [|v values Hv Hs IH]; intros [|[name ty] args] fields; simpl; try by eexists.
  unfold arg_value. destruct Hv as [j Hj]. destruct (is_type_vec_u8 ty), (is_type_string ty); simpl; rewrite ?Hj; apply IH.
Qed.

Lemma args_value_total args (values : list V) :
  length values = length args → Forall (λ v, is_Some (to_value v)) values → is_Some (args_value args values).
Proof.
  intros Hlen Hs. unfold args_value. destruct args as [|[name ty] [|a args]]; [by eexists|destruct values as [|v values]; [done|]|].
  - apply Forall_cons in Hs as [[j Hj] _]. unfold arg_value. destruct (is_type_vec_u8 ty), (is_type_string ty); by eexists.
  - destruct (args_fields_total ((name, ty) :: a :: args) values [] Hs) as [fields ->]. by eexists.
Qed.

(** C27. The two directions of the JSON view agree: a request whose arguments
    serialize has a value for the JSON host, and that value, sent by a JSON
    caller, decodes to the same arguments, whatever their number and types, and
    calls, or notifies, the same method with them. *)
Theorem json_args_round_trip model m values bs :
  fn_names_distinct model → m ∈ numbered_methods model → NoDup (map fst (rm_args m.2)) →
  Forall2 (λ v a, has_type v a.2) values (rm_args m.2) → Forall (λ v, is_Some (to_value v)) values →
  archive (MkRequest m.1 values) = Some bs →
  ∃ j, deserialize_request_to_value model (rm_fn_name m.2) bs = Some j ∧
    invoke_json model (rm_fn_name m.2) j = if rm_oneway m.2 then Notifies m values else Reads m values.
Proof.
  intros Hnames Hm Hnd Ht Hser Harch. unfold deserialize_request_to_value, invoke_json.
  rewrite (method_named_found _ _ Hnames Hm). simpl.
  rewrite (decode_archive _ _ Harch). simpl. rewrite Z.eqb_refl.
  destruct (args_value_total (rm_args m.2) values) as [j Hj]; [by eapply Forall2_length|done|].
  exists j. split; [done|]. by rewrite (arg_extraction_round m.2 values j Hnd Ht Hj).
Qed.
End round_trip.

(** ** The decoder of an observer *)

Section decoder.
Context {V T E : Type} `{RequestCodec V} `{Codec T E}.
(** [render_value!] at the types of the service. *)
Context (render_arg : V → string) (render_ok : T → string) (render_err : E → string).

(** [Display] of a request: the name, and the arguments as [name=value]. *)
Definition render_args (names : list string) (values : list V) : list string :=
  zip_with (λ name v, (name +:+ "=" +:+ render_arg v)%string) names values.

Definition request_text (m : RpcMethod) (values : list V) : string :=
  (rm_fn_name m +:+ "(" +:+ String.concat ", " (render_args (map fst (rm_args m)) values) +:+ ")")%string.

(** The arm of the variant of the request. *)
Definition request_display (model : ServiceModel) (r : Request V) : option string :=
  m ← find (λ m : Z * RpcMethod, m.1 =? rq_variant r) (numbered_methods model);
  Some (request_text m.2 (rq_args r)).

Definition decode_request (model : ServiceModel) (payload : bytes) : option string :=
  r ← decode_aligned payload; request_display model r.

Definition wire_text (unit_ok : bool) (w : WireEvent T E) : string :=
  match w with
  | WNext v | WCompleteWith v => if unit_ok then "()" else render_ok v
  | WComplete => "complete"
  | WError e => "error: " +:+ render_err e
  | WRpcError e => "rpc error: " +:+ RpcError_display e
  end%string.

(** [decode_response], and [decode_response_unit] when [unit_ok]. *)
Definition decode_response (unit_ok : bool) (payload : bytes) : option string := wire_text unit_ok <$> decode_event payload.

(** Method ids are tried in order. *)
Definition decoder_method_name (model : ServiceModel) (method_id : Z) : option string :=
  (λ m : Z * RpcMethod, rm_fn_name m.2) <$>
    find (λ m : Z * RpcMethod, method_id =? method_id_of (rm_fn_name m.2)) (numbered_methods model).

Definition generated_decoder (model : ServiceModel) : ServiceDecoder :=
  MkServiceDecoder
    (λ method payload, _ ← method_named (numbered_methods model) method; decode_request model payload)
    (λ method payload,
       m ← method_named (numbered_methods model) method;
       if rm_oneway m.2 then None else decode_response (is_unit_type (rm_ok_type m.2)) payload)
    (decoder_method_name model).

(** [Decoders::linked], over the registrations in the order of the linker. *)
Definition linked (models : list ServiceModel) : Decoders :=
  fold_left (λ decoders model,
    decoders_register (service_id_of (sm_logical_name model)) (generated_decoder model) decoders) models ∅.
End decoder.

(** A table filled in order, with distinct keys. *)
Lemma fold_insert_in {A B} (key : A → Z) (val : A → B) l (m : gmap Z B) x :
  NoDup (map key l) → x ∈ l → fold_left (λ m x, <[key x := val x]> m) l m !! key x = Some (val x).
Proof.
  induction l as [|y l IH] using rev_ind; intros Hnd Hx; [by apply elem_of_nil in Hx|].
  rewrite fold_left_app. simpl. rewrite map_app in Hnd. apply NoDup_app in Hnd as (Hnd & Hdis & _).
  apply elem_of_app in Hx as [Hx|Hx%list_elem_of_singleton]; [|subst; by rewrite lookup_insert_eq].
  rewrite lookup_insert_ne; [by apply IH|]. intros Heq. apply (Hdis (key x)); [apply list_elem_of_fmap; by exists x|].
  rewrite <- Heq. left.
Qed.

Lemma find_ext {A} (f g : A → bool) (l : list A) : (∀ x, f x = g x) → find f l = find g l.
Proof. intros Hfg. induction l as [|x l IH]; [done|]. simpl. by rewrite Hfg, IH. Qed.

Lemma find_unique {A} (f : A → Z) (k : Z) (l : list A) x :
  NoDup (map f l) → x ∈ l → f x = k → find (λ y, f y =? k) l = Some x.
Proof.
  induction l as [|y l IH]; intros Hnd Hx Hk; [by apply elem_of_nil in Hx|]. simpl in *.
  apply NoDup_cons in Hnd as [Hn Hnd]. apply elem_of_cons in Hx as [->|Hx]; [by rewrite Hk, Z.eqb_refl|].
  destruct (Z.eqb_spec (f y) k) as [Heq|_]; [|by apply IH]. exfalso. apply Hn. rewrite Heq, <- Hk.
  apply list_elem_of_fmap. by exists x.
Qed.

Section observed.
Context {V T E : Type} `{RequestCodecLaws V} `{CodecLaws T E}.
Context (render_arg : V → string) (render_ok : T → string) (render_err : E → string).

(** What an observer is to show: every argument of a request, in order, ... *)
Inductive shows_args : list (string * Ty) → list V → string → Prop :=
| shows_none : shows_args [] [] ""
| shows_last name ty v : shows_args [(name, ty)] [v] (name +:+ "=" +:+ render_arg v)
| shows_more name ty v args values text :
    args ≠ [] → shows_args args values text →
    shows_args ((name, ty) :: args) (v :: values) (name +:+ "=" +:+ render_arg v +:+ ", " +:+ text).

(** ... and each answer as what it is. *)
Inductive shows_answer (ok_type : Ty) : WireEvent T E → string → Prop :=
| shows_value v w : w = WNext v ∨ w = WCompleteWith v → ok_type ≠ TyTuple [] → shows_answer ok_type w (render_ok v)
| shows_unit v w : w = WNext v ∨ w = WCompleteWith v → ok_type = TyTuple [] → shows_answer ok_type w "()"
| shows_complete : shows_answer ok_type WComplete "complete"
| shows_error e : shows_answer ok_type (WError e) ("error: " +:+ render_err e)
| shows_rpc_error e : shows_answer ok_type (WRpcError e) ("rpc error: " +:+ RpcError_display e).

Lemma string_app_assoc (a b c : string) : (a +:+ b) +:+ c = a +:+ (b +:+ c).
Proof. induction a as [|x a IH]; [done|]. exact (f_equal (String x) IH). Qed.

Lemma request_text_shows (args : list (string * Ty)) (values : list V) :
  length values = length args → shows_args args values (String.concat ", " (render_args render_arg (map fst args) values)).
Proof.
  revert values. induction args as [|[name ty] args IH]; intros [|v values] Hl; try discriminate Hl; [constructor|].
  injection Hl as Hl. specialize (IH values Hl). destruct args as [|[name' ty'] args], values as [|v' values]; try discriminate Hl;
    [constructor|].
  set (text := String.concat ", " (render_args render_arg (map fst ((name', ty') :: args)) (v' :: values))) in *.
  change (shows_args ((name, ty) :: (name', ty') :: args) (v :: v' :: values) ((name +:+ "=" +:+ render_arg v) +:+ ", " +:+ text)).
  rewrite !string_app_assoc. by apply shows_more.
Qed.

Lemma wire_text_shows ty w : shows_answer ty w (wire_text render_ok render_err (is_unit_type ty) w).
Proof.
  pose proof (is_unit_type_spec ty) as Hu. destruct w; simpl; try constructor; destruct (is_unit_type ty);
    solve [eapply shows_unit; [eauto|by apply Hu]|eapply shows_value; [eauto|intros ?%Hu; done]].
Qed.

End observed.

(** ** A service

    A method of two arguments, a number and bytes, and a notification. *)

Module Ledger.

Definition vec_u8 : Ty := TyPath [("Vec"%string, Some [GType (TyPath [("u8"%string, None)])])].

Definition ledger : ServiceModel :=
  match read attr_default (MkItemTrait "Ledger" [] []
    [IFn (MkTraitFn "append" [ArgPattern; ArgIdent "row" (TyOther "u64"); ArgIdent "data" vec_u8]
       (Some (TyPath [("Observable"%string, Some [GType (TyOther "i64"); GType (TyOther "i64")])])));
     IFn (MkTraitFn "flush" [ArgPattern] None)]) with
  | Ok model => model
  | Err _ => MkServiceModel "" "" "" 0 None []
  end.

Inductive Arg : Type := ANum (z : Z) | ABytes (data : string).

Definition arg_has_type (v : Arg) (ty : Ty) : Prop :=
  match v with ANum _ => ty = TyOther "u64" | ABytes _ => ty = vec_u8 end.

(** The text of the bytes stands for base64 here. *)
#[export] Instance arg_json : JsonValues Arg := {
  to_value v := match v with
                | ANum z => Some (VNumber (NPosInt z))
                | ABytes data => Some (VString data)
                end;
  from_value ty j := match j with
                     | VNumber (NPosInt z) => Ok (ANum z)
                     | VString data => Ok (ABytes data)
                     | _ => Err "invalid type"%string
                     end;
  string_of v := match v with ABytes data => data | ANum _ => ""%string end;
  bytes_of v := match v with ABytes data => as_bytes data | ANum _ => [] end;
  of_vec bs := ABytes (of_bytes bs);
  base64_encode := of_bytes;
  base64_decode text := Ok (as_bytes text)
}.

#[export] Instance arg_json_laws : JsonValuesLaws Arg arg_has_type.
Proof.
  split.
  - by intros [z|data] ty j _ [= <-].
  - by intros [z|data] ty Ht Hs; simpl in Ht; subst ty.
  - intros [z|data] ty Ht Hv; simpl in Ht; subst ty; [done|]. simpl. split; [by rewrite of_as_bytes|apply is_bytes_as_bytes].
  - intros bs Hbs. simpl. by rewrite as_of_bytes.
Qed.

#[export] Instance arg_codec : RequestCodec Arg := {
  archive r := match rq_args r with
               | [] => Some [rq_variant r]
               | [ANum z; ABytes data] => Some (rq_variant r :: z :: as_bytes data)
               | _ => None
               end;
  decode_aligned bs := match bs with
                       | [v] => Some (MkRequest v [])
                       | v :: z :: data => Some (MkRequest v [ANum z; ABytes (of_bytes data)])
                       | [] => None
                       end
}.

#[export] Instance arg_codec_laws : RequestCodecLaws Arg.
Proof.
  intros [v args] bs. simpl. destruct args as [|[z|] [|[|data] [|]]]; try done; intros [= <-]; [done|].
  by rewrite of_as_bytes.
Qed.

Definition append : Z * RpcMethod :=
  default (0, MkRpcMethod "" "" [] unit_ty unit_ty unit_ty true) (numbered_methods ledger !! 0%nat).

Definition row : list Arg := [ANum 7; ABytes "abc"].

Lemma append_in : append ∈ numbered_methods ledger.
Proof. left. Qed.

Lemma names_distinct : fn_names_distinct ledger.
Proof. vm_compute. repeat constructor; set_solver. Qed.
End Ledger.

Import Ledger.

Lemma json_args_round_trip_witness :
  ∃ j, deserialize_request_to_value ledger "append" [0; 7; 97; 98; 99] = Some j ∧
    j = VObject [("row", VNumber (NPosInt 7)); ("data", VString "abc")]%string ∧
    invoke_json ledger "append" j = Reads append row.
Proof.
  destruct (json_args_round_trip arg_has_type ledger append row [0; 7; 97; 98; 99]) as (j & Hd & Hi);
    [apply names_distinct|apply append_in|vm_compute; repeat constructor; set_solver|by repeat constructor|
     by repeat constructor; eexists|reflexivity|].
  exists j. split; [exact Hd|]. split; [|exact Hi]. vm_compute in Hd. by injection Hd as <-.
Defined.

