(* ===== verification/Main.v ===== *)
(** * The entry points of a process ([ice-rpc-macros/src/entry.rs], [features.rs], [lib.rs])

    [#[ice_rpc::main]]: which driver the attribute names, what it refuses, and
    what the generated [main] does around the body.  [run_provider!]: the
    cleaning of the bus, the registrations, the initialization and the wait.  A
    program is a sequence of the steps of [Process.v]. *)

From S2P Require Import Prelude MachineInt Text Event Open Process Locator Macro.

(** ** Features *)

Record Features : Type := MkFeatures { fe_monitoring : bool; fe_json : bool }.

Definition features_display (f : Features) : string :=
  let names := (if fe_monitoring f then ["monitoring"] else []) ++ (if fe_json f then ["json"] else []) in
  match names with
  | [] => "none"
  | _ => String.concat "." names
  end%string.

Lemma features_named_apart f g : features_display f = features_display g → f = g.
Proof. destruct f as [[] []], g as [[] []]; by intros [=]. Qed.

(** ** The symbol of a service *)

(** [replace('-', "_")]. *)
Definition collision_symbol (logical_name : string) : string :=
  "__ICE_RPC_SVC_" +:+ of_bytes (map (λ c, if bool_decide (c = 45)%Z then 95%Z else c) (as_bytes logical_name)).

(** Two names that differ only by these characters cannot be linked together. *)
Lemma hyphen_names_clash : collision_symbol "a-b" = collision_symbol "a_b".
Proof. reflexivity. Qed.

(** ** [#[ice_rpc::main]] *)

Inductive Driver : Type :=
| Agnostic
| Tokio
| NoRuntime
| Custom (path : list string).

(** [char::is_whitespace], on ASCII text. *)
Definition is_space (c : Z) : bool := ((9 <=? c) && (c <=? 13) || (c =? 32))%Z.

Section entry.
(** [syn::parse2::<Path>], on the texts of the tokens. *)
Context (parse_path : list string → result (list string) SynError).

Definition compact (attr : list string) : string :=
  of_bytes (filter (λ c, is_space c = false) (as_bytes (String.concat "" attr))).

Definition parse_driver (attr : list string) : result Driver SynError :=
  match attr with
  | [] => Ok Agnostic
  | _ =>
      if String.eqb (compact attr) "rt-none" then Ok NoRuntime
      else
        match parse_path attr with
        | Err e => Err e
        | Ok path => Ok (if bool_decide (path = ["tokio"%string]) then Tokio else Custom path)
        end
  end.

Record ItemFn : Type := MkItemFn { fn_ident : string; fn_inputs : nat; fn_async : bool }.

(** What the generated [main] does, in order. *)
Inductive MainAct : Type :=
| BuildRuntime
| Init
| Body
| Shutdown
| RuntimeShutdown (millis : Z).

Definition refused_name : string := "#[ice_rpc::main] must be applied to `main`".
Definition refused_inputs : string := "#[ice_rpc::main] does not accept arguments on `main`".
Definition refused_async : string :=
  "#[ice_rpc::main(rt-none)] must be applied to a synchronous `fn main` (drop `async`)".
Definition refused_sync : string :=
  "#[ice_rpc::main] must be applied to an `async fn main` (use `#[ice_rpc::main(rt-none)]` for a synchronous one)".

Definition expand_main (attr : list string) (func : ItemFn) : result (Driver * list MainAct) SynError :=
  match parse_driver attr with
  | Err e => Err e
  | Ok driver =>
      if negb (String.eqb (fn_ident func) "main") then Err (Message refused_name)
      else if negb (fn_inputs func =? 0)%nat then Err (Message refused_inputs)
      else
        let wrapped := [Init; Body; Shutdown] in
        match driver with
        | NoRuntime => if fn_async func then Err (Message refused_async) else Ok (driver, wrapped)
        | _ =>
            if negb (fn_async func) then Err (Message refused_sync)
            else
              match driver with
              | Tokio => Ok (driver, BuildRuntime :: wrapped ++ [RuntimeShutdown 500])
              | _ => Ok (driver, wrapped)
              end
        end
  end.
End entry.

(** ** A run of the generated [main] *)

Section run.
Context {W : Type} `{BusOpen W} {R : Type}.

(** How the body ends: it returns, early or not, or it unwinds. *)
Inductive BodyEnd : Type := Returned (r : R) | Unwound.

(** The guard belongs to [main]: the body has no way to it. *)
Definition body_step (s : ProcessStep) : bool := match s with PShutdown | PDropGuard => false | _ => true end.

(** The steps of an act, and of the drop of the guard behind the last one; [wait]
    is what happens while the shutdown waits. *)
Definition act_steps (body wait : list ProcessStep) (a : MainAct) : list ProcessStep :=
  match a with
  | Body => body
  | Shutdown => PShutdown :: wait
  | _ => []
  end.

(** An unwinding body skips what is behind it, and drops the guard. *)
Fixpoint main_steps (body wait : list ProcessStep) (ending : BodyEnd) (acts : list MainAct) : list ProcessStep :=
  match acts with
  | [] => [PDropGuard]
  | Body :: acts' =>
      body ++ match ending with Returned _ => main_steps body wait ending acts' | Unwound => [PDropGuard] end
  | a :: acts' => act_steps body wait a ++ main_steps body wait ending acts'
  end.

(** What [main] answers. *)
Definition main_result (ending : BodyEnd) : option R := match ending with Returned r => Some r | Unwound => None end.

Lemma body_not_done body p : forallb body_step body = true → pr_done p = false → pr_done (run body p) = false.
Proof.
  revert p. induction body as [|s body IH]; intros p; simpl; [done|]. intros [Hs Hb]%andb_true_iff Hd. apply IH; [done|].
  destruct s as [channel kept|j| |t| | | |]; simpl in *; try done.
  - pose proof (consumer_ports_phase channel p) as [Hc _].
    destruct (consumer_ports channel p) as [[j|e] p']; simpl in Hc; [destruct kept|]; simpl; congruence.
  - unfold join_poll. destruct (pr_phase p); [done| |done]. by destruct (drop_ended p _).
Qed.

(** The plans of the four drivers. *)
Definition plan (acts : list MainAct) : Prop :=
  acts = [Init; Body; Shutdown] ∨ acts = [BuildRuntime; Init; Body; Shutdown; RuntimeShutdown 500].

Lemma plan_steps acts body wait :
  plan acts →
  (∀ r, main_steps body wait (Returned r) acts = body ++ PShutdown :: wait ++ [PDropGuard]) ∧
  main_steps body wait Unwound acts = body ++ [PDropGuard].
Proof. by intros [-> | ->]. Qed.

Definition synchronous (d : Driver) : bool := match d with NoRuntime => true | _ => false end.

Lemma expand_main_plan parse_path attr func driver acts :
  expand_main parse_path attr func = Ok (driver, acts) →
  plan acts ∧ fn_ident func = "main"%string ∧ fn_inputs func = 0%nat ∧ fn_async func = negb (synchronous driver).
Proof.
  unfold expand_main, plan. destruct (parse_driver parse_path attr) as [d|]; [|done].
  destruct (String.eqb_spec (fn_ident func) "main") as [Hn|]; [|done]. destruct (Nat.eqb_spec (fn_inputs func) 0) as [Hi|]; [|done].
  simpl. destruct d, (fn_async func); simpl; intros [= <- <-]; eauto.
Qed.

(** C16. An accepted [main] shuts down whatever its body does: a body that returns,
    early or not, answers for [main] and is followed by the whole clean shutdown,
    after which the tokens are cancelled, and, once the threads have returned,
    nothing of the process is left on the bus; a body that unwinds cancels the
    tokens and joins nothing.  Only a synchronous [main] is accepted without a
    runtime, and only an asynchronous one with one. *)
Theorem main_always_shuts_down parse_path attr func driver acts body wait ending w :
  expand_main parse_path attr func = Ok (driver, acts) →
  forallb body_step body = true → forallb quiet_step wait = true →
  fn_async func = negb (synchronous driver) ∧
  let p := run (main_steps body wait ending acts) (process_new w) in
  pr_global_stop p = true ∧ pr_registry_stop p = true ∧
  match ending with
  | Returned r =>
      main_result ending = Some r ∧
      (pr_phase p = ShutDown →
         (∀ t k, pr_tasks p !! t = Some k → ta_ended k = true) ∧ pr_cache p = ∅ ∧ pr_node p = None) ∧
      ((∀ t k, pr_tasks p !! t = Some k → ta_ended k = true) → pr_phase (process_step p PJoin) = ShutDown)
  | Unwound =>
      pr_handles p = pr_handles (run body (process_new w)) ∧ pr_node p = pr_node (run body (process_new w))
  end.
Proof.
  intros (Hplan & _ & _ & Hasync)%expand_main_plan Hbody Hwait. split; [done|].
  destruct (plan_steps acts body wait Hplan) as [Hret Hun].
  pose proof (body_not_done body (process_new w) Hbody eq_refl) as Hd. destruct ending as [r|].
  - rewrite Hret. intros p. assert (Hc : closing p).
    { unfold p. rewrite run_app. simpl. apply run_closing; [rewrite forallb_app, Hwait; done|].
      unfold shutdown. rewrite Hd. unfold closing. simpl. eauto 10. }
    assert (Ht : tasks_ok p) by (apply run_tasks_ok; [apply process_new_ok|]; by intros ??).
    destruct (closing_releases p Ht Hc) as (Hg & Hr & Hsd & Hj). split_and!; [done|done|done| |done].
    intros Hph. destruct (Hsd Hph) as (? & ? & ? & _). by split_and!.
  - rewrite Hun, run_app. simpl. unfold drop_guard. by rewrite Hd.
Qed.
End run.

(** ** Signals *)

Inductive SignalHandlingMode : Type := HandleTerminationRequests | Disabled.

Definition resolve_signal_handling_mode (enabled : bool) : SignalHandlingMode :=
  if enabled then HandleTerminationRequests else Disabled.

(** The flag [init], [init_without_ctrl_c] and [run_provider_inner] leave. *)
Inductive Starter : Type := StartInit | StartWithoutCtrlC | StartProvider.

Definition signals_after (s : Starter) : bool :=
  match s with StartInit | StartProvider => true | StartWithoutCtrlC => false end.

(** The mode of the wait sets opened behind a series of starters; a process
    handles its signals before any of them. *)
Definition waitset_signal_handling_mode (starters : list Starter) : SignalHandlingMode :=
  resolve_signal_handling_mode (match last starters with Some s => signals_after s | None => true end).

Lemma provider_takes_signals_back starters :
  waitset_signal_handling_mode (starters ++ [StartWithoutCtrlC; StartProvider]) = HandleTerminationRequests.
Proof.
  unfold waitset_signal_handling_mode. change [StartWithoutCtrlC; StartProvider] with ([StartWithoutCtrlC] ++ [StartProvider]).
  by rewrite app_assoc, last_snoc.
Qed.

(** ** [run_provider!] *)

Section provider.
(** The reaping of what killed processes left, the [init] of a service, the start
    of the channels; and the iteration of the registry, with the dependencies. *)
Context {St : Type} (cleanup_dead_nodes sweep_orphan_shm_markers : St → St).
Context (init : string → St → bool * St) (start_channels : St → St).
Context (snapshot : gmap string ServiceInstance → list (string * list string)).

(** The future is at its wait, or has ended. *)
Inductive ProviderFuture : Type := WaitsForShutdown | Ended (r : result () string).

Record ProviderRun : Type := MkProviderRun {
  pv_signals : bool;
  pv_locator : ServiceLocator;
  pv_world : St;
  (** The services whose [init] was called. *)
  pv_log : list string;
  pv_future : ProviderFuture
}.

Definition register_each (services : list (string * ServiceInstance)) (loc : ServiceLocator) : ServiceLocator :=
  fold_left (λ loc s, (register s.1 s.2 loc).2) services loc.

(** [run_provider_inner], to its wait. *)
Definition run_provider_inner (services : list (string * ServiceInstance)) (loc : ServiceLocator) (st : St) : ProviderRun :=
  let st := sweep_orphan_shm_markers (cleanup_dead_nodes st) in
  let loc := register_each services loc in
  let '(log, r, st) := initialize_all init start_channels (snapshot (loc_entries loc)) st in
  MkProviderRun (signals_after StartProvider) loc st log
    (match r with Ok _ => WaitsForShutdown | Err e => Ended (Err e) end).

(** A poll, with the global token. *)
Definition provider_poll (global_stop : bool) (f : ProviderFuture) : poll (result () string) :=
  match f with
  | Ended r => Ready r
  | WaitsForShutdown => if global_stop then Ready (Ok ()) else Pending
  end.

Lemma register_each_entries services loc name :
  loc_entries (register_each services loc) !! name =
  match last (filter (λ s, s.1 = name) services) with Some s => Some s.2 | None => loc_entries loc !! name end.
Proof.
  unfold register_each. induction services as [|s services IH] using rev_ind; [done|].
  rewrite fold_left_app, filter_app. cbn [fold_left register snd loc_entries].
  destruct (decide (s.1 = name)) as [<-|Hne].
  - rewrite lookup_insert_eq. rewrite filter_cons_True by done. by rewrite filter_nil, last_snoc.
  - rewrite lookup_insert_ne by done. rewrite filter_cons_False by done. by rewrite filter_nil, app_nil_r.
Qed.

(** A provider that waits serves: every service given, and every one registered
    before, had its [init] called and answered, the channels are started, the
    signals are handled, and the future is pending exactly until the process is
    told to stop.  A service that fails is the last one called, and ends the
    future with its name; nothing waits then. *)
Lemma provider_waits_serving services loc st :
  (∀ m name, name ∈ map fst (snapshot m) ↔ is_Some (m !! name)) →
  let r := run_provider_inner services loc st in
  pv_signals r = true ∧
  match pv_future r with
  | WaitsForShutdown =>
      (∀ name, name ∈ map fst services ∨ is_Some (loc_entries loc !! name) → name ∈ pv_log r) ∧
      (∃ st1, pv_world r = start_channels st1) ∧
      (∀ stop, provider_poll stop (pv_future r) = if stop then Ready (Ok ()) else Pending)
  | Ended out => ∃ before name, pv_log r = before ++ [name] ∧ out = Err (failed_message name) ∧
      is_Some (loc_entries (pv_locator r) !! name)
  end.
Proof.
  intros Hsnap. unfold run_provider_inner, initialize_all. set (loc' := register_each services loc).
  set (names := map fst (snapshot (loc_entries loc'))). set (deps := map snd _).
  pose proof (run_inits_spec init names (topological_order names deps) (sweep_orphan_shm_markers (cleanup_dead_nodes st))) as Hr.
  pose proof (topological_order_perm names deps) as Hperm.
  destruct (run_inits init names _ _) as [[log failure] st1]. destruct Hr as ((rest & Hmap & Hrest) & -> & Hf).
  assert (Hlog : log ++ rest ≡ₚ names) by (rewrite <- Hmap, Hperm; by rewrite names_seq).
  destruct failure as [name|]; simpl; (split; [done|]).
  - destruct Hf as (before & -> & _). exists before, name. split_and!; [done..|]. apply Hsnap. fold names. rewrite <- Hlog. set_solver.
  - rewrite (Hrest eq_refl), app_nil_r in Hlog. split; [|split; [by eexists|done]]. intros name Hn. rewrite Hlog. apply Hsnap.
    unfold loc'. rewrite register_each_entries. destruct (last _) as [s|] eqn:Hl; [done|].
    apply last_None in Hl. destruct Hn as [([n i] & -> & Hin)%list_elem_of_fmap|Hn]; [|done].
    apply (filter_nil_not_elem_of _ _ (n, i)) in Hl; [|done]. done.
Qed.
End provider.

(** ** A program

    It uses a channel, and returns while its dispatch thread runs. *)

Definition plain_path (attr : list string) : result (list string) SynError := Ok attr.

Lemma main_always_shuts_down_witness :
  let p := run (main_steps [PUse "orders" false] [PTaskEnds 0; PJoin] (Returned 3%Z)
                  [BuildRuntime; Init; Body; Shutdown; RuntimeShutdown 500]) (process_new [true]) in
  expand_main plain_path ["tokio"%string] (MkItemFn "main" 0 true) =
    Ok (Tokio, [BuildRuntime; Init; Body; Shutdown; RuntimeShutdown 500]) ∧
  pr_phase p = ShutDown ∧ pr_node p = None ∧ pr_cache p = ∅.
Proof.
  intros p. split; [reflexivity|].
  destruct (main_always_shuts_down plain_path ["tokio"%string] (MkItemFn "main" 0 true) Tokio
    [BuildRuntime; Init; Body; Shutdown; RuntimeShutdown 500] [PUse "orders" false] [PTaskEnds 0; PJoin] (Returned 3%Z) [true])
    as (_ & _ & _ & _ & Hsd & _); [reflexivity|reflexivity|reflexivity|].
  assert (Hph : pr_phase p = ShutDown) by (vm_compute; reflexivity).
  split; [exact Hph|]. destruct (Hsd Hph) as (_ & Hc & Hn). by split.
Defined.
