(* ===== verification/Render.v ===== *)
(** * The exposition of the metrics ([ice-rpc-monitor/src/metrics/prometheus.rs],
    [metrics/render.rs], [prometheus.rs])

    The registry as text, in the order of the source: a family per metric, a
    line per series.  The text is read back by a reader of the exposition format,
    which is what a scraper does; the text of a float is an argument. *)

From S2P Require Import Prelude MachineInt Text Metrics Parse Health.

Local Open Scope Z_scope.

(** ** Ordered maps *)

(** [BTreeMap] iterates in the order of the keys. *)
Class KeyOrder (K : Type) : Type := key_cmp : K → K → comparison.

#[export] Instance string_order : KeyOrder string := String.compare.
#[export] Instance Z_order : KeyOrder Z := Z.compare.
#[export] Instance prod_order {A B} `{KeyOrder A, KeyOrder B} : KeyOrder (A * B) := λ x y,
  match key_cmp x.1 y.1 with Eq => key_cmp x.2 y.2 | c => c end.

Section ordered.
Context {K A : Type} `{KeyOrder K} `{Countable K}.

Fixpoint insert_key (e : K * A) (l : list (K * A)) : list (K * A) :=
  match l with
  | [] => [e]
  | e' :: l' => match key_cmp e.1 e'.1 with Gt => e' :: insert_key e l' | _ => e :: l end
  end.

Definition btree (m : gmap K A) : list (K * A) := foldr insert_key [] (map_to_list m).

Lemma insert_key_perm e l : insert_key e l ≡ₚ e :: l.
Proof. induction l as [|e' l IH]; simpl; [done|]. destruct (key_cmp _ _); [done|done|]. rewrite IH. constructor. Qed.

Lemma btree_perm m : btree m ≡ₚ map_to_list m.
Proof. unfold btree. induction (map_to_list m) as [|e l IH]; simpl; [done|]. by rewrite insert_key_perm, IH. Qed.

Lemma elem_of_btree m k a : (k, a) ∈ btree m ↔ m !! k = Some a.
Proof. by rewrite btree_perm, elem_of_map_to_list. Qed.
End ordered.

(** ** Series *)

Record Series : Type := MkSeries { se_name : bytes; se_labels : list (bytes * bytes); se_value : bytes }.

Record Family : Type := MkFamily { fa_name : string; fa_help : string; fa_kind : string; fa_series : list Series }.

Definition label (name : string) (value : string) : bytes * bytes := (as_bytes name, as_bytes value).

Definition series (name : string) (labels : list (bytes * bytes)) (value : string) : Series :=
  MkSeries (as_bytes name) labels (as_bytes value).

Section registry.
(** [Display] of a float. *)
Context (show : f64 → string).

(** [render_histogram]: the buckets, the one of infinity, the sum and the count. *)
Definition histogram_series (name : string) (labels : list (bytes * bytes)) (h : Histogram) (bounds : list f64)
    : list Series :=
  zip_with (λ slot bound, series (name +:+ "_bucket") (labels ++ [label "le" (show bound)]) (pretty slot))
    (hi_buckets h) bounds
  ++ [series (name +:+ "_bucket") (labels ++ [label "le" "+Inf"]) (pretty (hi_count h));
      series (name +:+ "_sum") labels (show (hi_sum h));
      series (name +:+ "_count") labels (pretty (hi_count h))].

Definition csm (last : string) (k : string * Z * string) : list (bytes * bytes) :=
  [label "channel" k.1.1; label "service" (pretty k.1.2); label last k.2].

Definition gauge (name help : string) (value : Z) : Family := MkFamily name help "gauge" [series name [] (pretty value)].
Definition counter (name help : string) (value : Z) : Family := MkFamily name help "counter" [series name [] (pretty value)].

Definition channel_labels (k : string * string) : list (bytes * bytes) := [label "channel" k.1; label "direction" k.2].

Definition channel_family (name help : string) (value : ChannelSample → Z) (i : Inventory) : Family :=
  MkFamily name help "gauge" (map (λ '(k, s), series name (channel_labels k) (pretty (value s))) (btree (iv_channels i))).

Definition capacity_series (e : (string * string) * ChannelSample) : list Series :=
  let line kind value := series "ice_rpc_channel_capacity" (channel_labels e.1 ++ [label "kind" kind]) (pretty value) in
  [line "max_publishers" (cs_max_publishers e.2); line "max_subscribers" (cs_max_subscribers e.2);
   line "subscriber_buffer_samples" (cs_subscriber_buffer e.2)]%string.

Definition per_channel (name : string) (m : gmap string Z) : list Series :=
  map (λ '(channel, value), series name [label "channel" channel] (pretty value)) (btree m).

(** The families of the traffic. *)
Definition traffic_families (m : Metrics) : list Family :=
  [MkFamily "ice_rpc_requests_total" "Requests observed on the bus" "counter"
     (map (λ '(k, v), series "ice_rpc_requests_total" (csm "method" k) (pretty v)) (btree (m_requests m)));
   MkFamily "ice_rpc_responses_total" "Response samples observed on the bus" "counter"
     (map (λ '(k, v), series "ice_rpc_responses_total" (csm "kind" k) (pretty v)) (btree (m_responses m)));
   MkFamily "ice_rpc_latency_seconds" "Exact request-to-first-response latency" "histogram"
     (concat (map (λ '(k, h), histogram_series "ice_rpc_latency_seconds" (csm "method" k) h LATENCY_BOUNDS)
        (btree (m_latency m))));
   MkFamily "ice_rpc_payload_bytes" "Payload length of the observed samples" "histogram"
     (concat (map (λ '(k, h), histogram_series "ice_rpc_payload_bytes" (channel_labels k) h PAYLOAD_BOUNDS)
        (btree (m_payload m))));
   MkFamily "ice_rpc_inflight" "Calls currently awaiting their response" "gauge"
     (map (λ '(k, v), series "ice_rpc_inflight" [label "channel" k.1; label "service" (pretty k.2)] (pretty v))
        (btree (m_inflight m)));
   MkFamily "ice_rpc_unmatched_requests_total" "Requests never answered before their TTL" "counter"
     (per_channel "ice_rpc_unmatched_requests_total" (m_unmatched m));
   MkFamily "ice_rpc_orphan_responses_total" "Responses without a tracked request" "counter"
     (per_channel "ice_rpc_orphan_responses_total" (m_orphan m));
   counter "ice_rpc_clock_skew_total" "Negative latencies (clock adjustment)" (m_clock_skew m);
   gauge "ice_rpc_nodes_alive" "Emitting processes currently alive" (m_nodes_alive m);
   counter "ice_rpc_node_crashes_total" "Emitting processes that disappeared" (m_node_crashes m)]%string.

(** The families of the nodes and of the channels. *)
Definition node_families (i : Inventory) : list Family :=
  [MkFamily "ice_rpc_nodes" "Nodes by native liveness state" "gauge"
     (map (λ '(state, v), series "ice_rpc_nodes" [label "state" state] (pretty v)) (btree (iv_node_states i)));
   MkFamily "ice_rpc_node_info" "One series per node, value is always 1" "gauge"
     (map (λ '((pid, state, executable), v),
        series "ice_rpc_node_info" [label "pid" (pretty pid); label "state" state; label "executable" executable] (pretty v))
        (btree (iv_node_info i)));
   gauge "ice_rpc_services" "Ice-rpc services present on the bus, one per observed channel" (iv_services i);
   channel_family "ice_rpc_channel" "Whether the observer is attached to a direction" cs_attached i;
   channel_family "ice_rpc_channel_publishers" "Active publishers of a channel direction" cs_publishers i;
   channel_family "ice_rpc_channel_subscribers" "Active subscribers of a channel direction, observer excluded" cs_subscribers i;
   MkFamily "ice_rpc_channel_capacity" "Declared capacity of a channel direction" "gauge"
     (concat (map capacity_series (btree (iv_channels i))))]%string.

(** The resources of an observed process, which the optional system library
    measures: without it there is none. *)
Record ProcessSample : Type := MkProcess {
  ps_name : string;
  ps_cpu_percent : f64;
  ps_cpu_percent_total : f64;
  ps_rss_bytes : Z;
  ps_virtual_bytes : Z;
  ps_run_time_secs : Z
}.

Definition process_family (name help : string) (value : ProcessSample → string) (processes : gmap Z ProcessSample) : Family :=
  MkFamily name help "gauge"
    (map (λ '(pid, p), series name [label "pid" (pretty pid); label "name" (ps_name p)] (value p)) (btree processes)).

Definition process_families (processes : gmap Z ProcessSample) : list Family :=
  if decide (processes = ∅) then [] else
  [process_family "ice_rpc_process_cpu_percent"
     "CPU usage of an observed process, as a percentage of ONE core (can exceed 100)" (show ∘ ps_cpu_percent) processes;
   process_family "ice_rpc_process_cpu_percent_total"
     "CPU usage of an observed process, normalised to 0..100 over all cores" (show ∘ ps_cpu_percent_total) processes;
   process_family "ice_rpc_process_rss_bytes" "Resident memory of an observed process" (pretty ∘ ps_rss_bytes) processes;
   process_family "ice_rpc_process_virtual_bytes" "Virtual memory of an observed process" (pretty ∘ ps_virtual_bytes) processes;
   process_family "ice_rpc_process_uptime_seconds" "Uptime of an observed process" (pretty ∘ ps_run_time_secs) processes]%string.

(** The families of the host and of the scans. *)
Definition host_families (i : Inventory) : list Family :=
  let '(bytes, segments, files) := default (0, 0, 0) (iv_shm i) in
  [gauge "ice_rpc_shm_scan_enabled" "Whether the shared-memory footprint scan is enabled"
     (match iv_shm i with Some _ => 1 | None => 0 end);
   gauge "ice_rpc_shm_bytes" "Measured size of the iceoryx2 shared-memory segments" bytes;
   gauge "ice_rpc_shm_segments" "Measured number of iceoryx2 segment files" segments;
   gauge "ice_rpc_shm_files" "iceoryx2 files seen by the footprint walk" files;
   gauge "ice_rpc_host_cpu_count" "Number of logical CPUs of the host" (iv_host_cpu_count i);
   counter "ice_rpc_health_scans_total" "Inventory scans performed" (iv_health_scans i);
   counter "ice_rpc_health_errors_total" "Failed partial inventory scans" (iv_health_errors i);
   counter "ice_rpc_observer_dropped_traces_total" "Trace records dropped by a saturated sink" (iv_observer_dropped i)]%string.

(** The two last counters, of the observer. *)
Definition observer_families (m : Metrics) (i : Inventory) : list Family :=
  [counter "ice_rpc_observer_gaps_total" "Samples the observer itself missed, from seq holes" (m_sample_gaps m);
   counter "ice_rpc_discovery_errors_total" "Failed channel discovery attempts" (iv_discovery_errors i)]%string.

Definition families (m : Metrics) (i : Inventory) (processes : gmap Z ProcessSample) : list Family :=
  traffic_families m ++ node_families i ++ process_families processes ++ host_families i ++ observer_families m i.
End registry.

(** ** Text *)

Definition DQ : Z := 34.
Definition LF : Z := 10.

Fixpoint join_labels (labels : list (bytes * bytes)) : bytes :=
  match labels with
  | [] => []
  | [(k, v)] => k ++ [61; DQ] ++ v ++ [DQ]
  | (k, v) :: rest => k ++ [61; DQ] ++ v ++ [DQ; 44] ++ join_labels rest
  end.

(** The label values are written as they are. *)
Definition series_line (s : Series) : bytes :=
  se_name s ++ (match se_labels s with [] => [] | l => [123] ++ join_labels l ++ [125] end) ++ [32] ++ se_value s ++ [LF].

Definition render_family (f : Family) : bytes :=
  as_bytes ("# HELP " +:+ fa_name f +:+ " " +:+ fa_help f) ++ [LF]
  ++ as_bytes ("# TYPE " +:+ fa_name f +:+ " " +:+ fa_kind f) ++ [LF]
  ++ concat (map series_line (fa_series f)).

Definition render_prometheus (show : f64 → string) (m : Metrics) (i : Inventory) (processes : gmap Z ProcessSample) : bytes :=
  concat (map render_family (families show m i processes)).

(** ** Reading the text back

    The reader of the exposition format: a line per series, the lines that start
    with a hash are comments, and a backslash escapes a character of a label value. *)

Fixpoint lines (text : bytes) : list bytes :=
  match text with
  | [] => []
  | c :: r =>
    if c =? LF then [] :: lines r
    else match lines r with [] => [[c]] | l :: ls => (c :: l) :: ls end
  end.

(** The bytes before the first one that stops, and what follows from there. *)
Fixpoint read_until (stop : Z → bool) (s : bytes) : bytes * bytes :=
  match s with
  | [] => ([], [])
  | c :: r => if stop c then ([], s) else let '(a, b) := read_until stop r in (c :: a, b)
  end.

Definition unescape (c : Z) : Z := if c =? 110 then LF else c.

(** A label value, up to its closing quote. *)
Fixpoint read_quoted (s : bytes) : option (bytes * bytes) :=
  match s with
  | [] => None
  | c :: r =>
    if c =? DQ then Some ([], r)
    else if c =? 92 then
      match r with [] => None | e :: r' => '(v, rest) ← read_quoted r'; Some (unescape e :: v, rest) end
    else '(v, rest) ← read_quoted r; Some (c :: v, rest)
  end.

Fixpoint read_labels (fuel : nat) (s : bytes) : option (list (bytes * bytes) * bytes) :=
  match fuel, read_until (Z.eqb 61) s with
  | S fuel', (k, 61 :: 34 :: r) =>
    '(v, r') ← read_quoted r;
    match r' with
    | 44 :: r'' => '(l, rest) ← read_labels fuel' r''; Some ((k, v) :: l, rest)
    | 125 :: r'' => Some ([(k, v)], r'')
    | _ => None
    end
  | _, _ => None
  end.

Definition read_series (s : bytes) : option (list Series) :=
  match read_until (λ c, (c =? 123) || (c =? 32)) s with
  | (name, 32 :: value) => Some [MkSeries name [] value]
  | (name, 123 :: r) =>
    '(labels, rest) ← read_labels (length r) r;
    match rest with 32 :: value => Some [MkSeries name labels value] | _ => None end
  | _ => None
  end.

(** A comment holds no series, a malformed line is an error. *)
Definition read_line (s : bytes) : option (list Series) :=
  match s with [] => Some [] | c :: _ => if c =? 35 then Some [] else read_series s end.

Definition read_exposition (text : bytes) : option (list Series) := (λ l, concat l) <$> mapM read_line (lines text).

(** ** What is read is what was written *)

Definition plain_byte (b : Z) : bool := negb ((b =? DQ) || (b =? 92) || (b =? LF)).
Definition plain (s : bytes) : Prop := forallb plain_byte s = true.

Definition key_byte (b : Z) : bool := negb ((b =? 61) || (b =? LF)).
Definition name_byte (b : Z) : bool := negb ((b =? 123) || (b =? 32) || (b =? LF) || (b =? 35)).

Record wf_series (s : Series) : Prop := MkWf {
  wf_name : forallb name_byte (se_name s) = true;
  wf_keys : Forall (λ l, forallb key_byte l.1 = true) (se_labels s);
  wf_values : Forall (λ l, plain l.2) (se_labels s);
  wf_value : plain (se_value s) }.

Definition no_lf (s : bytes) : Prop := LF ∉ s.

Record wf_family (f : Family) : Prop := MkWfF {
  wf_help : forallb plain_byte (as_bytes (fa_help f)) = true;
  wf_fname : forallb plain_byte (as_bytes (fa_name f)) = true;
  wf_kind : forallb plain_byte (as_bytes (fa_kind f)) = true;
  wf_series_all : Forall wf_series (fa_series f) }.

Lemma forallb_no_lf p s : p LF = false → forallb p s = true → no_lf s.
Proof.
  intros Hp Hs Hin. rewrite forallb_forall in Hs. apply list_elem_of_In, Hs in Hin. congruence.
Qed.

Lemma plain_no_lf s : plain s → no_lf s.
Proof. by apply forallb_no_lf. Qed.

Lemma lines_app l r : no_lf l → lines (l ++ LF :: r) = l :: lines r.
Proof.
  unfold no_lf. induction l as [|c l IH]; [done|]. intros Hl. apply not_elem_of_cons in Hl as [Hc Hl].
  cbn [app lines]. rewrite (IH Hl). by destruct (Z.eqb_spec c LF) as [->|].
Qed.

Lemma read_until_app stop l c r :
  forallb (λ b, negb (stop b)) l = true → stop c = true → read_until stop (l ++ c :: r) = (l, c :: r).
Proof.
  intros Hl Hc. induction l as [|b l IH]; cbn [app read_until]; [by rewrite Hc|].
  simpl in Hl. apply andb_true_iff in Hl as [->%negb_true_iff Hl]. by rewrite IH.
Qed.

Lemma read_quoted_plain v r : plain v → read_quoted (v ++ DQ :: r) = Some (v, r).
Proof.
  unfold plain. induction v as [|c v IH]; [done|]. cbn [forallb]. intros [Hc Hv]%andb_true_iff.
  unfold plain_byte in Hc. cbn [app read_quoted].
  destruct (c =? DQ), (c =? 92); try done. by rewrite (IH Hv).
Qed.

Lemma forallb_weaken {A} (p q : A → bool) l : (∀ x, p x = true → q x = true) → forallb p l = true → forallb q l = true.
Proof. intros Hpq. rewrite !forallb_forall. auto. Qed.

Lemma key_stops k r : forallb key_byte k = true → read_until (Z.eqb 61) (k ++ 61 :: r) = (k, 61 :: r).
Proof.
  intros Hk. apply read_until_app; [|done]. eapply forallb_weaken, Hk. intros b. unfold key_byte.
  rewrite (Z.eqb_sym 61). by destruct (b =? 61).
Qed.

Lemma read_labels_join fuel l r :
  l ≠ [] → (length l ≤ fuel)%nat →
  Forall (λ x, forallb key_byte x.1 = true) l → Forall (λ x, plain x.2) l →
  read_labels fuel (join_labels l ++ 125 :: r) = Some (l, r).
Proof.
  revert fuel. induction l as [|[k v] l IH]; intros [|fuel] Hl Hf; [done..|simpl in Hf; lia|].
  intros [Hk Hks]%Forall_cons [Hv Hvs]%Forall_cons. simpl in Hk, Hv, Hf.
  destruct l as [|kv l]; cbn [join_labels read_labels]; rewrite <- !app_assoc; cbn [app];
    rewrite key_stops by done; unfold DQ at 1; fold DQ; rewrite <- ?app_assoc; cbn [app];
    rewrite read_quoted_plain by done; cbn [mbind option_bind]; [done|].
  rewrite IH by (done || lia). done.
Qed.

Lemma join_labels_long l : (length l ≤ length (join_labels l))%nat.
Proof.
  induction l as [|[k v] [|kv l] IH]; [done| |]; cbn [join_labels]; rewrite !length_app in *; simpl in *; lia.
Qed.

Lemma join_labels_no_lf l :
  Forall (λ x, forallb key_byte x.1 = true) l → Forall (λ x, plain x.2) l → no_lf (join_labels l).
Proof.
  unfold no_lf. induction l as [|[k v] [|kv l] IH]; intros Hk Hv; cbn [join_labels]; [by apply not_elem_of_nil|..];
    apply Forall_cons in Hk as [Hk Hks], Hv as [Hv Hvs]; simpl in *;
    apply (forallb_no_lf key_byte) in Hk; [|done| |done]; apply plain_no_lf in Hv; unfold no_lf, DQ, LF in *;
    specialize (IH Hks Hvs) || clear IH; set_solver by lia.
Qed.

Lemma plain_pretty_go x s : plain (as_bytes s) → plain (as_bytes (pretty_N_go x s)).
Proof.
  unfold plain. revert s. induction (N.lt_wf_0 x) as [x _ IH]. intros s Hs.
  assert (x = 0 ∨ 0 < x)%N as [->|Hx] by lia; [by rewrite pretty_N_go_0|].
  rewrite pretty_N_go_step by done. apply IH; [by apply N.div_lt|].
  change (as_bytes (String ?c ?t)) with (Z.of_N (Ascii.N_of_ascii c) :: as_bytes t). cbn [forallb].
  rewrite Hs, andb_true_r. assert (Hd := digit_char (x `mod` 10)%N ltac:(by apply N.mod_lt)).
  unfold digit in Hd. unfold plain_byte, DQ, LF. revert Hd.
  generalize (Z.of_N (Ascii.N_of_ascii (pretty_N_char (x `mod` 10)))). intros b.
  intros Hd. destruct (Z.eqb_spec b 34), (Z.eqb_spec b 92), (Z.eqb_spec b 10); subst; done.
Qed.

Lemma plain_pretty (z : Z) : plain (as_bytes (pretty z)).
Proof.
  destruct z as [|p|p]; [done|by apply plain_pretty_go|].
  change (pretty (Zneg p)) with ("-" +:+ pretty_N_go (Npos p) "")%string.
  rewrite as_bytes_app. unfold plain. rewrite forallb_app. simpl. by apply plain_pretty_go.
Qed.

(** The name of a series ends where its labels or its value start. *)
Lemma name_ends name c r :
  forallb name_byte name = true → c = 123 ∨ c = 32 →
  read_until (λ c, (c =? 123) || (c =? 32)) (name ++ c :: r) = (name, c :: r)
  ∧ read_line (name ++ c :: r) = read_series (name ++ c :: r).
Proof.
  intros Hn Hc. split.
  - apply read_until_app; [|by destruct Hc as [->| ->]]. eapply forallb_weaken, Hn.
    intros b. unfold name_byte. by destruct (b =? 123), (b =? 32).
  - destruct name as [|b name]; [by destruct Hc as [->| ->]|]. simpl in Hn. unfold name_byte in Hn.
    cbn [app read_line]. destruct (b =? 35); [|done]. by rewrite !orb_true_r in Hn.
Qed.

Definition series_text (s : Series) : bytes :=
  se_name s ++ (match se_labels s with [] => [] | l => [123] ++ join_labels l ++ [125] end) ++ [32] ++ se_value s.

Lemma series_line_text s : series_line s = series_text s ++ [LF].
Proof. unfold series_line, series_text. by rewrite <- !app_assoc. Qed.

Lemma series_text_no_lf s : wf_series s → no_lf (series_text s).
Proof.
  intros [Hn%forallb_no_lf Hk Hv Hval%plain_no_lf]; [|done]. pose proof (join_labels_no_lf _ Hk Hv) as Hj.
  unfold series_text, no_lf, LF in *. destruct (se_labels s); set_solver by lia.
Qed.

Lemma read_series_text s : wf_series s → read_line (series_text s) = Some [s].
Proof.
  destruct s as [name labels value]. intros [Hn Hk Hv _]. unfold series_text. cbn [se_name se_labels se_value] in *.
  destruct labels as [|kv labels]; cbn [app].
  - destruct (name_ends name 32 value Hn) as [Ht ->]; [by right|]. unfold read_series. by rewrite Ht.
  - rewrite <- !app_assoc. cbn [app].
    destruct (name_ends name 123 (join_labels (kv :: labels) ++ 125 :: 32 :: value) Hn) as [Ht ->]; [by left|].
    unfold read_series. rewrite Ht, read_labels_join; [done|done| |done|done].
    rewrite length_app. pose proof (join_labels_long (kv :: labels)). lia.
Qed.

(** [reads a l]: whatever follows, the text [a] is read as the series [l]. *)
Definition reads (a : bytes) (l : list Series) : Prop :=
  ∀ b, read_exposition (a ++ b) = (λ r, l ++ r) <$> read_exposition b.

Lemma reads_nil : reads [] [].
Proof. intros b. simpl. by destruct (read_exposition b). Qed.

Lemma reads_app a1 l1 a2 l2 : reads a1 l1 → reads a2 l2 → reads (a1 ++ a2) (l1 ++ l2).
Proof.
  intros H1 H2 b. rewrite <- app_assoc, H1, H2. destruct (read_exposition b); simpl; [|done]. by rewrite app_assoc.
Qed.

Lemma reads_line a l : no_lf a → read_line a = Some l → reads (a ++ [LF]) l.
Proof.
  intros Ha Hl b. unfold read_exposition. rewrite <- app_assoc. cbn [app]. rewrite lines_app by done.
  cbn [mapM]. rewrite Hl. simpl. by destruct (mapM read_line (lines b)).
Qed.

Lemma reads_concat {A} (f : A → bytes) (g : A → list Series) l :
  Forall (λ x, reads (f x) (g x)) l → reads (concat (map f l)) (concat (map g l)).
Proof. induction 1; simpl; [apply reads_nil|by apply reads_app]. Qed.

(** A heading is a comment. *)
Lemma reads_comment s : plain s → reads (35 :: s ++ [LF]) [].
Proof.
  intros Hs%plain_no_lf. apply (reads_line (35 :: s)); [|done]. unfold no_lf, LF in *. set_solver by lia.
Qed.

Lemma plain_app s t : plain s → plain t → plain (s ++ t).
Proof. unfold plain. rewrite forallb_app. by intros -> ->. Qed.

Lemma concat_singletons {A} (l : list A) : concat (map (λ x, [x]) l) = l.
Proof. induction l as [|x l IH]; [done|]. simpl. by rewrite IH. Qed.

Lemma reads_family f : wf_family f → reads (render_family f) (fa_series f).
Proof.
  intros [Hh Hn Hk Hs]. unfold render_family.
  assert (Heading : ∀ word x, plain (as_bytes word) → plain (as_bytes x) →
    reads (as_bytes (("# " +:+ word) +:+ fa_name f +:+ " " +:+ x) ++ [LF]) []).
  { intros word x Hw Hx. rewrite !as_bytes_app. apply reads_comment. rewrite <- ?app_assoc.
    repeat apply plain_app; done. }
  rewrite app_assoc. apply (reads_app _ []); [by apply (Heading "HELP ")|].
  rewrite app_assoc. apply (reads_app _ []); [by apply (Heading "TYPE ")|].
  pose proof (reads_concat series_line (λ s, [s]) (fa_series f)) as Hr. rewrite concat_singletons in Hr.
  apply Hr. eapply Forall_impl; [exact Hs|]. intros s Hwf. rewrite series_line_text.
  apply reads_line; [by apply series_text_no_lf|by apply read_series_text].
Qed.

(** *** The families are well formed *)

(** The texts of a key hold no quote, no backslash and no line feed. *)
Class PlainKey (K : Type) : Type := plain_key : K → Prop.

#[export] Instance string_plain : PlainKey string := λ s, plain (as_bytes s).
#[export] Instance Z_plain : PlainKey Z := λ _, True.
#[export] Instance prod_plain {A B} `{PlainKey A, PlainKey B} : PlainKey (A * B) := λ x, plain_key x.1 ∧ plain_key x.2.

Definition plain_keys {K A} `{Countable K, PlainKey K} (m : gmap K A) : Prop := map_Forall (λ k _, plain_key k) m.

(** The texts the registry is keyed by. *)
Record plain_registry (m : Metrics) (i : Inventory) (processes : gmap Z ProcessSample) : Prop := MkPlain {
  pr_requests : plain_keys (m_requests m); pr_responses : plain_keys (m_responses m);
  pr_latency : plain_keys (m_latency m); pr_payload : plain_keys (m_payload m);
  pr_inflight : plain_keys (m_inflight m); pr_unmatched : plain_keys (m_unmatched m);
  pr_orphan : plain_keys (m_orphan m); pr_states : plain_keys (iv_node_states i);
  pr_info : plain_keys (iv_node_info i); pr_channels : plain_keys (iv_channels i);
  pr_processes : map_Forall (λ _ p, plain (as_bytes (ps_name p))) processes }.

Lemma btree_Forall {K A} `{Countable K, KeyOrder K} (P : K * A → Prop) (m : gmap K A) :
  map_Forall (λ k a, P (k, a)) m → Forall P (btree m).
Proof. intros Hm. apply Forall_forall. intros [k a] Hk%elem_of_btree. by apply Hm. Qed.

Lemma wf_series_intro name labels value :
  forallb name_byte (as_bytes name) = true → Forall (λ l, forallb key_byte l.1 = true ∧ plain l.2) labels →
  plain (as_bytes value) → wf_series (series name labels value).
Proof. intros Hn [Hk Hv]%Forall_and Hval. by split. Qed.

Lemma csm_plain last k :
  plain_key k → forallb key_byte (as_bytes last) = true →
  Forall (λ l, forallb key_byte l.1 = true ∧ plain l.2) (csm last k).
Proof.
  destruct k as [[c s] x]. intros [[Hc _] Hx] Hl. unfold csm, label. cbn [fst snd] in *.
  repeat (apply Forall_cons_2; [split; [by vm_compute || exact Hl|cbn [fst snd]; auto using plain_pretty]|]).
  apply Forall_nil_2.
Qed.

Lemma channel_labels_plain k :
  plain_key k → Forall (λ l, forallb key_byte l.1 = true ∧ plain l.2) (channel_labels k).
Proof.
  destruct k as [c d]. intros [Hc Hd].
  repeat (apply Forall_cons_2; [split; [by vm_compute|done]|]). apply Forall_nil_2.
Qed.

Lemma label_plain name value :
  forallb key_byte (as_bytes name) = true → plain (as_bytes value) →
  Forall (λ l, forallb key_byte l.1 = true ∧ plain l.2) [label name value].
Proof. intros Hn Hv. by constructor. Qed.

(** The labels of a series, from what is known of its key. *)
Ltac labels_wf Hk :=
  first [by apply csm_plain | by apply channel_labels_plain
        | unfold label; repeat (apply Forall_cons_2; [split; [by vm_compute|]|]); [..|apply Forall_nil_2];
          cbn [fst snd]; first [apply plain_pretty | apply Hk]].

Section families_plain.
Context (show : f64 → string) (Hshow : ∀ x, plain (as_bytes (show x))).

Lemma histogram_wf name labels h bounds :
  forallb name_byte (as_bytes name) = true →
  Forall (λ l, forallb key_byte l.1 = true ∧ plain l.2) labels →
  Forall wf_series (histogram_series show name labels h bounds).
Proof.
  intros Hn Hl. unfold histogram_series.
  assert (Hname : ∀ s, forallb name_byte (as_bytes s) = true → forallb name_byte (as_bytes (name +:+ s)) = true).
  { intros s Hs. by rewrite as_bytes_app, forallb_app, Hn, Hs. }
  apply Forall_app. split.
  - generalize (hi_buckets h) as slots, bounds. clear bounds. induction slots as [|slot slots IH]; intros [|b bounds]; simpl; [constructor..|].
    constructor; [|apply IH]. apply wf_series_intro; [by apply Hname|by apply Forall_app_2, label_plain|apply plain_pretty].
  - repeat (apply Forall_cons_2; [apply wf_series_intro|]); try apply Forall_nil_2;
      auto using plain_pretty. by apply Forall_app_2, label_plain.
Qed.

Lemma scalar_wf name help kind (value : Z) :
  forallb plain_byte (as_bytes help) = true → forallb plain_byte (as_bytes name) = true →
  forallb name_byte (as_bytes name) = true → forallb plain_byte (as_bytes kind) = true →
  wf_family (MkFamily name help kind [series name [] (pretty value)]).
Proof. intros. split; try done. constructor; [|done]. by apply wf_series_intro; [|done|apply plain_pretty]. Qed.

(** A family of a line per key. *)
Lemma keyed_wf {K A} `{Countable K, KeyOrder K} (Q : K → A → Prop) name help kind (line : K * A → Series) (m : gmap K A) :
  forallb plain_byte (as_bytes help) && forallb plain_byte (as_bytes name) && forallb plain_byte (as_bytes kind) = true →
  map_Forall Q m → (∀ k a, Q k a → wf_series (line (k, a))) →
  wf_family (MkFamily name help kind (map line (btree m))).
Proof.
  intros [[Hh Hn]%andb_true_iff Hk]%andb_true_iff Hm Hline. split; try done.
  apply Forall_map, btree_Forall. eapply map_Forall_impl; [exact Hm|]. eauto.
Qed.

(** A family of several lines per key. *)
Lemma grouped_wf {K A} `{Countable K, KeyOrder K} (Q : K → A → Prop) name help kind (group : K * A → list Series) (m : gmap K A) :
  forallb plain_byte (as_bytes help) && forallb plain_byte (as_bytes name) && forallb plain_byte (as_bytes kind) = true →
  map_Forall Q m → (∀ k a, Q k a → Forall wf_series (group (k, a))) →
  wf_family (MkFamily name help kind (concat (map group (btree m)))).
Proof.
  intros [[Hh Hn]%andb_true_iff Hk]%andb_true_iff Hm Hg. split; try done.
  apply Forall_concat, Forall_map, btree_Forall. eapply map_Forall_impl; [exact Hm|]. eauto.
Qed.

(** A list of families, down to the series of those with keys. *)
Ltac families_wf :=
  repeat (apply Forall_cons_2; [|]); try apply Forall_nil_2;
  first [apply scalar_wf; by vm_compute | eapply keyed_wf; [by vm_compute|eassumption|]
        | eapply grouped_wf; [by vm_compute|eassumption|]].

Lemma traffic_wf m i ps : plain_registry m i ps → Forall wf_family (traffic_families show m).
Proof.
  intros []. unfold traffic_families. families_wf.
  3,4: intros k a Hk; apply histogram_wf; [by vm_compute|].
  1,2,5-7: intros k a Hk; apply wf_series_intro; [by vm_compute| |apply plain_pretty].
  all: labels_wf Hk.
Qed.

Lemma nodes_wf m i ps : plain_registry m i ps → Forall wf_family (node_families i).
Proof.
  intros []. unfold node_families. families_wf.
  2: intros [[pid state] executable] a Hk.
  1,3,4,5: intros k a Hk.
  1-5: apply wf_series_intro; [by vm_compute| |apply plain_pretty]; labels_wf Hk.
  intros k a Hk. unfold capacity_series.
  repeat (apply Forall_cons_2; [apply wf_series_intro; [by vm_compute| |apply plain_pretty]|]); [..|apply Forall_nil_2];
    (apply Forall_app_2; [by apply channel_labels_plain|by apply label_plain]).
Qed.

Lemma processes_wf m i ps : plain_registry m i ps → Forall wf_family (process_families show ps).
Proof.
  intros []. unfold process_families. case_decide; [apply Forall_nil_2|]. families_wf.
  all: intros k a Hk; apply wf_series_intro; [by vm_compute|labels_wf Hk|first [apply plain_pretty|apply Hshow]].
Qed.

Lemma families_all_wf m i ps : plain_registry m i ps → Forall wf_family (families show m i ps).
Proof.
  intros Hp. unfold families. apply Forall_app_2; [by eapply traffic_wf|].
  apply Forall_app_2; [by eapply nodes_wf|]. apply Forall_app_2; [by eapply processes_wf|].
  unfold host_families, observer_families. destruct (default (0, 0, 0) (iv_shm i)) as [[? ?] ?].
  apply Forall_app_2; families_wf.
Qed.
End families_plain.

(** ** What a scraper is to read

    Every value of the registry under its name and its labels, written down without the
    functions that render it. *)

Definition shown (name : string) (labels : list (string * string)) (value : string) : Series :=
  MkSeries (as_bytes name) (map (λ l, (as_bytes l.1, as_bytes l.2)) labels) (as_bytes value).

Section exposes.
Context (show : f64 → string).

Inductive exposes_histogram (name : string) (labels : list (string * string)) (h : Histogram) (bounds : list f64)
    : Series → Prop :=
| exposes_bucket j slot bound :
    hi_buckets h !! j = Some slot → bounds !! j = Some bound →
    exposes_histogram name labels h bounds (shown (name +:+ "_bucket") (labels ++ [("le"%string, show bound)]) (pretty slot))
| exposes_inf :
    exposes_histogram name labels h bounds (shown (name +:+ "_bucket") (labels ++ [("le", "+Inf")]%string) (pretty (hi_count h)))
| exposes_sum : exposes_histogram name labels h bounds (shown (name +:+ "_sum") labels (show (hi_sum h)))
| exposes_count : exposes_histogram name labels h bounds (shown (name +:+ "_count") labels (pretty (hi_count h))).

(** The values without labels. *)
Definition scalars (m : Metrics) (i : Inventory) : list (string * Z) :=
  [("ice_rpc_clock_skew_total", m_clock_skew m); ("ice_rpc_nodes_alive", m_nodes_alive m);
   ("ice_rpc_node_crashes_total", m_node_crashes m); ("ice_rpc_services", iv_services i);
   ("ice_rpc_shm_scan_enabled", match iv_shm i with Some _ => 1 | None => 0 end);
   ("ice_rpc_shm_bytes", match iv_shm i with Some (bytes, _, _) => bytes | None => 0 end);
   ("ice_rpc_shm_segments", match iv_shm i with Some (_, segments, _) => segments | None => 0 end);
   ("ice_rpc_shm_files", match iv_shm i with Some (_, _, files) => files | None => 0 end);
   ("ice_rpc_host_cpu_count", iv_host_cpu_count i); ("ice_rpc_health_scans_total", iv_health_scans i);
   ("ice_rpc_health_errors_total", iv_health_errors i);
   ("ice_rpc_observer_dropped_traces_total", iv_observer_dropped i);
   ("ice_rpc_observer_gaps_total", m_sample_gaps m); ("ice_rpc_discovery_errors_total", iv_discovery_errors i)]%string.

(** The gauges of a direction of a channel, its capacities, and the gauges of a process. *)
Definition channel_gauges (s : ChannelSample) : list (string * Z) :=
  [("ice_rpc_channel", cs_attached s); ("ice_rpc_channel_publishers", cs_publishers s);
   ("ice_rpc_channel_subscribers", cs_subscribers s)]%string.

Definition capacities (s : ChannelSample) : list (string * Z) :=
  [("max_publishers", cs_max_publishers s); ("max_subscribers", cs_max_subscribers s);
   ("subscriber_buffer_samples", cs_subscriber_buffer s)]%string.

Definition process_gauges (p : ProcessSample) : list (string * string) :=
  [("ice_rpc_process_cpu_percent", show (ps_cpu_percent p)); ("ice_rpc_process_cpu_percent_total", show (ps_cpu_percent_total p));
   ("ice_rpc_process_rss_bytes", pretty (ps_rss_bytes p)); ("ice_rpc_process_virtual_bytes", pretty (ps_virtual_bytes p));
   ("ice_rpc_process_uptime_seconds", pretty (ps_run_time_secs p))]%string.

Inductive exposes (m : Metrics) (i : Inventory) (ps : gmap Z ProcessSample) : Series → Prop :=
| exposes_request channel service method n :
    m_requests m !! (channel, service, method) = Some n →
    exposes m i ps (shown "ice_rpc_requests_total"
      [("channel", channel); ("service", pretty service); ("method", method)]%string (pretty n))
| exposes_response channel service kind n :
    m_responses m !! (channel, service, kind) = Some n →
    exposes m i ps (shown "ice_rpc_responses_total"
      [("channel", channel); ("service", pretty service); ("kind", kind)]%string (pretty n))
| exposes_latency channel service method h s :
    m_latency m !! (channel, service, method) = Some h →
    exposes_histogram "ice_rpc_latency_seconds"
      [("channel", channel); ("service", pretty service); ("method", method)]%string h LATENCY_BOUNDS s →
    exposes m i ps s
| exposes_payload channel direction h s :
    m_payload m !! (channel, direction) = Some h →
    exposes_histogram "ice_rpc_payload_bytes" [("channel", channel); ("direction", direction)]%string h PAYLOAD_BOUNDS s →
    exposes m i ps s
| exposes_inflight channel service n :
    m_inflight m !! (channel, service) = Some n →
    exposes m i ps (shown "ice_rpc_inflight" [("channel", channel); ("service", pretty service)]%string (pretty n))
| exposes_unmatched channel n :
    m_unmatched m !! channel = Some n →
    exposes m i ps (shown "ice_rpc_unmatched_requests_total" [("channel"%string, channel)] (pretty n))
| exposes_orphan channel n :
    m_orphan m !! channel = Some n →
    exposes m i ps (shown "ice_rpc_orphan_responses_total" [("channel"%string, channel)] (pretty n))
| exposes_scalar name value : (name, value) ∈ scalars m i → exposes m i ps (shown name [] (pretty value))
| exposes_state state n :
    iv_node_states i !! state = Some n → exposes m i ps (shown "ice_rpc_nodes" [("state"%string, state)] (pretty n))
| exposes_node pid state executable n :
    iv_node_info i !! (pid, state, executable) = Some n →
    exposes m i ps (shown "ice_rpc_node_info"
      [("pid", pretty pid); ("state", state); ("executable", executable)]%string (pretty n))
| exposes_channel channel direction s name value :
    iv_channels i !! (channel, direction) = Some s → (name, value) ∈ channel_gauges s →
    exposes m i ps (shown name [("channel", channel); ("direction", direction)]%string (pretty value))
| exposes_capacity channel direction s kind value :
    iv_channels i !! (channel, direction) = Some s → (kind, value) ∈ capacities s →
    exposes m i ps (shown "ice_rpc_channel_capacity"
      [("channel", channel); ("direction", direction); ("kind", kind)]%string (pretty value))
| exposes_process pid p name value :
    ps !! pid = Some p → (name, value) ∈ process_gauges p →
    exposes m i ps (shown name [("pid", pretty pid); ("name", ps_name p)]%string value).

(** *** The families hold these series *)

Lemma elem_keyed {K A} `{Countable K, KeyOrder K} (line : K * A → Series) (mp : gmap K A) s :
  s ∈ map line (btree mp) ↔ ∃ k a, mp !! k = Some a ∧ s = line (k, a).
Proof.
  rewrite list_elem_of_fmap. split.
  - intros ([k a] & -> & Hk%elem_of_btree). eauto.
  - intros (k & a & Hk%elem_of_btree & ->). eauto.
Qed.

Lemma elem_grouped {K A} `{Countable K, KeyOrder K} (group : K * A → list Series) (mp : gmap K A) s :
  s ∈ concat (map group (btree mp)) ↔ ∃ k a, mp !! k = Some a ∧ s ∈ group (k, a).
Proof.
  rewrite list_elem_of_In, in_concat. split.
  - intros (l & Hl & Hs%list_elem_of_In). apply list_elem_of_In, list_elem_of_fmap in Hl as ([k a] & -> & Hk%elem_of_btree). eauto.
  - intros (k & a & Hk%elem_of_btree & Hs%list_elem_of_In). exists (group (k, a)). split; [|done].
    apply list_elem_of_In, list_elem_of_fmap. eauto.
Qed.

Lemma elem_histogram name labels h bounds s :
  s ∈ histogram_series show name (map (λ l, (as_bytes l.1, as_bytes l.2)) labels) h bounds ↔
  exposes_histogram name labels h bounds s.
Proof.
  assert (Hlab : ∀ v, map (λ l, (as_bytes l.1, as_bytes l.2)) labels ++ [label "le" v] =
    map (λ l, (as_bytes l.1, as_bytes l.2)) (labels ++ [("le"%string, v)])) by (intros v; by rewrite map_app).
  unfold histogram_series. rewrite elem_of_app. split.
  - intros [Hb|Hr].
    + apply list_elem_of_lookup in Hb as [j Hj]. apply lookup_zip_with_Some in Hj as (slot & bound & -> & Hs & Hb).
      rewrite Hlab. by eapply exposes_bucket.
    + rewrite Hlab in Hr. repeat (apply elem_of_cons in Hr as [->|Hr]; [constructor|]). by apply elem_of_nil in Hr.
  - intros [j slot bound Hs Hb| | |].
    + left. apply list_elem_of_lookup. exists j. apply lookup_zip_with_Some. exists slot, bound. rewrite Hlab. done.
    + right. rewrite Hlab. left.
    + right. right. left.
    + right. right. right. left.
Qed.

(** A family of a line per value of a record. *)
Lemma elem_flat {A} (f : A → list Series) l s : s ∈ concat (map f l) ↔ ∃ x, x ∈ l ∧ s ∈ f x.
Proof.
  rewrite list_elem_of_In, in_concat. split.
  - intros (k & Hk & Hs%list_elem_of_In). apply list_elem_of_In, list_elem_of_fmap in Hk as (x & -> & Hx). eauto.
  - intros (x & Hx & Hs%list_elem_of_In). exists (f x). split; [|done]. apply list_elem_of_In, list_elem_of_fmap. eauto.
Qed.

(** The two ends of a list of families. *)
Lemma elem_family f fs s : s ∈ concat (map fa_series (f :: fs)) ↔ s ∈ fa_series f ∨ s ∈ concat (map fa_series fs).
Proof. simpl. apply elem_of_app. Qed.

Lemma elem_families l1 l2 s :
  s ∈ concat (map fa_series (l1 ++ l2)) ↔ s ∈ concat (map fa_series l1) ∨ s ∈ concat (map fa_series l2).
Proof. rewrite map_app, concat_app. apply elem_of_app. Qed.

Lemma traffic_exposes m i ps s : s ∈ concat (map fa_series (traffic_families show m)) → exposes m i ps s.
Proof.
  unfold traffic_families. rewrite !elem_family. cbn [fa_series map concat].
  intros [Hs|[Hs|[Hs|[Hs|[Hs|[Hs|[Hs|[Hs|[Hs|[Hs|Hs]]]]]]]]]].
  - apply elem_keyed in Hs as ([[channel service] method] & n & Hn & ->). by apply exposes_request.
  - apply elem_keyed in Hs as ([[channel service] kind] & n & Hn & ->). by apply exposes_response.
  - apply elem_grouped in Hs as ([[channel service] method] & h & Hh & Hs). eapply exposes_latency; [done|].
    by apply elem_histogram.
  - apply elem_grouped in Hs as ([channel direction] & h & Hh & Hs). eapply exposes_payload; [done|]. by apply elem_histogram.
  - apply elem_keyed in Hs as ([channel service] & n & Hn & ->). by apply exposes_inflight.
  - apply elem_keyed in Hs as (channel & n & Hn & ->). by apply exposes_unmatched.
  - apply elem_keyed in Hs as (channel & n & Hn & ->). by apply exposes_orphan.
  - apply list_elem_of_singleton in Hs as ->. apply exposes_scalar. unfold scalars. set_solver.
  - apply list_elem_of_singleton in Hs as ->. apply exposes_scalar. unfold scalars. set_solver.
  - apply list_elem_of_singleton in Hs as ->. apply exposes_scalar. unfold scalars. set_solver.
  - by apply elem_of_nil in Hs.
Qed.

Lemma nodes_exposes m i ps s : s ∈ concat (map fa_series (node_families i)) → exposes m i ps s.
Proof.
  unfold node_families, channel_family. rewrite !elem_family. cbn [fa_series map concat].
  intros [Hs|[Hs|[Hs|[Hs|[Hs|[Hs|[Hs|Hs]]]]]]].
  - apply elem_keyed in Hs as (state & n & Hn & ->). by apply exposes_state.
  - apply elem_keyed in Hs as ([[pid state] executable] & n & Hn & ->). by apply exposes_node.
  - apply list_elem_of_singleton in Hs as ->. apply exposes_scalar. unfold scalars. set_solver.
  - apply elem_keyed in Hs as ([channel direction] & c & Hc & ->). eapply exposes_channel; [done|]. left.
  - apply elem_keyed in Hs as ([channel direction] & c & Hc & ->). eapply exposes_channel; [done|]. right. left.
  - apply elem_keyed in Hs as ([channel direction] & c & Hc & ->). eapply exposes_channel; [done|]. right. right. left.
  - apply elem_grouped in Hs as ([channel direction] & c & Hc & Hs). unfold capacity_series in Hs.
    repeat (apply elem_of_cons in Hs as [->|Hs]; [eapply exposes_capacity; [done|unfold capacities; set_solver]|]).
    by apply elem_of_nil in Hs.
  - by apply elem_of_nil in Hs.
Qed.

Lemma processes_exposes m i ps s : s ∈ concat (map fa_series (process_families show ps)) → exposes m i ps s.
Proof.
  unfold process_families. case_decide; [by intros ?%elem_of_nil|]. unfold process_family. rewrite !elem_family.
  cbn [fa_series map concat].
  intros [Hs|[Hs|[Hs|[Hs|[Hs|Hs]]]]]; [..|by apply elem_of_nil in Hs];
    apply elem_keyed in Hs as (pid & p & Hp & ->); (eapply exposes_process; [done|unfold process_gauges; set_solver]).
Qed.

Lemma scalars_exposes m i ps s : s ∈ concat (map fa_series (host_families i ++ observer_families m i)) → exposes m i ps s.
Proof.
  unfold host_families, observer_families. intros Hs.
  assert (Hx : ∃ name value, (name, value) ∈ scalars m i ∧ s = shown name [] (pretty value)).
  { unfold scalars. destruct (iv_shm i) as [[[bytes segments] files]|]; cbn [default from_option id] in Hs; cbv beta iota zeta in Hs;
      rewrite elem_families, !elem_family in Hs; cbn [fa_series gauge counter map concat] in Hs;
      repeat match type of Hs with _ ∨ _ => destruct Hs as [Hs|Hs] end; first [by apply elem_of_nil in Hs
        |apply list_elem_of_singleton in Hs as ->; eexists _, _; split; [|reflexivity]; set_solver]. }
  destruct Hx as (name & value & Hin & ->). by apply exposes_scalar.
Qed.

(** The way to a family. *)
Lemma in_here f fs s : s ∈ fa_series f → s ∈ concat (map fa_series (f :: fs)).
Proof. intros. apply elem_family. by left. Qed.
Lemma in_later f fs s : s ∈ concat (map fa_series fs) → s ∈ concat (map fa_series (f :: fs)).
Proof. intros. apply elem_family. by right. Qed.
Lemma in_left l1 l2 s : s ∈ concat (map fa_series l1) → s ∈ concat (map fa_series (l1 ++ l2)).
Proof. intros. apply elem_families. by left. Qed.
Lemma in_right l1 l2 s : s ∈ concat (map fa_series l2) → s ∈ concat (map fa_series (l1 ++ l2)).
Proof. intros. apply elem_families. by right. Qed.

(** Finds the family of a value without labels. *)
Ltac pick :=
  lazymatch goal with
  | |- _ ∈ concat (map fa_series (_ ++ _)) => first [apply in_left; pick | apply in_right; pick]
  | |- _ ∈ concat (map fa_series (_ :: _)) =>
      first [apply in_here; cbn [fa_series gauge counter];
             match goal with |- shown ?n _ _ ∈ [series ?n _ _] => apply list_elem_of_singleton; reflexivity end
            |apply in_later; pick]
  end.

Lemma scalars_families m i ps name value :
  (name, value) ∈ scalars m i → shown name [] (pretty value) ∈ concat (map fa_series (families show m i ps)).
Proof.
  unfold families, traffic_families, node_families, host_families, observer_families, scalars. intros Hin.
  destruct (iv_shm i) as [[[bytes segments] files]|]; cbn [default from_option id]; cbv beta iota zeta;
    repeat (apply elem_of_cons in Hin as [[= -> ->]|Hin]; [pick|]); by apply elem_of_nil in Hin.
Qed.
End exposes.

Section read_back.
Context (show : f64 → string).

(** The series of a key in its family. *)
Ltac here key value :=
  apply in_here; cbn [fa_series]; unfold per_channel; apply elem_keyed; exists key, value; split; [assumption|reflexivity].

(** The series of the registry are those of its families. *)
Lemma families_expose m i ps s : s ∈ concat (map fa_series (families show m i ps)) ↔ exposes show m i ps s.
Proof.
  split.
  - unfold families. intros [Hs|[Hs|[Hs|Hs]%elem_families]%elem_families]%elem_families.
    + by apply traffic_exposes.
    + by apply nodes_exposes.
    + by apply processes_exposes.
    + by apply scalars_exposes.
  - intros Hs. destruct Hs as [channel service method n Hn|channel service kind n Hn|channel service method h s Hh Hs
      |channel direction h s Hh Hs|channel service n Hn|channel n Hn|channel n Hn|name value Hin|state n Hn
      |pid state executable n Hn|channel direction c name value Hc Hin|channel direction c kind value Hc Hin|pid p name value Hp Hin].
    8: by apply scalars_families.
    all: unfold families.
    1-7: apply in_left; unfold traffic_families.
    8-11: apply in_right, in_left; unfold node_families, channel_family.
    12: do 2 apply in_right; apply in_left.
    + here (channel, service, method) n.
    + apply in_later. here (channel, service, kind) n.
    + do 2 apply in_later. apply in_here. cbn [fa_series]. apply elem_grouped. exists (channel, service, method), h. split; [done|].
      by apply elem_histogram in Hs.
    + do 3 apply in_later. apply in_here. cbn [fa_series]. apply elem_grouped. exists (channel, direction), h. split; [done|].
      by apply elem_histogram in Hs.
    + do 4 apply in_later. here (channel, service) n.
    + do 5 apply in_later. here channel n.
    + do 6 apply in_later. here channel n.
    + here state n.
    + apply in_later. here (pid, state, executable) n.
    + do 3 apply in_later. unfold channel_gauges in Hin.
      do 3 (apply elem_of_cons in Hin as [[= -> ->]|Hin];
        [here (channel, direction) c|apply in_later]).
      by apply elem_of_nil in Hin.
    + do 6 apply in_later. apply in_here. cbn [fa_series]. apply elem_grouped. exists (channel, direction), c. split; [done|].
      unfold capacities in Hin. unfold capacity_series. simpl.
      repeat (apply elem_of_cons in Hin as [[= -> ->]|Hin]; [set_solver|]). by apply elem_of_nil in Hin.
    + unfold process_families. rewrite decide_False by (intros ->; by rewrite lookup_empty in Hp).
      unfold process_family, process_gauges in *.
      do 5 (apply elem_of_cons in Hin as [[= -> ->]|Hin]; [here pid p|apply in_later]).
      by apply elem_of_nil in Hin.
Qed.

(** C35. What a scraper reads of the exposition is the registry: the text of
    [render_prometheus] is read without an error, and the series in it are exactly
    the values of the registry, each under the name, the labels and the
    value that are its own (the requests of a channel, a service and a method, the
    publishers of a direction of a channel, the buckets of a latency, ...), as long as the
    texts the registry is keyed by hold no quote, no backslash and no line feed. *)
Theorem exposition_read_back m i ps :
  (∀ x, plain (as_bytes (show x))) → plain_registry m i ps →
  ∃ l, read_exposition (render_prometheus show m i ps) = Some l ∧ ∀ s, s ∈ l ↔ exposes show m i ps s.
Proof.
  intros Hshow Hp. exists (concat (map fa_series (families show m i ps))). split; [|intros s; apply families_expose].
  assert (Hr : reads (render_prometheus show m i ps) (concat (map fa_series (families show m i ps)))).
  { apply reads_concat. eapply Forall_impl; [by apply families_all_wf|apply reads_family]. }
  specialize (Hr []). rewrite app_nil_r in Hr. rewrite Hr. simpl. by rewrite app_nil_r.
Qed.
End read_back.

Definition one_call : Metrics := on_response "Age" 7 "Ok" (on_request "Age" 7 "age" metrics_new).
Definition one_node (executable : string) : Inventory :=
  set_health (MkSnapshot [MkNodeInfo 42 NAlive (Some executable) None] None None 8 1 0) inventory_new.

Lemma exposition_read_back_witness :
  ∃ l, read_exposition (render_prometheus (λ _, "0.5") one_call (one_node "provider-app") ∅) = Some l ∧
    shown "ice_rpc_requests_total" [("channel", "Age"); ("service", "7"); ("method", "age")]%string "1" ∈ l ∧
    shown "ice_rpc_node_info" [("pid", "42"); ("state", "alive"); ("executable", "provider-app")]%string "1" ∈ l.
Proof.
  destruct (exposition_read_back (λ _, "0.5") one_call (one_node "provider-app") ∅) as (l & Hl & Hs); [done|..].
  { split; try apply map_Forall_empty; (apply map_Forall_insert_2; [by vm_compute|apply map_Forall_empty]). }
  exists l. split; [exact Hl|]. split; apply Hs.
  - apply (exposes_request _ one_call (one_node "provider-app") ∅ "Age" 7 "age" 1). by vm_compute.
  - apply (exposes_node _ one_call (one_node "provider-app") ∅ 42 "alive" "provider-app" 1). by vm_compute.
Defined.

(** The label values are not escaped: a quote or a backslash of the name of an
    executable breaks the line of its node, and the whole exposition with it. *)
Lemma quote_not_escaped :
  read_exposition (render_prometheus (λ _, "0.5") metrics_new (one_node (of_bytes [97; DQ; 98])) ∅) = None.
Proof. vm_compute. reflexivity. Qed.

(** ** The endpoint ([prometheus.rs]) *)

(** [str::from_utf8] accepts the text. *)
Fixpoint valid_utf8 (fuel : nat) (s : bytes) : bool :=
  match fuel, s with
  | _, [] => true
  | S fuel', _ => let (n, ok) := utf8_next s in ok && valid_utf8 fuel' (drop n s)
  | O, _ => false
  end.

(** The bytes of the white space a text starts with, 0 when it does not. *)
Definition white_space (s : bytes) : nat :=
  match s with
  | 32 :: _ => 1%nat
  | 194 :: c :: _ => if (c =? 133) || (c =? 160) then 2%nat else 0%nat
  | 225 :: 154 :: 128 :: _ => 3%nat
  | 226 :: 128 :: c :: _ => if in_range 128 138 c || in_range 168 169 c || (c =? 175) then 3%nat else 0%nat
  | 226 :: 129 :: 159 :: _ => 3%nat
  | 227 :: 128 :: 128 :: _ => 3%nat
  | c :: _ => if in_range 9 13 c then 1%nat else 0%nat
  | [] => 0%nat
  end.

(** [split_whitespace]; a step consumes a byte at least. *)
Fixpoint split_whitespace (fuel : nat) (word s : bytes) : list bytes :=
  let flush := if decide (word = []) then [] else [word] in
  match fuel, s with
  | S fuel', c :: r =>
    match white_space s with
    | O => split_whitespace fuel' (word ++ [c]) r
    | n => flush ++ split_whitespace fuel' [] (drop n s)
    end
  | _, _ => flush
  end.

Definition request_path (buffer : bytes) : bytes :=
  let text := if valid_utf8 (length buffer) buffer then buffer else [] in
  default (as_bytes "/") (nth_error (split_whitespace (length text) [] text) 1).

(** One read of the connection, in a buffer of 1024 bytes. *)
Definition read_buffer (received : bytes) : bytes :=
  let got := take 1024 received in got ++ replicate (1024 - length got) 0.

Definition CRLF : bytes := [13; LF].

(** The answer to what a connection sends. *)
Definition serve_request (exposition : bytes) (received : bytes) : bytes :=
  let '(status, body) :=
    if decide (request_path (read_buffer received) = as_bytes "/metrics") then ("200 OK", exposition)
    else ("404 Not Found", as_bytes "not found" ++ [LF]) in
  as_bytes ("HTTP/1.1 " +:+ status) ++ CRLF
  ++ as_bytes "Content-Type: text/plain; version=0.0.4; charset=utf-8" ++ CRLF
  ++ as_bytes ("Content-Length: " +:+ pretty (Z.of_nat (length body))) ++ CRLF
  ++ as_bytes "Connection: close" ++ CRLF ++ CRLF ++ body.

Example metrics_requested :
  request_path (read_buffer (as_bytes "GET /metrics HTTP/1.1" ++ CRLF)) = as_bytes "/metrics"
  ∧ request_path (read_buffer []) = as_bytes "/".
Proof. split; vm_compute; reflexivity. Qed.
