(* ===== verification/Console.v ===== *)
(** * The console view of the monitor ([ice-rpc-monitor/src/metrics/console.rs],
    [metrics/render.rs], [console.rs])

    The summary of the registry as lines, the frame with the recent messages,
    and the live view that fits it to the terminal.  The text of a float with a
    given number of decimals is an argument; text is its UTF-8 bytes. *)

From Stdlib Require Import SpecFloat.
From S2P Require Import Prelude MachineInt Text Metrics Parse Health Render.

Local Open Scope Z_scope.

(** ** The summary of the registry *)

Definition f64_lt : f64 → f64 → bool := SFltb.

Section summary.
(** [{:.n}] of a float. *)
Context (fixed : nat → f64 → string).

Definition fmt_seconds (seconds : f64) : string :=
  if negb (f64_is_finite seconds) then ">10s"
  else if f64_lt seconds (f64_lit 1 1000) then fixed 0 (f64_mul seconds (f64_of_Z 1000000)) +:+ "us"
  else if f64_lt seconds (f64_of_Z 1) then fixed 2 (f64_mul seconds (f64_of_Z 1000)) +:+ "ms"
  else fixed 2 seconds +:+ "s".

Definition fmt_bytes (size : f64) : string :=
  if f64_lt size (f64_of_Z 1024) then fixed 0 size +:+ "B"
  else if f64_lt size (f64_of_Z 1048576) then fixed 1 (f64_div size (f64_of_Z 1024)) +:+ "KiB"
  else fixed 1 (f64_div size (f64_of_Z 1048576)) +:+ "MiB".

Definition average (h : Histogram) : f64 := f64_div (hi_sum h) (f64_of_Z (hi_count h)).

Definition describe_latency (h : Histogram) (bounds : list f64) : string :=
  if hi_count h =? 0 then "none"
  else
    let p q := fmt_seconds (default (S754_infinity false) (quantile h bounds q)) in
    "calls=" +:+ pretty (hi_count h) +:+ " avg=" +:+ fmt_seconds (average h) +:+ " p50=" +:+ p (f64_lit 1 2)
    +:+ " p90=" +:+ p (f64_lit 9 10) +:+ " p99=" +:+ p (f64_lit 99 100).

Definition byte_avg (h : Histogram) : string := if hi_count h =? 0 then "n/a" else fmt_bytes (average h).

Definition merge_direction (payload : gmap (string * string) Histogram) (direction : Direction) (bounds : list f64)
    : Histogram :=
  histogram_merge (map snd (filter (λ e, e.1.2 = direction_label direction) (btree payload))) bounds.

(** [values().sum()]. *)
Definition sum_values {K} `{Countable K} (m : gmap K Z) : Z := foldr (λ e a, e.2 + a) 0 (map_to_list m).

Definition response_kinds (responses : gmap (string * Z * string) Z) : gmap string Z :=
  foldr (λ e kinds, bump e.2 e.1.2 kinds) ∅ (map_to_list responses).

Definition kind_text (kinds : gmap string Z) : string :=
  match btree kinds with
  | [] => "none"
  | l => String.concat " " (map (λ e, e.1 +:+ "=" +:+ pretty e.2) l)
  end.

(** The first of the lines, and how many are left. *)
Definition bounded_lines {A} (max : nat) (line : A → string) (more : Z → string) (l : list A) : list string :=
  map line (take max l) ++ (if (max <? length l)%nat then [more (Z.of_nat (length l - max))] else []).

Definition rule : string := String.concat "" (replicate 64 "-"%string).

Definition service_line (m : Metrics) (e : (string * Z * string) * Z) : string :=
  " " +:+ e.1.1.1 +:+ " " +:+ e.1.2 +:+ ": requests=" +:+ pretty e.2 +:+ " " +:+
  match m_latency m !! e.1 with Some h => describe_latency h LATENCY_BOUNDS | None => "no response yet" end.

Definition MAX_LINES : nat := 8.
Definition MAX_NODES : nat := 5.

Definition services_section (m : Metrics) : list string :=
  if decide (m_requests m = ∅) then []
  else rule :: bounded_lines MAX_LINES (service_line m) (λ n, "   ... and " +:+ pretty n +:+ " more") (btree (m_requests m)).

Definition process_line (e : Z * ProcessSample) : string :=
  let p := e.2 in
  " node    : pid=" +:+ pretty e.1 +:+ " " +:+ ps_name p +:+ "  cpu " +:+ fixed 1 (ps_cpu_percent p) +:+ "% core / "
  +:+ fixed 1 (ps_cpu_percent_total p) +:+ "% host  rss " +:+ fmt_bytes (f64_of_Z (ps_rss_bytes p)) +:+ "  up "
  +:+ pretty (ps_run_time_secs p) +:+ "s".

Definition shm_lines (i : Inventory) : list string :=
  match iv_shm i with
  | None => []
  | Some (size, segments, _) =>
    if segments =? 0 then [" shm     : n/a (segments are not file-backed here)"%string]
    else [" shm     : " +:+ pretty segments +:+ " segment(s), " +:+ fmt_bytes (f64_of_Z size)]
  end.

Definition network_section (i : Inventory) (processes : gmap Z ProcessSample) : list string :=
  if decide (iv_services i ≤ 0 ∧ iv_node_states i = ∅) then []
  else
    let state s := pretty (default 0 (iv_node_states i !! s)) in
    rule
    :: (" network : nodes=" +:+ pretty (sum_values (iv_node_states i)) +:+ " (alive " +:+ state "alive" +:+ ", dead "
        +:+ state "dead" +:+ ")  services=" +:+ pretty (iv_services i))%string
    :: shm_lines i
    ++ bounded_lines MAX_NODES process_line (λ n, " node    : ... and " +:+ pretty n +:+ " more") (btree processes).

Definition counters_section (m : Metrics) : list string :=
  [" requests        : " +:+ pretty (sum_values (m_requests m));
   " responses       : " +:+ pretty (sum_values (m_responses m)) +:+ "  [" +:+ kind_text (response_kinds (m_responses m)) +:+ "]";
   " latency (exact) : " +:+ describe_latency (histogram_merge (map snd (btree (m_latency m))) LATENCY_BOUNDS) LATENCY_BOUNDS;
   " payload         : req avg=" +:+ byte_avg (merge_direction (m_payload m) DRequest PAYLOAD_BOUNDS)
     +:+ "  resp avg=" +:+ byte_avg (merge_direction (m_payload m) DResponse PAYLOAD_BOUNDS);
   " in-flight       : " +:+ pretty (sum_values (m_inflight m));
   " observer gaps   : " +:+ pretty (m_sample_gaps m);
   " unmatched req.  : " +:+ pretty (sum_values (m_unmatched m));
   " orphan responses: " +:+ pretty (sum_values (m_orphan m));
   " clock skew      : " +:+ pretty (m_clock_skew m);
   " nodes           : alive=" +:+ pretty (m_nodes_alive m) +:+ " crashes=" +:+ pretty (m_node_crashes m)]%string.

Definition console_lines (m : Metrics) (i : Inventory) (processes : gmap Z ProcessSample) : list string :=
  "===== ice-rpc-monitor (console stats) =====" :: counters_section m ++ services_section m
  ++ network_section i processes ++ ["==========================================="]%string.

(** Every line is written with its end. *)
Definition writeln (lines : list bytes) : bytes := concat (map (λ l, l ++ [LF]) lines).

Definition render_console (m : Metrics) (i : Inventory) (processes : gmap Z ProcessSample) : bytes :=
  writeln (map as_bytes (console_lines m i processes)).

(** ** A frame *)

Definition MESSAGES_MARKER : bytes := as_bytes "---- recent messages ----".

Definition frame (m : Metrics) (i : Inventory) (processes : gmap Z ProcessSample) (recent : option (list bytes)) : bytes :=
  render_console m i processes
  ++ match recent with
     | None | Some [] => []
     | Some lines => MESSAGES_MARKER ++ [LF] ++ writeln lines
     end.

Lemma bounded_lines_bound {A} max (line : A → string) more l : (length (bounded_lines max line more l) ≤ S max)%nat.
Proof.
  unfold bounded_lines. rewrite length_app, length_map, length_take. destruct (_ <? _)%nat; simpl; lia.
Qed.

(** The summary is bounded whatever the registry holds. *)
Lemma console_lines_bound m i processes : (12 ≤ length (console_lines m i processes) ≤ 31)%nat.
Proof.
  unfold console_lines, counters_section, services_section, network_section, shm_lines.
  cbn [length app]. rewrite !length_app. cbn [length].
  pose proof (bounded_lines_bound MAX_LINES (service_line m) (λ n, "   ... and " +:+ pretty n +:+ " more") (btree (m_requests m))).
  pose proof (bounded_lines_bound MAX_NODES process_line (λ n, " node    : ... and " +:+ pretty n +:+ " more") (btree processes)).
  unfold MAX_LINES, MAX_NODES in *.
  destruct (decide (m_requests m = ∅)), (decide (iv_services i ≤ 0 ∧ iv_node_states i = ∅)),
    (iv_shm i) as [[[size []] ?]|]; cbn [Z.eqb length]; rewrite ?length_app; cbn [length]; lia.
Qed.
End summary.

(** ** Lines of a text *)

(** [str::lines]: a carriage return before the line feed belongs to the end. *)
Fixpoint str_lines (text : bytes) : list bytes :=
  match text with
  | [] => []
  | c :: r =>
    if c =? LF then [] :: str_lines r
    else if (c =? 13) && bool_decide (head r = Some LF) then str_lines r
    else match str_lines r with [] => [[c]] | l :: ls => (c :: l) :: ls end
  end.

Definition line_count (text : bytes) : nat := length (str_lines text).

(** [str::split_once]. *)
Fixpoint split_once (pat s : bytes) : option (bytes * bytes) :=
  if bool_decide (take (length pat) s = pat) then Some ([], drop (length pat) s)
  else match s with [] => None | c :: r => '(a, b) ← split_once pat r; Some (c :: a, b) end.

Definition ends_with (c : Z) (s : bytes) : bool := bool_decide (last s = Some c).

(** [chars]: a character is a byte that continues none, with those that continue it. *)
Definition is_continuation (b : Z) : bool := in_range 128 191 b.
Definition char_count (s : bytes) : nat := length (filter (λ b, is_continuation b = false) s).

Fixpoint take_chars (k : nat) (s : bytes) : bytes :=
  match s with
  | [] => []
  | c :: r =>
    if is_continuation c then c :: take_chars k r
    else match k with O => [] | S k' => c :: take_chars k' r end
  end.

(** ** Fitting a frame to the screen *)

Definition USIZE_MAX : Z := 2 ^ 64 - 1.

Definition clamp_frame (frame : bytes) (max_lines : nat) : bytes :=
  let lines := str_lines frame in
  let total := length lines in
  if (total <=? max_lines)%nat then frame
  else
    let keep := (max_lines - 1)%nat in
    writeln (take keep lines
      ++ [as_bytes ("... (" +:+ pretty (Z.of_nat (total - keep)) +:+ " more line(s), enlarge the terminal)")]).

Definition clamp_middle (text : bytes) (max_lines : nat) : bytes :=
  let lines := str_lines text in
  let total := length lines in
  if (total <=? max_lines)%nat then text
  else
    let kept := (max_lines - 1)%nat in
    let head := (kept / 2)%nat in
    let tail := (kept - head)%nat in
    writeln (take head lines
      ++ [as_bytes ("... (" +:+ pretty (Z.of_nat (total - head - tail)) +:+ " line(s) hidden, enlarge the terminal)")]
      ++ drop (total - tail) lines).

Definition truncate_width (line : bytes) (max_width : Z) : bytes :=
  if (max_width =? USIZE_MAX) || (Z.of_nat (char_count line) <=? max_width) then line
  else take_chars (Z.to_nat (max_width - 1)) line ++ [226; 128; 166].

Definition end_line (out : bytes) : bytes := if ends_with LF out then out else out ++ [LF].

Definition metrics_budget (metrics : bytes) (max_lines : nat) : nat :=
  let reserved := if (line_count metrics + 2 <=? max_lines)%nat then 0%nat else Nat.max (max_lines / 3) 1 in
  Nat.max (max_lines - (reserved + 1)) 1.

Definition last_messages (room : nat) (messages : list bytes) : list bytes := drop (length messages - room) messages.

Definition fit_frame (frame : bytes) (max_lines : nat) (max_width : Z) : bytes :=
  match split_once MESSAGES_MARKER frame with
  | None => clamp_frame frame max_lines
  | Some (metrics, messages) =>
    let messages := filter (λ l, l ≠ []) (str_lines messages) in
    if decide (messages = []) then clamp_frame metrics max_lines
    else
      let out := end_line (clamp_middle metrics (metrics_budget metrics max_lines)) ++ MESSAGES_MARKER ++ [LF] in
      let room := (max_lines - line_count out)%nat in
      out ++ writeln (map (λ l, truncate_width l max_width) (last_messages room messages))
  end.

(** ** The live view *)

Record LiveConsole : Type := MkLive { lc_active : bool; lc_lines : nat; lc_columns : Z }.

Definition terminal_lines (LINES : option bytes) : nat :=
  match LINES ≫= parse_u64 with
  | Some lines => if 8 <=? lines then Z.to_nat lines else 24%nat
  | None => 24%nat
  end.

(** The width the system answers, if it does. *)
Definition console_columns (ok : bool) (columns : Z) : option Z := if ok && (0 <? columns) then Some columns else None.

Definition terminal_columns (tty : bool) (system : option Z) (COLUMNS : option bytes) : Z :=
  match (if tty then system else None) with
  | Some columns => columns
  | None =>
    match COLUMNS ≫= parse_u64 with
    | Some columns => if 20 <=? columns then columns else USIZE_MAX
    | None => USIZE_MAX
    end
  end.

Definition ESC (s : string) : bytes := 27 :: 91 :: as_bytes s.

Record Terminal : Type := MkTerminal { te_tty : bool; te_size : bool * Z; te_LINES : option bytes; te_COLUMNS : option bytes }.

(** What each operation writes to the terminal comes with its result. *)
Definition live_new (enabled : bool) (t : Terminal) : LiveConsole * bytes :=
  let active := enabled && te_tty t in
  (MkLive active (terminal_lines (te_LINES t))
     (terminal_columns (te_tty t) (console_columns (te_size t).1 (te_size t).2) (te_COLUMNS t)),
   if active then ESC "?1049h" ++ ESC "?25l" ++ ESC "2J" ++ ESC "H" else []).

Definition draw (c : LiveConsole) (frame : bytes) : bytes :=
  if lc_active c then ESC "H" ++ ESC "2J" ++ fit_frame frame (lc_lines c) (lc_columns c) else frame.

Definition leave (c : LiveConsole) : LiveConsole * bytes :=
  if lc_active c then (MkLive false (lc_lines c) (lc_columns c), ESC "?25h" ++ ESC "?1049l") else (c, []).

Definition live_drop (c : LiveConsole) : bytes := (leave c).2.

(** ** Counting lines *)

Lemma str_lines_line l r : no_lf l → line_count (l ++ LF :: r) = S (line_count r).
Proof.
  unfold line_count, no_lf. intros Hl.
  cut (∃ x, str_lines (l ++ LF :: r) = x :: str_lines r); [by intros [x ->]|].
  induction l as [|c l IH]; [by exists []|]. apply not_elem_of_cons in Hl as [Hc Hl].
  destruct (IH Hl) as [x Hx]. cbn [app str_lines]. rewrite Hx.
  destruct (Z.eqb_spec c LF); [done|]. destruct (_ && _); eauto.
Qed.

Lemma str_lines_no_lf text : Forall no_lf (str_lines text).
Proof.
  unfold no_lf. induction text as [|c r IH]; simpl; [constructor|].
  destruct (Z.eqb_spec c LF) as [|Hc]; [constructor; [by apply not_elem_of_nil|done]|].
  destruct (_ && _); [done|]. destruct (str_lines r) as [|l ls]; [repeat constructor; set_solver|].
  apply Forall_cons in IH as [Hl Hls]. constructor; [set_solver|done].
Qed.

Lemma line_count_writeln lines text : Forall no_lf lines → line_count (writeln lines ++ text) = (length lines + line_count text)%nat.
Proof.
  unfold writeln. induction 1 as [|l ls Hl Hls IH]; [done|]. cbn [map concat length]. rewrite <- !app_assoc.
  cbn [app]. rewrite str_lines_line by done. by rewrite IH.
Qed.

(** Every text is lines that are ended, and a last one that is not. *)
Lemma text_lines t : ∃ ls l, t = writeln ls ++ l ∧ Forall no_lf ls ∧ no_lf l.
Proof.
  unfold no_lf. induction t as [|c t (ls & l & -> & Hls & Hl)]; [by exists [], []; set_solver|].
  destruct (decide (c = LF)) as [->|Hc]; [exists ([] :: ls), l; repeat split; [|done]; constructor; [set_solver|done]|].
  destruct ls as [|l0 ls]; [exists [], (c :: l); set_solver|]. apply Forall_cons in Hls as [Hl0 Hls].
  exists ((c :: l0) :: ls), l. repeat split; [|done]. constructor; [set_solver|done].
Qed.

Lemma line_count_pos text : text ≠ [] → (1 ≤ line_count text)%nat.
Proof.
  unfold line_count. induction text as [|c r IH]; [done|]. intros _. cbn [str_lines].
  destruct (c =? LF); [simpl; lia|]. destruct ((c =? 13) && _) eqn:Hcr; [|destruct (str_lines r); simpl; lia].
  apply IH. apply andb_true_iff in Hcr as [_ Hcr%bool_decide_eq_true]. by destruct r.
Qed.

Lemma writeln_ends ls : ls ≠ [] → last (writeln ls) = Some LF.
Proof.
  induction ls as [|l [|l' ls] IH] using rev_ind; intros Hls; [done|..];
    unfold writeln; rewrite map_app, concat_app; cbn [map concat]; rewrite app_nil_r, !last_app; done.
Qed.

(** A text that ends its last line is counted apart from what follows. *)
Lemma line_count_end_line text rest :
  (line_count (end_line text ++ rest) ≤ Nat.max 1 (line_count text) + line_count rest)%nat.
Proof.
  destruct (text_lines text) as (ls & l & -> & Hls & Hl). unfold end_line, ends_with.
  assert (Hempty : line_count (writeln ls ++ l) = (length ls + line_count l)%nat) by by apply line_count_writeln.
  case_bool_decide as Hlast.
  - assert (l = []) as ->.
    { rewrite last_app in Hlast. destruct (last l) as [x|] eqn:Hx; [|by apply last_None in Hx].
      simplify_eq. by apply last_Some_elem_of in Hx. }
    rewrite Hempty, app_nil_r, line_count_writeln by done. lia.
  - rewrite <- !app_assoc. cbn [app]. rewrite Hempty, line_count_writeln, str_lines_line by done.
    destruct l as [|c l]; [|pose proof (line_count_pos (c :: l) ltac:(done)); lia].
    rewrite app_nil_r in Hlast. destruct ls as [|l0 ls]; [simpl; lia|]. by rewrite writeln_ends in Hlast.
Qed.

(** ** What the live view shows *)

Lemma notice_no_lf before n after :
  plain (as_bytes before) → plain (as_bytes after) → no_lf (as_bytes (before +:+ pretty (n : Z) +:+ after)).
Proof. intros Hb Ha. apply plain_no_lf. rewrite !as_bytes_app. auto using plain_app, plain_pretty. Qed.

Lemma clamp_frame_fits frame max : (1 ≤ max)%nat → (line_count (clamp_frame frame max) ≤ max)%nat.
Proof.
  intros Hmax. unfold clamp_frame. destruct (Nat.leb_spec (length (str_lines frame)) max); [done|].
  rewrite <- (app_nil_r (writeln _)), line_count_writeln.
  - rewrite length_app, length_take. unfold line_count. simpl. lia.
  - apply Forall_app_2; [apply Forall_take, str_lines_no_lf|]. repeat constructor. by apply notice_no_lf.
Qed.

Lemma clamp_middle_fits text max : (1 ≤ max)%nat → (line_count (clamp_middle text max) ≤ max)%nat.
Proof.
  intros Hmax. unfold clamp_middle. destruct (Nat.leb_spec (length (str_lines text)) max); [done|].
  pose proof (Nat.div_le_upper_bound (max - 1) 2 (max - 1) ltac:(done) ltac:(lia)).
  rewrite <- (app_nil_r (writeln _)), line_count_writeln.
  - rewrite !length_app, length_take, length_drop. unfold line_count. simpl length. lia.
  - apply Forall_app_2; [apply Forall_take, str_lines_no_lf|]. apply Forall_app_2; [|apply Forall_drop, str_lines_no_lf].
    repeat constructor. by apply notice_no_lf.
Qed.

Lemma line_count_app_lf a b : line_count ((a ++ [LF]) ++ b) = (line_count (a ++ [LF]) + line_count b)%nat.
Proof.
  destruct (text_lines a) as (ls & l & -> & Hls & Hl). rewrite <- !app_assoc. cbn [app].
  rewrite !line_count_writeln, !str_lines_line by done. change (line_count []) with 0%nat. lia.
Qed.

Lemma length_last_messages room messages : length (last_messages room messages) = Nat.min room (length messages).
Proof. unfold last_messages. rewrite length_drop. lia. Qed.

Lemma take_chars_prefix k s : take_chars k s `prefix_of` s.
Proof.
  revert k. induction s as [|c s IH]; intros k; [done|]. simpl.
  destruct (is_continuation c); [apply prefix_cons, IH|]. destruct k; [apply prefix_nil|apply prefix_cons, IH].
Qed.

Lemma take_chars_count k s : (char_count (take_chars k s) ≤ k)%nat.
Proof.
  unfold char_count. revert k. induction s as [|c s IH]; intros k; simpl; [lia|].
  destruct (is_continuation c) eqn:Hc; [rewrite filter_cons_False by congruence; apply IH|].
  destruct k as [|k]; [simpl; lia|]. rewrite filter_cons_True by done. simpl. specialize (IH k). lia.
Qed.

Lemma truncate_no_lf line width : no_lf line → no_lf (truncate_width line width).
Proof.
  unfold no_lf, truncate_width. intros Hl. destruct (_ || _); [done|].
  destruct (take_chars_prefix (Z.to_nat (width - 1)) line) as [s Hs]. rewrite Hs in Hl. unfold LF in *. set_solver by lia.
Qed.

Lemma truncate_fits line width :
  1 ≤ width → width = USIZE_MAX ∨ Z.of_nat (char_count (truncate_width line width)) ≤ width.
Proof.
  intros Hw. unfold truncate_width. destruct (Z.eqb_spec width USIZE_MAX); [by left|right]. simpl.
  destruct (Z.leb_spec (Z.of_nat (char_count line)) width); [done|].
  pose proof (take_chars_count (Z.to_nat (width - 1)) line). unfold char_count in *.
  rewrite filter_app, length_app. change (length (filter _ [226; 128; 166])) with 1%nat. lia.
Qed.

Lemma terminal_lines_bound LINES : (8 ≤ terminal_lines LINES)%nat.
Proof.
  unfold terminal_lines. destruct (LINES ≫= parse_u64) as [n|]; [|lia]. destruct (Z.leb_spec 8 n); lia.
Qed.

Lemma terminal_columns_bound tty ok n COLUMNS : 1 ≤ terminal_columns tty (console_columns ok n) COLUMNS.
Proof.
  unfold terminal_columns, console_columns, USIZE_MAX. destruct tty, ok; simpl; try destruct (Z.ltb_spec 0 n);
    try lia; (destruct (COLUMNS ≫= parse_u64) as [c|]; [destruct (Z.leb_spec 20 c); lia|lia]).
Qed.

(** The lines above the messages leave room for one of them. *)
Lemma metrics_leave_room metrics max :
  (8 ≤ max)%nat →
  (line_count (end_line (clamp_middle metrics (metrics_budget metrics max)) ++ MESSAGES_MARKER ++ [LF]) < max)%nat
  ∧ (line_count metrics + 2 ≤ max → clamp_middle metrics (metrics_budget metrics max) = metrics)%nat.
Proof.
  intros Hmax. pose proof (Nat.div_le_mono 8 max 3 ltac:(done) Hmax) as H3. change (8 / 3)%nat with 2%nat in H3.
  pose proof (Nat.div_le_upper_bound max 3 (max - 1) ltac:(done) ltac:(lia)) as Hu.
  assert (Hwhole : (line_count metrics + 2 ≤ max → clamp_middle metrics (metrics_budget metrics max) = metrics)%nat).
  { intros Hm. unfold clamp_middle, metrics_budget. rewrite (proj2 (Nat.leb_le _ _) Hm).
    fold (line_count metrics). by rewrite (proj2 (Nat.leb_le _ _)) by lia. }
  split; [|done]. eapply Nat.le_lt_trans; [apply line_count_end_line|].
  change (line_count (MESSAGES_MARKER ++ [LF])) with 1%nat.
  destruct (decide (line_count metrics + 2 ≤ max)%nat) as [Hm|Hm]; [rewrite Hwhole by done; lia|].
  pose proof (clamp_middle_fits metrics (metrics_budget metrics max) ltac:(unfold metrics_budget; lia)) as Hc.
  unfold metrics_budget in *. destruct (Nat.leb_spec (line_count metrics + 2) max); lia.
Qed.

(** What the terminal tells of its height: [LINES], when it is a number of at least 8, ... *)
Inductive tells_lines (t : Terminal) : nat → Prop :=
| tells_height n : te_LINES t ≫= parse_u64 = Some n → 8 ≤ n → tells_lines t (Z.to_nat n)
| tells_no_height : (∀ n, te_LINES t ≫= parse_u64 = Some n → n < 8) → tells_lines t 24.

(** ... and of its width: the size of its window, else [COLUMNS] from 20 on, else nothing. *)
Inductive tells_columns (t : Terminal) : option Z → Prop :=
| tells_window n : te_tty t = true → te_size t = (true, n) → 0 < n < 2 ^ 64 - 1 → tells_columns t (Some n)
| tells_variable n :
    (te_tty t = true → (te_size t).1 = true → (te_size t).2 ≤ 0) →
    te_COLUMNS t ≫= parse_u64 = Some n → 20 ≤ n < 2 ^ 64 - 1 → tells_columns t (Some n)
| tells_no_width :
    (te_tty t = true → (te_size t).1 = true → (te_size t).2 ≤ 0) →
    (∀ n, te_COLUMNS t ≫= parse_u64 = Some n → n < 20) → tells_columns t None.

(** A message as it is drawn: whole if it fits the width, else its start and an ellipsis. *)
Definition drawn_as (columns : option Z) (message drawn : bytes) : Prop :=
  match columns with
  | None => drawn = message
  | Some w =>
      Z.of_nat (char_count drawn) ≤ w ∧
      if decide (Z.of_nat (char_count message) ≤ w) then drawn = message
      else ∃ start, start `prefix_of` message ∧ drawn = start ++ [226; 128; 166]
  end.

Lemma tells_lines_eq t lines : tells_lines t lines → terminal_lines (te_LINES t) = lines.
Proof.
  unfold terminal_lines. intros [n Hn Hle|Hn].
  - rewrite Hn. by rewrite (proj2 (Z.leb_le _ _)) by lia.
  - destruct (te_LINES t ≫= parse_u64) as [n|]; [|done]. specialize (Hn n eq_refl). by rewrite (proj2 (Z.leb_gt _ _)) by lia.
Qed.

Lemma tells_columns_eq t columns :
  tells_columns t columns →
  terminal_columns (te_tty t) (console_columns (te_size t).1 (te_size t).2) (te_COLUMNS t) = default USIZE_MAX columns ∧
  columns ≠ Some USIZE_MAX ∧ ∀ w, columns = Some w → 1 ≤ w.
Proof.
  unfold terminal_columns, console_columns, USIZE_MAX.
  assert (Hnone : (te_tty t = true → (te_size t).1 = true → (te_size t).2 ≤ 0) →
    (if te_tty t then if (te_size t).1 && (0 <? (te_size t).2) then Some (te_size t).2 else None else None) = None).
  { intros Hno. destruct (te_tty t); [|done]. destruct (te_size t).1; [|done]. specialize (Hno eq_refl eq_refl).
    by rewrite (proj2 (Z.ltb_ge _ _)) by lia. }
  intros [n Htty Hs Hn|n Hno Hc Hn|Hno Hc].
  - rewrite Htty, Hs. simpl. rewrite (proj2 (Z.ltb_lt _ _)) by lia. split_and!; [done|intros [=]; lia|intros w [= <-]; lia].
  - rewrite (Hnone Hno), Hc. rewrite (proj2 (Z.leb_le _ _)) by lia. split_and!; [done|intros [=]; lia|intros w [= <-]; lia].
  - rewrite (Hnone Hno). destruct (te_COLUMNS t ≫= parse_u64) as [n|]; [|done]. specialize (Hc n eq_refl).
    by rewrite (proj2 (Z.leb_gt _ _)) by lia.
Qed.

Lemma truncate_drawn_as columns message :
  columns ≠ Some USIZE_MAX → (∀ w, columns = Some w → 1 ≤ w) →
  drawn_as columns message (truncate_width message (default USIZE_MAX columns)).
Proof.
  intros Hne Hw. destruct columns as [w|]; simpl; [|done]. split.
  - destruct (truncate_fits message w (Hw w eq_refl)) as [->|?]; done.
  - unfold truncate_width. rewrite (proj2 (Z.eqb_neq w USIZE_MAX)) by congruence. simpl.
    case_decide as Hc; [by rewrite (proj2 (Z.leb_le _ _))|]. rewrite (proj2 (Z.leb_gt _ _)) by lia.
    eexists. split; [apply take_chars_prefix|done].
Qed.

(** C36. A frame never scrolls the screen of a terminal that tells its height: what the
    live view draws of a frame has at most the lines the terminal tells in [LINES], from 8
    on, and at most 24 when it tells none or fewer.  The last messages are shown, one at
    least and as many as there is room for, each whole when the terminal is as wide, else
    cut to its width with an ellipsis, below the metrics, which are whole when they leave
    room for a message. *)
Theorem frame_fits (t : Terminal) (frame : bytes) lines columns :
  tells_lines t lines → tells_columns t columns →
  let c := (live_new true t).1 in
  let shown_frame := fit_frame frame (lc_lines c) (lc_columns c) in
  (line_count shown_frame ≤ lines)%nat ∧
  match split_once MESSAGES_MARKER frame with
  | None => True
  | Some (metrics, rest) =>
    let messages := filter (λ l, l ≠ []) (str_lines rest) in
    messages = [] ∨
    ∃ top shown drawn,
      shown_frame = end_line top ++ MESSAGES_MARKER ++ [LF] ++ writeln drawn ∧
      Forall2 (drawn_as columns) shown drawn ∧
      shown ≠ [] ∧ shown `suffix_of` messages ∧ (shown ≠ messages → line_count shown_frame = lines) ∧
      ((line_count metrics + 2 ≤ lines)%nat → top = metrics)
  end.
Proof.
  intros Hlines Hcols. unfold live_new. cbn zeta. cbn [fst lc_lines lc_columns].
  pose proof (terminal_lines_bound (te_LINES t)) as Hmax. rewrite (tells_lines_eq t lines Hlines) in *.
  destruct (tells_columns_eq t columns Hcols) as (-> & Hne & Hw). unfold fit_frame.
  destruct (split_once MESSAGES_MARKER frame) as [[metrics rest]|]; [|split; [apply clamp_frame_fits; lia|done]].
  case_decide as Hm; [split; [apply clamp_frame_fits; lia|by left]|].
  destruct (metrics_leave_room metrics lines Hmax) as [Hroom Hwhole].
  set (top := clamp_middle _ _) in *. set (messages := filter _ (str_lines rest)) in *.
  set (out := end_line top ++ MESSAGES_MARKER ++ [LF]) in *. set (shown := last_messages _ messages).
  assert (Hcount : line_count (out ++ writeln (map (λ l, truncate_width l (default USIZE_MAX columns)) shown)) =
    (line_count out + length shown)%nat).
  { unfold out. rewrite app_assoc, line_count_app_lf, <- app_assoc, <- (app_nil_r (writeln _)), line_count_writeln.
    - rewrite length_map. change (line_count []) with 0%nat. lia.
    - apply Forall_map, Forall_drop, Forall_forall. intros l [_ Hl]%list_elem_of_filter. apply truncate_no_lf.
      by apply (proj1 (Forall_forall _ _) (str_lines_no_lf rest)). }
  assert (Hlen : length shown = Nat.min (lines - line_count out) (length messages)) by apply length_last_messages.
  rewrite Hcount. split; [lia|]. right.
  exists top, shown, (map (λ l, truncate_width l (default USIZE_MAX columns)) shown). split_and!.
  - unfold out. by rewrite <- !app_assoc.
  - clear -Hne Hw. induction shown as [|l shown IH]; simpl; constructor; [by apply truncate_drawn_as|done].
  - intros Hn. rewrite Hn in Hlen. assert (length messages ≠ 0%nat) by (by destruct messages). cbn [length] in Hlen. lia.
  - apply suffix_drop.
  - intros Hns. destruct (Nat.le_gt_cases (length messages) (lines - line_count out)) as [Hle|Hgt]; [|lia].
    destruct Hns. unfold shown, last_messages. by replace (length messages - (lines - line_count out))%nat with 0%nat by lia.
  - done.
Qed.

(** A run of the view: it opens, draws the frames, leaves and is dropped. *)
Definition live_session (enabled : bool) (t : Terminal) (frames : list bytes) : bytes :=
  let '(c, entered) := live_new enabled t in
  let '(c', closing) := leave c in
  entered ++ concat (map (draw c) frames) ++ closing ++ live_drop c'.

(** The terminal is entered once and restored once; without a terminal nothing
    but the frames is written. *)
Lemma session_restores enabled t frames :
  live_session enabled t frames =
  if enabled && te_tty t then
    ESC "?1049h" ++ ESC "?25l" ++ ESC "2J" ++ ESC "H"
    ++ concat (map (draw (live_new enabled t).1) frames) ++ ESC "?25h" ++ ESC "?1049l"
  else concat frames.
Proof.
  unfold live_session, live_new, leave, live_drop, draw. destruct (enabled && te_tty t); cbn [lc_active fst snd].
  - by rewrite app_nil_r, <- !app_assoc.
  - rewrite !app_nil_r, map_id. done.
Qed.

(** The frame of a fresh registry with two messages is split where it was joined. *)
Example frame_split :
  split_once MESSAGES_MARKER (frame (λ _ _, "0") metrics_new inventory_new ∅ (Some [as_bytes "a"; as_bytes "b"])) =
  Some (render_console (λ _ _, "0") metrics_new inventory_new ∅, LF :: writeln [as_bytes "a"; as_bytes "b"]).
Proof. vm_compute. reflexivity. Qed.

(** A terminal of ten lines of twenty columns. *)
Definition small_terminal : Terminal := MkTerminal true (false, 0) (Some (as_bytes "10")) (Some (as_bytes "20")).

Definition long_frame : bytes :=
  frame (λ _ _, "0") metrics_new inventory_new ∅ (Some [as_bytes "first"; as_bytes "a message that is longer than the screen"]).

Lemma frame_fits_witness :
  let c := (live_new true small_terminal).1 in
  (line_count long_frame = 15)%nat ∧ (line_count (fit_frame long_frame (lc_lines c) (lc_columns c)) ≤ 10)%nat.
Proof.
  split; [vm_compute; reflexivity|].
  assert (Hlines : tells_lines small_terminal 10) by (apply (tells_height small_terminal 10); [vm_compute; reflexivity|lia]).
  assert (Hcolumns : tells_columns small_terminal (Some 20))
    by (apply (tells_variable small_terminal 20); [done|vm_compute; reflexivity|lia]).
  exact (proj1 (frame_fits small_terminal long_frame 10 (Some 20) Hlines Hcolumns)).
Defined.
