(* ===== verification/Spans.v ===== *)
(** * Spans and scopes of the calls ([ice-rpc/src/types/context.rs])

    The span of a call and its fields, the scopes that install a context and enter
    a span around a poll, and what the code that runs inside records.  The
    subscriber of the [tracing] crate keeps a stack of the spans entered on a
    thread; [tracing] says whether the feature of that name is on. *)

From S2P Require Import Prelude MachineInt Text Header Context.

Local Open Scope Z_scope.

(** ** The span of a call *)

Record Span : Type := MkSpan {
  sn_kind : option string;
  sn_service : string;
  sn_version : Z;
  sn_method : string;
  sn_corr : string;
  sn_trace : string;
  sn_traceparent : string;
  sn_parent : Z;
  sn_span : Z;
  sn_sampled : bool
}.

(** The macro [rpc_span!], with the renderers of its fields. *)
Definition rpc_span (kind : option string) (ctx : CallContext) : Span :=
  MkSpan kind (cc_service_name ctx) (cc_service_version ctx) (cc_method ctx)
    (fmt_correlation_id (cc_correlation_id ctx)) (hex_trace_id (tc_trace_id (cc_trace ctx)))
    (traceparent (cc_trace ctx) (cc_span_id ctx))
    (tc_parent_span_id (cc_trace ctx)) (cc_span_id ctx) (trace_is_sampled (cc_trace ctx)).

Definition span (ctx : CallContext) : Span := rpc_span None ctx.

Definition span_local (ctx : CallContext) : Span := rpc_span (Some "local"%string) ctx.

(** ** Scopes *)

(** A thread: its slots, and the spans entered on it, the innermost first. *)
Record Traced : Type := MkTraced { tr_thread : Thread; tr_spans : list Span }.

Definition span_enter (s : Span) (t : Traced) : Traced := MkTraced (tr_thread t) (s :: tr_spans t).

Definition span_exit (t : Traced) : Traced := MkTraced (tr_thread t) (tail (tr_spans t)).

(** What a poll runs: it records an event, sends a request, polls the future of an
    in-process call for the first time or again, or runs a synchronous scope. *)
Inductive Work : Type :=
| WNone
| WEvent (event : nat)
| WSend
| WSeq (first second : Work)
| WLocal (service : ServiceRef) (service_name method : string) (body : Work)
| WResume (ctx : CallContext) (body : Work)
| WEnter (ctx : CallContext) (body : Work).

(** What is recorded: an event or the trace of a request, with the ambient context
    and the innermost span. *)
Inductive What : Type := Happened (event : nat) | Sent (trace : TraceContext).

Record Recorded : Type := MkRecorded { rc_what : What; rc_context : option CallContext; rc_span : option Span }.

Definition record (w : What) (t : Traced) : Recorded := MkRecorded w (current (tr_thread t)) (head (tr_spans t)).

Section scopes.
Context (tracing : bool).

(** Both scopes of a poll: the context is installed, then the span is entered; the
    guards are dropped in the reverse order. *)
Definition scoped (ctx : CallContext) (s : Span) (body : Traced → list Recorded * Proc * Traced) (t : Traced)
    : list Recorded * Proc * Traced :=
  let '(previous, th) := enter_ambient ctx (tr_thread t) in
  let t1 := MkTraced th (tr_spans t) in
  let '(log, p, t2) := body (if tracing then span_enter s t1 else t1) in
  let t3 := if tracing then span_exit t2 else t2 in
  (log, p, MkTraced (drop_ambient previous (tr_thread t3)) (tr_spans t3)).

(** [CallContext::enter], to the drop of its scope: the fields of a structure are
    dropped in the order they are declared, the context first. *)
Definition entered (ctx : CallContext) (body : Traced → list Recorded * Proc * Traced) (t : Traced)
    : list Recorded * Proc * Traced :=
  let '(previous, th) := enter_ambient ctx (tr_thread t) in
  let t1 := MkTraced th (tr_spans t) in
  let '(log, p, t2) := body (if tracing then span_enter (span ctx) t1 else t1) in
  let t3 := MkTraced (drop_ambient previous (tr_thread t2)) (tr_spans t2) in
  (log, p, if tracing then span_exit t3 else t3).

Fixpoint run_work (w : Work) (p : Proc) (t : Traced) : list Recorded * Proc * Traced :=
  match w with
  | WNone => ([], p, t)
  | WEvent e => ([record (Happened e) t], p, t)
  | WSend => let (trace, p') := outgoing_trace (tr_thread t) p in ([record (Sent trace) t], p', t)
  | WSeq a b =>
    let '(log1, p1, t1) := run_work a p t in
    let '(log2, p2, t2) := run_work b p1 t1 in
    (log1 ++ log2, p2, t2)
  (** [local_call_scoped]: without the feature the future is awaited, nothing else. *)
  | WLocal service name method body =>
    if tracing then
      let (ctx, p1) := call_context_local service name method (tr_thread t) p in
      scoped ctx (span_local ctx) (run_work body p1) t
    else run_work body p t
  | WResume ctx body => if tracing then scoped ctx (span_local ctx) (run_work body p) t else run_work body p t
  | WEnter ctx body => entered ctx (run_work body p) t
  end.

(** [CallScope::poll]: the task of a request, its span made by [call_scoped]. *)
Definition call_scoped_poll (ctx : CallContext) (w : Work) (p : Proc) (t : Traced) : list Recorded * Proc * Traced :=
  scoped ctx (span ctx) (run_work w p) t.

(** An executor thread: the polls it makes one after the other, each with the
    context of its task and what the poll runs. *)
Fixpoint run_traced (polls : list (CallContext * Work)) (p : Proc) (t : Traced) : list Recorded * Proc * Traced :=
  match polls with
  | [] => ([], p, t)
  | (ctx, w) :: rest =>
    let '(log1, p1, t1) := call_scoped_poll ctx w p t in
    let '(log2, p2, t2) := run_traced rest p1 t1 in
    (log1 ++ log2, p2, t2)
  end.

(** ** Lexical attribution

    The reference: no slot and no stack, each record carries the call it is written in. *)

Fixpoint attribution (w : Work) (c : option CallContext) (s : option Span) (p : Proc) : list Recorded * Proc :=
  match w with
  | WNone => ([], p)
  | WEvent e => ([MkRecorded (Happened e) c s], p)
  | WSend => let (trace, p') := outgoing_trace (MkThread c None) p in ([MkRecorded (Sent trace) c s], p')
  | WSeq a b =>
    let (log1, p1) := attribution a c s p in
    let (log2, p2) := attribution b c s p1 in
    (log1 ++ log2, p2)
  | WLocal service name method body =>
    if tracing then
      let (ctx, p1) := call_context_local service name method (MkThread c None) p in
      attribution body (Some ctx) (Some (span_local ctx)) p1
    else attribution body c s p
  | WResume ctx body => if tracing then attribution body (Some ctx) (Some (span_local ctx)) p else attribution body c s p
  | WEnter ctx body => attribution body (Some ctx) (if tracing then Some (span ctx) else s) p
  end.

Fixpoint attributions (polls : list (CallContext * Work)) (s : option Span) (p : Proc) : list Recorded * Proc :=
  match polls with
  | [] => ([], p)
  | (ctx, w) :: rest =>
    let (log1, p1) := attribution w (Some ctx) (if tracing then Some (span ctx) else s) p in
    let (log2, p2) := attributions rest s p1 in
    (log1 ++ log2, p2)
  end.

(** A scope is transparent: what its body records is what it records with the
    context and the span of the scope, and the thread is left as it was. *)
Lemma scoped_transparent ctx s body (reference : option CallContext → option Span → list Recorded * Proc) t :
  (∀ t', body t' = let (log, p') := reference (current (tr_thread t')) (head (tr_spans t')) in (log, p', t')) →
  scoped ctx s body t =
  let (log, p') := reference (Some ctx) (if tracing then Some s else head (tr_spans t)) in (log, p', t).
Proof.
  intros Hbody. unfold scoped, enter_ambient, drop_ambient, span_enter, span_exit. destruct t as [[c k] l]. simpl.
  rewrite Hbody. destruct tracing; simpl; by destruct (reference _ _) as [log p'].
Qed.

Lemma entered_transparent ctx body (reference : option CallContext → option Span → list Recorded * Proc) t :
  (∀ t', body t' = let (log, p') := reference (current (tr_thread t')) (head (tr_spans t')) in (log, p', t')) →
  entered ctx body t =
  let (log, p') := reference (Some ctx) (if tracing then Some (span ctx) else head (tr_spans t)) in (log, p', t).
Proof.
  intros Hbody. unfold entered, enter_ambient, drop_ambient, span_enter, span_exit. destruct t as [[c k] l]. simpl.
  rewrite Hbody. destruct tracing; simpl; by destruct (reference _ _) as [log p'].
Qed.

Lemma run_work_attributes w p t :
  run_work w p t =
  let (log, p') := attribution w (current (tr_thread t)) (head (tr_spans t)) p in (log, p', t).
Proof.
  revert p t. induction w as [|e| |a IHa b IHb|service name method body IH|ctx body IH|ctx body IH]; intros p t; simpl.
  - done.
  - done.
  - change (outgoing_trace (tr_thread t) p) with (outgoing_trace (MkThread (current (tr_thread t)) None) p).
    by destruct (outgoing_trace _ _).
  - rewrite IHa. destruct (attribution a _ _ p) as [log1 p1]. rewrite IHb. by destruct (attribution b _ _ p1).
  - destruct tracing eqn:Ht; [|apply IH].
    change (call_context_local service name method (tr_thread t) p) with
      (call_context_local service name method (MkThread (current (tr_thread t)) None) p).
    destruct (call_context_local _ _ _ _ _) as [ctx p1].
    rewrite (scoped_transparent _ _ _ (λ c s, attribution body c s p1)); [by rewrite Ht|]. intros t'. apply IH.
  - destruct tracing eqn:Ht; [|apply IH].
    rewrite (scoped_transparent _ _ _ (λ c s, attribution body c s p)); [by rewrite Ht|]. intros t'. apply IH.
  - apply (entered_transparent _ _ (λ c s, attribution body c s p)). intros t'. apply IH.
Qed.

Lemma run_traced_attributes polls p t :
  run_traced polls p t = let (log, p') := attributions polls (head (tr_spans t)) p in (log, p', t).
Proof.
  revert p. induction polls as [|[ctx w] rest IH]; intros p; simpl; [done|]. unfold call_scoped_poll.
  rewrite (scoped_transparent _ _ _ (λ c s, attribution w c s p)) by (intros t'; apply run_work_attributes).
  destruct (attribution w _ _ p) as [log1 p1]. rewrite IH. by destruct (attributions rest _ p1).
Qed.

(** A record names one call: its context, the span of that context, and the span of
    the call as the parent of what is sent. *)
Definition told (s : option Span) (r : Recorded) : Prop :=
  ∃ ctx, rc_context r = Some ctx ∧
    (if tracing then ∃ kind, rc_span r = Some (rpc_span kind ctx) else rc_span r = s) ∧
    match rc_what r with Sent trace => tc_parent_span_id trace = cc_span_id ctx | Happened _ => True end.

Lemma attribution_told w ctx s0 s p :
  (if tracing then ∃ kind, s = Some (rpc_span kind ctx) else s = s0) →
  Forall (told s0) (attribution w (Some ctx) s p).1.
Proof.
  revert ctx s p. induction w as [|e| |a IHa b IHb|service name method body IH|ctx' body IH|ctx' body IH]; intros ctx s p Hs; simpl.
  - done.
  - repeat constructor. by exists ctx.
  - unfold outgoing_trace. cbn [current t_current]. unfold child_trace.
    pose proof (continued_or_root_spec (cc_trace ctx) (cc_span_id ctx) p) as Hc.
    destruct (continued_or_root _ _ _) as [trace p']. repeat constructor. exists ctx. by destruct Hc.
  - specialize (IHa ctx s p Hs). destruct (attribution a _ _ p) as [log1 p1]. specialize (IHb ctx s p1 Hs).
    destruct (attribution b _ _ p1) as [log2 p2]. by apply Forall_app.
  - destruct tracing eqn:Ht; [|by apply IH]. destruct (call_context_local _ _ _ _ _) as [ctx' p1]. apply IH. by eexists.
  - destruct tracing eqn:Ht; apply IH; [by eexists|done].
  - apply IH. destruct tracing; [by eexists|done].
Qed.

Lemma attributions_told polls s p : Forall (told s) (attributions polls s p).1.
Proof.
  revert p. induction polls as [|[ctx w] rest IH]; intros p; simpl; [done|].
  pose proof (attribution_told w ctx s (if tracing then Some (span ctx) else s) p) as Hw.
  destruct (attribution w _ _ p) as [log1 p1]. specialize (IH p1). destruct (attributions rest _ p1) as [log2 p2].
  apply Forall_app. split; [|done]. apply Hw. destruct tracing; [by eexists|done].
Qed.
End scopes.

(** C22. What a thread records while it interleaves the polls of many calls, with the
    in-process calls they make, is what a reader of the code would attribute: every
    event and every request is recorded with the innermost call it is written in,
    under the span of that call, which the requests name as their parent; the
    context and the spans of the thread are left as they were. *)
Theorem spans_tell_calls tracing polls p t :
  let '(log, p', t') := run_traced tracing polls p t in
  t' = t ∧ (log, p') = attributions tracing polls (head (tr_spans t)) p ∧
  Forall (told tracing (head (tr_spans t))) log.
Proof.
  rewrite run_traced_attributes. pose proof (attributions_told tracing polls (head (tr_spans t)) p) as Ht.
  by destruct (attributions tracing polls _ p) as [log p'].
Qed.

(** The id a span shows is read back as the correlation id of its call, which is how
    a log line and the view of the monitor are joined. *)
Lemma span_joins_log kind ctx :
  is_correlation_id (cc_correlation_id ctx) →
  parse_correlation_id (sn_corr (rpc_span kind ctx)) = Ret (Some (cc_correlation_id ctx)).
Proof. intros Hc. by apply parse_fmt_correlation_id. Qed.

(** The span of an in-process call is a child of the one it is made in: it has its
    trace, its sampling and its id as the parent. *)
Lemma local_span_is_child service name method parent k p :
  trace_is_present (cc_trace parent) = true →
  let s := span_local (call_context_local service name method (MkThread (Some parent) k) p).1 in
  sn_kind s = Some "local"%string ∧ sn_service s = name ∧ sn_method s = method ∧
  sn_parent s = sn_span (span parent) ∧ sn_trace s = sn_trace (span parent) ∧ sn_sampled s = sn_sampled (span parent).
Proof.
  intros Hp. unfold call_context_local. destruct (next_correlation_id p) as [cid p1]. cbn [current t_current].
  unfold child_trace. pose proof (continued_or_root_spec (cc_trace parent) (cc_span_id parent) p1) as Hc.
  destruct (continued_or_root _ _ p1) as [trace p2]. destruct Hc as (H1 & H2 & H3 & _).
  destruct (next_span_id p2) as [sp p3]. unfold trace_is_present in Hp. apply bool_decide_eq_true in Hp.
  cbn. unfold trace_is_sampled. rewrite H1, H2, H3; done.
Qed.

(** A handler that records, calls a service of its own process and records again. *)
Example nested_call :
  let ctx := MkCallContext (correlation_id_of 7 1) "Orders" 11 1 "place" 5 (MkTrace (correlation_id_of 7 1) 3 1) 42 in
  let w := WSeq (WEvent 0) (WSeq (WLocal (MkServiceRef 12 1) "Stock" "take" (WSeq (WEvent 1) WSend)) (WEvent 2)) in
  let '(log, _, t) := run_traced true [(ctx, w); (ctx, WEvent 3)] (proc_start 7 None) (MkTraced empty_thread []) in
  map (λ r, (cc_method <$> rc_context r, sn_parent <$> rc_span r)) log =
  [(Some "place", Some 3); (Some "take", Some 42); (Some "take", Some 42); (Some "place", Some 3); (Some "place", Some 3)]%string
  ∧ t = MkTraced empty_thread [].
Proof. vm_compute. done. Qed.
