(* ===== verification/Runtime.v ===== *)
(** * The execution facade ([ice-rpc-rx/src/rt/mod.rs])

    Which mode the features select, where a detached task goes, what is polled in
    place, the blocking threads and their handles, the timeout.  The executor of a
    mode and the futures it polls are code outside the repository: they are the
    interfaces [TaskPool] and [Futures], with what is relied on as laws. *)

From S2P Require Import Prelude MachineInt Text Event Cancel Metrics Parse.

(** ** The modes *)

Record RtFeatures : Type := MkRtFeatures { rf_tokio : bool; rf_smol : bool; rf_rt_async : bool; rf_rt_none : bool }.

Inductive RtMode : Type := ModeTokio | ModeSmol | ModeRtAsync | ModeRtNone.

#[export] Instance RtMode_eq_dec : EqDecision RtMode.
Proof. solve_decision. Defined.

(** The two errors of the compilation. *)
Inductive RtError : Type := TwoRuntimes | NoFacade.

Definition rt_mode (f : RtFeatures) : result RtMode RtError :=
  if rf_tokio f && rf_smol f then Err TwoRuntimes
  else if negb (rf_tokio f || rf_smol f || rf_rt_async f || rf_rt_none f) then Err NoFacade
  else Ok (if rf_tokio f then ModeTokio else if rf_smol f then ModeSmol
           else if rf_rt_async f then ModeRtAsync else ModeRtNone).

(** The features are additive: enabling the default beside another mode changes nothing. *)
Lemma rt_async_is_fallback t s n :
  t || s = true → rt_mode (MkRtFeatures t s true n) = rt_mode (MkRtFeatures t s false n).
Proof. by destruct t, s. Qed.

(** The threads of the owned executor; [parallelism] is what the system answers. *)
Definition worker_threads (ICE_RPC_THREADS : option bytes) (parallelism : option Z) : Z :=
  match ICE_RPC_THREADS ≫= parse_u64 with
  | Some count => if (0 <? count)%Z then count else default 1%Z parallelism
  | None => default 1%Z parallelism
  end.

(** There is always a thread that polls. *)
Lemma worker_threads_pos env n : (∀ x, n = Some x → (1 ≤ x)%Z) → (1 ≤ worker_threads env n)%Z.
Proof.
  intros Hn. assert (1 ≤ default 1%Z n)%Z by (destruct n; simpl; [by apply Hn|done]).
  unfold worker_threads. destruct (env ≫= parse_u64) as [c|]; [|done]. destruct (Z.ltb_spec 0 c); lia.
Qed.

(** ** Spawners *)

(** The runtime a spawner captured, which the tokio mode alone has. *)
Record Spawner : Type := MkSpawner { sp_handle : option nat }.

Definition Spawner_capture (mode : RtMode) (current : option nat) : Spawner :=
  MkSpawner (match mode with ModeTokio => current | _ => None end).

(** Who polls a detached task. *)
Inductive Destination : Type :=
| OnRuntime (handle : nat)
| OnFallbackRuntime
| OnGlobalExecutor
| OnOwnedExecutor
| OnOwnThread.

Definition Spawner_spawn (mode : RtMode) (s : Spawner) : Destination :=
  match mode with
  | ModeTokio => match sp_handle s with Some handle => OnRuntime handle | None => OnFallbackRuntime end
  | ModeSmol => OnGlobalExecutor
  | ModeRtAsync => OnOwnedExecutor
  | ModeRtNone => OnOwnThread
  end.

(** Whether [run_or_spawn] polls in place: never without a runtime to enter, and
    never where there is no executor to hand a pending task to. *)
Definition polls_inline (mode : RtMode) (s : Spawner) : bool :=
  match mode with
  | ModeTokio => match sp_handle s with Some _ => true | None => false end
  | ModeSmol | ModeRtAsync => true
  | ModeRtNone => false
  end.

(** ** Futures and executors

    A future is polled with the waker of a task, or with one that does nothing.
    What it awaits is in the world, which other polls and the environment change;
    each change wakes a list of tasks. *)

Class Futures (W F : Type) : Type := {
  fut_poll : option Waker → W → F → poll () * list Waker * W * F;
  (** The environment: a completion, with the tasks it wakes. *)
  env_moves : W → list Waker → W → Prop;
  (** What the last poll of [f] awaits has not come, and will wake the task. *)
  fut_waits : W → F → Waker → Prop
}.

Class FutureLaws (W F : Type) `{Futures W F} : Prop := {
  (** The contract of [poll]: a pending future has arranged for its task to be woken. *)
  pending_waits t w f wks w' f' : fut_poll (Some t) w f = (Pending, wks, w', f') → fut_waits w' f' t;
  (** A change keeps what another future awaits, or wakes it. *)
  env_keeps w wks w' f t : env_moves w wks w' → fut_waits w f t → t ∈ wks ∨ fut_waits w' f t;
  poll_keeps k w g r wks w' g' f t :
    fut_poll k w g = (r, wks, w', g') → fut_waits w f t → t ∈ wks ∨ fut_waits w' f t;
  (** Nothing is ready while it is awaited. *)
  waits_pending w f t k : fut_waits w f t → (fut_poll k w f).1.1.1 = Pending
}.

(** An executor: its tasks, and those it will poll. *)
Class TaskPool (P F : Type) : Type := {
  pool_tasks : P → gmap Waker F;
  pool_scheduled : P → gset Waker;
  pool_spawn : F → P → P;
  pool_wake : Waker → P → P;
  pool_take : P → option (Waker * F * P);
  pool_park : Waker → F → P → P;
  pool_finish : Waker → P → P
}.

Class TaskPoolLaws (P F : Type) `{TaskPool P F} : Prop := {
  (** A spawned task is scheduled for a first poll. *)
  spawn_schedules f p : ∃ t, pool_tasks p !! t = None ∧
    pool_tasks (pool_spawn f p) = <[t := f]> (pool_tasks p) ∧
    pool_scheduled (pool_spawn f p) = {[t]} ∪ pool_scheduled p;
  (** A task that is woken is polled again. *)
  wake_tasks t p : pool_tasks (pool_wake t p) = pool_tasks p;
  wake_schedules t p :
    pool_scheduled (pool_wake t p) =
    if decide (is_Some (pool_tasks p !! t)) then {[t]} ∪ pool_scheduled p else pool_scheduled p;
  take_spec t f p p' : pool_take p = Some (t, f, p') →
    pool_tasks p !! t = Some f ∧ pool_tasks p' = pool_tasks p ∧ pool_scheduled p' = pool_scheduled p ∖ {[t]};
  take_some p : pool_scheduled p ≠ ∅ → is_Some (pool_take p);
  park_tasks t f p : pool_tasks (pool_park t f p) = <[t := f]> (pool_tasks p);
  park_scheduled t f p : pool_scheduled (pool_park t f p) = pool_scheduled p;
  finish_tasks t p : pool_tasks (pool_finish t p) = delete t (pool_tasks p);
  finish_scheduled t p : pool_scheduled (pool_finish t p) = pool_scheduled p ∖ {[t]}
}.

Section facade.
Context {W F P : Type} `{Futures W F} `{TaskPool P F}.

(** The tasks polled once in place and not handed over yet are those of the
    threads that call [run_or_spawn]. *)
Record Facade : Type := MkFacade {
  fc_world : W;
  fc_pool : P;
  fc_inline : list F;
  (** Submitted and finished, for the account. *)
  fc_submitted : nat;
  fc_finished : nat
}.

Definition wake_all (wks : list Waker) (p : P) : P := fold_left (λ p t, pool_wake t p) wks p.

(** [spawn], and the first steps of [run_or_spawn] where it polls nothing. *)
Definition facade_spawn (f : F) (st : Facade) : Facade :=
  MkFacade (fc_world st) (pool_spawn f (fc_pool st)) (fc_inline st) (S (fc_submitted st)) (fc_finished st).

(** [run_or_spawn], to its inline poll: the waker does nothing. *)
Definition facade_run_or_spawn (mode : RtMode) (s : Spawner) (f : F) (st : Facade) : Facade :=
  if polls_inline mode s then
    let '(r, wks, w', f') := fut_poll None (fc_world st) f in
    let pool := wake_all wks (fc_pool st) in
    match r with
    | Ready _ => MkFacade w' pool (fc_inline st) (S (fc_submitted st)) (S (fc_finished st))
    | Pending => MkFacade w' pool (f' :: fc_inline st) (S (fc_submitted st)) (fc_finished st)
    end
  else facade_spawn f st.

(** The rest of [run_or_spawn]: the pending task is spawned. *)
Definition hand_over (i : nat) (st : Facade) : Facade :=
  match fc_inline st !! i with
  | Some f => MkFacade (fc_world st) (pool_spawn f (fc_pool st)) (delete i (fc_inline st)) (fc_submitted st) (fc_finished st)
  | None => st
  end.

(** A worker polls a scheduled task. *)
Definition worker (st : Facade) : Facade :=
  match pool_take (fc_pool st) with
  | None => st
  | Some (t, f, p) =>
    let '(r, wks, w', f') := fut_poll (Some t) (fc_world st) f in
    match r with
    | Ready _ => MkFacade w' (wake_all wks (pool_finish t p)) (fc_inline st) (fc_submitted st) (S (fc_finished st))
    | Pending => MkFacade w' (wake_all wks (pool_park t f' p)) (fc_inline st) (fc_submitted st) (fc_finished st)
    end
  end.

Inductive facade_step : Facade → Facade → Prop :=
| step_spawn f st : facade_step st (facade_spawn f st)
| step_run mode s f st : facade_step st (facade_run_or_spawn mode s f st)
| step_hand_over i st : facade_step st (hand_over i st)
| step_worker st : facade_step st (worker st)
| step_env st wks w' :
    env_moves (fc_world st) wks w' →
    facade_step st (MkFacade w' (wake_all wks (fc_pool st)) (fc_inline st) (fc_submitted st) (fc_finished st)).

(** *** No task is lost *)

Definition no_lost (w : W) (p : P) : Prop :=
  ∀ t f, pool_tasks p !! t = Some f → t ∈ pool_scheduled p ∨ fut_waits w f t.

Definition accounted (st : Facade) : Prop :=
  fc_submitted st = (fc_finished st + size (pool_tasks (fc_pool st)) + length (fc_inline st))%nat.

Definition facade_inv (st : Facade) : Prop := no_lost (fc_world st) (fc_pool st) ∧ accounted st.

Context `{!FutureLaws W F} `{!TaskPoolLaws P F}.

Lemma wake_all_tasks wks p : pool_tasks (wake_all wks p) = pool_tasks p.
Proof. unfold wake_all. revert p. induction wks as [|t wks IH]; intros p; [done|]. simpl. by rewrite IH, wake_tasks. Qed.

Lemma wake_all_scheduled wks p t :
  t ∈ pool_scheduled p ∨ t ∈ wks ∧ is_Some (pool_tasks p !! t) → t ∈ pool_scheduled (wake_all wks p).
Proof.
  unfold wake_all. revert p. induction wks as [|u wks IH]; intros p; simpl; [set_solver|]. intros Ht. apply IH.
  rewrite wake_tasks, wake_schedules. case_decide; destruct Ht as [|[[->|]%elem_of_cons ?]]; try set_solver.
Qed.

(** After a change of the world and its wake-ups, no task is lost that was not. *)
Lemma no_lost_wake w w' wks p :
  (∀ f t, fut_waits w f t → t ∈ wks ∨ fut_waits w' f t) → no_lost w p → no_lost w' (wake_all wks p).
Proof.
  intros Hkeep Hp t f. rewrite wake_all_tasks. intros Ht. destruct (Hp t f Ht) as [|Hw].
  - left. apply wake_all_scheduled. by left.
  - destruct (Hkeep _ _ Hw); [|by right]. left. apply wake_all_scheduled. eauto.
Qed.

Lemma no_lost_spawn w f p : no_lost w p → no_lost w (pool_spawn f p).
Proof.
  intros Hp t g. destruct (spawn_schedules f p) as (u & _ & -> & ->).
  intros [[<- <-]|[_ Ht]]%lookup_insert_Some; [set_solver|]. destruct (Hp t g Ht); [set_solver|by right].
Qed.

Lemma size_spawn f p : size (pool_tasks (pool_spawn f p)) = S (size (pool_tasks p)).
Proof. destruct (spawn_schedules f p) as (u & Hu & -> & _). by rewrite map_size_insert_None. Qed.

Lemma worker_inv st : facade_inv st → facade_inv (worker st).
Proof.
  intros [Hl Ha]. unfold worker. destruct (pool_take (fc_pool st)) as [[[t f] p]|] eqn:Htake; [|done].
  apply take_spec in Htake as (Ht & Htasks & Hsched).
  destruct (fut_poll (Some t) (fc_world st) f) as [[[r wks] w'] f'] eqn:Hpoll.
  assert (Hothers : ∀ q, (∀ u g, u ≠ t → pool_tasks q !! u = Some g → pool_tasks p !! u = Some g) →
    pool_scheduled p ⊆ pool_scheduled q ∪ {[t]} →
    (∀ g, pool_tasks q !! t = Some g → g = f' ∧ fut_waits w' f' t) → no_lost w' (wake_all wks q)).
  { intros q Hq Hs Htq u g. rewrite wake_all_tasks. intros Hu.
    destruct (decide (u = t)) as [->|Hne]; [destruct (Htq _ Hu) as [-> ?]; by right|].
    pose proof (Hq u g Hne Hu) as Hup. rewrite Htasks in Hup. destruct (Hl u g Hup) as [Hsu|Hw].
    - left. apply wake_all_scheduled. left. set_solver.
    - destruct (poll_keeps _ _ _ _ _ _ _ _ _ Hpoll Hw); [|by right]. left. apply wake_all_scheduled. eauto. }
  unfold facade_inv, accounted in *. destruct r as [|a]; simpl; rewrite wake_all_tasks.
  - rewrite park_tasks, Htasks, map_size_insert_Some by eauto. split; [|done]. apply Hothers; rewrite ?park_tasks, ?park_scheduled.
    + intros u g Hne Hu. by rewrite lookup_insert_ne in Hu.
    + set_solver.
    + intros g. rewrite lookup_insert_eq. intros [= ->]. split; [done|]. by eapply pending_waits.
  - rewrite finish_tasks, Htasks, map_size_delete_Some by eauto. split.
    + apply Hothers; rewrite ?finish_tasks, ?finish_scheduled.
      * intros u g Hne Hu. by rewrite lookup_delete_ne in Hu.
      * intros u Hu. destruct (decide (u = t)); set_solver.
      * intros g. by rewrite lookup_delete_eq.
    + assert (size (pool_tasks (fc_pool st)) ≠ 0) by (intros Hz%map_size_empty_inv; by rewrite Hz, lookup_empty in Ht). lia.
Qed.

Lemma facade_step_inv st st' : facade_step st st' → facade_inv st → facade_inv st'.
Proof.
  intros Hstep [Hl Ha]. unfold facade_inv, accounted in *. destruct Hstep as [f st|mode s f st|i st|st|st wks w' Henv].
  - simpl. rewrite size_spawn. split; [by apply no_lost_spawn|lia].
  - unfold facade_run_or_spawn. destruct (polls_inline mode s).
    + destruct (fut_poll None (fc_world st) f) as [[[r wks] w'] f'] eqn:Hpoll.
      assert (Hw : no_lost w' (wake_all wks (fc_pool st))) by (eapply no_lost_wake; [|done]; intros; by eapply poll_keeps).
      destruct r; simpl; rewrite wake_all_tasks; (split; [done|lia]).
    + simpl. rewrite size_spawn. split; [by apply no_lost_spawn|lia].
  - unfold hand_over. destruct (fc_inline st !! i) as [f|] eqn:Hi; [|done]. simpl. rewrite size_spawn.
    pose proof (length_delete (fc_inline st) i ltac:(eauto)). pose proof (lookup_lt_Some _ _ _ Hi).
    split; [by apply no_lost_spawn|lia].
  - by apply worker_inv.
  - simpl. rewrite wake_all_tasks. split; [|done]. eapply no_lost_wake; [|done]. intros; by eapply env_keeps.
Qed.
End facade.

(** ** Instances *)

(** A queue of tasks; an entry of a task that is gone is passed over. *)
Record VecPool (F : Type) : Type := MkVecPool { vp_tasks : gmap Waker F; vp_queue : list Waker }.
Arguments MkVecPool {F} _ _.
Arguments vp_tasks {F} _.
Arguments vp_queue {F} _.

Definition vp_live {F} (p : VecPool F) : list Waker := filter (λ t, is_Some (vp_tasks p !! t)) (vp_queue p).

#[export] Instance VecPool_ops {F} : TaskPool (VecPool F) F := {
  pool_tasks := vp_tasks;
  pool_scheduled p := list_to_set (vp_live p);
  pool_spawn f p := let t := fresh (dom (vp_tasks p)) in MkVecPool (<[t := f]> (vp_tasks p)) (vp_queue p ++ [t]);
  pool_wake t p := MkVecPool (vp_tasks p) (vp_queue p ++ [t]);
  pool_take p :=
    t ← head (vp_live p);
    f ← vp_tasks p !! t;
    Some (t, f, MkVecPool (vp_tasks p) (filter (λ u, u ≠ t) (vp_queue p)));
  pool_park t f p := MkVecPool (<[t := f]> (vp_tasks p)) (if decide (is_Some (vp_tasks p !! t)) then vp_queue p else filter (λ u, u ≠ t) (vp_queue p));
  pool_finish t p := MkVecPool (delete t (vp_tasks p)) (vp_queue p)
}.

Lemma elem_of_live {F} (p : VecPool F) u :
  u ∈ pool_scheduled p ↔ is_Some (vp_tasks p !! u) ∧ u ∈ vp_queue p.
Proof. unfold pool_scheduled. simpl. unfold vp_live. by rewrite elem_of_list_to_set, list_elem_of_filter. Qed.

#[export] Instance VecPool_laws {F} : TaskPoolLaws (VecPool F) F.
Proof.
  split; unfold pool_tasks; cbn [VecPool_ops].
  - intros f p. pose proof (is_fresh (dom (vp_tasks p))) as Hfresh. apply not_elem_of_dom in Hfresh.
    eexists. split; [exact Hfresh|]. split; [done|]. apply set_eq. intros u. rewrite elem_of_union, !elem_of_live. simpl.
    rewrite lookup_insert_is_Some'. set_solver.
  - done.
  - intros t p. apply set_eq. intros u. case_decide; rewrite ?elem_of_union, !elem_of_live; simpl; set_solver.
  - intros t f p p' Htake. unfold pool_take in Htake. cbn [VecPool_ops] in Htake.
    destruct (head _) as [u|] eqn:Hh; [|done]. cbn in Htake. destruct (vp_tasks p !! u) as [g|] eqn:Hu; [|done].
    injection Htake as -> -> <-. split; [done|]. split; [done|]. apply set_eq. intros v.
    rewrite elem_of_difference, !elem_of_live. simpl. rewrite list_elem_of_filter. set_solver.
  - intros p Hne. apply set_choose_L in Hne as [t Ht]. apply elem_of_live in Ht as [Ht Hq]. simpl.
    destruct (vp_live p) as [|u q] eqn:Hl.
    + assert (Hin : t ∈ vp_live p) by (by apply list_elem_of_filter). rewrite Hl in Hin. by apply elem_of_nil in Hin.
    + assert (Hin : u ∈ vp_live p) by (rewrite Hl; set_solver). apply list_elem_of_filter in Hin as [[f Hf] _]. simpl. rewrite Hf. by eexists.
  - done.
  - intros t f p. apply set_eq. intros u. rewrite !elem_of_live. simpl. rewrite lookup_insert_is_Some'.
    case_decide as Ht; [|rewrite list_elem_of_filter]; (destruct (decide (u = t)) as [->|]; [|set_solver]); set_solver.
  - done.
  - intros t p. apply set_eq. intros u. rewrite elem_of_difference, !elem_of_live. simpl. rewrite lookup_delete_is_Some. set_solver.
Qed.

(** Tasks that await a cancellation: a waker that does nothing is not kept. *)
#[export] Instance token_futures : Futures CancellationToken () := {
  fut_poll k w f :=
    match k with
    | Some t => let '(r, w') := poll_cancelled w t in (r, [], w', f)
    | None => (if is_cancelled w then Ready () else Pending, [], w, f)
    end;
  env_moves w wks w' := cancel w = (wks, w');
  fut_waits w f t := is_cancelled w = false ∧ t ∈ tok_wakers w
}.

#[export] Instance token_future_laws : FutureLaws CancellationToken ().
Proof.
  split; unfold fut_poll, fut_waits, env_moves; simpl.
  - intros t w [] wks w' f'. unfold poll_cancelled, register, is_cancelled. destruct (tok_cancelled w) eqn:Hc; [done|].
    case_bool_decide; simpl; rewrite ?Hc; intros [= <- <- <-]; simpl; (split; [done|set_solver]).
  - intros w wks w' f t. unfold cancel, is_cancelled. intros Hcan [Hc Ht]. rewrite Hc in Hcan. simplify_eq. by left.
  - intros [k|] w g r wks w' g' f t; [|by intros [= _ <- <- _]; right].
    unfold poll_cancelled, register, is_cancelled. intros Hp [Hc Ht]. rewrite Hc in Hp. right.
    case_bool_decide; simpl in Hp; rewrite ?Hc in Hp; simplify_eq; simpl; set_solver.
  - intros w f t [k|] [Hc Ht]; simpl; [|by rewrite Hc]. unfold poll_cancelled, register, is_cancelled in *. rewrite Hc.
    case_bool_decide; simpl; by rewrite ?Hc.
Qed.

(** C5. The poll in place loses nothing, though its waker does nothing: in any
    interleaving of the threads that submit, the threads between their poll and
    their hand-over, the workers and the completions, every task submitted has
    finished, is about to be handed over (and is then scheduled), or belongs to
    the executor; and one that belongs to it and would answer is scheduled, so
    that a worker finds something to poll. *)
Theorem no_task_lost {W F P} `{FutureLaws W F} `{TaskPoolLaws P F} (w : W) (p : P) st :
  pool_tasks p = ∅ →
  rtc facade_step (MkFacade w p [] 0 0) st →
  fc_submitted st = (fc_finished st + size (pool_tasks (fc_pool st)) + length (fc_inline st))%nat ∧
  (∀ t f k a, pool_tasks (fc_pool st) !! t = Some f → (fut_poll k (fc_world st) f).1.1.1 = Ready a →
     t ∈ pool_scheduled (fc_pool st) ∧ is_Some (pool_take (fc_pool st))) ∧
  (∀ i f, fc_inline st !! i = Some f →
     ∃ t, pool_tasks (fc_pool (hand_over i st)) !! t = Some f ∧ t ∈ pool_scheduled (fc_pool (hand_over i st))).
Proof.
  intros Hempty Hreach. assert (Hinv : facade_inv st).
  { revert Hreach. cut (facade_inv (MkFacade w p [] 0 0)).
    - intros Hi Hr. induction Hr; [done|]. eauto using facade_step_inv.
    - unfold facade_inv, accounted, no_lost. simpl. rewrite Hempty. split; [|by rewrite map_size_empty]. by intros. }
  destruct Hinv as [Hl Ha]. split; [exact Ha|]. split.
  - intros t f k a Ht Hk. destruct (Hl t f Ht) as [Hs|Hw]; [|by rewrite (waits_pending _ _ _ k Hw) in Hk].
    split; [done|]. apply take_some. set_solver.
  - intros i f Hi. unfold hand_over. rewrite Hi. simpl. destruct (spawn_schedules f (fc_pool st)) as (t & _ & -> & ->).
    exists t. rewrite lookup_insert_eq. set_solver.
Qed.

(** A call is polled in place, the token is cancelled before it is handed over:
    nobody is woken, and the task is scheduled all the same. *)
Definition window : Facade :=
  let st := facade_run_or_spawn ModeRtAsync (MkSpawner None) () (MkFacade token_new (MkVecPool ∅ []) [] 0 0) in
  hand_over 0 (MkFacade (cancel (fc_world st)).2 (fc_pool st) (fc_inline st) (fc_submitted st) (fc_finished st)).

Lemma no_task_lost_witness :
  fc_submitted window = 1 ∧ fc_finished window = 0 ∧ fc_finished (worker window) = 1 ∧
  0 ∈ pool_scheduled (fc_pool window).
Proof.
  assert (Hr : rtc facade_step (MkFacade token_new (MkVecPool ∅ []) [] 0 0) window).
  { eapply rtc_l; [apply (step_run ModeRtAsync (MkSpawner None) ())|].
    eapply rtc_l; [apply (step_env _ [] (MkToken true [])); reflexivity|]. apply rtc_once, (step_hand_over 0). }
  destruct (no_task_lost token_new (MkVecPool ∅ []) window) as (_ & Hsched & _); [reflexivity|exact Hr|].
  split; [reflexivity|]. split; [reflexivity|]. split; [vm_compute; reflexivity|].
  apply (Hsched 0 () None ()); reflexivity.
Defined.

(** ** Blocking threads *)

Inductive PanicPayload : Type := PanicStr (s : string) | PanicString (s : string) | PanicOther.

Definition panic_payload_message (payload : PanicPayload) : string :=
  match payload with
  | PanicStr message | PanicString message => message
  | PanicOther => "blocking task panicked with a non-string payload"
  end.

(** A closure returns or unwinds. *)
Definition catch_panic {R} (f : R + PanicPayload) : result R string :=
  match f with inl r => Ok r | inr payload => Err (panic_payload_message payload) end.

(** [spawn_blocking_value]: the pool of tokio reports a panic as a [JoinError],
    whose text is [join_error]; the other pool would raise it in the awaiting task. *)
Definition spawn_blocking_value {R} (mode : RtMode) (join_error : PanicPayload → string) (f : R + PanicPayload)
    : option (result R string) :=
  match mode with
  | ModeTokio =>
      Some (match f with inl r => Ok r | inr payload => Err ("pooled blocking task failed: " +:+ join_error payload) end)
  | ModeSmol | ModeRtAsync => Some (catch_panic f)
  | ModeRtNone => None
  end.

(** Where there is a pool, a panic is an error of the value, in every mode. *)
Lemma pooled_value {R} mode je (f : R + PanicPayload) v :
  spawn_blocking_value mode je f = Some v →
  match f with inl r => v = Ok r | inr _ => ∃ message, v = Err message end.
Proof. by destruct mode, f; intros [= <-]; eauto. Qed.

Section blocking.
Context {C : Type → Type} `{AsyncChannelLaws C}.

(** The dedicated thread: in the closure, behind the send, gone. *)
Inductive ThreadPhase : Type := InClosure | Sent | Exited.

Record Blocking : Type := MkBlocking { bl_phase : ThreadPhase; bl_chan : C () }.

Definition spawn_blocking : Blocking := MkBlocking InClosure (ch_bounded 1).

(** A step of the thread, whose closure ends as [f] says; the end of the thread,
    by a return or by unwinding, drops the sender. *)
Definition thread_step {R} (f : R + PanicPayload) (b : Blocking) : Blocking :=
  match bl_phase b with
  | InClosure =>
      match f with
      | inl _ => MkBlocking Sent (ch_try_send (bl_chan b) ()).2
      | inr _ => MkBlocking Exited (ch_close (bl_chan b))
      end
  | Sent => MkBlocking Exited (ch_close (bl_chan b))
  | Exited => b
  end.

(** [BlockingHandle::poll]. *)
Definition handle_poll (b : Blocking) : poll () * Blocking :=
  match ch_poll_recv (bl_chan b) with
  | (Ready _, c) => (Ready (), MkBlocking (bl_phase b) c)
  | (Pending, c) => (Pending, MkBlocking (bl_phase b) c)
  end.

(** The channel before the handle has answered. *)
Definition blocking_ok (b : Blocking) : Prop :=
  match bl_phase b with
  | InClosure => ch_view (bl_chan b) = ChanView [] false (Some 1)
  | Sent => ch_view (bl_chan b) = ChanView [()] false (Some 1)
  | Exited => cv_closed (ch_view (bl_chan b)) = true
  end.

Lemma thread_step_ok {R} (f : R + PanicPayload) b : blocking_ok b → blocking_ok (thread_step f b).
Proof.
  unfold blocking_ok, thread_step. destruct b as [[] c]; simpl; intros Hc; [destruct f as [r|p]; simpl| |done].
  - destruct (ch_send_room c ()) as (c' & -> & Hv); [by rewrite Hc..|]. simpl. by rewrite Hv, Hc.
  - by rewrite ch_close_view.
  - by rewrite ch_close_view.
Qed.

(** Whether a poll of the handle answers: the closure has ended, one way or the other. *)
Lemma handle_answers b :
  blocking_ok b →
  match bl_phase b with
  | InClosure => handle_poll b = (Pending, b)
  | _ => (handle_poll b).1 = Ready ()
  end.
Proof.
  unfold blocking_ok, handle_poll. destruct b as [[] c]; simpl; intros Hc.
  - by rewrite ch_recv_wait by (by rewrite Hc).
  - destruct (ch_recv_some c () []) as (c' & -> & _); [by rewrite Hc|]. done.
  - destruct (cv_queue (ch_view c)) as [|[] q] eqn:Hq; [by rewrite ch_recv_end|].
    destruct (ch_recv_some c () q Hq) as (c' & -> & _). done.
Qed.

(** The events of a blocking call, up to the answer of the handle. *)
Fixpoint blocking_run {R} (f : R + PanicPayload) (events : list bool) (b : Blocking) : option ThreadPhase * Blocking :=
  match events with
  | [] => (None, b)
  | true :: rest => blocking_run f rest (thread_step f b)
  | false :: rest =>
      match handle_poll b with
      | (Ready _, b') => (Some (bl_phase b'), b')
      | (Pending, b') => blocking_run f rest b'
      end
  end.

(** The handle waits for the closure and for nothing more: whatever the
    interleaving, it answers at the first poll behind the end of the closure,
    also when the closure panics, and never before. *)
Lemma blocking_handle_waits {R} (f : R + PanicPayload) events b :
  blocking_ok b →
  match blocking_run f events b with
  | (Some phase, _) => phase ≠ InClosure
  | (None, b') => ∀ before after, events = before ++ false :: after →
      bl_phase b = InClosure ∧ true ∉ before
  end.
Proof.
  revert b. induction events as [|[] events IH]; intros b Hb; simpl.
  - by intros [|] ? ?.
  - specialize (IH (thread_step f b) (thread_step_ok f b Hb)).
    destruct (blocking_run f events (thread_step f b)) as [[phase|] b']; [done|].
    intros before after Hev. destruct before as [|e before]; simplify_list_eq. exfalso. destruct (IH before after eq_refl) as [Hph _]. revert Hph.
    unfold thread_step. destruct b as [[] c]; simpl; [destruct f|..]; done.
  - pose proof (handle_answers b Hb) as Hh. destruct (bl_phase b) eqn:Hph.
    + rewrite Hh. specialize (IH b Hb). destruct (blocking_run f events b) as [[phase|] b']; [done|].
      intros before after Hev. destruct before as [|e before]; simplify_list_eq; [split; [done|set_solver]|]. destruct (IH before after eq_refl) as [_ Hn].
      split; [done|]. set_solver.
    + unfold handle_poll in *. destruct (ch_poll_recv (bl_chan b)) as [[|] c]; [done|]. simpl. by rewrite Hph.
    + unfold handle_poll in *. destruct (ch_poll_recv (bl_chan b)) as [[|] c]; [done|]. simpl. by rewrite Hph.
Qed.
End blocking.

(** ** [timeout] *)

Section timeout.
Context {F A : Type} (poll_fut : F → poll A * F).
Local Open Scope Z_scope.

(** The race polls one of the two first, drawn at random. *)
Definition timeout_poll (value_first : bool) (deadline now : Z) (f : F) : poll (option A) * F :=
  if value_first then
    match poll_fut f with
    | (Ready a, f') => (Ready (Some a), f')
    | (Pending, f') => (if deadline <=? now then Ready None else Pending, f')
    end
  else if deadline <=? now then (Ready None, f)
  else
    match poll_fut f with
    | (Ready a, f') => (Ready (Some a), f')
    | (Pending, f') => (Pending, f')
    end.

(** The polls of [timeout], each with its draw and its instant: [None] is [Elapsed]. *)
Fixpoint timeout_run (deadline : Z) (polls : list (bool * Z)) (f : F) : option (option A) :=
  match polls with
  | [] => None
  | (b, now) :: rest =>
      match timeout_poll b deadline now f with
      | (Ready r, _) => Some r
      | (Pending, f') => timeout_run deadline rest f'
      end
  end.

(** The future alone, polled as often. *)
Fixpoint await (n : nat) (f : F) : option A :=
  match n with
  | O => None
  | S n' => match poll_fut f with (Ready a, _) => Some a | (Pending, f') => await n' f' end
  end.

(** Before its deadline a timeout is the future itself; it answers [Elapsed] only
    from the deadline on, has answered by the first poll at it, and what it
    answers otherwise is the answer of the future. *)
Lemma timeout_watches deadline polls f :
  (Forall (λ p, p.2 < deadline) polls → timeout_run deadline polls f = Some <$> await (length polls) f) ∧
  (timeout_run deadline polls f = Some None → Exists (λ p, deadline ≤ p.2) polls) ∧
  (Exists (λ p, deadline ≤ p.2) polls → is_Some (timeout_run deadline polls f)) ∧
  (∀ a, timeout_run deadline polls f = Some (Some a) → ∃ n, (n ≤ length polls)%nat ∧ await n f = Some a).
Proof.
  revert f. induction polls as [|[b now] polls IH]; intros f; simpl; [split_and!; [done|done|by intros ?%Exists_nil|done]|].
  unfold timeout_poll. destruct (poll_fut f) as [[|a] f'] eqn:Hf.
  - assert (Hsame : (if b then (if deadline <=? now then @Ready (option A) None else Pending, f')
      else if deadline <=? now then (Ready None, f) else (Pending, f')) =
      (if deadline <=? now then (Ready None, if b then f' else f) else (Pending, f'))) by (by destruct b, (deadline <=? now)).
    rewrite Hsame. destruct (Z.leb_spec deadline now) as [Hle|Hlt].
    + split_and!; [|intros _; by constructor|done|done]. intros [Hn _]%Forall_cons. simpl in Hn. lia.
    + destruct (IH f') as (H1 & H2 & H3 & H4). split_and!.
      * intros [_ Hall]%Forall_cons. by apply H1.
      * intros Hr. right. by apply H2.
      * intros [Hn|Hx]%Exists_cons; [simpl in Hn; lia|by apply H3].
      * intros a Ha. destruct (H4 a Ha) as (n & Hn & Hw). exists (S n). simpl. rewrite Hf. split; [lia|done].
  - assert (Hone : (1 ≤ S (length polls))%nat) by lia.
    destruct b, (Z.leb_spec deadline now) as [Hle|Hlt]; split_and!; try done; try (by intros _; constructor);
      try (intros x [= <-]; exists 1%nat; simpl; by rewrite Hf); try (intros [Hn _]%Forall_cons; simpl in Hn; lia).
Qed.
End timeout.
