(* ===== verification/Presence.v ===== *)
(** * Who is on the bus ([ice-rpc/src/transport/open.rs], [server.rs], [client.rs], [monitor.rs])

    The ports a provider, a consumer and an observer open on a channel, in order
    and all or none, and the probe that tells whether a provider serves a channel.
    iceoryx2 is the interface [IoxBus]: the services and ports that are held are a
    multiset, and the laws say what the documented operations do to it. *)

From stdpp Require Import gmultiset.
From S2P Require Import Prelude MachineInt Text Event Publish Open Correlate Metrics Observer.

(** ** The bus *)

Inductive Resource : Type :=
| RPubSub (name : string)
| REvent (name : string)
| RPublisher (name : string)
| RSubscriber (name : string)
| RNotifier (name : string)
| RListener (name : string).

#[export] Instance Resource_eq_dec : EqDecision Resource.
Proof. solve_decision. Defined.

#[export] Instance Resource_countable : Countable Resource.
Proof.
  refine (inj_countable'
    (λ r, match r with
          | RPubSub n => (0, n) | REvent n => (1, n) | RPublisher n => (2, n)
          | RSubscriber n => (3, n) | RNotifier n => (4, n) | RListener n => (5, n)
          end)
    (λ x, match x with
          | (0, n) => RPubSub n | (1, n) => REvent n | (2, n) => RPublisher n
          | (3, n) => RSubscriber n | (4, n) => RNotifier n | (_, n) => RListener n
          end) _). by intros [].
Defined.

Class IoxBus (W : Type) : Type := {
  (** Every handle and port of every process. *)
  bus_held : W → gmultiset Resource;
  (** [ServiceName::new]. *)
  iox_name : string → result () string;
  iox_open_or_create : W → Resource → result () OpenOrCreateError * W;
  iox_open : W → Resource → result () string * W;
  (** A port of a service that is held. *)
  iox_port : W → Resource → result () string * W;
  iox_drop : W → Resource → W;
  (** [dynamic_config], of a publish/subscribe service. *)
  number_of_publishers : W → string → nat;
  number_of_subscribers : W → string → nat
}.

Class IoxBusLaws (W : Type) `{IoxBus W} : Prop := {
  open_or_create_holds w r :
    bus_held (iox_open_or_create w r).2 =
    match (iox_open_or_create w r).1 with Ok _ => {[+ r +]} ⊎ bus_held w | Err _ => bus_held w end;
  open_holds w r :
    bus_held (iox_open w r).2 =
    match (iox_open w r).1 with Ok _ => {[+ r +]} ⊎ bus_held w | Err _ => bus_held w end;
  (** A service lives while it is held, and only then can be opened. *)
  open_existing w r : (iox_open w r).1 = Ok () → r ∈ bus_held w;
  open_missing w r : r ∉ bus_held w → (iox_open w r).1 = Err "DoesNotExist"%string;
  open_found w r : r ∈ bus_held w → (iox_open w r).1 ≠ Err "DoesNotExist"%string;
  port_holds w r :
    bus_held (iox_port w r).2 =
    match (iox_port w r).1 with Ok _ => {[+ r +]} ⊎ bus_held w | Err _ => bus_held w end;
  drop_releases w r : bus_held (iox_drop w r) = bus_held w ∖ {[+ r +]};
  publishers_counted w name : number_of_publishers w name = multiplicity (RPublisher name) (bus_held w);
  subscribers_counted w name : number_of_subscribers w name = multiplicity (RSubscriber name) (bus_held w)
}.

Section presence.
Context {W : Type} `{IoxBus W}.
Context (REMEDY_CONFIG REMEDY_STALE : string).

(** ** Opening services *)

Inductive OpenMode : Type := CreateOrOpen | ReadOnly.

Definition on_err {A E E'} (f : E → E') (r : result A E) : result A E' :=
  match r with Ok a => Ok a | Err e => Err (f e) end.

(** The result of an operation on a resource is the resource. *)
Definition opened {E} (f : E → RpcError) (r : Resource) (x : result () E * W) : result Resource RpcError * W :=
  (on_err f (match x.1 with Ok _ => Ok r | Err e => Err e end), x.2).

Definition open_service (channel suffix : string) (mode : OpenMode) (w : W) : result Resource RpcError * W :=
  let topic := channel +:+ suffix in
  match iox_name topic with
  | Err e => (Err (transport_error "service name" e), w)
  | Ok _ =>
    match mode with
    | CreateOrOpen =>
        opened (open_service_error REMEDY_CONFIG REMEDY_STALE) (RPubSub topic) (iox_open_or_create w (RPubSub topic))
    | ReadOnly =>
        opened (pub_sub_open_error REMEDY_CONFIG REMEDY_STALE "open service (read-only)") (RPubSub topic)
          (iox_open w (RPubSub topic))
    end
  end.

Definition open_event_service (channel suffix : string) (mode : OpenMode) (w : W) : result Resource RpcError * W :=
  let topic := channel +:+ suffix in
  match iox_name topic with
  | Err e => (Err (transport_error "service name" e), w)
  | Ok _ =>
    match mode with
    | CreateOrOpen =>
        opened (event_error REMEDY_CONFIG REMEDY_STALE) (REvent topic) (iox_open_or_create w (REvent topic))
    | ReadOnly =>
        opened (event_open_error REMEDY_CONFIG REMEDY_STALE "open event service (read-only)") (REvent topic)
          (iox_open w (REvent topic))
    end
  end.

Definition create_port (context : string) (r : Resource) (w : W) : result Resource RpcError * W :=
  opened (transport_error context) r (iox_port w r).

(** ** Opening ports

    A function that opens one thing after the other drops what it opened, the
    last first, when the next one fails. *)

Abbreviation opening_step := (W → result Resource RpcError * W).

Definition drop_all (held : list Resource) (w : W) : W := fold_left iox_drop held w.

Fixpoint open_all (steps : list opening_step) (held : list Resource) (w : W) : result (list Resource) RpcError * W :=
  match steps with
  | [] => (Ok held, w)
  | step :: rest =>
    match step w with
    | (Ok r, w') => open_all rest (r :: held) w'
    | (Err e, w') => (Err e, drop_all held w')
    end
  end.

(** With the shared node, or the error of its creation. *)
Definition with_node (node : result () RpcError) (steps : list opening_step) (w : W)
    : result (list Resource) RpcError * W :=
  match node with Err e => (Err e, w) | Ok _ => open_all steps [] w end.

(** The four services of a channel. *)
Definition channel_services (channel : string) : list opening_step :=
  [open_service channel REQUEST_SUFFIX CreateOrOpen; open_service channel RESPONSE_SUFFIX CreateOrOpen;
   open_event_service channel REQUEST_NOTIFY_SUFFIX CreateOrOpen;
   open_event_service channel RESPONSE_NOTIFY_SUFFIX CreateOrOpen].

Definition open_channel_ports (node : result () RpcError) (channel : string) : W → result (list Resource) RpcError * W :=
  with_node node
    (channel_services channel
     ++ [create_port "request subscriber" (RSubscriber (channel +:+ REQUEST_SUFFIX));
         create_port "request listener" (RListener (channel +:+ REQUEST_NOTIFY_SUFFIX));
         create_port "response publisher" (RPublisher (channel +:+ RESPONSE_SUFFIX));
         create_port "response notifier" (RNotifier (channel +:+ RESPONSE_NOTIFY_SUFFIX))]).

Definition open_consumer_ports (node : result () RpcError) (channel : string) : W → result (list Resource) RpcError * W :=
  with_node node
    (channel_services channel
     ++ [create_port "request publisher" (RPublisher (channel +:+ REQUEST_SUFFIX));
         create_port "request notifier" (RNotifier (channel +:+ REQUEST_NOTIFY_SUFFIX));
         create_port "response subscriber" (RSubscriber (channel +:+ RESPONSE_SUFFIX));
         create_port "response listener" (RListener (channel +:+ RESPONSE_NOTIFY_SUFFIX))]).

(** [DirectionView::open]: the observer creates no service. *)
Definition view_open (node : result () RpcError) (channel : string) (d : Direction)
    : W → result (list Resource) RpcError * W :=
  with_node node
    [open_service channel (pub_sub_suffix d) ReadOnly; open_event_service channel (notify_suffix d) ReadOnly;
     create_port "monitor subscriber" (RSubscriber (channel +:+ pub_sub_suffix d));
     create_port "monitor listener" (RListener (channel +:+ notify_suffix d))].

(** [publisher_count], and [subscriber_count] without the observer's own. *)
Definition publisher_count (channel : string) (d : Direction) (w : W) : nat :=
  number_of_publishers w (channel +:+ pub_sub_suffix d).
Definition subscriber_count (channel : string) (d : Direction) (w : W) : nat :=
  number_of_subscribers w (channel +:+ pub_sub_suffix d) - 1.

(** ** The probe *)

(** [cached] tells that the calling process has consumer ports on the channel. *)
Definition cached_provider_connected (cached : bool) (channel : string) (w : W) : option bool :=
  if cached then Some (0 <? number_of_publishers w (channel +:+ RESPONSE_SUFFIX))%nat else None.

(** The service that was opened for the answer is dropped behind it. *)
Definition is_provider_connected (cached : bool) (node : result () RpcError) (channel : string) (w : W)
    : result bool RpcError * W :=
  match cached_provider_connected cached channel w with
  | Some connected => (Ok connected, w)
  | None =>
    match node with
    | Err e => (Err e, w)
    | Ok _ =>
      let topic := channel +:+ RESPONSE_SUFFIX in
      match iox_name topic with
      | Err e => (Err (transport_error "service name" e), w)
      | Ok _ =>
        let '(r, w') := iox_open w (RPubSub topic) in
        match open_existing_service REMEDY_CONFIG REMEDY_STALE r with
        | Err e => (Err e, w')
        | Ok None => (Ok false, w')
        | Ok (Some _) => (Ok (0 <? number_of_publishers w' topic)%nat, iox_drop w' (RPubSub topic))
        end
      end
    end
  end.

(** ** All or none *)

Context `{!IoxBusLaws W}.

(** A step holds what it answers, and nothing when it fails. *)
Definition step_ok (step : opening_step) (r : Resource) : Prop :=
  ∀ w, match step w with
       | (Ok r', w') => r' = r ∧ bus_held w' = {[+ r +]} ⊎ bus_held w
       | (Err _, w') => bus_held w' = bus_held w
       end.

Lemma opened_ok {E} (f : E → RpcError) r w x :
  bus_held x.2 = match x.1 with Ok _ => {[+ r +]} ⊎ bus_held w | Err _ => bus_held w end →
  match opened f r x with
  | (Ok r', w') => r' = r ∧ bus_held w' = {[+ r +]} ⊎ bus_held w
  | (Err _, w') => bus_held w' = bus_held w
  end.
Proof. unfold opened. destruct x as [[u|e] w']; simpl; auto. Qed.

Lemma open_service_ok channel suffix mode : step_ok (open_service channel suffix mode) (RPubSub (channel +:+ suffix)).
Proof.
  intros w. unfold open_service. destruct (iox_name _); [|done].
  destruct mode; apply opened_ok; [apply open_or_create_holds|apply open_holds].
Qed.

Lemma open_event_service_ok channel suffix mode :
  step_ok (open_event_service channel suffix mode) (REvent (channel +:+ suffix)).
Proof.
  intros w. unfold open_event_service. destruct (iox_name _); [|done].
  destruct mode; apply opened_ok; [apply open_or_create_holds|apply open_holds].
Qed.

Lemma create_port_ok context r : step_ok (create_port context r) r.
Proof. intros w. apply opened_ok, port_holds. Qed.

Lemma drop_all_held held w : bus_held (drop_all held w) = bus_held w ∖ list_to_set_disj held.
Proof.
  unfold drop_all. revert w. induction held as [|r held IH]; intros w; simpl; [multiset_solver|].
  rewrite IH, drop_releases. multiset_solver.
Qed.

(** A sequence of openings holds everything, or what was held before. *)
Lemma open_all_held steps rs held w :
  Forall2 step_ok steps rs →
  match open_all steps held w with
  | (Ok all, w') => all = reverse rs ++ held ∧ bus_held w' = list_to_set_disj rs ⊎ bus_held w
  | (Err _, w') => bus_held w' = bus_held w ∖ list_to_set_disj held
  end.
Proof.
  intros Hall. revert held w. induction Hall as [|step r steps rs Hs Hall IH]; intros held w; simpl.
  { split; [done|multiset_solver]. }
  specialize (Hs w). destruct (step w) as [[r'|e] w'].
  - destruct Hs as [-> Hw]. specialize (IH (r :: held) w'). destruct (open_all steps (r :: held) w') as [[all|e] w''].
    + destruct IH as [-> Hw']. split; [by rewrite reverse_cons, <- app_assoc|]. rewrite Hw', Hw. multiset_solver.
    + rewrite IH, Hw. simpl. multiset_solver.
  - rewrite drop_all_held, Hs. done.
Qed.

Definition holds_all (f : W → result (list Resource) RpcError * W) (rs : list Resource) : Prop :=
  ∀ w, match f w with
       | (Ok all, w') => all = reverse rs ∧ bus_held w' = list_to_set_disj rs ⊎ bus_held w
       | (Err _, w') => bus_held w' = bus_held w
       end.

Lemma with_node_held node steps rs : Forall2 step_ok steps rs → holds_all (with_node node steps) rs.
Proof.
  intros Hall w. unfold with_node. destruct node; [|done]. pose proof (open_all_held steps rs [] w Hall) as Hr.
  destruct (open_all steps [] w) as [[all|e] w']; [by rewrite app_nil_r in Hr|]. rewrite Hr. simpl. multiset_solver.
Qed.
End presence.

(** ** Participants *)

Inductive Participant : Type :=
| Provider (channel : string)
| Consumer (channel : string)
| Attached (channel : string) (d : Direction).

#[export] Instance Participant_eq_dec : EqDecision Participant.
Proof. solve_decision. Defined.

Definition participant_channel (p : Participant) : string :=
  match p with Provider c | Consumer c | Attached c _ => c end.

Definition channel_handles (channel : string) : list Resource :=
  [RPubSub (channel +:+ REQUEST_SUFFIX); RPubSub (channel +:+ RESPONSE_SUFFIX);
   REvent (channel +:+ REQUEST_NOTIFY_SUFFIX); REvent (channel +:+ RESPONSE_NOTIFY_SUFFIX)].

(** What each holds on the bus. *)
Definition footprint (p : Participant) : list Resource :=
  match p with
  | Provider c =>
      channel_handles c
      ++ [RSubscriber (c +:+ REQUEST_SUFFIX); RListener (c +:+ REQUEST_NOTIFY_SUFFIX);
          RPublisher (c +:+ RESPONSE_SUFFIX); RNotifier (c +:+ RESPONSE_NOTIFY_SUFFIX)]
  | Consumer c =>
      channel_handles c
      ++ [RPublisher (c +:+ REQUEST_SUFFIX); RNotifier (c +:+ REQUEST_NOTIFY_SUFFIX);
          RSubscriber (c +:+ RESPONSE_SUFFIX); RListener (c +:+ RESPONSE_NOTIFY_SUFFIX)]
  | Attached c d =>
      [RPubSub (c +:+ pub_sub_suffix d); REvent (c +:+ notify_suffix d);
       RSubscriber (c +:+ pub_sub_suffix d); RListener (c +:+ notify_suffix d)]
  end.

Section participants.
Context {W : Type} `{IoxBusLaws W}.
Context (REMEDY_CONFIG REMEDY_STALE : string).

Definition participant_open (node : result () RpcError) (p : Participant) : W → result (list Resource) RpcError * W :=
  match p with
  | Provider c => open_channel_ports REMEDY_CONFIG REMEDY_STALE node c
  | Consumer c => open_consumer_ports REMEDY_CONFIG REMEDY_STALE node c
  | Attached c d => view_open REMEDY_CONFIG REMEDY_STALE node c d
  end.

Lemma participant_holds node p : holds_all (participant_open node p) (footprint p).
Proof.
  destruct p as [c|c|c d]; apply with_node_held;
    repeat first [apply Forall2_nil_2 | apply Forall2_cons_2]; eauto using open_service_ok, open_event_service_ok, create_port_ok.
Qed.

(** [open_with_retries]: the token is read in the world, where the sleep lets the
    others act. *)
Definition open_with_retries (stopped : W → bool) (sleep : W → W) (node : result () RpcError) (channel : string) (w : W)
    : result (list Resource) RpcError * nat * W :=
  retry_open (open_channel_ports REMEDY_CONFIG REMEDY_STALE node channel) stopped sleep OPEN_RETRY_ATTEMPTS w.

(** However many attempts it takes, a provider ends with one set of ports or with
    nothing: what a failed attempt opened is gone before the next one. *)
Lemma retries_leave_one_set stopped sleep node channel w :
  (∀ w, bus_held (sleep w) = bus_held w) →
  let '(r, n, w') := open_with_retries stopped sleep node channel w in
  n ≤ OPEN_RETRY_ATTEMPTS ∧
  bus_held w' = match r with Ok _ => list_to_set_disj (footprint (Provider channel)) | Err _ => ∅ end ⊎ bus_held w.
Proof.
  intros Hsleep. unfold open_with_retries.
  pose proof (retry_open_bounded (open_channel_ports REMEDY_CONFIG REMEDY_STALE node channel) stopped sleep
    OPEN_RETRY_ATTEMPTS w) as Hb.
  destruct (retry_open _ _ _ _ w) as [[r n] w']. destruct Hb as (Hn & Hfrom & _). split; [done|].
  clear Hn. induction Hfrom as [w r w' Ho|w e w1 n r w' Ho _ _ _ IH].
  - pose proof (participant_holds node (Provider channel) w) as Hh. simpl in Hh. rewrite Ho in Hh.
    destruct r; [by destruct Hh|]. rewrite Hh. multiset_solver.
  - pose proof (participant_holds node (Provider channel) w) as Hh. simpl in Hh. rewrite Ho in Hh. by rewrite IH, Hsleep, Hh.
Qed.

(** The participants that are on the bus, each with what it holds. *)
Record Bus : Type := MkBus { bu_world : W; bu_live : list (Participant * list Resource) }.

Inductive BusStep : Type :=
| BJoin (node : result () RpcError) (p : Participant)
| BLeave (i : nat)
| BProbe (cached : bool) (node : result () RpcError) (channel : string).

(** An attempt that fails joins nothing; one that leaves drops all it holds. *)
Definition bus_step (st : Bus) (s : BusStep) : Bus :=
  match s with
  | BJoin node p =>
    match participant_open node p (bu_world st) with
    | (Ok held, w) => MkBus w ((p, held) :: bu_live st)
    | (Err _, w) => MkBus w (bu_live st)
    end
  | BLeave i =>
    match bu_live st !! i with
    | Some (_, held) => MkBus (drop_all held (bu_world st)) (delete i (bu_live st))
    | None => st
    end
  | BProbe cached node channel =>
    MkBus (is_provider_connected REMEDY_CONFIG REMEDY_STALE cached node channel (bu_world st)).2 (bu_live st)
  end.

Definition bus_run (steps : list BusStep) (st : Bus) : Bus := fold_left bus_step steps st.

(** *** The bus holds what the participants do *)

Definition live_held (live : list (Participant * list Resource)) : gmultiset Resource :=
  list_to_set_disj (concat (map (λ x, footprint x.1) live)).

Definition bus_ok (st : Bus) : Prop :=
  bus_held (bu_world st) = live_held (bu_live st) ∧ Forall (λ x, x.2 = reverse (footprint x.1)) (bu_live st).

(** The probe changes nothing. *)
Lemma probe_keeps cached node channel w :
  bus_held (is_provider_connected REMEDY_CONFIG REMEDY_STALE cached node channel w).2 = bus_held w.
Proof.
  unfold is_provider_connected, cached_provider_connected. destruct cached; [done|]. destruct node; [|done].
  destruct (iox_name _); [|done]. pose proof (open_holds w (RPubSub (channel +:+ RESPONSE_SUFFIX))) as Hh.
  destruct (iox_open w _) as [r w'] eqn:Ho. simpl in Hh. unfold open_existing_service.
  destruct r as [u|e]; simpl; [rewrite drop_releases, Hh; multiset_solver|]. by case_bool_decide.
Qed.

Lemma live_held_cons x live : live_held (x :: live) = list_to_set_disj (footprint x.1) ⊎ live_held live.
Proof. unfold live_held. cbn [map concat]. apply list_to_set_disj_app. Qed.

Lemma live_held_delete live i x :
  live !! i = Some x → live_held live = list_to_set_disj (footprint x.1) ⊎ live_held (delete i live).
Proof.
  intros Hi. rewrite <- live_held_cons. unfold live_held.
  assert (Hp : live ≡ₚ x :: delete i live) by (by apply delete_Permutation). apply list_to_set_disj_perm. by rewrite Hp at 1.
Qed.

Lemma bus_step_ok st s : bus_ok st → bus_ok (bus_step st s).
Proof.
  intros [Hh Hall]. unfold bus_ok. destruct s as [node p|i|cached node channel]; simpl.
  - pose proof (participant_holds node p (bu_world st)) as Hp.
    destruct (participant_open node p (bu_world st)) as [[held|e] w]; simpl; [|by rewrite Hp].
    destruct Hp as [-> ->]. rewrite live_held_cons, Hh. split; [done|by constructor].
  - destruct (bu_live st !! i) as [[p held]|] eqn:Hi; [|done]. simpl.
    pose proof (proj1 (Forall_lookup _ _) Hall _ _ Hi) as Heq. simpl in Heq. subst held.
    assert (Hrev : list_to_set_disj (reverse (footprint p)) = (list_to_set_disj (footprint p) : gmultiset Resource))
      by (by rewrite reverse_Permutation).
    rewrite drop_all_held, Hrev, Hh, (live_held_delete _ _ _ Hi).
    split; [simpl; multiset_solver|by apply Forall_delete].
  - by rewrite probe_keeps.
Qed.
(** *** The probe *)

(** The publisher of the responses of a channel is held by its providers only. *)
Lemma response_publishers channel p :
  multiplicity (RPublisher (channel +:+ RESPONSE_SUFFIX)) (list_to_set_disj (footprint p) : gmultiset Resource) =
  if decide (p = Provider channel) then 1 else 0.
Proof.
  assert (Hinj : ∀ c, c +:+ RESPONSE_SUFFIX = channel +:+ RESPONSE_SUFFIX → c = channel).
  { intros c Hc. apply str_strip_suffix_spec in Hc. rewrite (proj2 (str_strip_suffix_spec _ _ c)) in Hc by done. congruence. }
  assert (Hdir : ∀ c, c +:+ REQUEST_SUFFIX ≠ channel +:+ RESPONSE_SUFFIX).
  { intros c Hc. apply (f_equal as_bytes) in Hc. rewrite !as_bytes_app in Hc. apply (f_equal last) in Hc.
    change (as_bytes RESPONSE_SUFFIX) with ([95; 114; 101; 115] ++ [112])%Z in Hc.
    change (as_bytes REQUEST_SUFFIX) with ([95; 114; 101] ++ [113])%Z in Hc. rewrite !app_assoc, !last_snoc in Hc. done. }
  destruct p as [c|c|c d]; simpl; rewrite !multiplicity_disj_union, ?multiplicity_empty, ?multiplicity_singleton;
    repeat match goal with
           | |- context [decide (?a = ?b)] => let E := fresh in destruct (decide (a = b)) as [E|E]; [try discriminate E|]
           end; try done; exfalso.
  - match goal with E : RPublisher _ = _ |- _ => injection E as E; symmetry in E; apply Hinj in E end. congruence.
  - match goal with E : RPublisher _ ≠ RPublisher _ |- _ => apply E end. congruence.
  - match goal with E : RPublisher _ = _ |- _ => injection E as E; symmetry in E end. by apply (Hdir c).
Qed.

Lemma providers_counted channel live :
  multiplicity (RPublisher (channel +:+ RESPONSE_SUFFIX)) (live_held live) =
  length (filter (λ x, x.1 = Provider channel) live).
Proof.
  induction live as [|x live IH]; [apply multiplicity_empty|].
  rewrite live_held_cons, multiplicity_disj_union, response_publishers, IH. destruct (decide (x.1 = Provider channel)) as [Hx|Hx].
  - by rewrite filter_cons_True.
  - by rewrite filter_cons_False.
Qed.

Lemma some_provider channel (live : list (Participant * list Resource)) :
  (0 <? length (filter (λ x, x.1 = Provider channel) live))%nat = true ↔ ∃ held, (Provider channel, held) ∈ live.
Proof.
  rewrite Nat.ltb_lt. split.
  - destruct (filter _ live) as [|[p held] l] eqn:Hl; simpl; [lia|]. intros _.
    assert (Hin : (p, held) ∈ filter (λ x, x.1 = Provider channel) live) by (rewrite Hl; set_solver).
    apply list_elem_of_filter in Hin as [Hp Hin]. simpl in Hp. subst p. eauto.
  - intros [held Hin]. destruct (filter _ live) as [|y l] eqn:Hl; simpl; [|lia].
    by apply (filter_nil_not_elem_of _ _ (Provider channel, held)) in Hl.
Qed.

(** A channel of which a direction is not held has no provider. *)
Lemma provider_holds channel live :
  (∃ held, (Provider channel, held) ∈ live) → RPubSub (channel +:+ RESPONSE_SUFFIX) ∈ live_held live.
Proof.
  intros [held [i Hi]%list_elem_of_lookup]. rewrite (live_held_delete _ _ _ Hi). simpl. multiset_solver.
Qed.

(** The response service of a channel is held by its participants only. *)
Lemma response_service_held channel live :
  RPubSub (channel +:+ RESPONSE_SUFFIX) ∈ live_held live → ∃ x, x ∈ live ∧ participant_channel x.1 = channel.
Proof.
  assert (Hname : ∀ c d, channel +:+ RESPONSE_SUFFIX = c +:+ pub_sub_suffix d → c = channel).
  { intros c d Hc. pose proof (proj2 (strip_direction_spec (channel +:+ RESPONSE_SUFFIX) c) (ex_intro _ d Hc)) as H1.
    pose proof (proj2 (strip_direction_spec (channel +:+ RESPONSE_SUFFIX) channel) (ex_intro _ DResponse eq_refl)) as H2. congruence. }
  unfold live_held. rewrite elem_of_list_to_set_disj. intros (l & Hl & Hin%list_elem_of_In)%list_elem_of_In%in_concat.
  apply in_map_iff in Hl as ([p held] & <- & Hp%list_elem_of_In). exists (p, held). split; [done|]. simpl in *.
  destruct p as [c|c|c d]; simpl in *;
    repeat (apply elem_of_cons in Hin as [Hin|Hin]; [try discriminate Hin; injection Hin as Hin|]);
    try (by apply elem_of_nil in Hin); by first [apply (Hname c DRequest Hin) | apply (Hname c DResponse Hin) | apply (Hname c d Hin)].
Qed.

(** What the probe finds when it opens the service. *)
Definition probe_right (st : Bus) (channel : string) (answer : result bool RpcError) : Prop :=
  match answer with
  | Ok connected => connected = true ↔ ∃ held, (Provider channel, held) ∈ bu_live st
  | Err _ => ∃ x, x ∈ bu_live st ∧ participant_channel x.1 = channel
  end.

Lemma publishers_right st w channel :
  bus_ok st →
  multiplicity (RPublisher (channel +:+ RESPONSE_SUFFIX)) (bus_held w) =
    multiplicity (RPublisher (channel +:+ RESPONSE_SUFFIX)) (bus_held (bu_world st)) →
  probe_right st channel (Ok (0 <? number_of_publishers w (channel +:+ RESPONSE_SUFFIX))%nat).
Proof.
  intros [Hheld _] Hm. unfold probe_right. rewrite publishers_counted, Hm, Hheld, providers_counted. apply some_provider.
Qed.

Lemma probe_opens st channel :
  bus_ok st → iox_name (channel +:+ RESPONSE_SUFFIX) = Ok () →
  probe_right st channel (is_provider_connected REMEDY_CONFIG REMEDY_STALE false (Ok ()) channel (bu_world st)).1.
Proof.
  intros Hok Hname. unfold is_provider_connected, cached_provider_connected. rewrite Hname.
  set (r := RPubSub (channel +:+ RESPONSE_SUFFIX)).
  pose proof (open_holds (bu_world st) r) as Hh. pose proof (open_found (bu_world st) r) as Hfound.
  pose proof (open_missing (bu_world st) r) as Hmissing. destruct (iox_open (bu_world st) r) as [[[]|e] w']; simpl in *.
  - apply publishers_right; [done|]. rewrite Hh, multiplicity_disj_union, multiplicity_singleton_ne by done. done.
  - destruct Hok as [Hheld _]. destruct (decide (e = "DoesNotExist"%string)) as [->|Hne].
    + simpl. split; [done|]. intros Hp%provider_holds. exfalso. apply Hfound; [|done]. by rewrite Hheld.
    + assert (Hin : r ∈ bus_held (bu_world st)).
      { destruct (decide (r ∈ bus_held (bu_world st))) as [|Hn]; [done|]. apply Hmissing in Hn. congruence. }
      rewrite Hheld in Hin. apply response_service_held in Hin. by rewrite bool_decide_eq_false_2.
Qed.

(** C20. The probe tells exactly who is there: after any sequence of providers,
    consumers and observers that join, fail to join and leave, and of probes, the
    probe of a channel answers that it is connected exactly when a provider of it
    is on the bus, from the cache or by opening; it changes nothing on the bus,
    and with a node a channel nobody is on is an answer, never an error. *)
Theorem probe_tells_providers w steps cached node channel :
  bus_held w = ∅ → iox_name (channel +:+ RESPONSE_SUFFIX) = Ok () →
  let st := bus_run steps (MkBus w []) in
  let '(answer, w') := is_provider_connected REMEDY_CONFIG REMEDY_STALE cached node channel (bu_world st) in
  bus_held w' = bus_held (bu_world st) ∧
  match answer with
  | Ok connected => connected = true ↔ ∃ held, (Provider channel, held) ∈ bu_live st
  | Err e => cached = false ∧ (node = Err e ∨ ∃ x, x ∈ bu_live st ∧ participant_channel x.1 = channel)
  end.
Proof.
  intros Hw Hname st.
  assert (Hok : bus_ok st).
  { unfold st. cut (bus_ok (MkBus w [])); [|by split]. generalize (MkBus w []). unfold bus_run.
    induction steps as [|s steps IH]; intros b Hb; [done|]. simpl. apply IH. by apply bus_step_ok. }
  pose proof (probe_keeps cached node channel (bu_world st)) as Hkeep.
  destruct (is_provider_connected _ _ cached node channel (bu_world st)) as [answer w'] eqn:Hp. split; [done|].
  destruct cached; [|destruct node as [[]|e]].
  - injection Hp as <- _. by apply (publishers_right st).
  - pose proof (probe_opens st channel Hok Hname) as Hright. rewrite Hp in Hright. destruct answer; [done|]. split; [done|by right].
  - injection Hp as <- _. split; [done|by left].
Qed.
End participants.

(** ** A simulated bus *)

#[export] Instance SimIox : IoxBus (gmultiset Resource) := {
  bus_held w := w;
  iox_name _ := Ok ();
  iox_open_or_create w r := (Ok (), {[+ r +]} ⊎ w);
  iox_open w r := if decide (r ∈ w) then (Ok (), {[+ r +]} ⊎ w) else (Err "DoesNotExist"%string, w);
  iox_port w r := (Ok (), {[+ r +]} ⊎ w);
  iox_drop w r := w ∖ {[+ r +]};
  number_of_publishers w name := multiplicity (RPublisher name) w;
  number_of_subscribers w name := multiplicity (RSubscriber name) w
}.

#[export] Instance SimIox_laws : IoxBusLaws (gmultiset Resource).
Proof. split; intros; simpl in *; try done; by case_decide. Qed.

(** A consumer comes first, then a provider, which leaves again. *)
Definition orders_steps : list BusStep := [BJoin (Ok ()) (Consumer "orders"); BJoin (Ok ()) (Provider "orders")].

Lemma probe_tells_providers_witness :
  let st := bus_run "" "" orders_steps (MkBus ∅ []) in
  (is_provider_connected "" "" false (Ok ()) "orders" (bu_world st)).1 = Ok true ∧
  (∃ held, (Provider "orders", held) ∈ bu_live st) ∧
  (is_provider_connected "" "" false (Ok ()) "orders" (bu_world (bus_step "" "" st (BLeave 0)))).1 = Ok false.
Proof.
  intros st. assert (Hc : (is_provider_connected "" "" false (Ok ()) "orders" (bu_world st)).1 = Ok true) by (vm_compute; reflexivity).
  split; [exact Hc|]. split; [|vm_compute; reflexivity].
  pose proof (probe_tells_providers "" "" ∅ orders_steps false (Ok ()) "orders" eq_refl eq_refl) as Hp.
  cbn zeta in Hp. fold st in Hp. destruct (is_provider_connected _ _ _ _ _ (bu_world st)) as [answer w'].
  simpl in Hc. subst answer. by apply Hp.
Defined.
