(* ===== verification/Channel.v ===== *)
(** * The life of a provided channel ([ice-rpc/src/transport/server.rs], [spawn_native_service])

    The thread of a channel opens its ports with retries, hands the publisher of
    the responses to the hub its calls share, runs the receive loop, and drops
    what it still owns when the loop ends.  This joins [Presence] (the ports),
    [Pump] (the loop) and [Server] (the requests and their tasks). *)

From stdpp Require Import gmultiset.
From S2P Require Import Prelude MachineInt Text Event Header Context Wire Cancel Stream Bridge Publish Notify Server Pump Open Correlate Metrics Observer Presence.

Local Open Scope Z_scope.

(** What moves into the hub, and what the thread keeps. *)
Definition hub_resources (channel : string) : list Resource :=
  [RPublisher (channel +:+ RESPONSE_SUFFIX); RPubSub (channel +:+ RESPONSE_SUFFIX);
   RNotifier (channel +:+ RESPONSE_NOTIFY_SUFFIX)].

Definition thread_resources (channel : string) : list Resource :=
  [RPubSub (channel +:+ REQUEST_SUFFIX); REvent (channel +:+ REQUEST_NOTIFY_SUFFIX);
   REvent (channel +:+ RESPONSE_NOTIFY_SUFFIX); RSubscriber (channel +:+ REQUEST_SUFFIX);
   RListener (channel +:+ REQUEST_NOTIFY_SUFFIX)].

Lemma footprint_split channel :
  (list_to_set_disj (footprint (Provider channel)) : gmultiset Resource) =
  list_to_set_disj (thread_resources channel) ⊎ list_to_set_disj (hub_resources channel).
Proof. unfold footprint, channel_handles, thread_resources, hub_resources. simpl. multiset_solver. Qed.

(** Not opened; served; stopped with tasks that still hold the hub; gone. *)
Inductive ChannelPhase : Type := NotOpened (e : RpcError) | Serving | Draining | Closed.

Section channel.
Context {V : Type} `{IoxBusLaws V} (REMEDY_CONFIG REMEDY_STALE : string).
Context {F W : Type} `{Publish.Bus W} `{CallTask F W} {T E : Type} `{Codec T E}.
Context (base : Z) (p : Proc) (entered : bool) (channel : string).
Context (table : gmap Z (ServiceDispatcher F (CallEmitter W))).

Record Channel : Type := MkChannel {
  cl_phase : ChannelPhase;
  cl_server : Server (F := F) (W := W);
  cl_pump : Pump (Sample := RpcHeader * bytes);
  cl_world : V
}.

(** The last owner of the hub drops its ports; a task owns the emitter of its
    request, and the emitter the hub. *)
Definition release_hub (c : Channel) : Channel :=
  if decide (sv_tasks (cl_server c) = ∅) then
    MkChannel Closed (cl_server c) (cl_pump c) (drop_all (hub_resources channel) (cl_world c))
  else MkChannel Draining (cl_server c) (cl_pump c) (cl_world c).

(** The thread has returned: what it still owns is dropped. *)
Definition thread_returns (c : Channel) : Channel :=
  release_hub (MkChannel Draining (cl_server c) (cl_pump c) (drop_all (thread_resources channel) (cl_world c))).

(** The start of the thread: it opens the ports, and the setup of its receive loop
    succeeds or makes it return. *)
Definition channel_start (stopped : V → bool) (sleep : V → V) (node : result () RpcError) (su : Setup) (w : W) (v : V)
    : Channel :=
  match open_with_retries REMEDY_CONFIG REMEDY_STALE stopped sleep node channel v with
  | (Err e, _, v') => MkChannel (NotOpened e) (server_new w) pump_new v'
  | (Ok _, _, v') =>
    let c := MkChannel Serving (server_new w) pump_new v' in
    if setup_ok su then c else thread_returns c
  end.

(** The thread handles the sample of a round, or leaves the loop and returns. *)
Definition channel_round (r : round (Sample := RpcHeader * bytes)) (c : Channel) : Channel :=
  match pump_round r (cl_pump c) with
  | inl pump' =>
    let received := drop (length (pu_handled (cl_pump c))) (pu_handled pump') in
    let callback sv (s : RpcHeader * bytes) := (handle_request (T := T) (E := E) base p entered table s.1 s.2 sv).2 in
    MkChannel Serving (fold_left callback received (cl_server c)) pump' (cl_world c)
  | inr pump' => thread_returns (MkChannel Serving (cl_server c) pump' (cl_world c))
  end.

Inductive ChannelStep : Type :=
| CRound (r : round (Sample := RpcHeader * bytes))
| CTask (id : nat) (worker : Thread).

Definition channel_step (c : Channel) (s : ChannelStep) : Channel :=
  match s, cl_phase c with
  | CRound r, Serving => channel_round r c
  | CTask id worker, Serving =>
      MkChannel Serving (run_task base p id worker (cl_server c)) (cl_pump c) (cl_world c)
  | CTask id worker, Draining =>
      release_hub (MkChannel Draining (run_task base p id worker (cl_server c)) (cl_pump c) (cl_world c))
  | _, _ => c
  end.

Definition channel_run (steps : list ChannelStep) (c : Channel) : Channel := fold_left channel_step steps c.

(** What a phase holds on the bus. *)
Definition phase_held (ph : ChannelPhase) : gmultiset Resource :=
  match ph with
  | Serving => list_to_set_disj (footprint (Provider channel))
  | Draining => list_to_set_disj (hub_resources channel)
  | NotOpened _ | Closed => ∅
  end.

(** What a step does to the requests and their tasks while the thread runs, and once
    it has returned: every sample that is received is served, then no more. *)
Definition step_serves (sv : Server (F := F) (W := W)) (s : ChannelStep) : Server :=
  match s with
  | CRound r => match in_receive r with
                | GotSample (h, body) => (handle_request (T := T) (E := E) base p entered table h body sv).2
                | _ => sv
                end
  | CTask id worker => run_task base p id worker sv
  end.

Definition step_drains (sv : Server (F := F) (W := W)) (s : ChannelStep) : Server :=
  match s with CRound _ => sv | CTask id worker => run_task base p id worker sv end.

(** The round the thread leaves its loop in: it was asked to stop, or notices the
    termination of the process on a sample, which is not handled. *)
Definition leaves (r : round (Sample := RpcHeader * bytes)) : Prop :=
  in_stop r = true ∨ ∃ s, in_receive r = GotSample s ∧ in_termination r = true.

Definition served_until (steps : list ChannelStep) (sv0 sv : Server (F := F) (W := W)) : Prop :=
  ∃ before r after, steps = before ++ CRound r :: after ∧ leaves r ∧
    sv = fold_left step_drains after (fold_left step_serves before sv0).

Definition channel_ok (v : V) (c : Channel) : Prop :=
  bus_held (cl_world c) = phase_held (cl_phase c) ⊎ bus_held v ∧
  (cl_phase c = Draining → sv_tasks (cl_server c) ≠ ∅) ∧
  (cl_phase c = Closed → sv_tasks (cl_server c) = ∅).

Lemma draining_connected v c :
  bus_held (cl_world c) = phase_held Draining ⊎ bus_held v →
  cached_provider_connected true channel (cl_world c) = Some true.
Proof.
  intros Hheld. unfold cached_provider_connected. rewrite publishers_counted, Hheld. f_equal.
  apply Nat.ltb_lt, elem_of_multiplicity. apply gmultiset_elem_of_disj_union. left.
  apply elem_of_list_to_set_disj, list_elem_of_here.
Qed.

(** The thread is gone, and the hub with it unless a task has it. *)
Lemma release_hub_ok v c :
  bus_held (cl_world c) = list_to_set_disj (hub_resources channel) ⊎ bus_held v → channel_ok v (release_hub c).
Proof.
  intros Hheld. unfold release_hub, channel_ok. case_decide as Ht; cbn [cl_world cl_phase cl_server phase_held]; [|done].
  split; [|done]. rewrite drop_all_held, Hheld. multiset_solver.
Qed.

Lemma thread_returns_ok v c :
  bus_held (cl_world c) = list_to_set_disj (footprint (Provider channel)) ⊎ bus_held v → channel_ok v (thread_returns c).
Proof.
  intros Hheld. apply release_hub_ok. cbn [cl_world]. rewrite drop_all_held, Hheld, footprint_split. multiset_solver.
Qed.

Lemma channel_start_ok stopped sleep node su w v :
  (∀ v, bus_held (sleep v) = bus_held v) → channel_ok v (channel_start stopped sleep node su w v).
Proof.
  intros Hsleep. unfold channel_start.
  pose proof (retries_leave_one_set REMEDY_CONFIG REMEDY_STALE stopped sleep node channel v Hsleep) as Hr.
  destruct (open_with_retries _ _ _ _ _ _ v) as [[[ports|e] n] v']; destruct Hr as [_ Hheld]; [|done].
  destruct (setup_ok su); [done|by apply thread_returns_ok].
Qed.

Lemma channel_step_ok v c s : channel_ok v c → channel_ok v (channel_step c s).
Proof.
  intros Hok. unfold channel_step. destruct s as [r|id worker], (cl_phase c) eqn:Hph; try exact Hok.
  - destruct Hok as [Hheld _]. rewrite Hph in Hheld. unfold channel_round.
    destruct (pump_round r (cl_pump c)) as [p'|p']; [done|]. by apply thread_returns_ok.
  - destruct Hok as [Hheld _]. by rewrite Hph in Hheld.
  - destruct Hok as [Hheld _]. rewrite Hph in Hheld. by apply release_hub_ok.
Qed.

Lemma channel_run_ok v c steps : channel_ok v c → channel_ok v (channel_run steps c).
Proof.
  revert c. induction steps as [|s steps IH]; intros c Hok; [done|]. apply (IH (channel_step c s)). by apply channel_step_ok.
Qed.

(** A round that does not leave the loop hands over the sample it received. *)
Lemma round_received r (pu : Pump (Sample := RpcHeader * bytes)) :
  match pump_round r pu with
  | inl pu' => drop (length (pu_handled pu)) (pu_handled pu') = match in_receive r with GotSample s => [s] | _ => [] end
  | inr _ => leaves r
  end.
Proof.
  destruct pu as [idle ticks handled pauses down]. unfold pump_round, leaves. destruct (in_stop r); [by left|].
  destruct (in_receive r) as [s| |].
  - destruct ((Z.land _ _ =? 0) && in_termination r) eqn:Ht; [apply andb_true_iff in Ht as [_ Ht]; by eauto|].
    cbn [pu_handled]. by rewrite drop_app_length.
  - destruct (idle <? IDLE_SPINS); [|destruct (wait_for_wakeup (in_wait r))]; cbn [pu_handled]; by rewrite drop_ge.
  - cbn [pu_handled]. by rewrite drop_ge.
Qed.

(** Once the thread has returned the tasks alone go on. *)
Lemma channel_run_drains steps c :
  cl_phase c ≠ Serving → (∀ e, cl_phase c ≠ NotOpened e) → (cl_phase c = Closed → sv_tasks (cl_server c) = ∅) →
  let c' := channel_run steps c in
  cl_phase c' ≠ Serving ∧ (∀ e, cl_phase c' ≠ NotOpened e) ∧ cl_server c' = fold_left step_drains steps (cl_server c).
Proof.
  revert c. induction steps as [|s steps IH]; intros c Hs Hn Hc; [done|].
  change (channel_run (s :: steps) c) with (channel_run steps (channel_step c s)). cbn [fold_left].
  assert (Hstep : cl_phase (channel_step c s) ≠ Serving ∧ (∀ e, cl_phase (channel_step c s) ≠ NotOpened e) ∧
    (cl_phase (channel_step c s) = Closed → sv_tasks (cl_server (channel_step c s)) = ∅) ∧
    cl_server (channel_step c s) = step_drains (cl_server c) s).
  { unfold channel_step. destruct (cl_phase c) as [e| | |] eqn:Hph; [by destruct (Hn e)|done| |].
    - destruct s as [r|id worker]; [by rewrite Hph|]. unfold release_hub. simpl. by case_decide.
    - destruct s as [r|id worker]; rewrite Hph; (split_and!; [done|done|by auto|]); simpl; [done|].
      unfold run_task. by rewrite (Hc eq_refl), lookup_empty. }
  destruct Hstep as (Hs1 & Hn1 & Hc1 & <-). by apply IH.
Qed.

Lemma channel_run_serves steps c :
  cl_phase c = Serving →
  let c' := channel_run steps c in
  cl_phase c' = Serving ∧ cl_server c' = fold_left step_serves steps (cl_server c) ∨
  cl_phase c' ≠ Serving ∧ (∀ e, cl_phase c' ≠ NotOpened e) ∧ served_until steps (cl_server c) (cl_server c').
Proof.
  revert c. induction steps as [|s steps IH]; intros c Hph; [by left|].
  change (channel_run (s :: steps) c) with (channel_run steps (channel_step c s)).
  assert (Hnext : ∀ c1, cl_phase c1 = Serving → cl_server c1 = step_serves (cl_server c) s →
    let c' := channel_run steps c1 in
    cl_phase c' = Serving ∧ cl_server c' = fold_left step_serves (s :: steps) (cl_server c) ∨
    cl_phase c' ≠ Serving ∧ (∀ e, cl_phase c' ≠ NotOpened e) ∧ served_until (s :: steps) (cl_server c) (cl_server c')).
  { intros c1 Hp1 Hs1. cbn [fold_left]. rewrite <- Hs1. destruct (IH c1 Hp1) as [Hl1|(Hl1 & Hl2 & before & r & after & -> & Hl & Hsv)].
    - by left.
    - right. split_and!; [done|done|]. exists (s :: before), r, after. split_and!; [done|done|]. simpl. by rewrite <- Hs1. }
  unfold channel_step. rewrite Hph. destruct s as [r|id worker]; [|by apply Hnext].
  unfold channel_round. pose proof (round_received r (cl_pump c)) as Hr.
  destruct (pump_round r (cl_pump c)) as [p'|p'].
  - apply Hnext; [done|]. cbn [cl_server]. rewrite Hr. simpl. by destruct (in_receive r) as [[h body]| |].
  - right. set (c1 := thread_returns _).
    assert (Hk : cl_phase c1 ≠ Serving ∧ (∀ e, cl_phase c1 ≠ NotOpened e) ∧
      (cl_phase c1 = Closed → sv_tasks (cl_server c1) = ∅) ∧ cl_server c1 = cl_server c)
      by (unfold c1, thread_returns, release_hub; simpl; by case_decide).
    destruct Hk as (Hk1 & Hk2 & Hk3 & Hk4). destruct (channel_run_drains steps c1 Hk1 Hk2 Hk3) as (Hd1 & Hd2 & Hd3).
    split_and!; [done|done|]. exists [], r, steps. split_and!; [done|done|]. by rewrite Hd3, Hk4.
Qed.

Lemma channel_run_not_opened steps c e : cl_phase c = NotOpened e → channel_run steps c = c.
Proof.
  intros Hph. induction steps as [|s steps IH]; [done|].
  change (channel_run (s :: steps) c) with (channel_run steps (channel_step c s)).
  assert (channel_step c s = c) as -> by (unfold channel_step; rewrite Hph; by destruct s). done.
Qed.

(** A thread whose loop could not be set up serves nothing. *)
Lemma channel_not_set_up steps stopped sleep node su w v :
  setup_ok su = false →
  let c := channel_run steps (channel_start stopped sleep node su w v) in
  ((∃ e, cl_phase c = NotOpened e) ∨ cl_phase c = Closed) ∧ cl_server c = server_new w.
Proof.
  intros Hsu c. unfold c, channel_start. destruct (open_with_retries _ _ _ _ _ _ v) as [[[ports|e] n] v'].
  - rewrite Hsu. unfold thread_returns, release_hub. simpl. set (c1 := MkChannel Closed _ _ _).
    assert (Hsame : ∀ steps, channel_run steps c1 = c1); [|rewrite Hsame; by auto].
    clear. induction steps as [|s steps IH]; [done|]. by destruct s.
  - erewrite channel_run_not_opened by done. by eauto.
Qed.
End channel.


(** ** A channel that is stopped during a call *)

Definition orders_start : Channel (V := gmultiset Resource) :=
  channel_start (F := Server.Provider.task) "" "" "orders" (λ _, false) (λ v, v) (Ok ()) (MkSetup (Ok ()) (Ok ())) Server.Provider.bus0 ∅.

Definition orders_run (steps : list ChannelStep) : Channel (V := gmultiset Resource) :=
  channel_run (T := Z) (E := Z) 0 Server.Provider.proc0 true "orders" Server.Provider.table steps orders_start.

Definition stopped_in_call : list ChannelStep :=
  [CRound (MkRound false (GotSample (Server.Provider.request, [])) false WaitEvent);
   CRound (MkRound true GotNothing false WaitDeadline)].

Definition call_ends : list ChannelStep := [CTask 1 empty_thread; CTask 1 empty_thread].

