(* ===== verification/Nodes.v ===== *)
(** * Nodes and services of the machine ([ice-rpc/src/monitor/inventory.rs],
    [config.rs], [ice-rpc-monitor/src/liveness.rs], [cleanup.rs], and the reaping
    functions of [transport/mod.rs])

    What the listings of iceoryx2 are read into, which emitters the monitor
    declares dead, and the repair of the state killed processes left. *)

From Stdlib Require Import Floats.
From S2P Require Import Prelude MachineInt Text Parse Event Header Context Correlate Metrics Collector Health Observer Render.

Local Open Scope Z_scope.

(** A listing of iceoryx2 calls back with its items, one after the other, and then
    ends, with an error perhaps; the callbacks of the sources always continue. *)
Record Listing (A : Type) : Type := MkListing { ls_items : list A; ls_end : result () string }.
Arguments MkListing {A}.
Arguments ls_items {A}.
Arguments ls_end {A}.

(** ** Nodes *)

Record NodeDetails : Type := MkNodeDetails { nd_executable : bytes; nd_name : bytes }.

Inductive IoxNodeState : Type :=
| XAlive (details : option NodeDetails)
| XDead (details : option NodeDetails)
| XInaccessible
| XUndefined.

(** A node of the listing: its state and what its id answers for the pid. *)
Record IoxNode : Type := MkIoxNode { xn_state : IoxNodeState; xn_pid : result Z string }.

Definition node_info (node : IoxNode) : NodeInfo :=
  let '(health, details) :=
    match xn_state node with
    | XAlive details => (NAlive, details)
    | XDead details => (NDead, details)
    | XInaccessible => (NInaccessible, None)
    | XUndefined => (NUndefined, None)
    end in
  let '(executable, name) :=
    match details with
    | Some d => (Some (of_bytes (from_utf8_lossy (nd_executable d))), Some (of_bytes (from_utf8_lossy (nd_name d))))
    | None => (None, None)
    end in
  MkNodeInfo (node_pid_to_u32 (xn_pid node)) health executable name.

Definition list_nodes (l : Listing IoxNode) : option (list NodeInfo) :=
  let nodes := fold_left (λ nodes node, nodes ++ [node_info node]) (ls_items l) [] in
  match ls_end l with Ok _ => Some nodes | Err _ => None end.

(** [liveness.rs]: the pids that own a node that is alive. *)
Definition is_alive (state : IoxNodeState) : bool := match state with XAlive _ => true | _ => false end.

Definition insert_alive (pids : gset Z) (node : IoxNode) : gset Z :=
  if is_alive (xn_state node) then
    {[match xn_pid node with Ok p => raw_pid_to_u32 p | Err _ => 0 end]} ∪ pids
  else pids.

Definition alive_pids (l : Listing IoxNode) : option (gset Z) :=
  let pids := fold_left insert_alive (ls_items l) ∅ in
  match ls_end l with Ok _ => Some pids | Err _ => None end.

Definition is_pid_alive (l : Listing IoxNode) (pid : Z) : bool :=
  match alive_pids l with Some pids => bool_decide (pid ∈ pids) | None => true end.

(** ** Processes ([health.rs], with the feature [process-metrics]) *)

(** [f32]: the division, [n as f32] and [x as f64], which is exact. *)
Abbreviation f32 := spec_float.
Definition f32_of_Z (z : Z) : f32 := binary_normalize 24 128 z 0 false.
Definition f32_div : f32 → f32 → f32 := SFdiv 24 128.
Definition f64_of_f32 (x : f32) : f64 :=
  match x with
  | S754_finite s m e => binary_normalize 53 1024 (if s then Zneg m else Zpos m) e s
  | _ => x
  end.

Record ProcessMetrics : Type := MkProcessMetrics {
  pm_pid : Z;
  pm_name : string;
  pm_cpu_percent : f32;
  pm_cpu_percent_total : f32;
  pm_rss_bytes : Z;
  pm_virtual_bytes : Z;
  pm_run_time_secs : Z
}.

(** A process as the system library reads it. *)
Record SysProcess : Type := MkSysProcess {
  sy_name : string;
  sy_cpu_usage : f32;
  sy_memory : Z;
  sy_virtual_memory : Z;
  sy_run_time : Z
}.

Definition process_metrics (cpu_count : f32) (pid : Z) (process : SysProcess) : ProcessMetrics :=
  MkProcessMetrics pid (sy_name process) (sy_cpu_usage process) (f32_div (sy_cpu_usage process) cpu_count)
    (sy_memory process) (sy_virtual_memory process) (sy_run_time process).

(** [refresh_processes], with the processes of the nodes after their refresh;
    there is no system when the library could not be started. *)
Definition refresh_processes (system : option (Z → option SysProcess)) (cpu_count : Z) (nodes : list NodeInfo)
    : list ProcessMetrics :=
  match system with
  | None => []
  | Some process =>
    let cpu_count := f32_of_Z (Z.max cpu_count 1) in
    omap (λ node, process_metrics cpu_count (ni_pid node) <$> process (ni_pid node)) nodes
  end.

(** What [set_health] keeps of them. *)
Definition process_sample (p : ProcessMetrics) : ProcessSample :=
  MkProcess (pm_name p) (f64_of_f32 (pm_cpu_percent p)) (f64_of_f32 (pm_cpu_percent_total p))
    (as_i64 (pm_rss_bytes p)) (as_i64 (pm_virtual_bytes p)) (as_i64 (pm_run_time_secs p)).

Definition set_processes (processes : list ProcessMetrics) : gmap Z ProcessSample :=
  fold_left (λ m p, <[pm_pid p := process_sample p]> m) processes ∅.

(** ** Services *)

Inductive MessagingPattern : Type := PublishSubscribe | EventPattern | RequestResponse | Blackboard | OtherPattern.

#[export] Instance MessagingPattern_eq_dec : EqDecision MessagingPattern.
Proof. solve_decision. Defined.

(** A service of the listing; its dynamic details, the nodes, may be missing. *)
Record IoxService : Type := MkIoxService {
  xs_name : string;
  xs_pattern : MessagingPattern;
  xs_nodes : option (list Z)
}.

Record ServiceInfo : Type := MkServiceInfo {
  si_name : string;
  si_pattern : string;
  si_role : ServiceRole;
  si_participants : nat
}.

Definition pattern_label (p : MessagingPattern) : string :=
  match p with
  | PublishSubscribe => "PublishSubscribe"
  | EventPattern => "Event"
  | RequestResponse => "RequestResponse"
  | Blackboard => "Blackboard"
  | OtherPattern => "Other"
  end.

Definition service_info (s : IoxService) : ServiceInfo :=
  MkServiceInfo (xs_name s) (pattern_label (xs_pattern s)) (role_of (xs_name s))
    (match xs_nodes s with Some nodes => length nodes | None => O end).

(** The error of a listing is its debug text. *)
Definition list_services (l : Listing IoxService) : result (list ServiceInfo) RpcError :=
  let services := fold_left (λ services s, services ++ [service_info s]) (ls_items l) [] in
  match ls_end l with
  | Ok _ => Ok services
  | Err e => Err (TransportError ("service inventory: " +:+ e)%string)
  end.

(** The labels an observer keys its series on. *)
Definition role_label (r : ServiceRole) : string :=
  match r with
  | RRequest => "req"
  | RResponse => "resp"
  | RRequestNotify => "req_notify"
  | RResponseNotify => "resp_notify"
  | ROther => "other"
  end.

(** [discover_channels] reads the same listing. *)
Definition discovery_listing (l : Listing IoxService) : list (string * bool) :=
  map (λ s, (xs_name s, bool_decide (xs_pattern s = PublishSubscribe))) (ls_items l).

(** ** The reads of a view ([transport/monitor.rs]) *)

(** The native header of a sample: the pid its node id answers, and the two ids. *)
Record SampleHeader : Type := MkSampleHeader { sh_pid : result Z string; sh_node_id : Z; sh_publisher_id : Z }.

Definition from_native (header : SampleHeader) : Emitter :=
  MkEmitter (node_pid_to_u32 (sh_pid header)) (sh_node_id header) (sh_publisher_id header).

Definition NativeSample : Type := RpcHeader * SampleHeader * bytes.

(** [received] is the answer of the port. *)
Definition try_receive (received : result (option NativeSample) string)
    : result (option (RpcHeader * Emitter * Z)) RpcError :=
  match received with
  | Ok (Some (user_header, header, payload)) => Ok (Some (user_header, from_native header, Z.of_nat (length payload)))
  | Ok None => Ok None
  | Err e => Err (TransportError ("monitor receive: " +:+ e)%string)
  end.

Definition try_receive_payload (received : result (option NativeSample) string) : result (option Received) RpcError :=
  match received with
  | Ok (Some (user_header, header, payload)) => Ok (Some (user_header, from_native header, payload))
  | Ok None => Ok None
  | Err e => Err (TransportError ("monitor receive: " +:+ e)%string)
  end.

(** [wait], with the number of activations the listener saw. *)
Definition view_wait (waited : result Z string) : result bool RpcError :=
  match waited with
  | Ok activations => Ok (0 <? activations)
  | Err e => Err (TransportError ("monitor wait: " +:+ e)%string)
  end.

(** ** The configuration and the reaping *)

(** The fields the sources touch, beside the root every process agrees on. *)
Record IoxConfig : Type := MkIoxConfig {
  ic_root_path : bytes;
  ic_cleanup_on_creation : bool;
  ic_cleanup_on_destruction : bool;
  ic_cleanup_on_open : bool
}.

Definition build_iceoryx2_config (global : IoxConfig) : IoxConfig := MkIoxConfig (ic_root_path global) true false false.

(** The nodes of dead processes and the markers of segments, as iceoryx2 lists and
    removes them. *)
Class ReapBus (W : Type) : Type := {
  node_create : IoxConfig → W → bool * W;
  (** The cleanups that were made and those that failed. *)
  try_cleanup_dead_nodes : W → Z * Z * W;
  shm_list : W → list string;
  shm_does_exist : string → W → bool * W;
  (** Whether the segment of a marker is still mapped. *)
  shm_mapped : string → W → bool
}.

(** The documented test of the sweep: a name that cannot be opened is unlinked. *)
Class ReapBusLaws (W : Type) `{ReapBus W} : Prop := {
  exist_lists n w :
    shm_list (shm_does_exist n w).2 = if shm_mapped n w then shm_list w else filter (.≠ n) (shm_list w);
  exist_maps n n' w : shm_mapped n' (shm_does_exist n w).2 = shm_mapped n' w
}.

Section reap.
Context {W : Type} `{ReapBus W}.

Definition cleanup_dead_nodes (global : IoxConfig) (w : W) : Z * W :=
  let built := build_iceoryx2_config global in
  let config := MkIoxConfig (ic_root_path built) false (ic_cleanup_on_destruction built) (ic_cleanup_on_open built) in
  match node_create config w with
  | (false, w1) => (0, w1)
  | (true, w1) => let '(cleanups, _, w2) := try_cleanup_dead_nodes w1 in (cleanups, w2)
  end.

Definition sweep_orphan_shm_markers (w : W) : nat * W :=
  let names := shm_list w in
  let w' := fold_left (λ w name, (shm_does_exist name w).2) names w in
  ((length names - length (shm_list w'))%nat, w').

Definition reap_dead_state (global : IoxConfig) (w : W) : Z * nat * W :=
  let '(dead_nodes, w1) := cleanup_dead_nodes global w in
  let '(orphan_markers, w2) := sweep_orphan_shm_markers w1 in
  (dead_nodes, orphan_markers, w2).
End reap.

(** ** What the listings are read into *)

Lemma fold_push {A B} (f : A → B) l acc : fold_left (λ bs a, bs ++ [f a]) l acc = acc ++ map f l.
Proof.
  revert acc. induction l as [|x l IH]; intros acc; simpl; [by rewrite app_nil_r|]. by rewrite IH, <- app_assoc.
Qed.

Lemma elem_of_alive l acc pid :
  pid ∈ fold_left insert_alive l acc ↔
  pid ∈ acc ∨ ∃ n, n ∈ map node_info l ∧ ni_pid n = pid ∧ ni_health n = NAlive.
Proof.
  revert acc. induction l as [|node l IH]; intros acc; simpl.
  { split; [by auto|]. intros [?|(n & Hn%elem_of_nil & _)]; done. }
  rewrite IH. setoid_rewrite elem_of_cons.
  assert (Hnode : pid ∈ insert_alive acc node ↔
    pid ∈ acc ∨ (ni_pid (node_info node) = pid ∧ ni_health (node_info node) = NAlive)).
  { unfold insert_alive, node_info, node_pid_to_u32. destruct node as [[d|d| |] p]; simpl; [destruct d|destruct d| |]; simpl;
      try (destruct p; set_solver); split; try (by auto); intros [?|[_ ?]]; done. }
  rewrite Hnode. naive_solver.
Qed.

(** A pid is alive when the nodes the inventory shows have one of it that is; when
    they cannot be listed, everyone is. *)
Lemma is_pid_alive_spec l pid :
  is_pid_alive l pid = true ↔
  ∀ nodes, list_nodes l = Some nodes → ∃ n, n ∈ nodes ∧ ni_pid n = pid ∧ ni_health n = NAlive.
Proof.
  unfold is_pid_alive, alive_pids, list_nodes. destruct (ls_end l) as [[]|e]; [|split; [done|by auto]].
  rewrite bool_decide_eq_true, elem_of_alive, fold_push. simpl.
  split; [intros Hin nodes [= <-]; set_solver|intros Hn; right; by apply Hn].
Qed.

(** The channels the observer discovers are those of the publish/subscribe services
    the inventory gives a direction to. *)
Lemma discovered_channels l services channel :
  list_services l = Ok services →
  channel ∈ discover_channels (discovery_listing l) ↔
  ∃ s d, s ∈ services ∧ si_pattern s = "PublishSubscribe"%string ∧ si_name s = (channel +:+ pub_sub_suffix d)%string.
Proof.
  unfold list_services. destruct (ls_end l); [|done]. rewrite fold_push. intros [= <-].
  rewrite discover_channels_spec. unfold discovery_listing. setoid_rewrite list_elem_of_fmap. split.
  - intros (d & s & [= Hn Hp] & Hs). symmetry in Hp. apply bool_decide_eq_true in Hp. exists (service_info s), d. split; [eauto|].
    simpl. by rewrite Hp.
  - intros (_ & d & (s & -> & Hs) & Hp & Hn). exists d, s. split; [|done]. simpl in *. rewrite Hn.
    by destruct (xs_pattern s).
Qed.

Lemma set_processes_fold cpu process nodes (m : gmap Z ProcessSample) pid :
  fold_left (λ m p, <[pm_pid p := process_sample p]> m)
    (omap (λ node, process_metrics cpu (ni_pid node) <$> process (ni_pid node)) nodes) m !! pid =
  match (if decide (pid ∈ map ni_pid nodes) then process pid else None) with
  | Some x => Some (process_sample (process_metrics cpu pid x))
  | None => m !! pid
  end.
Proof.
  revert m. induction nodes as [|n nodes IH]; intros m; [done|]. cbn [omap list_omap map].
  destruct (process (ni_pid n)) as [x|] eqn:Hx; simpl.
  - rewrite IH. destruct (decide (pid = ni_pid n)) as [->|Hne].
    + rewrite Hx, (decide_True _ _ (list_elem_of_here _ _)), lookup_insert_eq. by case_decide.
    + rewrite lookup_insert_ne by done. repeat case_decide; set_solver.
  - fold (omap (λ node, process_metrics cpu (ni_pid node) <$> process (ni_pid node)) nodes). rewrite IH.
    destruct (decide (pid = ni_pid n)) as [->|Hne]; [rewrite Hx; by repeat case_decide|]. repeat case_decide; set_solver.
Qed.

(** The two reads tell the same of a sample but for its payload: a view keeps what
    its mode keeps of it. *)
Lemma reads_agree v received :
  match try_receive received, try_receive_payload received with
  | Ok (Some (h, em, len)), Ok (Some (h', em', payload)) =>
      h = h' ∧ em = em' ∧ sample_of v (h', em', payload) = if vi_detail v then Full payload else Meta len
  | Ok None, Ok None => True
  | Err e, Err e' => e = e'
  | _, _ => False
  end.
Proof. by destruct received as [[[[h n] p]|]|e]. Qed.

(** The processes exported are those of the nodes of the snapshot that the system
    knows; nothing is left of an earlier snapshot. *)
Lemma processes_of_nodes process cpu_count nodes pid :
  set_processes (refresh_processes (Some process) cpu_count nodes) !! pid =
  if decide (pid ∈ map ni_pid nodes)
  then process_sample ∘ process_metrics (f32_of_Z (Z.max cpu_count 1)) pid <$> process pid else None.
Proof.
  unfold set_processes, refresh_processes. rewrite set_processes_fold. case_decide; [by destruct (process pid)|done].
Qed.

Example cpu_over_eight_cores :
  set_processes (refresh_processes (Some (λ _, Some (MkSysProcess "worker" (f32_of_Z 10) 2048 8192 30))) 8
    [MkNodeInfo 7 NAlive None None]) !! 7 =
  Some (MkProcess "worker" (f64_of_Z 10) (f64_lit 5 4) 2048 8192 30).
Proof. vm_compute. reflexivity. Qed.

(** ** Emitters that disappeared *)

(** A sum over the tracked emitters. *)
Definition total (f : Z → bool → nat) (m : gmap Z bool) : nat := sum_list_with (λ e, f e.1 e.2) (map_to_list m).

Lemma total_insert f k b m : m !! k = None → total f (<[k := b]> m) = (f k b + total f m)%nat.
Proof. intros Hk. unfold total. by rewrite map_to_list_insert. Qed.

Lemma total_imap f a m :
  total f (map_imap (λ pid _, Some (a pid)) m) = total (λ pid _, f pid (a pid)) m.
Proof.
  induction m as [|k b m Hk IH] using map_ind; [by rewrite map_imap_empty|].
  rewrite (map_imap_insert_Some _ k b _ (a k)) by done. rewrite !total_insert, IH; [done|done|].
  by rewrite map_lookup_imap, Hk.
Qed.

Lemma total_plus f g m : total (λ k b, f k b + g k b)%nat m = (total f m + total g m)%nat.
Proof. unfold total. induction (map_to_list m) as [|e l IH]; simpl; lia. Qed.

Lemma total_ext f g m : (∀ k b, f k b = g k b) → total f m = total g m.
Proof. intros Hfg. unfold total. induction (map_to_list m) as [|e l IH]; simpl; [done|]. by rewrite IH, Hfg. Qed.

Lemma size_filter_total (P : Z * bool → Prop) `{∀ e, Decision (P e)} m :
  size (filter P m) = total (λ k b, Nat.b2n (bool_decide (P (k, b)))) m.
Proof.
  induction m as [|k b m Hk IH] using map_ind; [by rewrite map_filter_empty, map_size_empty|].
  rewrite total_insert by done. destruct (decide (P (k, b))) as [Hp|Hp].
  - rewrite map_filter_insert_True by done. rewrite map_size_insert_None; [by rewrite bool_decide_eq_true_2, IH|].
    apply map_lookup_filter_None_2. by left.
  - rewrite map_filter_insert_not' by (congruence || done). by rewrite bool_decide_eq_false_2, IH.
Qed.

(** How often the answers about an emitter fall from alive to dead. *)
Fixpoint falls (alive : bool) (answers : list bool) : nat :=
  match answers with
  | [] => O
  | now_alive :: rest => (Nat.b2n (alive && negb now_alive) + falls now_alive rest)%nat
  end.

(** The checks of the liveness, each with the listing each emitter is looked up in:
    [is_pid_alive] lists the nodes again for every one of them. *)
Definition liveness_run (rounds : list (Z → Listing IoxNode)) (m : Monitor) : Monitor :=
  fold_left (λ m scan, check_liveness (λ pid, is_pid_alive (scan pid) pid) m) rounds m.

Lemma check_liveness_crashes alive m :
  m_node_crashes (mo_metrics (check_liveness alive m)) =
  m_node_crashes (mo_metrics m) + Z.of_nat (total (λ pid was, Nat.b2n (was && negb (alive pid))) (mo_pids m)).
Proof.
  unfold check_liveness. cbn [mo_metrics]. rewrite size_filter_total.
  rewrite (total_ext _ (λ pid was, Nat.b2n (was && negb (alive pid)))) by (intros k b; simpl; case_bool_decide; destruct b, (alive k); naive_solver).
  destruct (Z.ltb_spec 0 (Z.of_nat (total (λ pid was, Nat.b2n (was && negb (alive pid))) (mo_pids m)))); simpl; lia.
Qed.

(** C34. The crashes the monitor counts are the falls of the emitters it tracks: each
    is an emitter that was alive at the last check and of which a listing that
    succeeded shows no living node; a listing that fails makes nobody fall. *)
Theorem crashes_are_falls (rounds : list (Z → Listing IoxNode)) (m : Monitor) :
  let m' := liveness_run rounds m in
  m_node_crashes (mo_metrics m') =
    m_node_crashes (mo_metrics m) +
    Z.of_nat (total (λ pid was, falls was (map (λ scan, is_pid_alive (scan pid) pid) rounds)) (mo_pids m)) ∧
  (∀ pid was, mo_pids m !! pid = Some was →
     mo_pids m' !! pid = Some (default was (last (map (λ scan, is_pid_alive (scan pid) pid) rounds)))) ∧
  ∀ scan pid, is_pid_alive (scan pid) pid = false ↔
    ∃ nodes, list_nodes (scan pid) = Some nodes ∧ ∀ n, n ∈ nodes → ni_pid n = pid → ni_health n ≠ NAlive.
Proof.
  split_and!.
  - revert m. induction rounds as [|scan rounds IH]; intros m; simpl.
    + unfold total. induction (map_to_list (mo_pids m)); simpl; lia.
    + rewrite IH, check_liveness_crashes, total_plus. unfold check_liveness at 1. cbn [mo_pids]. rewrite total_imap. lia.
  - revert m. induction rounds as [|scan rounds IH]; intros m pid was Hpid; [done|]. simpl.
    rewrite (IH _ pid (is_pid_alive (scan pid) pid)).
    + rewrite last_cons. by destruct (last _).
    + unfold check_liveness. cbn [mo_pids]. by rewrite map_lookup_imap, Hpid.
  - intros scan pid. rewrite <- not_true_iff_false, is_pid_alive_spec. destruct (list_nodes (scan pid)) as [nodes|]; naive_solver.
Qed.

(** A node the monitor lacks the permission to look at is not alive: an emitter
    whose only node becomes inaccessible is counted as a crash. *)
Lemma inaccessible_counts_as_crash pid m :
  u32 pid → mo_pids m = {[pid := true]} →
  m_node_crashes (mo_metrics (liveness_run [λ _, MkListing [MkIoxNode XInaccessible (Ok pid)] (Ok ())] m)) =
  m_node_crashes (mo_metrics m) + 1.
Proof.
  intros Hpid Hm. unfold liveness_run. cbn [fold_left]. rewrite check_liveness_crashes, Hm. unfold total. rewrite map_to_list_singleton. done.
Qed.

(** ** The sweep of the markers *)

Lemma filter_ext_in {A} (P Q : A → Prop) `{∀ x, Decision (P x), ∀ x, Decision (Q x)} (l : list A) :
  (∀ x, x ∈ l → P x ↔ Q x) → filter P l = filter Q l.
Proof.
  induction l as [|x l IH]; intros Hpq; [done|]. rewrite !filter_cons, IH by set_solver.
  specialize (Hpq x ltac:(set_solver)). repeat case_decide; tauto.
Qed.

Section sweep.
Context {W : Type} `{ReapBusLaws W}.

Lemma sweep_names names w :
  let w' := fold_left (λ w name, (shm_does_exist name w).2) names w in
  shm_list w' = filter (λ n, n ∉ names ∨ shm_mapped n w = true) (shm_list w) ∧ ∀ n, shm_mapped n w' = shm_mapped n w.
Proof.
  revert w. induction names as [|n names IH]; intros w; simpl.
  { split; [|done]. symmetry. induction (shm_list w) as [|x l IH]; [done|].
    rewrite filter_cons_True by (left; set_solver). by f_equal. }
  destruct (IH (shm_does_exist n w).2) as [Hl Hm]. split; [|intros n'; by rewrite Hm, exist_maps].
  rewrite Hl, exist_lists. destruct (shm_mapped n w) eqn:Hn.
  - apply list_filter_iff. intros x. rewrite exist_maps, not_elem_of_cons. destruct (decide (x = n)) as [->|]; rewrite ?Hn; intuition congruence.
  - rewrite list_filter_filter. apply list_filter_iff. intros x. rewrite exist_maps, not_elem_of_cons.
    destruct (decide (x = n)) as [->|]; rewrite ?Hn; intuition congruence.
Qed.

(** The sweep removes the markers whose segment is gone, keeps the others and tells
    how many it removed. *)
Lemma sweep_removes_orphans w :
  let '(removed, w') := sweep_orphan_shm_markers w in
  shm_list w' = filter (λ n, shm_mapped n w = true) (shm_list w) ∧
  removed = length (filter (λ n, shm_mapped n w = false) (shm_list w)).
Proof.
  unfold sweep_orphan_shm_markers. destruct (sweep_names (shm_list w) w) as [Hl _].
  assert (Hmapped : shm_list (fold_left (λ w name, (shm_does_exist name w).2) (shm_list w) w) =
    filter (λ n, shm_mapped n w = true) (shm_list w)).
  { rewrite Hl. apply filter_ext_in. intros x Hx. naive_solver. }
  split; [done|]. rewrite Hmapped. clear Hl Hmapped. induction (shm_list w) as [|x l IH]; [done|].
  pose proof (length_filter (λ n, shm_mapped n w = true) l).
  rewrite !filter_cons. destruct (shm_mapped x w) eqn:Hx; simpl in *; lia.
Qed.
End sweep.

(** Markers, with the segments that are mapped. *)
#[export] Instance SimReap : ReapBus (list string * list string) := {
  node_create _ w := (true, w);
  try_cleanup_dead_nodes w := (0, 0, w);
  shm_list w := w.1;
  shm_does_exist n w := (bool_decide (n ∈ w.2), if bool_decide (n ∈ w.2) then w else (filter (.≠ n) w.1, w.2));
  shm_mapped n w := bool_decide (n ∈ w.2)
}.

#[export] Instance SimReap_laws : ReapBusLaws (list string * list string).
Proof. split; intros n; intros; simpl; by destruct (bool_decide (n ∈ _)). Qed.

Example sweep_example :
  (reap_dead_state (MkIoxConfig [] false true true) (["iox2_a"; "iox2_b"; "iox2_c"], ["iox2_b"]))%string =
  (0, 2%nat, (["iox2_b"], ["iox2_b"]))%string.
Proof. reflexivity. Qed.
