(* ===== verification/MonitorMain.v ===== *)
(** * The process of the monitor ([ice-rpc-monitor/src/main.rs], [shutdown.rs])

    The termination flag and who sets it, the interruptible sleep, the loop of the
    live view and the plan of [main].  Instants are in milliseconds; the moment the
    flag is set is an argument, [None] for never. *)

From stdpp Require Import pretty.
From S2P Require Import Prelude MachineInt Text Metrics Parse Config Render Console.

Local Open Scope Z_scope.

(** ** Termination *)

Inductive Signal : Type := Interrupt | Terminate.

#[export] Instance Signal_eq_dec : EqDecision Signal.
Proof. solve_decision. Defined.

(** The flag, the callbacks that are registered, the bridge that polls, and the
    pending signal of iceoryx2, which whoever reads it first consumes. *)
Record Termination : Type := MkTermination {
  tm_flag : bool;
  tm_guards : list Signal;
  tm_polling : bool;
  tm_pending : bool
}.

(** The registration stops at the first failure, and the bridge replaces it. *)
Fixpoint register_signals (accepts : Signal → bool) (signals : list Signal) (t : Termination) : Termination :=
  match signals with
  | [] => t
  | s :: rest =>
    if accepts s then
      register_signals accepts rest (MkTermination (tm_flag t) (tm_guards t ++ [s]) (tm_polling t) (tm_pending t))
    else MkTermination (tm_flag t) (tm_guards t) true (tm_pending t)
  end.

Definition install (accepts : Signal → bool) : Termination :=
  register_signals accepts [Interrupt; Terminate] (MkTermination false [] false false).

Definition request (t : Termination) : Termination :=
  MkTermination true (tm_guards t) (tm_polling t) (tm_pending t).

Inductive TermStep : Type := TSignal (s : Signal) | TBridge | TOtherReader.

Definition term_step (t : Termination) (step : TermStep) : Termination :=
  match step with
  | TSignal s =>
    if bool_decide (s ∈ tm_guards t) then request t
    else MkTermination (tm_flag t) (tm_guards t) (tm_polling t) true
  | TBridge =>
    if tm_polling t && tm_pending t then
      request (MkTermination (tm_flag t) (tm_guards t) (tm_polling t) false)
    else t
  | TOtherReader => MkTermination (tm_flag t) (tm_guards t) (tm_polling t) false
  end.

Definition term_run (steps : list TermStep) (t : Termination) : Termination := fold_left term_step steps t.

Lemma term_run_app l1 l2 t : term_run (l1 ++ l2) t = term_run l2 (term_run l1 t).
Proof. apply fold_left_app. Qed.

(** The flag is monotonic, and the registrations do not change. *)
Lemma term_run_keeps steps t :
  (tm_flag t = true → tm_flag (term_run steps t) = true) ∧
  tm_guards (term_run steps t) = tm_guards t ∧ tm_polling (term_run steps t) = tm_polling t.
Proof.
  revert t. induction steps as [|s steps IH]; intros t; [done|]. simpl. destruct (IH (term_step t s)) as (H1 & -> & ->).
  destruct s as [s| |]; simpl in *; [case_bool_decide|destruct (tm_polling t && tm_pending t)|]; simpl in *; (split; [auto|done]).
Qed.

(** With both callbacks no reader can take a signal away: once one has arrived
    the flag is set, for good. *)
Lemma signal_not_lost accepts before s after :
  accepts Interrupt = true → accepts Terminate = true →
  tm_flag (term_run (before ++ TSignal s :: after) (install accepts)) = true.
Proof.
  intros Hi Ht. rewrite term_run_app. cbn [term_run fold_left]. fold (term_run after).
  apply term_run_keeps. destruct (term_run_keeps before (install accepts)) as (_ & Hg & _).
  unfold term_step. rewrite Hg. unfold install. simpl. rewrite Hi. simpl. rewrite Ht. simpl.
  rewrite bool_decide_eq_true_2; [done|]. destruct s; set_solver.
Qed.

(** Without them the bridge sets it, unless another reader was first. *)
Lemma signal_can_be_lost accepts :
  accepts Interrupt = false →
  tm_flag (term_run [TSignal Interrupt; TBridge] (install accepts)) = true ∧
  tm_flag (term_run [TSignal Interrupt; TOtherReader; TBridge] (install accepts)) = false.
Proof. intros Hi. unfold install. simpl. by rewrite Hi. Qed.

(** ** The interruptible sleep *)

Definition cancelled_at (cancel : option Z) (now : Z) : bool :=
  match cancel with Some c => c <=? now | None => false end.

Definition SLEEP_STEP : Z := 100.

(** A round: [start] is the instant the sleep began, [slept] its state. *)
Definition sleep_body (cancel : option Z) (start total slept : Z) : Z + Z :=
  if (slept <? total) && negb (cancelled_at cancel (start + slept)) then inl (slept + Z.min SLEEP_STEP (total - slept))
  else inr slept.

(** How long it slept. *)
Definition sleep_interruptible (cancel : option Z) (start total : Z) : Z :=
  rust_loop (sleep_body cancel start total) (λ slept, Z.to_nat (total - slept)) (λ slept, slept) 0.

Lemma sleep_decreases cancel start total s s' :
  sleep_body cancel start total s = inl s' → (Z.to_nat (total - s') < Z.to_nat (total - s))%nat.
Proof.
  unfold sleep_body. destruct (Z.ltb_spec s total); [|done]. destruct (negb _); [|done]. intros [= <-]. unfold SLEEP_STEP. lia.
Qed.

(** The sleep ends: after its duration, or within a step of the flag. *)
Lemma sleep_bounds cancel start total :
  0 ≤ total →
  let slept := sleep_interruptible cancel start total in
  0 ≤ slept ≤ total ∧
  (cancelled_at cancel (start + slept) = false → slept = total) ∧
  (∀ c, cancel = Some c → start < c → start + slept < c + SLEEP_STEP) ∧
  (cancelled_at cancel start = true → slept = 0).
Proof.
  intros Htotal. unfold sleep_interruptible.
  pose proof (rust_loop_ind (sleep_body cancel start total) (λ slept, Z.to_nat (total - slept)) (λ slept, slept)
    (sleep_decreases cancel start total)
    (λ s r, 0 ≤ s ≤ total → s ≤ r ≤ total ∧ (cancelled_at cancel (start + r) = false → r = total) ∧
       (∀ c, cancel = Some c → start + s < c + SLEEP_STEP → start + r < c + SLEEP_STEP) ∧
       (cancelled_at cancel (start + s) = true → r = s))) as Hind.
  specialize (λ a b, Hind a b 0). simpl in Hind. rewrite Z.add_0_r in Hind.
  assert (Hr : 0 ≤ 0 ≤ total) by lia. revert Hr.
  match goal with |- context [rust_loop ?b ?m ?o 0] => set (r := rust_loop b m o 0) in * end.
  intros Hr. assert (Hmain := λ a b, Hind a b Hr). clear Hind. destruct Hmain as (H1 & H2 & H3 & H4).
  - intros s x. unfold sleep_body. destruct (Z.ltb_spec s total) as [Hlt|Hge]; simpl.
    + destruct (cancelled_at cancel (start + s)) eqn:Hc; simpl; [|done]. intros [= <-] Hs. rewrite Hc. split_and!; (lia || done).
    + intros [= <-] Hs. split_and!; (lia || done).
  - intros s s' x. unfold sleep_body. destruct (Z.ltb_spec s total) as [Hlt|Hge]; simpl; [|done].
    destruct (cancelled_at cancel (start + s)) eqn:Hc; simpl; [done|]. intros [= <-] IH Hs.
    unfold SLEEP_STEP in *. destruct IH as (I1 & I2 & I3 & I4); [lia|]. split_and!; [lia..|done| |done].
    intros c -> Hlt'. apply I3; [done|]. simpl in Hc. apply Z.leb_gt in Hc. lia.
  - split; [lia|]. split; [done|]. split; [|done]. intros c Hc Hlt. apply H3; [done|]. unfold SLEEP_STEP. lia.
Qed.

(** ** The live loop *)

Definition LIVE_REFRESH : Z := 1000.

(** A round of the loop: the instant and the frames drawn. *)
Definition live_body (cancel : Z) (st : Z * nat) : Z * nat + Z * nat :=
  let '(now, frames) := st in
  if cancelled_at (Some cancel) now then inr st
  else
    let now' := now + sleep_interruptible (Some cancel) now LIVE_REFRESH in
    if cancelled_at (Some cancel) now' then inr (now', frames) else inl (now', S frames).

Definition live_loop (cancel start : Z) : Z * nat :=
  rust_loop (live_body cancel) (λ st, Z.to_nat (cancel - st.1)) (λ st, st) (start, O).

Lemma live_round cancel now frames :
  match live_body cancel (now, frames) with
  | inl (now', frames') => now' = now + LIVE_REFRESH ∧ now' < cancel ∧ frames' = S frames
  | inr (now', frames') => frames' = frames ∧ cancel ≤ now' ∧
      (cancel ≤ now ∧ now' = now ∨ now < cancel ≤ now + LIVE_REFRESH ∧ now' < cancel + SLEEP_STEP)
  end.
Proof.
  unfold live_body. cbn [cancelled_at]. destruct (Z.leb_spec cancel now) as [Hle|Hlt]; [by auto|].
  destruct (sleep_bounds (Some cancel) now LIVE_REFRESH ltac:(done)) as (H1 & H2 & H3 & _). cbn [cancelled_at] in H2.
  specialize (H3 cancel eq_refl Hlt). cbv zeta. set (s := sleep_interruptible (Some cancel) now LIVE_REFRESH) in *.
  destruct (Z.leb_spec cancel (now + s)) as [Hc|Hc].
  - split; [done|]. split; [done|]. right. split; [lia|done].
  - rewrite H2 in * by done. done.
Qed.

Lemma live_decreases cancel st st' :
  live_body cancel st = inl st' → (Z.to_nat (cancel - st'.1) < Z.to_nat (cancel - st.1))%nat.
Proof.
  destruct st as [now frames], st' as [now' frames']. intros Hb. pose proof (live_round cancel now frames) as Hr.
  rewrite Hb in Hr. destruct Hr as (-> & Hlt & _). unfold LIVE_REFRESH in *. simpl. lia.
Qed.

(** The view draws a frame every second until the flag is set, and stops within a
    step of the sleep of it. *)
Lemma live_loop_spec cancel start :
  let '(now, frames) := live_loop cancel start in
  cancel ≤ now ∧ now < Z.max (start + 1) (cancel + SLEEP_STEP) ∧
  Z.of_nat frames = Z.max 0 ((cancel - 1 - start) / LIVE_REFRESH).
Proof.
  unfold live_loop.
  pose proof (rust_loop_ind (live_body cancel) (λ st, Z.to_nat (cancel - st.1)) (λ st, st) (live_decreases cancel)
    (λ s r, cancel ≤ r.1 ∧ r.1 < Z.max (s.1 + 1) (cancel + SLEEP_STEP) ∧
       Z.of_nat r.2 = Z.of_nat s.2 + Z.max 0 ((cancel - 1 - s.1) / LIVE_REFRESH))) as Hind.
  specialize (λ a b, Hind a b (start, O)). simpl in Hind. destruct (rust_loop _ _ _ (start, O)) as [now frames]. apply Hind; clear Hind.
  - intros [t n] [t' n'] Hb. pose proof (live_round cancel t n) as Hr. rewrite Hb in Hr. simpl.
    destruct Hr as (-> & Hle & [[Hc ->]|[Hc Hlt]]); unfold SLEEP_STEP, LIVE_REFRESH in *; (split; [done|split; [lia|]]);
      Z.to_euclidean_division_equations; lia.
  - intros [t n] [t' n'] [t'' n''] Hb. pose proof (live_round cancel t n) as Hr. rewrite Hb in Hr. simpl.
    destruct Hr as (-> & Hlt & ->). intros (H1 & H2 & H3). unfold SLEEP_STEP, LIVE_REFRESH in *. split; [done|]. split; [lia|].
    rewrite H3. Z.to_euclidean_division_equations; lia.
Qed.

(** ** [main] *)

Section main.
Context {Addr : Type} (HELP : string).

Inductive MonitorAct : Type :=
| APrint (text : string)
| AError (text : string)
| ACleanup
| AServe (addr : Addr)
| AInstall
| ARun
| AObserve
| ATerminal (output : bytes)
| AJoin.

(** What the parts answer: the reaping (dead nodes, orphan markers), the endpoint,
    the creation of the monitor, its run; the frames it would draw one after the other. *)
Record MonitorWorld : Type := MkMonitorWorld {
  mw_reaped : Z * nat;
  mw_serve : result () string;
  mw_created : result () string;
  mw_run : result () string;
  mw_terminal : Terminal;
  mw_frame : nat → bytes;
  mw_cancel : Z
}.

Definition cleanup_acts (reaped : Z * nat) : list MonitorAct :=
  [ACleanup;
   AError ("ice-rpc-monitor: cleanup reaped " +:+ pretty reaped.1 +:+ " dead node(s), " +:+ pretty reaped.2
           +:+ " orphan shm marker(s)")].

Definition live_message (channels : nat) : string :=
  "ice-rpc-monitor: live view, observing " +:+ pretty channels +:+ " requested channel(s), Ctrl+C to stop".

(** The acts of the process, and its exit code.  What the thread of the observer
    reports is written before its join. *)
Definition monitor_main (config : result (Config (Addr := Addr)) string) (w : MonitorWorld) : list MonitorAct * Z :=
  match config with
  | Err message => if String.eqb message HELP then ([APrint message], 0) else ([AError message], 2)
  | Ok config =>
    let started :=
      (if cf_cleanup config then cleanup_acts (mw_reaped w) else [])
      ++ match cf_prometheus_addr config with
         | Some addr =>
             AServe addr :: match mw_serve w with
                            | Err e => [AError ("failed to start the Prometheus endpoint: " +:+ e)]
                            | Ok _ => []
                            end
         | None => []
         end
      ++ [AInstall] in
    match mw_created w with
    | Err e => (started ++ [AError e], 1)
    | Ok _ =>
      let '(console, entered) := live_new (cf_console_live config) (mw_terminal w) in
      if negb (lc_active console) then
        match mw_run w with
        | Err e => (started ++ [ARun; AError ("monitor error: " +:+ e)], 1)
        | Ok _ => (started ++ [ARun], 0)
        end
      else
        let frames := map (mw_frame w) (seq 0 (live_loop (mw_cancel w) 0).2) in
        let '(console', closing) := leave console in
        (started ++ [ATerminal entered; AError (live_message (length (cf_channels config))); AObserve]
         ++ map (λ f, ATerminal (draw console f)) frames
         ++ [ATerminal closing]
         ++ match mw_run w with Err e => [AError ("monitor error: " +:+ e)] | Ok _ => [] end
         ++ [AJoin; ATerminal (live_drop console')], 0)
    end
  end.

(** What a run writes to the terminal. *)
Definition terminal_output (acts : list MonitorAct) : bytes :=
  concat (map (λ a, match a with ATerminal o => o | _ => [] end) acts).

Lemma terminal_output_app a b : terminal_output (a ++ b) = terminal_output a ++ terminal_output b.
Proof. unfold terminal_output. by rewrite map_app, concat_app. Qed.

(** The live run of the monitor ends: it is a session of the console that draws
    a frame a second until the flag is set, stops within a step of it and closes the
    terminal it opened, whatever is reaped, served or reported around it. *)
Theorem live_main_session config w :
  mw_created w = Ok () → cf_console_live config = true → te_tty (mw_terminal w) = true →
  let '(acts, code) := monitor_main (Ok config) w in
  let '(stopped, frames) := live_loop (mw_cancel w) 0 in
  code = 0 ∧
  terminal_output acts = live_session true (mw_terminal w) (map (mw_frame w) (seq 0 frames)) ∧
  Z.of_nat frames = Z.max 0 ((mw_cancel w - 1) / LIVE_REFRESH) ∧
  mw_cancel w ≤ stopped < Z.max 1 (mw_cancel w + SLEEP_STEP).
Proof.
  intros Hc Hl Ht. unfold monitor_main. rewrite Hc, Hl. pose proof (live_loop_spec (mw_cancel w) 0) as Hloop.
  destruct (live_loop (mw_cancel w) 0) as [stopped n]. unfold live_session, live_new. rewrite Ht. cbn [andb negb lc_active].
  unfold leave. cbn [lc_active fst snd]. rewrite Z.sub_0_r in Hloop. destruct Hloop as (H1 & H2 & H3).
  split_and!; try done. rewrite !terminal_output_app.
  assert (Hstart : terminal_output (if cf_cleanup config then cleanup_acts (mw_reaped w) else []) = []) by (by destruct (cf_cleanup config)).
  assert (Hserve : terminal_output match cf_prometheus_addr config with
      | Some addr => AServe addr :: match mw_serve w with
          | Err e => [AError ("failed to start the Prometheus endpoint: " +:+ e)] | Ok _ => [] end
      | None => [] end = []) by (destruct (cf_prometheus_addr config); [by destruct (mw_serve w)|done]).
  assert (Hrun : terminal_output match mw_run w with
      | Err e => [AError ("monitor error: " +:+ e)] | Ok _ => [] end = []) by (by destruct (mw_run w)).
  rewrite Hstart, Hserve, Hrun. unfold terminal_output. cbn [map concat app]. rewrite map_map, !app_nil_r. done.
Qed.
End main.

Definition live_config : Config (Addr := ()) :=
  MkConfig (Some ()) ["orders"%string] Stats [] 2000 5000 60000 100000 0 None FJson ∅ 2000 false true true 1000.

Definition live_world : MonitorWorld :=
  MkMonitorWorld (3, 1%nat) (Err "in use"%string) (Ok ()) (Ok ()) (MkTerminal true (true, 80) None None) (λ _, as_bytes "frame") 2530.

Lemma live_main_session_witness :
  let '(acts, code) := monitor_main "usage" (Ok live_config) live_world in
  let '(stopped, frames) := live_loop (mw_cancel live_world) 0 in
  code = 0 ∧
  terminal_output acts = live_session true (mw_terminal live_world) (map (mw_frame live_world) (seq 0 frames)) ∧
  Z.of_nat frames = Z.max 0 ((mw_cancel live_world - 1) / LIVE_REFRESH) ∧
  mw_cancel live_world ≤ stopped < Z.max 1 (mw_cancel live_world + SLEEP_STEP).
Proof. exact (live_main_session "usage" live_config live_world eq_refl eq_refl eq_refl). Defined.

Example live_loop_example : live_loop 2530 0 = (2600, 2%nat).
Proof. reflexivity. Qed.
